(* ===== verification/_CoqProject ===== *)
-Q . S2P
Prelude.v
Collections.v
Budget.v
Text.v
Graph.v
Scc.v
Skeleton.v
References.v
Query.v
Sites.v
Implementors.v
Imports.v
JavaText.v
JavaEnclosing.v
JavaDeclarations.v
Trace.v
Render.v
RepoMap.v
Lines.v
Context.v
Answers.v
Framing.v
Client.v
Files.v
Cst.v
Extract.v
Classify.v
Words.v
Scan.v
Symbols.v
Utf8.v
Locate.v
Engine.v
Commands.v
Cache.v
Index.v
Subtypes.v
Session.v
SessionSpec.v
Search.v
Daemon.v
Placement.v
Routing.v
Citations.v
Start.v
Version.v
Status.v
Cli.v
Mcp.v
Server.v
