(* ===== verification/Prelude.v ===== *)
(** * ktsense: verification library

    ktsense answers questions about Kotlin and Java repositories - outlines, symbol searches, traces
    of callers, dependency graphs, repository maps and context bundles - within a token budget. Its
    pure logic is the crate [ktsense-core]; the other crates feed it (tree-sitter extraction, a
    language server, file system walks) and serve its answers (a command line, a daemon, an MCP
    server). This library translates the logic of these crates into executable definitions and proves
    what makes each part correct.

    ** Parts and files

    - [Prelude]: characters, strings, decimal printing, checked [usize] arithmetic, automation.
    - [Collections]: comparators, the stable sort, [BTreeMap] and [BTreeSet] as sorted lists.
    - [Budget] ([budget.rs], [lib.rs]): [emit_within_budget] over any [TokenEstimator], and the
      byte-ratio estimator computed on binary64 floats.
    - [Text] ([text.rs]): [neutralize], [fence_for], [normalize_signature_layout].
    - [Graph] ([rank.rs]): [Graph::from_edges] and PageRank over a class of float operations.
    - [Scc] ([scc.rs]): the iterative Tarjan walk, strongly connected components and cycles.
    - [Skeleton] ([skeleton.rs]): the declaration model shared by every other part.
    - [References] ([references.rs], [filter.rs]): enclosing declarations, grouped references, the
      path-and-tests filter.
    - [Query] ([pick.rs], [symbol_search.rs]): resolving a picked name, ranking contained matches.
    - [Sites] ([text_refs.rs], [text_search.rs], [annotated.rs]): listings of text matches.
    - [Implementors] ([implementors.rs]): the breadth-first walk over supertype clauses.
    - [Imports] ([imports.rs]): import resolution and the dependency graph, over [Scc].
    - [JavaText] ([java_text.rs]): the Java lexer's states and the site classifier.
    - [JavaEnclosing], [JavaDeclarations] ([java_enclosing.rs]): the Java tokenizer, the enclosing
      scan and the declaration scan.
    - [Trace] ([trace.rs]): [build_trace] over [References], [Sites] and [Implementors].
    - [Render] ([render.rs], the skeleton writer): signatures, members, outlines and their notices.
    - [RepoMap] ([repo_map.rs]): ranking over [Imports] and [Graph], budgeted emission over [Budget],
      the focus section and the omission summary.
    - [Lines] ([render.rs]): the list lines shared by rendered answers.
    - [Context] ([context.rs]): the bundle about one symbol: its source, caller caps, priority order.
    - [Answers] ([render.rs]): the Markdown and Graphviz documents of every answer.
    - [Framing] ([ktsense-lsp/src/framing.rs], the read loop of [client.rs]): Content-Length frames.
    - [Client] ([ktsense-lsp/src/client.rs]): requests in flight over one engine stream, as interleaved steps.
    - [Cst], [Extract] ([ktsense-syntax/src/extract.rs]): syntax trees as the parser hands them over, and
      the walk that turns one into a [FileSkeleton].
    - [Classify] ([ktsense-syntax/src/classify.rs], [annotations.rs]): what kind of text a Kotlin site is in,
      and the declarations an annotation marks.
    - [Words], [Scan] ([ktsense-cli/src/text_refs.rs]): the whole-word scan of Kotlin and Java sources, the
      references it attributes to declarations and the answer for an unknown name.
    - [Files] ([ktsense-cli/src/main.rs], the walks): which files a command reads, and display paths.
    - [Symbols] ([ktsense-cli/src/symbols.rs]): engine candidates enriched from skeletons, selected and shown.
    - [Utf8]: the two UTF-8 decoders of the standard library.
    - [Locate] ([ktsense-lsp/src/symbols.rs]): the column of a name on a reported line.
    - [Engine] ([requests.rs], [passthrough.rs] of [ktsense-lsp], [ktsense-daemon/src/symbols.rs]): what is
      asked of the engine and how its replies and its printed output are read.
    - [Commands] ([ktsense-cli/src/main.rs], [identifiers.rs]): the one-shot commands, composed of the parts
      above over the files of a [World].
    - [Cache] ([ktsense-cli/src/cache.rs]): the daemon's parsed skeletons.
    - [Index] ([ktsense-lsp/src/progress.rs], [ktsense-daemon/src/engine.rs], [ktsense-cli/src/trace.rs]): the
      engine's index phase, the task that follows it and the waits for it, as interleaved steps.
    - [Subtypes] ([ktsense-cli/src/implementors.rs]): the type nodes of a workspace, closed by [Implementors].
    - [Session] ([ktsense-cli/src/trace.rs]): a trace's session over the engine, its skeleton cache and its
      resolution in process and on the warm daemon; [SessionSpec]: the trace it refines, level by level.
    - [Search] ([ktsense-cli/src/grep.rs], [context.rs]): the grep and context commands.
    - [Daemon] ([ktsense-daemon/src/wire.rs], [client.rs], [server.rs]): frames over a stream of reads, the two
      ends of a connection, the serving loops and the life of the socket.
    - [Placement] ([ktsense-daemon/src/placement.rs], [lib.rs]): where a root's socket goes.
    - [Routing] ([ktsense-cli/src/routing.rs], [status.rs]): [route] asks [Daemon]'s server, whose engine runs the
      commands on [Cache] and the warm session, and falls back to the in-process run.
    - [Citations] ([ktsense-mcp/src/citations.rs], [lib.rs]): the tool catalogue and the index of the files and
      lines an answer cites.
    - [Start] ([ktsense-cli/src/daemon.rs], [start] down to [await_liveness]): any number of starts of one root
      over the claim file, its locks and the socket, as interleaved system calls.
    - [Version] ([ktsense-lsp/src/version.rs]): the engine's version line and the gate it is judged by.
    - [Status] ([ktsense-cli/src/status.rs], the rest of [daemon.rs]): what is observed of an installation, what
      the lifecycle commands say and where a root's daemon is.
    - [Cli] ([ktsense-cli/src/main.rs]): the subcommands, [run] and what the process leaves.
    - [Mcp] ([ktsense-mcp/src/server.rs], [roots.rs]): the tools, the words they spell for the binary, and how
      what [Cli] left is presented, over [Citations].
    - [Server] ([ktsense-mcp/src/server.rs], [warm.rs]): the calls of a session as interleaved steps over the
      client's roots and the engines kept warm.

    ** How the code is read

    A [str] is the list of its Unicode scalar values; byte offsets are sums of UTF-8 lengths. A
    fallible computation returns [option]: [None] is a Rust [None] where the code returns one, and a
    panic (an index out of range, an underflow) where the code would panic; the comment at each such
    definition says which, and a theorem shows that the panic never happens. A [BTreeMap] is a sorted
    association list, a [HashMap] that is only looked up likewise. [usize] is a natural number, checked
    where the code checks it or where an underflow would panic; token sums are kept at 64 bits, and the two
    unchecked sums of the code, of a row and one ([one_based], 32 bits) and of a line index and [--around]
    ([window], [usize]), wrap as an optimised build does: the theorems over them say when they do not. Floats
    are the operations of the class [FloatOps]; what is proved of ranks is proved in exact arithmetic.
    A [char] test that needs the Unicode database is a parameter, the class [Unicode].

    ** Loops and fuel

    Loops over collections are folds or structural recursion. The others carry fuel, and a theorem
    shows the fuel is enough: Tarjan's walk by its count of unvisited nodes and unread edges
    ([walk_loop]), the implementor walk by the nodes still to expand ([bfs_loop]), and the scanners by
    the length of what is left to read ([tokenize_loop], [tokenize_chars], [scan_loop], [decl_loop],
    [decode_bytes]). A walk over a syntax tree carries the tree's weight, or the room left to the nesting
    limit the code enforces ([MAX_NESTING_DEPTH], [MAX_LOCAL_SCAN_DEPTH]); the file walks carry the pending
    entries within [MAX_TRAVERSAL_DEPTH]; [count_loop] carries the nodes of the tree; [serve_frames] carries the
    bytes of the stream, of which a frame takes four at least; [positions_loop] carries the length of the line.
    The waiting task of [Index], the requests of [Client], the starts of [Start] and the calls of [Server] have no fuel: they are steps of
    any interleaving, and a theorem bounds the steps of each ([LONGEST_START], [steps_left]).

    ** What the theorems show

    Budgets: a budgeted answer is the longest affordable prefix, its bound is exact and never above the
    budget, and maps and bundles built on it inherit that. Accounting: whatever an answer lists plus
    whatever it reports as omitted, capped, filtered or hidden is everything there was. Exactness:
    components, cycles, dependency edges, implementors, callers, picks and enclosing declarations are
    characterised independently of the algorithm that finds them. Order: answers are sorted as stated
    and do not depend on the order files were read in. Safety: rendered source cannot leave its line or
    its fence or its document, and a default outline is the same whatever the private declarations are (the private
    properties of a constructor apart, which it shows). Wire formats: what is framed is read back however the bytes
    arrive, and a fault loses nothing before it and fails what begins after it; a reply settles the request it answers,
    with what it says, and no other; a path survives its URI.
    Composition: the map command is the pure map of exactly the readable, parseable production files; a
    daemon that caches skeletons answers as the commands do on the files as they are at each request; the
    warm lookup and the engine process lead to the same candidates where they find the same declarations; and waiting for the index ends, with an
    answer that is never a race between the tasks. A session's mutable cache and counters refine a trace computed
    from the files alone, whose deeper levels never list a caller twice. The daemon: an exchange over the socket
    carries each outcome of the engine to the client in order, a daemon ends only when told, idle, faulted or
    refused its connections, and outlives any client, it never touches a socket that is not its own, and a routed
    command ends in the in-process answer once the engine has settled; of concurrent starts one at a time holds the
    claim, one wins, and each ends unless the daemon it found never greets it; status prints the daemon's own
    snapshot. The server: calls that ask for different things are spelled in different words, which name exactly the
    options asked for, an answer's index cites what its text cites, a syntax check's outcome and count are the
    report's, each root is warmed once and a call is about the client's roots as they are. Each theorem's comment
    states the conditions it takes; a lemma next to it, or a finding of the manifest, shows what happens without them.

    ** Not modelled

    Serialisation to JSON (an answer in JSON is the value it serialises), builder setters without logic,
    [debug_assert!], and the code that only moves data (spawning processes, the socket calls, the terminal: what
    they return is an argument). The argument parser and the MCP protocol with its schemas are third-party crates:
    [Cli] starts from the parsed command, and what [Mcp] proves of the words it spells does not say how they are parsed.
    The parser and its grammar are third-party code: they are the class [Grammar] with the laws
    [GrammarLaws] of a syntax tree, as the engine's replies are the class [EngineClient]. File names that
    are not UTF-8 are left out except in socket names, and so are regular expressions, which are a parameter. Line numbers are
    natural numbers except where the code narrows them. *)
From Stdlib Require Import Ascii String.
From stdpp Require Export base tactics list numbers option.
From stdpp Require Export sorting.
From Stdlib Require Export Lia Wf_nat.
Export String.StringSyntax Ascii.AsciiSyntax.

Set Default Proof Using "Type*".

(** ** Characters and strings *)

(** A Rust [char] is a Unicode scalar value; a [str] is the sequence of its
    characters. Byte lengths are recovered with [utf8_len]. *)
Abbreviation char := N (only parsing).
Abbreviation str := (list N) (only parsing).

Definition lit (s : String.string) : str := N_of_ascii <$> list_ascii_of_string s.
Arguments lit s%_string : simpl never.
Definition ch (a : Ascii.ascii) : char := N_of_ascii a.
Arguments ch a%_char : simpl never.

(** [char::len_utf8] and [str::len]. *)
Definition len_utf8 (c : char) : N :=
  if (c <? 128)%N then 1%N else if (c <? 2048)%N then 2%N else if (c <? 65536)%N then 3%N else 4%N.
Definition utf8_len (s : str) : N := foldr (fun c n => (len_utf8 c + n)%N) 0%N s.

(** [str::as_bytes]: the UTF-8 encoding. *)
Definition utf8_char (c : char) : list N :=
  if (c <? 128)%N then [c]
  else if (c <? 2048)%N then [192 + c / 64; 128 + c mod 64]%N
  else if (c <? 65536)%N then [224 + c / 4096; 128 + c / 64 mod 64; 128 + c mod 64]%N
  else [240 + c / 262144; 128 + c / 4096 mod 64; 128 + c / 64 mod 64; 128 + c mod 64]%N.
Definition as_bytes (s : str) : list N := concat (utf8_char <$> s).

(** [char::len_utf16]. *)
Definition len_utf16 (c : char) : N := if (c <? 65536)%N then 1%N else 2%N.

(** [char::is_control] (general category Cc) and [char::is_whitespace]
    (property White_Space), both closed lists in Unicode. *)
Definition is_control (c : char) : bool :=
  (c <? 32)%N || ((127 <=? c)%N && (c <? 160)%N).
Definition is_whitespace (c : char) : bool :=
  ((9 <=? c)%N && (c <=? 13)%N) || bool_decide (c ∈ [32; 133; 160; 5760; 8232; 8233; 8239; 8287; 12288]%N)
  || ((8192 <=? c)%N && (c <=? 8202)%N).

(** The part of [char::is_alphabetic]/[is_numeric] beyond ASCII is a table of the
    Unicode database; the ASCII part is written out. *)
Class Unicode := {
  uni_alphabetic : char -> bool;
  uni_numeric : char -> bool }.

Definition ascii_alphabetic (c : char) : bool :=
  ((65 <=? c)%N && (c <=? 90)%N) || ((97 <=? c)%N && (c <=? 122)%N).
Definition ascii_digit (c : char) : bool := (48 <=? c)%N && (c <=? 57)%N.
Definition is_alphabetic `{Unicode} (c : char) : bool :=
  if (c <? 128)%N then ascii_alphabetic c else uni_alphabetic c.
Definition is_alphanumeric `{Unicode} (c : char) : bool :=
  if (c <? 128)%N then ascii_alphabetic c || ascii_digit c else uni_alphabetic c || uni_numeric c.

(** [str::starts_with], [str::ends_with], [str::contains]. *)
Fixpoint starts_with (s p : str) : bool :=
  match p, s with
  | [], _ => true
  | c :: p', d :: s' => (c =? d)%N && starts_with s' p'
  | _ :: _, [] => false
  end.
Definition ends_with (s p : str) : bool := starts_with (rev s) (rev p).
Fixpoint contains_str (s p : str) : bool :=
  starts_with s p || match s with [] => false | _ :: s' => contains_str s' p end.

(** [str::split] on a character predicate: the pieces between separators, never empty. *)
Fixpoint split_by (p : char -> bool) (s : str) : list str :=
  match s with
  | [] => [[]]
  | c :: s' =>
      if p c then [] :: split_by p s'
      else match split_by p s' with
           | piece :: rest => (c :: piece) :: rest
           | [] => [[c]]
           end
  end.
Definition split_char (c : char) : str -> list str := split_by (fun d => (d =? c)%N).

(** [str::rsplit(c).next()]: the last piece. *)
Definition last_piece (c : char) (s : str) : str := default [] (last (split_char c s)).

(** [str::rsplit_once(c)]: the text around the last separator. *)
Fixpoint rsplit_once (c : char) (s : str) : option (str * str) :=
  match s with
  | [] => None
  | d :: s' =>
      match rsplit_once c s' with
      | Some (before, after) => Some (d :: before, after)
      | None => if (d =? c)%N then Some ([], s') else None
      end
  end.

(** [slice::join]. *)
Fixpoint join (sep : str) (pieces : list str) : str :=
  match pieces with
  | [] => []
  | [p] => p
  | p :: rest => p ++ sep ++ join sep rest
  end.

(** [str::trim_start], [str::trim_end], [str::trim] and [str::split_whitespace]. *)
Fixpoint trim_start (s : str) : str :=
  match s with
  | [] => []
  | c :: s' => if is_whitespace c then trim_start s' else s
  end.
Definition trim_end (s : str) : str := rev (trim_start (rev s)).
Definition trim (s : str) : str := trim_end (trim_start s).
Definition split_whitespace (s : str) : list str :=
  filter (fun piece => piece ≠ []) (split_by is_whitespace s).

(** [str::lines]: split after each line feed, which goes with a carriage return before it; what
    follows the last line feed is a line as it stands, unless it is empty. *)
Definition strip_cr (s : str) : str :=
  match last s with
  | Some c => if (c =? 13)%N then take (length s - 1) s else s
  | None => s
  end.
Definition lines (s : str) : list str :=
  let pieces := split_char 10%N s in
  let terminated := length pieces - 1 in
  (strip_cr <$> take terminated pieces) ++ filter (fun piece => piece <> []) (drop terminated pieces).

(** Decimal and hexadecimal printing, as [format!] does. *)
Definition digit_char (d : N) : char := if (d <? 10)%N then (48 + d)%N else (55 + d)%N.
Fixpoint digits_fuel (fuel : nat) (base n : N) (acc : str) : str :=
  match fuel with
  | O => acc
  | S fuel' =>
      let acc' := digit_char (n mod base)%N :: acc in
      if (n / base =? 0)%N then acc' else digits_fuel fuel' base (n / base)%N acc'
  end.
Definition radix (base n : N) : str := digits_fuel (S (N.size_nat n)) base n [].
Definition dec (n : N) : str := radix 10 n.
Definition hex4 (n : N) : str :=
  let d := radix 16 n in replicate (4 - length d) 48%N ++ d.

(** [Vec::dedup]: drops consecutive repeats. *)
Fixpoint dedup {A} `{EqDecision A} (l : list A) : list A :=
  match l with
  | [] => []
  | x :: l' =>
      match l' with
      | [] => [x]
      | y :: _ => if decide (x = y) then dedup l' else x :: dedup l'
      end
  end.

(** Largest value of a 64-bit [usize], and [usize::checked_add]. *)
Definition usize_max : N := 18446744073709551615%N.
Definition u32_max : N := 4294967295%N.
Definition checked_add (a b : N) : option N :=
  if (a + b <=? usize_max)%N then Some (a + b)%N else None.

(** [usize] subtraction, checked: [None] where Rust would underflow. *)
Definition checked_sub (a b : N) : option N := if (b <=? a)%N then Some (a - b)%N else None.

(** [str::parse] to an unsigned integer of the given largest value: an optional plus sign, then
    digits, each step checked. *)
Definition parse_step (limit : N) (acc : option N) (c : char) : option N :=
  n ← acc;
  if ascii_digit c then let n' := (n * 10 + (c - 48))%N in if (n' <=? limit)%N then Some n' else None else None.
Definition parse_unsigned (limit : N) (s : str) : option N :=
  let digits := match s with c :: (_ :: _) as rest => if (c =? 43)%N then rest else s | _ => s end in
  match digits with [] => None | _ => foldl (parse_step limit) (Some 0%N) digits end.

(** [str::split_once(c)]: the text around the first separator. *)
Fixpoint split_once (c : char) (s : str) : option (str * str) :=
  match s with
  | [] => None
  | d :: s' => if (d =? c)%N then Some ([], s') else '(before, after) ← split_once c s'; Some (d :: before, after)
  end.

(** [str::eq_ignore_ascii_case]. *)
Definition ascii_lower (c : char) : char := if (65 <=? c)%N && (c <=? 90)%N then (c + 32)%N else c.
Definition eq_ignore_ascii_case (a b : str) : bool := bool_decide (ascii_lower <$> a = ascii_lower <$> b).

(** The UTF-16 length. *)
Definition utf16_len (s : str) : N := foldr (fun c n => (len_utf16 c + n)%N) 0%N s.

(** [&source[from..]]; [None] where Rust panics. *)
Fixpoint str_from (s : str) (from : N) : option str :=
  if (from =? 0)%N then Some s
  else match s with
       | [] => None
       | c :: s' => if (len_utf8 c <=? from)%N then str_from s' (from - len_utf8 c)%N else None
       end.

(** [&text[..to]]. *)
Fixpoint str_to (s : str) (to : N) : option str :=
  if (to =? 0)%N then Some []
  else match s with
       | [] => None
       | c :: s' => if (len_utf8 c <=? to)%N then (cons c) <$> str_to s' (to - len_utf8 c)%N else None
       end.

(** [&source[a..b]]; [None] where Rust panics. *)
Definition str_slice (s : str) (a b : N) : option str :=
  if (a <=? b)%N then tail ← str_from s a; str_to tail (b - a)%N else None.

(** [str::find] of a string: the byte offset of the first occurrence. *)
Fixpoint find_str (s p : str) : option N :=
  if starts_with s p then Some 0%N
  else match s with [] => None | c :: s' => N.add (len_utf8 c) <$> find_str s' p end.

(** [str::strip_prefix] of a string. *)
Fixpoint strip_prefix (s p : str) : option str :=
  match p, s with
  | [], _ => Some s
  | c :: p', d :: s' => if (c =? d)%N then strip_prefix s' p' else None
  | _ :: _, [] => None
  end.

(** [str::trim_start_matches] and [trim_end_matches] of a non-empty string; a match is at least one
    character long, so the length is fuel enough. *)
Fixpoint trim_matches_fuel (fuel : nat) (p s : str) : str :=
  match fuel with
  | O => s
  | S fuel' => match strip_prefix s p with Some rest => trim_matches_fuel fuel' p rest | None => s end
  end.
Definition trim_start_matches (p s : str) : str := trim_matches_fuel (length s) p s.
Definition trim_end_matches (p s : str) : str := rev (trim_start_matches (rev p) (rev s)).

(** [Iterator::skip_while] and [take_while]. *)
Fixpoint skip_while {A} (f : A -> bool) (l : list A) : list A :=
  match l with [] => [] | x :: l' => if f x then skip_while f l' else l end.
Fixpoint take_while {A} (f : A -> bool) (l : list A) : list A :=
  match l with [] => [] | x :: l' => if f x then x :: take_while f l' else [] end.

(** [slice[i] = x] on an index the code has checked; out of range is a panic. *)
Definition set_index {A} (l : list A) (i : nat) (x : A) : option (list A) :=
  if decide (i < length l) then Some (<[i := x]> l) else None.

(** ** Automation *)

Create HintDb ktsense.

(** Case analysis on every match and decision of the goal, then simplification. *)
Ltac split_cases := repeat (case_match || case_decide || case_bool_decide); simplify_eq/=.

(** Characters of literals, computed. *)
Ltac chars := repeat match goal with |- context [ch ?a] => let v := eval vm_compute in (ch a) in change (ch a) with v end.

(** Takes a successful fallible computation apart, one bind or test at a time. *)
Ltac invert_some H :=
  repeat (simplify_eq/=; match type of H with
          | _ ≫= _ = Some _ => apply bind_Some in H as (? & ? & H)
          | (if ?b then _ else _) = Some _ => destruct b
          | match ?x with _ => _ end = Some _ => destruct x eqn:?
          end); simplify_eq/=.

(** Closed goals, by evaluation. *)
Ltac compute_done := vm_compute; first [reflexivity | discriminate | done].

Lemma checked_sub_le a b : (b <= a)%N -> checked_sub a b = Some (a - b)%N.
Proof. intros Hb. unfold checked_sub. by rewrite (proj2 (N.leb_le b a) Hb). Qed.

(** ** Generic list lemmas *)

Lemma elem_of_concat {A} (x : A) (ls : list (list A)) : x ∈ concat ls <-> exists l, l ∈ ls /\ x ∈ l.
Proof.
  induction ls as [|l ls IH]; simpl.
  - split; [by intros ?%elem_of_nil|]. by intros (l & ?%elem_of_nil & _).
  - rewrite elem_of_app, IH. setoid_rewrite elem_of_cons. naive_solver.
Qed.

Lemma elem_of_rev {A} (x : A) (l : list A) : x ∈ rev l <-> x ∈ l.
Proof. by rewrite !list_elem_of_In, <- in_rev. Qed.

Lemma length_concat_sum {A} (ls : list (list A)) : length (concat ls) = sum_list (length <$> ls).
Proof. induction ls as [|l ls IH]; csimpl; [done|]. by rewrite length_app, IH. Qed.

Lemma sublist_strongly_sorted {A} (R : A -> A -> Prop) (l k : list A) :
  l `sublist_of` k -> StronglySorted R k -> StronglySorted R l.
Proof.
  induction 1 as [|y l k Hs IH|y l k _ IH]; [done|..].
  - intros [Hk Hy]%StronglySorted_inv. constructor; [by apply IH|]. rewrite Forall_forall in Hy |- *. intros x Hx. apply Hy.
    by eapply elem_of_sublist.
  - intros [Hk _]%StronglySorted_inv. by apply IH.
Qed.

(** ** Lemmas on strings *)

Lemma length_as_bytes (s : str) : N.of_nat (length (as_bytes s)) = utf8_len s.
Proof.
  induction s as [|c s IH]; [done|]. unfold as_bytes in *. csimpl.
  rewrite length_app, Nat2N.inj_add, IH. f_equal. unfold utf8_char, len_utf8. by repeat case_match.
Qed.

Lemma as_bytes_app (a b : str) : as_bytes (a ++ b) = as_bytes a ++ as_bytes b.
Proof. unfold as_bytes. by rewrite fmap_app, concat_app. Qed.

Lemma starts_with_spec (s p : str) : starts_with s p = true <-> p `prefix_of` s.
Proof.
  revert s. induction p as [|c p IH]; intros s; simpl.
  { split; [intros _; apply prefix_nil|by destruct s]. }
  destruct s as [|d s]; simpl.
  { split; [done|]. by intros []%prefix_nil_not. }
  rewrite andb_true_iff, N.eqb_eq, IH. split.
  - intros [-> ?]. by apply prefix_cons.
  - intros Hp. split; [by apply prefix_cons_inv_1 in Hp|by apply prefix_cons_inv_2 in Hp].
Qed.

Lemma utf8_len_cons c s : utf8_len (c :: s) = (len_utf8 c + utf8_len s)%N.
Proof. done. Qed.
Lemma len_utf8_pos c : (1 <= len_utf8 c <= 4)%N.
Proof. unfold len_utf8. repeat case_match; lia. Qed.
Lemma utf8_len_app (a b : str) : utf8_len (a ++ b) = (utf8_len a + utf8_len b)%N.
Proof. rewrite <- !length_as_bytes, as_bytes_app, length_app. lia. Qed.

Lemma utf16_len_app (a b : str) : utf16_len (a ++ b) = (utf16_len a + utf16_len b)%N.
Proof. induction a as [|c a IH]; [done|]. cbn [app]. change (utf16_len (c :: ?x)) with (len_utf16 c + utf16_len x)%N. rewrite IH. lia. Qed.

Lemma str_from_app a b : str_from (a ++ b) (utf8_len a) = Some b.
Proof.
  induction a as [|c a IH]; simpl.
  - by destruct b.
  - assert (1 <= len_utf8 c)%N by (unfold len_utf8; repeat case_match; lia).
    rewrite (proj2 (N.eqb_neq _ _)), (proj2 (N.leb_le _ _)) by lia.
    by replace (len_utf8 c + utf8_len a - len_utf8 c)%N with (utf8_len a) by lia.
Qed.

Lemma str_to_app a b : str_to (a ++ b) (utf8_len a) = Some a.
Proof.
  induction a as [|c a IH]; [by destruct b|].
  assert (1 <= len_utf8 c)%N by (unfold len_utf8; repeat case_match; lia).
  change (utf8_len (c :: a)) with (len_utf8 c + utf8_len a)%N. cbn [str_to app].
  rewrite (proj2 (N.eqb_neq _ _)), (proj2 (N.leb_le _ _)) by lia.
  replace (len_utf8 c + utf8_len a - len_utf8 c)%N with (utf8_len a) by lia. by rewrite IH.
Qed.

Lemma str_slice_app a b c : str_slice (a ++ b ++ c) (utf8_len a) (utf8_len a + utf8_len b) = Some b.
Proof.
  unfold str_slice. rewrite (proj2 (N.leb_le _ _)) by lia. rewrite str_from_app. cbn [mbind option_bind].
  replace (utf8_len a + utf8_len b - utf8_len a)%N with (utf8_len b) by lia. apply str_to_app.
Qed.

(** A found occurrence is the first one. *)
Lemma find_str_spec s p :
  match find_str s p with
  | Some o => exists a b, s = a ++ p ++ b /\ o = utf8_len a /\ (forall a' b', s = a' ++ p ++ b' -> length a <= length a')
  | None => forall a b, s <> a ++ p ++ b
  end.
Proof.
  induction s as [|c s IH]; cbn [find_str].
  - destruct (starts_with [] p) eqn:E.
    + apply starts_with_spec in E as [k Ek]. exists [], k. split_and!; [done|done|]. cbn. lia.
    + intros a b Eab. destruct a; [|done]. cbn in Eab. assert (starts_with [] p = true) by (apply starts_with_spec; by exists b). congruence.
  - destruct (starts_with (c :: s) p) eqn:E.
    + apply starts_with_spec in E as [k Ek]. exists [], k. split_and!; [done|done|]. cbn. lia.
    + assert (forall b, c :: s <> p ++ b) as Hno.
      { intros b Eb. assert (starts_with (c :: s) p = true) by (apply starts_with_spec; by exists b). congruence. }
      destruct (find_str s p) as [o|]; cbn.
      * destruct IH as (a & b & -> & -> & Hfirst). exists (c :: a), b. split_and!; [done|by rewrite utf8_len_cons|].
        intros [|d a'] b' Ea; [by apply Hno in Ea|]. injection Ea as _ Ea. apply Hfirst in Ea. cbn. lia.
      * intros [|d a] b Ea; [by apply Hno in Ea|]. injection Ea as _ Ea. by apply IH in Ea.
Qed.

Lemma strip_prefix_app p s : strip_prefix (p ++ s) p = Some s.
Proof. induction p as [|c p IH]; [by destruct s|]. cbn. by rewrite N.eqb_refl. Qed.
Lemma trim_start_id s : Forall (fun c => is_whitespace c = false) s -> trim_start s = s.
Proof. destruct 1 as [|c s Hc Hs]; [done|]. cbn. by rewrite Hc. Qed.
Lemma trim_id s : Forall (fun c => is_whitespace c = false) s -> trim s = s.
Proof.
  intros Hs. unfold trim, trim_end. rewrite (trim_start_id s) by done. rewrite trim_start_id by by apply Forall_rev.
  apply rev_involutive.
Qed.

Lemma trim_start_app (a b : str) : trim_start (a ++ b) = match trim_start a with [] => trim_start b | s => s ++ b end.
Proof. induction a as [|c a IH]; [done|]. cbn [app trim_start]. by destruct (is_whitespace c). Qed.
(** Trimming stops at the last character that is not white space. *)
Lemma trim_end_snoc (a : str) c (b : str) : is_whitespace c = false -> trim_end (a ++ c :: b) = a ++ c :: trim_end b.
Proof.
  intros Hc. unfold trim_end. rewrite rev_app_distr. cbn [rev]. rewrite <- app_assoc, trim_start_app.
  assert (forall l : str, trim_start ([c] ++ l) = c :: l) as Hs by (intros l; cbn; by rewrite Hc).
  destruct (trim_start (rev b)) as [|d l].
  - rewrite Hs. cbn [rev]. by rewrite rev_involutive.
  - rewrite !rev_app_distr, rev_involutive. cbn [rev app]. by rewrite <- app_assoc.
Qed.
Lemma trim_start_suffix s : exists a, s = a ++ trim_start s.
Proof. induction s as [|c s [a IH]]; [by exists []|]. cbn. destruct (is_whitespace c); [|by exists []]. exists (c :: a). cbn. by rewrite <- IH. Qed.
Lemma trim_end_prefix s : exists b, s = trim_end s ++ b.
Proof.
  destruct (trim_start_suffix (rev s)) as [a E]. exists (rev a). unfold trim_end. rewrite <- rev_app_distr, <- E. by rewrite rev_involutive.
Qed.

Lemma strip_prefix_spec s p : strip_prefix s p = if starts_with s p then Some (drop (length p) s) else None.
Proof.
  revert s. induction p as [|c p IH]; intros s; [by destruct s|]. destruct s as [|d s]; cbn; [done|].
  destruct (c =? d)%N; [apply IH|done].
Qed.

(** The last byte of a character is an ASCII byte only if it is that character. *)
Lemma last_utf8_char (c d : char) : (d < 128)%N -> last (utf8_char c) = Some d <-> c = d.
Proof.
  intros Hd. unfold utf8_char.
  destruct (N.ltb_spec c 128); [cbn [last]; naive_solver|].
  repeat case_match; cbn [last]; (split; [intros [= E]; generalize dependent (c mod 64)%N; intros|]; lia).
Qed.

Lemma last_as_bytes (s : str) (d : char) : (d < 128)%N -> last (as_bytes s) = Some d <-> last s = Some d.
Proof.
  intros Hd. destruct s as [|c s _] using rev_ind; [done|].
  rewrite as_bytes_app, last_snoc. unfold as_bytes. simpl. rewrite app_nil_r, last_app.
  assert (is_Some (last (utf8_char c))) as [b Hb] by (unfold utf8_char; repeat case_match; eauto).
  rewrite Hb, <- Hb, (last_utf8_char c d Hd). split; congruence.
Qed.

Lemma starts_with_nil (s : str) : starts_with s [] = true.
Proof. by destruct s. Qed.

Lemma ends_with_spec (s p : str) : ends_with s p = true <-> p `suffix_of` s.
Proof.
  unfold ends_with. rewrite starts_with_spec, suffix_prefix_reverse.
  unfold reverse. by rewrite !rev_append_rev, !app_nil_r.
Qed.

(** Decimal printing and parsing. *)
Lemma digit_char_digit m : (m < 10)%N -> ascii_digit (digit_char m) = true /\ (digit_char m - 48 = m)%N.
Proof.
  intros Hm. unfold digit_char, ascii_digit. rewrite (proj2 (N.ltb_lt m 10) Hm), andb_true_iff, !N.leb_le. lia.
Qed.

Lemma digits_fuel_parse limit fuel n acc :
  (n < 2 ^ N.of_nat fuel)%N -> (n <= limit)%N ->
  foldl (parse_step limit) (Some 0%N) (digits_fuel fuel 10 n acc) = foldl (parse_step limit) (Some n) acc.
Proof.
  revert n acc. induction fuel as [|fuel IH]; intros n acc Hn Hl; cbn [digits_fuel].
  { by replace n with 0%N by (change (2 ^ N.of_nat 0)%N with 1%N in Hn; lia). }
  pose proof (N.mod_upper_bound n 10 ltac:(done)) as Hmod. pose proof (N.Div0.div_mod n 10) as Hdiv.
  destruct (digit_char_digit _ Hmod) as [Hd Hv].
  destruct (N.eqb_spec (n / 10) 0) as [E|E].
  - cbn [foldl]. unfold parse_step at 2. cbn [mbind option_bind]. rewrite Hd, Hv.
    replace (0 * 10 + n mod 10)%N with n by lia. by rewrite (proj2 (N.leb_le n limit) Hl).
  - rewrite IH; [|rewrite Nat2N.inj_succ, N.pow_succ_r' in Hn; lia|lia]. cbn [foldl].
    unfold parse_step at 2. cbn [mbind option_bind]. rewrite Hd, Hv.
    replace (n / 10 * 10 + n mod 10)%N with n by lia. by rewrite (proj2 (N.leb_le n limit) Hl).
Qed.

Lemma digits_fuel_digits fuel n acc :
  Forall (fun c => ascii_digit c = true) acc ->
  Forall (fun c => ascii_digit c = true) (digits_fuel fuel 10 n acc) /\ length acc <= length (digits_fuel fuel 10 n acc) <= length acc + fuel.
Proof.
  revert n acc. induction fuel as [|fuel IH]; intros n acc Ha; cbn [digits_fuel]; [split; [done|lia]|].
  assert (Forall (fun c => ascii_digit c = true) (digit_char (n mod 10) :: acc)) as Hc.
  { constructor; [|done]. by apply digit_char_digit, N.mod_upper_bound. }
  case_match; [split; [done|simpl; lia]|]. destruct (IH (n / 10)%N _ Hc) as [? Hl]. split; [done|]. simpl in Hl. lia.
Qed.

Lemma dec_digits n : Forall (fun c => ascii_digit c = true) (dec n) /\ 1 <= length (dec n) <= S (N.size_nat n).
Proof.
  unfold dec, radix. set (k := N.size_nat n). clearbody k. cbn [digits_fuel].
  destruct (digits_fuel_digits k (n / 10) [digit_char (n mod 10)]) as [Hd Hl].
  { constructor; [|constructor]. by apply digit_char_digit, N.mod_upper_bound. }
  simpl in Hl. case_match; [|split; [done|lia]]. split; [|simpl; lia].
  pose proof (digits_fuel_digits 1 n [] ltac:(constructor)) as [Hx _]. cbn [digits_fuel] in Hx. by case_match.
Qed.

Lemma parse_dec limit n : (n <= limit)%N -> parse_unsigned limit (dec n) = Some n.
Proof.
  intros Hl. destruct (dec_digits n) as [Hd Hlen].
  assert (foldl (parse_step limit) (Some 0%N) (dec n) = Some n) as Hp.
  { unfold dec, radix. rewrite digits_fuel_parse; [done| |done].
    apply (N.lt_le_trans _ (2 ^ N.size n)); [apply N.size_gt|]. apply N.pow_le_mono_r; [done|].
    destruct n as [|p]; [cbn; lia|]. cbn [N.size N.size_nat].
    assert (Npos (Pos.size p) = N.of_nat (Pos.size_nat p)) as -> by (clear; induction p as [p IH|p IH|]; cbn [Pos.size Pos.size_nat]; lia). lia. }
  unfold parse_unsigned. destruct (dec n) as [|c [|d s]]; [simpl in Hlen; lia|done|].
  apply Forall_cons in Hd as [Hc _]. destruct (N.eqb_spec c 43) as [->|]; [done|done].
Qed.

(** A separator cuts a string into pieces free of it, and joining them gives it back. *)
Lemma split_char_nonempty c s : split_char c s <> [].
Proof.
  unfold split_char. destruct s as [|d s]; simpl; [done|]. case_match; [done|]. by case_match.
Qed.

Lemma split_char_cons c d s :
  split_char c (d :: s) =
    if (d =? c)%N then [] :: split_char c s
    else match split_char c s with piece :: rest => (d :: piece) :: rest | [] => [[d]] end.
Proof. done. Qed.

Lemma join_cons sep p q ps : join sep (p :: q :: ps) = p ++ sep ++ join sep (q :: ps).
Proof. done. Qed.

Lemma join_split c s : join [c] (split_char c s) = s.
Proof.
  induction s as [|d s IH]; [done|]. rewrite split_char_cons.
  pose proof (split_char_nonempty c s) as Hne. destruct (split_char c s) as [|p ps]; [done|].
  case_match eqn:E.
  - apply N.eqb_eq in E as ->. rewrite join_cons, IH. done.
  - destruct ps as [|q ps]; simpl in *; by rewrite IH.
Qed.

Lemma split_pieces_free c s p : p ∈ split_char c s -> c ∉ p.
Proof.
  revert p. induction s as [|d s IH]; intros p; [by intros ->%list_elem_of_singleton ?%elem_of_nil|].
  rewrite split_char_cons. case_match eqn:E.
  - intros [->|?]%elem_of_cons; [by intros ?%elem_of_nil|auto].
  - apply N.eqb_neq in E. destruct (split_char c s) as [|q ps].
    + intros ->%list_elem_of_singleton. rewrite list_elem_of_singleton. congruence.
    + intros [->|Hp]%elem_of_cons; [|apply IH; by right].
      rewrite not_elem_of_cons. split; [congruence|apply IH; left].
Qed.

Lemma split_char_free c p : c ∉ p -> split_char c p = [p].
Proof.
  induction p as [|d p IH]; [done|]. rewrite not_elem_of_cons, split_char_cons. intros [Hd Hp].
  rewrite (proj2 (N.eqb_neq d c)) by congruence. by rewrite IH.
Qed.

Lemma split_char_app c p s : c ∉ p -> split_char c (p ++ c :: s) = p :: split_char c s.
Proof.
  induction p as [|d p IH]; cbn [app]; rewrite split_char_cons; [by rewrite N.eqb_refl|].
  rewrite not_elem_of_cons. intros [Hd Hp]. rewrite (proj2 (N.eqb_neq d c)) by congruence. by rewrite IH.
Qed.

Lemma split_join c ps : ps <> [] -> (forall p, p ∈ ps -> c ∉ p) -> split_char c (join [c] ps) = ps.
Proof.
  induction ps as [|p ps IH]; [done|]. intros _ Hps. destruct ps as [|q ps].
  - apply split_char_free, Hps. left.
  - rewrite join_cons. cbn [app]. rewrite split_char_app by (apply Hps; left).
    rewrite IH; [done|done|]. intros r Hr. apply Hps. by right.
Qed.

Lemma join_app c ps qs : ps <> [] -> qs <> [] -> join [c] (ps ++ qs) = join [c] ps ++ c :: join [c] qs.
Proof.
  intros Hps Hqs. induction ps as [|p ps IH]; [done|]. destruct ps as [|q ps].
  - by destruct qs.
  - cbn [app] in *. rewrite !join_cons, IH by done. cbn [app]. by rewrite <- app_assoc.
Qed.

Lemma split_char_sep c a b : split_char c (a ++ c :: b) = split_char c a ++ split_char c b.
Proof.
  rewrite <- (split_join c (split_char c a ++ split_char c b)).
  - by rewrite join_app, !join_split by apply split_char_nonempty.
  - intros E. apply app_eq_nil in E as [E _]. by apply split_char_nonempty in E.
  - intros p [Hp|Hp]%elem_of_app; by eapply split_pieces_free.
Qed.
