(* ===== verification/Collections.v ===== *)
(** * Collections: Rust's [Ord], [slice::sort_by], [BTreeMap] and [BTreeSet]

    The standard-library collections every [ktsense-core] module relies on, with
    the lemmas the components share. A [BTreeMap] is an association list kept in
    strictly increasing key order, which is also the order its iterators follow. *)
From S2P Require Import Prelude.

Set Default Proof Using "Type*".

(** ** Rust's [Ord] *)

Class Ord (A : Type) := cmp : A -> A -> comparison.

Class OrdLaws (A : Type) `{Ord A} : Prop := {
  cmp_eq_iff (x y : A) : cmp x y = Eq <-> x = y;
  cmp_opp (x y : A) : cmp y x = CompOpp (cmp x y);
  cmp_lt_trans (x y z : A) : cmp x y = Lt -> cmp y z = Lt -> cmp x z = Lt }.

Definition then_cmp (a b : comparison) : comparison :=
  match a with Eq => b | _ => a end.
Definition ord_lt {A} `{Ord A} (x y : A) : Prop := cmp x y = Lt.
Definition ord_le {A} `{Ord A} (x y : A) : Prop := cmp x y <> Gt.

#[export] Instance ord_N : Ord N := N.compare.
#[export] Instance ord_nat : Ord nat := Nat.compare.
#[export] Instance ord_bool : Ord bool :=
  fun x y => match x, y with false, true => Lt | true, false => Gt | _, _ => Eq end.
#[export] Instance ord_option {A} `{Ord A} : Ord (option A) :=
  fun x y => match x, y with
             | None, None => Eq | None, Some _ => Lt | Some _, None => Gt
             | Some a, Some b => cmp a b
             end.
#[export] Instance ord_prod {A B} `{Ord A} `{Ord B} : Ord (A * B) :=
  fun x y => then_cmp (cmp x.1 y.1) (cmp x.2 y.2).
#[export] Instance ord_list {A} `{Ord A} : Ord (list A) :=
  fix go x y := match x, y with
                | [], [] => Eq | [], _ :: _ => Lt | _ :: _, [] => Gt
                | a :: x', b :: y' => then_cmp (cmp a b) (go x' y')
                end.

(** A comparator as [sort_by] takes it: total, transitive, possibly coarser than equality. *)
Class CmpPre {A : Type} (f : A -> A -> comparison) : Prop := {
  pre_opp x y : f y x = CompOpp (f x y);
  pre_trans x y z : f x y <> Gt -> f y z <> Gt -> f x z <> Gt }.

(** Comparing by a key ([sort_by_key]) and comparing by one key, then another. *)
Definition cmp_on {A B} `{Ord B} (key : A -> B) (x y : A) : comparison := cmp (key x) (key y).
Definition cmp_then {A} (f g : A -> A -> comparison) (x y : A) : comparison :=
  then_cmp (f x y) (g x y).
Definition cmp_desc {A} (f : A -> A -> comparison) (x y : A) : comparison := f y x.

#[global] Typeclasses Opaque cmp_on cmp_then cmp_desc.

(** [slice::sort_by], a stable sort. *)
Fixpoint insert_by {A} (f : A -> A -> comparison) (x : A) (l : list A) : list A :=
  match l with
  | [] => [x]
  | y :: l' => match f x y with Gt => y :: insert_by f x l' | _ => x :: y :: l' end
  end.
Definition sort_by {A} (f : A -> A -> comparison) : list A -> list A := foldr (insert_by f) [].
Definition sort_by_key {A B} `{Ord B} (key : A -> B) : list A -> list A := sort_by (cmp_on key).
Definition sort {A} `{Ord A} : list A -> list A := sort_by cmp.

(** ** [BTreeMap] and [BTreeSet], as association lists kept in key order *)

Section btree.
Context {K V : Type} `{Ord K}.

Fixpoint bt_upsert (k : K) (f : option V -> V) (m : list (K * V)) : list (K * V) :=
  match m with
  | [] => [(k, f None)]
  | (k', v) :: m' =>
      match cmp k k' with
      | Lt => (k, f None) :: (k', v) :: m'
      | Eq => (k', f (Some v)) :: m'
      | Gt => (k', v) :: bt_upsert k f m'
      end
  end.
Definition bt_insert (k : K) (v : V) : list (K * V) -> list (K * V) := bt_upsert k (fun _ => v).
Fixpoint bt_get (k : K) (m : list (K * V)) : option V :=
  match m with
  | [] => None
  | (k', v) :: m' => match cmp k k' with Eq => Some v | _ => bt_get k m' end
  end.
Definition bt_sorted (m : list (K * V)) : Prop := StronglySorted ord_lt m.*1.

End btree.

Fixpoint bs_insert {K} `{Ord K} (k : K) (s : list K) : list K :=
  match s with
  | [] => [k]
  | k' :: s' => match cmp k k' with Lt => k :: k' :: s' | Eq => k' :: s' | Gt => k' :: bs_insert k s' end
  end.
Definition bs_sorted {K} `{Ord K} (s : list K) : Prop := StronglySorted ord_lt s.

(** [collect()] of key/value pairs into a map: the last value of a key wins. *)
Definition bt_of_list {K V} `{Ord K} (l : list (K * V)) : list (K * V) :=
  foldl (fun m kv => bt_insert kv.1 kv.2 m) [] l.

(** The [map.entry(key(x)).or_default().push(x)] loop shared by every grouping. *)
Definition bt_push {K A} `{Ord K} (k : K) (x : A) (m : list (K * list A)) : list (K * list A) :=
  bt_upsert k (fun o => default [] o ++ [x]) m.
Definition bt_group {K A} `{Ord K} (key : A -> K) (l : list A) : list (K * list A) :=
  foldl (fun m x => bt_push (key x) x m) [] l.

(** The cap every listing applies: [Vec::truncate], with the number dropped. *)
Definition cap_at {A} (limit : option nat) (l : list A) : list A * nat :=
  match limit with
  | Some limit => if (limit <? length l)%nat then (take limit l, length l - limit) else (l, 0)
  | None => (l, 0)
  end.

(** ** Lemmas: orders *)

Lemma then_cmp_opp a b : then_cmp (CompOpp a) (CompOpp b) = CompOpp (then_cmp a b).
Proof. by destruct a. Qed.

Section ord_lemmas.
Context {A : Type} `{OrdLaws A}.

Lemma cmp_refl (x : A) : cmp x x = Eq.
Proof. by apply cmp_eq_iff. Qed.

Lemma ord_lt_irrefl (x : A) : ~ ord_lt x x.
Proof. unfold ord_lt. by rewrite cmp_refl. Qed.

Lemma cmp_gt_lt (x y : A) : cmp x y = Gt <-> cmp y x = Lt.
Proof. rewrite (cmp_opp x y). destruct (cmp x y); simpl; intuition congruence. Qed.

Lemma ord_le_iff (x y : A) : ord_le x y <-> ord_lt x y \/ x = y.
Proof.
  unfold ord_le, ord_lt. rewrite <- cmp_eq_iff. destruct (cmp x y); simpl; intuition congruence.
Qed.

#[export] Instance ord_lt_transitive : Transitive (ord_lt (A := A)).
Proof. intros x y z. apply cmp_lt_trans. Qed.

#[export] Instance ord_le_transitive : Transitive (ord_le (A := A)).
Proof.
  intros x y z. rewrite !ord_le_iff. intros [Hxy | ->] [Hyz | ->]; auto.
  left. by transitivity y.
Qed.

Lemma ord_le_antisymm (x y : A) : ord_le x y -> ord_le y x -> x = y.
Proof.
  unfold ord_le. rewrite (cmp_opp x y), <- cmp_eq_iff. destruct (cmp x y); simpl; intuition congruence.
Qed.

Lemma ord_le_total (x y : A) : ord_le x y \/ ord_le y x.
Proof. unfold ord_le. rewrite (cmp_opp x y). destruct (cmp x y); simpl; intuition congruence. Qed.

#[export] Instance cmp_pre : CmpPre (A := A) cmp.
Proof. split; [apply cmp_opp | apply ord_le_transitive]. Qed.

#[export] Instance cmp_on_pre {B} (key : B -> A) : CmpPre (cmp_on key).
Proof.
  split; unfold cmp_on; [intros; apply cmp_opp |].
  intros x y z. apply (ord_le_transitive (key x) (key y) (key z)).
Qed.

End ord_lemmas.

#[export] Instance ord_N_laws : OrdLaws N.
Proof.
  split; unfold cmp, ord_N; intros.
  - apply N.compare_eq_iff.
  - apply N.compare_antisym.
  - rewrite N.compare_lt_iff in *. lia.
Qed.

#[export] Instance ord_nat_laws : OrdLaws nat.
Proof.
  split; unfold cmp, ord_nat; intros.
  - apply Nat.compare_eq_iff.
  - apply Nat.compare_antisym.
  - rewrite Nat.compare_lt_iff in *. lia.
Qed.

#[export] Instance ord_bool_laws : OrdLaws bool.
Proof. split; unfold cmp, ord_bool; intros; repeat case_match; naive_solver. Qed.

#[export] Instance ord_option_laws {A} `{OrdLaws A} : OrdLaws (option A).
Proof.
  split.
  - intros [x|] [y|]; simpl; try naive_solver.
    change (cmp x y = Eq <-> Some x = Some y). rewrite (cmp_eq_iff x y). naive_solver.
  - intros [x|] [y|]; try done. apply (cmp_opp x y).
  - intros [x|] [y|] [z|]; try done. apply (cmp_lt_trans x y z).
Qed.

Lemma cmp_pair {A B} `{Ord A} `{Ord B} (x1 y1 : A) (x2 y2 : B) :
  cmp (x1, x2) (y1, y2) = then_cmp (cmp x1 y1) (cmp x2 y2).
Proof. done. Qed.

#[export] Instance ord_prod_laws {A B} `{OrdLaws A} `{OrdLaws B} : OrdLaws (A * B).
Proof.
  split.
  - intros [x1 x2] [y1 y2]. rewrite cmp_pair, pair_equal_spec, <- !cmp_eq_iff.
    destruct (cmp x1 y1); simpl; tauto || (split; [done | by intros []]).
  - intros [x1 x2] [y1 y2]. by rewrite !cmp_pair, (cmp_opp x1 y1), (cmp_opp x2 y2), then_cmp_opp.
  - intros [x1 x2] [y1 y2] [z1 z2]. rewrite !cmp_pair.
    destruct (cmp x1 y1) eqn:E1; simpl; try done; destruct (cmp y1 z1) eqn:E2; simpl; try done.
    + apply cmp_eq_iff in E1, E2. subst. rewrite cmp_refl. simpl. apply cmp_lt_trans.
    + apply cmp_eq_iff in E1. subst. by rewrite E2.
    + apply cmp_eq_iff in E2. subst. by rewrite E1.
    + by rewrite (cmp_lt_trans _ _ _ E1 E2).
Qed.

Lemma cmp_list_cons {A} `{Ord A} (x y : A) l k :
  cmp (x :: l) (y :: k) = then_cmp (cmp x y) (cmp l k).
Proof. done. Qed.

#[export] Instance ord_list_laws {A} `{OrdLaws A} : OrdLaws (list A).
Proof.
  split.
  - induction x as [|a x IH]; intros [|b y]; try naive_solver.
    rewrite cmp_list_cons. specialize (IH y).
    destruct (cmp a b) eqn:E; simpl.
    + apply cmp_eq_iff in E. subst. naive_solver.
    + split; [done|]. intros [= -> ->]. by rewrite cmp_refl in E.
    + split; [done|]. intros [= -> ->]. by rewrite cmp_refl in E.
  - induction x as [|a x IH]; intros [|b y]; try done.
    by rewrite !cmp_list_cons, (cmp_opp a b), IH, then_cmp_opp.
  - induction x as [|a x IH]; intros [|b y] [|c z]; try done.
    rewrite !cmp_list_cons.
    destruct (cmp a b) eqn:E1; simpl; try done; destruct (cmp b c) eqn:E2; simpl; try done.
    + apply cmp_eq_iff in E1, E2. subst. rewrite cmp_refl. simpl. apply IH.
    + apply cmp_eq_iff in E1. subst. by rewrite E2.
    + apply cmp_eq_iff in E2. subst. by rewrite E1.
    + by rewrite (cmp_lt_trans _ _ _ E1 E2).
Qed.

#[export] Instance cmp_then_pre {A} (f g : A -> A -> comparison) :
  CmpPre f -> CmpPre g -> CmpPre (cmp_then f g).
Proof.
  intros Hf Hg. split; unfold cmp_then.
  - intros x y. by rewrite (pre_opp (f := f) x y), (pre_opp (f := g) x y), then_cmp_opp.
  - intros x y z Hxy Hyz.
    assert (f x y <> Gt) as F1 by (by destruct (f x y)).
    assert (f y z <> Gt) as F2 by (by destruct (f y z)).
    pose proof (pre_trans (f := f) x y z F1 F2) as F3.
    destruct (f x z) eqn:Exz; simpl; try done.
    assert (f z x <> Gt) as F4 by (by rewrite (pre_opp (f := f) x z), Exz).
    pose proof (pre_trans (f := f) y z x F2 F4) as F5.
    pose proof (pre_trans (f := f) z x y F4 F1) as F6.
    rewrite (pre_opp (f := f) x y) in F5. rewrite (pre_opp (f := f) y z) in F6.
    destruct (f x y), (f y z); simpl in *; try done.
    by apply (pre_trans (f := g) x y z).
Qed.

#[export] Instance cmp_desc_pre {A} (f : A -> A -> comparison) : CmpPre f -> CmpPre (cmp_desc f).
Proof.
  intros Hf. split; unfold cmp_desc; intros.
  - apply pre_opp.
  - by apply (pre_trans (f := f) z y x).
Qed.

(** ** Lemmas: the stable sort *)

Lemma sorted_impl {A} (R S : A -> A -> Prop) l :
  (forall x y, R x y -> S x y) -> StronglySorted R l -> StronglySorted S l.
Proof.
  intros HRS. induction 1 as [|x l Hl IH Hx]; constructor; [done|].
  eapply Forall_impl; [exact Hx|]. simpl. auto.
Qed.

Section sort_lemmas.
Context {A : Type} (f : A -> A -> comparison) `{!CmpPre f}.

Definition sorted_by (l : list A) : Prop := StronglySorted (fun x y => f x y <> Gt) l.

Lemma insert_by_perm x l : insert_by f x l ≡ₚ x :: l.
Proof using Type.
  induction l as [|y l IH]; simpl; [done|].
  destruct (f x y); [done.. |]. rewrite IH. constructor.
Qed.

Lemma sort_by_perm l : sort_by f l ≡ₚ l.
Proof using Type. induction l as [|x l IH]; simpl; [done|]. by rewrite insert_by_perm, IH. Qed.

Lemma length_sort_by l : length (sort_by f l) = length l.
Proof using Type. apply Permutation_length, sort_by_perm. Qed.

Lemma elem_of_sort_by x l : x ∈ sort_by f l <-> x ∈ l.
Proof using Type. by rewrite sort_by_perm. Qed.

Lemma pre_gt x y : f x y = Gt -> f y x <> Gt.
Proof. intros E. rewrite (pre_opp (f := f) x y), E. done. Qed.

Lemma insert_by_sorted x l : sorted_by l -> sorted_by (insert_by f x l).
Proof.
  unfold sorted_by. induction l as [|y l IH]; simpl; intros Hl.
  { repeat constructor. }
  apply StronglySorted_inv in Hl as [Hl Hy].
  assert (f x y <> Gt -> StronglySorted (fun x y => f x y <> Gt) (x :: y :: l)) as Hle.
  { intros Hxy. constructor; [by constructor|]. constructor; [done|].
    eapply Forall_impl; [exact Hy|]. intros z. by apply (pre_trans (f := f)). }
  destruct (f x y) eqn:E; [by apply Hle.. |].
  constructor; [by apply IH|]. rewrite insert_by_perm. constructor; [by apply pre_gt | done].
Qed.

Lemma sort_by_sorted l : sorted_by (sort_by f l).
Proof. induction l; simpl; [constructor | by apply insert_by_sorted]. Qed.

Lemma sort_by_sorted_id l : sorted_by l -> sort_by f l = l.
Proof.
  induction l as [|x l IH]; simpl; intros Hl; [done|].
  apply StronglySorted_inv in Hl as [Hl Hx]. rewrite (IH Hl).
  destruct l as [|y l]; simpl; [done|].
  apply Forall_cons in Hx as [Hxy _]. by destruct (f x y).
Qed.

(** Stability: elements the comparator cannot tell apart keep their order. *)
Lemma insert_by_filter (P : A -> Prop) `{!∀ x, Decision (P x)} x l :
  (forall y z, P y -> P z -> f y z = Eq) ->
  filter P (insert_by f x l) = filter P (x :: l).
Proof.
  intros HP. induction l as [|y l IH]; simpl; [done|].
  destruct (f x y) eqn:E; [done.. |].
  rewrite !filter_cons. rewrite IH, filter_cons.
  repeat case_decide; try done. by rewrite (HP x y) in E.
Qed.

Lemma sort_by_filter (P : A -> Prop) `{!∀ x, Decision (P x)} l :
  (forall y z, P y -> P z -> f y z = Eq) -> filter P (sort_by f l) = filter P l.
Proof.
  intros HP. induction l as [|x l IH]; simpl; [done|].
  rewrite insert_by_filter, !filter_cons, IH by done. done.
Qed.

End sort_lemmas.

(** The sorted arrangement is unique as soon as no two members tie. *)
Lemma sorted_unique_in {A} (f : A -> A -> comparison) (l k : list A) :
  (forall x y, x ∈ l -> y ∈ l -> f x y <> Gt -> f y x <> Gt -> x = y) ->
  sorted_by f l -> sorted_by f k -> l ≡ₚ k -> l = k.
Proof.
  unfold sorted_by. revert k. induction l as [|x l IH]; intros k Hanti Hl Hk Hp.
  { by apply Permutation_nil_l in Hp. }
  destruct k as [|y k]; [by apply Permutation_nil_r in Hp|].
  apply StronglySorted_inv in Hl as [Hl Hx]. apply StronglySorted_inv in Hk as [Hk Hy].
  rewrite Forall_forall in Hx, Hy.
  assert (x = y) as ->.
  { assert (x ∈ y :: k) as Hin by (rewrite <- Hp; left).
    assert (y ∈ x :: l) as Hin' by (rewrite Hp; left).
    pose proof Hin' as Hm. apply elem_of_cons in Hin as [->|Hin]; [done|].
    apply elem_of_cons in Hin' as [->|Hin']; [done|]. apply Hanti; auto. left. }
  f_equal. apply IH; auto; [|by apply Permutation_cons_inv in Hp].
  intros a b Ha Hb. apply Hanti; by right.
Qed.

Lemma sorted_unique {A} (f : A -> A -> comparison) (l k : list A) :
  (forall x y, f x y <> Gt -> f y x <> Gt -> x = y) ->
  sorted_by f l -> sorted_by f k -> l ≡ₚ k -> l = k.
Proof. intros Hanti. apply sorted_unique_in. auto. Qed.

Section ord_sort.
Context {A : Type} `{OrdLaws A}.

Lemma sort_perm (l : list A) : sort l ≡ₚ l.
Proof. apply (sort_by_perm cmp). Qed.

Lemma sort_sorted (l : list A) : StronglySorted ord_le (sort l).
Proof. apply (sort_by_sorted cmp). Qed.

Lemma sort_by_key_perm {B} (key : B -> A) (l : list B) : sort_by_key key l ≡ₚ l.
Proof. apply (sort_by_perm (cmp_on key)). Qed.

Lemma sort_by_key_sorted {B} (key : B -> A) (l : list B) :
  StronglySorted (fun x y => ord_le (key x) (key y)) (sort_by_key key l).
Proof. apply (sort_by_sorted (cmp_on key)). Qed.

Lemma sort_unique (l k : list A) : StronglySorted ord_le k -> l ≡ₚ k -> sort l = k.
Proof.
  intros Hk Hp. apply (sorted_unique cmp); auto using sort_sorted.
  - apply ord_le_antisymm.
  - apply sort_sorted.
  - by rewrite sort_perm.
Qed.

Lemma ord_lt_sorted_nodup (l : list A) : StronglySorted ord_lt l -> NoDup l.
Proof.
  induction 1 as [|x l Hl IH Hx]; constructor; auto.
  intros Hin. rewrite Forall_forall in Hx. by apply (ord_lt_irrefl x), Hx.
Qed.

Lemma ord_lt_sorted_unique (l k : list A) :
  StronglySorted ord_lt l -> StronglySorted ord_lt k -> (forall x, x ∈ l <-> x ∈ k) -> l = k.
Proof.
  intros Hl Hk Hlk. apply (sorted_unique cmp).
  - apply ord_le_antisymm.
  - eapply sorted_impl; [|exact Hl]. intros. by apply ord_le_iff; left.
  - eapply sorted_impl; [|exact Hk]. intros. by apply ord_le_iff; left.
  - apply NoDup_Permutation; auto using ord_lt_sorted_nodup.
Qed.

End ord_sort.

(** ** Lemmas: [BTreeMap] *)

Section btree_lemmas.
Context {K V : Type} `{OrdLaws K}.
Implicit Types (m : list (K * V)) (k : K).

Lemma bt_keys_upsert k f m x : x ∈ (bt_upsert k f m).*1 <-> x = k \/ x ∈ m.*1.
Proof.
  induction m as [|[k' v] m IH]; simpl.
  - rewrite elem_of_cons. done.
  - destruct (cmp k k') eqn:E; simpl; rewrite ?elem_of_cons; [|done|rewrite IH; tauto].
    apply cmp_eq_iff in E. subst. tauto.
Qed.

Lemma bt_sorted_upsert k f m : bt_sorted m -> bt_sorted (bt_upsert k f m).
Proof.
  unfold bt_sorted. induction m as [|[k' v] m IH]; simpl; intros Hm.
  { repeat constructor. }
  pose proof (StronglySorted_inv Hm) as [Hm' Hk'].
  destruct (cmp k k') eqn:E; simpl; [done| |].
  - constructor; [done|]. constructor; [done|].
    eapply Forall_impl; [exact Hk'|]. intros z Hz. by transitivity k'.
  - constructor; [by apply IH|]. apply Forall_forall. intros z.
    rewrite bt_keys_upsert. intros [->|Hz]; [by apply cmp_gt_lt|].
    by rewrite Forall_forall in Hk'; apply Hk'.
Qed.

Lemma bt_upsert_lt k f m : Forall (ord_lt k) m.*1 -> bt_upsert k f m = (k, f None) :: m.
Proof.
  destruct m as [|[k' v] m]; [done|]. intros [Hlt _]%Forall_cons. unfold ord_lt in Hlt. simpl in *. by rewrite Hlt.
Qed.

(** Filtering a map by key commutes with changing an entry the filter keeps, and forgets the rest. *)
Lemma bt_upsert_filter (P : K -> Prop) `{!∀ k, Decision (P k)} k f m :
  bt_sorted m ->
  filter (fun e => P e.1) (bt_upsert k f m) =
  if decide (P k) then bt_upsert k f (filter (fun e => P e.1) m) else filter (fun e => P e.1) m.
Proof.
  unfold bt_sorted. induction m as [|[k' v] m IH]; intros Hm.
  { simpl. rewrite filter_cons. simpl. by case_decide. }
  pose proof (StronglySorted_inv Hm) as [Hm' Hk'].
  assert (forall m', (forall x, x ∈ m' -> x ∈ (k', v) :: m) -> ord_lt k k' -> Forall (ord_lt k) m'.*1) as Hall.
  { intros m' Hsub Hlt. apply Forall_fmap, Forall_forall. intros [x w] [Hx|Hx]%Hsub%elem_of_cons; simpl.
    - by injection Hx as -> ->.
    - transitivity k'; [done|]. rewrite Forall_forall in Hk'. apply Hk', list_elem_of_fmap. by exists (x, w). }
  cbn [bt_upsert]. destruct (cmp k k') eqn:E.
  - apply cmp_eq_iff in E as ->. rewrite !filter_cons. simpl. case_decide; [|done]. simpl. by rewrite cmp_refl.
  - rewrite (filter_cons _ (k, f None)). simpl. case_decide as Hd; [|done]. rewrite bt_upsert_lt; [done|].
    apply Hall; [|done]. by intros x [_ Hx]%list_elem_of_filter.
  - rewrite !filter_cons, (IH Hm'). simpl. destruct (decide (P k')), (decide (P k)); try done. simpl. by rewrite E.
Qed.

Lemma bt_get_not_key k m : k ∉ m.*1 -> bt_get k m = None.
Proof.
  induction m as [|[k' v] m IH]; simpl; [done|].
  rewrite not_elem_of_cons. intros [Hne Hnin].
  destruct (cmp k k') eqn:E; [by apply cmp_eq_iff in E | auto..].
Qed.

Lemma bt_get_lt k m : Forall (ord_lt k) m.*1 -> bt_get k m = None.
Proof.
  intros Hk. apply bt_get_not_key. intros Hin.
  rewrite Forall_forall in Hk. by apply (ord_lt_irrefl k), Hk.
Qed.

Lemma bt_get_upsert_eq k f m : bt_sorted m -> bt_get k (bt_upsert k f m) = Some (f (bt_get k m)).
Proof.
  unfold bt_sorted. induction m as [|[k' v] m IH]; simpl; intros Hm.
  { by rewrite cmp_refl. }
  apply StronglySorted_inv in Hm as [Hm Hk'].
  destruct (cmp k k') eqn:E; simpl; rewrite ?E, ?cmp_refl; [done| |auto].
  do 2 f_equal. symmetry. apply bt_get_lt.
  eapply Forall_impl; [exact Hk'|]. intros z Hz. by transitivity k'.
Qed.

Lemma bt_get_upsert_ne k k' f m : k' <> k -> bt_get k' (bt_upsert k f m) = bt_get k' m.
Proof.
  intros Hne. assert (cmp k' k <> Eq) as Hcmp by by rewrite cmp_eq_iff.
  induction m as [|[j v] m IH]; simpl.
  - by destruct (cmp k' k).
  - destruct (cmp k j) eqn:E; simpl.
    + apply cmp_eq_iff in E. subst j. by destruct (cmp k' k).
    + by destruct (cmp k' k).
    + by rewrite IH.
Qed.

Lemma bt_get_key k m : is_Some (bt_get k m) <-> k ∈ m.*1.
Proof.
  induction m as [|[k' v] m IH]; simpl.
  - split; [by intros []|]. intros Hin. by apply elem_of_nil in Hin.
  - rewrite elem_of_cons. destruct (cmp k k') eqn:E.
    + apply cmp_eq_iff in E. subst. split; eauto.
    + rewrite IH. split; [auto|]. intros [->|]; [by rewrite cmp_refl in E | done].
    + rewrite IH. split; [auto|]. intros [->|]; [by rewrite cmp_refl in E | done].
Qed.

Lemma bt_get_elem k v m : bt_get k m = Some v -> (k, v) ∈ m.
Proof.
  induction m as [|[k' v'] m IH]; simpl; [done|].
  rewrite elem_of_cons. destruct (cmp k k') eqn:E; [|auto..].
  apply cmp_eq_iff in E. intros [= ->]. subst. auto.
Qed.

Lemma bt_elem_get k v m : bt_sorted m -> (k, v) ∈ m -> bt_get k m = Some v.
Proof.
  unfold bt_sorted. induction m as [|[k' v'] m IH]; simpl; intros Hm.
  { by intros ?%elem_of_nil. }
  apply StronglySorted_inv in Hm as [Hm Hk'].
  rewrite elem_of_cons. intros [[= -> ->]|Hin]; [by rewrite cmp_refl|].
  destruct (cmp k k') eqn:E; [|auto..].
  apply cmp_eq_iff in E. subst. rewrite Forall_forall in Hk'.
  destruct (ord_lt_irrefl k'). apply Hk'. apply list_elem_of_fmap. by exists (k', v).
Qed.

Lemma bt_nodup m : bt_sorted m -> NoDup m.*1.
Proof. apply ord_lt_sorted_nodup. Qed.

Lemma bt_ext m m' : bt_sorted m -> bt_sorted m' -> (forall k, bt_get k m = bt_get k m') -> m = m'.
Proof.
  intros Hm Hm' Hget.
  assert (forall l : list (K * V), bt_sorted l -> sorted_by (cmp_on fst) l) as Hsb.
  { intros l. unfold bt_sorted, sorted_by. induction l as [|e l IH]; [constructor|].
    intros [Hl He]%StronglySorted_inv. constructor; [by apply IH|]. apply (Forall_fmap fst) in He.
    eapply Forall_impl; [exact He|]. intros e' Hlt. by apply ord_le_iff; left. }
  apply (sorted_unique_in (cmp_on fst)); auto.
  - intros [k v] [k' v'] Hx Hy Hle Hge. assert (k = k') as <- by by apply ord_le_antisymm.
    apply bt_elem_get in Hx, Hy; [|done..]. by rewrite Hx in Hy; injection Hy as <-.
  - apply NoDup_Permutation; [by apply (NoDup_fmap_1 fst), bt_nodup..|].
    intros [k v]. split; intros Hin; apply bt_get_elem; [rewrite <- Hget|rewrite Hget]; by apply bt_elem_get.
Qed.

End btree_lemmas.

Section bset_lemmas.
Context {K : Type} `{OrdLaws K}.

Lemma bs_elem_insert (k x : K) s : x ∈ bs_insert k s <-> x = k \/ x ∈ s.
Proof.
  induction s as [|k' s IH]; simpl.
  - by rewrite elem_of_cons.
  - destruct (cmp k k') eqn:E; rewrite ?elem_of_cons; [|done|rewrite IH; tauto].
    apply cmp_eq_iff in E. subst. tauto.
Qed.

Lemma bs_sorted_insert (k : K) s : bs_sorted s -> bs_sorted (bs_insert k s).
Proof.
  unfold bs_sorted. induction s as [|k' s IH]; simpl; intros Hs.
  { repeat constructor. }
  pose proof (StronglySorted_inv Hs) as [Hs' Hk'].
  destruct (cmp k k') eqn:E; [done| |].
  - constructor; [done|]. constructor; [done|].
    eapply Forall_impl; [exact Hk'|]. intros z Hz. by transitivity k'.
  - constructor; [by apply IH|]. apply Forall_forall. intros z.
    rewrite bs_elem_insert. intros [->|Hz]; [by apply cmp_gt_lt|].
    by rewrite Forall_forall in Hk'; apply Hk'.
Qed.

End bset_lemmas.

(** ** Lemmas: grouping into a [BTreeMap] *)

Section group_lemmas.
Context {K A : Type} `{OrdLaws K} `{!EqDecision K} (key : A -> K).
Implicit Types (l : list A) (m : list (K * list A)).

Definition key_is (k : K) (x : A) : Prop := key x = k.
#[local] Instance key_is_dec k x : Decision (key_is k x) := decide (key x = k).

Lemma bt_group_snoc l x : bt_group key (l ++ [x]) = bt_push (key x) x (bt_group key l).
Proof. unfold bt_group. by rewrite foldl_app. Qed.

Lemma bt_group_sorted l : bt_sorted (bt_group key l).
Proof.
  induction l as [|x l IH] using rev_ind; [constructor|].
  rewrite bt_group_snoc. by apply bt_sorted_upsert.
Qed.

(** Each group holds exactly the elements of its key, in their original order. *)
Lemma bt_group_get k l : default [] (bt_get k (bt_group key l)) = filter (key_is k) l.
Proof.
  induction l as [|x l IH] using rev_ind; [done|].
  rewrite bt_group_snoc, filter_app, filter_cons, filter_nil. unfold bt_push.
  unfold key_is at 2. case_decide as E.
  - rewrite <- E, bt_get_upsert_eq by apply bt_group_sorted. simpl. by rewrite E, IH.
  - rewrite bt_get_upsert_ne by done. by rewrite IH, app_nil_r.
Qed.

Lemma bt_group_keys k l : k ∈ (bt_group key l).*1 <-> k ∈ key <$> l.
Proof.
  induction l as [|x l IH] using rev_ind; [done|].
  rewrite bt_group_snoc, fmap_app, elem_of_app. unfold bt_push.
  rewrite bt_keys_upsert, IH. simpl. rewrite list_elem_of_singleton. tauto.
Qed.

Lemma bt_group_elem k g l :
  (k, g) ∈ bt_group key l -> g = filter (key_is k) l /\ g <> [].
Proof.
  intros Hin. pose proof (bt_elem_get _ _ _ (bt_group_sorted l) Hin) as Hget.
  pose proof (bt_group_get k l) as Hg. rewrite Hget in Hg. simpl in Hg. split; [done|].
  subst g. assert (k ∈ key <$> l) as Hk.
  { apply bt_group_keys, list_elem_of_fmap. by exists (k, filter (key_is k) l). }
  apply list_elem_of_fmap in Hk as (x & -> & Hx). intros Hnil.
  eapply filter_nil_not_elem_of; [exact Hnil| |exact Hx]. done.
Qed.

Lemma bt_push_concat k x m : concat (bt_push k x m).*2 ≡ₚ x :: concat m.*2.
Proof.
  unfold bt_push. induction m as [|[k' g] m IH]; simpl; [done|].
  destruct (cmp k k'); simpl; [|done|].
  - rewrite <- app_assoc. simpl. by rewrite <- Permutation_middle.
  - rewrite IH. by rewrite <- Permutation_middle.
Qed.

(** Grouping loses and duplicates nothing. *)
Lemma bt_group_concat l : concat (bt_group key l).*2 ≡ₚ l.
Proof.
  induction l as [|x l IH] using rev_ind; [done|].
  rewrite bt_group_snoc, bt_push_concat, IH. by rewrite Permutation_app_comm.
Qed.

(** Grouping what a test on the key keeps is keeping the groups of such keys. *)
Lemma bt_group_filter (P : K -> Prop) `{!∀ k, Decision (P k)} l :
  bt_group key (filter (fun x => P (key x)) l) = filter (fun e => P e.1) (bt_group key l).
Proof.
  induction l as [|x l IH] using rev_ind; [done|].
  rewrite bt_group_snoc. unfold bt_push. rewrite bt_upsert_filter by apply bt_group_sorted.
  rewrite filter_app, filter_cons, filter_nil. case_decide; [|by rewrite app_nil_r].
  by rewrite bt_group_snoc, IH.
Qed.

End group_lemmas.

#[global] Typeclasses Opaque key_is.
#[export] Existing Instance key_is_dec.

(** ** Lemmas: multimaps *)

(** What a multimap holds under a key. *)
Definition bt_values {K A} `{Ord K} (k : K) (m : list (K * list A)) : list A := default [] (bt_get k m).

Section multimap_lemmas.
Context {K A : Type} `{OrdLaws K} `{!EqDecision K}.
Implicit Types (m : list (K * list A)).

Lemma bt_values_push k v k' x m :
  bt_sorted m -> x ∈ bt_values k' (bt_push k v m) <-> (k' = k /\ x = v) \/ x ∈ bt_values k' m.
Proof.
  intros Hm. unfold bt_values, bt_push. destruct (decide (k' = k)) as [->|Hne].
  - rewrite bt_get_upsert_eq by done. simpl. rewrite elem_of_app, list_elem_of_singleton. tauto.
  - rewrite bt_get_upsert_ne by done. tauto.
Qed.

Lemma bt_values_insert `{OrdLaws A} k v k' x m :
  bt_sorted m ->
  x ∈ bt_values k' (bt_upsert k (fun o => bs_insert v (default [] o)) m) <-> (k' = k /\ x = v) \/ x ∈ bt_values k' m.
Proof.
  intros Hm. unfold bt_values. destruct (decide (k' = k)) as [->|Hne].
  - rewrite bt_get_upsert_eq by done. simpl. rewrite bs_elem_insert. tauto.
  - rewrite bt_get_upsert_ne by done. tauto.
Qed.

(** [for value in map.values_mut()]: keys stay. *)
Lemma bt_get_map_values {B} (f : list A -> B) k m : bt_get k (prod_map id f <$> m) = f <$> bt_get k m.
Proof.
  induction m as [|[k' v] m IH]; [done|]. cbn [fmap list_fmap prod_map fst snd id bt_get].
  destruct (cmp k k'); [done|exact IH|exact IH].
Qed.

Lemma elem_of_dedup `{!EqDecision A} (x : A) (l : list A) : x ∈ dedup l <-> x ∈ l.
Proof.
  induction l as [|y l IH]; [done|]. simpl. destruct l as [|z l]; [done|].
  case_decide as E; [|rewrite !(elem_of_cons _ x), IH, elem_of_cons; tauto].
  subst. rewrite IH, !elem_of_cons. tauto.
Qed.

Lemma bt_values_dedup_sort `{OrdLaws A} `{!EqDecision A} k x m :
  x ∈ bt_values k (prod_map id (fun v => dedup (sort v)) <$> m) <-> x ∈ bt_values k m.
Proof.
  unfold bt_values. rewrite bt_get_map_values. destruct (bt_get k m) as [v|]; simpl; [|done].
  by rewrite elem_of_dedup, sort_perm.
Qed.

End multimap_lemmas.

(** ** Lemmas: caps *)

Lemma cap_at_spec {A} (limit : option nat) (l : list A) :
  (cap_at limit l).1 = match limit with Some n => take n l | None => l end /\
  length (cap_at limit l).1 + (cap_at limit l).2 = length l.
Proof.
  unfold cap_at. destruct limit as [n|]; simpl; [|split; [done|lia]]. destruct (n <? length l) eqn:En; simpl.
  - apply Nat.ltb_lt in En. split; [done|]. rewrite length_take. lia.
  - apply Nat.ltb_ge in En. split; [by rewrite take_ge by lia|lia].
Qed.

(** A stable sort by a flag: those without it, then those with it, each in their original order. *)
Lemma sort_by_flag {A} (flag : A -> bool) (l : list A) :
  sort_by_key flag l = filter (fun x => flag x = false) l ++ filter (fun x => flag x = true) l.
Proof.
  assert (forall b, filter (fun x => flag x = b) (sort_by_key flag l) = filter (fun x => flag x = b) l) as Hf.
  { intros b. apply (sort_by_filter (cmp_on flag)). intros y z <- Hz. unfold cmp_on. by rewrite Hz, cmp_refl. }
  rewrite <- (Hf false), <- (Hf true). pose proof (sort_by_key_sorted flag l) as Hs. clear Hf.
  induction (sort_by_key flag l) as [|x k IH]; [done|]. apply StronglySorted_inv in Hs as [Hs Hx].
  destruct (flag x) eqn:Ex.
  - rewrite filter_cons_False, filter_cons_True by congruence.
    assert (filter (fun x => flag x = false) k = []) as Hnil.
    { apply elem_of_nil_inv. intros y [Hfy Hy]%list_elem_of_filter. rewrite Forall_forall in Hx. specialize (Hx y Hy). simpl in Hx.
      rewrite Hfy in Hx. by apply Hx. }
    rewrite Hnil in *. simpl in *. by f_equal; apply IH.
  - rewrite filter_cons_True, filter_cons_False by congruence. simpl. f_equal. by apply IH.
Qed.

(** ** Lemmas: filters *)

Section filters.
Context {A : Type} (P : A -> Prop) `{!∀ x, Decision (P x)}.

Lemma sorted_filter (R : A -> A -> Prop) (l : list A) : StronglySorted R l -> StronglySorted R (filter P l).
Proof.
  induction 1 as [|x l Hl IH Hx]; [constructor|]. rewrite filter_cons. case_decide; [|done].
  constructor; [done|]. rewrite Forall_forall in *. intros y [_ Hy]%list_elem_of_filter. by apply Hx.
Qed.

Lemma filter_agree (Q : A -> Prop) `{!∀ x, Decision (Q x)} (l : list A) : Forall (fun x => P x <-> Q x) l -> filter P l = filter Q l.
Proof.
  induction 1 as [|x l Hx _ IH]; [done|]. rewrite !filter_cons, IH.
  destruct (decide (P x)), (decide (Q x)); tauto.
Qed.

Lemma filter_concat (ls : list (list A)) : filter P (concat ls) = concat (filter P <$> ls).
Proof. induction ls as [|l ls IH]; csimpl; [done|]. by rewrite filter_app, IH. Qed.

Lemma filter_all (l : list A) : Forall P l -> filter P l = l.
Proof. induction 1 as [|x l Hx _ IH]; [done|]. by rewrite filter_cons_True, IH. Qed.

End filters.

Lemma filter_fmap {A B} (f : A -> B) (P : B -> Prop) `{!∀ x, Decision (P x)} (Q : A -> Prop) `{!∀ x, Decision (Q x)} (l : list A) :
  (forall x, P (f x) <-> Q x) -> filter P (f <$> l) = f <$> filter Q l.
Proof.
  intros HPQ. induction l as [|x l IH]; [done|]. csimpl. rewrite !filter_cons, IH.
  destruct (decide (P (f x))) as [HP|HP]; destruct (decide (Q x)) as [HQ|HQ]; try done; exfalso; specialize (HPQ x); tauto.
Qed.

(** A map collected from pairs with distinct keys. *)
Section of_list.
Context {K V : Type} `{OrdLaws K}.

Lemma bt_of_list_snoc (l : list (K * V)) kv : bt_of_list (l ++ [kv]) = bt_insert kv.1 kv.2 (bt_of_list l).
Proof. unfold bt_of_list. by rewrite foldl_snoc. Qed.
Lemma bt_of_list_sorted (l : list (K * V)) : bt_sorted (bt_of_list l).
Proof. induction l as [|kv l IH] using rev_ind; [constructor|]. rewrite bt_of_list_snoc. by apply bt_sorted_upsert. Qed.
Lemma bt_of_list_get (l : list (K * V)) k v : NoDup l.*1 -> bt_get k (bt_of_list l) = Some v <-> (k, v) ∈ l.
Proof.
  revert k v. induction l as [|[k' v'] l IH] using rev_ind; intros k v Hn; [by split; [|intros ?%not_elem_of_nil]|].
  rewrite fmap_app in Hn. apply NoDup_app in Hn as (Hn & Hd & _). rewrite bt_of_list_snoc, elem_of_app, list_elem_of_singleton. cbn [fst snd]. unfold bt_insert.
  destruct (decide (cmp k k' = Eq)) as [->%cmp_eq_iff|Hk].
  - rewrite bt_get_upsert_eq by apply bt_of_list_sorted. split; [intros [= ->]; by right|]. intros [Hin|[= ->]]; [|done].
    exfalso. apply (Hd k'); [|left]. apply list_elem_of_fmap. by exists (k', v).
  - rewrite bt_get_upsert_ne by (intros ->; by rewrite cmp_refl in Hk). rewrite IH by done. split; [by left|]. intros [Hin|[= -> ->]]; [done|]. by rewrite cmp_refl in Hk.
Qed.
End of_list.
