(* ===== verification/Budget.v ===== *)
(** * Budget: the token estimator and budgeted emission

    Models [crates/ktsense-core/src/lib.rs] (the [TokenEstimator] trait and the
    [ByteRatioEstimator], whose [f64] division is written out with IEEE 754
    round-to-nearest-even) and [crates/ktsense-core/src/budget.rs]. *)
From S2P Require Import Prelude Collections.

Set Default Proof Using "Type*".

(** ** IEEE 754 binary64, for the positive normal range the estimator uses *)

(** [a / b] rounded to an integer, ties to even. *)
Definition rne_div (a b : N) : N :=
  let q := (a / b)%N in
  let r := (a mod b)%N in
  if (2 * r <? b)%N then q
  else if (b <? 2 * r)%N then (q + 1)%N
  else if N.even q then q else (q + 1)%N.

(** A non-negative binary64 value [mant * 2^expo]. *)
Record f64 := F64 { mant : N; expo : Z }.

(** [num / den * 2^-e] as a fraction, for a possibly negative [e]. *)
Definition scale_num (num : N) (e : Z) : N := if (e <? 0)%Z then (num * 2 ^ Z.to_N (- e))%N else num.
Definition scale_den (den : N) (e : Z) : N := if (e <? 0)%Z then den else (den * 2 ^ Z.to_N e)%N.

(** The exponent giving a 53-bit significand for the fraction [num / den]. *)
Definition f64_exponent (num den : N) : Z :=
  let d := (Z.of_N (N.log2 num) - Z.of_N (N.log2 den))%Z in
  if (scale_num num d <? scale_den den d)%N then (d - 1 - 52)%Z else (d - 52)%Z.

(** The binary64 nearest to [num / den]. *)
Definition f64_of_fraction (num den : N) : f64 :=
  if (num =? 0)%N then F64 0 0
  else let e := f64_exponent num den in F64 (rne_div (scale_num num e) (scale_den den e)) e.

Definition f64_of_usize (n : N) : f64 := f64_of_fraction n 1.

(** [a / b]: the exact quotient of the two values, rounded once. *)
Definition f64_div (a b : f64) : f64 :=
  let e := (expo a - expo b)%Z in
  if (e <? 0)%Z then f64_of_fraction (mant a) (mant b * 2 ^ Z.to_N (- e))%N
  else f64_of_fraction (mant a * 2 ^ Z.to_N e)%N (mant b).

(** [f64::ceil] followed by [as usize], which saturates. *)
Definition f64_ceil_usize (x : f64) : N :=
  let v := if (expo x <? 0)%Z
           then let d := (2 ^ Z.to_N (- expo x))%N in ((mant x + d - 1) / d)%N
           else (mant x * 2 ^ Z.to_N (expo x))%N in
  N.min v usize_max.

(** ** The estimator *)

(** The [TokenEstimator] trait. *)
Class TokenEstimator := estimate : str -> N.

(** What budgeted rendering relies on: an estimate of a text is at most the sum of
    the estimates of its parts, for texts of at most [estimator_limit] bytes. *)
Class SubadditiveEstimator `{TokenEstimator} := {
  estimator_limit : N;
  estimate_empty : estimate [] = 0%N;
  estimate_app (a b : str) :
    (utf8_len (a ++ b) <= estimator_limit)%N ->
    (estimate (a ++ b) <= estimate a + estimate b)%N }.

(** [const BYTES_PER_TOKEN: f64 = 3.6]. *)
Definition BYTES_PER_TOKEN : f64 := f64_of_fraction 36 10.

Definition byte_ratio_tokens (len : N) : N :=
  f64_ceil_usize (f64_div (f64_of_usize len) BYTES_PER_TOKEN).

(** [ByteRatioEstimator]. *)
Definition byte_ratio_estimate (text : str) : N := byte_ratio_tokens (utf8_len text).

(** ** Budgeted emission *)

Record BudgetedEmission (T : Type) := mkEmission {
  items : list T;
  token_upper_bound : N }.
Arguments mkEmission {T}.
Arguments items {T}.
Arguments token_upper_bound {T}.

(** The body of [emit_within_budget]'s loop, from a state of emitted items and the
    running bound; [as_ref] is the item's [AsRef<str>]. *)
Fixpoint emit_loop {T} `{TokenEstimator} (as_ref : T -> str) (budget : N)
    (pending : list T) (emitted : list T) (bound : N) : BudgetedEmission T :=
  match pending with
  | [] => mkEmission emitted bound
  | item :: rest =>
      match checked_add bound (estimate (as_ref item)) with
      | Some total =>
          if (total <=? budget)%N
          then emit_loop as_ref budget rest (emitted ++ [item]) total
          else mkEmission emitted bound
      | None => mkEmission emitted bound
      end
  end.

Definition emit_within_budget {T} `{TokenEstimator} (as_ref : T -> str)
    (input : list T) (budget : N) : BudgetedEmission T :=
  emit_loop as_ref budget input [] 0.

(** The exact cost of a list of items: the sum of the per-item estimates. *)
Definition cost_of {T} `{TokenEstimator} (as_ref : T -> str) (l : list T) : N :=
  foldr (fun x n => (estimate (as_ref x) + n)%N) 0%N l.

(** [budget] is a [usize]. *)
Definition is_usize (n : N) : Prop := (n <= usize_max)%N.

Example bytes_per_token_value : BYTES_PER_TOKEN = F64 8106479329266893 (-51).
Proof. vm_compute. reflexivity. Qed.
Example estimate_fun_main : byte_ratio_tokens 10 = 3%N.
Proof. vm_compute. reflexivity. Qed.
Example estimate_multiples : byte_ratio_tokens 18 = 5%N /\ byte_ratio_tokens 36 = 10%N.
Proof. vm_compute. split; reflexivity. Qed.

(** ** Lemmas: rounding *)

Lemma rne_div_upper (a b q : N) : (0 < b)%N -> (a <= q * b)%N -> (rne_div a b <= q)%N.
Proof.
  intros Hb Hab. pose proof (N.div_mod a b ltac:(lia)) as Hdm.
  pose proof (N.mod_lt a b ltac:(lia)) as Hr. unfold rne_div.
  set (d := (a / b)%N) in *. set (r := (a mod b)%N) in *.
  assert (d <= q)%N by nia.
  destruct (2 * r <? b)%N eqn:E1; [done|]. apply N.ltb_ge in E1.
  assert (d <> q) by nia.
  destruct (b <? 2 * r)%N; [lia|]. destruct (N.even d); lia.
Qed.

Lemma rne_div_lower (a b q : N) :
  (0 < b)%N -> ((2 * q + 1) * b < 2 * a)%N -> (q + 1 <= rne_div a b)%N.
Proof.
  intros Hb Hab. pose proof (N.div_mod a b ltac:(lia)) as Hdm.
  pose proof (N.mod_lt a b ltac:(lia)) as Hr. unfold rne_div.
  set (d := (a / b)%N) in *. set (r := (a mod b)%N) in *.
  assert (q <= d)%N by nia.
  destruct (decide (d = q)) as [->|]; [|repeat case_match; lia].
  assert (b < 2 * r)%N as Hlt by nia.
  destruct (N.ltb_spec (2 * r) b); [lia|]. destruct (N.ltb_spec b (2 * r)); lia.
Qed.

Lemma rne_div_exact (a : N) : rne_div a 1 = a.
Proof. unfold rne_div. rewrite N.div_1_r, N.mod_1_r. done. Qed.

Lemma f64_exponent_bound (num den : N) (k : Z) :
  (0 < num)%N -> (0 < den)%N -> (num < 2 ^ 46 * den)%N -> (f64_exponent num den <= -6)%Z.
Proof.
  intros Hn Hd Hlt. unfold f64_exponent.
  assert (N.log2 num <= 46 + N.log2 den)%N as Hlog.
  { rewrite <- (N.log2_mul_pow2 den 46) by lia. apply N.log2_le_mono. lia. }
  case_match; lia.
Qed.

(** Rounding the fraction cannot move its ceiling when it is not within 1/36 above an
    integer: the spacing of binary64 values in this range is at most 1/64. *)
Lemma f64_ceil_fraction (num den A : N) :
  (0 < den)%N -> (num < 2 ^ 46 * den)%N -> (1 <= A <= usize_max)%N ->
  (num <= A * den)%N -> (36 * (A - 1) * den + den <= 36 * num)%N ->
  f64_ceil_usize (f64_of_fraction num den) = A.
Proof.
  intros Hd Hlt HA Hup Hlow. assert (0 < num)%N as Hn by nia.
  pose proof (f64_exponent_bound num den 0 Hn Hd Hlt) as He.
  unfold f64_of_fraction. destruct (N.eqb_spec num 0); [lia|]. cbv zeta.
  set (e := f64_exponent num den) in *. unfold f64_ceil_usize, scale_num, scale_den; simpl.
  destruct (Z.ltb_spec e 0); [|lia].
  set (p := (2 ^ Z.to_N (- e))%N). assert (64 <= p)%N as Hp.
  { change 64%N with (2 ^ 6)%N. apply N.pow_le_mono_r; lia. }
  set (m := rne_div (num * p) den).
  assert (m <= A * p)%N as Hm1.
  { apply rne_div_upper; [done|]. replace (A * p * den)%N with (A * den * p)%N by lia.
    by apply N.mul_le_mono_r. }
  assert ((A - 1) * p + 1 <= m)%N as Hm2.
  { apply rne_div_lower; [done|].
    assert (36 * (A - 1) * den * p + den * p <= 36 * num * p)%N by nia.
    assert (64 * den <= den * p)%N by nia.
    replace ((2 * ((A - 1) * p) + 1) * den)%N with (2 * ((A - 1) * den * p) + den)%N by lia.
    nia. }
  assert ((m + p - 1) / p = A)%N as ->.
  { symmetry. apply (N.div_unique _ p A (m + p - 1 - p * A)); nia. }
  lia.
Qed.

Lemma f64_of_usize_exact (n : N) :
  (0 < n < 2 ^ 46)%N ->
  f64_of_usize n = F64 (n * 2 ^ (52 - N.log2 n)) (Z.of_N (N.log2 n) - 52).
Proof.
  intros Hn. assert (N.log2 n < 46)%N as Hlog by (apply N.log2_lt_pow2; lia).
  unfold f64_of_usize, f64_of_fraction. destruct (N.eqb_spec n 0); [lia|].
  assert (f64_exponent n 1 = (Z.of_N (N.log2 n) - 52)%Z) as ->.
  { unfold f64_exponent, scale_num, scale_den. change (N.log2 1) with 0%N.
    destruct (Z.ltb_spec (Z.of_N (N.log2 n) - Z.of_N 0) 0); [lia|].
    replace (Z.to_N (Z.of_N (N.log2 n) - Z.of_N 0)) with (N.log2 n) by lia.
    pose proof (N.log2_spec n ltac:(lia)).
    destruct (N.ltb_spec n (1 * 2 ^ N.log2 n)); lia. }
  cbv zeta. unfold scale_num, scale_den.
  destruct (Z.ltb_spec (Z.of_N (N.log2 n) - 52) 0); [|lia].
  rewrite rne_div_exact. f_equal. f_equal. f_equal. lia.
Qed.

Lemma ceil18 (n : N) :
  (18 * ((5 * n + 17) / 18) <= 5 * n + 17)%N /\ (5 * n <= 18 * ((5 * n + 17) / 18))%N.
Proof.
  pose proof (N.Div0.div_mod (5 * n + 17) 18) as E.
  pose proof (N.mod_lt (5 * n + 17) 18 ltac:(done)) as L.
  revert E L. generalize ((5 * n + 17) / 18)%N ((5 * n + 17) mod 18)%N. intros q r. lia.
Qed.

(** The estimator's float arithmetic computes the exact ceiling of [bytes / 3.6]. *)
Lemma byte_ratio_tokens_ceil (n : N) :
  (n < 2 ^ 46)%N -> byte_ratio_tokens n = ((5 * n + 17) / 18)%N.
Proof.
  intros Hn. destruct (decide (n = 0%N)) as [->|]; [done|].
  unfold byte_ratio_tokens. rewrite f64_of_usize_exact, bytes_per_token_value by lia.
  assert (N.log2 n < 46)%N as Hlog by (apply N.log2_lt_pow2; lia).
  set (A := ((5 * n + 17) / 18)%N).
  destruct (ceil18 n) as [HA1 HA2]. fold A in HA1, HA2. clearbody A.
  unfold f64_div; simpl expo; simpl mant.
  assert (A <= usize_max)%N by (unfold usize_max; lia).
  assert (2251799813685248 * 18 < 8106479329266893 * 5)%N as Hc1 by done.
  destruct (Z.ltb_spec (Z.of_N (N.log2 n) - 52 - -51) 0).
  - assert (N.log2 n = 0%N) as Hz by lia. rewrite Hz. simpl.
    assert (n = 1%N) as -> by (apply N.log2_null in Hz; lia).
    assert (A = 1%N) as -> by lia. by vm_compute.
  - rewrite <- N.mul_assoc, <- N.pow_add_r.
    replace (52 - N.log2 n + Z.to_N (Z.of_N (N.log2 n) - 52 - -51))%N with 51%N by lia.
    change (2 ^ 51)%N with 2251799813685248%N. apply f64_ceil_fraction; lia.
Qed.

#[export] Instance byte_ratio_estimator : TokenEstimator := byte_ratio_estimate.

Lemma ceil_ratio_subadditive (a b : N) :
  ((5 * (a + b) + 17) / 18 <= (5 * a + 17) / 18 + (5 * b + 17) / 18)%N.
Proof.
  destruct (ceil18 a) as [_ Ha]. destruct (ceil18 b) as [_ Hb].
  apply N.lt_succ_r, N.Div0.div_lt_upper_bound. lia.
Qed.

Lemma byte_ratio_estimate_app (a b : str) :
  (utf8_len (a ++ b) <= 2 ^ 46 - 1)%N ->
  (byte_ratio_estimate (a ++ b) <= byte_ratio_estimate a + byte_ratio_estimate b)%N.
Proof.
  intros Hlen. unfold byte_ratio_estimate. rewrite utf8_len_app in *.
  rewrite !byte_ratio_tokens_ceil by lia. apply ceil_ratio_subadditive.
Qed.

#[export] Instance byte_ratio_subadditive : SubadditiveEstimator := {|
  estimator_limit := (2 ^ 46 - 1)%N;
  estimate_empty := eq_refl;
  estimate_app := byte_ratio_estimate_app |}.

(** ** Lemmas: emission *)

Section emission.
Context {T : Type} `{TokenEstimator} (as_ref : T -> str).

Lemma cost_of_cons (x : T) l : cost_of as_ref (x :: l) = (estimate (as_ref x) + cost_of as_ref l)%N.
Proof. done. Qed.

Lemma cost_of_app (l k : list T) : cost_of as_ref (l ++ k) = (cost_of as_ref l + cost_of as_ref k)%N.
Proof. induction l as [|x l IH]; simpl; [done|]. unfold cost_of in *. simpl. lia. Qed.

Lemma cost_of_prefix (l k : list T) : l `prefix_of` k -> (cost_of as_ref l <= cost_of as_ref k)%N.
Proof. intros [r ->]. rewrite cost_of_app. lia. Qed.

Lemma emit_loop_spec budget pending emitted bound :
  is_usize budget -> bound = cost_of as_ref emitted -> (bound <= budget)%N ->
  exists taken rest,
    pending = taken ++ rest /\
    emit_loop as_ref budget pending emitted bound =
      mkEmission (emitted ++ taken) (cost_of as_ref (emitted ++ taken)) /\
    (cost_of as_ref (emitted ++ taken) <= budget)%N /\
    (forall x rest', rest = x :: rest' ->
       (budget < cost_of as_ref (emitted ++ taken) + estimate (as_ref x))%N).
Proof.
  unfold is_usize. intros Hb. revert emitted bound.
  induction pending as [|x pending IH]; intros emitted bound -> Hle; simpl.
  { exists [], []. rewrite (app_nil_r emitted). split_and!; try done. }
  unfold checked_add.
  destruct (N.leb_spec (cost_of as_ref emitted + estimate (as_ref x)) usize_max) as [Hm|Hm];
    [destruct (N.leb_spec (cost_of as_ref emitted + estimate (as_ref x)) budget) as [Hx|Hx]|].
  2, 3: exists [], (x :: pending); rewrite (app_nil_r emitted);
    split_and!; try done; intros ? ? [= <- <-]; lia.
  assert ((cost_of as_ref emitted + estimate (as_ref x))%N = cost_of as_ref (emitted ++ [x])) as E.
  { rewrite cost_of_app. unfold cost_of. simpl. lia. }
  destruct (IH (emitted ++ [x]) _ E Hx) as (taken & rest & -> & Heq & Hcost & Hmax).
  exists (x :: taken), rest. rewrite <- (app_assoc emitted [x] taken) in *. auto.
Qed.

Lemma emit_within_budget_spec input budget :
  is_usize budget ->
  exists rest,
    input = items (emit_within_budget as_ref input budget) ++ rest /\
    token_upper_bound (emit_within_budget as_ref input budget) =
      cost_of as_ref (items (emit_within_budget as_ref input budget)) /\
    (token_upper_bound (emit_within_budget as_ref input budget) <= budget)%N /\
    (forall x rest', rest = x :: rest' ->
       (budget < token_upper_bound (emit_within_budget as_ref input budget)
                 + estimate (as_ref x))%N).
Proof.
  intros Hb. unfold emit_within_budget.
  destruct (emit_loop_spec budget input [] 0 Hb eq_refl ltac:(lia)) as (taken & rest & Hin & -> & ?).
  exists rest. simpl in *. done.
Qed.

Lemma emit_bound_le input budget :
  is_usize budget -> (token_upper_bound (emit_within_budget as_ref input budget) <= budget)%N.
Proof. intros Hb. by destruct (emit_within_budget_spec input budget Hb) as (? & ? & ? & ? & ?). Qed.

Lemma emit_items_prefix input budget :
  is_usize budget -> items (emit_within_budget as_ref input budget) `prefix_of` input.
Proof. intros Hb. destruct (emit_within_budget_spec input budget Hb) as (rest & ? & _). by exists rest. Qed.

Lemma emit_whole input budget :
  is_usize budget -> (cost_of as_ref input <= budget)%N ->
  items (emit_within_budget as_ref input budget) = input.
Proof.
  intros Hb Hc. destruct (emit_within_budget_spec input budget Hb) as (rest & Hin & Hcost & _ & Hmax).
  destruct rest as [|x rest]; [by rewrite app_nil_r in Hin|].
  specialize (Hmax x rest eq_refl). rewrite Hin, cost_of_app, cost_of_cons in Hc. lia.
Qed.

Lemma cost_covers_concat `{!SubadditiveEstimator} (l : list T) :
  (utf8_len (concat (as_ref <$> l)) <= estimator_limit)%N ->
  (estimate (concat (as_ref <$> l)) <= cost_of as_ref l)%N.
Proof.
  induction l as [|x l IH]; csimpl; intros Hlen; [by rewrite estimate_empty|].
  pose proof (estimate_app _ _ Hlen). rewrite utf8_len_app in Hlen. lia.
Qed.

End emission.

(** ** Properties *)

(** [emit_within_budget] keeps a prefix of its input; the reported bound is exactly the
    sum of the kept items' estimates and never exceeds the budget; and the prefix is the
    longest affordable one: every prefix whose summed estimate fits is kept. *)
Theorem emit_longest_prefix {T} `{TokenEstimator} (as_ref : T -> str) (input : list T) (budget : N) :
  is_usize budget ->
  let e := emit_within_budget as_ref input budget in
  items e `prefix_of` input /\
  token_upper_bound e = cost_of as_ref (items e) /\
  (token_upper_bound e <= budget)%N /\
  (forall p, p `prefix_of` input -> (cost_of as_ref p <= budget)%N -> p `prefix_of` items e).
Proof.
  intros Hb e. destruct (emit_within_budget_spec as_ref input budget Hb) as (rest & Hin & Hcost & Hle & Hmax).
  fold e in Hin, Hcost, Hle, Hmax. split_and!; [by exists rest|done|done|].
  intros p Hp Hc. assert (items e `prefix_of` input) as He by by exists rest.
  destruct (prefix_weak_total _ _ _ Hp He) as [|[r ->]]; [done|].
  destruct r as [|x r]; [by rewrite app_nil_r|].
  destruct Hp as [q Hq]. rewrite Hin, <- !app_assoc in Hq at 1. apply app_inv_head in Hq.
  specialize (Hmax x _ Hq). rewrite cost_of_app, cost_of_cons in Hc. lia.
Qed.

(** The reported bound is never below the estimate of the concatenated emitted text, for
    every subadditive estimator (the byte-ratio one among them). *)
Theorem emit_bound_covers_text {T} `{TokenEstimator} `{!SubadditiveEstimator} (as_ref : T -> str) (input : list T) (budget : N) :
  is_usize budget ->
  (utf8_len (concat (as_ref <$> input)) <= estimator_limit)%N ->
  let e := emit_within_budget as_ref input budget in
  (estimate (concat (as_ref <$> items e)) <= token_upper_bound e)%N.
Proof.
  intros Hb Hlen e. destruct (emit_within_budget_spec as_ref input budget Hb) as (rest & Hin & Hcost & _).
  fold e in Hin, Hcost. rewrite Hcost. apply (cost_covers_concat (H0 := H0) as_ref).
  rewrite Hin, fmap_app, concat_app, utf8_len_app in Hlen. lia.
Qed.

(** On every text below 2^46 bytes, the float pipeline [(len as f64 / 3.6).ceil() as usize]
    of [ByteRatioEstimator] returns the exact ceiling of [5 * len / 18]: no rounding error of
    the literal 3.6 or of the division ever changes an estimate. *)
Theorem byte_ratio_estimate_exact (text : str) :
  (utf8_len text < 2 ^ 46)%N ->
  (18 * (byte_ratio_estimate text - 1) < 5 * utf8_len text \/ utf8_len text = 0)%N /\
  (5 * utf8_len text <= 18 * byte_ratio_estimate text)%N.
Proof.
  intros Hlen. unfold byte_ratio_estimate. rewrite byte_ratio_tokens_ceil by done.
  pose proof (ceil18 (utf8_len text)). lia.
Qed.

(** ** Witnesses *)

Definition tiny_items : list str := [lit "fun a()"; lit "x"; lit "class Wide"].

Lemma emit_longest_prefix_witness :
  items (emit_within_budget id tiny_items 4) = [lit "fun a()"; lit "x"] /\
  [lit "fun a()"] `prefix_of` items (emit_within_budget id tiny_items 4).
Proof.
  split; [compute_done|].
  apply (emit_longest_prefix id tiny_items 4 ltac:(compute_done)); [by exists [lit "x"; lit "class Wide"]|].
  vm_compute. discriminate.
Defined.

Lemma emit_bound_covers_text_witness :
  (estimate (concat (items (emit_within_budget id tiny_items 4))) <= 4)%N.
Proof.
  apply (N.le_trans _ (token_upper_bound (emit_within_budget id tiny_items 4))).
  - rewrite <- (list_fmap_id (items _)). apply (emit_bound_covers_text id tiny_items 4); compute_done.
  - vm_compute. discriminate.
Defined.

Lemma byte_ratio_estimate_exact_witness : (5 * 7 <= 18 * byte_ratio_estimate (lit "fun a()"))%N.
Proof. apply (byte_ratio_estimate_exact (lit "fun a()")). vm_compute. reflexivity. Defined.
