(* ===== verification/Text.v ===== *)
(** * Text: making source-derived text safe to show

    Models [crates/ktsense-core/src/text.rs]: [neutralize], [fence_for] and the
    signature layout fold [normalize_signature_layout] with its tokenizer. *)
From S2P Require Import Prelude.

Set Default Proof Using "Type*".

(** ** [neutralize] and [fence_for] *)

Definition MIN_FENCE_BACKTICKS : N := 3.

Definition BIDIRECTIONAL_OVERRIDES : list char :=
  [0x202A; 0x202B; 0x202C; 0x202D; 0x202E; 0x2066; 0x2067; 0x2068;
   0x2069; 0x200E; 0x200F; 0x061C]%N.

Definition is_unsafe_in_output (c : char) : bool :=
  is_control c || bool_decide (c ∈ BIDIRECTIONAL_OVERRIDES).

(** [format!("<U+{:04X}>", character as u32)]. *)
Definition unsafe_marker (c : char) : str := lit "<U+" ++ hex4 c ++ lit ">".

Definition neutralize (text : str) : str :=
  if negb (existsb is_unsafe_in_output text) then text
  else concat ((fun c => if is_unsafe_in_output c then unsafe_marker c else [c]) <$> text).

Definition backtick : char := ch "`".

Definition fence_for (body : str) : str :=
  let longest_backtick_run :=
    foldr N.max 0%N (utf8_len <$> split_by (fun c => negb (c =? backtick)%N) body) in
  replicate (N.to_nat (N.max (longest_backtick_run + 1) MIN_FENCE_BACKTICKS)) backtick.

(** ** The signature layout fold *)

Inductive Piece :=
  | Open (c : char)
  | Close (c : char)
  | Comma
  | Space
  | Verbatim (run : str).

Definition quote : char := 34.
Definition newline : char := 10.
Definition next_is (s : str) (c : char) : bool :=
  match s with d :: _ => (d =? c)%N | [] => false end.
Definition next_two_are (s : str) (c d : char) : bool := next_is s c && next_is (tail s) d.

(** The scanning loops of [consume_string]: [s] is the text from [index] on. *)
Fixpoint raw_string_end (s : str) (index : nat) : nat :=
  match s with
  | [] => index
  | c :: s' => if (c =? quote)%N && next_two_are s' quote quote then index + 3 else raw_string_end s' (S index)
  end.
Fixpoint plain_string_end (s : str) (index : nat) : nat :=
  match s with
  | [] => index
  | c :: s' =>
      if (c =? ch "\")%N then
        match s' with [] => S index | _ :: s'' => plain_string_end s'' (S (S index)) end
      else if (c =? quote)%N then S index
      else plain_string_end s' (S index)
  end.
Definition consume_string (characters : str) (start : nat) : nat :=
  if next_two_are (drop (start + 1) characters) quote quote
  then raw_string_end (drop (start + 3) characters) (start + 3)
  else plain_string_end (drop (start + 1) characters) (start + 1).

Fixpoint line_comment_end (s : str) (index : nat) : nat :=
  match s with
  | [] => index
  | c :: s' => if (c =? newline)%N then S index else line_comment_end s' (S index)
  end.
Definition consume_line_comment (characters : str) (start : nat) : nat :=
  line_comment_end (drop (start + 2) characters) (start + 2).

Fixpoint block_comment_end (s : str) (index : nat) : nat :=
  match s with
  | [] => index
  | c :: s' => if (c =? ch "*")%N && next_is s' (ch "/") then index + 2 else block_comment_end s' (S index)
  end.
Definition consume_block_comment (characters : str) (start : nat) : nat :=
  block_comment_end (drop (start + 2) characters) (start + 2).

Fixpoint whitespace_end (s : str) (index : nat) : nat :=
  match s with
  | c :: s' => if is_whitespace c then whitespace_end s' (S index) else index
  | [] => index
  end.

Definition flush_run (pieces : list Piece) (run : str) : list Piece :=
  match run with [] => pieces | _ => pieces ++ [Verbatim run] end.

Section layout.
Context `{Unicode}.

Definition opens_type_arguments (characters : str) (index : nat) : bool :=
  if next_is (drop (index + 1) characters) (ch "=") then false
  else
    let before := take index characters in
    match last before with
    | Some previous =>
        if is_alphanumeric previous || bool_decide (previous ∈ lit "_?>)") then true
        else if is_whitespace previous then
          let trimmed := trim_end before in
          bool_decide (trimmed = lit "fun") || ends_with trimmed (lit " fun") || ends_with trimmed (lit "(fun")
        else false
    | None => false
    end.

Definition closes_type_arguments (characters : str) (index : nat) : bool :=
  let previous := if decide (index = 0) then None else characters !! (index - 1) in
  bool_decide (previous <> Some (ch "-")) && negb (next_is (drop (index + 1) characters) (ch "=")).

(** One turn of [tokenize_layout]'s loop: the new index, run, angle depth and pieces. *)
Record TokState := mkTok {
  tok_index : nat; tok_run : str; tok_angle_depth : nat; tok_pieces : list Piece }.

Definition slice (characters : str) (i j : nat) : str := drop i (take j characters).

Definition tokenize_step (characters : str) (c : char) (t : TokState) : TokState :=
  let '(mkTok index run angle_depth pieces) := t in
  let next := drop (index + 1) characters in
  if (c =? quote)%N then
    let end_ := consume_string characters index in
    mkTok end_ (run ++ slice characters index end_) angle_depth pieces
  else if (c =? ch "/")%N && next_is next (ch "/") then
    let end_ := consume_line_comment characters index in
    mkTok end_ (run ++ slice characters index end_) angle_depth pieces
  else if (c =? ch "/")%N && next_is next (ch "*") then
    let end_ := consume_block_comment characters index in
    mkTok end_ (run ++ slice characters index end_) angle_depth pieces
  else if is_whitespace c then
    mkTok (whitespace_end (drop index characters) index) [] angle_depth (flush_run pieces run ++ [Space])
  else if bool_decide (c ∈ lit "([") then
    mkTok (index + 1) [] angle_depth (flush_run pieces run ++ [Open c])
  else if (c =? ch "<")%N && opens_type_arguments characters index then
    mkTok (index + 1) [] (angle_depth + 1) (flush_run pieces run ++ [Open c])
  else if bool_decide (c ∈ lit ")]") then
    mkTok (index + 1) [] angle_depth (flush_run pieces run ++ [Close c])
  else if (c =? ch ">")%N && bool_decide (0 < angle_depth) && closes_type_arguments characters index then
    mkTok (index + 1) [] (angle_depth - 1) (flush_run pieces run ++ [Close c])
  else if (c =? ch ",")%N then
    mkTok (index + 1) [] angle_depth (flush_run pieces run ++ [Comma])
  else mkTok (index + 1) (run ++ [c]) angle_depth pieces.

(** The [while index < characters.len()] loop; every turn advances the index. *)
Fixpoint tokenize_loop (fuel : nat) (characters : str) (t : TokState) : option TokState :=
  match characters !! tok_index t with
  | None => Some t
  | Some c =>
      match fuel with
      | O => None
      | S fuel' => tokenize_loop fuel' characters (tokenize_step characters c t)
      end
  end.

Definition tokenize_layout (text : str) : option (list Piece) :=
  t ← tokenize_loop (length text) text (mkTok 0 [] 0 []);
  Some (flush_run (tok_pieces t) (tok_run t)).

(** *** [normalize_signature_layout] *)

Definition is_close (p : option Piece) : bool := match p with Some (Close _) => true | _ => false end.
Definition is_open (p : option Piece) : bool := match p with Some (Open _) => true | _ => false end.
Definition is_space (p : option Piece) : bool := match p with Some Space => true | _ => false end.
Definition is_comma (p : option Piece) : bool := match p with Some Comma => true | _ => false end.

Fixpoint skip_spaces (ps : list Piece) : list Piece :=
  match ps with Space :: ps' => skip_spaces ps' | _ => ps end.

(** [if matches!(kept.last(), Some(Space)) { kept.pop(); }]. *)
Definition pop_space (kept : list Piece) : list Piece :=
  if is_space (last kept) then take (length kept - 1) kept else kept.

(** One turn over the pieces from [index] on: what is kept and what remains. *)
Definition normalize_step (kept : list Piece) (p : Piece) (rest : list Piece) : list Piece * list Piece :=
  match p with
  | Space =>
      let leading := bool_decide (kept = []) in
      let after_open := is_open (last kept) in
      let before_close_or_comma := is_close (head rest) || is_comma (head rest) in
      (if negb (leading || after_open || before_close_or_comma) then kept ++ [Space] else kept, rest)
  | Comma =>
      let next := skip_spaces rest in
      if is_close (head next) then (pop_space kept, next) else (kept ++ [Comma], rest)
  | Open c => (kept ++ [Open c], rest)
  | Close c => (kept ++ [Close c], rest)
  | Verbatim run => (kept ++ [Verbatim run], rest)
  end.

Fixpoint normalize_loop (fuel : nat) (kept pieces : list Piece) : option (list Piece) :=
  match pieces with
  | [] => Some kept
  | p :: rest =>
      match fuel with
      | O => None
      | S fuel' => let '(kept', rest') := normalize_step kept p rest in normalize_loop fuel' kept' rest'
      end
  end.

Definition piece_text (p : Piece) : str :=
  match p with
  | Open c | Close c => [c]
  | Comma => lit ","
  | Space => lit " "
  | Verbatim run => run
  end.

Definition normalize_pieces (pieces : list Piece) : option (list Piece) :=
  kept ← normalize_loop (length pieces) [] pieces; Some (pop_space kept).

Definition normalize_signature_layout (text : str) : option str :=
  pieces ← tokenize_layout text;
  kept ← normalize_pieces pieces;
  Some (concat (piece_text <$> kept)).

(** What a layout piece spells in the source: a space is a whole run of whitespace. *)
Inductive spells : Piece -> str -> Prop :=
  | spells_open c : spells (Open c) [c]
  | spells_close c : spells (Close c) [c]
  | spells_comma : spells Comma (lit ",")
  | spells_space w : w <> [] -> Forall (fun c => is_whitespace c = true) w -> spells Space w
  | spells_verbatim run : run <> [] -> spells (Verbatim run) run.

(** The layout fold as a relation: it keeps every piece except that it may drop a run of
    whitespace, and a comma when the next piece that is not whitespace is a closer. *)
Inductive folds : list Piece -> list Piece -> Prop :=
  | folds_nil : folds [] []
  | folds_keep p ps ks : folds ps ks -> folds (p :: ps) (p :: ks)
  | folds_space ps ks : folds ps ks -> folds (Space :: ps) ks
  | folds_comma ps ks : is_close (head (skip_spaces ps)) = true -> folds ps ks -> folds (Comma :: ps) ks.

(** No space at either end of a signature, just inside a bracket, before a comma or
    next to another space. *)
Definition blocks_space_before (p : option Piece) : Prop :=
  match p with None | Some (Open _) | Some Space => True | _ => False end.
Definition blocks_space_after (p : option Piece) : Prop :=
  match p with None | Some (Close _) | Some Comma | Some Space => True | _ => False end.
Definition tidy (ps : list Piece) : Prop :=
  forall pre post, ps = pre ++ Space :: post ->
    ~ blocks_space_before (last pre) /\ ~ blocks_space_after (head post).

End layout.

Instance piece_eq_dec : EqDecision Piece.
Proof. solve_decision. Defined.

(** A concrete instance of the Unicode tables for examples: Latin-1 letters only. *)
Definition latin1_unicode : Unicode := {|
  uni_alphabetic c := (192 <=? c)%N && (c <=? 591)%N && negb ((c =? 215)%N || (c =? 247)%N);
  uni_numeric c := false |}.

Example fold_component :
  @normalize_signature_layout latin1_unicode (lit "fun f( a: Int,  b: List<String> ,)")
  = Some (lit "fun f(a: Int, b: List<String>)").
Proof. vm_compute. reflexivity. Qed.

(** ** Lemmas: [neutralize] *)

Lemma printable_ascii_safe c : (32 <= c < 127)%N -> is_unsafe_in_output c = false.
Proof.
  intros Hc. unfold is_unsafe_in_output, is_control.
  destruct (N.ltb_spec c 32); [lia|]. destruct (N.leb_spec 127 c); [lia|]. simpl.
  apply bool_decide_eq_false. unfold BIDIRECTIONAL_OVERRIDES.
  rewrite !elem_of_cons, elem_of_nil. intros Hin. repeat destruct Hin as [Hin|Hin]; lia.
Qed.

Lemma digit_char_safe d : (d < 16)%N -> is_unsafe_in_output (digit_char d) = false.
Proof. intros Hd. apply printable_ascii_safe. unfold digit_char. case_match; lia. Qed.

Definition all_safe (s : str) : Prop := Forall (fun c => is_unsafe_in_output c = false) s.

Lemma digits_fuel_safe fuel base n acc :
  (0 < base <= 16)%N -> all_safe acc -> all_safe (digits_fuel fuel base n acc).
Proof.
  intros Hb. revert n acc. induction fuel as [|fuel IH]; intros n acc Hacc; simpl; [done|].
  assert (all_safe (digit_char (n mod base) :: acc)) as Hacc'.
  { constructor; [|done]. apply digit_char_safe. pose proof (N.mod_lt n base). lia. }
  destruct (_ =? 0)%N; auto.
Qed.

Lemma radix_safe base n : (0 < base <= 16)%N -> all_safe (radix base n).
Proof. intros. apply digits_fuel_safe; [done|constructor]. Qed.

Lemma dec_safe n : all_safe (dec n).
Proof. by apply radix_safe. Qed.

Lemma unsafe_marker_safe c : all_safe (unsafe_marker c).
Proof.
  unfold all_safe, unsafe_marker, hex4. rewrite !Forall_app. split_and!.
  - repeat (constructor; [by vm_compute|]). constructor.
  - apply Forall_replicate. by vm_compute.
  - by apply radix_safe.
  - repeat (constructor; [by vm_compute|]). constructor.
Qed.

Lemma existsb_false_safe s : existsb is_unsafe_in_output s = false <-> all_safe s.
Proof.
  unfold all_safe. induction s as [|c s IH]; simpl; [by split|].
  rewrite Forall_cons, <- IH, orb_false_iff. done.
Qed.

Lemma neutralize_all_safe s : all_safe (neutralize s).
Proof.
  unfold neutralize. destruct (existsb _ s) eqn:E; simpl; [|by apply existsb_false_safe].
  clear E. induction s as [|c s IH]; csimpl; [constructor|].
  apply Forall_app. split; [|done].
  destruct (is_unsafe_in_output c) eqn:E; [apply unsafe_marker_safe|by repeat constructor].
Qed.

Lemma neutralize_id s : all_safe s -> neutralize s = s.
Proof. intros Hs%existsb_false_safe. unfold neutralize. by rewrite Hs. Qed.

(** The escape is what a character-by-character map gives, on both branches. *)
Lemma neutralize_map s :
  neutralize s = concat ((fun c => if is_unsafe_in_output c then unsafe_marker c else [c]) <$> s).
Proof.
  destruct (existsb is_unsafe_in_output s) eqn:E; unfold neutralize; rewrite E; simpl; [done|].
  induction s as [|c s IH]; [done|]. simpl in E. apply orb_false_iff in E as [Ec Es].
  csimpl. rewrite Ec. simpl. f_equal. by apply IH.
Qed.

Lemma neutralize_app a b : neutralize (a ++ b) = neutralize a ++ neutralize b.
Proof. by rewrite !neutralize_map, fmap_app, concat_app. Qed.

(** ** Lemmas: [fence_for] *)

Definition not_backtick (c : char) : bool := negb (c =? backtick)%N.

Lemma split_by_ne p s : split_by p s <> [].
Proof. destruct s; simpl; repeat case_match; done. Qed.

Lemma longest_run_bound s k :
  (forall piece, piece ∈ split_by not_backtick s -> (utf8_len piece < N.of_nat k)%N) ->
  contains_str s (replicate k backtick) = false.
Proof.
  assert (forall s, starts_with s (replicate k backtick) = true ->
    exists piece rest, split_by not_backtick s = piece :: rest /\ (N.of_nat k <= utf8_len piece)%N) as Hstart.
  { clear. induction k as [|k IH]; intros s.
    - intros _. destruct (split_by not_backtick s) as [|piece rest] eqn:E; [by apply split_by_ne in E|].
      exists piece, rest. split; [done|lia].
    - destruct s as [|c s]; [done|].
      change (starts_with (c :: s) (replicate (S k) backtick))
        with ((backtick =? c)%N && starts_with s (replicate k backtick)).
      intros [<-%N.eqb_eq Hs]%andb_prop.
      destruct (IH s Hs) as (piece & rest & E & Hlen).
      change (split_by not_backtick (backtick :: s)) with
        (match split_by not_backtick s with p :: rest => (backtick :: p) :: rest | [] => [[backtick]] end).
      rewrite E.
      exists (backtick :: piece), rest. split; [done|]. unfold utf8_len in *. simpl.
      change (len_utf8 backtick) with 1%N. lia. }
  intros Hs. induction s as [|c s IH].
  - destruct k as [|k]; [|done]. specialize (Hs [] ltac:(left)). simpl in Hs. lia.
  - simpl contains_str. apply orb_false_iff. split.
    + destruct (starts_with (c :: s) (replicate k backtick)) eqn:E; [|done].
      destruct (Hstart _ E) as (piece & rest & E' & Hlen).
      specialize (Hs piece). rewrite E' in Hs. specialize (Hs ltac:(left)). lia.
    + apply IH. intros piece Hp. simpl in Hs.
      destruct (not_backtick c); [apply Hs; by right|].
      destruct (split_by not_backtick s) as [|piece' rest]; [by apply elem_of_nil in Hp|].
      apply elem_of_cons in Hp as [->|Hp]; [|apply Hs; by right].
      specialize (Hs (c :: piece') ltac:(left)). unfold utf8_len in *. simpl in Hs.
      assert (1 <= len_utf8 c)%N by (unfold len_utf8; repeat case_match; lia). lia.
Qed.

Lemma foldr_max_elem (l : list N) x : x ∈ l -> (x <= foldr N.max 0 l)%N.
Proof. induction 1; simpl; lia. Qed.

Lemma fence_for_not_in_body body : contains_str body (fence_for body) = false.
Proof.
  unfold fence_for. apply longest_run_bound. intros piece Hp.
  pose proof (foldr_max_elem (utf8_len <$> split_by not_backtick body) (utf8_len piece)) as Hmax.
  unfold not_backtick in *. specialize (Hmax ltac:(by apply list_elem_of_fmap_2)). lia.
Qed.

(** ** Lemmas: the tokenizer *)

Lemma next_two_length s c d : next_two_are s c d = true -> 2 <= length s.
Proof. unfold next_two_are. destruct s as [|x [|y s]]; simpl; rewrite ?andb_false_r; [done..|lia]. Qed.

Lemma raw_string_end_bounds s i : i <= raw_string_end s i <= i + length s.
Proof.
  revert i. induction s as [|c s IH]; intros i; simpl; [lia|].
  destruct ((c =? quote)%N && _) eqn:E; [|specialize (IH (S i)); lia].
  apply andb_prop in E as [_ E%next_two_length]. lia.
Qed.

Lemma plain_string_end_bounds s i : i <= plain_string_end s i <= i + length s.
Proof.
  revert i. induction s as [s IH] using (induction_ltof1 _ length). unfold ltof in IH.
  intros i. destruct s as [|c s]; simpl; [lia|].
  destruct (c =? ch "\")%N; [destruct s as [|d s]; [simpl; lia|]|destruct (c =? quote)%N; [lia|]].
  - pose proof (IH s ltac:(simpl; lia) (S (S i))). simpl. lia.
  - pose proof (IH s ltac:(simpl; lia) (S i)). lia.
Qed.

Lemma line_comment_end_bounds s i : i <= line_comment_end s i <= i + length s.
Proof.
  revert i. induction s as [|c s IH]; intros i; simpl; [lia|].
  destruct (c =? newline)%N; [lia|]. specialize (IH (S i)). lia.
Qed.

Lemma block_comment_end_bounds s i : i <= block_comment_end s i <= i + length s.
Proof.
  revert i. induction s as [|c s IH]; intros i; simpl; [lia|].
  destruct ((c =? ch "*")%N && _) eqn:E; [|specialize (IH (S i)); lia].
  apply andb_prop in E as [_ E]. destruct s; [done|]. simpl. lia.
Qed.

Lemma whitespace_end_spec s i :
  exists n, whitespace_end s i = i + n /\ n <= length s /\
    Forall (fun c => is_whitespace c = true) (take n s) /\
    (forall c, s !! n = Some c -> is_whitespace c = false).
Proof.
  revert i. induction s as [|c s IH]; intros i; simpl.
  { exists 0. rewrite take_0. split_and!; [lia|lia|done|]. intros c. by rewrite lookup_nil. }
  destruct (is_whitespace c) eqn:E.
  - destruct (IH (S i)) as (n & -> & Hn & Hall & Hnext). exists (S n). simpl.
    split_and!; [lia|lia|by constructor|done].
  - exists 0. split_and!; [lia|lia|by rewrite take_0|]. by intros ? [= <-].
Qed.

Lemma slice_spec (s : str) i j : i <= j -> take i s ++ slice s i j = take j s.
Proof. intros Hij. unfold slice. rewrite <- (take_drop i (take j s)) at 2. by rewrite take_take, Nat.min_l. Qed.

Lemma consume_bounds (s : str) i c d :
  s !! i = Some c -> next_is (drop (i + 1) s) d = true ->
  (i < consume_line_comment s i <= length s) /\ (i < consume_block_comment s i <= length s).
Proof.
  intros Hi Hd. assert (i + 2 <= length s) as Hlen.
  { destruct (drop (i + 1) s) as [|x r] eqn:E; [done|].
    assert (length (drop (i + 1) s) = S (length r)) as El by by rewrite E.
    rewrite length_drop in El. lia. }
  pose proof (line_comment_end_bounds (drop (i + 2) s) (i + 2)).
  pose proof (block_comment_end_bounds (drop (i + 2) s) (i + 2)).
  unfold consume_line_comment, consume_block_comment. rewrite length_drop in *. lia.
Qed.

Lemma consume_string_bounds (s : str) i c :
  s !! i = Some c -> i < consume_string s i <= length s.
Proof.
  intros Hi%lookup_lt_Some. unfold consume_string.
  destruct (next_two_are _ _ _) eqn:E.
  - apply next_two_length in E. rewrite length_drop in E.
    pose proof (raw_string_end_bounds (drop (i + 3) s) (i + 3)). rewrite length_drop in *. lia.
  - pose proof (plain_string_end_bounds (drop (i + 1) s) (i + 1)). rewrite length_drop in *. lia.
Qed.

Lemma flush_run_spells pieces run segs :
  Forall2 spells pieces segs ->
  exists segs', Forall2 spells (flush_run pieces run) segs' /\ concat segs' = concat segs ++ run.
Proof.
  intros Hs. destruct run as [|c run]; simpl.
  - exists segs. by rewrite app_nil_r.
  - exists (segs ++ [c :: run]). split.
    + apply Forall2_app; [done|]. repeat constructor. done.
    + rewrite concat_app. simpl. by rewrite app_nil_r.
Qed.

(** No two spaces in a row. *)
Definition spaced (ps : list Piece) : Prop :=
  forall pre post, ps = pre ++ Space :: post -> head post <> Some Space.

Lemma snoc_split {A} (l : list A) x pre y post :
  l ++ [x] = pre ++ y :: post ->
  (post = [] /\ x = y /\ l = pre) \/ (exists post', post = post' ++ [x] /\ l = pre ++ y :: post').
Proof.
  destruct post as [|z post _] using rev_ind.
  - intros E%app_inj_tail. naive_solver.
  - rewrite app_comm_cons, app_assoc. intros [-> ->]%app_inj_tail. right. by exists post.
Qed.

Lemma spaced_snoc ps p :
  spaced ps -> (p = Space -> last ps <> Some Space) -> spaced (ps ++ [p]).
Proof.
  intros Hs Hp pre post E. apply snoc_split in E as [(-> & -> & ->)|(post' & -> & ->)]; [done|].
  specialize (Hs pre post' eq_refl). destruct post' as [|q post']; [|done].
  simpl. intros [= ->]. apply Hp; [done|]. by rewrite last_snoc.
Qed.

Lemma flush_run_spaced pieces run : spaced pieces -> spaced (flush_run pieces run).
Proof. intros Hs. destruct run; [done|]. by apply spaced_snoc. Qed.

Section tokenizer.
Context `{Unicode} (text : str).

(** The loop invariant: the pieces and the pending run spell the consumed prefix. *)
Record tok_inv (t : TokState) : Prop := {
  inv_index : tok_index t <= length text;
  inv_spells : exists segs, Forall2 spells (tok_pieces t) segs /\
                            concat segs ++ tok_run t = take (tok_index t) text;
  inv_spaced : spaced (tok_pieces t);
  inv_after_space : last (tok_pieces t) = Some Space -> tok_run t = [] ->
                    forall c, text !! tok_index t = Some c -> is_whitespace c = false }.

Lemma tok_inv_init : tok_inv (mkTok 0 [] 0 []).
Proof.
  split; simpl; [lia| |by intros [] ?|done].
  exists []. split; [done|]. by rewrite take_0.
Qed.

(** Extending the pending run. *)
Lemma tok_inv_run t j d :
  tok_inv t -> tok_index t < j <= length text -> slice text (tok_index t) j <> [] ->
  tok_inv (mkTok j (tok_run t ++ slice text (tok_index t) j) d (tok_pieces t)).
Proof.
  intros [Hi (segs & Hs & Hc) Hsp Haf] Hj Hne. split; simpl; [lia| |done|].
  - exists segs. split; [done|]. rewrite app_assoc, Hc. apply slice_spec. lia.
  - intros _ E. by apply app_nil in E as [_ E].
Qed.

(** Flushing the run and emitting one piece. *)
Lemma tok_inv_piece t p w j d :
  tok_inv t -> tok_index t < j <= length text -> spells p w ->
  take (tok_index t) text ++ w = take j text ->
  (p = Space -> forall c, text !! tok_index t = Some c -> is_whitespace c = true) ->
  (p = Space -> forall c, text !! j = Some c -> is_whitespace c = false) ->
  tok_inv (mkTok j [] d (flush_run (tok_pieces t) (tok_run t) ++ [p])).
Proof.
  intros [Hi (segs & Hs & Hc) Hsp Haf] Hj Hw Htake Hstart Hend. split; simpl; [lia| | |].
  - destruct (flush_run_spells _ (tok_run t) _ Hs) as (segs' & Hs' & Hc').
    exists (segs' ++ [w]). split; [by apply Forall2_app; [|repeat constructor]|].
    rewrite concat_app, Hc', Hc, app_nil_r. simpl. by rewrite app_nil_r.
  - apply spaced_snoc; [by apply flush_run_spaced|]. intros ->.
    destruct (tok_run t) eqn:Er; simpl; [|by rewrite last_snoc].
    intros Hl. destruct (lookup_lt_is_Some_2 text (tok_index t)) as [c Hc']; [lia|].
    pose proof (Haf Hl eq_refl c Hc') as Hf. by rewrite (Hstart eq_refl c Hc') in Hf.
  - rewrite last_snoc. intros [= ->] _. by apply Hend.
Qed.

Lemma slice_nonempty i j : i < j <= length text -> slice text i j <> [].
Proof.
  intros Hij E. apply (f_equal length) in E. unfold slice in E.
  rewrite length_drop, length_take in E. simpl in E. lia.
Qed.

Lemma slice_one i c : text !! i = Some c -> slice text i (i + 1) = [c].
Proof.
  intros Hi. unfold slice. replace (i + 1) with (S i) by lia.
  rewrite (take_S_r _ _ _ Hi), drop_app_length'; [done|].
  apply lookup_lt_Some in Hi. rewrite length_take. lia.
Qed.

Lemma tokenize_step_inv t c :
  tok_inv t -> text !! tok_index t = Some c ->
  tok_inv (tokenize_step text c t) /\ tok_index t < tok_index (tokenize_step text c t).
Proof.
  intros Ht Hc. pose proof (lookup_lt_Some _ _ _ Hc) as Hlt.
  destruct t as [i run depth pieces]. unfold tokenize_step. simpl in Hc, Hlt. cbn [tok_index].
  assert (forall j d, i < j <= length text -> tok_inv (mkTok j (run ++ slice text i j) d pieces)) as Hrun.
  { intros j d Hj. apply (tok_inv_run _ j d Ht); [done|].
    by apply slice_nonempty. }
  assert (forall p d, spells p [c] -> p <> Space -> tok_inv (mkTok (i + 1) [] d (flush_run pieces run ++ [p]))) as Hone.
  { intros p d Hp Hns. apply (tok_inv_piece _ p [c] (i + 1) d Ht); simpl; [lia|done| |done|done].
    rewrite <- (slice_one i c Hc). apply slice_spec. lia. }
  pose proof (consume_string_bounds text i c Hc) as Hbs.
  destruct (c =? quote)%N; [split; [auto|simpl; lia]|].
  destruct ((c =? ch "/")%N && next_is _ (ch "/")) eqn:E1.
  { apply andb_prop in E1 as [_ E1]. destruct (consume_bounds text i c _ Hc E1) as [Hb _].
    split; [auto|simpl; lia]. }
  destruct ((c =? ch "/")%N && next_is _ (ch "*")) eqn:E2.
  { apply andb_prop in E2 as [_ E2]. destruct (consume_bounds text i c _ Hc E2) as [_ Hb].
    split; [auto|simpl; lia]. }
  destruct (is_whitespace c) eqn:Ew.
  { destruct (whitespace_end_spec (drop i text) i) as (n & -> & Hn & Hall & Hnext).
    rewrite length_drop in Hn. rewrite lookup_drop in Hnext.
    destruct n as [|n].
    { rewrite Nat.add_0_r in Hnext. by rewrite (Hnext c Hc) in Ew. }
    split; [|simpl; lia].
    apply (tok_inv_piece _ Space (take (S n) (drop i text)) (i + S n) depth Ht); simpl; [lia| | | |].
    - constructor; [|done]. by rewrite (drop_S _ _ _ Hc).
    - rewrite take_drop_commute. apply slice_spec. lia.
    - intros _ c' Hc'. by simplify_eq.
    - intros _ c' Hc'. by apply Hnext. }
  assert (forall d, tok_inv (mkTok (i + 1) (run ++ [c]) d pieces)) as Hpush.
  { intros d. rewrite <- (slice_one i c Hc). apply Hrun. lia. }
  destruct (bool_decide (c ∈ lit "([")); [split; [apply Hone; [constructor|done]|simpl; lia]|].
  destruct ((c =? ch "<")%N && _); [split; [apply Hone; [constructor|done]|simpl; lia]|].
  destruct (bool_decide (c ∈ lit ")]")); [split; [apply Hone; [constructor|done]|simpl; lia]|].
  destruct ((c =? ch ">")%N && _ && _); [split; [apply Hone; [constructor|done]|simpl; lia]|].
  destruct (N.eqb_spec c (ch ",")) as [->|]; [|split; [auto|simpl; lia]].
  split; [apply Hone; [constructor|done]|simpl; lia].
Qed.

Lemma tokenize_loop_total fuel t :
  tok_inv t -> length text - tok_index t <= fuel ->
  exists t', tokenize_loop fuel text t = Some t' /\ tok_inv t' /\ text !! tok_index t' = None.
Proof.
  revert t. induction fuel as [|fuel IH]; intros t Ht Hf; simpl.
  - destruct (text !! tok_index t) as [c|] eqn:Hc; [apply lookup_lt_Some in Hc; lia|eauto].
  - destruct (text !! tok_index t) as [c|] eqn:Hc; [|eauto].
    destruct (tokenize_step_inv t c Ht Hc) as [Ht' Hi]. apply IH; [done|lia].
Qed.

Lemma tokenize_layout_spec :
  exists pieces segs, tokenize_layout text = Some pieces /\
    Forall2 spells pieces segs /\ concat segs = text /\ spaced pieces.
Proof.
  destruct (tokenize_loop_total (length text) _ tok_inv_init) as (t & Ht & [Hi (segs & Hs & Hc) Hsp _] & Hend);
    [simpl; lia|].
  unfold tokenize_layout. rewrite Ht. simpl.
  destruct (flush_run_spells _ (tok_run t) _ Hs) as (segs' & Hs' & Hc').
  exists (flush_run (tok_pieces t) (tok_run t)), segs'. split_and!; [done|done| |by apply flush_run_spaced].
  rewrite Hc', Hc. apply take_ge. by apply lookup_ge_None in Hend.
Qed.

End tokenizer.

(** ** Lemmas: the fold *)

Lemma folds_snoc_space ps ks : folds ps (ks ++ [Space]) -> folds ps ks.
Proof.
  remember (ks ++ [Space]) as ks' eqn:E. intros Hf. revert ks E.
  induction Hf as [|p ps ks' Hf IH|ps ks' Hf IH|ps ks' Hc Hf IH]; intros ks E.
  - by destruct ks.
  - destruct ks as [|q ks]; simplify_eq/=.
    + clear IH. constructor. done.
    + constructor. by apply IH.
  - constructor. by apply IH.
  - constructor; [done|]. by apply IH.
Qed.

Lemma folds_skip_spaces ps ks : folds (skip_spaces ps) ks -> folds ps ks.
Proof. induction ps as [|[] ps IH]; simpl; try done. intros. constructor. auto. Qed.

Lemma spaced_tail p ps : spaced (p :: ps) -> spaced ps.
Proof. intros Hs pre post ->. by apply (Hs (p :: pre) post). Qed.

Lemma spaced_skip ps : spaced ps -> spaced (skip_spaces ps).
Proof. induction ps as [|[] ps IH]; simpl; try done. intros Hs. by apply IH, (spaced_tail Space). Qed.

(** The invariant of [normalize_signature_layout]'s loop: the kept pieces are tidy so far,
    and folding the remaining pieces completes a fold of the whole. *)
Record norm_inv (pieces kept rest : list Piece) : Prop := {
  inv_tidy : forall pre post, kept = pre ++ Space :: post ->
    ~ blocks_space_before (last pre) /\
    match head (post ++ rest) with None => True | p => ~ blocks_space_after p end;
  inv_rest : spaced rest;
  inv_folds : forall ks, folds rest ks -> folds pieces (kept ++ ks) }.

(** Keeping the piece at hand, when it does not follow a space it cannot follow. *)
Lemma norm_inv_keep pieces kept p rest :
  norm_inv pieces kept (p :: rest) ->
  (p = Space -> ~ blocks_space_before (last kept) /\
                match head rest with None => True | q => ~ blocks_space_after q end) ->
  norm_inv pieces (kept ++ [p]) rest.
Proof.
  intros [Ht Hr Hf] Hp. split; [|by apply (spaced_tail p)|].
  - intros pre post E. apply snoc_split in E as [(-> & -> & ->)|(post' & -> & ->)].
    + by apply Hp.
    + specialize (Ht pre post' eq_refl) as [Hb Ha]. split; [done|].
      by destruct post'.
  - intros ks Hks. rewrite <- app_assoc. apply Hf. by constructor.
Qed.

Lemma normalize_step_inv pieces kept p rest :
  norm_inv pieces kept (p :: rest) ->
  norm_inv pieces (normalize_step kept p rest).1 (normalize_step kept p rest).2.
Proof.
  intros Hi. pose proof Hi as [Ht Hr Hf].
  assert (last kept = Some Space -> ~ blocks_space_after (Some p)) as Hlast.
  { intros (pre & E)%last_Some. specialize (Ht pre [] E) as [_ Ha]. done. }
  destruct p; simpl; try (apply norm_inv_keep; [done|by intros [=]]).
  - destruct (is_close (head (skip_spaces rest))) eqn:Ec; simpl;
      [|apply norm_inv_keep; [done|by intros [=]]].
    assert (pop_space kept = kept) as ->.
    { unfold pop_space. destruct (last kept) as [[]|] eqn:El; try done. by destruct Hlast. }
    split.
    + intros pre post ->. specialize (Ht pre post eq_refl) as [Hb Ha]. split; [done|].
      destruct post as [|q post]; [|done]. by destruct Hlast; rewrite ?last_snoc.
    + apply spaced_skip. by apply (spaced_tail Comma).
    + intros ks Hks. apply Hf. constructor; [done|]. by apply folds_skip_spaces.
  - destruct (bool_decide (kept = []) || is_open (last kept) || (is_close (head rest) || is_comma (head rest)))
      eqn:E; simpl.
    + split; [|by apply (spaced_tail Space)|].
      * intros pre post ->. specialize (Ht pre post eq_refl) as [Hb Ha]. split; [done|].
        destruct post as [|q post]; [|done]. by destruct Hlast; rewrite ?last_snoc.
      * intros ks Hks. apply Hf. by constructor.
    + rewrite !orb_false_iff, bool_decide_eq_false in E. destruct E as [[Hne Ho] [Hc Hm]].
      apply norm_inv_keep; [done|]. intros _. split.
      * destruct (last kept) as [[]|] eqn:El; simpl; try first [done | tauto].
        by apply last_None in El.
      * pose proof (Hr [] rest eq_refl) as Hsp. destruct (head rest) as [[]|]; first [done | simpl; tauto].
Qed.

Lemma normalize_step_length kept p rest : length (normalize_step kept p rest).2 <= length rest.
Proof.
  destruct p; simpl; try done. destruct (is_close _); simpl; [|done].
  induction rest as [|[] rest IH]; simpl; lia.
Qed.

Lemma normalize_loop_total fuel pieces kept rest :
  norm_inv pieces kept rest -> length rest <= fuel ->
  exists kept', normalize_loop fuel kept rest = Some kept' /\ norm_inv pieces kept' [].
Proof.
  revert kept rest. induction fuel as [|fuel IH]; intros kept [|p rest] Hi Hf; simpl in *; eauto; [lia|].
  pose proof (normalize_step_inv _ _ _ _ Hi) as Hi'. pose proof (normalize_step_length kept p rest).
  destruct (normalize_step kept p rest) as [kept' rest']. apply IH; simpl in *; [done|lia].
Qed.

Lemma norm_inv_pop pieces kept : norm_inv pieces kept [] -> folds pieces (pop_space kept) /\ tidy (pop_space kept).
Proof.
  intros [Ht _ Hf]. specialize (Hf [] ltac:(constructor)). rewrite app_nil_r in Hf.
  unfold pop_space. destruct (last kept) as [[]|] eqn:El; simpl;
    try (split; [done|]; intros pre post ->; specialize (Ht pre post eq_refl) as [Hb Ha]; split; [done|];
         destruct post; [|done]; by rewrite last_snoc in El).
  apply last_Some in El as [k ->]. rewrite length_app, Nat.add_sub, take_app_length.
  split; [by apply folds_snoc_space|]. intros pre post ->.
  specialize (Ht pre (post ++ [Space])). rewrite <- app_assoc in Ht. specialize (Ht eq_refl) as [Hb Ha].
  split; [done|]. destruct post as [|q post]; [|done].
  intros _. by apply Ha.
Qed.

Lemma normalize_pieces_spec pieces :
  spaced pieces ->
  exists kept, normalize_pieces pieces = Some kept /\ folds pieces kept /\ tidy kept.
Proof.
  intros Hs. destruct (normalize_loop_total (length pieces) pieces [] pieces) as (kept & Hk & Hi).
  - split; [by intros [] ?|done|by intros].
  - done.
  - unfold normalize_pieces. rewrite Hk. simpl. eauto using norm_inv_pop.
Qed.

(** ** Properties *)

(** Neither a control character nor a bidirectional mark, embedding, override or isolate. *)
Definition plain_char (c : char) : Prop :=
  (32 <= c)%N /\ ~ (127 <= c <= 159)%N /\ ~ (8234 <= c <= 8238)%N /\ ~ (8294 <= c <= 8297)%N /\
  c <> 0x200E%N /\ c <> 0x200F%N /\ c <> 0x061C%N.

Lemma plain_char_safe c : is_unsafe_in_output c = false <-> plain_char c.
Proof.
  unfold is_unsafe_in_output, is_control, plain_char, BIDIRECTIONAL_OVERRIDES.
  rewrite !orb_false_iff, bool_decide_eq_false, andb_false_iff, !N.ltb_ge, N.leb_gt, !not_elem_of_cons.
  split; [intros ([? [?|?]] & Hb); decompose [and] Hb; lia|].
  intros Hc. split_and!; try lia. apply not_elem_of_nil.
Qed.

(** no rendered source text can break its line or reorder what is shown: the output of
    [neutralize] holds no control character and no bidirectional override, a text without
    them is returned unchanged, and neutralizing twice changes nothing more. *)
Theorem neutralize_safe (text : str) :
  Forall plain_char (neutralize text) /\
  (Forall plain_char text <-> neutralize text = text) /\
  neutralize (neutralize text) = neutralize text.
Proof.
  assert (forall s, Forall plain_char s <-> Forall (fun c => is_unsafe_in_output c = false) s) as Hp.
  { intros s. apply Forall_iff. intros c. symmetry. apply plain_char_safe. }
  rewrite !Hp. split_and!; [apply neutralize_all_safe| |apply neutralize_id, neutralize_all_safe].
  split; [apply neutralize_id|]. intros <-. apply neutralize_all_safe.
Qed.

(** No body can close the fence sized for it: the fence is at least three backticks long
    and occurs nowhere in the body. *)
Theorem fence_for_survives_body (body : str) :
  contains_str body (fence_for body) = false /\
  Forall (fun c => c = backtick) (fence_for body) /\
  3 <= length (fence_for body).
Proof.
  split_and!; [apply fence_for_not_in_body|by apply Forall_replicate|].
  unfold fence_for. rewrite length_replicate. unfold MIN_FENCE_BACKTICKS. lia.
Qed.

(** [normalize_signature_layout] always returns, its tokens spell the input exactly, and
    it only drops whitespace runs and commas that a closer follows: every bracket, string
    literal, comment and other character survives in order. The result has no space at its
    ends, just inside a bracket, before a comma, or doubled. *)
Theorem normalize_signature_layout_folds `{Unicode} (text : str) :
  exists pieces segs kept,
    Forall2 spells pieces segs /\ concat segs = text /\
    folds pieces kept /\ tidy kept /\
    normalize_signature_layout text = Some (concat (piece_text <$> kept)).
Proof.
  destruct (tokenize_layout_spec text) as (pieces & segs & Ht & Hs & Hc & Hsp).
  destruct (normalize_pieces_spec pieces Hsp) as (kept & Hk & Hf & Htidy).
  exists pieces, segs, kept. split_and!; try done.
  unfold normalize_signature_layout. by rewrite Ht; simpl; rewrite Hk.
Qed.
