(* ===== verification/Graph.v ===== *)
(** * Graph: the directed graph and PageRank

    Models [crates/ktsense-core/src/rank.rs]. A graph keeps its node identities in order
    of first appearance and, per node, the sorted indices of its successors. [page_rank]
    is written over the float operations the source uses ([FloatOps]), so one definition
    is both run on binary64-style arithmetic and reasoned about in exact arithmetic. *)
From S2P Require Import Prelude Collections.
From Stdlib Require Import QArith Qcanon Field.

Set Default Proof Using "Type*".
#[local] Open Scope nat_scope.

(** ** The graph *)

Record Graph (A : Type) := mkGraph {
  node_ids : list A;
  out_edges : list (list nat) }.
Arguments mkGraph {A}.
Arguments node_ids {A}.
Arguments out_edges {A}.

Section graph.
Context {A : Type} `{Ord A} `{!EqDecision A}.

(** [intern]: the index of a node, allocated on first sight. *)
Definition intern (lookup : list (A * nat)) (ids : list A) (node : A)
    : list (A * nat) * list A * nat :=
  match bt_get node lookup with
  | Some index => (lookup, ids, index)
  | None => (bt_insert node (length ids) lookup, ids ++ [node], length ids)
  end.

(** The first loop of [from_edges]: interning both ends of every edge. *)
Definition intern_edge (st : list (A * nat) * list A * list (nat * nat)) (edge : A * A)
    : list (A * nat) * list A * list (nat * nat) :=
  let '(lookup, ids, pairs) := st in
  let '(lookup, ids, from_idx) := intern lookup ids edge.1 in
  let '(lookup, ids, to_idx) := intern lookup ids edge.2 in
  (lookup, ids, pairs ++ [(from_idx, to_idx)]).

(** [out_edges[from].push(to)]. *)
Definition push_edge (adjacency : list (list nat)) (pair : nat * nat) : list (list nat) :=
  alter (fun targets => targets ++ [pair.2]) pair.1 adjacency.

(** [Graph::from_edges]. *)
Definition from_edges (edges : list (A * A)) : Graph A :=
  let '(lookup, ids, pairs) := foldl intern_edge ([], [], []) edges in
  let adjacency := foldl push_edge (replicate (length ids) []) pairs in
  mkGraph ids ((fun targets => dedup (sort targets)) <$> adjacency).

Definition node_count (g : Graph A) : nat := length (node_ids g).
Definition is_empty (g : Graph A) : bool := bool_decide (node_ids g = []).
Definition nodes (g : Graph A) : list A := node_ids g.

(** [Graph::edges]: node order, then target order. *)
Definition edges (g : Graph A) : list (A * A) :=
  concat (imap (fun from targets =>
    omap (fun to => a ← node_ids g !! from; b ← node_ids g !! to; Some (a, b)) targets) (out_edges g)).

(** [Graph::position] and [Graph::contains_edge]. *)
Definition position (g : Graph A) (node : A) : option nat :=
  fst <$> list_find (fun candidate => candidate = node) (node_ids g).
Definition contains_edge (g : Graph A) (from to : A) : bool :=
  match position g from, position g to with
  | Some from, Some to => bool_decide (to ∈ default [] (out_edges g !! from))
  | _, _ => false
  end.

(** What every constructed graph satisfies. *)
Record graph_wf (g : Graph A) : Prop := {
  wf_length : length (out_edges g) = length (node_ids g);
  wf_nodup : NoDup (node_ids g);
  wf_targets : Forall (fun targets => StronglySorted lt targets /\
                         Forall (fun to => to < length (node_ids g)) targets) (out_edges g) }.

(** The edge relation on node indices and on node identities. *)
Definition index_edge (g : Graph A) (i j : nat) : Prop := exists ts, out_edges g !! i = Some ts /\ j ∈ ts.
Definition has_edge (g : Graph A) (a b : A) : Prop :=
  exists i j, node_ids g !! i = Some a /\ node_ids g !! j = Some b /\ index_edge g i j.

End graph.

(** ** PageRank *)

(** The [f64] operations [page_rank] uses; [partial_cmp] is [None] on a NaN. *)
Class FloatOps (F : Type) := {
  fzero : F;
  fone : F;
  fadd : F -> F -> F;
  fsub : F -> F -> F;
  fmul : F -> F -> F;
  fdiv : F -> F -> F;
  fof_usize : nat -> F;
  partial_cmp : F -> F -> option comparison }.

Record PageRankOptions (F : Type) := mkOptions { damping : F; iterations : nat }.
Arguments mkOptions {F}.
Arguments damping {F}.
Arguments iterations {F}.

Record RankedNode (A F : Type) := mkRanked { node : A; score : F }.
Arguments mkRanked {A F}.
Arguments node {A F}.
Arguments score {A F}.

Section page_rank.
Context {A F : Type} `{Ord A} `{FloatOps F}.

Definition fsum (l : list F) : F := foldl fadd fzero l.

(** [next[target] += share]. *)
Definition credit (share : F) (next : list F) (target : nat) : list F :=
  alter (fun x => fadd x share) target next.

Definition dangling_mass (adjacency : list (list nat)) (scores : list F) : F :=
  fsum (snd <$> filter (fun p => p.1 = []) (zip adjacency scores)).

(** One source of the inner loop: its share credited to each of its targets. *)
Definition spread_from (opts : PageRankOptions F) (next : list F) (source : list nat * F) : list F :=
  match source.1 with
  | [] => next
  | targets =>
      let share := fdiv (fmul (damping opts) source.2) (fof_usize (length targets)) in
      foldl (credit share) next targets
  end.

(** One power iteration. *)
Definition rank_round (opts : PageRankOptions F) (adjacency : list (list nat)) (scores : list F) : list F :=
  let population := fof_usize (length adjacency) in
  let floor := fadd (fdiv (fsub fone (damping opts)) population)
                    (fdiv (fmul (damping opts) (dangling_mass adjacency scores)) population) in
  foldl (spread_from opts) (replicate (length adjacency) floor) (zip adjacency scores).

Definition rank_scores (opts : PageRankOptions F) (adjacency : list (list nat)) : list F :=
  Nat.iter (iterations opts) (rank_round opts adjacency)
    (replicate (length adjacency) (fdiv fone (fof_usize (length adjacency)))).

(** [right.score.partial_cmp(&left.score).unwrap_or(Equal).then_with(|| left.node.cmp(&right.node))]. *)
Definition rank_cmp (left right : RankedNode A F) : comparison :=
  then_cmp (default Eq (partial_cmp (score right) (score left))) (cmp (node left) (node right)).

Definition page_rank (g : Graph A) (opts : PageRankOptions F) : list (RankedNode A F) :=
  if decide (node_ids g = []) then []
  else sort_by rank_cmp (zip_with mkRanked (node_ids g) (rank_scores opts (out_edges g))).

End page_rank.

(** Exact arithmetic, to state what the algorithm computes before rounding. *)
#[export] Instance exact_floats : FloatOps Qc := {|
  fzero := 0%Qc; fone := 1%Qc; fadd := Qcplus; fsub := Qcminus; fmul := Qcmult; fdiv := Qcdiv;
  fof_usize n := Q2Qc (inject_Z (Z.of_nat n));
  partial_cmp x y := Some (x ?= y)%Qc |}.

(** [PageRankOptions::default()]: damping 0.85 over 30 rounds. *)
Definition default_options : PageRankOptions Qc := mkOptions (Q2Qc (85 # 100)) 30.

(** ** Lemmas: the graph *)

Lemma dedup_sorted (l : list nat) :
  StronglySorted ord_le l ->
  StronglySorted lt (dedup l) /\ (forall x, x ∈ dedup l <-> x ∈ l).
Proof.
  induction l as [|x l IH]; simpl; intros Hl; [split; [constructor|tauto]|].
  apply StronglySorted_inv in Hl as [Hl Hx]. destruct (IH Hl) as [Hs Hin]. clear IH.
  destruct l as [|y l].
  { split; [repeat constructor|tauto]. }
  case_decide as E.
  - split; [done|]. intros z. rewrite Hin, !elem_of_cons. subst. tauto.
  - split; [|intros z; rewrite elem_of_cons, Hin, (elem_of_cons (y :: l)); tauto].
    constructor; [done|]. apply Forall_forall. intros z Hz%Hin.
    apply StronglySorted_inv in Hl as [_ Hy]. rewrite Forall_forall in Hx, Hy.
    assert (x <= y) by (apply Nat.compare_le_iff, (Hx y); left).
    apply elem_of_cons in Hz as [->|Hz]; [lia|].
    assert (y <= z) by (by apply Nat.compare_le_iff, (Hy z)). lia.
Qed.

Lemma dedup_sort_spec (l : list nat) :
  StronglySorted lt (dedup (sort l)) /\ (forall x, x ∈ dedup (sort l) <-> x ∈ l).
Proof.
  destruct (dedup_sorted (sort l)) as [Hs Hin]; [apply sort_sorted|].
  split; [done|]. intros x. by rewrite Hin, sort_perm.
Qed.

Section graph_lemmas.
Context {A : Type} `{OrdLaws A} `{!EqDecision A}.
Implicit Types (lookup : list (A * nat)) (ids : list A) (es : list (A * A)).

(** The interning table and the identity list describe each other. *)
Record intern_inv lookup ids : Prop := {
  inv_sorted : bt_sorted lookup;
  inv_nodup : NoDup ids;
  inv_table : forall a i, bt_get a lookup = Some i <-> ids !! i = Some a }.

Lemma intern_spec lookup ids a :
  intern_inv lookup ids ->
  let '(lookup', ids', i) := intern lookup ids a in
  intern_inv lookup' ids' /\ ids' !! i = Some a /\ ids `prefix_of` ids' /\
  (forall x, x ∈ ids' <-> x = a \/ x ∈ ids).
Proof.
  intros [Hs Hn Ht]. unfold intern. destruct (bt_get a lookup) as [i|] eqn:E.
  - apply Ht in E. split_and!; try done. intros x. split; [auto|]. intros [->|]; [|done].
    by eapply list_elem_of_lookup_2.
  - assert (a ∉ ids) as Ha.
    { intros [i Hi]%list_elem_of_lookup. apply Ht in Hi. by rewrite Hi in E. }
    split_and!; [|by apply list_lookup_middle|by exists [a]|].
    + split; [by apply bt_sorted_upsert|apply NoDup_app; split_and!; [done| |apply NoDup_singleton]; intros x Hx ->%list_elem_of_singleton; done|].
      intros b i. unfold bt_insert. destruct (decide (b = a)) as [->|Hne].
      * rewrite bt_get_upsert_eq by done. split.
        -- intros [= <-]. by apply list_lookup_middle.
        -- intros [Hi|[Hi Hi']]%lookup_snoc_Some.
           ++ destruct Hi as [_ Hi]. by apply Ht in Hi; rewrite Hi in E.
           ++ by subst.
      * rewrite bt_get_upsert_ne by done. rewrite Ht, lookup_snoc_Some. split; [|naive_solver].
        intros Hi. left. split; [by eapply lookup_lt_Some|done].
    + intros x. rewrite elem_of_app, list_elem_of_singleton. tauto.
Qed.

(** Endpoints of a list of edges. *)
Definition endpoint es (a : A) : Prop := exists e, e ∈ es /\ (a = e.1 \/ a = e.2).

Record edge_inv (st : list (A * nat) * list A * list (nat * nat)) es : Prop := {
  inv_intern : intern_inv st.1.1 st.1.2;
  inv_pairs : forall i j, (i, j) ∈ st.2 <->
     exists a b, (a, b) ∈ es /\ st.1.2 !! i = Some a /\ st.1.2 !! j = Some b;
  inv_ids : forall a, a ∈ st.1.2 <-> endpoint es a }.

Lemma intern_edge_inv st es e : edge_inv st es -> edge_inv (intern_edge st e) (es ++ [e]).
Proof.
  intros [Hi Hp Hids]. destruct st as [[lookup ids] pairs]. simpl in *.
  pose proof (intern_spec lookup ids e.1 Hi) as H1. destruct (intern lookup ids e.1) as [[l1 ids1] i1].
  destruct H1 as (Hi1 & Hl1 & Hpre1 & Hin1).
  pose proof (intern_spec l1 ids1 e.2 Hi1) as H2. destruct (intern l1 ids1 e.2) as [[l2 ids2] i2].
  destruct H2 as (Hi2 & Hl2 & Hpre2 & Hin2).
  assert (forall k x, ids !! k = Some x -> ids2 !! k = Some x) as Hmono.
  { intros k x Hk. eapply prefix_lookup_Some; [|done]. eapply prefix_lookup_Some; done. }
  assert (ids2 !! i1 = Some e.1) as Hl1' by (by eapply prefix_lookup_Some).
  destruct Hi2 as [Hs2 Hn2 Ht2].
  split; simpl; [done| |].
  - intros i j. rewrite elem_of_app, list_elem_of_singleton, Hp. split.
    + intros [(a & b & Hab & Ha & Hb)|[= -> ->]].
      * exists a, b. rewrite elem_of_app. auto.
      * exists e.1, e.2. rewrite elem_of_app, list_elem_of_singleton. by destruct e; auto.
    + intros (a & b & Hab & Ha & Hb). apply elem_of_app in Hab as [Hab|Hab].
      * left. exists a, b. split; [done|].
        assert (a ∈ ids /\ b ∈ ids) as [[k Hk]%list_elem_of_lookup [k' Hk']%list_elem_of_lookup].
        { split; apply Hids; exists (a, b); auto. }
        assert (i = k) as -> by eauto using NoDup_lookup.
        assert (j = k') as -> by eauto using NoDup_lookup. done.
      * apply list_elem_of_singleton in Hab as <-. right. simpl in *.
        f_equal; eapply NoDup_lookup; done.
  - intros a. rewrite Hin2, Hin1, Hids. unfold endpoint.
    setoid_rewrite elem_of_app. setoid_rewrite list_elem_of_singleton. naive_solver.
Qed.

Lemma intern_edges_inv es : edge_inv (foldl intern_edge ([], [], []) es) es.
Proof.
  induction es as [|e es IH] using rev_ind.
  - split; simpl.
    + split; simpl; [constructor|constructor|]. intros a i. split; [done|]. by rewrite lookup_nil.
    + intros i j. split; [by intros ?%elem_of_nil|]. by intros (a & b & ?%elem_of_nil & _).
    + intros a. split; [by intros ?%elem_of_nil|]. by intros (e & ?%elem_of_nil & _).
  - rewrite foldl_app. by apply intern_edge_inv.
Qed.

Lemma length_push_edges pairs adj : length (foldl push_edge adj pairs) = length adj.
Proof.
  revert adj. induction pairs as [|p pairs IH]; intros adj; simpl; [done|].
  rewrite IH. apply length_alter.
Qed.

Lemma elem_push_edges pairs adj i j :
  (forall i' j', (i', j') ∈ pairs -> i' < length adj) ->
  (exists ts, foldl push_edge adj pairs !! i = Some ts /\ j ∈ ts) <->
  (exists ts, adj !! i = Some ts /\ j ∈ ts) \/ (i, j) ∈ pairs.
Proof.
  revert adj. induction pairs as [|[i' j'] pairs IH]; intros adj Hb; simpl.
  { split; [auto|]. by intros [|?%elem_of_nil]. }
  rewrite IH.
  2: { intros. unfold push_edge. rewrite length_alter. eapply (Hb _ _). by right. }
  unfold push_edge; simpl. rewrite elem_of_cons.
  assert (i' < length adj) as Hi' by (apply (Hb i' j'); left).
  destruct (decide (i = i')) as [->|Hne].
  - rewrite list_lookup_alter_eq.
    destruct (lookup_lt_is_Some_2 adj i' Hi') as [ts Hts]. rewrite Hts. simpl. split.
    + intros [(ts' & [= <-] & Hj)|]; [|auto]. apply elem_of_app in Hj as [Hj|Hj%list_elem_of_singleton].
      * left. eauto.
      * subst. auto.
    + intros [(ts' & [= <-] & Hj)|[[= ->]|]]; [| |auto].
      * left. eexists. split; [done|]. apply elem_of_app. auto.
      * left. eexists. split; [done|]. apply elem_of_app. right. by apply list_elem_of_singleton.
  - rewrite list_lookup_alter_ne by done. naive_solver.
Qed.

Lemma elem_push_edges_nil n pairs i j :
  (forall i' j', (i', j') ∈ pairs -> i' < n) ->
  (exists ts, foldl push_edge (replicate n []) pairs !! i = Some ts /\ j ∈ ts) <-> (i, j) ∈ pairs.
Proof.
  intros Hb. rewrite elem_push_edges by (by rewrite length_replicate).
  split; [|auto]. by intros [(ts & [-> _]%lookup_replicate & ?%elem_of_nil)|].
Qed.

Lemma from_edges_spec es :
  graph_wf (from_edges es) /\
  (forall a, a ∈ nodes (from_edges es) <-> endpoint es a) /\
  (forall a b, has_edge (from_edges es) a b <-> (a, b) ∈ es).
Proof.
  unfold from_edges. pose proof (intern_edges_inv es) as [[Hs Hn Ht] Hp Hids].
  destruct (foldl intern_edge ([], [], []) es) as [[lookup ids] pairs]. simpl in *.
  assert (forall i j, (i, j) ∈ pairs -> i < length ids /\ j < length ids) as Hb.
  { intros i j (a & b & _ & Ha%lookup_lt_Some & Hb%lookup_lt_Some)%Hp. done. }
  assert (forall i j, (exists ts, foldl push_edge (replicate (length ids) []) pairs !! i = Some ts /\ j ∈ ts)
            <-> (i, j) ∈ pairs) as Hadj.
  { intros i j. apply elem_push_edges_nil. intros i' j' Hij. by apply (Hb i' j'). }
  split_and!.
  - split; simpl; [|done|].
    + by rewrite length_fmap, length_push_edges, length_replicate.
    + apply Forall_fmap, Forall_forall. intros ts Hts. simpl.
      destruct (dedup_sort_spec ts) as [Hsort Hin]. split; [done|].
      apply Forall_forall. intros j Hj%Hin. apply list_elem_of_lookup in Hts as [i Hi].
      apply (Hb i j), Hadj. eauto.
  - done.
  - intros a b. unfold has_edge, index_edge. simpl. split.
    + intros (i & j & Ha & Hb' & ts & Hts & Hj).
      rewrite list_lookup_fmap in Hts. apply fmap_Some in Hts as (ts' & Hts' & ->).
      apply (proj2 (dedup_sort_spec ts')) in Hj.
      assert ((i, j) ∈ pairs) as (a' & b' & Hin & Ha' & Hb'')%Hp by (apply Hadj; eauto).
      by simplify_eq.
    + intros Hin. assert (endpoint es a /\ endpoint es b) as [[i Ha]%Hids%list_elem_of_lookup [j Hb']%Hids%list_elem_of_lookup].
      { split; exists (a, b); auto. }
      assert ((i, j) ∈ pairs) as (ts & Hts & Hj)%Hadj by (apply Hp; eauto).
      exists i, j. split_and!; [done..|]. exists (dedup (sort ts)).
      rewrite list_lookup_fmap, Hts. split; [done|]. by apply (proj2 (dedup_sort_spec ts)).
Qed.

Lemma position_spec (g : Graph A) a i :
  graph_wf g -> position g a = Some i <-> node_ids g !! i = Some a.
Proof.
  intros [_ Hn _]. unfold position. split.
  - intros ((j & b) & Hf & [= <-])%fmap_Some. apply list_find_Some in Hf as (Hj & -> & _). done.
  - intros Hi. destruct (list_find (fun c => c = a) (node_ids g)) as [[j b]|] eqn:E.
    + apply list_find_Some in E as (Hj & -> & _). simpl. f_equal. by eapply NoDup_lookup.
    + apply list_find_None in E. rewrite Forall_forall in E. exfalso. eapply E; [|done].
      by eapply list_elem_of_lookup_2.
Qed.

Lemma contains_edge_spec (g : Graph A) a b :
  graph_wf g -> contains_edge g a b = true <-> has_edge g a b.
Proof.
  intros Hwf. unfold contains_edge, has_edge, index_edge. split.
  - destruct (position g a) as [i|] eqn:Ea; [|done]. destruct (position g b) as [j|] eqn:Eb; [|done].
    apply position_spec in Ea, Eb; [|done..]. intros Hin%bool_decide_eq_true.
    exists i, j. split_and!; [done..|]. destruct (out_edges g !! i) as [ts|]; simpl in Hin; [eauto|].
    by apply elem_of_nil in Hin.
  - intros (i & j & Ha & Hb & ts & Hts & Hj).
    rewrite (proj2 (position_spec g a i Hwf)), (proj2 (position_spec g b j Hwf)), Hts by done.
    by apply bool_decide_eq_true.
Qed.

Lemma edges_spec (g : Graph A) a b : (a, b) ∈ edges g <-> has_edge g a b.
Proof.
  unfold edges, has_edge, index_edge. rewrite elem_of_concat. split.
  - intros (l & Hl & Hab). apply elem_of_lookup_imap in Hl as (i & ts & -> & Hts).
    apply list_elem_of_omap in Hab as (j & Hj & E).
    destruct (node_ids g !! i) as [a'|] eqn:Ha; simpl in E; [|done].
    destruct (node_ids g !! j) as [b'|] eqn:Hb; simpl in E; [|done]. simplify_eq. eauto 10.
  - intros (i & j & Ha & Hb & ts & Hts & Hj). eexists. split.
    + apply elem_of_lookup_imap. exists i, ts. done.
    + apply list_elem_of_omap. exists j. split; [done|]. by rewrite Ha; simpl; rewrite Hb.
Qed.

End graph_lemmas.

(** ** Lemmas: PageRank in exact arithmetic *)

Section exact.
#[local] Open Scope Qc_scope.

Definition qsum (l : list Qc) : Qc := foldr Qcplus 0 l.
Definition qn (n : nat) : Qc := fof_usize n.

Lemma qn_S n : qn (S n) = qn n + 1.
Proof.
  unfold qn, Qcplus, fof_usize, exact_floats. apply Q2Qc_eq_iff. cbn [this Q2Qc].
  rewrite Qred_correct, Nat2Z.inj_succ. unfold Qeq, inject_Z. simpl. lia.
Qed.

Lemma qn_0 : qn 0 = 0.
Proof. apply Qc_is_canon. reflexivity. Qed.

Lemma qn_nonzero n : n <> 0%nat -> qn n <> 0.
Proof.
  intros Hn. unfold qn, fof_usize, exact_floats. intros E%Q2Qc_eq_iff.
  unfold Qeq, inject_Z in E. simpl in E. lia.
Qed.

Lemma qsum_app l k : qsum (l ++ k) = qsum l + qsum k.
Proof. induction l as [|x l IH]; simpl; [ring|]. unfold qsum in *. simpl. rewrite IH. ring. Qed.

Lemma qsum_perm l k : l ≡ₚ k -> qsum l = qsum k.
Proof. induction 1; unfold qsum in *; simpl; [done|by f_equal|ring|congruence]. Qed.

Lemma fsum_qsum l : fsum l = qsum l.
Proof.
  unfold fsum. assert (forall a, foldl fadd a l = a + qsum l) as G.
  { induction l as [|x l IH]; intros a; simpl; [ring|]. rewrite IH. unfold qsum. simpl. ring. }
  rewrite G. simpl. ring.
Qed.

Lemma qsum_replicate n x : qsum (replicate n x) = qn n * x.
Proof.
  induction n as [|n IH]; [unfold qn; simpl; apply Qc_is_canon; reflexivity|].
  change (qsum (replicate (S n) x)) with (x + qsum (replicate n x)). rewrite IH, qn_S. ring.
Qed.

Lemma qsum_credit share next t :
  (t < length next)%nat -> qsum (credit share next t) = qsum next + share.
Proof.
  unfold credit. revert t. induction next as [|x next IH]; intros [|t] Ht; simpl in Ht; try lia.
  - unfold qsum. simpl. ring.
  - change (qsum (x :: alter (fun y => fadd y share) t next) = qsum (x :: next) + share).
    unfold qsum in *. simpl. rewrite IH by lia. ring.
Qed.

Lemma length_credits share next ts : length (foldl (credit share) next ts) = length next.
Proof.
  revert next. induction ts as [|t ts IH]; intros next; simpl; [done|].
  rewrite IH. apply length_alter.
Qed.

Lemma qsum_credits share next ts :
  Forall (fun t => (t < length next)%nat) ts ->
  qsum (foldl (credit share) next ts) = qsum next + qn (length ts) * share.
Proof.
  revert next. induction ts as [|t ts IH]; intros next Hts; simpl.
  { rewrite qn_0. ring. }
  apply Forall_cons in Hts as [Ht Hts]. rewrite IH, qsum_credit, qn_S; [ring|done|].
  unfold credit. by rewrite length_alter.
Qed.

(** The rank a source passes on: all of it, damped, unless it is dangling. *)
Definition passed (opts : PageRankOptions Qc) (p : list nat * Qc) : Qc :=
  match p.1 with [] => 0 | _ => damping opts * p.2 end.
Definition held (p : list nat * Qc) : Qc := match p.1 with [] => p.2 | _ => 0 end.

Lemma spread_from_sum opts next p :
  Forall (fun t => (t < length next)%nat) p.1 ->
  length (spread_from opts next p) = length next /\
  qsum (spread_from opts next p) = qsum next + passed opts p.
Proof.
  intros Hts. unfold spread_from, passed. destruct p as [[|t ts] x]; simpl in *; [split; [done|ring]|].
  pose proof (length_credits (damping opts * x / qn (S (length ts))) next (t :: ts)) as Hl.
  pose proof (qsum_credits (damping opts * x / qn (S (length ts))) next (t :: ts) Hts) as Hs.
  simpl in Hl, Hs. split; [done|]. refine (eq_trans Hs _). f_equal. apply Qcmult_div_r, qn_nonzero. done.
Qed.

Lemma spread_all_sum opts ps next :
  Forall (fun p => Forall (fun t => (t < length next)%nat) p.1) ps ->
  length (foldl (spread_from opts) next ps) = length next /\
  qsum (foldl (spread_from opts) next ps) = qsum next + qsum (passed opts <$> ps).
Proof.
  revert next. induction ps as [|p ps IH]; intros next Hps; csimpl.
  { split; [done|]. unfold qsum. simpl. ring. }
  apply Forall_cons in Hps as [Hp Hps]. destruct (spread_from_sum opts next p Hp) as [Hl Hs].
  destruct (IH (spread_from opts next p)) as [Hl' Hs']; [by rewrite Hl|].
  rewrite Hl', Hs', Hs. split; [done|]. unfold qsum. simpl. ring.
Qed.

Lemma dangling_split opts ps :
  damping opts * qsum (snd <$> filter (fun p => p.1 = []) ps) + qsum (passed opts <$> ps)
  = damping opts * qsum ps.*2.
Proof.
  induction ps as [|[ts x] ps IH]; [unfold qsum; simpl; ring|].
  rewrite filter_cons, !fmap_cons. simpl fst. simpl snd.
  assert (forall y l, qsum (y :: l) = y + qsum l) as Hc by done.
  destruct ts as [|t ts]; [rewrite decide_True by done|rewrite decide_False by done];
    rewrite ?fmap_cons, !Hc; unfold passed at 1; simpl fst; simpl snd;
    rewrite !Qcmult_plus_distr_r, <- IH; ring.
Qed.

(** One power iteration conserves the total rank. *)
Lemma rank_round_sum opts adjacency scores :
  adjacency <> [] -> length scores = length adjacency ->
  Forall (Forall (fun t => (t < length adjacency)%nat)) adjacency ->
  qsum scores = 1 ->
  length (rank_round opts adjacency scores) = length adjacency /\
  qsum (rank_round opts adjacency scores) = 1.
Proof.
  intros Hne Hlen Hts Hsum. unfold rank_round, dangling_mass. rewrite fsum_qsum.
  set (n := length adjacency). set (ps := zip adjacency scores).
  set (dm := qsum (snd <$> filter (fun p => p.1 = []) ps)).
  set (floor := fadd _ _).
  destruct (spread_all_sum opts ps (replicate n floor)) as [Hl Hs].
  { apply Forall_forall. intros [ts x] Hin%elem_of_zip_l. rewrite length_replicate.
    by rewrite Forall_forall in Hts; apply Hts. }
  rewrite Hl, Hs, length_replicate, qsum_replicate. split; [done|].
  assert (qn n * floor = (1 - damping opts) + damping opts * dm) as ->.
  { subst floor. cbn [fadd fdiv fsub fmul fone exact_floats].
    change (Q2Qc (inject_Z (Z.of_nat (length adjacency)))) with (qn n).
    rewrite Qcmult_plus_distr_r, !Qcmult_div_r; [done|..];
      apply qn_nonzero; subst n; by destruct adjacency. }
  rewrite <- Qcplus_assoc. subst dm. rewrite dangling_split. subst ps.
  rewrite snd_zip by lia. rewrite Hsum. ring.
Qed.

Lemma rank_scores_sum opts adjacency :
  adjacency <> [] -> Forall (Forall (fun t => (t < length adjacency)%nat)) adjacency ->
  length (rank_scores opts adjacency) = length adjacency /\ qsum (rank_scores opts adjacency) = 1.
Proof.
  intros Hne Hts. unfold rank_scores. induction (iterations opts) as [|k IH]; simpl.
  - rewrite length_replicate, qsum_replicate. split; [done|].
    apply Qcmult_div_r, qn_nonzero. by destruct adjacency.
  - destruct IH. by apply rank_round_sum.
Qed.

End exact.

Lemma Qccompare_opp (x y : Qc) : (y ?= x)%Qc = CompOpp (x ?= y)%Qc.
Proof. unfold Qccompare. symmetry. apply Qcompare_antisym. Qed.

Definition score_desc {A} (left right : RankedNode A Qc) : comparison :=
  default Eq (partial_cmp (score right) (score left)).

Lemma score_desc_pre {A} : CmpPre (score_desc (A := A)).
Proof.
  split; unfold score_desc; cbn [partial_cmp exact_floats from_option id]; [intros; apply Qccompare_opp|].
  intros x y z. rewrite <- !Qcle_alt. intros. by eapply Qcle_trans.
Qed.

#[export] Instance rank_cmp_pre {A} `{OrdLaws A} : CmpPre (rank_cmp (A := A) (F := Qc)).
Proof.
  change (CmpPre (cmp_then (score_desc (A := A)) (cmp_on node))).
  exact (cmp_then_pre score_desc (cmp_on node) score_desc_pre (cmp_on_pre node)).
Qed.

Lemma fmap_zip_score {A} (ids : list A) (scores : list Qc) :
  length scores = length ids -> score <$> zip_with mkRanked ids scores = scores.
Proof. intros Hl. rewrite fmap_zip_with_r; [done|done|lia]. Qed.

Lemma fmap_zip_node {A} (ids : list A) (scores : list Qc) :
  length scores = length ids -> node <$> zip_with mkRanked ids scores = ids.
Proof. intros Hl. rewrite fmap_zip_with_l; [done|done|lia]. Qed.

Lemma page_rank_perm {A} `{Ord A} (g : Graph A) (opts : PageRankOptions Qc) :
  page_rank g opts ≡ₚ zip_with mkRanked (node_ids g) (rank_scores opts (out_edges g)).
Proof.
  unfold page_rank. case_decide as E; [by rewrite E|]. apply (sort_by_perm rank_cmp).
Qed.

Lemma rank_scores_wf {A} (g : Graph A) (opts : PageRankOptions Qc) :
  graph_wf g -> node_ids g <> [] ->
  length (rank_scores opts (out_edges g)) = length (node_ids g) /\
  qsum (rank_scores opts (out_edges g)) = 1%Qc.
Proof.
  intros [Hl _ Hts] Hne. rewrite <- Hl. apply rank_scores_sum.
  - intros E. rewrite E in Hl. by destruct (node_ids g).
  - eapply Forall_impl; [exact Hts|]. intros ts [_ Hb]. by rewrite Hl.
Qed.

(** ** Properties *)

(** [Graph::from_edges] followed by [contains_edge], [edges] and [nodes] gives back exactly
    the input's edge relation: parallel edges collapse, self-loops stay, every endpoint is a
    node once, and adjacency lists are strictly sorted and in range. *)
Theorem from_edges_roundtrip {A} `{OrdLaws A} `{!EqDecision A} (es : list (A * A)) :
  graph_wf (from_edges es) /\
  (forall a, a ∈ nodes (from_edges es) <-> exists e, e ∈ es /\ (a = e.1 \/ a = e.2)) /\
  (forall a b, contains_edge (from_edges es) a b = true <-> (a, b) ∈ es) /\
  (forall a b, (a, b) ∈ edges (from_edges es) <-> (a, b) ∈ es).
Proof.
  destruct (from_edges_spec es) as (Hwf & Hnodes & Hedges). split_and!; [done|done|..]; intros a b.
  - by rewrite contains_edge_spec.
  - by rewrite edges_spec.
Qed.

(** PageRank, in exact arithmetic, for every damping and every number of rounds: every node
    is ranked exactly once, the scores sum to exactly one (dangling rank is redistributed,
    never dropped), and the output is ordered by score descending, then node ascending. *)
Theorem page_rank_conserves_mass {A} `{OrdLaws A} `{!EqDecision A}
    (es : list (A * A)) (opts : PageRankOptions Qc) :
  es <> [] ->
  let ranked := page_rank (from_edges es) opts in
  node <$> ranked ≡ₚ nodes (from_edges es) /\
  fsum (score <$> ranked) = 1%Qc /\
  StronglySorted (fun l r => rank_cmp l r <> Gt) ranked.
Proof.
  intros Hes ranked. destruct (from_edges_spec es) as (Hwf & Hnodes & _).
  assert (node_ids (from_edges es) <> []) as Hne.
  { destruct es as [|e es']; [done|]. intros E. assert (e.1 ∈ nodes (from_edges (e :: es'))) as Hin.
    { apply Hnodes. exists e. split; [left|auto]. }
    unfold nodes in Hin. rewrite E in Hin. by apply elem_of_nil in Hin. }
  destruct (rank_scores_wf (from_edges es) opts Hwf Hne) as [Hl Hs]. subst ranked.
  rewrite fsum_qsum. split_and!.
  - rewrite page_rank_perm. by rewrite fmap_zip_node.
  - rewrite (qsum_perm _ (score <$> zip_with mkRanked (node_ids (from_edges es)) (rank_scores opts (out_edges (from_edges es)))))
      by (by rewrite page_rank_perm).
    by rewrite fmap_zip_score.
  - unfold page_rank. rewrite decide_False by done. apply (sort_by_sorted rank_cmp).
Qed.

(** ** Witnesses *)

Definition diamond : list (nat * nat) := [(0, 1); (0, 2); (1, 3); (2, 3); (0, 1)].

Lemma page_rank_conserves_mass_witness :
  diamond <> [] /\ fsum (score <$> page_rank (from_edges diamond) default_options) = 1%Qc.
Proof. split; [done|]. apply (page_rank_conserves_mass diamond default_options). done. Defined.

Lemma from_edges_roundtrip_witness : contains_edge (from_edges diamond) 1 3 = true /\ (0, 2) ∈ edges (from_edges diamond).
Proof.
  destruct (from_edges_roundtrip diamond) as (_ & _ & Hc & He).
  split; [apply Hc|apply He]; unfold diamond; rewrite !elem_of_cons; auto 8.
Defined.
