(* ===== verification/Scc.v ===== *)
(** * Scc: strongly connected components and cycles

    Models [crates/ktsense-core/src/scc.rs]: Tarjan's algorithm with an explicit call
    stack. Every slice index and every [expect] of the source is an option; stacks keep
    their top at the head of the list. *)
From stdpp Require Import relations.
From S2P Require Import Prelude Collections Graph.

Set Default Proof Using "Type*".

(** [const UNVISITED: usize = usize::MAX]. *)
Definition UNVISITED : N := usize_max.

Record Tarjan (A : Type) := mkTarjan {
  t_nodes : list A;
  adjacency : list (list nat);
  discovery : list N;
  lowlink : list N;
  on_stack : list bool;
  component_stack : list nat;
  next_index : N;
  components : list (list A) }.
Arguments mkTarjan {A}.
Arguments t_nodes {A}.
Arguments adjacency {A}.
Arguments discovery {A}.
Arguments lowlink {A}.
Arguments on_stack {A}.
Arguments component_stack {A}.
Arguments next_index {A}.
Arguments components {A}.

Section tarjan.
Context {A : Type} `{Ord A} `{!EqDecision A}.

(** [adjacency[index_of[from]].push(index_of[to])] for every edge. *)
Fixpoint index_edges (index_of : list (A * nat)) (es : list (A * A)) (adj : list (list nat))
    : option (list (list nat)) :=
  match es with
  | [] => Some adj
  | (from, to) :: es' =>
      i ← bt_get from index_of; j ← bt_get to index_of;
      index_edges index_of es' (push_edge adj (i, j))
  end.

(** [Tarjan::new]. *)
Definition tarjan_new (g : Graph A) : option (Tarjan A) :=
  let ns := nodes g in
  let index_of := bt_of_list (imap (fun index n => (n, index)) ns) in
  adj ← index_edges index_of (edges g) (replicate (length ns) []);
  let count := length ns in
  Some (mkTarjan ns ((fun targets => dedup (sort targets)) <$> adj)
          (replicate count UNVISITED) (replicate count 0%N) (replicate count false) [] 0%N []).

(** [enter]: number the node, push it, mark it. *)
Definition enter (t : Tarjan A) (node : nat) : option (Tarjan A) :=
  d ← set_index (discovery t) node (next_index t);
  l ← set_index (lowlink t) node (next_index t);
  o ← set_index (on_stack t) node true;
  Some (mkTarjan (t_nodes t) (adjacency t) d l o (node :: component_stack t)
          (next_index t + 1)%N (components t)).

(** The [loop] of [close_component]: pop down to and including [root]. *)
Fixpoint pop_component (ns : list A) (root : nat) (stack : list nat) (o : list bool) (component : list A)
    : option (list nat * list bool * list A) :=
  match stack with
  | [] => None
  | node :: stack' =>
      o' ← set_index o node false;
      a ← ns !! node;
      if decide (node = root) then Some (stack', o', component ++ [a])
      else pop_component ns root stack' o' (component ++ [a])
  end.

Definition close_component (t : Tarjan A) (root : nat) : option (Tarjan A) :=
  '(stack, o, component) ← pop_component (t_nodes t) root (component_stack t) (on_stack t) [];
  Some (mkTarjan (t_nodes t) (adjacency t) (discovery t) (lowlink t) o stack (next_index t)
          (components t ++ [component])).

Definition with_lowlink (t : Tarjan A) (l : list N) : Tarjan A :=
  mkTarjan (t_nodes t) (adjacency t) (discovery t) l (on_stack t) (component_stack t)
    (next_index t) (components t).

(** [self.lowlink[node] = self.lowlink[node].min(value)]. *)
Definition lower (t : Tarjan A) (node : nat) (value : N) : option (Tarjan A) :=
  ln ← lowlink t !! node;
  l ← set_index (lowlink t) node (N.min ln value);
  Some (with_lowlink t l).

(** One turn of [walk]'s [while let Some(..) = call_stack.last()]. *)
Definition walk_step (t : Tarjan A) (node next_child : nat) (frames : list (nat * nat))
    : option (Tarjan A * list (nat * nat)) :=
  targets ← adjacency t !! node;
  match targets !! next_child with
  | Some child =>
      let frames' := (node, S next_child) :: frames in
      dc ← discovery t !! child;
      if (dc =? UNVISITED)%N then
        t' ← enter t child; Some (t', (child, 0) :: frames')
      else
        os ← on_stack t !! child;
        if os : bool then t' ← lower t node dc; Some (t', frames') else Some (t, frames')
  | None =>
      ln ← lowlink t !! node;
      dn ← discovery t !! node;
      t' ← (if (ln =? dn)%N then close_component t node else Some t);
      match frames with
      | [] => Some (t', [])
      | (parent, _) :: _ =>
          ln' ← lowlink t' !! node;
          t'' ← lower t' parent ln'; Some (t'', frames)
      end
  end.

Fixpoint walk_loop (fuel : nat) (t : Tarjan A) (frames : list (nat * nat)) : option (Tarjan A) :=
  match frames with
  | [] => Some t
  | (node, next_child) :: frames' =>
      match fuel with
      | O => None
      | S fuel' => '(t', frames'') ← walk_step t node next_child frames'; walk_loop fuel' t' frames''
      end
  end.

(** Turns enough for any walk: one per edge and one per node. *)
Definition walk_fuel (t : Tarjan A) : nat := sum_list ((fun ts => S (length ts)) <$> adjacency t).

Definition walk (t : Tarjan A) (start : nat) : option (Tarjan A) :=
  t' ← enter t start; walk_loop (walk_fuel t') t' [(start, 0)].

(** The [for start in 0..n] loop of [run]. *)
Fixpoint run_from (starts : list nat) (t : Tarjan A) : option (Tarjan A) :=
  match starts with
  | [] => Some t
  | start :: starts' =>
      d ← discovery t !! start;
      t' ← (if (d =? UNVISITED)%N then walk t start else Some t);
      run_from starts' t'
  end.

Definition run (t : Tarjan A) : option (list (list A)) :=
  t' ← run_from (seq 0 (length (t_nodes t))) t;
  Some (sort (sort <$> components t')).

Definition strongly_connected_components (g : Graph A) : option (list (list A)) :=
  t ← tarjan_new g; run t.

(** [cycles]: components of two or more nodes, and single nodes with a self-loop. *)
Definition is_cycle (g : Graph A) (component : list A) : bool :=
  match component with
  | [only] => contains_edge g only only
  | _ => true
  end.
Definition cycles (g : Graph A) : option (list (list A)) :=
  components ← strongly_connected_components g;
  Some (filter (fun c => is_cycle g c = true) components).

End tarjan.

Definition five_edges : list (nat * nat) := [(0, 1); (1, 2); (2, 0); (2, 3); (3, 4); (4, 4)].
Definition five : Graph nat := from_edges five_edges.
Example five_components : strongly_connected_components five = Some [[0; 1; 2]; [3]; [4]].
Proof. vm_compute. reflexivity. Qed.
Example five_cycles : cycles five = Some [[0; 1; 2]; [4]].
Proof. vm_compute. reflexivity. Qed.

(** ** The abstract walk

    The invariant is stated on what the arrays mean: [ord] lists the visited nodes in
    discovery order (so [pos ord v] is the discovery number), [st] is the component stack,
    [lw] the low links, [frames] the call stack and [comps] the closed components. *)

Fixpoint pos (ord : list nat) (v : nat) : nat :=
  match ord with
  | [] => 0
  | u :: ord' => if decide (u = v) then 0 else S (pos ord' v)
  end.

Lemma pos_app ord l v : v ∈ ord -> pos (ord ++ l) v = pos ord v.
Proof.
  induction ord as [|u ord IH]; simpl; [by intros ?%elem_of_nil|].
  rewrite elem_of_cons. case_decide; [done|]. intros [->|]; [done|]. by rewrite IH.
Qed.

Lemma pos_new ord c : c ∉ ord -> pos (ord ++ [c]) c = length ord.
Proof.
  induction ord as [|u ord IH]; simpl; [by rewrite decide_True|].
  rewrite not_elem_of_cons. intros [Hne Hc]. rewrite decide_False by done. by rewrite IH.
Qed.

Lemma pos_lt ord v : v ∈ ord -> pos ord v < length ord.
Proof.
  induction ord as [|u ord IH]; simpl; [by intros ?%elem_of_nil|].
  rewrite elem_of_cons. case_decide; [lia|]. intros [->|Hv]; [done|]. apply IH in Hv. lia.
Qed.

Lemma pos_lookup ord v : v ∈ ord -> ord !! pos ord v = Some v.
Proof.
  induction ord as [|u ord IH]; simpl; [by intros ?%elem_of_nil|].
  rewrite elem_of_cons. case_decide; [naive_solver|]. intros [->|Hv]; [done|]. by apply IH.
Qed.


Section abstract.
Context (adj : list (list nat)).
Hypothesis adj_bounded : Forall (Forall (fun t => (t < length adj)%nat)) adj.

Definition succ_of (v : nat) : list nat := default [] (adj !! v).
Definition Edge (u z : nat) : Prop := z ∈ succ_of u.
Definition Reach : nat -> nat -> Prop := rtc Edge.

(** The edges already followed: those before a frame's position, all of a finished node's. *)
Definition done_edge (frames : list (nat * nat)) (u z : nat) : Prop :=
  (exists i j, (u, i) ∈ frames /\ j < i /\ succ_of u !! j = Some z)
  \/ ((u ∉ frames.*1) /\ Edge u z).

(** A component: exactly the nodes mutually reachable with each of its members. *)
Definition is_scc (c : list nat) : Prop :=
  c <> [] /\ forall u, u ∈ c -> forall w, w ∈ c <-> Reach u w /\ Reach w u.

(** A frame's low link is realised by a stack node it reaches, and bounds every followed edge
    out of the part of the stack between it and the frames [above] it. *)
Definition low_ok (ord st : list nat) (lw : nat -> nat) (frames : list (nat * nat))
    (above : list (nat * nat)) (v : nat) : Prop :=
  lw v <= pos ord v /\
  (exists y, y ∈ st /\ pos ord y = lw v /\ Reach v y) /\
  (forall u z, u ∈ st -> z ∈ st -> pos ord v <= pos ord u ->
     (forall h, h ∈ above.*1 -> pos ord u < pos ord h) -> done_edge frames u z -> lw v <= pos ord z).

Record walk_inv (ord st : list nat) (lw : nat -> nat) (frames : list (nat * nat))
    (comps : list (list nat)) : Prop := {
  I_nodup : NoDup ord;
  I_bound : forall v, v ∈ ord -> v < length adj;
  I_stack : forall v, v ∈ st -> v ∈ ord;
  I_decr : StronglySorted (fun a b => pos ord b < pos ord a) st;
  I_fdecr : StronglySorted (fun a b => pos ord b < pos ord a) frames.*1;
  I_frames : forall v, v ∈ frames.*1 -> v ∈ st;
  I_closed : forall w z, w ∈ ord -> w ∉ st -> Edge w z -> z ∈ ord /\ z ∉ st;
  I_order : forall x y, x ∈ st -> y ∈ st -> pos ord x <= pos ord y -> Reach x y;
  I_gray : forall y, y ∈ st -> exists x, x ∈ frames.*1 /\ pos ord x <= pos ord y /\ Reach y x;
  I_done : forall u z, u ∈ st -> done_edge frames u z -> z ∈ ord;
  I_low : forall above v i below, frames = above ++ (v, i) :: below -> low_ok ord st lw frames above v;
  I_comps : Forall is_scc comps;
  I_comps_in : forall v, v ∈ concat comps <-> v ∈ ord /\ v ∉ st;
  I_comps_nodup : NoDup (concat comps) }.

Lemma Edge_bound u z : Edge u z -> z < length adj.
Proof.
  unfold Edge, succ_of. destruct (adj !! u) as [ts|] eqn:E; simpl; [|by intros ?%elem_of_nil].
  intros Hz. rewrite Forall_forall in adj_bounded.
  apply list_elem_of_lookup_2 in E. apply adj_bounded in E. rewrite Forall_forall in E. auto.
Qed.

Lemma done_edge_Edge frames u z : done_edge frames u z -> Edge u z.
Proof. intros [(i & j & _ & _ & Hj)|[_ ?]]; [|done]. by eapply list_elem_of_lookup_2. Qed.

Lemma done_edge_advance v i fs u z :
  done_edge ((v, S i) :: fs) u z -> done_edge ((v, i) :: fs) u z \/ (u = v /\ succ_of v !! i = Some z).
Proof.
  intros [(i' & j & Hin & Hj & Hz)|[Hnin HE]]; [|left; right; done].
  apply elem_of_cons in Hin as [[= -> ->]|Hin].
  - destruct (decide (j = i)) as [->|]; [by right|]. left. left. exists i, j.
    split_and!; [left|lia|done].
  - left. left. exists i', j. split_and!; [by right|done..].
Qed.

Lemma done_edge_push c fr u z :
  c ∉ fr.*1 -> done_edge ((c, 0) :: fr) u z -> u <> c /\ done_edge fr u z.
Proof.
  intros Hc [(i & j & Hin & Hj & Hz)|[Hnin HE]].
  - apply elem_of_cons in Hin as [[= -> ->]|Hin]; [lia|]. split.
    + intros ->. apply Hc, list_elem_of_fmap. by exists (c, i).
    + left. eauto 10.
  - rewrite fmap_cons, not_elem_of_cons in Hnin. destruct Hnin. split; [done|]. by right.
Qed.

Lemma done_edge_pop v i fs u z :
  v ∉ fs.*1 -> succ_of v !! i = None -> done_edge fs u z -> done_edge ((v, i) :: fs) u z.
Proof.
  intros Hv Hi Hd. destruct (decide (u = v)) as [->|Hne].
  - apply done_edge_Edge in Hd as [j Hj]%list_elem_of_lookup. left. exists i, j.
    split_and!; [left| |done]. apply lookup_ge_None in Hi. apply lookup_lt_Some in Hj. lia.
  - destruct Hd as [(i' & j & Hin & Hj & Hz)|[Hnin HE]].
    + left. exists i', j. split_and!; [by right|done..].
    + right. split; [|done]. simpl. by rewrite not_elem_of_cons.
Qed.

(** *** The moves of the walk *)

Section moves.
Context (ord st : list nat) (lw : nat -> nat) (comps : list (list nat)).

Lemma top_frame_max v i fs :
  walk_inv ord st lw ((v, i) :: fs) comps -> forall x, x ∈ ((v, i) :: fs).*1 -> pos ord x <= pos ord v.
Proof.
  intros Hi x Hx. pose proof (I_fdecr _ _ _ _ _ Hi) as Hs. csimpl in *.
  apply StronglySorted_inv in Hs as [_ Hs]. rewrite Forall_forall in Hs.
  apply elem_of_cons in Hx as [->|Hx]; [done|]. apply Hs in Hx. lia.
Qed.

Lemma frame_fresh v i fs : walk_inv ord st lw ((v, i) :: fs) comps -> v ∉ fs.*1.
Proof.
  intros Hi Hx. pose proof (I_fdecr _ _ _ _ _ Hi) as Hs. csimpl in *.
  apply StronglySorted_inv in Hs as [_ Hs]. rewrite Forall_forall in Hs. apply Hs in Hx. lia.
Qed.

(** Every stack node reaches the node on top of the call stack. *)
Lemma reach_top v i fs x :
  walk_inv ord st lw ((v, i) :: fs) comps -> x ∈ st -> Reach x v.
Proof.
  intros Hi Hx. destruct (I_gray _ _ _ _ _ Hi x Hx) as (g & Hg & _ & Hr).
  transitivity g; [done|]. apply (I_order _ _ _ _ _ Hi).
  - by apply (I_frames _ _ _ _ _ Hi).
  - apply (I_frames _ _ _ _ _ Hi). left.
  - by apply (top_frame_max v i fs).
Qed.

End moves.

(** The end of a walk leaves the component stack empty. *)
Lemma walk_inv_done ord st lw comps : walk_inv ord st lw [] comps -> st = [].
Proof.
  intros Hi. destruct st as [|y st]; [done|].
  destruct (I_gray _ _ _ _ _ Hi y ltac:(left)) as (x & Hx & _). by apply elem_of_nil in Hx.
Qed.

Lemma walk_inv_init lw : walk_inv [] [] lw [] [].
Proof.
  split; simpl; try (by constructor); try (by intros ? ?%elem_of_nil); try (by intros ? ? ?%elem_of_nil).
  - by intros [] ? ? ?.
  - intros v. split; [by intros ?%elem_of_nil|]. by intros [?%elem_of_nil _].
Qed.

Definition upd (lw : nat -> nat) (v x : nat) : nat -> nat := fun u => if decide (u = v) then x else lw u.

Lemma upd_eq lw v x : upd lw v x v = x.
Proof. unfold upd. by rewrite decide_True. Qed.
Lemma upd_ne lw v x u : u <> v -> upd lw v x u = lw u.
Proof. intros. unfold upd. by rewrite decide_False. Qed.

Lemma frames_split (fr0 fr1 : list (nat * nat)) above v i below :
  fr1.*1 = fr0.*1 -> fr1 = above ++ (v, i) :: below ->
  exists above' i' below', fr0 = above' ++ (v, i') :: below' /\ above'.*1 = above.*1.
Proof.
  revert fr0 fr1. induction above as [|[w k] above IH]; intros [|[w' k'] fr0] fr1 E ->; simplify_eq/=.
  - by exists [], k', fr0.
  - destruct (IH fr0 _ ltac:(eassumption) eq_refl) as (above' & i' & below' & -> & Ea).
    exists ((w', k') :: above'), i', below'. csimpl. by rewrite Ea.
Qed.

(** Entering an unvisited node [c]: [fr0] are the frames before, [fr1] the same frames with the
    caller's position advanced over the edge to [c]. *)
Lemma inv_enter ord st lw fr0 fr1 comps c :
  walk_inv ord st lw fr0 comps -> c ∉ ord -> c < length adj ->
  fr1.*1 = fr0.*1 -> (forall x, x ∈ st -> Reach x c) ->
  (forall u z, done_edge fr1 u z -> done_edge fr0 u z \/ z = c) ->
  walk_inv (ord ++ [c]) (c :: st) (upd lw c (length ord)) ((c, 0) :: fr1) comps.
Proof.
  intros Hi Hc Hb Efr Hreach Hdone. destruct Hi.
  assert (forall v, v ∈ st -> v <> c) as Hstc by (intros v Hv ->; auto).
  assert (forall v, v ∈ ord -> pos (ord ++ [c]) v = pos ord v) as Hpos by (intros; by apply pos_app).
  assert (pos (ord ++ [c]) c = length ord) as Hposc by by apply pos_new.
  assert (c ∉ fr1.*1) as Hcf by (rewrite Efr; auto).
  assert (forall v, v ∈ st -> pos (ord ++ [c]) v < length ord) as Hlt
    by (intros; rewrite Hpos by auto; apply pos_lt; auto).
  split.
  - apply NoDup_app. split_and!; [done| |apply NoDup_singleton].
    by intros x Hx ->%list_elem_of_singleton.
  - intros v [Hv| ->%list_elem_of_singleton]%elem_of_app; auto.
  - intros v. rewrite elem_of_cons, elem_of_app, list_elem_of_singleton. naive_solver.
  - constructor.
    + clear -I_decr0 I_stack0 Hpos. induction I_decr0 as [|x st Hs IH Hx]; constructor.
      * apply IH. intros. apply I_stack0. by right.
      * rewrite Forall_forall in *. intros y Hy. rewrite !Hpos by (apply I_stack0; first [left | by right]; done). auto.
    + rewrite Hposc. by apply Forall_forall.
  - csimpl. rewrite Efr. constructor.
    + clear -I_fdecr0 I_frames0 I_stack0 Hpos. induction I_fdecr0 as [|x l Hs IH Hx]; constructor.
      * apply IH. intros. apply I_frames0. by right.
      * rewrite Forall_forall in *. intros y Hy.
        rewrite !Hpos by (apply I_stack0, I_frames0; first [by right | left]). auto.
    + rewrite Hposc. apply Forall_forall. auto.
  - intros v. csimpl. rewrite !elem_of_cons, Efr. naive_solver.
  - intros w z. rewrite elem_of_app, !not_elem_of_cons, list_elem_of_singleton. intros Hw0 [Hwc Hws] HE.
    assert (w ∈ ord) as Hw by (by destruct Hw0).
    destruct (I_closed0 w z Hw Hws HE) as [Hz Hzs]. split; [by apply elem_of_app; left|].
    split; [|done]. by intros ->.
  - intros x y [->|Hx]%elem_of_cons [->|Hy]%elem_of_cons Hle.
    + done.
    + specialize (Hlt y Hy). lia.
    + auto.
    + apply I_order0; [done..|]. by rewrite !Hpos in Hle by auto.
  - intros y [->|Hy]%elem_of_cons.
    + exists c. split_and!; [left|done|done].
    + destruct (I_gray0 y Hy) as (x & Hx & Hxy & Hr). exists x.
      split_and!; [rewrite fmap_cons, Efr; by right| |done]. by rewrite !Hpos by auto.
  - intros u z Hu [Huc Hd]%done_edge_push; [|done].
    apply elem_of_cons in Hu as [->|Hu]; [done|]. apply elem_of_app.
    destruct (Hdone u z Hd) as [Hd'| ->]; [left; eauto|right; by apply list_elem_of_singleton].
  - intros above v i below E. destruct above as [|[w k] above]; simplify_eq/=.
    + split_and!.
      * rewrite upd_eq. lia.
      * exists v. rewrite upd_eq. split_and!; [left|done|done].
      * intros u z Hu _ Hle _ [Huc _]%done_edge_push; [|done].
        apply elem_of_cons in Hu as [->|Hu]; [done|]. specialize (Hlt u Hu). lia.
    + destruct (frames_split fr0 _ above v i below ltac:(by symmetry) eq_refl) as (above' & i' & below' & Efr0 & Ea).
      destruct (I_low0 above' v i' below' Efr0) as (Hl1 & (y & Hy & Hpy & Hry) & Hl3).
      assert (v ∈ st) as Hv.
      { apply I_frames0. rewrite Efr0, fmap_app. apply elem_of_app. right. left. }
      unfold low_ok. rewrite upd_ne by auto. split_and!.
      * rewrite Hpos by auto. lia.
      * exists y. rewrite Hpos by auto. split_and!; [by right|done..].
      * intros u z Hu Hz Hle Hab [Huc Hd]%done_edge_push; [|done].
        apply elem_of_cons in Hu as [->|Hu]; [done|].
        rewrite (Hpos v), (Hpos u) in Hle by auto.
        destruct (Hdone u z Hd) as [Hd'| ->].
        -- assert (z ∈ ord) as Hzo by eauto. apply elem_of_cons in Hz as [->|Hz]; [done|].
           rewrite Hpos by auto. apply (Hl3 u z); auto.
           intros h Hh. specialize (Hab h). rewrite !Hpos in Hab; auto.
           { apply Hab. rewrite fmap_cons, <- Ea. by right. }
           apply I_stack0, I_frames0. rewrite Efr0, fmap_app. apply elem_of_app. auto.
        -- rewrite Hposc. pose proof (pos_lt ord v (I_stack0 v Hv)). lia.
  - done.
  - intros v. rewrite I_comps_in0, elem_of_app, not_elem_of_cons, list_elem_of_singleton. naive_solver.
  - done.
Qed.

Lemma walk_inv_ext ord st lw lw' frames comps :
  walk_inv ord st lw frames comps -> (forall v, lw' v = lw v) -> walk_inv ord st lw' frames comps.
Proof.
  intros Hi E. destruct Hi. split; try done.
  intros above v i below Efr. unfold low_ok. rewrite E. by apply (I_low0 above v i below).
Qed.

(** Following an edge to a node already visited. *)
Lemma inv_advance ord st lw lw' v i fs comps c :
  walk_inv ord st lw ((v, i) :: fs) comps -> succ_of v !! i = Some c -> c ∈ ord ->
  (forall u, u <> v -> lw' u = lw u) ->
  (c ∈ st -> lw' v = min (lw v) (pos ord c)) -> (c ∉ st -> lw' v = lw v) ->
  walk_inv ord st lw' ((v, S i) :: fs) comps.
Proof.
  intros Hi Hc Hco Hne Hon Hoff. pose proof (top_frame_max _ _ _ _ _ _ _ Hi) as Htop.
  pose proof (frame_fresh _ _ _ _ _ _ _ Hi) as Hfresh. destruct Hi.
  assert (Edge v c) as HE by by eapply list_elem_of_lookup_2.
  assert (lw' v <= lw v) as Hle.
  { destruct (decide (c ∈ st)) as [Hin|Hin]; [rewrite Hon by done; lia|by rewrite Hoff]. }
  split; try done.
  - intros u z Hu [Hd|[-> Hz]]%done_edge_advance; [eauto|]. by simplify_eq.
  - intros above w k below E. destruct above as [|[w' k'] above]; simplify_eq/=.
    + destruct (I_low0 [] w i below eq_refl) as (H1 & (y & Hy & Hpy & Hry) & H3). split_and!.
      * lia.
      * destruct (decide (c ∈ st)) as [Hin|Hin].
        -- rewrite Hon by done. destruct (Nat.min_spec (lw w) (pos ord c)) as [[_ ->]|[_ ->]].
           ++ by exists y.
           ++ exists c. split_and!; [done|done|]. by apply rtc_once.
        -- rewrite Hoff by done. by exists y.
      * intros u z Hu Hz Hp Hab [Hd|[-> Hcz]]%done_edge_advance.
        -- specialize (H3 u z Hu Hz Hp Hab Hd). lia.
        -- simplify_eq. rewrite Hon by done. lia.
    + destruct (I_low0 ((w', i) :: above) w k below eq_refl) as (H1 & H2 & H3).
      assert (w <> w') as Hw.
      { intros ->. apply Hfresh. rewrite fmap_app. apply elem_of_app. right. left. }
      unfold low_ok. rewrite Hne by done. split_and!; [done|done|].
      intros u z Hu Hz Hp Hab [Hd|[-> Hcz]]%done_edge_advance; [by apply (H3 u z)|].
      specialize (Hab w' ltac:(left)). lia.
Qed.

(** A finished node that is not a root hands its low link to its caller. *)
Lemma inv_pop ord st lw v i fs comps :
  walk_inv ord st lw ((v, i) :: fs) comps -> succ_of v !! i = None -> lw v < pos ord v ->
  exists p k fs', fs = (p, k) :: fs' /\ walk_inv ord st (upd lw p (min (lw p) (lw v))) fs comps.
Proof.
  intros Hi Hc Hlt. pose proof (frame_fresh _ _ _ _ _ _ _ Hi) as Hfresh. destruct Hi.
  destruct (I_low0 [] v i fs eq_refl) as (_ & (y & Hy & Hpy & Hry) & Hv3).
  assert (forall x, Reach x v -> exists g, g ∈ fs.*1 /\ pos ord g < pos ord v /\ Reach x g) as Hgray.
  { intros x Hx. destruct (I_gray0 y Hy) as (g & Hg & Hle & Hr). exists g.
    apply elem_of_cons in Hg as [->|Hg]; [simpl in *; lia|]. split_and!; [done|lia|].
    transitivity v; [done|]. by transitivity y. }
  destruct fs as [|[p k] fs'].
  { destruct (Hgray v ltac:(reflexivity)) as (g & ?%elem_of_nil & _). done. }
  csimpl in I_fdecr0. apply StronglySorted_inv in I_fdecr0 as [Hfs Hfv].
  assert (forall h, h ∈ ((p, k) :: fs').*1 -> pos ord h < pos ord v) as Hbelow
    by (intros h Hh; rewrite Forall_forall in Hfv; by apply Hfv).
  assert (pos ord p < pos ord v) as Hpv by (apply Hbelow; left).
  exists p, k, fs'. split; [done|]. split; try done.
  - intros x Hx. apply I_frames0. by right.
  - intros x Hx. destruct (I_gray0 x Hx) as (g & Hg & Hle & Hr).
    apply elem_of_cons in Hg as [->|Hg]; [|by exists g].
    csimpl in Hle. destruct (Hgray x Hr) as (g & Hg & Hgv & Hr'). exists g. split_and!; [done|csimpl in *; lia|done].
  - intros u z Hu Hd%(done_edge_pop v i); eauto.
  - intros above w k' below E. destruct above as [|[w' k''] above]; simplify_eq/=.
    + destruct (I_low0 [(v, i)] w k' below eq_refl) as (H1 & (y' & Hy' & Hpy' & Hry') & H3).
      unfold low_ok. rewrite upd_eq. split_and!.
      * lia.
      * destruct (Nat.min_spec (lw w) (lw v)) as [[_ ->]|[_ ->]]; [by exists y'|].
        exists y. split_and!; [done|done|]. transitivity v; [|done].
        apply I_order0; [apply I_frames0; right; left|apply I_frames0; left|lia].
      * intros u z Hu Hz Hp Hab Hd%(done_edge_pop v i); [|done..].
        destruct (decide (pos ord v <= pos ord u)) as [Huv|Huv].
        -- assert (lw v <= pos ord z); [|lia]. apply (Hv3 u z); try done.
        -- assert (lw w <= pos ord z); [|lia]. apply (H3 u z); try done.
           intros h ->%list_elem_of_singleton. simpl in *. lia.
    + destruct (I_low0 ((v, i) :: (w', k'') :: above) w k' below eq_refl) as (H1 & H2 & H3).
      apply StronglySorted_inv in Hfs as [_ Hfs]. rewrite Forall_forall in Hfs.
      assert (w <> w') as Hw.
      { intros ->. specialize (Hfs w'). rewrite fmap_app in Hfs.
        specialize (Hfs ltac:(apply elem_of_app; right; left)). lia. }
      unfold low_ok. rewrite upd_ne by done. split_and!; [done|done|].
      intros u z Hu Hz Hp Hab Hd%(done_edge_pop v i); [|done..]. apply (H3 u z); try done.
      intros h [->|Hh]%elem_of_cons; [|auto]. specialize (Hab w' ltac:(left)). csimpl in *. lia.
Qed.

(** Splitting the component stack at a member. *)
Lemma stack_split ord seg v rest :
  StronglySorted (fun a b => pos ord b < pos ord a) (seg ++ v :: rest) ->
  (forall y, y ∈ seg ++ [v] <-> y ∈ seg ++ v :: rest /\ pos ord v <= pos ord y) /\
  (forall y, y ∈ rest <-> y ∈ seg ++ v :: rest /\ pos ord y < pos ord v).
Proof.
  intros (Hseg & _ & [_ Hrest]%StronglySorted_inv)%StronglySorted_app.
  assert (forall y, y ∈ seg -> pos ord v < pos ord y) as Hs by (intros y Hy; apply Hseg; [done|left]).
  rewrite Forall_forall in Hrest. clear Hseg.
  split; intros y; rewrite !elem_of_app, ?list_elem_of_singleton, ?(elem_of_cons rest); split.
  - intros [Hy|Hy]; [specialize (Hs y Hy)|subst]; split; auto; lia.
  - intros [[Hy|[Hy|Hy]] Hle]; auto. specialize (Hrest y Hy). lia.
  - auto.
  - intros [[Hy|[Hy|Hy]] Hlt]; [specialize (Hs y Hy)|subst|done]; lia.
Qed.

(** A finished root: what the stack holds from it upwards is a component. *)
Lemma root_component ord lw v i fs comps seg rest :
  walk_inv ord (seg ++ v :: rest) lw ((v, i) :: fs) comps -> succ_of v !! i = None -> lw v = pos ord v ->
  is_scc (seg ++ [v]) /\
  (forall u z, u ∈ seg ++ [v] -> Edge u z -> z ∈ ord /\ z ∉ rest).
Proof.
  intros Hi Hc Hroot. pose proof (frame_fresh _ _ _ _ _ _ _ Hi) as Hfresh.
  pose proof (fun x => reach_top _ _ _ _ _ _ _ x Hi) as Htop. destruct Hi.
  destruct (stack_split ord seg v rest I_decr0) as [Hin Hout].
  csimpl in I_fdecr0. apply StronglySorted_inv in I_fdecr0 as [_ Hfv]. rewrite Forall_forall in Hfv.
  assert (v ∈ seg ++ v :: rest) as Hv by (apply elem_of_app; right; left).
  assert (forall u z, u ∈ seg ++ [v] -> Edge u z ->
    z ∈ ord /\ (z ∈ seg ++ v :: rest -> z ∈ seg ++ [v])) as Hstep.
  { intros u z [Hu Hle]%Hin HE.
    assert (done_edge ((v, i) :: fs) u z) as Hd.
    { destruct (decide (u = v)) as [->|Hne].
      - apply list_elem_of_lookup in HE as [j Hj]. left. exists i, j. split_and!; [left| |done].
        apply lookup_ge_None in Hc. apply lookup_lt_Some in Hj. lia.
      - right. split; [|done]. csimpl. rewrite not_elem_of_cons. split; [done|].
        intros Hf%Hfv. lia. }
    split; [by apply (I_done0 u z)|]. intros Hz. apply Hin. split; [done|].
    destruct (I_low0 [] v i fs eq_refl) as (_ & _ & H3). rewrite <- Hroot.
    apply (H3 u z); try done. by intros h ?%elem_of_nil. }
  assert (forall w z, w ∈ ord -> w ∉ seg ++ v :: rest -> Reach w z -> z ∉ seg ++ v :: rest) as Hclosed.
  { intros w z Hw Hws Hr. induction Hr as [|w x z HE Hr IH]; [done|].
    destruct (I_closed0 w x Hw Hws HE). by apply IH. }
  assert (forall u w, u ∈ seg ++ [v] -> Reach u w -> Reach w v -> w ∈ seg ++ [v]) as Hmax.
  { intros u w Hu Hr Hback. induction Hr as [|u x w HE Hr IH]; [done|].
    destruct (Hstep u x Hu HE) as [Hxo Hx].
    destruct (decide (x ∈ seg ++ v :: rest)) as [Hxs|Hxs]; [by apply IH; [apply Hx|]|].
    exfalso. apply (Hclosed x v Hxo Hxs); [|done]. by transitivity w. }
  split; [split|].
  - by destruct seg.
  - assert (forall u, u ∈ seg ++ [v] -> Reach u v /\ Reach v u) as Hmut.
    { intros u [Hu Hle]%Hin. split; [by apply Htop|]. by apply I_order0. }
    intros u Hu w. split.
    + intros Hw. destruct (Hmut u Hu), (Hmut w Hw). split; by transitivity v.
    + intros [H1 H2]. apply (Hmax u w Hu H1). transitivity u; [done|]. by apply Hmut.
  - intros u z Hu HE. destruct (Hstep u z Hu HE) as [Hz Hzs]. split; [done|].
    intros Hr. destruct (proj1 (Hout z) Hr) as [Hzin Hlt].
    apply Hzs in Hzin. apply Hin in Hzin as [_ Hle]. lia.
Qed.

Lemma inv_close ord lw v i fs comps seg rest :
  walk_inv ord (seg ++ v :: rest) lw ((v, i) :: fs) comps -> succ_of v !! i = None -> lw v = pos ord v ->
  walk_inv ord rest lw fs (comps ++ [seg ++ [v]]).
Proof.
  intros Hi Hc Hroot. destruct (root_component _ _ _ _ _ _ _ _ Hi Hc Hroot) as [Hscc Hstep].
  pose proof (frame_fresh _ _ _ _ _ _ _ Hi) as Hfresh. destruct Hi.
  destruct (stack_split ord seg v rest I_decr0) as [Hin Hout].
  csimpl in I_fdecr0. apply StronglySorted_inv in I_fdecr0 as [Hfs Hfv]. rewrite Forall_forall in Hfv.
  assert (forall y, y ∈ rest -> y ∈ seg ++ v :: rest) as Hsub by (intros y Hy; by apply Hout).
  assert (forall y, y ∈ seg ++ v :: rest -> y ∈ seg ++ [v] \/ y ∈ rest) as Hcase.
  { intros y. rewrite !elem_of_app, elem_of_cons, list_elem_of_singleton. naive_solver. }
  assert (forall y, y ∈ seg ++ [v] -> y ∉ rest) as Hdisj.
  { intros y [_ Hy]%Hin [_ Hy']%Hout. lia. }
  split.
  - done.
  - done.
  - auto.
  - apply StronglySorted_app_1_r in I_decr0. by apply StronglySorted_inv in I_decr0 as [? _].
  - done.
  - intros x Hx. apply Hout. split; [apply I_frames0; by right|by apply Hfv].
  - intros w z Hw Hws HE. destruct (decide (w ∈ seg ++ v :: rest)) as [Hwst|Hwst].
    + apply (Hstep w z); [|done]. by destruct (Hcase w Hwst).
    + destruct (I_closed0 w z Hw Hwst HE) as [Hz Hzs]. auto.
  - auto.
  - intros y Hy. destruct (I_gray0 y (Hsub y Hy)) as (x & Hx & Hle & Hr). exists x.
    apply elem_of_cons in Hx as [->|Hx]; [|done]. apply Hout in Hy as [_ Hy]. csimpl in Hle. lia.
  - intros u z Hu Hd%(done_edge_pop v i); eauto.
  - intros above w k below ->. destruct (I_low0 ((v, i) :: above) w k below eq_refl) as (H1 & (y & Hy & Hpy & Hry) & H3).
    assert (pos ord w < pos ord v) as Hwv.
    { apply Hfv. rewrite fmap_app. apply elem_of_app. right. left. }
    split_and!; [done| |].
    + exists y. split_and!; [|done..]. apply Hout. split; [done|lia].
    + intros u z Hu Hz Hp Hab Hd%(done_edge_pop v i); [|done..]. apply (H3 u z); auto.
      intros h [->|Hh]%elem_of_cons; [|auto]. by apply Hout in Hu as [_ ?].
  - apply Forall_app. split; [done|]. by apply Forall_singleton.
  - intros y. rewrite concat_app, elem_of_app, I_comps_in0. csimpl. rewrite app_nil_r. split.
    + intros [[Ho Hs]|Hy]; [auto|]. split; [|by apply Hdisj]. apply I_stack0. by apply Hin.
    + intros [Ho Hr]. destruct (decide (y ∈ seg ++ v :: rest)) as [Hy|Hy]; [|by left].
      right. by destruct (Hcase y Hy).
  - rewrite concat_app. csimpl. rewrite app_nil_r. apply NoDup_app. split_and!; [done| |].
    + intros y Hy%I_comps_in0 Hyc%Hin. by destruct Hy, Hyc.
    + clear -I_decr0. replace (seg ++ v :: rest) with ((seg ++ [v]) ++ rest) in I_decr0 by by rewrite <- app_assoc.
      apply StronglySorted_app_1_l in I_decr0. induction I_decr0 as [|x l Hl IH Hx]; constructor; [|done].
      intros Hxl. rewrite Forall_forall in Hx. apply Hx in Hxl. lia.
Qed.

(** ** The arrays represent the abstract state *)

Section arrays.
Context {A : Type} (ns : list A).
Hypothesis ns_length : length ns = length adj.
Hypothesis ns_fits : (N.of_nat (length ns) < UNVISITED)%N.

Definition names (c : list nat) : list A := omap (fun v => ns !! v) c.

Record rep (t : Tarjan A) (ord st : list nat) (lw : nat -> nat) (comps : list (list nat)) : Prop := {
  R_nodes : t_nodes t = ns;
  R_adj : adjacency t = adj;
  R_disc : forall v, v < length adj ->
     discovery t !! v = Some (if decide (v ∈ ord) then N.of_nat (pos ord v) else UNVISITED);
  R_low_length : length (lowlink t) = length adj;
  R_low : forall v, v ∈ ord -> lowlink t !! v = Some (N.of_nat (lw v));
  R_on_length : length (on_stack t) = length adj;
  R_on : forall v, v < length adj -> on_stack t !! v = Some (bool_decide (v ∈ st));
  R_stack : component_stack t = st;
  R_next : next_index t = N.of_nat (length ord);
  R_comps : components t = names <$> comps }.

Lemma set_index_lt {B} (l : list B) i x : i < length l -> set_index l i x = Some (<[i:=x]> l).
Proof. intros. unfold set_index. by rewrite decide_True. Qed.

Lemma lookup_length_lt {B} (l : list B) i x : l !! i = Some x -> i < length l.
Proof. apply lookup_lt_Some. Qed.

Lemma enter_rep t ord st lw comps c :
  rep t ord st lw comps -> NoDup ord -> (forall v, v ∈ ord -> v < length adj) -> c ∉ ord -> c < length adj ->
  exists t', enter t c = Some t' /\ rep t' (ord ++ [c]) (c :: st) (upd lw c (length ord)) comps.
Proof.
  intros [] Hn Hb Hc Hlt. unfold enter.
  assert (c < length (discovery t)) as Hd by (eapply lookup_length_lt; by apply R_disc0).
  rewrite !set_index_lt by congruence. eexists. split; [reflexivity|]. split; cbn; try done.
  - intros v Hv. destruct (decide (v = c)) as [->|Hne].
    + rewrite list_lookup_insert_eq by done. rewrite decide_True by (apply elem_of_app; right; left).
      by rewrite R_next0, pos_new.
    + rewrite list_lookup_insert_ne by done. rewrite R_disc0 by done.
      destruct (decide (v ∈ ord)) as [Hin|Hin].
      * rewrite decide_True by (by apply elem_of_app; left). by rewrite pos_app.
      * rewrite decide_False; [done|]. by intros [?|?%list_elem_of_singleton]%elem_of_app.
  - by rewrite length_insert.
  - intros v Hv. destruct (decide (v = c)) as [->|Hne].
    + rewrite list_lookup_insert_eq by (by rewrite R_low_length0). by rewrite upd_eq, R_next0.
    + rewrite list_lookup_insert_ne, upd_ne by done. apply R_low0.
      by apply elem_of_app in Hv as [?|?%list_elem_of_singleton].
  - by rewrite length_insert.
  - intros v Hv. destruct (decide (v = c)) as [->|Hne].
    + rewrite list_lookup_insert_eq by (by rewrite R_on_length0). by rewrite bool_decide_eq_true_2 by left.
    + rewrite list_lookup_insert_ne by done. rewrite R_on0 by done. f_equal. apply bool_decide_ext.
      rewrite elem_of_cons. naive_solver.
  - by rewrite R_stack0.
  - rewrite R_next0, length_app. simpl. lia.
Qed.

Lemma lower_rep t ord st lw comps v x :
  rep t ord st lw comps -> v ∈ ord -> v < length adj ->
  exists t', lower t v (N.of_nat x) = Some t' /\ rep t' ord st (upd lw v (min (lw v) x)) comps.
Proof.
  intros [] Hv Hlt. unfold lower. rewrite (R_low0 v Hv). simpl. rewrite set_index_lt by congruence.
  eexists. split; [reflexivity|]. split; cbn; try done.
  - by rewrite length_insert.
  - intros u Hu. destruct (decide (u = v)) as [->|Hne].
    + rewrite list_lookup_insert_eq by congruence. rewrite upd_eq. f_equal. lia.
    + rewrite list_lookup_insert_ne, upd_ne by done. auto.
Qed.

Lemma pop_component_spec v seg rest o acc :
  v ∉ seg -> (forall u, u ∈ seg ++ [v] -> u < length adj) -> length o = length adj ->
  exists o', pop_component ns v (seg ++ v :: rest) o acc = Some (rest, o', acc ++ names (seg ++ [v])) /\
    length o' = length o /\ (forall u, u ∈ seg ++ [v] -> o' !! u = Some false) /\
    (forall u, u ∉ seg ++ [v] -> o' !! u = o !! u).
Proof.
  revert o acc. induction seg as [|u seg IH]; intros o acc Hv Hb Ho.
  - assert (v < length adj) as Hlt by (apply Hb; left).
    destruct (lookup_lt_is_Some_2 ns v ltac:(congruence)) as [a Ha].
    cbn [app pop_component]. rewrite set_index_lt by congruence. simpl. rewrite Ha. simpl.
    rewrite decide_True by done. eexists. split_and!; [reflexivity|by rewrite length_insert| |].
    + intros u ->%list_elem_of_singleton. apply list_lookup_insert_eq. congruence.
    + intros u Hu. apply list_lookup_insert_ne. intros ->. apply Hu. left.
  - apply not_elem_of_cons in Hv as [Hne Hv].
    assert (u < length adj) as Hlt by (apply Hb; left).
    destruct (lookup_lt_is_Some_2 ns u ltac:(congruence)) as [a Ha].
    destruct (IH (<[u:=false]> o) (acc ++ [a]) Hv) as (o' & E & Hl & H1 & H2).
    { intros w Hw. apply Hb. by right. }
    { by rewrite length_insert. }
    cbn [app pop_component]. rewrite set_index_lt by congruence. simpl. rewrite Ha. simpl.
    rewrite decide_False by done. rewrite E. exists o'. rewrite <- app_assoc. simpl.
    split_and!; [done|by rewrite Hl, length_insert| |].
    + intros w Hw. destruct (decide (w ∈ seg ++ [v])) as [Hws|Hws]; [auto|].
      rewrite H2 by done. apply elem_of_cons in Hw as [->|Hw]; [|done].
      apply list_lookup_insert_eq. congruence.
    + intros w [Hwu Hw]%not_elem_of_cons. rewrite H2 by done. by apply list_lookup_insert_ne.
Qed.

Lemma close_rep t ord lw comps v seg rest :
  rep t ord (seg ++ v :: rest) lw comps -> v ∉ seg ->
  (forall u, u ∈ rest -> u ∉ seg ++ [v]) ->
  (forall u, u ∈ seg ++ [v] -> u < length adj) ->
  exists t', close_component t v = Some t' /\ rep t' ord rest lw (comps ++ [seg ++ [v]]) /\
    lowlink t' = lowlink t.
Proof.
  intros [] Hv Hdis Hb. unfold close_component. rewrite R_nodes0, R_stack0.
  destruct (pop_component_spec v seg rest (on_stack t) [] Hv Hb R_on_length0) as (o' & -> & Hl & H1 & H2).
  eexists. split; [reflexivity|]. split; [|done]. split; cbn; try done.
  - congruence.
  - intros u Hu. destruct (decide (u ∈ seg ++ [v])) as [Hin|Hin].
    + rewrite H1 by done. f_equal. symmetry. apply bool_decide_eq_false. intros Hr. by apply (Hdis u).
    + rewrite H2, R_on0 by done. f_equal. apply bool_decide_ext.
      rewrite elem_of_app, elem_of_cons. rewrite elem_of_app, list_elem_of_singleton in Hin. naive_solver.
  - by rewrite R_comps0, fmap_app.
Qed.

(** *** Termination measure: what is left to follow *)

Definition weight (v : nat) : nat := S (length (succ_of v)).
Definition unvisited (ord : list nat) (l : list nat) : nat := sum_list (weight <$> filter (.∉ ord) l).
Definition left_over (frames : list (nat * nat)) : nat := sum_list ((fun f => weight f.1 - f.2) <$> frames).
Definition measure (ord : list nat) (frames : list (nat * nat)) : nat :=
  unvisited ord (seq 0 (length adj)) + left_over frames.

Lemma unvisited_enter ord l c :
  NoDup l -> c ∉ ord -> unvisited ord l = (if decide (c ∈ l) then weight c else 0) + unvisited (ord ++ [c]) l.
Proof.
  intros Hl Hc. unfold unvisited. induction Hl as [|u l Hu Hl IH]; [done|]. rewrite !filter_cons.
  destruct (decide (u = c)) as [->|Hne].
  - rewrite decide_True by done. rewrite (decide_True (P := c ∈ c :: l)) by left.
    rewrite (decide_False (P := c ∉ ord ++ [c])) by (rewrite elem_of_app; naive_solver eauto using list_elem_of_here).
    csimpl. rewrite IH. by rewrite decide_False.
  - rewrite (decide_ext (c ∈ u :: l) (c ∈ l)) by (rewrite elem_of_cons; naive_solver).
    rewrite (decide_ext (u ∉ ord ++ [c]) (u ∉ ord)) by (rewrite elem_of_app, list_elem_of_singleton; naive_solver).
    destruct (decide (u ∉ ord)); csimpl; rewrite IH; case_decide; simpl; lia.
Qed.

Lemma measure_enter ord fs c : c ∉ ord -> c < length adj -> measure (ord ++ [c]) ((c, 0) :: fs) = measure ord fs.
Proof.
  intros Hc Hlt. unfold measure. rewrite (unvisited_enter ord _ c (NoDup_seq _ _) Hc).
  rewrite decide_True by (apply elem_of_seq; lia). unfold left_over. csimpl. lia.
Qed.

Definition state_ok (t : Tarjan A) (ord : list nat) (frames : list (nat * nat)) : Prop :=
  exists st lw comps, rep t ord st lw comps /\ walk_inv ord st lw frames comps.

Lemma UNVISITED_ne ord v : NoDup ord -> (forall u, u ∈ ord -> u < length adj) -> v ∈ ord ->
  (N.of_nat (pos ord v) =? UNVISITED)%N = false.
Proof.
  intros Hn Hb Hv. apply N.eqb_neq. pose proof (pos_lt ord v Hv).
  assert (length ord <= length (seq 0 (length adj))) as Hle.
  { apply submseteq_length, NoDup_submseteq; [done|]. intros u Hu. apply elem_of_seq. specialize (Hb u Hu). lia. }
  rewrite length_seq in Hle. lia.
Qed.

Lemma walk_step_child t ord v i fs c :
  state_ok t ord ((v, i) :: fs) -> succ_of v !! i = Some c ->
  exists t' fr' ord', walk_step t v i fs = Some (t', fr') /\ state_ok t' ord' fr' /\
    measure ord' fr' < measure ord ((v, i) :: fs) /\ ord ⊆ ord'.
Proof.
  intros (st & lw & comps & Hr & Hi) Hc.
  assert (v ∈ st) as Hvs by (apply (I_frames _ _ _ _ _ Hi); left).
  assert (v ∈ ord) as Hv by by apply (I_stack _ _ _ _ _ Hi).
  assert (v < length adj) as Hvb by by apply (I_bound _ _ _ _ _ Hi).
  assert (Edge v c) as HE by by eapply list_elem_of_lookup_2.
  assert (c < length adj) as Hcb by by eapply Edge_bound.
  assert (i < length (succ_of v)) as Hil by by eapply lookup_lt_Some.
  unfold walk_step. rewrite (R_adj _ _ _ _ _ Hr).
  unfold succ_of in Hc. destruct (adj !! v) as [ts|] eqn:Hts; [|done]. simpl in Hc |- *. rewrite Hc.
  rewrite (R_disc _ _ _ _ _ Hr c Hcb). simpl. destruct (decide (c ∈ ord)) as [Hco|Hco].
  - rewrite (UNVISITED_ne ord c) by (done || apply Hi). rewrite (R_on _ _ _ _ _ Hr c Hcb). simpl.
    assert (succ_of v !! i = Some c) as Hsc by (unfold succ_of; by rewrite Hts).
    assert (measure ord ((v, S i) :: fs) < measure ord ((v, i) :: fs)) as Hm
      by (unfold measure, left_over, weight; csimpl; lia).
    case_bool_decide as Hcs.
    + destruct (lower_rep t ord st lw comps v (pos ord c) Hr Hv Hvb) as (t' & -> & Hr').
      exists t', ((v, S i) :: fs), ord. split_and!; [done| |done|done]. eexists _, _, _. split; [done|].
      eapply inv_advance; try done; intros; [by apply upd_ne|by rewrite upd_eq].
    + exists t, ((v, S i) :: fs), ord. split_and!; [done| |done|done]. eexists _, _, _. split; [done|].
      by eapply inv_advance.
  - rewrite N.eqb_refl.
    destruct (enter_rep t ord st lw comps c Hr) as (t' & -> & Hr'); try done; try apply Hi.
    exists t', ((c, 0) :: (v, S i) :: fs), (ord ++ [c]). split_and!; [done| | |].
    + eexists _, _, _. split; [done|]. eapply inv_enter; try done.
      * intros x Hx. eapply rtc_r; [by eapply reach_top|done].
      * intros u z [Hd|[-> Hz]]%done_edge_advance; [by left|]. right.
        unfold succ_of in Hz. rewrite Hts in Hz. simpl in Hz. congruence.
    + rewrite measure_enter by done. unfold measure, left_over, weight. csimpl. lia.
    + intros x Hx. by apply elem_of_app; left.
Qed.

Lemma walk_step_finish t ord v i fs :
  state_ok t ord ((v, i) :: fs) -> succ_of v !! i = None -> i <= length (succ_of v) ->
  exists t', walk_step t v i fs = Some (t', fs) /\ state_ok t' ord fs /\
    measure ord fs < measure ord ((v, i) :: fs).
Proof.
  intros (st & lw & comps & Hr & Hi) Hc Hil.
  assert (v ∈ st) as Hvs by (apply (I_frames _ _ _ _ _ Hi); left).
  assert (v ∈ ord) as Hv by by apply (I_stack _ _ _ _ _ Hi).
  assert (v < length adj) as Hvb by by apply (I_bound _ _ _ _ _ Hi).
  assert (measure ord fs < measure ord ((v, i) :: fs)) as Hm
    by (unfold measure, left_over, weight; csimpl; lia).
  destruct (I_low _ _ _ _ _ Hi [] v i fs eq_refl) as (Hle & _).
  unfold walk_step. rewrite (R_adj _ _ _ _ _ Hr).
  destruct (lookup_lt_is_Some_2 adj v Hvb) as [ts Hts]. rewrite Hts. simpl.
  replace (ts !! i) with (@None nat) by (unfold succ_of in Hc; by rewrite Hts in Hc).
  rewrite (R_low _ _ _ _ _ Hr v Hv), (R_disc _ _ _ _ _ Hr v Hvb), decide_True by done. simpl.
  destruct (decide (lw v = pos ord v)) as [Hroot|Hroot].
  - rewrite Hroot, N.eqb_refl.
    destruct (list_elem_of_split _ _ Hvs) as (seg & rest & ->).
    destruct (stack_split ord seg v rest (I_decr _ _ _ _ _ Hi)) as [Hin Hout].
    destruct (close_rep t ord lw comps v seg rest Hr) as (t' & -> & Hr' & Hlow).
    { apply (I_decr _ _ _ _ _) in Hi as Hs. apply StronglySorted_app in Hs as [Hs _].
      intros Hx. specialize (Hs v v Hx ltac:(left)). lia. }
    { intros u [_ Hu]%Hout [_ Hu']%Hin. lia. }
    { intros u [Hu _]%Hin. by apply (I_bound _ _ _ _ _ Hi), (I_stack _ _ _ _ _ Hi). }
    pose proof (inv_close ord lw v i fs comps seg rest Hi Hc Hroot) as Hi'. simpl.
    destruct fs as [|[p k] fs]; [exists t'; split_and!; [done|by eexists _, _, _|done]|].
    assert (p ∈ rest) as Hps by (apply (I_frames _ _ _ _ _ Hi'); left).
    assert (p ∈ ord) as Hp by by apply (I_stack _ _ _ _ _ Hi').
    rewrite Hlow, (R_low _ _ _ _ _ Hr v Hv). simpl.
    destruct (lower_rep t' ord rest lw _ p (lw v) Hr' Hp) as (t'' & -> & Hr''); [by apply Hi'|].
    exists t''. split_and!; [done| |done]. eexists _, _, _. split; [done|].
    eapply walk_inv_ext; [done|]. intros u. destruct (decide (u = p)) as [->|]; [|by apply upd_ne].
    rewrite upd_eq. destruct (I_low _ _ _ _ _ Hi' [] p k fs eq_refl) as (Hlp & _).
    apply Hout in Hps as [_ Hps]. lia.
  - replace (N.of_nat (lw v) =? N.of_nat (pos ord v))%N with false by (symmetry; apply N.eqb_neq; lia).
    destruct (inv_pop ord st lw v i fs comps Hi Hc ltac:(lia)) as (p & k & fs' & -> & Hi'). simpl.
    assert (p ∈ ord) as Hp by (apply (I_stack _ _ _ _ _ Hi'), (I_frames _ _ _ _ _ Hi'); left).
    rewrite (R_low _ _ _ _ _ Hr v Hv). simpl.
    destruct (lower_rep t ord st lw comps p (lw v) Hr Hp) as (t'' & -> & Hr''); [by apply Hi'|].
    exists t''. split_and!; [done| |done]. by eexists _, _, _.
Qed.

Definition frames_bounded (frames : list (nat * nat)) : Prop :=
  Forall (fun f => f.2 <= length (succ_of f.1)) frames.

Lemma walk_step_bounded (t : Tarjan A) v i fs t' fr' :
  adjacency t = adj -> frames_bounded ((v, i) :: fs) ->
  walk_step t v i fs = Some (t', fr') -> frames_bounded fr'.
Proof.
  intros Ha Hb Hs. apply Forall_cons in Hb as [Hv Hb]. unfold walk_step in Hs. rewrite Ha in Hs.
  unfold frames_bounded, succ_of in *. simpl in Hv.
  destruct (adj !! v) as [ts|] eqn:Hts; [|done]. simpl in Hs, Hv.
  destruct (ts !! i) as [c|] eqn:Hc.
  - apply lookup_lt_Some in Hc. assert (S i <= length (default [] (adj !! v))) by (rewrite Hts; simpl; lia).
    invert_some Hs; repeat constructor; simpl; try done; lia.
  - by invert_some Hs.
Qed.

Lemma walk_loop_spec fuel t ord frames :
  state_ok t ord frames -> frames_bounded frames -> measure ord frames <= fuel ->
  exists t' ord', walk_loop fuel t frames = Some t' /\ state_ok t' ord' [] /\ ord ⊆ ord'.
Proof.
  revert t ord frames. induction fuel as [|fuel IH]; intros t ord [|[v i] fs] Hok Hb Hm;
    try (exists t, ord; by split_and!).
  { apply Forall_cons in Hb as [Hb _]. unfold measure, left_over, weight in Hm. csimpl in *. lia. }
  cbn [walk_loop].
  assert (exists t' fr' ord', walk_step t v i fs = Some (t', fr') /\ state_ok t' ord' fr' /\
    measure ord' fr' < measure ord ((v, i) :: fs) /\ ord ⊆ ord') as (t' & fr' & ord' & Hs & Hok' & Hlt & Hsub).
  { destruct (succ_of v !! i) as [c|] eqn:Hc; [by eapply walk_step_child|].
    destruct (walk_step_finish t ord v i fs Hok Hc) as (t' & Hs & Hok' & Hlt).
    { by apply Forall_cons in Hb as [Hb _]. }
    by exists t', fs, ord. }
  rewrite Hs. simpl. destruct (IH t' ord' fr') as (t'' & ord'' & -> & Hok'' & Hsub'').
  - done.
  - eapply walk_step_bounded; try done. by destruct Hok as (? & ? & ? & [] & _).
  - lia.
  - exists t'', ord''. split_and!; [done..|]. by transitivity ord'.
Qed.

Lemma unvisited_le ord l : unvisited ord l <= sum_list (weight <$> l).
Proof.
  unfold unvisited. induction l as [|u l IH]; [done|]. rewrite filter_cons. case_decide; csimpl; lia.
Qed.

Lemma weight_seq : sum_list (weight <$> seq 0 (length adj)) = sum_list ((fun ts => S (length ts)) <$> adj).
Proof.
  f_equal. apply list_eq. intros i. rewrite !list_lookup_fmap.
  destruct (adj !! i) as [ts|] eqn:E.
  - apply lookup_lt_Some in E as Hi. rewrite lookup_seq_lt by done. simpl. unfold weight, succ_of. by rewrite E.
  - apply lookup_ge_None in E as Hi. by rewrite lookup_seq_ge.
Qed.

Lemma walk_spec t ord start :
  state_ok t ord [] -> start ∉ ord -> start < length adj ->
  exists t' ord', walk t start = Some t' /\ state_ok t' ord' [] /\ ord ⊆ ord' /\ start ∈ ord'.
Proof.
  intros (st & lw & comps & Hr & Hi) Hs Hlt. pose proof (walk_inv_done _ _ _ _ Hi) as ->.
  unfold walk. destruct (enter_rep t ord [] lw comps start Hr) as (t1 & -> & Hr1); try done; try apply Hi.
  simpl. destruct (walk_loop_spec (walk_fuel t1) t1 (ord ++ [start]) [(start, 0)]) as (t' & ord' & -> & Hok & Hsub).
  - eexists _, _, _. split; [done|]. eapply inv_enter; try done.
    + by intros x ?%elem_of_nil.
    + by left.
  - repeat constructor. simpl. lia.
  - unfold walk_fuel. rewrite (R_adj _ _ _ _ _ Hr1), measure_enter by done.
    unfold measure, left_over. simpl. rewrite <- weight_seq. pose proof (unvisited_le ord (seq 0 (length adj))). lia.
  - exists t', ord'. split_and!; [done..| |].
    + intros x Hx. apply Hsub. by apply elem_of_app; left.
    + apply Hsub. apply elem_of_app. right. left.
Qed.

Lemma run_from_spec starts t ord :
  state_ok t ord [] -> Forall (fun s => s < length adj) starts ->
  exists t' ord', run_from starts t = Some t' /\ state_ok t' ord' [] /\ ord ⊆ ord' /\
    (forall s, s ∈ starts -> s ∈ ord').
Proof.
  revert t ord. induction starts as [|s starts IH]; intros t ord Hok Hb.
  { exists t, ord. split_and!; try done. by intros s ?%elem_of_nil. }
  apply Forall_cons in Hb as [Hs Hb]. cbn [run_from].
  assert (exists d t1 ord1, discovery t !! s = Some d /\
     (if (d =? UNVISITED)%N then walk t s else Some t) = Some t1 /\ state_ok t1 ord1 [] /\
     ord ⊆ ord1 /\ s ∈ ord1) as (d & t1 & ord1 & Hd & Hw & Hok1 & Hsub1 & Hs1).
  { pose proof Hok as (st & lw & comps & Hr & Hi). rewrite (R_disc _ _ _ _ _ Hr s Hs).
    destruct (decide (s ∈ ord)) as [Hin|Hin]; eexists.
    - exists t, ord. rewrite (UNVISITED_ne ord s) by (done || apply Hi). by split_and!.
    - destruct (walk_spec t ord s Hok Hin Hs) as (t1 & ord1 & Hw & ?). exists t1, ord1.
      split; [done|]. by rewrite N.eqb_refl. }
  rewrite Hd. simpl. rewrite Hw. simpl.
  destruct (IH t1 ord1 Hok1 Hb) as (t' & ord' & -> & Hok' & Hsub' & Hin').
  exists t', ord'. split_and!; [done..| |].
  - by transitivity ord1.
  - intros x [->|Hx]%elem_of_cons; auto.
Qed.

(** The whole run from the initial state: the closed components partition the nodes. *)
Lemma run_spec t :
  rep t [] [] (fun _ => 0) [] ->
  exists t' comps, run_from (seq 0 (length ns)) t = Some t' /\ components t' = names <$> comps /\
    Forall is_scc comps /\ NoDup (concat comps) /\ (forall v, v ∈ concat comps <-> v < length adj).
Proof.
  intros Hr. destruct (run_from_spec (seq 0 (length ns)) t []) as (t' & ord' & E & Hok & _ & Hall).
  - exists [], (fun _ => 0), []. split; [done|]. apply walk_inv_init.
  - apply Forall_forall. intros s Hs%elem_of_seq. lia.
  - destruct Hok as (st & lw & comps & Hr' & Hi). pose proof (walk_inv_done _ _ _ _ Hi) as ->.
    exists t', comps. split_and!; [done|apply Hr'|apply Hi|apply Hi|].
    intros v. rewrite (I_comps_in _ _ _ _ _ Hi). split.
    + intros [Hv _]. by apply (I_bound _ _ _ _ _ Hi).
    + intros Hv. split; [apply Hall, elem_of_seq; lia|by intros ?%elem_of_nil].
Qed.

End arrays.

End abstract.

(** ** From indices back to identities *)

Section identities.
Context {A : Type} `{OrdLaws A} `{!EqDecision A}.

(** The table [index_of] of [Tarjan::new]. *)
Lemma index_of_spec (ns : list A) (a : A) i :
  NoDup ns -> bt_get a (bt_of_list (imap (fun index n => (n, index)) ns)) = Some i <-> ns !! i = Some a.
Proof.
  intros Hn. cut (bt_sorted (bt_of_list (imap (fun index n => (n, index)) ns)) /\
    forall a i, bt_get a (bt_of_list (imap (fun index n => (n, index)) ns)) = Some i <-> ns !! i = Some a).
  { intros [_ Hg]. apply Hg. }
  clear a i. induction ns as [|b ns IH] using rev_ind.
  { split; [constructor|]. intros a i. by rewrite lookup_nil. }
  apply NoDup_app in Hn as (Hn & Hb & _). destruct (IH Hn) as [Hs Hg]. clear IH.
  unfold bt_of_list in *. rewrite imap_app. rewrite foldl_app. simpl.
  split; [by apply bt_sorted_upsert|]. intros a i. unfold bt_insert.
  rewrite lookup_snoc_Some. destruct (decide (a = b)) as [->|Hne].
  - rewrite bt_get_upsert_eq by done. rewrite Nat.add_0_r. split.
    + intros [= <-]. auto.
    + intros [[_ Hi]|[-> _]]; [|done]. exfalso. apply (Hb b); [by eapply list_elem_of_lookup_2|left].
  - rewrite bt_get_upsert_ne by done. rewrite Hg. split.
    + intros Hi. left. split; [by eapply lookup_lt_Some|done].
    + intros [[_ Hi]|[_ ->]]; done.
Qed.

Lemma index_edges_spec (table : list (A * nat)) (es : list (A * A)) adj :
  (forall a b, (a, b) ∈ es -> is_Some (bt_get a table) /\ is_Some (bt_get b table)) ->
  exists pairs, index_edges table es adj = Some (foldl push_edge adj pairs) /\
    (forall i j, (i, j) ∈ pairs <-> exists a b, (a, b) ∈ es /\ bt_get a table = Some i /\ bt_get b table = Some j).
Proof.
  revert adj. induction es as [|[a b] es IH]; intros adj Hes.
  { exists []. split; [done|]. intros i j. split; [by intros ?%elem_of_nil|]. by intros (? & ? & ?%elem_of_nil & _). }
  destruct (Hes a b ltac:(left)) as [[i Hi] [j Hj]]. simpl. rewrite Hi, Hj. simpl.
  destruct (IH (push_edge adj (i, j))) as (pairs & E & Hp).
  { intros a' b' Hin. apply Hes. by right. }
  exists ((i, j) :: pairs). split; [done|]. intros i' j'. rewrite elem_of_cons, Hp. split.
  - intros [[= -> ->]|(a' & b' & Hin & H1 & H2)]; [exists a, b|exists a', b'];
      (split_and!; [|done..]); [by left|by right].
  - intros (a' & b' & [[= -> ->]|Hin]%elem_of_cons & H1 & H2); [left; congruence|right; eauto].
Qed.

(** [Tarjan::new] starts from the graph's own edges, with nothing visited. *)
Lemma tarjan_new_spec (g : Graph A) :
  graph_wf g ->
  exists t adj, tarjan_new g = Some t /\ rep adj (nodes g) t [] [] (fun _ => 0) [] /\
    length adj = length (nodes g) /\ (forall i j, Edge adj i j <-> index_edge g i j) /\
    Forall (Forall (fun j => j < length adj)) adj.
Proof.
  intros Hwf. pose proof Hwf as [Hl Hn Ht]. unfold tarjan_new.
  destruct (index_edges_spec (bt_of_list (imap (fun index n => (n, index)) (nodes g))) (edges g)
              (replicate (length (nodes g)) [])) as (pairs & -> & Hp).
  { intros a b (i & j & Ha & Hb & _)%edges_spec. split; eexists; by apply index_of_spec. }
  simpl. set (adj := (fun targets => dedup (sort targets)) <$> foldl push_edge (replicate (length (nodes g)) []) pairs).
  assert (length adj = length (nodes g)) as Hlen
    by (unfold adj; by rewrite length_fmap, length_push_edges, length_replicate).
  assert (forall i j, (i, j) ∈ pairs <-> index_edge g i j) as Hpairs.
  { intros i j. rewrite Hp. split.
    - intros (a & b & (i' & j' & Ha & Hb & Hij)%edges_spec & Hi & Hj).
      apply index_of_spec in Hi, Hj; [|done..]. unfold nodes in *.
      assert (i = i') as -> by (by eapply NoDup_lookup). by assert (j = j') as -> by (by eapply NoDup_lookup).
    - intros (ts & Hts & Hj). pose proof Hts as Hi%lookup_lt_Some. rewrite Hl in Hi.
      rewrite Forall_forall in Ht. destruct (Ht ts ltac:(by eapply list_elem_of_lookup_2)) as [_ Hb].
      rewrite Forall_forall in Hb. pose proof (Hb j Hj) as Hjb.
      destruct (lookup_lt_is_Some_2 _ _ Hi) as [a Ha]. destruct (lookup_lt_is_Some_2 _ _ Hjb) as [b Hb'].
      exists a, b. split_and!; [|by apply index_of_spec..]. apply edges_spec.
      exists i, j. split_and!; [done..|]. by exists ts. }
  assert (forall i j, (exists ts, adj !! i = Some ts /\ j ∈ ts) <-> index_edge g i j) as Hadj.
  { intros i j. rewrite <- Hpairs.
    rewrite <- (elem_push_edges_nil (length (nodes g)) pairs).
    - unfold adj. setoid_rewrite list_lookup_fmap. split.
      + intros (ts & (ts' & Hts & ->)%fmap_Some & Hj). exists ts'. split; [done|]. by apply (proj2 (dedup_sort_spec ts')).
      + intros (ts & Hts & Hj). rewrite Hts. eexists. split; [done|]. by apply (proj2 (dedup_sort_spec ts)).
    - intros i' j' (ts & Hts & _)%Hpairs. apply lookup_lt_Some in Hts. by rewrite Hl in Hts. }
  eexists _, adj. split_and!; [done| |done| |].
  - split; cbn; try done.
    + intros v Hv. apply lookup_replicate. by rewrite <- Hlen.
    + by rewrite length_replicate.
    + by intros v ?%elem_of_nil.
    + by rewrite length_replicate.
    + intros v Hv. apply lookup_replicate. by rewrite <- Hlen.
  - intros i j. rewrite <- Hadj. unfold Edge, succ_of. destruct (adj !! i) as [ts|]; simpl.
    + split; [eauto|]. by intros (? & [= <-] & ?).
    + split; [by intros ?%elem_of_nil|]. by intros (? & ? & _).
  - apply Forall_forall. intros ts [i Hi]%list_elem_of_lookup. apply Forall_forall. intros j Hj.
    destruct (proj1 (Hadj i j)) as (ts' & Hts' & Hj'); [eauto|]. rewrite Hlen.
    rewrite Forall_forall in Ht. destruct (Ht ts' ltac:(by eapply list_elem_of_lookup_2)) as [_ Hb].
    rewrite Forall_forall in Hb. by apply Hb.
Qed.

(** What the source promises of a component list over nodes [ns] and edge relation [R]. *)
Record scc_result (R : A -> A -> Prop) (ns : list A) (cs : list (list A)) : Prop := {
  S_nodup : NoDup (concat cs);
  S_nodes : forall a, a ∈ concat cs <-> a ∈ ns;
  S_classes : forall c a, c ∈ cs -> a ∈ c -> forall b, b ∈ c <-> rtc R a b /\ rtc R b a;
  S_nonempty : [] ∉ cs;
  S_members : Forall (StronglySorted ord_lt) cs;
  S_order : StronglySorted ord_lt cs }.

Lemma reach_names (g : Graph A) adj i j a :
  (forall i j, Edge adj i j <-> index_edge g i j) -> graph_wf g ->
  nodes g !! i = Some a -> Reach adj i j -> exists b, nodes g !! j = Some b /\ rtc (has_edge g) a b.
Proof.
  intros HE Hwf Ha Hr. revert a Ha. induction Hr as [i|i k j Hik Hr IH]; intros a Ha; [eauto using rtc_refl|].
  apply HE in Hik as (ts & Hts & Hk). destruct Hwf as [_ _ Ht]. rewrite Forall_forall in Ht.
  destruct (Ht ts ltac:(by eapply list_elem_of_lookup_2)) as [_ Hb]. rewrite Forall_forall in Hb.
  destruct (lookup_lt_is_Some_2 _ _ (Hb k Hk)) as [c Hc]. destruct (IH c Hc) as (b & Hb' & Hcb).
  exists b. split; [done|]. eapply rtc_l; [|done]. exists i, k. split_and!; [done..|]. by exists ts.
Qed.

Lemma reach_indices (g : Graph A) adj i j a b :
  (forall i j, Edge adj i j <-> index_edge g i j) -> graph_wf g ->
  nodes g !! i = Some a -> nodes g !! j = Some b -> rtc (has_edge g) a b -> Reach adj i j.
Proof.
  intros HE [_ Hn _] Ha Hb Hr. revert i Ha. induction Hr as [a|a c b (i' & k & Hi' & Hk & Hik) Hr IH]; intros i Ha.
  - assert (i = j) as -> by (by eapply NoDup_lookup). reflexivity.
  - assert (i = i') as -> by (by eapply NoDup_lookup). eapply rtc_l; [by apply HE|]. by apply IH.
Qed.

Lemma elem_of_names (ns : list A) c a : a ∈ names ns c <-> exists v, v ∈ c /\ ns !! v = Some a.
Proof. apply list_elem_of_omap. Qed.

Lemma names_nodup (ns : list A) c : NoDup ns -> NoDup c -> NoDup (names ns c).
Proof.
  intros Hn Hc. induction Hc as [|v c Hv Hc IH]; [constructor|]. unfold names in *. csimpl.
  destruct (ns !! v) as [a|] eqn:Ha; [|done]. constructor; [|done].
  intros (w & Hw & Hwa)%list_elem_of_omap. assert (v = w) as -> by (by apply (NoDup_lookup ns v w a)). done.
Qed.

Lemma names_concat (ns : list A) cs : concat (names ns <$> cs) = names ns (concat cs).
Proof. induction cs as [|c cs IH]; csimpl; [done|]. rewrite IH. unfold names. by rewrite omap_app. Qed.

(** Sorted without repetition is strictly sorted. *)
Lemma sorted_nodup_lt {B} `{OrdLaws B} (l : list B) : NoDup l -> StronglySorted ord_lt (sort l).
Proof.
  intros Hl. pose proof (sort_sorted l) as Hs. rewrite <- (sort_perm l) in Hl.
  induction Hs as [|x k Hk IH Hx]; constructor.
  - apply IH. by apply NoDup_cons in Hl as [_ ?].
  - apply NoDup_cons in Hl as [Hx' _]. rewrite Forall_forall in *. intros y Hy.
    destruct (proj1 (ord_le_iff x y) (Hx y Hy)) as [| ->]; done.
Qed.

Lemma concat_fmap_sort (cs : list (list A)) : concat (sort <$> cs) ≡ₚ concat cs.
Proof. induction cs as [|c cs IH]; csimpl; [done|]. by rewrite IH, sort_perm. Qed.

Lemma concat_perm (cs cs' : list (list A)) : cs ≡ₚ cs' -> concat cs ≡ₚ concat cs'.
Proof.
  induction 1 as [|c cs cs' _ IH|c d cs|cs1 cs2 cs3 _ IH1 _ IH2]; simpl; [done|by rewrite IH| |by transitivity (concat cs2)].
  rewrite !app_assoc. by rewrite (Permutation_app_comm d c).
Qed.

Lemma concat_nodup_nodup (cs : list (list A)) : [] ∉ cs -> NoDup (concat cs) -> NoDup cs.
Proof.
  induction cs as [|c cs IH]; simpl; [constructor|]. rewrite not_elem_of_cons. intros [Hc He] Hn.
  apply NoDup_app in Hn as (_ & Hd & Hn). constructor; [|auto].
  intros Hin. destruct c as [|a c]; [done|]. apply (Hd a); [left|].
  apply elem_of_concat. exists (a :: c). split; [done|left].
Qed.

Lemma scc_result_of_comps (g : Graph A) adj comps :
  graph_wf g -> (forall i j, Edge adj i j <-> index_edge g i j) -> length adj = length (nodes g) ->
  Forall (is_scc adj) comps -> NoDup (concat comps) -> (forall v, v ∈ concat comps <-> v < length adj) ->
  scc_result (has_edge g) (nodes g) (sort (sort <$> (names (nodes g) <$> comps))).
Proof.
  intros Hwf HE Hl Hscc Hn Hin. pose proof (wf_nodup _ Hwf : NoDup (nodes g)) as Hns.
  set (cs := names (nodes g) <$> comps).
  assert (concat (sort (sort <$> cs)) ≡ₚ concat cs) as Hperm.
  { rewrite (concat_perm _ _ (sort_perm _)). apply concat_fmap_sort. }
  assert (NoDup (concat cs)) as Hncs by (unfold cs; rewrite names_concat; by apply names_nodup).
  assert ([] ∉ sort (sort <$> cs)) as Hne.
  { intros Hnil. unfold sort in Hnil at 1. apply elem_of_sort_by, list_elem_of_fmap in Hnil as (c & Hc & Hcs).
    apply list_elem_of_fmap in Hcs as (vs & -> & Hvs). rewrite Forall_forall in Hscc.
    destruct (Hscc vs Hvs) as [Hvne _]. destruct vs as [|v vs]; [done|].
    assert (v < length (nodes g)) as Hv.
    { rewrite <- Hl. apply Hin, elem_of_concat. exists (v :: vs). split; [done|left]. }
    destruct (lookup_lt_is_Some_2 _ _ Hv) as [a Ha].
    assert (a ∈ sort (names (nodes g) (v :: vs))) as Hbad.
    { rewrite sort_perm. apply elem_of_names. exists v. split; [left|done]. }
    rewrite <- Hc in Hbad. by apply elem_of_nil in Hbad. }
  split.
  - by rewrite Hperm.
  - intros a. rewrite Hperm. unfold cs. rewrite names_concat, elem_of_names. split.
    + intros (v & _ & Ha). by eapply list_elem_of_lookup_2.
    + intros [v Ha]%list_elem_of_lookup. exists v. split; [|done]. apply Hin. rewrite Hl. by eapply lookup_lt_Some.
  - intros c a Hc Ha b. unfold sort in Hc at 1.
    apply elem_of_sort_by, list_elem_of_fmap in Hc as (c0 & -> & (vs & -> & Hvs)%list_elem_of_fmap).
    rewrite sort_perm in Ha |- *. apply elem_of_names in Ha as (v & Hv & Ha). rewrite elem_of_names.
    rewrite Forall_forall in Hscc. destruct (Hscc vs Hvs) as [_ Hcls]. split.
    + intros (w & Hw & Hb). apply (Hcls v Hv w) in Hw as [Hvw Hwv].
      destruct (reach_names g adj v w a HE Hwf Ha Hvw) as (b' & Hb' & H1).
      destruct (reach_names g adj w v b HE Hwf Hb Hwv) as (a' & Ha' & H2). by simplify_eq.
    + intros [H1 H2]. assert (exists w, nodes g !! w = Some b) as [w Hw].
      { inversion H1 as [|? ? ? _ Hlast]; subst; [eauto|].
        apply rtc_inv_r in H1 as [->|(k & _ & (? & j & _ & Hj & _))]; eauto. }
      exists w. split; [|done]. apply (Hcls v Hv w). split; by eapply reach_indices.
  - done.
  - apply Forall_forall. intros c Hc. unfold sort in Hc at 1. apply elem_of_sort_by, list_elem_of_fmap in Hc as (c0 & -> & Hc0).
    apply sorted_nodup_lt. clear -Hncs Hc0. induction cs as [|d cs IH]; [by apply elem_of_nil in Hc0|].
    simpl in Hncs. apply NoDup_app in Hncs as (H1 & _ & H2). apply elem_of_cons in Hc0 as [->|?]; auto.
  - apply sorted_nodup_lt. apply concat_nodup_nodup.
    + intros Hnil. apply Hne. by rewrite sort_perm.
    + by rewrite concat_fmap_sort.
Qed.

Lemma scc_spec (g : Graph A) :
  graph_wf g -> (N.of_nat (node_count g) < usize_max)%N ->
  exists cs, strongly_connected_components g = Some cs /\ scc_result (has_edge g) (nodes g) cs.
Proof.
  intros Hwf Hfit. unfold strongly_connected_components, run.
  destruct (tarjan_new_spec g Hwf) as (t & adj & -> & Hr & Hl & HE & Hb). simpl.
  rewrite (R_nodes _ _ _ _ _ _ _ Hr).
  destruct (run_spec adj Hb (nodes g) ltac:(done) Hfit t Hr) as (t' & comps & -> & Hc & Hscc & Hn & Hin). simpl.
  eexists. split; [done|]. rewrite Hc. by apply (scc_result_of_comps g adj).
Qed.

Lemma rtc_mono (R R' : A -> A -> Prop) : (forall a b, R a b -> R' a b) -> forall a b, rtc R a b -> rtc R' a b.
Proof. intros HR. induction 1; eauto using rtc. Qed.

Lemma scc_result_sub R ns cs R' ns' cs' :
  (forall a b, rtc R a b <-> rtc R' a b) -> (forall a, a ∈ ns <-> a ∈ ns') ->
  scc_result R ns cs -> scc_result R' ns' cs' -> forall c, c ∈ cs -> c ∈ cs'.
Proof.
  intros Hrtc Hns H1 H2 c Hc. destruct c as [|a c]; [by destruct (S_nonempty _ _ _ H1)|].
  assert (a ∈ concat cs) as Ha by (apply elem_of_concat; exists (a :: c); split; [done|left]).
  apply (S_nodes _ _ _ H1), Hns, (S_nodes _ _ _ H2), elem_of_concat in Ha as (d & Hd & Had).
  assert (a :: c = d) as ->; [|done].
  pose proof (S_members _ _ _ H1) as Hm1. pose proof (S_members _ _ _ H2) as Hm2.
  rewrite Forall_forall in Hm1, Hm2.
  apply ord_lt_sorted_unique; [by apply Hm1|by apply Hm2|]. intros b.
  rewrite (S_classes _ _ _ H1 (a :: c) a Hc ltac:(left)), (S_classes _ _ _ H2 d a Hd Had).
  by rewrite !Hrtc.
Qed.

(** The promise leaves no freedom. *)
Lemma scc_result_unique R R' ns ns' cs cs' :
  (forall a b, R a b <-> R' a b) -> (forall a, a ∈ ns <-> a ∈ ns') ->
  scc_result R ns cs -> scc_result R' ns' cs' -> cs = cs'.
Proof.
  intros HR Hns H1 H2. apply ord_lt_sorted_unique; [apply H1|apply H2|].
  assert (forall a b, rtc R a b <-> rtc R' a b) as Hrtc
    by (intros a b; split; apply rtc_mono; intros; by apply HR).
  intros c. split; [by apply (scc_result_sub R ns cs R' ns')|].
  apply (scc_result_sub R' ns' cs' R ns); [|done..]. intros. by rewrite Hrtc.
Qed.

End identities.

(** ** Properties *)

Section properties.
Context {A : Type} `{OrdLaws A} `{!EqDecision A}.

(** The edge relation of an edge list. *)
Definition edge_in (es : list (A * A)) (a b : A) : Prop := (a, b) ∈ es.

Lemma has_edge_edge_in es a b : has_edge (from_edges es) a b <-> edge_in es a b.
Proof. apply from_edges_spec. Qed.

Lemma scc_from_edges es :
  (N.of_nat (node_count (from_edges es)) < usize_max)%N ->
  exists cs, strongly_connected_components (from_edges es) = Some cs /\
    scc_result (edge_in es) (nodes (from_edges es)) cs.
Proof.
  intros Hfit. destruct (scc_spec _ (proj1 (from_edges_spec es)) Hfit) as (cs & E & []).
  exists cs. split; [done|]. split; try done. intros c a Hc Ha b. rewrite (S_classes0 c a Hc Ha b).
  assert (forall x y, rtc (has_edge (from_edges es)) x y <-> rtc (edge_in es) x y) as E2.
  { intros x y. split; apply rtc_mono; intros; by apply has_edge_edge_in. }
  by rewrite !E2.
Qed.

(** The cyclic components; the import graph's cycles are read from this. *)
Lemma cycles_from_edges (es : list (A * A)) :
  (N.of_nat (node_count (from_edges es)) < usize_max)%N ->
  exists cs, cycles (from_edges es) = Some cs /\
    (forall a, a ∈ concat cs <-> tc (edge_in es) a a) /\
    (forall c a, c ∈ cs -> a ∈ c -> forall b, b ∈ c <-> rtc (edge_in es) a b /\ rtc (edge_in es) b a).
Proof.
  intros Hfit. unfold cycles. destruct (scc_from_edges es Hfit) as (cs & -> & Hr). simpl.
  eexists. split; [done|]. split.
  2: { intros c a [_ Hc]%list_elem_of_filter Ha. by apply (S_classes _ _ _ Hr). }
  intros a. rewrite elem_of_concat. split.
  - intros (c & [Hcyc Hc]%list_elem_of_filter & Ha). unfold is_cycle in Hcyc.
    pose proof (S_classes _ _ _ Hr c a Hc Ha) as Hcls.
    destruct c as [|x [|y c]]; [by apply elem_of_nil in Ha| |].
    + apply list_elem_of_singleton in Ha as ->. apply tc_once.
      apply contains_edge_spec, has_edge_edge_in in Hcyc; [done|apply from_edges_spec].
    + assert (exists b, b <> a /\ b ∈ x :: y :: c) as (b & Hne & Hb).
      { pose proof (S_members _ _ _ Hr) as Hm. rewrite Forall_forall in Hm.
        specialize (Hm _ Hc). apply ord_lt_sorted_nodup, NoDup_cons in Hm as [Hxy _].
        rewrite not_elem_of_cons in Hxy. destruct (decide (x = a)) as [->|]; [exists y|exists x].
        - split; [naive_solver|right; left].
        - split; [done|left]. }
      apply Hcls in Hb as [Hab Hba]. apply rtc_tc in Hab as [->|Hab]; [done|]. by eapply tc_rtc_r.
  - intros Ht. assert (exists b, edge_in es a b /\ rtc (edge_in es) b a) as (b & Hab & Hba).
    { inversion Ht as [? ? Hone|? b ? Hone Hrest]; subst; [by exists a|]. exists b. split; [done|]. by apply tc_rtc. }
    assert (a ∈ concat cs) as Hin.
    { apply (S_nodes _ _ _ Hr), (from_edges_spec es). exists (a, b). auto. }
    apply elem_of_concat in Hin as (c & Hc & Ha). exists c. split; [|done]. apply list_elem_of_filter. split; [|done].
    pose proof (S_classes _ _ _ Hr c a Hc Ha) as Hcls.
    destruct c as [|x [|y c]]; [by apply elem_of_nil in Ha| |done]. simpl.
    apply list_elem_of_singleton in Ha as ->.
    assert (b = x) as -> by (apply list_elem_of_singleton, Hcls; split; [by apply rtc_once|done]).
    apply contains_edge_spec; [apply from_edges_spec|]. by apply has_edge_edge_in.
Qed.

(** C1: Tarjan's iterative walk is correct: on any graph built from edges it never indexes out of
    range, never pops an empty stack and terminates, and its result lists every node exactly
    once, groups exactly the mutually reachable nodes, with each component and the list of
    components strictly sorted. *)
Theorem scc_exact (es : list (A * A)) :
  (N.of_nat (node_count (from_edges es)) < usize_max)%N ->
  exists cs, strongly_connected_components (from_edges es) = Some cs /\
    NoDup (concat cs) /\
    (forall a, a ∈ concat cs <-> a ∈ nodes (from_edges es)) /\
    (forall c a, c ∈ cs -> a ∈ c -> forall b, b ∈ c <-> rtc (edge_in es) a b /\ rtc (edge_in es) b a) /\
    ([] ∉ cs) /\ Forall (StronglySorted ord_lt) cs /\ StronglySorted ord_lt cs.
Proof.
  intros Hfit. destruct (scc_from_edges es Hfit) as (cs & E & []). exists cs. by split_and!.
Qed.

(** The result is identical no matter what order (or multiplicity) the edges were built in. *)
Theorem scc_order_independent (es es' : list (A * A)) :
  (N.of_nat (node_count (from_edges es)) < usize_max)%N ->
  (N.of_nat (node_count (from_edges es')) < usize_max)%N ->
  (forall e, e ∈ es <-> e ∈ es') ->
  strongly_connected_components (from_edges es) = strongly_connected_components (from_edges es').
Proof.
  intros Hf Hf' He. destruct (scc_from_edges es Hf) as (cs & -> & H1).
  destruct (scc_from_edges es' Hf') as (cs' & -> & H2). f_equal.
  eapply scc_result_unique; [| |exact H1|exact H2].
  - intros a b. apply He.
  - intros a. rewrite !(proj1 (proj2 (from_edges_spec _))). unfold endpoint. by setoid_rewrite He.
Qed.

(** [cycles] keeps exactly the components that contain a cycle: a node is listed if and only
    if a non-empty path leads from it back to itself, and each listed component is the whole
    strongly connected component of its members. *)
Theorem cycles_exact (es : list (A * A)) :
  (N.of_nat (node_count (from_edges es)) < usize_max)%N ->
  exists cs, cycles (from_edges es) = Some cs /\
    (forall a, a ∈ concat cs <-> tc (edge_in es) a a) /\
    (forall c a, c ∈ cs -> a ∈ c -> forall b, b ∈ c <-> rtc (edge_in es) a b /\ rtc (edge_in es) b a).
Proof. apply cycles_from_edges. Qed.

End properties.

(** ** Witnesses *)

Lemma scc_exact_witness :
  (N.of_nat (node_count (from_edges five_edges)) < usize_max)%N /\
  exists cs, strongly_connected_components (from_edges five_edges) = Some cs /\ NoDup (concat cs).
Proof.
  assert (N.of_nat (node_count (from_edges five_edges)) < usize_max)%N as Hf by compute_done.
  split; [exact Hf|]. destruct (scc_exact five_edges Hf) as (cs & E & Hn & _). exists cs. exact (conj E Hn).
Defined.

Lemma scc_order_independent_witness :
  strongly_connected_components (from_edges [(0, 1); (1, 0); (2, 1)]) =
  strongly_connected_components (from_edges [(2, 1); (1, 0); (0, 1); (1, 0)]).
Proof.
  apply scc_order_independent; [compute_done|compute_done|].
  intros e. rewrite !elem_of_cons. naive_solver.
Defined.

Lemma cycles_exact_witness : exists cs, cycles (from_edges five_edges) = Some cs /\ 4 ∈ concat cs.
Proof.
  destruct (cycles_exact five_edges ltac:(compute_done)) as (cs & E & Hin & _).
  exists cs. split; [exact E|]. apply Hin. apply tc_once. apply (list_elem_of_lookup_2 _ 5). reflexivity.
Defined.
