(* ===== verification/Skeleton.v ===== *)
(** * Skeleton: a source file reduced to its declarations

    Models [crates/ktsense-core/src/skeleton.rs]: the declaration tree every other part of
    the core reads, and the questions it answers about itself. Record fields carry the
    source's names behind a prefix ([d_] for a declaration, [fs_] for a file skeleton). *)
From S2P Require Import Prelude Collections.

Set Default Proof Using "Type*".

(** [MAX_NESTING_DEPTH]. *)
Definition MAX_NESTING_DEPTH : nat := 64.

Inductive DeclKind :=
  | Class_ | Interface | Object | Function_ | Val | Var | TypeAlias | EnumEntry | Constructor_.
Inductive Visibility := Public | Internal | Protected | Private.
Inductive Modifier :=
  | Expect | Actual | Final | Open | Abstract | Sealed | Const | External | Override | Lateinit
  | Tailrec | Vararg | Suspend | Inner | Enum | Annotation | Fun | Companion | Inline | Value
  | Infix_ | Operator | Data.

#[export] Instance DeclKind_eq_dec : EqDecision DeclKind.
Proof. solve_decision. Defined.
#[export] Instance Visibility_eq_dec : EqDecision Visibility.
Proof. solve_decision. Defined.
#[export] Instance Modifier_eq_dec : EqDecision Modifier.
Proof. solve_decision. Defined.

Record ParameterProperty := mkProperty { pp_visibility : Visibility; pp_mutable : bool }.
Record Parameter_ := mkParameter {
  p_name : str;
  p_type_name : str;
  p_default : option str;
  p_property : option ParameterProperty;
  p_vararg : bool }.
Record NamedProperty := mkNamed { np_name : str; np_type_name : str }.

Inductive Declaration := mkDecl {
  d_kind : DeclKind;
  d_name : str;
  d_receiver : option str;
  d_line : N;
  d_visibility : Visibility;
  d_annotations : list str;
  d_modifiers : list Modifier;
  d_type_parameters : option str;
  d_parameters : list Parameter_;
  d_constructor_visibility : option Visibility;
  d_return_type : option str;
  d_type_inferred : bool;
  d_supertypes : list str;
  d_type_constraints : option str;
  d_doc : option str;
  d_children : list Declaration }.

Record FileSkeleton := mkFile {
  fs_path : str;
  fs_package : option str;
  fs_imports : list str;
  fs_declarations : list Declaration;
  fs_truncated : bool;
  fs_partial : bool }.

#[export] Instance ParameterProperty_eq_dec : EqDecision ParameterProperty.
Proof. solve_decision. Defined.
#[export] Instance Parameter_eq_dec : EqDecision Parameter_.
Proof. solve_decision. Defined.

(** ** Enumerations *)

(** [DeclKind::keyword], [takes_parentheses], [type_parameters_precede_name]. *)
Definition decl_keyword (k : DeclKind) : str :=
  match k with
  | Class_ => lit "class" | Interface => lit "interface" | Object => lit "object"
  | Function_ => lit "fun" | Val => lit "val" | Var => lit "var" | TypeAlias => lit "typealias"
  | Constructor_ => [] | EnumEntry => []
  end.
Definition takes_parentheses (k : DeclKind) : bool :=
  match k with Function_ | Constructor_ => true | _ => false end.
Definition type_parameters_precede_name (k : DeclKind) : bool :=
  match k with Function_ | Constructor_ => true | _ => false end.

(** [Visibility::is_public], [Visibility::keyword]. *)
Definition is_public (v : Visibility) : bool := match v with Public => true | _ => false end.
Definition visibility_keyword (v : Visibility) : str :=
  match v with
  | Public => [] | Internal => lit "internal" | Protected => lit "protected" | Private => lit "private"
  end.

(** [Modifier::keyword] and the derived [Ord]: variant order. *)
Definition modifier_keyword (m : Modifier) : str :=
  match m with
  | Expect => lit "expect" | Actual => lit "actual" | Final => lit "final" | Open => lit "open"
  | Abstract => lit "abstract" | Sealed => lit "sealed" | Const => lit "const"
  | External => lit "external" | Override => lit "override" | Lateinit => lit "lateinit"
  | Tailrec => lit "tailrec" | Vararg => lit "vararg" | Suspend => lit "suspend"
  | Inner => lit "inner" | Enum => lit "enum" | Annotation => lit "annotation" | Fun => lit "fun"
  | Companion => lit "companion" | Inline => lit "inline" | Value => lit "value"
  | Infix_ => lit "infix" | Operator => lit "operator" | Data => lit "data"
  end.
Definition modifier_index (m : Modifier) : nat :=
  match m with
  | Expect => 0 | Actual => 1 | Final => 2 | Open => 3 | Abstract => 4 | Sealed => 5 | Const => 6
  | External => 7 | Override => 8 | Lateinit => 9 | Tailrec => 10 | Vararg => 11 | Suspend => 12
  | Inner => 13 | Enum => 14 | Annotation => 15 | Fun => 16 | Companion => 17 | Inline => 18
  | Value => 19 | Infix_ => 20 | Operator => 21 | Data => 22
  end.
#[export] Instance ord_modifier : Ord Modifier := cmp_on modifier_index.

(** ** Declarations *)

(** [Declaration::new]. *)
Definition declaration_new (kind : DeclKind) (name : str) (line : N) : Declaration :=
  mkDecl kind name None line Public [] [] None [] None None false [] None None [].

Definition is_annotation_class (d : Declaration) : bool :=
  bool_decide (d_kind d = Class_) && bool_decide (Annotation ∈ d_modifiers d).

Definition can_be_subtyped (d : Declaration) : bool :=
  negb (bool_decide (d_kind d = Class_))
  || existsb (fun m => match m with Open | Abstract | Sealed | Enum | Expect => true | _ => false end)
       (d_modifiers d).

Definition is_container (d : Declaration) : bool :=
  match d_kind d with Class_ | Interface | Object => true | _ => false end.

Definition enum_entries (d : Declaration) : list str :=
  if negb (bool_decide (d_kind d = Class_)) || negb (bool_decide (Enum ∈ d_modifiers d)) then []
  else d_name <$> filter (fun child => d_kind child = EnumEntry) (d_children d).

Definition data_class_properties (d : Declaration) : list NamedProperty :=
  if negb (bool_decide (d_kind d = Class_)) || negb (bool_decide (Data ∈ d_modifiers d)) then []
  else (fun p => mkNamed (p_name p) (p_type_name p))
       <$> filter (fun p => is_Some (p_property p)) (d_parameters d).

(** [with_visibility] and the assignment [member.return_type = Some(..)]. *)
Definition with_visibility (d : Declaration) (v : Visibility) : Declaration :=
  mkDecl (d_kind d) (d_name d) (d_receiver d) (d_line d) v (d_annotations d) (d_modifiers d)
    (d_type_parameters d) (d_parameters d) (d_constructor_visibility d) (d_return_type d)
    (d_type_inferred d) (d_supertypes d) (d_type_constraints d) (d_doc d) (d_children d).
Definition returning (d : Declaration) (t : str) : Declaration :=
  mkDecl (d_kind d) (d_name d) (d_receiver d) (d_line d) (d_visibility d) (d_annotations d)
    (d_modifiers d) (d_type_parameters d) (d_parameters d) (d_constructor_visibility d) (Some t)
    (d_type_inferred d) (d_supertypes d) (d_type_constraints d) (d_doc d) (d_children d).

Definition constructor_properties (d : Declaration) : list Declaration :=
  omap (fun p =>
    property ← p_property p;
    let kind := if pp_mutable property then Var else Val in
    let member := with_visibility (declaration_new kind (p_name p) (d_line d)) (pp_visibility property) in
    Some (if bool_decide (p_type_name p = []) then member else returning member (p_type_name p)))
  (d_parameters d).

(** ** Files *)

(** [FileSkeleton::new]. *)
Definition file_new (path : str) : FileSkeleton := mkFile path None [] [] false false.

Definition file_is_empty (f : FileSkeleton) : bool :=
  bool_decide (fs_package f = None) && bool_decide (fs_imports f = [])
  && match fs_declarations f with [] => true | _ => false end.

(** The recursive [count] of [declaration_count]. *)
Fixpoint count_declaration (d : Declaration) : nat :=
  1 + (fix count (ds : list Declaration) : nat :=
         match ds with [] => 0 | d' :: ds' => count_declaration d' + count ds' end) (d_children d).
Definition count_declarations (ds : list Declaration) : nat := sum_list (count_declaration <$> ds).
Definition declaration_count (f : FileSkeleton) : nat := count_declarations (fs_declarations f).

(** The recursive [strip] of [without_annotations]. *)
Fixpoint strip_annotations (d : Declaration) : Declaration :=
  match d with
  | mkDecl k n r l v _ ms tp ps cv rt ti sts tc doc children =>
      mkDecl k n r l v [] ms tp ps cv rt ti sts tc doc
        ((fix strip (ds : list Declaration) : list Declaration :=
            match ds with [] => [] | d' :: ds' => strip_annotations d' :: strip ds' end) children)
  end.
Definition without_annotations (f : FileSkeleton) : FileSkeleton :=
  mkFile (fs_path f) (fs_package f) (fs_imports f) (strip_annotations <$> fs_declarations f)
    (fs_truncated f) (fs_partial f).

(** ** The tree as a whole *)

(** Every declaration, outermost first, in source order: what a reader of the file would list. *)
Fixpoint flatten (d : Declaration) : list Declaration :=
  d :: (fix go (ds : list Declaration) : list Declaration :=
          match ds with [] => [] | d' :: ds' => flatten d' ++ go ds' end) (d_children d).
Definition all_declarations (f : FileSkeleton) : list Declaration :=
  concat (flatten <$> fs_declarations f).

(** Everything a declaration says except its annotations and its children. *)
Definition signature_of (d : Declaration) :=
  (d_kind d, d_name d, d_receiver d, d_line d, d_visibility d, d_modifiers d,
   (d_type_parameters d, d_parameters d, d_constructor_visibility d, d_return_type d),
   (d_type_inferred d, d_supertypes d, d_type_constraints d, d_doc d)).

Section declaration_ind.
Variable P : Declaration -> Prop.
Hypothesis step : forall d, Forall P (d_children d) -> P d.

Fixpoint declaration_ind' (d : Declaration) : P d :=
  step d
    ((fix go (ds : list Declaration) : Forall P ds :=
        match ds with
        | [] => Forall_nil_2 P
        | d' :: ds' => Forall_cons_2 P d' ds' (declaration_ind' d') (go ds')
        end) (d_children d)).
End declaration_ind.

(** Unfoldings through [fmap], which proofs rewrite with. *)
Lemma count_declaration_eq d : count_declaration d = S (count_declarations (d_children d)).
Proof.
  destruct d as [? ? ? ? ? ? ? ? ? ? ? ? ? ? ? children]. simpl. f_equal. unfold count_declarations.
  by induction children as [|d ds IH]; csimpl; [|rewrite IH].
Qed.

Lemma strip_annotations_children d : d_children (strip_annotations d) = strip_annotations <$> d_children d.
Proof.
  destruct d as [? ? ? ? ? ? ? ? ? ? ? ? ? ? ? children]. simpl.
  by induction children as [|d ds IH]; csimpl; [|rewrite IH].
Qed.

Lemma flatten_eq d : flatten d = d :: concat (flatten <$> d_children d).
Proof.
  destruct d as [? ? ? ? ? ? ? ? ? ? ? ? ? ? ? children]. simpl. f_equal.
  by induction children as [|d ds IH]; csimpl; [|rewrite IH].
Qed.

#[export] Instance ord_modifier_laws : OrdLaws Modifier.
Proof.
  assert (forall x y, modifier_index x = modifier_index y -> x = y) as Hinj by by intros [] [].
  split; unfold cmp, ord_modifier, cmp_on.
  - intros x y. rewrite cmp_eq_iff. split; [auto|by intros ->].
  - intros. apply cmp_opp.
  - intros x y z. apply cmp_lt_trans.
Qed.

Lemma count_flatten d : count_declaration d = length (flatten d).
Proof.
  induction d as [d IH] using declaration_ind'. rewrite count_declaration_eq, flatten_eq. simpl. f_equal.
  unfold count_declarations. rewrite length_concat_sum. induction IH as [|d' ds Hd _ IH]; csimpl; [done|].
  by rewrite Hd, IH.
Qed.

Lemma strip_signature d : signature_of (strip_annotations d) = signature_of d.
Proof. by destruct d. Qed.

Lemma strip_flatten d : flatten (strip_annotations d) = strip_annotations <$> flatten d.
Proof.
  induction d as [d IH] using declaration_ind'.
  rewrite flatten_eq, strip_annotations_children, (flatten_eq d), fmap_cons. f_equal.
  induction IH as [|d' ds Hd _ IH]; csimpl; [done|]. by rewrite fmap_app, Hd, IH.
Qed.

(** ** Properties *)

(** [without_annotations] clears the annotations of every declaration at every depth and
    changes nothing else: the declarations listed outermost first are the same, in the same order,
    with the same signatures, their number is the reported [declaration_count], and clearing
    twice is clearing once. *)
Theorem without_annotations_exact (f : FileSkeleton) :
  let g := without_annotations f in
  signature_of <$> all_declarations g = signature_of <$> all_declarations f /\
  Forall (fun d => d_annotations d = []) (all_declarations g) /\
  declaration_count f = length (all_declarations f) /\
  declaration_count g = declaration_count f /\
  without_annotations g = g.
Proof.
  assert (all_declarations (without_annotations f) = strip_annotations <$> all_declarations f) as Hall.
  { unfold all_declarations. simpl. induction (fs_declarations f) as [|d ds IH]; csimpl; [done|].
    by rewrite strip_flatten, fmap_app, IH. }
  assert (forall f, declaration_count f = length (all_declarations f)) as Hcount.
  { clear. intros f. unfold declaration_count, count_declarations, all_declarations.
    rewrite length_concat_sum, <- list_fmap_compose. f_equal. apply list_fmap_ext.
    intros; apply count_flatten. }
  assert (forall d, strip_annotations (strip_annotations d) = strip_annotations d) as Hidem.
  { intros d. induction d as [d IH] using declaration_ind'. destruct d as [? ? ? ? ? ? ? ? ? ? ? ? ? ? ? children].
    simpl in *. f_equal. induction IH as [|d' ds Hd _ IH]; [done|]. by rewrite Hd, IH. }
  simpl. split_and!.
  - rewrite Hall, <- list_fmap_compose. apply list_fmap_ext. intros; apply strip_signature.
  - rewrite Hall. apply Forall_fmap, Forall_forall. by intros [].
  - apply Hcount.
  - by rewrite !Hcount, Hall, length_fmap.
  - unfold without_annotations. simpl. f_equal. rewrite <- list_fmap_compose.
    apply list_fmap_ext. intros; apply Hidem.
Qed.

(** The two views of a data class's primary constructor agree: the [val]/[var] members listed
    for a name search are, name by name and type by type, the properties of the member summary. *)
Theorem constructor_properties_agree (d : Declaration) :
  d_kind d = Class_ -> Data ∈ d_modifiers d ->
  (fun m => mkNamed (d_name m) (default [] (d_return_type m))) <$> constructor_properties d
    = data_class_properties d /\
  Forall (fun m => (d_kind m = Val \/ d_kind m = Var) /\ d_line m = d_line d /\ d_children m = [])
    (constructor_properties d).
Proof.
  intros Hk Hd. unfold data_class_properties, constructor_properties.
  rewrite !bool_decide_eq_true_2 by done. simpl. split.
  - induction (d_parameters d) as [|p ps IH]; [done|]. rewrite filter_cons. csimpl.
    destruct (p_property p) as [pp|] eqn:Hp; csimpl; [|done].
    rewrite IH. f_equal. by case_bool_decide as Ht; [rewrite Ht|].
  - apply Forall_forall. intros m (p & _ & Hm)%list_elem_of_omap.
    destruct (p_property p) as [pp|]; simpl in Hm; [|done].
    destruct (pp_mutable pp); case_bool_decide; simplify_eq/=; auto.
Qed.

(** ** Witnesses *)

Definition data_point : Declaration :=
  mkDecl Class_ (lit "Point") None 3 Public [] [Data] None
    [mkParameter (lit "x") (lit "Int") None (Some (mkProperty Public false)) false;
     mkParameter (lit "seed") (lit "Long") None None false;
     mkParameter (lit "y") (lit "Int") None (Some (mkProperty Private true)) false]
    None None false [] None None [].

Lemma constructor_properties_agree_witness :
  d_kind data_point = Class_ /\
  (fun m => mkNamed (d_name m) (default [] (d_return_type m))) <$> constructor_properties data_point
    = data_class_properties data_point.
Proof. split; [reflexivity|]. apply (constructor_properties_agree data_point); [reflexivity|left]. Defined.
