(* ===== verification/References.v ===== *)
(** * References: reference sites, their enclosing declarations, and the site filter

    Models [crates/ktsense-core/src/references.rs] and [filter.rs]. A declaration's end is
    recovered from its next sibling, so the loops over siblings are written as [scan] over the
    remaining ones. [debug_assert!] is compiled out of a release build and is not modelled;
    what it checks appears as the hypothesis [in_source_order] of the theorems. *)
From S2P Require Import Prelude Collections Skeleton.

Set Default Proof Using "Type*".

(** ** Sites *)

Inductive SiteKind := Code | Comment | Kdoc | String_ | DeclarationName.
#[export] Instance SiteKind_eq_dec : EqDecision SiteKind.
Proof. solve_decision. Defined.

Definition is_code (k : SiteKind) : bool := match k with Code => true | _ => false end.
Definition is_text_mention (k : SiteKind) : bool :=
  match k with Comment | Kdoc | String_ => true | _ => false end.

Record Location := mkLocation {
  l_path : str;
  l_line : N;
  l_column : option N;
  l_kind : SiteKind }.

Definition is_separator (c : char) : bool := ((c =? ch "/") || (c =? ch "\"))%N.
Definition NAMED_SOURCE_SETS : list str :=
  [lit "test"; lit "androidTest"; lit "testFixtures"; lit "commonTest"; lit "jvmTest"].
Definition is_test_segment (segment : str) : bool :=
  bool_decide (segment ∈ NAMED_SOURCE_SETS) || ends_with segment (lit "Test").
Definition is_test_source (path : str) : bool :=
  let segments := filter (fun segment => segment ≠ []) (split_by is_separator path) in
  let file := default path (last (split_by is_separator path)) in
  if ends_with file (lit "Test.kt") || ends_with file (lit "Tests.kt") || ends_with file (lit "Spec.kt") then true
  else existsb is_test_segment segments.

(** ** The site filter *)

Inductive TestScope := AllScope | TestsScope | ProductionScope.
#[export] Instance TestScope_eq_dec : EqDecision TestScope.
Proof. solve_decision. Defined.

Definition from_flags (tests no_tests : bool) : TestScope :=
  match tests, no_tests with
  | true, _ => TestsScope
  | _, true => ProductionScope
  | _, _ => AllScope
  end.
Definition is_all (s : TestScope) : bool := match s with AllScope => true | _ => false end.
Definition admits (s : TestScope) (is_test : bool) : bool :=
  match s with AllScope => true | TestsScope => is_test | ProductionScope => negb is_test end.

Record SiteFilter := mkFilter { f_path : list str; f_tests : TestScope }.

Definition filter_new (path : list str) (tests : TestScope) : option SiteFilter :=
  if negb (bool_decide (path = [])) || negb (is_all tests) then Some (mkFilter path tests) else None.
Definition matches_path_prefix (f : SiteFilter) (path : str) : bool :=
  bool_decide (f_path f = []) || existsb (fun prefix => starts_with path prefix) (f_path f).
Definition matches (f : SiteFilter) (path : str) (is_test : bool) : bool :=
  matches_path_prefix f path && admits (f_tests f) is_test.
Definition matches_path (f : SiteFilter) (path : str) : bool := matches f path (is_test_source path).
Definition describe (f : SiteFilter) : str :=
  let path := if bool_decide (f_path f = []) then None
              else Some (lit "under " ++ join (lit ", ") (f_path f)) in
  let tests := match f_tests f with
               | AllScope => None
               | TestsScope => Some (lit "in tests")
               | ProductionScope => Some (lit "in production")
               end in
  match path, tests with
  | Some path, Some tests => path ++ lit " " ++ tests
  | Some path, None => path
  | None, Some tests => tests
  | None, None => []
  end.

(** ** Enclosing declarations *)

(** [span_end]: [rest] are the siblings after the one asked about. *)
Definition span_end (rest : list Declaration) (parent_end : option N) : option N :=
  match rest with
  | next :: _ => Some (N.pred (d_line next))
  | [] => parent_end
  end.

(** [declaration.line <= line && span_end.is_none_or(|end| line <= end)]. *)
Definition covers (d : Declaration) (line : N) (e : option N) : bool :=
  (d_line d <=? line)%N && match e with None => true | Some e => (line <=? e)%N end.

(** The loop both walks share: the first sibling that covers the line answers, unless its answer
    is [None], which moves on. *)
Section scan.
Context {B : Type} (answer : Declaration -> option N -> option B).
Fixpoint scan (siblings : list Declaration) (line : N) (parent_end : option N) : option B :=
  match siblings with
  | [] => None
  | d :: rest =>
      let e := span_end rest parent_end in
      if covers d line e then
        match answer d e with Some b => Some b | None => scan rest line parent_end end
      else scan rest line parent_end
  end.
End scan.

(** [enclosing_chain], split at its recursion into the children of a covering declaration. *)
Fixpoint chain_at (line : N) (d : Declaration) (e : option N) : list Declaration :=
  d :: default [] (scan (fun child e => Some (chain_at line child e)) (d_children d) line e).
Definition enclosing_chain (siblings : list Declaration) (line : N) (parent_end : option N) : list Declaration :=
  default [] (scan (fun child e => Some (chain_at line child e)) siblings line parent_end).

Record EnclosingDeclaration := mkEnclosing { e_kind : DeclKind; e_qualified_name : str; e_line : N }.

(** [EnclosingDeclaration::from_chain]; the chain is not empty. *)
Definition from_chain (chain : list Declaration) : option EnclosingDeclaration :=
  innermost ← last chain;
  Some (mkEnclosing (d_kind innermost)
          (join (lit ".") (filter (fun name => name ≠ []) (d_name <$> chain))) (d_line innermost)).

Definition enclosing_declaration (skeleton : FileSkeleton) (line : N) : option EnclosingDeclaration :=
  from_chain (enclosing_chain (fs_declarations skeleton) line None).

Record QualifiedEnclosing := mkQualified { q_fqn : str; q_kind : DeclKind; q_line : N }.

Definition fully_qualified_enclosing (skeleton : FileSkeleton) (line : N) : option QualifiedEnclosing :=
  enclosing ← enclosing_declaration skeleton line;
  let fqn := match fs_package skeleton with
             | Some package =>
                 if bool_decide (e_qualified_name enclosing = []) then package
                 else package ++ lit "." ++ e_qualified_name enclosing
             | None => e_qualified_name enclosing
             end in
  Some (mkQualified fqn (e_kind enclosing) (e_line enclosing)).

Definition declaration_starting_at (skeleton : FileSkeleton) (line : N) : option Declaration :=
  snd <$> list_find (fun d => d_line d = line) (rev (enclosing_chain (fs_declarations skeleton) line None)).

Record DeclarationSpan := mkSpan { span_start : N; span_stop : option N }.

(** [span_at]: the answer of a covering declaration, after its children have been asked. *)
Fixpoint span_in (line : N) (d : Declaration) (e : option N) : option DeclarationSpan :=
  match scan (span_in line) (d_children d) line e with
  | Some inner => Some inner
  | None => if (d_line d =? line)%N then Some (mkSpan line e) else None
  end.
Definition span_at (siblings : list Declaration) (line : N) (parent_end : option N) : option DeclarationSpan :=
  scan (span_in line) siblings line parent_end.
Definition declaration_span_at (skeleton : FileSkeleton) (line : N) : option DeclarationSpan :=
  span_at (fs_declarations skeleton) line None.

(** ** Grouping *)

Record GroupingOptions := mkGrouping { limit : option nat; include_imports : bool }.

Record Reference_ := mkReference {
  r_line : N;
  r_column : option N;
  r_enclosing : option EnclosingDeclaration }.
Record ReferenceGroup := mkRefGroup { g_path : str; g_references : list Reference_; g_omitted : nat }.

(** [first_declaration_line]: the least line, as [Iterator::min]. *)
Definition first_declaration_line (skeleton : FileSkeleton) : option N :=
  match d_line <$> fs_declarations skeleton with
  | [] => None
  | l :: ls => Some (foldr N.min l ls)
  end.
Definition in_header (boundary : option N) (line : N) : bool :=
  match boundary with Some b => (line <? b)%N | None => false end.

Definition reference_at (skeleton : option FileSkeleton) (l : Location) : Reference_ :=
  mkReference (l_line l) (l_column l) (s ← skeleton; enclosing_declaration s (l_line l)).

(** [references.sort_by_key(|reference| (reference.line, reference.column))]. *)
Definition ref_key (r : Reference_) : N * option N := (r_line r, r_column r).

Definition capped_references (sites : list Location) (skeleton : option FileSkeleton) (options : GroupingOptions)
    : list Reference_ * nat :=
  let header_boundary := s ← skeleton; first_declaration_line s in
  let references :=
    sort_by_key ref_key
      (reference_at skeleton
       <$> filter (fun l => include_imports options || negb (in_header header_boundary (l_line l)) = true) sites) in
  cap_at (limit options) references.

Definition group_references (locations : list Location) (skeletons : list FileSkeleton) (options : GroupingOptions)
    : list ReferenceGroup :=
  let skeleton_by_path := bt_of_list ((fun s => (fs_path s, s)) <$> skeletons) in
  (fun '(path, sites) =>
     let '(references, omitted) := capped_references sites (bt_get path skeleton_by_path) options in
     mkRefGroup path references omitted)
  <$> bt_group l_path locations.

(** ** Lemmas *)

Definition line_le (d d' : Declaration) : Prop := (d_line d <= d_line d')%N.
Definition starts_by (line : N) (d : Declaration) : Prop := (d_line d <= line)%N.
#[export] Instance starts_by_dec line d : Decision (starts_by line d) := N.le_dec _ _.

(** What the extractor guarantees: outermost first, declarations come in ascending line order,
    and lines are 1-based. *)
Definition ordered (ds : list Declaration) : Prop :=
  StronglySorted line_le (concat (flatten <$> ds)) /\
  Forall (fun d => (1 <= d_line d)%N) (concat (flatten <$> ds)).
Definition in_source_order (f : FileSkeleton) : Prop := ordered (fs_declarations f).

(** A chain runs from a root to one of its descendants, child by child. *)
Fixpoint nested (siblings chain : list Declaration) : Prop :=
  match chain with
  | [] => True
  | d :: chain' => d ∈ siblings /\ nested (d_children d) chain'
  end.

Lemma ordered_cons d ds :
  ordered (d :: ds) ->
  ordered (d_children d) /\ ordered ds /\ (1 <= d_line d)%N /\
  Forall (line_le d) (concat (flatten <$> d_children d)) /\
  (forall x y, x ∈ flatten d -> y ∈ concat (flatten <$> ds) -> line_le x y).
Proof.
  unfold ordered. csimpl. intros [(Hd & Hs & Hs')%StronglySorted_app [Hp Hp']%Forall_app].
  rewrite flatten_eq in Hs, Hp. apply StronglySorted_inv in Hs as [Hs Hle]. apply Forall_cons in Hp as [Hp1 Hp].
  split_and!; done.
Qed.

Lemma filter_none {A} (P : A -> Prop) `{!∀ x, Decision (P x)} l : Forall (fun x => ~ P x) l -> filter P l = [].
Proof. induction 1 as [|x l Hx _ IH]; [done|]. by rewrite filter_cons_False. Qed.

(** Bounded above by the end a declaration inherits. *)
Definition within (line : N) (e : option N) : Prop := match e with None => True | Some e => (line <= e)%N end.

Lemma covers_within d line e : within line e -> covers d line e = true <-> starts_by line d.
Proof.
  unfold covers, starts_by, within. destruct e; rewrite andb_true_iff, !N.leb_le; intuition.
Qed.

Lemma last_app_filter {A} (P : A -> Prop) `{!∀ x, Decision (P x)} (l k : list A) :
  filter P k <> [] -> last (filter P (l ++ k)) = last (filter P k).
Proof.
  intros Hk. rewrite filter_app, last_app. destruct (last (filter P k)) eqn:E; [done|].
  by apply last_None in E.
Qed.

(** The first covering sibling's chain ends at the last declaration started by the line. *)
Lemma scan_last (line : N) (ds : list Declaration) e :
  (forall d e, d ∈ ds -> ordered (d_children d) -> Forall (line_le d) (concat (flatten <$> d_children d)) ->
     starts_by line d -> within line e ->
     last (chain_at line d e) = last (filter (starts_by line) (flatten d))) ->
  ordered ds -> within line e ->
  last (enclosing_chain ds line e) = last (filter (starts_by line) (concat (flatten <$> ds))).
Proof.
  unfold enclosing_chain. induction ds as [|d ds IH]; intros Hd Ho Hw; [done|].
  destruct (ordered_cons d ds Ho) as (Hoc & Hods & H1 & Hsub & Hcross). rewrite fmap_cons. cbn [scan concat].
  destruct (covers d line (span_end ds e)) eqn:Hc; simpl.
  - assert (starts_by line d) as Hs by (unfold covers, starts_by in *; apply andb_true_iff in Hc as [? _]; by apply N.leb_le).
    assert (filter (starts_by line) (concat (flatten <$> ds)) = []) as Hnone.
    { apply filter_none. destruct ds as [|next ds]; [by constructor|]. apply Forall_forall. intros y Hy Hsy.
      unfold covers in Hc. apply andb_true_iff in Hc as [_ Hc]. cbn in Hc. apply N.leb_le in Hc.
      destruct (ordered_cons next ds Hods) as (_ & _ & Hn1 & Hnsub & Hncross).
      assert (line_le next y) as Hny.
      { csimpl in *. rewrite flatten_eq in Hy. apply elem_of_app in Hy as [Hy|Hy].
        - apply elem_of_cons in Hy as [->|Hy]; [unfold line_le; lia|]. rewrite Forall_forall in Hnsub. auto.
        - apply Hncross; [rewrite flatten_eq; left|done]. }
      unfold line_le, starts_by in *. lia. }
    rewrite filter_app, Hnone, app_nil_r. apply Hd; try done; [left|].
    unfold covers in Hc. apply andb_true_iff in Hc as [_ Hc]. unfold within. destruct (span_end ds e); [by apply N.leb_le|done].
  - rewrite IH; [|intros; apply Hd; try done; by right|done|done].
    destruct (decide (starts_by line d)) as [Hs|Hs].
    + symmetry. apply last_app_filter. destruct ds as [|next ds].
      { simpl in Hc. apply (covers_within d line e) in Hw. rewrite Hc in Hw. by apply Hw in Hs. }
      csimpl. rewrite flatten_eq. cbn [app]. rewrite filter_cons_True; [done|].
      unfold covers in Hc. cbn in Hc. unfold starts_by in *. apply N.leb_le in Hs. rewrite Hs in Hc.
      simpl in Hc. apply N.leb_gt in Hc. lia.
    + rewrite filter_app, (filter_none _ (flatten d)); [done|].
      rewrite flatten_eq. constructor; [done|]. eapply Forall_impl; [exact Hsub|].
      unfold line_le, starts_by in *. intros; simpl in *; lia.
Qed.

Lemma chain_at_last (line : N) d : forall e,
  ordered (d_children d) -> Forall (line_le d) (concat (flatten <$> d_children d)) ->
  starts_by line d -> within line e ->
  last (chain_at line d e) = last (filter (starts_by line) (flatten d)).
Proof.
  induction d as [d IH] using declaration_ind'. intros e Ho Hle Hs Hw.
  rewrite flatten_eq, filter_cons_True by done.
  replace (chain_at line d e) with (d :: enclosing_chain (d_children d) line e) by by destruct d.
  rewrite !last_cons, scan_last; [done| |done|done].
  intros d' e' Hd'. rewrite Forall_forall in IH. by apply IH.
Qed.

Lemma scan_nested (line : N) (ds : list Declaration) e :
  Forall (fun d => forall e, nested (d_children d) (enclosing_chain (d_children d) line e)) ds ->
  nested ds (enclosing_chain ds line e).
Proof.
  unfold enclosing_chain at 2. intros Hds. induction Hds as [|d ds Hd Hds IH]; [done|]. simpl scan.
  destruct (covers d line (span_end ds e)); simpl.
  - replace (chain_at line d (span_end ds e)) with (d :: enclosing_chain (d_children d) line (span_end ds e)) by by destruct d.
    split; [left|done].
  - destruct (scan _ ds line e) as [chain|]; simpl in *; [|done].
    destruct chain as [|x chain]; [done|]. destruct IH as [Hx IH]. split; [by right|done].
Qed.

Lemma enclosing_chain_nested (line : N) (ds : list Declaration) e : nested ds (enclosing_chain ds line e).
Proof.
  apply scan_nested, Forall_forall. intros d _. induction d as [d IH] using declaration_ind'.
  intros e'. by apply scan_nested.
Qed.

(** ** Properties *)

(** Enclosure is innermost: when declarations are stored in source order, the declaration a
    reference on [line] is attributed to is the last one, outermost first, that starts at or above
    the line - recovered from start lines alone - and the reported chain descends to it child by
    child from a top-level declaration. Nothing encloses the line only when every declaration
    starts below it. *)
Theorem enclosing_innermost (f : FileSkeleton) (line : N) :
  in_source_order f ->
  let chain := enclosing_chain (fs_declarations f) line None in
  last chain = last (filter (starts_by line) (all_declarations f)) /\
  nested (fs_declarations f) chain /\
  (enclosing_declaration f line = None <-> Forall (fun d => (line < d_line d)%N) (all_declarations f)).
Proof.
  intros Ho chain. assert (last chain = last (filter (starts_by line) (all_declarations f))) as Hlast.
  { apply scan_last; [|done|done]. intros d e _. apply chain_at_last. }
  split_and!; [done|apply enclosing_chain_nested|].
  unfold enclosing_declaration, from_chain. fold chain. rewrite Hlast.
  destruct (last (filter (starts_by line) (all_declarations f))) as [d|] eqn:E; simpl.
  - split; [done|]. intros Hall. apply last_Some_elem_of, list_elem_of_filter in E as [Hs Hin].
    rewrite Forall_forall in Hall. apply Hall in Hin. unfold starts_by in Hs. lia.
  - split; [intros _|done]. apply last_None in E. apply Forall_forall. intros d Hin.
    destruct (decide (starts_by line d)) as [Hs|Hs]; [|unfold starts_by in Hs; lia].
    assert (d ∈ filter (starts_by line) (all_declarations f)) as Hbad by by apply list_elem_of_filter.
    rewrite E in Hbad. by apply elem_of_nil in Hbad.
Qed.

(** Grouping loses nothing silently. There is one group per distinct path, in strictly
    increasing path order; a group's references are those of its path that are not in the file
    header (or all of them when imports are kept), each tagged with its enclosing declaration,
    sorted by line and column, cut after [limit]; and what is listed plus what is reported as
    omitted is exactly what was there. *)
Theorem group_references_conserves (locations : list Location) (skeletons : list FileSkeleton)
    (options : GroupingOptions) :
  let groups := group_references locations skeletons options in
  StronglySorted ord_lt (g_path <$> groups) /\
  (forall path, path ∈ g_path <$> groups <-> path ∈ l_path <$> locations) /\
  Forall (fun g =>
    exists skeleton all,
      skeleton = bt_get (g_path g) (bt_of_list ((fun s => (fs_path s, s)) <$> skeletons)) /\
      all ≡ₚ reference_at skeleton <$> filter (fun l => l_path l = g_path g /\
        (include_imports options = true \/ in_header (s ← skeleton; first_declaration_line s) (l_line l) = false))
        locations /\
      StronglySorted (fun r r' => ord_le (ref_key r) (ref_key r')) all /\
      g_references g = match limit options with Some n => take n all | None => all end /\
      length (g_references g) + g_omitted g = length all) groups.
Proof.
  intros groups. subst groups. unfold group_references.
  set (table := bt_of_list ((fun s => (fs_path s, s)) <$> skeletons)). set (m := bt_group l_path locations).
  assert (g_path <$> ((fun '(path, sites) =>
     let '(references, omitted) := capped_references sites (bt_get path table) options in
     mkRefGroup path references omitted) <$> m) = m.*1) as Hpaths.
  { rewrite <- list_fmap_compose. apply list_fmap_ext. intros i [path sites] _. simpl.
    by destruct (capped_references sites (bt_get path table) options). }
  rewrite Hpaths. split_and!.
  - apply bt_group_sorted.
  - intros path. apply bt_group_keys.
  - apply Forall_fmap, Forall_forall. intros [path sites] Hin. simpl.
    apply bt_group_elem in Hin as [-> _].
    unfold capped_references. set (sk := bt_get path table).
    set (all := sort_by_key ref_key (reference_at sk <$> filter _ (filter (key_is l_path path) locations))).
    assert (all ≡ₚ reference_at sk <$> filter (fun l => l_path l = path /\
        (include_imports options = true \/ in_header (s ← sk; first_declaration_line s) (l_line l) = false)) locations) as Hall.
    { unfold all. rewrite sort_by_key_perm. f_equiv. rewrite list_filter_filter. apply Permutation_refl'.
      apply list_filter_iff. intros l. unfold key_is. rewrite orb_true_iff, negb_true_iff. tauto. }
    assert (StronglySorted (fun r r' => ord_le (ref_key r) (ref_key r')) all) as Hs
      by apply sort_by_key_sorted.
    destruct (cap_at_spec (limit options) all) as [Hkept Homit].
    destruct (cap_at (limit options) all) as [kept omitted]. simpl in *.
    exists sk, all. by split_and!.
Qed.

(** The site filter partitions what an unfiltered answer lists: with the same path prefixes,
    each path kept under no test scope is kept by exactly one of the tests and production scopes,
    and a filter exists exactly when it has something to say. *)
Theorem filter_partitions (prefixes : list str) (path : str) (tests : TestScope) :
  matches_path (mkFilter prefixes AllScope) path =
    xorb (matches_path (mkFilter prefixes TestsScope) path)
         (matches_path (mkFilter prefixes ProductionScope) path) /\
  (matches_path (mkFilter prefixes tests) path = true <->
     (prefixes = [] \/ exists p, p ∈ prefixes /\ p `prefix_of` path) /\ admits tests (is_test_source path) = true) /\
  (filter_new prefixes tests = None <-> forall path', matches_path (mkFilter prefixes tests) path' = true
     /\ describe (mkFilter prefixes tests) = []).
Proof.
  unfold matches_path, matches, filter_new. cbn [f_tests f_path]. split_and!.
  - change (matches_path_prefix (mkFilter prefixes TestsScope) path) with (matches_path_prefix (mkFilter prefixes AllScope) path).
    change (matches_path_prefix (mkFilter prefixes ProductionScope) path) with (matches_path_prefix (mkFilter prefixes AllScope) path).
    destruct (matches_path_prefix _ path), (is_test_source path); done.
  - rewrite andb_true_iff. unfold matches_path_prefix; cbn [f_path].
    rewrite orb_true_iff, bool_decide_eq_true, existsb_exists. setoid_rewrite <- list_elem_of_In.
    by setoid_rewrite starts_with_spec.
  - unfold describe, matches_path_prefix. cbn [f_tests f_path]. destruct prefixes as [|p ps], tests; simpl.
    all: split; try done; intros Hall; by destruct (Hall []).
Qed.

(** ** Witnesses *)

Definition example_file : FileSkeleton :=
  let member name line := declaration_new Function_ name line in
  mkFile (lit "Shop.kt") (Some (lit "shop")) []
    [mkDecl Class_ (lit "OrderRepository") None 3 Public [] [] None [] None None false [] None None
       [member (lit "save") 5%N; member (lit "load") 9%N];
     member (lit "main") 14%N] false false.

Lemma enclosing_innermost_witness :
  in_source_order example_file /\
  last (enclosing_chain (fs_declarations example_file) 7 None)
    = last (filter (starts_by 7) (all_declarations example_file)).
Proof.
  assert (in_source_order example_file) as Ho.
  { split; cbn; repeat constructor; unfold line_le; cbn; lia. }
  split; [exact Ho|]. exact (proj1 (enclosing_innermost example_file 7 Ho)).
Defined.
Example enclosing_example :
  fully_qualified_enclosing example_file 7 = Some (mkQualified (lit "shop.OrderRepository.save") Function_ 5).
Proof. vm_compute. reflexivity. Qed.
