(* ===== verification/Query.v ===== *)
(** * Query: picking one candidate and searching by partial name

    Models [crates/ktsense-core/src/pick.rs] and [symbol_search.rs]. Fully qualified names are
    compared as byte strings in the source; [is_dot_suffix] keeps its byte arithmetic, and the
    theorems say what it means in dot-separated segments. *)
From S2P Require Import Prelude Collections Skeleton.

Set Default Proof Using "Type*".

(** ** [pick.rs] *)

Inductive PickMatch := Selected (index : nat) | Ambiguous (matched : list nat) | Missed.

Definition dot : char := ch ".".
Definition last_segment (query : str) : str := last_piece dot query.

(** [is_dot_suffix]: [fqn.as_bytes()[boundary - 1] == b'.'], with [checked_sub] and its guard. *)
Definition is_dot_suffix (fqn suffix : str) : bool :=
  if decide (fqn = suffix) then true
  else
    if (utf8_len suffix <=? utf8_len fqn)%N then
      let boundary := (utf8_len fqn - utf8_len suffix)%N in
      if (0 <? boundary)%N then
        ends_with fqn suffix && bool_decide (as_bytes fqn !! N.to_nat (boundary - 1) = Some 46%N)
      else false
    else false.

(** The indices of the candidates a predicate keeps, in order. *)
Definition indices_where (p : str -> bool) (fqns : list str) : list nat :=
  (filter (fun entry => p entry.2 = true) (imap (fun index fqn => (index, fqn)) fqns)).*1.

Definition match_pick (pick : str) (fqns : list str) : PickMatch :=
  match list_find (fun fqn => fqn = pick) fqns with
  | Some (index, _) => Selected index
  | None =>
      let matched := indices_where (fun fqn => is_dot_suffix fqn pick) fqns in
      match matched with
      | [] => Missed
      | [only] => Selected only
      | _ => Ambiguous matched
      end
  end.

(** The [for start in (0..len).rev()] loop, over the starts still to try. *)
Fixpoint try_suffixes (segments : list str) (fqns : list str) (starts : list nat) : option str :=
  match starts with
  | [] => None
  | start :: starts' =>
      let suffix := join [dot] (drop start segments) in
      if bool_decide (length (filter (fun fqn => is_dot_suffix fqn suffix = true) fqns) = 1)
      then Some suffix else try_suffixes segments fqns starts'
  end.
Definition shortest_unique_suffix (target : str) (fqns : list str) : str :=
  let segments := split_char dot target in
  default target (try_suffixes segments fqns (rev (seq 0 (length segments)))).

(** ** [symbol_search.rs] *)

Record SymbolMatch := mkSymbol {
  qualified_name : str;
  simple_name : str;
  sm_kind : DeclKind;
  sm_path : str;
  sm_line : N;
  sm_signature : str }.

Definition containment_tier (query name : str) : N :=
  if decide (name = query) then 0 else if starts_with name query then 1 else 2.

Definition match_rank (query : str) (candidate : SymbolMatch) : N * N * str * str * N :=
  (containment_tier query (simple_name candidate), utf8_len (simple_name candidate),
   qualified_name candidate, sm_path candidate, sm_line candidate).

Definition contained_declarations (query : str) (candidates : list SymbolMatch) : list SymbolMatch :=
  sort_by (cmp_on (match_rank query))
    (filter (fun c => contains_str (simple_name c) query = true) candidates).

(** ** Lemmas *)

(** A dot suffix names whole trailing segments. *)
Definition segment_suffix (fqn suffix : str) : Prop :=
  split_char dot suffix `suffix_of` split_char dot fqn.

Lemma utf8_len_pos (s : str) : s <> [] -> (0 < utf8_len s)%N.
Proof.
  destruct s as [|c s]; [done|]. intros _. simpl. unfold len_utf8. repeat case_match; lia.
Qed.

Lemma utf8_len_app' (a b : str) : utf8_len (a ++ b) = (utf8_len a + utf8_len b)%N.
Proof. rewrite <- !length_as_bytes, as_bytes_app, length_app. lia. Qed.

Lemma is_dot_suffix_app pre suffix :
  is_dot_suffix (pre ++ suffix) suffix = true <-> pre = [] \/ last pre = Some dot.
Proof.
  unfold is_dot_suffix. case_decide as E.
  - split; [intros _|done]. left. apply (f_equal length) in E. rewrite length_app in E. destruct pre; [done|simpl in E; lia].
  - assert (pre <> []) as Hpre by (intros ->; done). pose proof (utf8_len_pos pre Hpre).
    rewrite utf8_len_app'. rewrite (proj2 (N.leb_le _ _)) by lia.
    replace (utf8_len pre + utf8_len suffix - utf8_len suffix)%N with (utf8_len pre) by lia.
    rewrite (proj2 (N.ltb_lt _ _)) by lia.
    rewrite andb_true_iff, ends_with_spec, bool_decide_eq_true.
    assert (length (as_bytes pre) = N.to_nat (utf8_len pre)) as Hl by (rewrite <- length_as_bytes; lia).
    replace (as_bytes (pre ++ suffix) !! N.to_nat (utf8_len pre - 1)) with (last (as_bytes pre)).
    2: { rewrite as_bytes_app, lookup_app_l by lia. rewrite last_lookup. f_equal. lia. }
    rewrite (last_as_bytes pre 46) by done. split.
    + intros [_ Hd]. by right.
    + intros [?|Hd]; [done|]. split; [by exists pre|done].
Qed.

Lemma is_dot_suffix_segments fqn suffix : is_dot_suffix fqn suffix = true <-> segment_suffix fqn suffix.
Proof.
  split.
  - intros Hd. assert (suffix `suffix_of` fqn) as [pre ->].
    { unfold is_dot_suffix in Hd. case_decide as E; [subst; reflexivity|]. destruct (_ <=? _)%N; [|done]. destruct (_ <? _)%N; [|done].
      apply andb_true_iff in Hd as [Hd _]. by apply ends_with_spec. }
    apply is_dot_suffix_app in Hd as [->|Hd]; [by exists []|].
    destruct pre as [|c pre _] using rev_ind; [done|]. rewrite last_snoc in Hd. injection Hd as ->.
    rewrite <- app_assoc. cbn [app]. exists (split_char dot pre). apply split_char_sep.
  - intros [front E]. destruct front as [|p front].
    { apply (f_equal (join [dot])) in E. cbn [app] in E. rewrite !join_split in E. subst.
      unfold is_dot_suffix. by rewrite decide_True. }
    apply (f_equal (join [dot])) in E. rewrite join_app, !join_split in E by (done || apply split_char_nonempty).
    subst. rewrite (cons_middle dot), app_assoc. apply is_dot_suffix_app. right. apply last_snoc.
Qed.

Lemma elem_of_indices p fqns i : i ∈ indices_where p fqns <-> exists f, fqns !! i = Some f /\ p f = true.
Proof.
  unfold indices_where. rewrite list_elem_of_fmap. split.
  - intros ([j f] & -> & [Hp Hin]%list_elem_of_filter). apply elem_of_lookup_imap in Hin as (k & g & [= -> ->] & Hk).
    by exists g.
  - intros (f & Hi & Hp). exists (i, f). split; [done|]. apply list_elem_of_filter. split; [done|].
    apply elem_of_lookup_imap. by exists i, f.
Qed.

Lemma indices_sorted p fqns : StronglySorted lt (indices_where p fqns).
Proof.
  unfold indices_where.
  assert (forall fqns k, StronglySorted lt (filter (fun e : nat * str => p e.2 = true)
            (imap (fun i f => (k + i, f)) fqns)).*1 /\
          Forall (fun i => k <= i) (filter (fun e : nat * str => p e.2 = true)
            (imap (fun i f => (k + i, f)) fqns)).*1) as H; [|apply (H fqns 0)].
  clear. induction fqns as [|f fqns IH]; intros k; [repeat constructor|].
  rewrite imap_cons, Nat.add_0_r.
  replace (imap ((fun i f => (k + i, f)) ∘ S) fqns) with (imap (fun i f => (S k + i, f)) fqns)
    by (apply imap_ext; intros; simpl; do 2 f_equal; lia).
  destruct (IH (S k)) as [Hs Hb]. rewrite filter_cons. case_decide; csimpl.
  - split; [constructor; [done|]|constructor; [lia|]].
    + eapply Forall_impl; [exact Hb|]. intros; simpl in *; lia.
    + eapply Forall_impl; [exact Hb|]. intros; simpl in *; lia.
  - split; [done|]. eapply Forall_impl; [exact Hb|]. intros; simpl in *; lia.
Qed.

Lemma length_indices p fqns : length (indices_where p fqns) = length (filter (fun f => p f = true) fqns).
Proof.
  unfold indices_where. rewrite length_fmap.
  assert (forall fqns (g : nat -> nat), length (filter (fun e : nat * str => p e.2 = true) (imap (fun i f => (g i, f)) fqns))
    = length (filter (fun f => p f = true) fqns)) as H; [|apply (H fqns id)].
  clear. induction fqns as [|f fqns IH]; intros g; [done|].
  rewrite imap_cons, !filter_cons. cbn [snd].
  change (imap ((fun i f => (g i, f)) ∘ S) fqns) with (imap (fun i f => (g (S i), f)) fqns).
  case_decide; cbn [length]; [f_equal|]; apply (IH (fun i => g (S i))).
Qed.

(** A suffix only one candidate carries. *)
Definition unique_suffix (fqns : list str) (s : str) : Prop :=
  length (filter (fun fqn => is_dot_suffix fqn s = true) fqns) = 1.

Lemma try_suffixes_some segments fqns starts s :
  try_suffixes segments fqns starts = Some s ->
  exists tried start rest, starts = tried ++ start :: rest /\ s = join [dot] (drop start segments) /\
    unique_suffix fqns s /\ Forall (fun k => ~ unique_suffix fqns (join [dot] (drop k segments))) tried.
Proof.
  induction starts as [|start starts IH]; simpl; [done|]. case_bool_decide as E.
  - intros [= <-]. by exists [], start, starts.
  - intros (tried & x & rest & -> & Hs & Hu & Ht)%IH. exists (start :: tried), x, rest.
    split_and!; [done..|]. by constructor.
Qed.

Lemma try_suffixes_none segments fqns starts :
  try_suffixes segments fqns starts = None ->
  Forall (fun k => ~ unique_suffix fqns (join [dot] (drop k segments))) starts.
Proof.
  induction starts as [|start starts IH]; simpl; [constructor|]. case_bool_decide as E; [done|].
  intros Hn. constructor; [done|by apply IH].
Qed.

Lemma rev_seq_before n tried start rest :
  rev (seq 0 n) = tried ++ start :: rest -> start < n /\ forall k, start < k < n -> k ∈ tried.
Proof.
  intros E. apply (f_equal (@rev nat)) in E. rewrite rev_involutive, rev_app_distr in E. cbn [rev] in E.
  rewrite <- app_assoc in E. cbn [app] in E.
  assert (length (rev rest) = start) as Hs.
  { assert (seq 0 n !! length (rev rest) = Some start) as Hl by (rewrite E; by apply list_lookup_middle).
    apply lookup_seq in Hl as [Hl _]. lia. }
  assert (start < n) as Hn.
  { apply (f_equal length) in E. rewrite length_seq, length_app in E. simpl in E. lia. }
  split; [done|]. intros k [Hk Hkn]. rewrite <- (elem_of_rev k tried).
  assert (k ∈ seq 0 n) as Hin by (apply elem_of_seq; lia). rewrite E in Hin.
  apply elem_of_app in Hin as [Hin|[->|Hin]%elem_of_cons]; [|lia|done].
  exfalso. apply list_elem_of_lookup in Hin as [i Hi].
  assert (seq 0 n !! i = Some k) as Hl by (rewrite E; by apply lookup_app_l_Some).
  apply lookup_lt_Some in Hi. apply lookup_seq in Hl as [Hl _]. lia.
Qed.

Lemma dot_suffix_drop target k :
  k < length (split_char dot target) -> is_dot_suffix target (join [dot] (drop k (split_char dot target))) = true.
Proof.
  intros Hk. apply is_dot_suffix_segments. unfold segment_suffix.
  rewrite split_join.
  - exists (take k (split_char dot target)). by rewrite take_drop.
  - intros E. apply (f_equal length) in E. rewrite length_drop in E. simpl in E. lia.
  - intros p Hp. eapply split_pieces_free. rewrite <- (take_drop k (split_char dot target)).
    apply elem_of_app. right. exact Hp.
Qed.

Lemma list_find_first (fqns : list str) pick :
  match list_find (fun fqn => fqn = pick) fqns with
  | Some (i, f) => f = pick /\ fqns !! i = Some pick /\ forall j, j < i -> fqns !! j <> Some pick
  | None => pick ∉ fqns
  end.
Proof.
  destruct (list_find _ fqns) as [[i f]|] eqn:E.
  - apply list_find_Some in E as (Hi & -> & Hj). split_and!; [done|done|]. intros j Hji Hjp. by apply (Hj j pick).
  - apply list_find_None in E. rewrite Forall_forall in E. intros Hin. by apply (E pick).
Qed.

(** A unique suffix of a candidate picks it, unless the suffix is itself another candidate. *)
Lemma match_pick_unique fqns target s :
  target ∈ fqns -> is_dot_suffix target s = true -> unique_suffix fqns s ->
  exists i, match_pick s fqns = Selected i /\ fqns !! i = Some target.
Proof.
  intros Hin Hs Hu. unfold match_pick.
  assert (forall i f, fqns !! i = Some f -> is_dot_suffix f s = true -> f = target) as Honly.
  { intros i f Hi Hf. unfold unique_suffix in Hu.
    destruct (filter _ fqns) as [|x [|y l]] eqn:E; try done.
    assert (f ∈ [x] /\ target ∈ [x]) as [->%list_elem_of_singleton ->%list_elem_of_singleton]; [|done].
    rewrite <- E. split; apply list_elem_of_filter; split; try done. by eapply list_elem_of_lookup_2. }
  pose proof (list_find_first fqns s) as Hfirst. destruct (list_find _ fqns) as [[i f]|].
  - destruct Hfirst as (-> & Hi & _). exists i. split; [done|]. rewrite Hi. f_equal. apply (Honly i s Hi).
    unfold is_dot_suffix. by rewrite decide_True.
  - assert (length (indices_where (fun fqn => is_dot_suffix fqn s) fqns) = 1) as Hl by by rewrite length_indices.
    destruct (indices_where _ fqns) as [|i [|j l]] eqn:E; try done.
    exists i. split; [done|]. assert (i ∈ [i]) as Hi by left. rewrite <- E in Hi.
    apply elem_of_indices in Hi as (f & Hi & Hf). rewrite Hi. f_equal. by apply (Honly i f).
Qed.

(** ** Properties *)

(** [--pick] selects by whole dot-separated segments: an exact name wins at its first
    position; otherwise the one candidate that ends in the given segments is selected, several are
    all listed in order, and a miss means no candidate ends in them. An identifier is never cut. *)
Theorem match_pick_exact (pick : str) (fqns : list str) :
  match match_pick pick fqns with
  | Selected i =>
      (fqns !! i = Some pick /\ forall j, j < i -> fqns !! j <> Some pick) \/
      ((pick ∉ fqns) /\ (exists f, fqns !! i = Some f /\ segment_suffix f pick) /\
       forall j g, fqns !! j = Some g -> segment_suffix g pick -> j = i)
  | Ambiguous matched =>
      (pick ∉ fqns) /\ 2 <= length matched /\ StronglySorted lt matched /\
      forall i, i ∈ matched <-> exists f, fqns !! i = Some f /\ segment_suffix f pick
  | Missed => Forall (fun f => ~ segment_suffix f pick) fqns
  end.
Proof.
  unfold match_pick. pose proof (list_find_first fqns pick) as Hfirst.
  destruct (list_find _ fqns) as [[i f]|]; [left; by destruct Hfirst as (_ & ? & ?)|].
  set (is_match := fun fqn => is_dot_suffix fqn pick).
  assert (forall i, i ∈ indices_where is_match fqns <-> exists f, fqns !! i = Some f /\ segment_suffix f pick) as Hin.
  { intros i. rewrite elem_of_indices. by setoid_rewrite <- is_dot_suffix_segments. }
  pose proof (indices_sorted is_match fqns) as Hs. destruct (indices_where is_match fqns) as [|i [|j l]].
  - apply Forall_forall. intros f [i Hi]%list_elem_of_lookup Hf.
    assert (i ∈ []) as Hbad by (apply Hin; eauto). by apply elem_of_nil in Hbad.
  - right. split_and!; [done|apply Hin; left|]. intros j g Hj Hg.
    apply list_elem_of_singleton. apply Hin. eauto.
  - split_and!; [done|simpl; lia|done|done].
Qed.

Lemma hint_selects (target : str) (fqns : list str) : target ∈ fqns ->
  exists i, match_pick (shortest_unique_suffix target fqns) fqns = Selected i /\ fqns !! i = Some target.
Proof.
  intros Hin. unfold shortest_unique_suffix. set (segs := split_char dot target).
  destruct (try_suffixes segs fqns (rev (seq 0 (length segs)))) as [s|] eqn:E; simpl.
  - apply try_suffixes_some in E as (tried & start & rest & Es & -> & Hu & Ht). apply rev_seq_before in Es as [Hstart _].
    apply match_pick_unique; [done|by apply dot_suffix_drop|done].
  - unfold match_pick. pose proof (list_find_first fqns target) as Hfirst.
    destruct (list_find _ fqns) as [[i f]|]; [|done]. destruct Hfirst as (-> & Hi & _). by exists i.
Qed.

Lemma hint_is_suffix (target : str) (fqns : list str) : target ∈ fqns -> is_dot_suffix target (shortest_unique_suffix target fqns) = true.
Proof.
  intros Hin. unfold shortest_unique_suffix. destruct (try_suffixes _ fqns _) as [s|] eqn:E; simpl.
  - apply try_suffixes_some in E as (tried & start & rest & Es & -> & _). apply rev_seq_before in Es as [Hstart _]. by apply dot_suffix_drop.
  - unfold is_dot_suffix. by rewrite decide_True.
Qed.

(** The hint round-trips: the shortest unique suffix printed for a candidate, given back to
    [--pick], selects that candidate, and no suffix of fewer segments is unique to it. *)
Theorem shortest_unique_suffix_roundtrip (target : str) (fqns : list str) :
  target ∈ fqns ->
  let hint := shortest_unique_suffix target fqns in
  (exists i, match_pick hint fqns = Selected i /\ fqns !! i = Some target) /\
  segment_suffix target hint /\
  (forall shorter, segment_suffix target shorter ->
     length (split_char dot shorter) < length (split_char dot hint) -> ~ unique_suffix fqns shorter).
Proof.
  intros Hin hint. subst hint. split; [by apply hint_selects|]. unfold shortest_unique_suffix.
  set (segs := split_char dot target). set (starts := rev (seq 0 (length segs))).
  assert (forall shorter, segment_suffix target shorter ->
    exists k, k < length segs /\ shorter = join [dot] (drop k segs) /\ length (split_char dot shorter) = length segs - k) as Hcut.
  { intros shorter [front E]. exists (length front). fold segs in E.
    pose proof (split_char_nonempty dot shorter) as Hne. rewrite E, drop_app_length, length_app, join_split.
    split_and!; [|done|lia]. destruct (split_char dot shorter); [done|simpl; lia]. }
  destruct (try_suffixes segs fqns starts) as [s|] eqn:E; simpl.
  - apply try_suffixes_some in E as (tried & start & rest & Es & -> & Hu & Ht).
    apply rev_seq_before in Es as [Hstart Hbefore].
    pose proof (dot_suffix_drop target start Hstart) as Hd. fold segs in Hd.
    split; [by apply is_dot_suffix_segments|].
    intros shorter (k & Hk & -> & Hl)%Hcut Hlt.
    apply is_dot_suffix_segments, Hcut in Hd as (k' & Hk' & Hj & Hl').
    rewrite Hl, Hl' in Hlt. rewrite Forall_forall in Ht. apply Ht, Hbefore.
    assert (k' = start); [|lia].
    apply (f_equal (split_char dot)), (f_equal length) in Hj.
    assert (forall m, m < length segs -> length (split_char dot (join [dot] (drop m segs))) = length segs - m) as Hlen.
    { intros m Hm. rewrite split_join; [apply length_drop| |].
      - intros En. apply (f_equal length) in En. rewrite length_drop in En. simpl in En. lia.
      - intros p Hp. apply (split_pieces_free dot target). fold segs. rewrite <- (take_drop m segs).
        apply elem_of_app. right. exact Hp. }
    rewrite !Hlen in Hj by done. lia.
  - split_and!.
    + by exists [].
    + intros shorter (k & Hk & -> & _)%Hcut _. apply try_suffixes_none in E. rewrite Forall_forall in E.
      apply E. unfold starts. rewrite elem_of_rev. apply elem_of_seq. lia.
Qed.

(** [symbols --contains] keeps exactly the declarations whose simple name contains the query,
    each as often as it was gathered, ordered exact match first, then prefix, then shorter name,
    then qualified name, path and line; and the order in which candidates were gathered cannot be
    seen in the ranks of the answer. *)
Theorem contained_declarations_ranked (query : str) (candidates candidates' : list SymbolMatch) :
  candidates ≡ₚ candidates' ->
  let answer := contained_declarations query candidates in
  answer ≡ₚ filter (fun c => contains_str (simple_name c) query = true) candidates /\
  StronglySorted (fun c d => ord_le (match_rank query c) (match_rank query d)) answer /\
  match_rank query <$> answer = match_rank query <$> contained_declarations query candidates'.
Proof.
  intros Hp answer. subst answer. unfold contained_declarations. split_and!.
  - apply sort_by_perm.
  - apply sort_by_key_sorted.
  - assert (forall l, StronglySorted ord_le (match_rank query <$> sort_by_key (match_rank query) l)) as Hs.
    { intros l. pose proof (sort_by_key_sorted (match_rank query) l) as Hl.
      induction Hl as [|x l' _ IH Hx]; constructor; [done|]. by apply Forall_fmap. }
    apply (sorted_unique cmp); [apply ord_le_antisymm|apply (Hs _)|apply (Hs _)|].
    change (sort_by (cmp_on (match_rank query))) with (sort_by_key (match_rank query)).
    by rewrite !sort_by_key_perm, Hp.
Qed.

(** ** Witnesses *)

Definition shop_fqns : list str := [lit "shop.Order.save"; lit "shop.Cart.save"; lit "shop.Order.load"].

Lemma shortest_unique_suffix_roundtrip_witness :
  shortest_unique_suffix (lit "shop.Cart.save") shop_fqns = lit "Cart.save" /\
  exists i, match_pick (shortest_unique_suffix (lit "shop.Cart.save") shop_fqns) shop_fqns = Selected i /\
    shop_fqns !! i = Some (lit "shop.Cart.save").
Proof.
  split; [vm_compute; reflexivity|].
  apply (shortest_unique_suffix_roundtrip (lit "shop.Cart.save") shop_fqns).
  right. left.
Defined.

Lemma contained_declarations_ranked_witness :
  let c name := mkSymbol (lit "p." ++ name) name Class_ (lit "A.kt") 1 [] in
  match_rank (lit "Cart") <$> contained_declarations (lit "Cart") [c (lit "MyCart"); c (lit "Order"); c (lit "Cart")]
  = match_rank (lit "Cart") <$> contained_declarations (lit "Cart") [c (lit "Order"); c (lit "Cart"); c (lit "MyCart")].
Proof.
  intros c. apply (contained_declarations_ranked (lit "Cart")).
  apply (Permutation_app_comm [c (lit "MyCart")] [c (lit "Order"); c (lit "Cart")]).
Defined.
