(* ===== verification/Sites.v ===== *)
(** * Sites: listings of text matches and annotated declarations

    Models [crates/ktsense-core/src/text_refs.rs], [text_search.rs] and [annotated.rs]: each
    groups what an adapter found by file, orders every file's entries, caps them and counts what
    the cap hid. *)
From S2P Require Import Prelude Collections Skeleton References.

Set Default Proof Using "Type*".

Definition TEXT_MATCH_PRECISION : str := lit "text match".
Definition ANNOTATION_PRECISION : str := lit "syntax (matched by name)".

(** ** [text_refs.rs] *)

Record TextReferenceSite := mkTextSite {
  ts_line : N;
  ts_kind : SiteKind;
  ts_enclosing : option str;
  ts_text : option str }.
Record TextReferenceGroup := mkTextGroup {
  tg_path : str;
  tg_sites : list TextReferenceSite;
  tg_omitted : nat }.
Record TextReferences := mkTextReferences {
  tr_symbol : str;
  tr_precision : str;
  tr_total_sites : nat;
  tr_file_count : nat;
  tr_text_mention_sites : nat;
  tr_groups : list TextReferenceGroup }.

Definition site_key (site : Location) : N * option N := (l_line site, l_column site).

Definition text_site (attribute : str -> N -> option str * option str) (path : str) (site : Location)
    : TextReferenceSite :=
  let '(enclosing, text) := attribute path (l_line site) in
  mkTextSite (l_line site) (l_kind site) enclosing text.

Definition build_grouped (symbol : str) (sites : list Location) (limit : option nat)
    (attribute : str -> N -> option str * option str) : TextReferences :=
  let total_sites := length sites in
  let text_mention_sites := length (filter (fun site => is_text_mention (l_kind site) = true) sites) in
  let groups :=
    (fun '(path, file_sites) =>
       let '(kept, omitted) := cap_at limit (sort_by_key site_key file_sites) in
       mkTextGroup path (text_site attribute path <$> kept) omitted)
    <$> bt_group l_path sites in
  mkTextReferences symbol TEXT_MATCH_PRECISION total_sites (length groups) text_mention_sites groups.

Definition build_text_references (symbol : str) (sites : list Location) (limit : option nat) : TextReferences :=
  build_grouped symbol sites limit (fun _ _ => (None, None)).

Definition skeletons_by_path (skeletons : list FileSkeleton) : list (str * FileSkeleton) :=
  bt_of_list ((fun s => (fs_path s, s)) <$> skeletons).

Definition build_text_references_attributed (symbol : str) (sites : list Location)
    (skeletons : list FileSkeleton) (limit : option nat) : TextReferences :=
  let skeleton_by_path := skeletons_by_path skeletons in
  build_grouped symbol sites limit (fun path line =>
    let enclosing := skeleton ← bt_get path skeleton_by_path;
                     q_fqn <$> fully_qualified_enclosing skeleton line in
    (enclosing, None)).

Definition build_text_references_with_text (symbol : str) (sites : list Location) (limit : option nat)
    (attribute : str -> N -> option str * option str) : TextReferences :=
  build_grouped symbol sites limit attribute.

(** ** [text_search.rs] *)

Record TextSearchHit := mkHit {
  h_path : str;
  h_line : N;
  h_source_line : str;
  h_kind : SiteKind;
  h_enclosing : option str;
  h_java : bool }.
Record TextSearchLine := mkSearchLine { sl_line : N; sl_kind : SiteKind; sl_source_line : str }.
Record TextSearchDeclaration := mkSearchDecl { sd_fqn : option str; sd_hits : list TextSearchLine }.
Record TextSearchFile := mkSearchFile {
  sf_path : str;
  sf_test : bool;
  sf_java : bool;
  sf_declarations : list TextSearchDeclaration;
  sf_omitted : nat }.
Record TextSearch := mkSearch {
  s_pattern : str;
  s_precision : str;
  s_total_hits : nat;
  s_file_count : nat;
  s_text_mention_hits : nat;
  s_files : list TextSearchFile }.

(** [hit.enclosing.clone().or_else(..)]. *)
Definition hit_fqn (skeleton : option FileSkeleton) (hit : TextSearchHit) : option str :=
  match h_enclosing hit with
  | Some fqn => Some fqn
  | None => skeleton ← skeleton; q_fqn <$> fully_qualified_enclosing skeleton (h_line hit)
  end.
Definition search_line (hit : TextSearchHit) : TextSearchLine :=
  mkSearchLine (h_line hit) (h_kind hit) (h_source_line hit).

(** One turn of the loop of [group_by_declaration]: [groups.last_mut()]. *)
Definition push_hit (skeleton : option FileSkeleton) (groups : list TextSearchDeclaration) (hit : TextSearchHit)
    : list TextSearchDeclaration :=
  let fqn := hit_fqn skeleton hit in
  let line := search_line hit in
  match last groups with
  | Some group =>
      if decide (sd_fqn group = fqn)
      then take (length groups - 1) groups ++ [mkSearchDecl (sd_fqn group) (sd_hits group ++ [line])]
      else groups ++ [mkSearchDecl fqn [line]]
  | None => groups ++ [mkSearchDecl fqn [line]]
  end.
Definition group_by_declaration (hits : list TextSearchHit) (skeleton : option FileSkeleton)
    : list TextSearchDeclaration :=
  foldl (push_hit skeleton) [] hits.

Definition search_file (limit : option nat) (skeleton_by_path : list (str * FileSkeleton))
    (entry : str * list TextSearchHit) : TextSearchFile :=
  let '(path, file_hits) := entry in
  let '(kept, omitted) := cap_at limit (sort_by_key h_line file_hits) in
  mkSearchFile path (is_test_source path)
    (match kept with hit :: _ => h_java hit | [] => false end)
    (group_by_declaration kept (bt_get path skeleton_by_path)) omitted.

Definition build_text_search (pattern : str) (hits : list TextSearchHit) (skeletons : list FileSkeleton)
    (limit : option nat) : TextSearch :=
  let total_hits := length hits in
  let text_mention_hits := length (filter (fun hit => is_text_mention (h_kind hit) = true) hits) in
  let files := search_file limit (skeletons_by_path skeletons) <$> bt_group h_path hits in
  mkSearch pattern TEXT_MATCH_PRECISION total_hits (length files) text_mention_hits files.

(** ** [annotated.rs] *)

Record AnnotatedDeclaration := mkAnnotated { a_path : str; a_line : N; a_fqn : str; a_kind : DeclKind }.
Record AnnotatedMember := mkMember { m_line : N; m_fqn : str; m_kind : DeclKind }.
Record AnnotatedGroup := mkAnnotatedGroup { ag_path : str; ag_declarations : list AnnotatedMember }.
Record AnnotatedDeclarations := mkAnnotatedDeclarations {
  ad_annotation : str;
  ad_precision : str;
  ad_total : nat;
  ad_file_count : nat;
  ad_groups : list AnnotatedGroup }.

Definition annotated_is_empty (d : AnnotatedDeclarations) : bool := bool_decide (ad_total d = 0).
Definition annotated_key (d : AnnotatedDeclaration) : N * str := (a_line d, a_fqn d).
Definition annotated_member (d : AnnotatedDeclaration) : AnnotatedMember :=
  mkMember (a_line d) (a_fqn d) (a_kind d).

Definition build_annotated (annotation : str) (declarations : list AnnotatedDeclaration) : AnnotatedDeclarations :=
  let groups :=
    (fun '(path, members) =>
       mkAnnotatedGroup path (annotated_member <$> sort_by_key annotated_key members))
    <$> bt_group a_path declarations in
  mkAnnotatedDeclarations annotation ANNOTATION_PRECISION (length declarations) (length groups) groups.

(** ** Lemmas *)

(** Groups mapped one by one keep their paths, and any per-entry count adds up over them. *)
Lemma group_map_paths {A G} (path : A -> str) (f : str * list A -> G) (out : G -> str) (l : list A) :
  (forall e, out (f e) = e.1) -> out <$> (f <$> bt_group path l) = (bt_group path l).*1.
Proof. intros Hf. rewrite <- list_fmap_compose. apply list_fmap_ext. intros i e _. apply Hf. Qed.

Lemma group_map_sum {A G} (path : A -> str) (f : str * list A -> G) (size : G -> nat) (l : list A) :
  (forall e, size (f e) = length e.2) -> sum_list (size <$> (f <$> bt_group path l)) = length l.
Proof.
  intros Hf. rewrite <- (bt_group_concat path l) at 2. rewrite length_concat_sum, <- !list_fmap_compose.
  f_equal. apply list_fmap_ext. intros i e _. apply Hf.
Qed.

(** Cutting a file's hits into declarations keeps them in order and never splits a run. *)
Definition adjacent_differ (groups : list TextSearchDeclaration) : Prop :=
  forall i g g', groups !! i = Some g -> groups !! S i = Some g' -> sd_fqn g <> sd_fqn g'.

Lemma adjacent_snoc groups g :
  adjacent_differ (groups ++ [g]) <->
  adjacent_differ groups /\ (forall g', last groups = Some g' -> sd_fqn g' <> sd_fqn g).
Proof.
  unfold adjacent_differ. split.
  - intros Hadj. split.
    + intros i a b Ha Hb. by apply (Hadj i); apply lookup_app_l_Some.
    + intros a Ha. rewrite last_lookup in Ha. apply (Hadj (pred (length groups)) a g).
      * by apply lookup_app_l_Some.
      * apply lookup_lt_Some in Ha. replace (S (pred (length groups))) with (length groups) by lia.
        by apply list_lookup_middle.
  - intros [Hadj Hl] i a b Ha [Hb|[Hi <-]]%lookup_snoc_Some.
    + apply (Hadj i); [|apply Hb]. apply lookup_snoc_Some in Ha as [[_ ?]|[? _]]; [done|lia].
    + apply Hl. apply lookup_snoc_Some in Ha as [[_ Ha]|[? _]]; [|lia].
      rewrite last_lookup. by replace (pred (length groups)) with i by lia.
Qed.

Lemma group_by_declaration_spec hits skeleton :
  let groups := group_by_declaration hits skeleton in
  concat (sd_hits <$> groups) = search_line <$> hits /\
  concat ((fun g => (fun _ => sd_fqn g) <$> sd_hits g) <$> groups) = hit_fqn skeleton <$> hits /\
  Forall (fun g => sd_hits g <> []) groups /\ adjacent_differ groups.
Proof.
  induction hits as [|hit hits IH] using rev_ind; [split_and!; done|].
  unfold group_by_declaration in *. rewrite foldl_app. cbn [foldl].
  set (groups := foldl (push_hit skeleton) [] hits) in *. destruct IH as (Hh & Hf & Hne & Hadj).
  clearbody groups. rewrite !(fmap_app _ hits). cbn [fmap list_fmap]. rewrite <- Hh, <- Hf. unfold push_hit.
  assert (forall g, last groups <> Some g \/ sd_fqn g <> hit_fqn skeleton hit -> last groups = Some g \/ last groups = None ->
    let groups' := groups ++ [mkSearchDecl (hit_fqn skeleton hit) [search_line hit]] in
    concat (sd_hits <$> groups') = concat (sd_hits <$> groups) ++ [search_line hit] /\
    concat ((fun g => (fun _ => sd_fqn g) <$> sd_hits g) <$> groups')
      = concat ((fun g => (fun _ => sd_fqn g) <$> sd_hits g) <$> groups) ++ [hit_fqn skeleton hit] /\
    Forall (fun g => sd_hits g <> []) groups' /\ adjacent_differ groups') as Hopen.
  { intros g Hg Hl groups'. subst groups'. rewrite !fmap_app, !concat_app. cbn.
    split_and!; [done|done| |].
    - apply Forall_app. split; [done|]. by repeat constructor.
    - apply adjacent_snoc. split; [done|]. intros g' Hg'. simpl. destruct Hl; naive_solver. }
  destruct (last groups) as [g|] eqn:Hl.
  - case_decide as E; [|apply (Hopen g); auto].
    apply last_Some in Hl as [gs ->]. rewrite length_app. cbn [length].
    replace (length gs + 1 - 1) with (length gs) by lia. rewrite take_app_length, !fmap_app, !concat_app. cbn.
    apply Forall_app in Hne as [Hne _]. apply adjacent_snoc in Hadj. rewrite !app_nil_r, fmap_app, <- !app_assoc, <- E.
    split_and!; [done|done| |].
    + apply Forall_app. split; [done|]. repeat constructor. simpl. by destruct (sd_hits g).
    + by apply adjacent_snoc.
  - apply (Hopen (mkSearchDecl None [])); auto.
Qed.

(** ** Properties *)

(** A text-reference listing accounts for every site: the heading's total is what the groups
    list plus what they omit, the mention share is counted over every site, there is one group
    per distinct path in strictly increasing path order, and each group lists a prefix of its
    file's sites in line and column order, each with the kind it was found with and the
    attribution computed for its own path and line. *)
Theorem text_references_account (symbol : str) (sites : list Location) (limit : option nat)
    (attribute : str -> N -> option str * option str) :
  let answer := build_grouped symbol sites limit attribute in
  tr_total_sites answer = length sites /\
  sum_list ((fun g => length (tg_sites g) + tg_omitted g) <$> tr_groups answer) = tr_total_sites answer /\
  tr_text_mention_sites answer = length (filter (fun s => is_text_mention (l_kind s) = true) sites) /\
  tr_file_count answer = length (tr_groups answer) /\
  StronglySorted ord_lt (tg_path <$> tr_groups answer) /\
  (forall path, path ∈ tg_path <$> tr_groups answer <-> path ∈ l_path <$> sites) /\
  Forall (fun g => exists ordered,
    ordered ≡ₚ filter (fun s => l_path s = tg_path g) sites /\
    StronglySorted (fun s s' => ord_le (site_key s) (site_key s')) ordered /\
    tg_sites g = text_site attribute (tg_path g)
                   <$> match limit with Some n => take n ordered | None => ordered end)
    (tr_groups answer).
Proof.
  intros answer. subst answer. cbn [build_grouped tr_total_sites tr_groups tr_text_mention_sites tr_file_count].
  set (f := fun '(path, file_sites) => _).
  assert (forall e, tg_path (f e) = e.1) as Hpath by (intros [path l]; simpl; by destruct (cap_at _ _)).
  assert (forall e, length (tg_sites (f e)) + tg_omitted (f e) = length e.2) as Hsize.
  { intros [path l]. simpl. destruct (cap_at_spec limit (sort_by_key site_key l)) as [_ Hl].
    destruct (cap_at _ _). simpl in *. rewrite length_fmap, Hl. by rewrite sort_by_key_perm. }
  rewrite (group_map_paths l_path f tg_path sites Hpath). split_and!; try done.
  - by apply group_map_sum.
  - apply bt_group_sorted.
  - intros path. apply bt_group_keys.
  - apply Forall_fmap, Forall_forall. intros [path l] Hin. apply bt_group_elem in Hin as [-> _].
    set (file := filter (key_is l_path path) sites). exists (sort_by_key site_key file). simpl.
    destruct (cap_at_spec limit (sort_by_key site_key file)) as [Hk _].
    destruct (cap_at _ _) as [kept omitted]. simpl in *. rewrite <- Hk.
    split_and!; [apply sort_by_key_perm|apply sort_by_key_sorted|done].
Qed.

(** A [grep] answer accounts for every hit and its attribution survives the grouping: the
    heading's total is what the files list plus what they omit; reading a file's declarations one
    after the other gives a prefix of its hits in line order, each under the declaration that
    encloses it; no group is empty and no two adjacent groups could have been one. *)
Theorem text_search_accounts (pattern : str) (hits : list TextSearchHit) (skeletons : list FileSkeleton)
    (limit : option nat) :
  let answer := build_text_search pattern hits skeletons limit in
  s_total_hits answer = length hits /\
  sum_list ((fun f => length (concat (sd_hits <$> sf_declarations f)) + sf_omitted f) <$> s_files answer)
    = s_total_hits answer /\
  StronglySorted ord_lt (sf_path <$> s_files answer) /\
  (forall path, path ∈ sf_path <$> s_files answer <-> path ∈ h_path <$> hits) /\
  Forall (fun f => exists kept ordered,
    let skeleton := bt_get (sf_path f) (skeletons_by_path skeletons) in
    ordered ≡ₚ filter (fun h => h_path h = sf_path f) hits /\
    StronglySorted (fun h h' => ord_le (h_line h) (h_line h')) ordered /\
    kept = match limit with Some n => take n ordered | None => ordered end /\
    concat (sd_hits <$> sf_declarations f) = search_line <$> kept /\
    concat ((fun g => (fun _ => sd_fqn g) <$> sd_hits g) <$> sf_declarations f) = hit_fqn skeleton <$> kept /\
    Forall (fun g => sd_hits g <> []) (sf_declarations f) /\ adjacent_differ (sf_declarations f))
    (s_files answer).
Proof.
  intros answer. subst answer. cbn [build_text_search s_total_hits s_files].
  set (f := search_file limit (skeletons_by_path skeletons)).
  assert (forall e, sf_path (f e) = e.1) as Hpath
    by (intros [path l]; unfold f, search_file; by destruct (cap_at _ _)).
  assert (forall e, length (concat (sd_hits <$> sf_declarations (f e))) + sf_omitted (f e) = length e.2) as Hsize.
  { intros [path l]. unfold f, search_file. destruct (cap_at_spec limit (sort_by_key h_line l)) as [_ Hl].
    destruct (cap_at _ _) as [kept omitted]. simpl in *.
    rewrite (proj1 (group_by_declaration_spec kept _)), length_fmap, Hl. by rewrite sort_by_key_perm. }
  rewrite (group_map_paths h_path f sf_path hits Hpath). split_and!; try done.
  - by apply (group_map_sum h_path f (fun f => length (concat (sd_hits <$> sf_declarations f)) + sf_omitted f)).
  - apply bt_group_sorted.
  - intros path. apply bt_group_keys.
  - apply Forall_fmap, Forall_forall. intros [path l] Hin. apply bt_group_elem in Hin as [-> _].
    set (file := filter (key_is h_path path) hits).
    destruct (cap_at_spec limit (sort_by_key h_line file)) as [Hk _].
    exists (cap_at limit (sort_by_key h_line file)).1, (sort_by_key h_line file). unfold compose. rewrite Hpath. cbn [fst].
    unfold f, search_file. fold file. destruct (cap_at _ _) as [kept omitted]. simpl in *.
    destruct (group_by_declaration_spec kept (bt_get path (skeletons_by_path skeletons))) as (H1 & H2 & H3 & H4).
    split_and!; [apply sort_by_key_perm|apply sort_by_key_sorted|done..].
Qed.

(** An annotation answer lists every annotated declaration exactly once: its total is the sum
    over its groups, groups come in strictly increasing path order, and each group is its file's
    declarations in line, then name, order. *)
Theorem annotated_lists_all (annotation : str) (declarations : list AnnotatedDeclaration) :
  let answer := build_annotated annotation declarations in
  ad_total answer = length declarations /\
  sum_list ((fun g => length (ag_declarations g)) <$> ad_groups answer) = ad_total answer /\
  StronglySorted ord_lt (ag_path <$> ad_groups answer) /\
  (annotated_is_empty answer = true <-> ad_groups answer = []) /\
  Forall (fun g =>
    ag_declarations g ≡ₚ annotated_member <$> filter (fun d => a_path d = ag_path g) declarations /\
    StronglySorted (fun m m' => ord_le (m_line m, m_fqn m) (m_line m', m_fqn m')) (ag_declarations g))
    (ad_groups answer).
Proof.
  intros answer. subst answer. cbn [build_annotated ad_total ad_groups].
  set (f := fun '(path, members) => mkAnnotatedGroup path _).
  assert (forall e, ag_path (f e) = e.1) as Hpath by by intros [].
  assert (forall e, length (ag_declarations (f e)) = length e.2) as Hsize.
  { intros [path l]. simpl. by rewrite length_fmap, sort_by_key_perm. }
  rewrite (group_map_paths a_path f ag_path declarations Hpath). split_and!; try done.
  - by apply group_map_sum.
  - apply bt_group_sorted.
  - unfold annotated_is_empty. cbn [build_annotated ad_total]. rewrite bool_decide_eq_true. split.
    + intros ->%length_zero_iff_nil. done.
    + intros Hnil. apply fmap_nil_inv in Hnil.
      rewrite <- (bt_group_concat a_path declarations), Hnil. done.
  - apply Forall_fmap, Forall_forall. intros [path l] Hin. apply bt_group_elem in Hin as [-> _]. simpl. split.
    + f_equiv. apply sort_by_key_perm.
    + pose proof (sort_by_key_sorted annotated_key (filter (key_is a_path path) declarations)) as Hs.
      induction Hs as [|x k _ IH Hx]; constructor; [done|]. by apply Forall_fmap.
Qed.
