(* ===== verification/Implementors.v ===== *)
(** * Implementors: the transitive subtypes of a type, by name

    Models [crates/ktsense-core/src/implementors.rs]: a breadth-first walk over supertype
    clauses with a depth cap, an expansion guard per name and a guard per location. *)
From stdpp Require Import gmap.
From S2P Require Import Prelude Collections.

Set Default Proof Using "Type*".

Definition SUPERTYPE_PRECISION : str := lit "text match (supertypes matched by name)".
Definition DEPTH_CAP : nat := 8.

Record TypeNode := mkTypeNode {
  n_fqn : str;
  n_simple_name : str;
  n_path : str;
  n_line : N;
  n_supertypes : list str }.

Record SupertypeImplementor := mkImplementor {
  i_fqn : str;
  i_path : str;
  i_line : N;
  i_via : option str }.
Record SupertypeImplementors := mkImplementors {
  i_precision : str;
  i_implementors : list SupertypeImplementor }.

(** The walk's local variables. *)
Record Walk := mkWalk {
  w_implementors : list SupertypeImplementor;
  w_emitted : gset (str * N);
  w_expanded : gset str;
  w_queue : list (str * nat) }.

Definition location (n : TypeNode) : str * N := (n_path n, n_line n).

(** [children.entry(supertype).or_default().push(index)] for every node and clause entry. *)
Definition index_children (nodes : list TypeNode) : list (str * list nat) :=
  foldl (fun children '(supertype, index) => bt_push supertype index children) []
    (concat (imap (fun index node => (fun s => (s, index)) <$> n_supertypes node) nodes)).

(** The comparator on [(&nodes[i].path, nodes[i].line)]; indices are in range. *)
Definition node_key (nodes : list TypeNode) (index : nat) : option (str * N) := location <$> nodes !! index.

(** One turn of the [for index in indices] loop. *)
Definition emit (target parent : str) (depth : nat) (node : TypeNode) (w : Walk) : Walk :=
  if decide (location node ∈ w_emitted w) then w
  else mkWalk
    (w_implementors w ++
       [mkImplementor (n_fqn node) (n_path node) (n_line node)
          (if decide (parent = target) then None else Some parent)])
    ({[location node]} ∪ w_emitted w) (w_expanded w)
    (w_queue w ++ [(n_simple_name node, S depth)]).

Fixpoint emit_all (target parent : str) (depth : nat) (nodes : list TypeNode) (indices : list nat) (w : Walk)
    : option Walk :=
  match indices with
  | [] => Some w
  | index :: indices' =>
      node ← nodes !! index;
      emit_all target parent depth nodes indices' (emit target parent depth node w)
  end.

(** One turn of the [while let Some(..) = queue.pop_front()] loop. *)
Definition bfs_step (target : str) (nodes : list TypeNode) (children : list (str * list nat)) (w : Walk)
    (parent : str) (depth : nat) (queue : list (str * nat)) : option Walk :=
  if (DEPTH_CAP <=? depth) then Some (mkWalk (w_implementors w) (w_emitted w) (w_expanded w) queue)
  else if decide (parent ∈ w_expanded w)
  then Some (mkWalk (w_implementors w) (w_emitted w) (w_expanded w) queue)
  else
    let indices := sort_by_key (node_key nodes) (default [] (bt_get parent children)) in
    emit_all target parent depth nodes indices
      (mkWalk (w_implementors w) (w_emitted w) ({[parent]} ∪ w_expanded w) queue).

Fixpoint bfs_loop (fuel : nat) (target : str) (nodes : list TypeNode) (children : list (str * list nat))
    (w : Walk) : option Walk :=
  match w_queue w with
  | [] => Some w
  | (parent, depth) :: queue =>
      match fuel with
      | O => None
      | S fuel' => w' ← bfs_step target nodes children w parent depth queue;
                   bfs_loop fuel' target nodes children w'
      end
  end.

(** A name is queued once per node at most, and the target once. *)
Definition bfs_fuel (nodes : list TypeNode) : nat := S (length nodes).

Definition resolve_supertype_implementors (target : str) (nodes : list TypeNode) : option SupertypeImplementors :=
  w ← bfs_loop (bfs_fuel nodes) target nodes (index_children nodes) (mkWalk [] ∅ ∅ [(target, 0)]);
  Some (mkImplementors SUPERTYPE_PRECISION (w_implementors w)).

Definition fish : list TypeNode :=
  let t name line supers := mkTypeNode (lit "sea." ++ name) name (lit "Sea.java") line supers in
  [t (lit "Fish") 1%N []; t (lit "Shark") 2%N [lit "Fish"]; t (lit "Mako") 3%N [lit "Shark"];
   t (lit "Eel") 4%N [lit "Fish"; lit "Shark"]; t (lit "Crab") 5%N [lit "Crab"]].
Example fish_implementors :
  (fun i => (i_fqn i, i_via i)) <$> default [] (i_implementors <$> resolve_supertype_implementors (lit "Fish") fish)
  = [(lit "sea.Shark", None); (lit "sea.Eel", None); (lit "sea.Mako", Some (lit "Shark"))].
Proof. vm_compute. reflexivity. Qed.

(** ** What the walk should find *)

(** [reach k p]: [p] names the target ([k = 0]) or a subtype [k] clauses below it. *)
Inductive reach (target : str) (nodes : list TypeNode) : nat -> str -> Prop :=
  | reach_target : reach target nodes 0 target
  | reach_subtype k p n : reach target nodes k p -> n ∈ nodes -> p ∈ n_supertypes n ->
      reach target nodes (S k) (n_simple_name n).

(** Node [n] is a subtype the walk may look for. *)
Definition subtype_within (target : str) (nodes : list TypeNode) (n : TypeNode) : Prop :=
  exists k p, k < DEPTH_CAP /\ reach target nodes k p /\ p ∈ n_supertypes n.

(** ** Lemmas: the children index *)

Lemma index_children_spec nodes p i :
  i ∈ default [] (bt_get p (index_children nodes)) <-> exists n, nodes !! i = Some n /\ p ∈ n_supertypes n.
Proof.
  unfold index_children.
  set (l := concat (imap (fun index node => (fun s => (s, index)) <$> n_supertypes node) nodes)).
  assert ((p, i) ∈ l <-> exists n, nodes !! i = Some n /\ p ∈ n_supertypes n) as <-.
  { unfold l. rewrite elem_of_concat. split.
    - intros (k & Hk & Hin). apply elem_of_lookup_imap in Hk as (j & n & -> & Hn).
      apply list_elem_of_fmap in Hin as (s & [= -> ->] & Hs). eauto.
    - intros (n & Hn & Hp). exists ((fun s => (s, i)) <$> n_supertypes n). split.
      + apply elem_of_lookup_imap. eauto.
      + apply list_elem_of_fmap. eauto. }
  assert (forall l m, bt_sorted m ->
    i ∈ default [] (bt_get p (foldl (fun children '(supertype, index) => bt_push supertype index children) m l))
    <-> i ∈ default [] (bt_get p m) \/ (p, i) ∈ l) as Hfold.
  { clear. induction l as [|[s j] l IH]; intros m Hm; cbn [foldl].
    { split; [auto|]. by intros [|?%elem_of_nil]. }
    rewrite IH by by apply bt_sorted_upsert.
    change (i ∈ bt_values p (bt_push s j m) \/ (p, i) ∈ l <-> i ∈ bt_values p m \/ (p, i) ∈ (s, j) :: l).
    rewrite bt_values_push, elem_of_cons by done. naive_solver. }
  rewrite Hfold by constructor. simpl. split; [|auto]. by intros [?%elem_of_nil|].
Qed.

(** ** Lemmas: one expansion *)

Section expansion.
Context (target parent : str) (depth : nat).

(** What emitting a list of nodes does to the walk. *)
Record emitted_step (ns : list TypeNode) (w w' : Walk) : Prop := {
  E_expanded : w_expanded w' = w_expanded w;
  E_new : exists fresh,
    w_implementors w' = w_implementors w ++
      ((fun n => mkImplementor (n_fqn n) (n_path n) (n_line n)
          (if decide (parent = target) then None else Some parent)) <$> fresh) /\
    w_queue w' = w_queue w ++ ((fun n => (n_simple_name n, S depth)) <$> fresh) /\
    (forall n, n ∈ fresh -> n ∈ ns) /\
    NoDup (location <$> fresh) /\ (forall n, n ∈ fresh -> location n ∉ w_emitted w) /\
    (forall x, x ∈ w_emitted w' <-> x ∈ w_emitted w \/ x ∈ location <$> fresh) /\
    (forall n, n ∈ ns -> location n ∈ w_emitted w') }.

Lemma emit_skip n w : location n ∈ w_emitted w -> emit target parent depth n w = w.
Proof. intros. unfold emit. by rewrite decide_True. Qed.

Lemma emit_new n w :
  location n ∉ w_emitted w ->
  emit target parent depth n w = mkWalk
    (w_implementors w ++ [mkImplementor (n_fqn n) (n_path n) (n_line n)
          (if decide (parent = target) then None else Some parent)])
    ({[location n]} ∪ w_emitted w) (w_expanded w) (w_queue w ++ [(n_simple_name n, S depth)]).
Proof. intros. unfold emit. by rewrite decide_False. Qed.

Lemma emit_list_step ns w : emitted_step ns w (foldl (fun w n => emit target parent depth n w) w ns).
Proof.
  revert w. induction ns as [|n ns IH]; intros w; simpl.
  { split; [done|]. exists []. rewrite !app_nil_r. split_and!; try done; try (by intros ? ?%elem_of_nil).
    - constructor.
    - intros x. split; [auto|]. by intros [|?%elem_of_nil]. }
  destruct (IH (emit target parent depth n w)) as [Hexp (fresh & Hi & Hq & Hsub & Hnd & Hfr & Hem & Hall)]. clear IH.
  destruct (decide (location n ∈ w_emitted w)) as [Hin|Hin].
  - rewrite emit_skip in * by done. split; [done|]. exists fresh. split_and!; try done.
    + intros m Hm. right. auto.
    + intros m [->|Hm]%elem_of_cons; [|auto]. apply Hem. auto.
  - rewrite emit_new in * by done. cbn [w_implementors w_emitted w_expanded w_queue] in *.
    split; [done|]. exists (n :: fresh). rewrite !fmap_cons, Hi, Hq, <- !app_assoc.
    split_and!; try done.
    + intros m [->|Hm]%elem_of_cons; [left|right; auto].
    + constructor; [|done]. intros (m & Hl & Hm)%list_elem_of_fmap. apply (Hfr m Hm). rewrite <- Hl. set_solver.
    + intros m [->|Hm]%elem_of_cons; [done|]. intros Hw. apply (Hfr m Hm). set_solver.
    + intros x. rewrite Hem, elem_of_union, elem_of_singleton, elem_of_cons. tauto.
    + intros m [->|Hm]%elem_of_cons; [|auto]. apply Hem. set_solver.
Qed.

Lemma emit_all_list nodes indices w ns :
  Forall2 (fun i n => nodes !! i = Some n) indices ns ->
  emit_all target parent depth nodes indices w = Some (foldl (fun w n => emit target parent depth n w) w ns).
Proof.
  intros Hl. revert w. induction Hl as [|i n indices ns Hi _ IH]; intros w; [done|]. simpl. by rewrite Hi; simpl.
Qed.

End expansion.

Lemma indices_nodes (nodes : list TypeNode) (indices : list nat) :
  (forall i, i ∈ indices -> is_Some (nodes !! i)) ->
  exists ns, Forall2 (fun i n => nodes !! i = Some n) indices ns.
Proof.
  induction indices as [|i indices IH]; intros Hi; [by exists []|].
  destruct (Hi i ltac:(left)) as [n Hn]. destruct IH as [ns Hns]; [intros; apply Hi; by right|].
  exists (n :: ns). by constructor.
Qed.

(** Expanding a name emits every node that lists it as a supertype. *)
Lemma expand_spec target nodes parent depth w :
  exists ns w', emit_all target parent depth nodes
      (sort_by_key (node_key nodes) (default [] (bt_get parent (index_children nodes)))) w = Some w' /\
    (forall n, n ∈ ns <-> n ∈ nodes /\ parent ∈ n_supertypes n) /\
    emitted_step target parent depth ns w w'.
Proof.
  set (indices := sort_by_key _ _).
  assert (forall i, i ∈ indices <-> exists n, nodes !! i = Some n /\ parent ∈ n_supertypes n) as Hin.
  { intros i. unfold indices. by rewrite sort_by_key_perm, index_children_spec. }
  destruct (indices_nodes nodes indices) as [ns Hns].
  { intros i (n & Hn & _)%Hin. eauto. }
  exists ns. eexists. split; [by apply emit_all_list|]. split; [|apply emit_list_step].
  intros n. split.
  - intros [k Hk]%list_elem_of_lookup. destruct (Forall2_lookup_r _ _ _ _ _ Hns Hk) as (i & Hi & Hin').
    apply list_elem_of_lookup_2, Hin in Hi as (m & Hm & Hp). simplify_eq. split; [|done].
    by eapply list_elem_of_lookup_2.
  - intros [[i Hi]%list_elem_of_lookup Hp].
    assert (i ∈ indices) as [k Hk]%list_elem_of_lookup by (apply Hin; eauto).
    destruct (Forall2_lookup_l _ _ _ _ _ Hns Hk) as (m & Hm & Hmi). simplify_eq. by eapply list_elem_of_lookup_2.
Qed.

(** ** Lemmas: termination *)

(** Entries still to pop plus locations still to emit. *)
Definition bfs_measure (nodes : list TypeNode) (w : Walk) : nat :=
  length (w_queue w) + size (list_to_set (location <$> nodes) ∖ w_emitted w : gset (str * N)).

Lemma emitted_size (L em em' : gset (str * N)) (fresh : list (str * N)) :
  NoDup fresh -> (forall x, x ∈ fresh -> x ∈ L /\ x ∉ em) -> (forall x, x ∈ em' <-> x ∈ em \/ x ∈ fresh) ->
  size (L ∖ em') + length fresh = size (L ∖ em).
Proof.
  intros Hn Hf He. rewrite <- (size_list_to_set (C := gset (str * N)) fresh Hn), <- size_union by set_solver.
  f_equal. apply leibniz_equiv. intros x. rewrite elem_of_union, !elem_of_difference, elem_of_list_to_set.
  destruct (decide (x ∈ fresh)); naive_solver.
Qed.

Lemma bfs_step_total target nodes w parent depth queue :
  w_queue w = (parent, depth) :: queue ->
  exists w', bfs_step target nodes (index_children nodes) w parent depth queue = Some w' /\
    bfs_measure nodes w' < bfs_measure nodes w.
Proof.
  intros Hq. unfold bfs_step, bfs_measure. rewrite Hq.
  destruct (DEPTH_CAP <=? depth); [eexists; split; [done|simpl; lia]|].
  case_decide; [eexists; split; [done|simpl; lia]|].
  destruct (expand_spec target nodes parent depth (mkWalk (w_implementors w) (w_emitted w) ({[parent]} ∪ w_expanded w) queue))
    as (ns & w' & -> & Hns & [_ (fresh & _ & Hq' & Hsub & Hnd & Hfr & Hem & _)]).
  exists w'. split; [done|]. rewrite Hq', length_app, length_fmap. simpl in *.
  rewrite <- (emitted_size (list_to_set (location <$> nodes)) (w_emitted w) (w_emitted w') (location <$> fresh)); try done.
  - rewrite length_fmap. lia.
  - intros x (n & -> & Hn)%list_elem_of_fmap. split; [|by apply Hfr].
    apply elem_of_list_to_set, list_elem_of_fmap. exists n. split; [done|]. by apply Hns, Hsub.
Qed.

Lemma bfs_loop_total target nodes fuel w :
  bfs_measure nodes w <= fuel -> is_Some (bfs_loop fuel target nodes (index_children nodes) w).
Proof.
  revert w. induction fuel as [|fuel IH]; intros w Hm; simpl; destruct (w_queue w) as [|[parent depth] queue] eqn:Hq; eauto.
  - unfold bfs_measure in Hm. rewrite Hq in Hm. simpl in Hm. lia.
  - destruct (bfs_step_total target nodes w parent depth queue Hq) as (w' & -> & Hlt). simpl. apply IH. lia.
Qed.

Lemma bfs_measure_init target nodes : bfs_measure nodes (mkWalk [] ∅ ∅ [(target, 0)]) <= bfs_fuel nodes.
Proof.
  unfold bfs_measure, bfs_fuel. simpl. apply le_n_S.
  assert (list_to_set (location <$> nodes) ∖ ∅ = list_to_set (location <$> nodes) :> gset (str * N)) as -> by set_solver.
  induction nodes as [|n ns IH]; csimpl; [done|]. rewrite size_union_alt, size_singleton.
  assert (size (list_to_set (location <$> ns) ∖ {[location n]} : gset (str * N)) <= size (list_to_set (location <$> ns) : gset (str * N)))
    by (apply subseteq_size; set_solver). lia.
Qed.

(** ** Lemmas: the whole walk *)

Section walk.
Context (target : str) (nodes : list TypeNode).

(** [x] has been, or will be, expanded at depth [m] or above; or lies too deep. *)
Definition known (w : Walk) (level : str -> nat) (x : str) (m : nat) : Prop :=
  (x ∈ w_expanded w /\ level x <= m) \/ (exists d, d <= m /\ (x, d) ∈ w_queue w) \/ DEPTH_CAP <= m.

(** [c] is the depth of the walk, [level] the depth each name was expanded at. *)
Record bfs_inv (w : Walk) (level : str -> nat) (c : nat) : Prop := {
  B_emitted : forall x, x ∈ w_emitted w <-> exists i, i ∈ w_implementors w /\ x = (i_path i, i_line i);
  B_nodup : NoDup ((fun i => (i_path i, i_line i)) <$> w_implementors w);
  B_sound : forall i, i ∈ w_implementors w -> exists n k p, n ∈ nodes /\ reach target nodes k p /\ k < DEPTH_CAP /\
     p ∈ n_supertypes n /\ i = mkImplementor (n_fqn n) (n_path n) (n_line n) (if decide (p = target) then None else Some p);
  B_queue : forall x d, (x, d) ∈ w_queue w -> reach target nodes d x;
  B_depths : exists q1 q2, w_queue w = q1 ++ q2 /\ Forall (fun e => e.2 = c) q1 /\ Forall (fun e => e.2 = S c) q2;
  B_level : forall x, x ∈ w_expanded w -> level x <= c;
  B_names : forall n, n ∈ nodes -> location n ∈ w_emitted w -> known w level (n_simple_name n) (S c);
  B_done : forall x n, x ∈ w_expanded w -> n ∈ nodes -> x ∈ n_supertypes n ->
     location n ∈ w_emitted w /\ known w level (n_simple_name n) (S (level x));
  B_target : known w level target 0;
  B_direct : ((w_queue w = [(target, 0)] /\ w_implementors w = []) \/ target ∈ w_expanded w) /\
     exists a b, w_implementors w = a ++ b /\ Forall (fun i => i_via i = None) a /\ Forall (fun i => i_via i <> None) b }.

Lemma bfs_inv_init : bfs_inv (mkWalk [] ∅ ∅ [(target, 0)]) (fun _ => 0) 0.
Proof.
  split; simpl; try set_solver.
  - constructor.
  - intros x d [= -> ->]%list_elem_of_singleton. constructor.
  - exists [(target, 0)], []. split_and!; repeat constructor.
  - right. left. exists 0. split; [done|left].
  - split; [by left|]. exists [], []. split_and!; constructor.
Qed.

Lemma known_mono w level x m m' : m <= m' -> known w level x m -> known w level x m'.
Proof.
  intros Hle [[Hx Hm]|[(d & Hd & Hin)|Hc]].
  - left. split; [done|lia].
  - right. left. exists d. split; [lia|done].
  - right. right. lia.
Qed.

(** Popping an entry that is skipped. *)
Lemma known_skip w level x m parent depth queue :
  w_queue w = (parent, depth) :: queue ->
  DEPTH_CAP <= depth \/ (parent ∈ w_expanded w /\ level parent <= depth) ->
  known w level x m -> known (mkWalk (w_implementors w) (w_emitted w) (w_expanded w) queue) level x m.
Proof.
  intros Hq Hskip [Hx|[(d & Hd & Hin)|Hc]]; [by left| |by right; right].
  rewrite Hq in Hin. apply elem_of_cons in Hin as [[= -> ->]|Hin].
  - destruct Hskip as [?|[? ?]]; [right; right; lia|left; split; [done|lia]].
  - right. left. eauto.
Qed.

Definition level_at (level : str -> nat) (x : str) (d : nat) : str -> nat :=
  fun y => if decide (y = x) then d else level y.

(** Popping an entry that is expanded: its name is now known at its depth. *)
Lemma known_expand w w' level x m parent depth queue :
  w_queue w = (parent, depth) :: queue -> parent ∉ w_expanded w ->
  w_expanded w' = {[parent]} ∪ w_expanded w -> (forall e, e ∈ queue -> e ∈ w_queue w') ->
  known w level x m -> known w' (level_at level parent depth) x m.
Proof.
  intros Hq Hp He Hsub [[Hx Hm]|[(d & Hd & Hin)|Hc]].
  - left. split; [set_solver|]. unfold level_at. rewrite decide_False by (intros ->; done). done.
  - rewrite Hq in Hin. apply elem_of_cons in Hin as [[= -> ->]|Hin].
    + left. split; [set_solver|]. unfold level_at. by rewrite decide_True.
    + right. left. eauto.
  - by right; right.
Qed.

Lemma depths_pop w level c parent depth queue :
  bfs_inv w level c -> w_queue w = (parent, depth) :: queue ->
  c <= depth <= S c /\
  exists q1 q2, queue = q1 ++ q2 /\ Forall (fun e => e.2 = depth) q1 /\ Forall (fun e => e.2 = S depth) q2.
Proof.
  intros Hi Hq. destruct (B_depths _ _ _ Hi) as (q1 & q2 & E & H1 & H2). rewrite Hq in E.
  destruct q1 as [|e q1]; simplify_eq/=.
  - apply Forall_cons in H2 as [He H2]. simpl in He. subst.
    split; [lia|].
    eexists _, []. rewrite app_nil_r. split_and!; [done|exact H2|constructor].
  - apply Forall_cons in H1 as [He H1]. simpl in He. subst. split; [lia|]. by exists q1, q2.
Qed.

Hypothesis distinct : NoDup (location <$> nodes).

Lemma same_location n m : n ∈ nodes -> m ∈ nodes -> location n = location m -> n = m.
Proof using distinct.
  intros [i Hi]%list_elem_of_lookup [j Hj]%list_elem_of_lookup E.
  assert (i = j) as ->; [|congruence].
  apply (NoDup_lookup _ _ _ (location n) distinct); by rewrite list_lookup_fmap, ?Hi, ?Hj; simpl; rewrite ?E.
Qed.

Lemma inv_skip w level c parent depth queue :
  bfs_inv w level c -> w_queue w = (parent, depth) :: queue ->
  DEPTH_CAP <= depth \/ parent ∈ w_expanded w ->
  bfs_inv (mkWalk (w_implementors w) (w_emitted w) (w_expanded w) queue) level depth.
Proof.
  intros Hi Hq Hskip. destruct (depths_pop w level c parent depth queue Hi Hq) as [Hc Hd]. destruct Hi.
  assert (DEPTH_CAP <= depth \/ (parent ∈ w_expanded w /\ level parent <= depth)) as Hskip'.
  { destruct Hskip as [?|Hp]; [by left|]. right. split; [done|]. apply B_level0 in Hp. lia. }
  split; simpl; try done.
  - intros x d Hin. apply B_queue0. rewrite Hq. by right.
  - intros x Hx. apply B_level0 in Hx. lia.
  - intros n Hn Hl. eapply known_skip; try done. eapply known_mono; [|by apply B_names0]. lia.
  - intros x n Hx Hn Hp. destruct (B_done0 x n Hx Hn Hp) as [Hl Hk]. split; [done|]. by eapply known_skip.
  - by eapply known_skip.
  - destruct B_direct0 as [[[Hqt _]|Ht] Hab]; split; try done; right; [|done].
    rewrite Hq in Hqt. simplify_eq. destruct Hskip as [?|?]; [unfold DEPTH_CAP in *; lia|done].
Qed.

(** Expanding a name keeps the walk on track. *)
Lemma inv_expand w level c parent depth queue :
  bfs_inv w level c -> w_queue w = (parent, depth) :: queue -> depth < DEPTH_CAP -> parent ∉ w_expanded w ->
  exists w', bfs_step target nodes (index_children nodes) w parent depth queue = Some w' /\
    bfs_inv w' (level_at level parent depth) depth.
Proof using distinct.
  intros Hi Hq Hcap Hp. destruct (depths_pop w level c parent depth queue Hi Hq) as [Hc (q1 & q2 & Eq & H1 & H2)].
  unfold bfs_step. rewrite (proj2 (Nat.leb_gt _ _)) by done. rewrite decide_False by done.
  destruct (expand_spec target nodes parent depth (mkWalk (w_implementors w) (w_emitted w) ({[parent]} ∪ w_expanded w) queue))
    as (ns & w' & -> & Hns & [Hexp (fresh & Himp & Hq' & Hsub & Hnd & Hfr & Hem & Hall)]).
  exists w'. split; [done|]. simpl in *.
  assert (reach target nodes depth parent) as Hreach by (apply (B_queue _ _ _ Hi); rewrite Hq; left).
  assert (forall x m, known w level x m -> known w' (level_at level parent depth) x m) as Hknown.
  { intros x m. apply known_expand with queue; try done. intros e He. rewrite Hq'. apply elem_of_app. auto. }
  assert (forall n, n ∈ fresh -> n ∈ nodes /\ parent ∈ n_supertypes n) as Hfresh by (intros n Hn; by apply Hns, Hsub).
  assert (forall n, n ∈ nodes -> location n ∈ w_emitted w' ->
    known w' (level_at level parent depth) (n_simple_name n) (S depth)) as Hnames.
  { intros n Hn [Hl|(f & Hlf & Hf)%list_elem_of_fmap]%Hem.
    - apply Hknown. eapply known_mono; [|by apply (B_names _ _ _ Hi)]. lia.
    - assert (n = f) as -> by (apply same_location; [done|by apply Hfresh|done]).
      right. left. exists (S depth). split; [done|]. rewrite Hq'. apply elem_of_app. right.
      apply list_elem_of_fmap. by exists f. }
  destruct Hi. split.
  - intros x. rewrite Hem, B_emitted0, Himp. setoid_rewrite elem_of_app. rewrite list_elem_of_fmap. split.
    + intros [(i & Hi & ->)|(n & -> & Hn)]; [eauto|]. eexists. split; [right; apply list_elem_of_fmap; eauto|done].
    + intros (i & [Hi|(n & -> & Hn)%list_elem_of_fmap] & ->); [left; eauto|right; by exists n].
  - rewrite Himp, fmap_app, <- list_fmap_compose. apply NoDup_app. split_and!; [done| |done].
    intros x Hx Hx'. assert (x ∈ w_emitted w) as Hxe.
    { apply B_emitted0. apply list_elem_of_fmap in Hx as (i & -> & Hi). by exists i. }
    apply list_elem_of_fmap in Hx' as (n & -> & Hn). by apply (Hfr n Hn).
  - intros i. rewrite Himp. intros [Hi|(n & -> & Hn)%list_elem_of_fmap]%elem_of_app; [auto|].
    destruct (Hfresh n Hn). exists n, depth, parent. by split_and!.
  - intros x d. rewrite Hq'. intros [Hin|(n & [= -> ->] & Hn)%list_elem_of_fmap]%elem_of_app.
    + apply B_queue0. rewrite Hq. by right.
    + destruct (Hfresh n Hn). by eapply reach_subtype.
  - exists q1, (q2 ++ ((fun n => (n_simple_name n, S depth)) <$> fresh)). rewrite Hq', Eq, app_assoc.
    split_and!; [done|done|]. apply Forall_app. split; [done|]. apply Forall_fmap, Forall_forall. done.
  - intros x. rewrite Hexp, elem_of_union, elem_of_singleton. unfold level_at. destruct (decide (x = parent)); [lia|].
    intros [?|Hx]; [done|]. apply B_level0 in Hx. lia.
  - done.
  - intros x n. rewrite Hexp, elem_of_union, elem_of_singleton. intros Hx Hn Hs.
    destruct (decide (x = parent)) as [->|Hne].
    + assert (location n ∈ w_emitted w') as Hl by by apply Hall, Hns.
      split; [done|]. unfold level_at at 2. rewrite decide_True by done. auto.
    + destruct Hx as [?|Hx]; [done|]. destruct (B_done0 x n Hx Hn Hs) as [Hl Hk]. split; [apply Hem; auto|].
      unfold level_at at 2. rewrite decide_False by done. auto.
  - auto.
  - destruct B_direct0 as [Hd (a & b & Eab & Ha & Hb)]. rewrite Himp.
    destruct (decide (parent = target)) as [->|Hne].
    + destruct Hd as [[_ Hnil]|?]; [|done]. split; [right; rewrite Hexp; set_solver|].
      eexists _, []. rewrite app_nil_r, Hnil. split_and!; [done| |constructor].
      apply Forall_fmap, Forall_forall. done.
    + split.
      * destruct Hd as [[Hqt _]|?]; [congruence|right; rewrite Hexp; set_solver].
      * eexists a, _. rewrite Eab, <- app_assoc. split_and!; [done|done|]. apply Forall_app. split; [done|].
        apply Forall_fmap, Forall_forall. done.
Qed.

Lemma bfs_loop_inv fuel w level c w' :
  bfs_inv w level c -> bfs_loop fuel target nodes (index_children nodes) w = Some w' ->
  exists level' c', bfs_inv w' level' c' /\ w_queue w' = [].
Proof using distinct.
  revert w level c. induction fuel as [|fuel IH]; intros w level c Hi; simpl;
    destruct (w_queue w) as [|[parent depth] queue] eqn:Hq; try done; try (intros [= <-]; eauto).
  intros Hr. destruct (decide (DEPTH_CAP <= depth \/ parent ∈ w_expanded w)) as [Hskip|Hskip].
  - pose proof (inv_skip w level c parent depth queue Hi Hq Hskip) as Hi'.
    assert (bfs_step target nodes (index_children nodes) w parent depth queue
      = Some (mkWalk (w_implementors w) (w_emitted w) (w_expanded w) queue)) as E.
    { unfold bfs_step. destruct (DEPTH_CAP <=? depth) eqn:Hd; [done|]. apply Nat.leb_gt in Hd.
      rewrite decide_True; [done|]. destruct Hskip; [lia|done]. }
    rewrite E in Hr. simpl in Hr. by eapply IH.
  - destruct (inv_expand w level c parent depth queue Hi Hq) as (w1 & E & Hi'); [lia|tauto|].
    rewrite E in Hr. simpl in Hr. by eapply IH.
Qed.

(** When the queue is empty, every name in reach has been expanded in time. *)
Lemma inv_done_expanded w level c k p :
  bfs_inv w level c -> w_queue w = [] -> reach target nodes k p -> k < DEPTH_CAP ->
  p ∈ w_expanded w /\ level p <= k.
Proof.
  intros Hi Hq Hr. destruct Hi. induction Hr as [|k q n Hr IH Hn Hqn]; intros Hk.
  - destruct B_target0 as [?|[(d & _ & Hin)|?]]; [done| |unfold DEPTH_CAP in *; lia].
    rewrite Hq in Hin. by apply elem_of_nil in Hin.
  - destruct IH as [He Hl]; [lia|]. destruct (B_done0 q n He Hn Hqn) as [_ [[? ?]|[(d & _ & Hin)|?]]].
    + split; [done|lia].
    + rewrite Hq in Hin. by apply elem_of_nil in Hin.
    + lia.
Qed.
End walk.

Lemma implementors_walk (target : str) (nodes : list TypeNode) :
  exists answer, resolve_supertype_implementors target nodes = Some answer /\
  (NoDup (location <$> nodes) ->
   let rows := i_implementors answer in
   NoDup ((fun i => (i_path i, i_line i)) <$> rows) /\
   (forall n, n ∈ nodes ->
      (location n ∈ (fun i => (i_path i, i_line i)) <$> rows <-> subtype_within target nodes n)) /\
   (forall i, i ∈ rows -> exists n p, n ∈ nodes /\ p ∈ n_supertypes n /\
      i = mkImplementor (n_fqn n) (n_path n) (n_line n) (if decide (p = target) then None else Some p)) /\
   exists direct transitive, rows = direct ++ transitive /\
      Forall (fun i => i_via i = None) direct /\ Forall (fun i => i_via i <> None) transitive).
Proof.
  unfold resolve_supertype_implementors.
  destruct (bfs_loop_total target nodes (bfs_fuel nodes) (mkWalk [] ∅ ∅ [(target, 0)]) (bfs_measure_init target nodes)) as [w Hw].
  rewrite Hw. simpl. eexists. split; [done|]. intros Hd. simpl.
  destruct (bfs_loop_inv target nodes Hd _ _ _ _ w (bfs_inv_init target nodes) Hw) as (level & c & Hi & Hq).
  split_and!.
  - apply Hi.
  - intros n Hn. split.
    + intros (i & Hl & Hrow)%list_elem_of_fmap.
      destruct (B_sound _ _ _ _ _ Hi i Hrow) as (m & k & p & Hm & Hr & Hk & Hp & ->). simpl in Hl.
      assert (n = m) as -> by by apply (same_location nodes Hd). by exists k, p.
    + intros (k & p & Hk & Hr & Hp).
      destruct (inv_done_expanded target nodes Hd w level c k p Hi Hq Hr Hk) as [He _].
      destruct (B_done _ _ _ _ _ Hi p n He Hn Hp) as [Hl _].
      apply (B_emitted _ _ _ _ _ Hi) in Hl as (i & Hrow & ->). apply list_elem_of_fmap. by exists i.
  - intros i Hrow. destruct (B_sound _ _ _ _ _ Hi i Hrow) as (n & k & p & ? & ? & ? & ? & ?). by exists n, p.
  - apply Hi.
Qed.

(** ** Properties *)

(** C5: The walk always ends, and when distinct types have distinct locations its answer is exactly
    the subtypes within [DEPTH_CAP] levels: a type is listed if and only if one of its supertype
    clauses names the target or a subtype fewer than eight levels down; none is listed twice;
    every row names a declared type and, unless direct, the parent it was reached through; and
    all direct subtypes come before all transitive ones. Cycles cannot loop it. *)
Theorem implementors_exact (target : str) (nodes : list TypeNode) :
  exists answer, resolve_supertype_implementors target nodes = Some answer /\
  (NoDup (location <$> nodes) ->
   let rows := i_implementors answer in
   NoDup ((fun i => (i_path i, i_line i)) <$> rows) /\
   (forall n, n ∈ nodes ->
      (location n ∈ (fun i => (i_path i, i_line i)) <$> rows <-> subtype_within target nodes n)) /\
   (forall i, i ∈ rows -> exists n p, n ∈ nodes /\ p ∈ n_supertypes n /\
      i = mkImplementor (n_fqn n) (n_path n) (n_line n) (if decide (p = target) then None else Some p)) /\
   exists direct transitive, rows = direct ++ transitive /\
      Forall (fun i => i_via i = None) direct /\ Forall (fun i => i_via i <> None) transitive).
Proof. exact (implementors_walk target nodes). Qed.

(** ** Witnesses *)

Lemma implementors_exact_witness :
  exists answer, resolve_supertype_implementors (lit "Fish") fish = Some answer /\
    (lit "Sea.java", 3%N) ∈ (fun i => (i_path i, i_line i)) <$> i_implementors answer.
Proof.
  destruct (implementors_exact (lit "Fish") fish) as (answer & E & Hspec). exists answer. split; [exact E|].
  destruct Hspec as (_ & Hin & _).
  - apply (bool_decide_unpack _). vm_compute. exact I.
  - apply (Hin (mkTypeNode (lit "sea.Mako") (lit "Mako") (lit "Sea.java") 3%N [lit "Shark"])).
    + apply (list_elem_of_lookup_2 _ 2). reflexivity.
    + exists 1, (lit "Shark"). split; [unfold DEPTH_CAP; lia|]. split; [|left].
      apply (reach_subtype _ _ 0 (lit "Fish") (mkTypeNode (lit "sea.Shark") (lit "Shark") (lit "Sea.java") 2%N [lit "Fish"])).
      * apply reach_target.
      * apply (list_elem_of_lookup_2 _ 1). reflexivity.
      * left.
Defined.
