(* ===== verification/Imports.v ===== *)
(** * Imports: the import dependency graph

    Models [crates/ktsense-core/src/imports.rs]: the workspace index, the resolution of one
    import against it, and the graph of resolved imports with its cycles. *)
From stdpp Require Import relations.
From S2P Require Import Prelude Collections Skeleton Graph Scc.

Set Default Proof Using "Type*".

Inductive DepLevel := FileLevel | PackageLevel.

Definition noun (level : DepLevel) : str :=
  match level with FileLevel => lit "file" | PackageLevel => lit "package" end.

Record DepEdge := mkDepEdge { de_from : str; de_to : str }.
Record ExternalImport := mkExternal { ex_source : str; ex_import : str }.
Record ImportGraph := mkImportGraph {
  ig_level : DepLevel;
  ig_nodes : list str;
  ig_edges : list DepEdge;
  ig_external : list ExternalImport;
  ig_cycles : list (list str) }.

Inductive Resolution := InternalTargets (targets : list str) | External_.

Record WorkspaceIndex := mkIndex {
  packages : list str;
  names_by_package : list (str * list str);
  files_by_package : list (str * list str);
  files_by_symbol : list ((str * str) * list str) }.

(** The inner loop of [WorkspaceIndex::build], over a file's top-level declarations. *)
Definition index_declaration (package path : str) (index : WorkspaceIndex) (declaration : Declaration) : WorkspaceIndex :=
  mkIndex (packages index)
    (bt_upsert package (fun names => bs_insert (d_name declaration) (default [] names)) (names_by_package index))
    (files_by_package index)
    (bt_push (package, d_name declaration) path (files_by_symbol index)).

Definition index_file (index : WorkspaceIndex) (file : FileSkeleton) : WorkspaceIndex :=
  match fs_package file with
  | None => index
  | Some package =>
      foldl (index_declaration package (fs_path file))
        (mkIndex (bs_insert package (packages index)) (names_by_package index)
           (bt_push package (fs_path file) (files_by_package index)) (files_by_symbol index))
        (fs_declarations file)
  end.

(** [WorkspaceIndex::build]. *)
Definition build_index (files : list FileSkeleton) : WorkspaceIndex :=
  let index := foldl index_file (mkIndex [] [] [] []) files in
  mkIndex (packages index) (names_by_package index)
    (prod_map id (fun paths => dedup (sort paths)) <$> files_by_package index)
    (prod_map id (fun paths => dedup (sort paths)) <$> files_by_symbol index).

Definition target_files (index : WorkspaceIndex) (package name : str) (wildcard : bool) : list str :=
  if wildcard then default [] (bt_get package (files_by_package index))
  else default [] (bt_get (package, name) (files_by_symbol index)).

Definition resolve (index : WorkspaceIndex) (import : str) (level : DepLevel) : Resolution :=
  match rsplit_once (ch ".") import with
  | None => External_
  | Some (package, name) =>
      let wildcard := bool_decide (name = lit "*") in
      let internal :=
        if wildcard then bool_decide (package ∈ packages index)
        else match bt_get package (names_by_package index) with
             | Some names => bool_decide (name ∈ names)
             | None => false
             end in
      if negb internal then External_
      else match level with
           | PackageLevel => InternalTargets [package]
           | FileLevel => InternalTargets (target_files index package name wildcard)
           end
  end.

(** The sets the loop of [build_import_graph] fills. *)
Record Collected := mkCollected {
  c_nodes : list str;
  c_edges : list (str * str);
  c_external : list (str * str) }.

Definition source_of (level : DepLevel) (package : str) (file : FileSkeleton) : str :=
  match level with PackageLevel => package | FileLevel => fs_path file end.

Definition collect_import (index : WorkspaceIndex) (level : DepLevel) (source : str) (c : Collected) (import : str)
    : Collected :=
  match resolve index import level with
  | InternalTargets targets =>
      foldl (fun c target =>
        if decide (target = source) then c
        else mkCollected (c_nodes c) (bs_insert (source, target) (c_edges c)) (c_external c)) c targets
  | External_ => mkCollected (c_nodes c) (c_edges c) (bs_insert (source, import) (c_external c))
  end.

Definition collect_file (index : WorkspaceIndex) (level : DepLevel) (c : Collected) (file : FileSkeleton) : Collected :=
  match fs_package file with
  | None => c
  | Some package =>
      let source := source_of level package file in
      foldl (collect_import index level source)
        (mkCollected (bs_insert source (c_nodes c)) (c_edges c) (c_external c)) (fs_imports file)
  end.

Definition build_import_graph (files : list FileSkeleton) (level : DepLevel) : option ImportGraph :=
  let index := build_index files in
  let c := foldl (collect_file index level) (mkCollected [] [] []) files in
  let edges := (fun e => mkDepEdge e.1 e.2) <$> c_edges c in
  let graph := from_edges ((fun e => (de_from e, de_to e)) <$> edges) in
  cyc ← cycles graph;
  Some (mkImportGraph level (c_nodes c) edges ((fun e => mkExternal e.1 e.2) <$> c_external c) cyc).

(** ** What resolution means *)

(** File [f] takes part in package [p] and declares [n] at its top level. *)
Definition declares (f : FileSkeleton) (p n : str) : Prop :=
  fs_package f = Some p /\ exists d, d ∈ fs_declarations f /\ d_name d = n.

(** An import resolves to [target] through a workspace file in the named package that declares
    the name, or through any file of the package for a wildcard. *)
Definition resolves_to (files : list FileSkeleton) (level : DepLevel) (import target : str) : Prop :=
  exists p n f, rsplit_once (ch ".") import = Some (p, n) /\ f ∈ files /\
    (if bool_decide (n = lit "*") then fs_package f = Some p else declares f p n) /\
    target = source_of level p f.

(** [f] writes [import] as node [source]. *)
Definition writes (files : list FileSkeleton) (level : DepLevel) (source import : str) : Prop :=
  exists f p, f ∈ files /\ fs_package f = Some p /\ source = source_of level p f /\ import ∈ fs_imports f.

(** ** Lemmas: the index *)

Record index_ok (files : list FileSkeleton) (ix : WorkspaceIndex) : Prop := {
  X_packages : forall p, p ∈ packages ix <-> exists f, f ∈ files /\ fs_package f = Some p;
  X_names : forall p n, n ∈ bt_values p (names_by_package ix) <-> exists f, f ∈ files /\ declares f p n;
  X_files : forall p path, path ∈ bt_values p (files_by_package ix) <->
     exists f, f ∈ files /\ fs_package f = Some p /\ fs_path f = path;
  X_symbols : forall p n path, path ∈ bt_values (p, n) (files_by_symbol ix) <->
     exists f, f ∈ files /\ declares f p n /\ fs_path f = path }.

Record index_sorted (ix : WorkspaceIndex) : Prop := {
  XS_names : bt_sorted (names_by_package ix);
  XS_files : bt_sorted (files_by_package ix);
  XS_symbols : bt_sorted (files_by_symbol ix) }.

Lemma index_declarations_spec package path ds ix :
  index_sorted ix ->
  let ix' := foldl (index_declaration package path) ix ds in
  index_sorted ix' /\ packages ix' = packages ix /\ files_by_package ix' = files_by_package ix /\
  (forall p n, n ∈ bt_values p (names_by_package ix') <->
     (p = package /\ n ∈ d_name <$> ds) \/ n ∈ bt_values p (names_by_package ix)) /\
  (forall p n q, q ∈ bt_values (p, n) (files_by_symbol ix') <->
     (p = package /\ q = path /\ n ∈ d_name <$> ds) \/ q ∈ bt_values (p, n) (files_by_symbol ix)).
Proof.
  revert ix. induction ds as [|d ds IH]; intros ix [Hn Hf Hs]; cbn [foldl].
  { split_and!; try done; intros; split; auto; set_solver. }
  destruct (IH (index_declaration package path ix d)) as (Hsort & Hp & Hfp & Hnames & Hsym).
  { split; simpl; [by apply bt_sorted_upsert|done|by apply bt_sorted_upsert]. }
  split_and!; try done.
  - intros p n. rewrite Hnames. cbn [index_declaration names_by_package]. rewrite bt_values_insert, fmap_cons, elem_of_cons by done. naive_solver.
  - intros p n q. rewrite Hsym. cbn [index_declaration files_by_symbol]. rewrite bt_values_push, fmap_cons, elem_of_cons by done. naive_solver.
Qed.

Lemma index_file_ok files ix f :
  index_ok files ix -> index_sorted ix -> index_ok (files ++ [f]) (index_file ix f) /\ index_sorted (index_file ix f).
Proof.
  intros [Hp Hn Hf Hs] [Hsn Hsf Hss]. unfold index_file.
  assert (forall (P : FileSkeleton -> Prop), (exists g, g ∈ files ++ [f] /\ P g) <-> P f \/ exists g, g ∈ files /\ P g) as Hsplit.
  { intros P. setoid_rewrite elem_of_app. setoid_rewrite list_elem_of_singleton. naive_solver. }
  destruct (fs_package f) as [package|] eqn:Epkg.
  - destruct (index_declarations_spec package (fs_path f) (fs_declarations f)
      (mkIndex (bs_insert package (packages ix)) (names_by_package ix)
           (bt_push package (fs_path f) (files_by_package ix)) (files_by_symbol ix)))
      as (Hsort & Ep & Ef & Hnames & Hsym); [by split; simpl; [|apply bt_sorted_upsert|]|].
    split; [|done]. split.
    + intros p. rewrite Ep, Hsplit, Epkg, <- Hp. simpl. rewrite bs_elem_insert. naive_solver.
    + intros p n. rewrite Hnames, Hsplit. simpl. rewrite Hn. unfold declares at 2. rewrite Epkg, list_elem_of_fmap. naive_solver.
    + intros p path. rewrite Ef, Hsplit, <- Hf. simpl. rewrite bt_values_push, Epkg by done. naive_solver.
    + intros p n path. rewrite Hsym, Hsplit. simpl. rewrite Hs. unfold declares at 2. rewrite Epkg, list_elem_of_fmap. naive_solver.
  - split; [|by split]. split; intros; rewrite Hsplit; unfold declares; rewrite Epkg.
    + rewrite Hp. naive_solver.
    + rewrite Hn. unfold declares. naive_solver.
    + rewrite Hf. naive_solver.
    + rewrite Hs. unfold declares. naive_solver.
Qed.

Lemma build_index_ok files : index_ok files (build_index files).
Proof.
  assert (index_ok files (foldl index_file (mkIndex [] [] [] []) files) /\
          index_sorted (foldl index_file (mkIndex [] [] [] []) files)) as [[Hp Hn Hf Hs] _].
  { induction files as [|f files [IH1 IH2]] using rev_ind.
    - split; [|by split; constructor]. split; simpl; unfold bt_values; simpl; intros; set_solver.
    - rewrite foldl_app. by apply index_file_ok. }
  split; simpl; try done; intros; by rewrite bt_values_dedup_sort.
Qed.

(** ** Lemmas: resolution *)

Lemma resolve_spec files level import :
  match resolve (build_index files) import level with
  | InternalTargets targets =>
      (exists t, resolves_to files level import t) /\ forall t, t ∈ targets <-> resolves_to files level import t
  | External_ => forall t, ~ resolves_to files level import t
  end.
Proof.
  destruct (build_index_ok files) as [Hp Hn Hf Hs]. unfold resolve, resolves_to.
  destruct (rsplit_once (ch ".") import) as [[p n]|] eqn:E; [|naive_solver].
  set (internal := if bool_decide (n = lit "*") then _ else _).
  assert (internal = true <-> exists f, f ∈ files /\ (if bool_decide (n = lit "*") then fs_package f = Some p else declares f p n)) as Hint.
  { unfold internal. case_bool_decide.
    - by rewrite bool_decide_eq_true, Hp.
    - rewrite <- Hn. unfold bt_values. destruct (bt_get p (names_by_package (build_index files))); simpl.
      + apply bool_decide_eq_true.
      + split; [done|]. by intros ?%elem_of_nil. }
  assert (forall t, t ∈ target_files (build_index files) p n (bool_decide (n = lit "*")) <->
    exists f, f ∈ files /\ (if bool_decide (n = lit "*") then fs_package f = Some p else declares f p n) /\ fs_path f = t) as Htargets.
  { intros t. unfold target_files. case_bool_decide; [apply Hf|apply Hs]. }
  destruct internal; simpl.
  - destruct (proj1 Hint eq_refl) as (f & Hfin & Hfd). destruct level; simpl.
    + split; [by exists (fs_path f), p, n, f|]. intros t. rewrite Htargets. split.
      * intros (g & Hg & Hd & <-). by exists p, n, g.
      * intros (p' & n' & g & [= <- <-] & Hg & Hd & ->). by exists g.
    + split; [by exists p, p, n, f|]. intros t. rewrite list_elem_of_singleton. split.
      * intros ->. by exists p, n, f.
      * by intros (p' & n' & g & [= <- <-] & _ & _ & ->).
  - intros t (p' & n' & g & [= <- <-] & Hg & Hd & _). assert (false = true) by (apply Hint; by exists g). done.
Qed.

(** ** Lemmas: collection *)

(** What the loop has collected from a set of (source, import) pairs and a set of sources. *)
Record collected (files : list FileSkeleton) (level : DepLevel) (sources : str -> Prop) (written : str -> str -> Prop)
    (c : Collected) : Prop := {
  C_nodes : forall a, a ∈ c_nodes c <-> sources a;
  C_edges : forall a b, (a, b) ∈ c_edges c <-> a <> b /\ exists i, written a i /\ resolves_to files level i b;
  C_external : forall a i, (a, i) ∈ c_external c <-> written a i /\ forall b, ~ resolves_to files level i b;
  C_sorted : bs_sorted (c_nodes c) /\ bs_sorted (c_edges c) /\ bs_sorted (c_external c) }.

Lemma collect_targets source c targets :
  bs_sorted (c_edges c) ->
  let c' := foldl (fun c target =>
    if decide (target = source) then c
    else mkCollected (c_nodes c) (bs_insert (source, target) (c_edges c)) (c_external c)) c targets in
  c_nodes c' = c_nodes c /\ c_external c' = c_external c /\ bs_sorted (c_edges c') /\
  forall a b, (a, b) ∈ c_edges c' <-> (a = source /\ b ∈ targets /\ a <> b) \/ (a, b) ∈ c_edges c.
Proof.
  revert c. induction targets as [|t targets IH]; intros c Hs; cbn [foldl].
  { split_and!; try done. intros a b. split; [auto|]. set_solver. }
  destruct (IH (if decide (t = source) then c
    else mkCollected (c_nodes c) (bs_insert (source, t) (c_edges c)) (c_external c))) as (Hn & Hx & Hs' & He).
  { case_decide; [done|]. by apply bs_sorted_insert. }
  split_and!; [by rewrite Hn; case_decide|by rewrite Hx; case_decide|done|].
  intros a b. rewrite He, elem_of_cons. case_decide; simpl; [naive_solver|].
  rewrite bs_elem_insert. naive_solver.
Qed.

Lemma collect_import_ok files level sources written c source import :
  collected files level sources written c ->
  collected files level sources (fun a i => (a = source /\ i = import) \/ written a i)
    (collect_import (build_index files) level source c import).
Proof.
  intros [Hn He Hx (Hs1 & Hs2 & Hs3)]. unfold collect_import.
  pose proof (resolve_spec files level import) as Hr. destruct (resolve (build_index files) import level) as [targets|].
  - destruct Hr as [[t0 Ht0] Ht]. destruct (collect_targets source c targets Hs2) as (E1 & E2 & Hs' & He').
    split.
    + intros a. by rewrite E1.
    + intros a b. rewrite He', He, Ht. naive_solver.
    + intros a i. rewrite E2, Hx. split; [naive_solver|]. intros [[[-> ->]|?] Hnone]; [|done]. by destruct (Hnone t0).
    + by rewrite E1, E2.
  - split; simpl.
    + done.
    + intros a b. rewrite He. split; [naive_solver|]. intros (? & i & [[-> ->]|?] & ?); [by destruct (Hr b)|eauto].
    + intros a i. rewrite bs_elem_insert, Hx. split; [|naive_solver]. intros [[= -> ->]|?]; naive_solver.
    + split_and!; try done. by apply bs_sorted_insert.
Qed.

Lemma collected_ext files level sources sources' written written' c :
  (forall a, sources a <-> sources' a) -> (forall a i, written a i <-> written' a i) ->
  collected files level sources written c -> collected files level sources' written' c.
Proof.
  intros H1 H2 []. split; try done; intros.
  - by rewrite <- H1.
  - rewrite C_edges0. by setoid_rewrite H2.
  - rewrite C_external0. by rewrite H2.
Qed.

Lemma collect_imports_ok files level sources written c source imports :
  collected files level sources written c ->
  collected files level sources (fun a i => (a = source /\ i ∈ imports) \/ written a i)
    (foldl (collect_import (build_index files) level source) c imports).
Proof.
  revert written c. induction imports as [|i imports IH]; intros written c Hc; cbn [foldl].
  { eapply collected_ext; [done| |done]. intros. split; [auto|]. set_solver. }
  eapply collected_ext; [done| |by apply IH, collect_import_ok]. intros a j. simpl. rewrite elem_of_cons. tauto.
Qed.

Lemma collect_files_ok all files level :
  collected all level (fun a => exists f p, f ∈ files /\ fs_package f = Some p /\ a = source_of level p f)
    (writes files level) (foldl (collect_file (build_index all) level) (mkCollected [] [] []) files).
Proof.
  induction files as [|f files IH] using rev_ind.
  { split; simpl; unfold writes; try set_solver. split_and!; constructor. }
  rewrite foldl_app. cbn [foldl]. unfold collect_file. destruct (fs_package f) as [p|] eqn:Ep.
  - assert (collected all level (fun a => a = source_of level p f \/ exists f p, f ∈ files /\ fs_package f = Some p /\ a = source_of level p f)
      (writes files level) (mkCollected (bs_insert (source_of level p f) (c_nodes (foldl (collect_file (build_index all) level) (mkCollected [] [] []) files)))
         (c_edges (foldl (collect_file (build_index all) level) (mkCollected [] [] []) files))
         (c_external (foldl (collect_file (build_index all) level) (mkCollected [] [] []) files)))) as Hc.
    { destruct IH as [Hn He Hx (Hs1 & Hs2 & Hs3)]. split; simpl; try done.
      - intros a. rewrite bs_elem_insert, Hn. done.
      - split_and!; try done. by apply bs_sorted_insert. }
    apply (collect_imports_ok _ _ _ _ _ (source_of level p f) (fs_imports f)) in Hc.
    eapply collected_ext; [| |exact Hc].
    + intros a. split.
      * intros [->|(g & q & Hg & ?)]; [exists f, p|exists g, q]; rewrite elem_of_app, list_elem_of_singleton; auto.
      * intros (g & q & [Hg|Hg%list_elem_of_singleton]%elem_of_app & Hq & ->); [right; eauto|left].
        subst. by simplify_eq.
    + intros a i. split.
      * intros [[-> Hi]|(g & q & Hg & ?)]; [exists f, p|exists g, q]; rewrite elem_of_app, list_elem_of_singleton; auto.
      * intros (g & q & [Hg|Hg%list_elem_of_singleton]%elem_of_app & Hq & -> & Hi); [right; by exists g, q|left].
        subst. by simplify_eq.
  - eapply collected_ext; [| |exact IH].
    + intros a. split.
      * intros (g & q & Hg & ?). exists g, q. rewrite elem_of_app. auto.
      * intros (g & q & [Hg|Hg%list_elem_of_singleton]%elem_of_app & Hq & ->); [by exists g, q|congruence].
    + intros a i. split.
      * intros (g & q & Hg & ?). exists g, q. rewrite elem_of_app. auto.
      * intros (g & q & [Hg|Hg%list_elem_of_singleton]%elem_of_app & Hq & ?); [by exists g, q|congruence].
Qed.

Lemma node_count_le files level :
  let c := foldl (collect_file (build_index files) level) (mkCollected [] [] []) files in
  (forall a b, (a, b) ∈ c_edges c -> a ∈ c_nodes c /\ b ∈ c_nodes c) ->
  node_count (from_edges (c_edges c)) <= length files.
Proof.
  intros c Hends. destruct (from_edges_spec (c_edges c)) as ([_ Hnd _] & Hnodes & _).
  transitivity (length (omap (fun f => (fun p => source_of level p f) <$> fs_package f) files)).
  - apply submseteq_length, NoDup_submseteq; [exact Hnd|]. intros a (e & Hin & Ha)%Hnodes.
    destruct e as [x y]. assert (a ∈ c_nodes c) as Hac by (destruct (Hends x y Hin); destruct Ha as [->| ->]; done).
    apply (C_nodes _ _ _ _ _ (collect_files_ok files files level)) in Hac as (f & p & Hf & Hp & ->).
    apply list_elem_of_omap. exists f. by rewrite Hp.
  - clear. induction files as [|f files IH]; csimpl; [done|]. destruct (fs_package f); simpl; lia.
Qed.

(** The edge pairs the loop collects, and the graph built over them. *)
Definition edge_pairs (files : list FileSkeleton) (level : DepLevel) : list (str * str) :=
  c_edges (foldl (collect_file (build_index files) level) (mkCollected [] [] []) files).

Lemma pairs_of_edges (l : list (str * str)) :
  (fun e => (de_from e, de_to e)) <$> ((fun e => mkDepEdge e.1 e.2) <$> l) = l.
Proof. induction l as [|[x y] l IH]; [done|]. by rewrite !fmap_cons, IH. Qed.

Lemma edge_ends files level a b :
  let c := foldl (collect_file (build_index files) level) (mkCollected [] [] []) files in
  (a, b) ∈ c_edges c -> a ∈ c_nodes c /\ b ∈ c_nodes c.
Proof.
  intros c. destruct (collect_files_ok files files level) as [Hn He _ _]. fold c in Hn, He.
  intros (_ & i & (f & p & Hf & Hp & -> & _) & (p' & n & g & _ & Hg & Hd & ->))%He.
  split; apply Hn; [by exists f, p|]. exists g, p'. split_and!; try done. case_bool_decide; [done|by destruct Hd].
Qed.

Lemma build_import_graph_edges files level :
  (N.of_nat (length files) < usize_max)%N ->
  exists g, build_import_graph files level = Some g /\
    (fun e => (de_from e, de_to e)) <$> ig_edges g = edge_pairs files level.
Proof.
  intros Hfit. unfold build_import_graph, edge_pairs. rewrite pairs_of_edges.
  destruct (cycles_from_edges (c_edges (foldl (collect_file (build_index files) level) (mkCollected [] [] []) files))) as (cyc & -> & _).
  { pose proof (node_count_le files level (edge_ends files level)). lia. }
  eexists. split; [done|]. apply pairs_of_edges.
Qed.

(** The edges do not depend on the order the files came in. *)
Lemma edge_pairs_perm files files' level : files ≡ₚ files' -> edge_pairs files level = edge_pairs files' level.
Proof.
  intros Hp. destruct (collect_files_ok files files level) as [_ He _ (_ & Hs & _)].
  destruct (collect_files_ok files' files' level) as [_ He' _ (_ & Hs' & _)].
  apply ord_lt_sorted_unique; [exact Hs|exact Hs'|]. intros [a b]. unfold edge_pairs. rewrite He, He'.
  unfold writes, resolves_to. by setoid_rewrite Hp.
Qed.

Lemma tc_mono {A} (R R' : A -> A -> Prop) a b : (forall a b, R a b -> R' a b) -> tc R a b -> tc R' a b.
Proof. intros HR. induction 1; eauto using tc. Qed.

(** ** Properties *)

(** C6: The import graph is honest and complete. Its nodes are exactly the packages (or paths) of
    the files that declare a package; an edge is drawn exactly for an import that a workspace file
    resolves, between two different nodes, and both its ends are nodes; an import is listed as
    external exactly when nothing in the workspace resolves it; and its cycles are exactly the
    strongly connected groups of packages (or files) that import themselves through others. *)
Theorem import_graph_exact (files : list FileSkeleton) (level : DepLevel) :
  (N.of_nat (length files) < usize_max)%N ->
  exists g, build_import_graph files level = Some g /\
  let edge a b := mkDepEdge a b ∈ ig_edges g in
  (forall a, a ∈ ig_nodes g <-> exists f p, f ∈ files /\ fs_package f = Some p /\ a = source_of level p f) /\
  (forall a b, edge a b <-> a <> b /\ exists i, writes files level a i /\ resolves_to files level i b) /\
  (forall a b, edge a b -> a ∈ ig_nodes g /\ b ∈ ig_nodes g) /\
  (forall a i, mkExternal a i ∈ ig_external g <-> writes files level a i /\ forall b, ~ resolves_to files level i b) /\
  (forall a, a ∈ concat (ig_cycles g) <-> tc edge a a) /\
  (forall c a, c ∈ ig_cycles g -> a ∈ c -> forall b, b ∈ c <-> rtc edge a b /\ rtc edge b a).
Proof.
  intros Hfit. destruct (collect_files_ok files files level) as [Hn He Hx _].
  unfold build_import_graph. set (c := foldl (collect_file (build_index files) level) (mkCollected [] [] []) files) in *.
  rewrite pairs_of_edges. pose proof (edge_ends files level) as Hends. fold c in Hends.
  destruct (cycles_from_edges (c_edges c)) as (cyc & -> & Hcyc & Hcls).
  { pose proof (node_count_le files level Hends). fold c in H. lia. }
  simpl. eexists. split; [done|]. simpl.
  assert (forall a b, mkDepEdge a b ∈ (fun e => mkDepEdge e.1 e.2) <$> c_edges c <-> edge_in (c_edges c) a b) as Hedge.
  { intros a b. rewrite list_elem_of_fmap. unfold edge_in. split; [by intros ([] & [= -> ->] & ?)|by exists (a, b)]. }
  split_and!; try done.
  - intros a b. rewrite Hedge. apply He.
  - intros a b. rewrite Hedge. apply Hends.
  - intros a i. rewrite <- Hx, list_elem_of_fmap. split; [by intros ([] & [= -> ->] & ?)|by exists (a, i)].
  - intros a. rewrite Hcyc. split; apply tc_mono; intros; by apply Hedge.
  - intros d a Hd Ha b. rewrite (Hcls d a Hd Ha). split; intros [H1 H2]; split;
      (eapply rtc_mono; [|eassumption]); intros; by apply Hedge.
Qed.

(** ** Witnesses *)

Definition two_files : list FileSkeleton :=
  [mkFile (lit "a/A.kt") (Some (lit "a")) [lit "b.B"; lit "java.io.File"] [declaration_new Class_ (lit "A") 3] false false;
   mkFile (lit "b/B.kt") (Some (lit "b")) [lit "a.*"] [declaration_new Class_ (lit "B") 3] false false].

Example two_files_graph : build_import_graph two_files PackageLevel = Some (mkImportGraph PackageLevel
  [lit "a"; lit "b"] [mkDepEdge (lit "a") (lit "b"); mkDepEdge (lit "b") (lit "a")]
  [mkExternal (lit "a") (lit "java.io.File")] [[lit "a"; lit "b"]]).
Proof. vm_compute. reflexivity. Qed.

Lemma import_graph_exact_witness :
  exists g, build_import_graph two_files PackageLevel = Some g /\
    (lit "a" ∈ ig_nodes g <-> exists f p, f ∈ two_files /\ fs_package f = Some p /\ lit "a" = source_of PackageLevel p f).
Proof.
  destruct (import_graph_exact two_files PackageLevel) as (g & E & Hn & _); [compute_done|].
  exists g. split; [exact E|]. exact (Hn (lit "a")).
Defined.
