(* ===== verification/JavaText.v ===== *)
(** * JavaText: the Java lexer and the site classifier

    Models [crates/ktsense-core/src/java_text.rs]. The lexer's index and its two-character
    look-ahead become pattern matching on the characters left; every entry it pushes carries
    the byte offset of its character. *)
From stdpp Require Import gmap.
From S2P Require Import Prelude Collections Skeleton References.

Set Default Proof Using "Type*".

(** ** The lexer *)

Inductive LexState :=
  | LexCode | LineComment | BlockComment | StringLiteral | TextBlock | CharLiteral.
#[export] Instance LexState_eq_dec : EqDecision LexState.
Proof. solve_decision. Defined.

Definition lex_is_code (s : LexState) : bool := match s with LexCode => true | _ => false end.
Definition site_kind (s : LexState) : SiteKind :=
  match s with
  | LexCode => Code
  | LineComment | BlockComment => Comment
  | StringLiteral | TextBlock | CharLiteral => String_
  end.

(** [str::char_indices]. *)
Fixpoint char_indices_from (offset : N) (s : str) : list (N * char) :=
  match s with [] => [] | c :: s' => (offset, c) :: char_indices_from (offset + len_utf8 c)%N s' end.
Definition char_indices (s : str) : list (N * char) := char_indices_from 0 s.

Definition slash : char := ch "/".
Definition star : char := ch "*".
Definition quote : char := 34%N.
Definition apostrophe : char := 39%N.
Definition backslash : char := ch "\".
Definition newline : char := 10%N.

(** [peek(0) == Some(c)] on the characters left. *)
Definition next_is (rest : list (N * char)) (c : char) : bool :=
  match rest with (_, d) :: _ => (d =? c)%N | [] => false end.

(** The [while] loop of [lex]: [rest] is [chars[index..]]. *)
Fixpoint lex_from (state : LexState) (rest : list (N * char)) : list (N * LexState) :=
  match rest with
  | [] => []
  | (offset, character) :: rest1 =>
      (offset, state) ::
      match state with
      | LexCode =>
          match rest1 with
          | (offset1, next1) :: rest2 =>
              if (character =? slash)%N && (next1 =? slash)%N then (offset1, state) :: lex_from LineComment rest2
              else if (character =? slash)%N && (next1 =? star)%N then (offset1, state) :: lex_from BlockComment rest2
              else
                match rest2 with
                | (offset2, next2) :: rest3 =>
                    if (character =? quote)%N && (next1 =? quote)%N && (next2 =? quote)%N
                    then (offset1, TextBlock) :: (offset2, TextBlock) :: lex_from TextBlock rest3
                    else lex_from (if (character =? quote)%N then StringLiteral
                                   else if (character =? apostrophe)%N then CharLiteral else LexCode) rest1
                | [] => lex_from (if (character =? quote)%N then StringLiteral
                                  else if (character =? apostrophe)%N then CharLiteral else LexCode) rest1
                end
          | [] => []
          end
      | LineComment => lex_from (if (character =? newline)%N then LexCode else LineComment) rest1
      | BlockComment =>
          match rest1 with
          | (offset1, next1) :: rest2 =>
              if (character =? star)%N && (next1 =? slash)%N then (offset1, state) :: lex_from LexCode rest2
              else lex_from BlockComment rest1
          | [] => []
          end
      | StringLiteral | CharLiteral =>
          if (character =? backslash)%N then
            match rest1 with
            | (offset1, _) :: rest2 => (offset1, state) :: lex_from state rest2
            | [] => []
            end
          else
            let close := match state with StringLiteral => quote | _ => apostrophe end in
            lex_from (if (character =? close)%N then LexCode else state) rest1
      | TextBlock =>
          match rest1 with
          | (offset1, next1) :: (offset2, next2) :: rest3 =>
              if (character =? quote)%N && (next1 =? quote)%N && (next2 =? quote)%N
              then (offset1, state) :: (offset2, state) :: lex_from LexCode rest3
              else lex_from TextBlock rest1
          | _ => lex_from TextBlock rest1
          end
      end
  end.
Definition lex (source : str) : list (N * LexState) := lex_from LexCode (char_indices source).

(** ** Positions *)

(** The character loop of [line_start_offset]. *)
Fixpoint find_line_start (remaining : N) (chars : list (N * char)) : option N :=
  match chars with
  | [] => None
  | (byte, character) :: chars' =>
      if (character =? newline)%N then
        if (remaining - 1 =? 0)%N then Some (byte + 1)%N else find_line_start (remaining - 1)%N chars'
      else find_line_start remaining chars'
  end.
Definition line_start_offset (source : str) (line : N) : option N :=
  if (line =? 1)%N then Some 0%N else find_line_start (line - 1)%N (char_indices source).

(** The column loop of [byte_offset_of]. *)
Fixpoint find_column (column utf16_seen : N) (chars : list (N * char)) : option N :=
  match chars with
  | [] => None
  | (byte, character) :: chars' =>
      if (utf16_seen + 1 =? column)%N then Some byte
      else find_column column (utf16_seen + len_utf16 character)%N chars'
  end.

Definition byte_offset_of (source : str) (line column : N) : option N :=
  if (line =? 0)%N || (column =? 0)%N then None
  else
    line_start ← line_start_offset source line;
    tail ← str_from source line_start;
    let line_text := default [] (head (split_char newline tail)) in
    byte ← find_column column 0 (char_indices line_text);
    Some (line_start + byte)%N.

(** ** The classifier *)

(** [wanted]: a [HashMap] from offset to site index; the last site of an offset wins. *)
Definition wanted_sites (source : str) (sites : list (N * N)) : gmap N nat :=
  list_to_map (rev (omap (fun e =>
      offset ← byte_offset_of source e.2.1 e.2.2; Some (offset, e.1 : nat))
    (imap (fun index site => (index, site)) sites))).

Definition classify_java_sites (source : str) (sites : list (N * N)) : list SiteKind :=
  let wanted := wanted_sites source sites in
  foldl (fun kinds '(offset, state) =>
    match wanted !! offset with
    | Some index => <[index := site_kind state]> kinds
    | None => kinds
    end) (replicate (length sites) Code) (lex source).

(** The 1-based line and UTF-16 column of the [i]-th character, as a scan for matches counts them. *)
Definition position (source : str) (i : nat) : N * N :=
  let pieces := split_char newline (take i source) in
  (N.of_nat (length pieces), (1 + utf16_len (default [] (last pieces)))%N).

(** The state the lexer gives the [i]-th character. *)
Definition state_at (source : str) (i : nat) : LexState := default LexCode (snd <$> lex source !! i).

(** ** Lemmas: the lexer *)

Lemma lex_from_offsets state rest : fst <$> lex_from state rest = fst <$> rest.
Proof.
  revert state. induction rest as [rest IH] using (induction_ltof1 _ length). unfold ltof in IH. intros state.
  destruct rest as [|[o c] rest1]; [done|]. cbn [lex_from]. rewrite !fmap_cons. f_equal.
  assert (forall st, fst <$> lex_from st rest1 = fst <$> rest1) as IH1 by (intros; apply IH; simpl; lia).
  assert (forall e rest2 st, rest1 = e :: rest2 -> fst <$> lex_from st rest2 = fst <$> rest2) as IH2
    by (intros e rest2 st ->; apply IH; simpl; lia).
  assert (forall e e' rest3 st, rest1 = e :: e' :: rest3 -> fst <$> lex_from st rest3 = fst <$> rest3) as IH3
    by (intros e e' rest3 st ->; apply IH; simpl; lia).
  destruct state; try apply IH1; destruct rest1 as [|[o1 c1] rest2]; try done;
    try (destruct (_ =? _)%N; done); try destruct rest2 as [|[o2 c2] rest3]; try apply IH1;
    repeat match goal with |- context [if ?b then _ else _] => destruct b end;
    try apply IH1; rewrite ?fmap_cons; repeat f_equal; by eauto.
Qed.

Lemma lex_length source : length (lex source) = length source.
Proof.
  assert (forall o, length (char_indices_from o source) = length source) as Hl
    by (induction source; intros; simpl; auto).
  rewrite <- (Hl 0%N). pose proof (lex_from_offsets LexCode (char_indices source)) as E.
  apply (f_equal length) in E. by rewrite !length_fmap in E.
Qed.

Lemma char_indices_lookup s o i c :
  s !! i = Some c -> char_indices_from o s !! i = Some ((o + utf8_len (take i s))%N, c).
Proof.
  revert o i. induction s as [|d s IH]; intros o [|i] Hi; simplify_eq/=.
  - by rewrite N.add_0_r.
  - rewrite IH by done. do 2 f_equal. lia.
Qed.

Lemma lex_lookup source i c :
  source !! i = Some c -> lex source !! i = Some (utf8_len (take i source), state_at source i).
Proof.
  intros Hi. unfold state_at. destruct (lookup_lt_is_Some_2 (lex source) i) as [[o st] Ho].
  { rewrite lex_length. by eapply lookup_lt_Some. }
  rewrite Ho. simpl. f_equal. f_equal.
  assert ((fst <$> lex source) !! i = Some o) as Hf by by rewrite list_lookup_fmap, Ho.
  unfold lex in Hf. rewrite lex_from_offsets, list_lookup_fmap in Hf.
  unfold char_indices in Hf. rewrite (char_indices_lookup source 0 i c Hi) in Hf. rewrite N.add_0_l in Hf. cbn in Hf. congruence.
Qed.

(** ** Lemmas: positions *)

Lemma char_indices_app o a b : char_indices_from o (a ++ b) = char_indices_from o a ++ char_indices_from (o + utf8_len a) b.
Proof.
  revert o. induction a as [|c a IH]; intros o; simpl; [by rewrite N.add_0_r|].
  rewrite IH. do 2 f_equal. simpl. f_equal. lia.
Qed.

Lemma find_line_start_skip r o p s :
  newline ∉ p -> find_line_start r (char_indices_from o (p ++ s)) = find_line_start r (char_indices_from (o + utf8_len p) s).
Proof.
  revert o. induction p as [|c p IH]; intros o; simpl; [by rewrite N.add_0_r|].
  rewrite not_elem_of_cons. intros [Hc Hp]. rewrite (proj2 (N.eqb_neq c newline)) by congruence.
  rewrite IH by done. f_equal. simpl. f_equal. lia.
Qed.

Lemma find_line_start_pieces o ps s :
  ps <> [] -> (forall p, p ∈ ps -> newline ∉ p) ->
  find_line_start (N.of_nat (length ps)) (char_indices_from o (join [newline] ps ++ newline :: s))
    = Some (o + utf8_len (join [newline] ps) + 1)%N.
Proof.
  revert o. induction ps as [|p ps IH]; intros o; [done|]. intros _ Hps.
  destruct ps as [|q ps].
  - cbn [join length]. rewrite find_line_start_skip by (apply Hps; left). done.
  - rewrite join_cons, <- !app_assoc. rewrite find_line_start_skip by (apply Hps; left).
    cbn [app char_indices_from find_line_start length]. rewrite N.eqb_refl.
    destruct (N.eqb_spec (N.of_nat (S (S (length ps))) - 1) 0) as [E|E]; [lia|].
    replace (N.of_nat (S (S (length ps))) - 1)%N with (N.of_nat (length (q :: ps))) by (simpl; lia).
    rewrite IH; [|done|intros r Hr; apply Hps; by right]. f_equal.
    rewrite utf8_len_app.
    change (utf8_len (newline :: join [newline] (q :: ps))) with (len_utf8 newline + utf8_len (join [newline] (q :: ps)))%N. lia.
Qed.

Lemma find_column_spec seen o p c s :
  find_column (1 + (seen + utf16_len p)) seen (char_indices_from o (p ++ c :: s)) = Some (o + utf8_len p)%N.
Proof.
  revert seen o. induction p as [|d p IH]; intros seen o; cbn [app char_indices_from find_column].
  - change (utf16_len []) with 0%N. change (utf8_len []) with 0%N.
    by rewrite !N.add_0_r, (N.add_comm seen 1), N.eqb_refl.
  - change (utf16_len (d :: p)) with (len_utf16 d + utf16_len p)%N.
    change (utf8_len (d :: p)) with (len_utf8 d + utf8_len p)%N.
    assert (1 <= len_utf16 d)%N by (unfold len_utf16; case_match; lia).
    rewrite (proj2 (N.eqb_neq _ _)) by lia.
    replace (1 + (seen + (len_utf16 d + utf16_len p)))%N with (1 + ((seen + len_utf16 d) + utf16_len p))%N by lia.
    rewrite IH. f_equal. lia.
Qed.

(** The coordinates of a character lead back to its byte offset. *)
Lemma byte_offset_of_position source i c :
  source !! i = Some c -> c <> newline ->
  byte_offset_of source (position source i).1 (position source i).2 = Some (utf8_len (take i source)).
Proof.
  intros Hi Hc. unfold position. cbn [fst snd].
  pose proof (split_char_nonempty newline (take i source)) as Hne.
  destruct (split_char newline (take i source)) as [|p0 ps0 _] eqn:Hsp using rev_ind; [done|].
  rewrite last_snoc. cbn [default from_option]. unfold id. rename p0 into lastp, ps0 into init.
  assert (newline ∉ lastp) as Hfree.
  { apply (split_pieces_free newline (take i source)). rewrite Hsp. apply elem_of_app. right. left. }
  assert (exists pre, take i source = pre ++ lastp /\
     line_start_offset source (N.of_nat (length (init ++ [lastp]))) = Some (utf8_len pre)) as (pre & Etake & Hstart).
  { assert (take i source = join [newline] (init ++ [lastp])) as Ej by (rewrite <- Hsp; by rewrite join_split).
    unfold line_start_offset. destruct (decide (init = [])) as [->|Hinit]; [by exists []|].
    exists (join [newline] init ++ [newline]). rewrite join_app in Ej by done. split; [by rewrite <- app_assoc|].
    destruct (N.eqb_spec (N.of_nat (length (init ++ [lastp]))) 1) as [E|E].
    { rewrite length_app in E. simpl in E. destruct init; [done|simpl in E; lia]. }
    replace (N.of_nat (length (init ++ [lastp])) - 1)%N with (N.of_nat (length init)) by (rewrite length_app; simpl; lia).
    rewrite <- (take_drop i source) at 1. rewrite Ej, <- app_assoc. cbn [app].
    unfold char_indices. rewrite find_line_start_pieces; [|done|].
    - rewrite utf8_len_app. done.
    - intros p Hp. apply (split_pieces_free newline (take i source)). rewrite Hsp. apply elem_of_app. by left. }
  unfold byte_offset_of.
  rewrite (proj2 (N.eqb_neq (N.of_nat _) 0)) by (rewrite length_app; simpl; lia).
  rewrite (proj2 (N.eqb_neq (1 + _) 0)) by lia. cbn [orb]. rewrite Hstart. cbn [mbind option_bind].
  assert (source = pre ++ (lastp ++ c :: drop (S i) source)) as Esrc.
  { rewrite app_assoc, <- Etake. symmetry. by apply take_drop_middle. }
  rewrite Esrc at 1. rewrite str_from_app. cbn [mbind option_bind].
  assert (exists t, default [] (head (split_char newline (lastp ++ c :: drop (S i) source))) = lastp ++ c :: t) as [t ->].
  { clear -Hfree Hc. induction lastp as [|d l IH]; cbn [app]; rewrite split_char_cons.
    - rewrite (proj2 (N.eqb_neq _ _)) by done. destruct (split_char newline (drop (S i) source)) as [|q qs]; simpl; eauto.
    - apply not_elem_of_cons in Hfree as [Hd Hfree]. rewrite (proj2 (N.eqb_neq _ _)) by congruence.
      destruct (IH Hfree) as [t Ht]. destruct (split_char newline (l ++ c :: drop (S i) source)) as [|q qs]; simpl in *.
      + by destruct l.
      + exists t. by rewrite Ht. }
  pose proof (find_column_spec 0 0 lastp c t) as Hcol. rewrite N.add_0_l in Hcol. unfold char_indices.
  rewrite Hcol. cbn [mbind option_bind]. rewrite N.add_0_l, Etake, utf8_len_app. done.
Qed.

(** And only the coordinates of a character lead to an offset. *)
Lemma find_line_start_inv s : forall r o x, (0 < r)%N -> find_line_start r (char_indices_from o s) = Some x ->
  exists ps t, ps <> [] /\ (forall p, p ∈ ps -> newline ∉ p) /\ N.of_nat (length ps) = r /\
    s = join [newline] ps ++ newline :: t /\ x = (o + utf8_len (join [newline] ps) + 1)%N.
Proof.
  induction s as [|c s IH]; intros r o x Hr; cbn [char_indices_from find_line_start]; [done|].
  destruct (N.eqb_spec c newline) as [->|Hc].
  - destruct (N.eqb_spec (r - 1) 0) as [E|E].
    + intros [= <-]. exists [[]], s. split_and!; [done|intros p ->%list_elem_of_singleton; apply not_elem_of_nil|cbn; lia|done|]. cbn. lia.
    + intros (ps & t & Hne & Hfree & Hl & -> & ->)%IH; [|lia]. destruct ps as [|q ps]; [done|]. exists ([] :: q :: ps), t. rewrite join_cons. split_and!; [done| |cbn [length] in *; lia|done|].
      * intros p [->|Hp]%elem_of_cons; [apply not_elem_of_nil|by apply Hfree].
      * rewrite !utf8_len_app. change (utf8_len []) with 0%N. change (utf8_len [newline]) with 1%N. change (len_utf8 newline) with 1%N. lia.
  - intros (ps & t & Hne & Hfree & Hl & -> & ->)%IH; [|done]. destruct ps as [|p ps]; [done|]. exists ((c :: p) :: ps), t. split_and!; [done| |done| |].
    + intros q [->|Hq]%elem_of_cons; [|apply Hfree; by right]. apply not_elem_of_cons. split; [congruence|apply Hfree; by left].
    + by destruct ps.
    + assert (join [newline] ((c :: p) :: ps) = c :: join [newline] (p :: ps)) as -> by by destruct ps.
      change (utf8_len (c :: ?k)) with (len_utf8 c + utf8_len k)%N. lia.
Qed.
Lemma find_column_inv s : forall seen o column x, find_column column seen (char_indices_from o s) = Some x ->
  exists p c t, s = p ++ c :: t /\ column = (1 + (seen + utf16_len p))%N /\ x = (o + utf8_len p)%N.
Proof.
  induction s as [|c s IH]; intros seen o column x; cbn [char_indices_from find_column]; [done|].
  destruct (N.eqb_spec (seen + 1) column) as [<-|Hc].
  - intros [= <-]. exists [], c, s. change (utf16_len []) with 0%N. change (utf8_len []) with 0%N. split_and!; [done|lia|lia].
  - intros (p & d & t & -> & -> & ->)%IH. exists (c :: p), d, t. change (utf16_len (c :: p)) with (len_utf16 c + utf16_len p)%N.
    change (utf8_len (c :: p)) with (len_utf8 c + utf8_len p)%N. split_and!; [done|lia|lia].
Qed.
Lemma split_snoc c ps p : (forall q, q ∈ ps -> c ∉ q) -> c ∉ p -> split_char c (join [c] (ps ++ [p])) = ps ++ [p].
Proof. intros Hps Hp. apply split_join; [by destruct ps|]. intros q [Hq|Hq]%elem_of_app; [by apply Hps|]. by apply list_elem_of_singleton in Hq as ->. Qed.
Lemma head_piece c s : exists line rest, head (split_char c s) = Some line /\ s = line ++ rest /\ c ∉ line.
Proof.
  induction s as [|d s (line & rest & E & Es & Hl)]; [exists [], []; split_and!; [done|done|apply not_elem_of_nil]|]. rewrite split_char_cons.
  destruct (N.eqb_spec d c) as [->|Hd]; [exists [], (c :: s); split_and!; [done|done|apply not_elem_of_nil]|].
  destruct (split_char c s) as [|q qs]; [done|]. injection E as ->. exists (d :: line), rest. split_and!; [done|by rewrite Es|]. apply not_elem_of_cons. split; [congruence|done].
Qed.
Lemma byte_offset_of_inv source line column o :
  byte_offset_of source line column = Some o ->
  exists i c, source !! i = Some c /\ c <> newline /\ position source i = (line, column) /\ o = utf8_len (take i source).
Proof.
  unfold byte_offset_of. destruct ((line =? 0)%N || (column =? 0)%N) eqn:Ez; [done|].
  apply orb_false_iff in Ez as [Hl0%N.eqb_neq _].
  destruct (line_start_offset source line) as [at_|] eqn:El; [|done]. cbn [mbind option_bind].
  assert (exists ps pre t, (forall q, q ∈ ps -> newline ∉ q) /\ source = pre ++ t /\ at_ = utf8_len pre /\
    (N.of_nat (length ps) + 1 = line)%N /\ forall p, pre ++ p = join [newline] (ps ++ [p])) as (ps & pre & t & Hps & -> & -> & Hlen & Hpre).
  { unfold line_start_offset in El. destruct (N.eqb_spec line 1) as [->|H1].
    - injection El as <-. exists [], [], source. split_and!; try done. intros q []%elem_of_nil.
    - apply find_line_start_inv in El as (ps & t & Hne & Hfree & Hl & -> & ->); [|lia]. exists ps, (join [newline] ps ++ [newline]), t.
      split_and!; [done|by rewrite <- app_assoc| |lia|].
      + rewrite utf8_len_app. change (utf8_len [newline]) with 1%N. lia.
      + intros p. rewrite join_app by done. by rewrite <- app_assoc. }
  rewrite str_from_app. cbn [mbind option_bind]. destruct (head_piece newline t) as (text & rest & -> & -> & Htext). cbn [default from_option]. unfold id.
  destruct (find_column column 0 (char_indices text)) as [b|] eqn:Ec; [|done]. intros [= <-].
  apply find_column_inv in Ec as (p & c & t & -> & -> & ->). rewrite not_elem_of_app, not_elem_of_cons in Htext. destruct Htext as (Hp & Hc & _).
  exists (length (pre ++ p)), c. assert (pre ++ (p ++ c :: t) ++ rest = (pre ++ p) ++ c :: t ++ rest) as -> by by rewrite <- !app_assoc.
  split_and!; [by apply list_lookup_middle|congruence| |].
  - unfold position. rewrite take_app_length, Hpre, split_snoc by done. rewrite length_app, last_snoc. cbn. f_equal; lia.
  - rewrite take_app_length, utf8_len_app. lia.
Qed.

(** ** Lemmas: the classifier *)

Lemma utf8_len_take_inj source i j ci cj :
  source !! i = Some ci -> source !! j = Some cj -> utf8_len (take i source) = utf8_len (take j source) -> i = j.
Proof.
  assert (forall i j ci cj, source !! i = Some ci -> source !! j = Some cj -> i < j ->
    (utf8_len (take i source) < utf8_len (take j source))%N) as Hlt.
  { intros i' j' ci' cj' Hi _ Hij. replace j' with (i' + (j' - i')) by lia.
    rewrite <- take_take_drop, utf8_len_app. destruct (j' - i') as [|k] eqn:E; [lia|].
    rewrite (drop_S source ci' i' Hi). cbn [take utf8_len foldr].
    assert (1 <= len_utf8 ci')%N by (unfold len_utf8; repeat case_match; lia). lia. }
  intros Hi Hj E. destruct (lt_eq_lt_dec i j) as [[Hij| ->]|Hij]; [|done|].
  - specialize (Hlt i j ci cj Hi Hj Hij). lia.
  - specialize (Hlt j i cj ci Hj Hi Hij). lia.
Qed.

Definition mark (wanted : gmap N nat) (kinds : list SiteKind) (entry : N * LexState) : list SiteKind :=
  let '(offset, state) := entry in
  match wanted !! offset with Some index => <[index := site_kind state]> kinds | None => kinds end.

Lemma marks_length wanted entries kinds : length (foldl (mark wanted) kinds entries) = length kinds.
Proof.
  revert kinds. induction entries as [|[o st] entries IH]; intros kinds; [done|]. cbn [foldl]. rewrite IH.
  unfold mark. destruct (wanted !! o); [apply length_insert|done].
Qed.

Lemma marks_untouched wanted entries kinds k :
  (forall o, o ∈ entries.*1 -> wanted !! o <> Some k) -> foldl (mark wanted) kinds entries !! k = kinds !! k.
Proof.
  revert kinds. induction entries as [|[o st] entries IH]; intros kinds Hk; [done|]. cbn [foldl].
  rewrite IH by (intros o' Ho'; apply Hk; by right). unfold mark.
  destruct (wanted !! o) as [k'|] eqn:E; [|done]. apply list_lookup_insert_ne. intros ->.
  by apply (Hk o); [left|].
Qed.

Lemma marks_lookup wanted entries kinds k o st :
  NoDup entries.*1 -> (o, st) ∈ entries -> k < length kinds -> (forall o', wanted !! o' = Some k <-> o' = o) ->
  foldl (mark wanted) kinds entries !! k = Some (site_kind st).
Proof.
  revert kinds. induction entries as [|[o1 st1] entries IH]; intros kinds Hn Hin Hk Hw; [by apply elem_of_nil in Hin|].
  apply NoDup_cons in Hn as [Ho1 Hn]. cbn [foldl]. apply elem_of_cons in Hin as [[= <- <-]|Hin].
  - rewrite marks_untouched.
    + unfold mark. rewrite (proj2 (Hw o) eq_refl). by apply list_lookup_insert_eq.
    + intros o' Ho'. rewrite Hw. by intros ->.
  - apply IH; try done. unfold mark. destruct (wanted !! o1); [by rewrite length_insert|done].
Qed.

(** The map the classifier builds for distinct positions. *)
Lemma wanted_sites_spec source (ps : list nat) :
  NoDup ps -> Forall (fun i => exists c, source !! i = Some c /\ c <> newline) ps ->
  forall k i, ps !! k = Some i -> forall o, wanted_sites source (position source <$> ps) !! o = Some k <-> o = utf8_len (take i source).
Proof.
  intros Hn Hs k i Hk o. unfold wanted_sites.
  set (l := omap _ _).
  assert (l = imap (fun k i => (utf8_len (take i source), k)) ps) as El.
  { unfold l. clear -Hs. rewrite imap_fmap.
    assert (forall ps (f : nat -> nat), Forall (fun i => exists c, source !! i = Some c /\ c <> newline) ps ->
      omap (fun e : nat * (N * N) => offset ← byte_offset_of source e.2.1 e.2.2; Some (offset, e.1))
        (imap (fun k i => (f k, position source i)) ps) = imap (fun k i => (utf8_len (take i source), f k)) ps) as H.
    { clear. intros ps f Hs. revert f. induction Hs as [|i ps (c & Hi & Hc) _ IH]; intros f; [done|].
      rewrite !imap_cons. cbn [omap list_omap fst snd]. rewrite (byte_offset_of_position source i c Hi Hc). simpl. f_equal.
      apply (IH (f ∘ S)). }
    apply (H ps id Hs). }
  assert (NoDup l.*1) as Hl.
  { rewrite El. clear -Hn Hs. rewrite fmap_imap. apply NoDup_alt. intros a b x Ha Hb.
    rewrite !list_lookup_imap in Ha, Hb. apply fmap_Some in Ha as (i & Hi & ->). apply fmap_Some in Hb as (j & Hj & Eij).
    rewrite Forall_forall in Hs.
    destruct (Hs i) as (ci & Hci & _); [by eapply list_elem_of_lookup_2|].
    destruct (Hs j) as (cj & Hcj & _); [by eapply list_elem_of_lookup_2|].
    assert (i = j) as -> by by eapply utf8_len_take_inj. by eapply NoDup_lookup. }
  rewrite <- elem_of_list_to_map.
  2: { by rewrite <- Permutation_rev. }
  rewrite elem_of_rev, El, elem_of_lookup_imap. split.
  - intros (k' & i' & [= -> <-] & Hk'). by simplify_eq.
  - intros ->. by exists k, i.
Qed.

Lemma lex_offsets_distinct source : NoDup (lex source).*1.
Proof.
  unfold lex. rewrite lex_from_offsets. unfold char_indices. apply NoDup_alt. intros a b x Ha Hb.
  rewrite list_lookup_fmap in Ha, Hb.
  destruct (char_indices_from 0 source !! a) as [[oa ca]|] eqn:Ea; [|done].
  destruct (char_indices_from 0 source !! b) as [[ob cb]|] eqn:Eb; [|done]. simpl in Ha, Hb.
  assert (forall k o c, char_indices_from 0 source !! k = Some (o, c) -> source !! k = Some c /\ o = utf8_len (take k source)) as Hinv.
  { intros k o c Hk. destruct (source !! k) as [d|] eqn:Ed.
    - rewrite (char_indices_lookup source 0 k d Ed), N.add_0_l in Hk. by simplify_eq.
    - apply lookup_ge_None in Ed. apply lookup_lt_Some in Hk.
      assert (forall o, length (char_indices_from o source) = length source) as Hl by (clear; induction source; intros; simpl; auto).
      rewrite Hl in Hk. lia. }
  apply Hinv in Ea as [Ea ->]. apply Hinv in Eb as [Eb ->]. eapply utf8_len_take_inj; [exact Ea|exact Eb|congruence].
Qed.

(** The kind of one site: that of the character standing there, or [Code] where none stands. *)
Definition site_kind_at (source : str) (site : N * N) (kind : SiteKind) : Prop :=
  (exists i c, source !! i = Some c /\ c <> newline /\ position source i = site /\ kind = site_kind (state_at source i)) \/
  ((forall i c, source !! i = Some c -> c <> newline -> position source i <> site) /\ kind = Code).

Lemma wanted_lookup source sites k site o : NoDup sites -> sites !! k = Some site ->
  wanted_sites source sites !! o = Some k <-> byte_offset_of source site.1 site.2 = Some o.
Proof.
  intros Hn Hk. unfold wanted_sites. set (l := omap _ _).
  assert (forall o k, (o, k) ∈ l <-> exists site, sites !! k = Some site /\ byte_offset_of source site.1 site.2 = Some o) as Hl.
  { intros o' k'. unfold l. rewrite list_elem_of_omap. split.
    - intros ([k0 site'] & (i & x & [= -> ->] & Hi)%elem_of_lookup_imap & E). cbn in E.
      destruct (byte_offset_of source x.1 x.2) as [o0|] eqn:Eo; [|done]. injection E as -> ->. by exists x.
    - intros (site' & Hs & E). exists (k', site'). split; [apply elem_of_lookup_imap; by exists k', site'|]. cbn. by rewrite E. }
  split.
  - intros E%elem_of_list_to_map_2. rewrite elem_of_rev, Hl in E. destruct E as (site' & Hs & E). by simplify_eq.
  - intros E. apply elem_of_list_to_map_1'.
    + intros k'. rewrite elem_of_rev, Hl. intros (site' & Hs & E').
      destruct (byte_offset_of_inv _ _ _ _ E) as (i & c & Hi & _ & Hp & ->). destruct (byte_offset_of_inv _ _ _ _ E') as (j & d & Hj & _ & Hq & Eo).
      assert (i = j) as <- by by eapply utf8_len_take_inj. assert (site = site') as <- by (destruct site, site'; cbn in *; congruence). by eapply NoDup_lookup.
    + rewrite elem_of_rev, Hl. by exists site.
Qed.
Lemma classify_each source sites : NoDup sites -> Forall2 (site_kind_at source) sites (classify_java_sites source sites).
Proof.
  intros Hn. unfold classify_java_sites. change (fun kinds '(offset, state) => _) with (mark (wanted_sites source sites)).
  apply Forall2_same_length_lookup. split; [by rewrite marks_length, length_replicate|]. intros k site kind Hk.
  pose proof (wanted_lookup source sites k site) as Hw. destruct (byte_offset_of source site.1 site.2) as [o|] eqn:Eo.
  - destruct (byte_offset_of_inv _ _ _ _ Eo) as (i & c & Hi & Hc & Hp & ->).
    rewrite (marks_lookup _ _ _ k (utf8_len (take i source)) (state_at source i)); [|apply lex_offsets_distinct| | |].
    + intros [= <-]. left. exists i, c. split_and!; [done|done|by destruct site|done].
    + eapply list_elem_of_lookup_2. by apply (lex_lookup source i c).
    + rewrite length_replicate. by eapply lookup_lt_Some.
    + intros o'. rewrite Hw by done. naive_solver.
  - rewrite marks_untouched; [|intros o _ E; by apply Hw in E]. intros [-> _]%lookup_replicate. right. split; [|done].
    intros i c Hi Hc <-. by rewrite (byte_offset_of_position source i c Hi Hc) in Eo.
Qed.

(** ** Lemmas: regions *)

(** The states of a run, from byte offset [o]. *)
Definition states (state : LexState) (o : N) (s : str) : list LexState :=
  snd <$> lex_from state (char_indices_from o s).

Lemma line_comment_run o body rest :
  newline ∉ body ->
  states LineComment o (body ++ newline :: rest) =
    replicate (length body + 1) LineComment ++ states LexCode (o + utf8_len body + 1) rest.
Proof.
  unfold states. revert o. induction body as [|c body IH]; intros o.
  - intros _. cbn [app char_indices_from lex_from]. rewrite N.eqb_refl, N.add_0_r. done.
  - rewrite not_elem_of_cons. intros [Hc Hb]. cbn [app char_indices_from lex_from].
    rewrite (proj2 (N.eqb_neq _ _)) by (intros E; by apply Hc). rewrite fmap_cons, IH by done.
    change (utf8_len (c :: body)) with (len_utf8 c + utf8_len body)%N. cbn [length Nat.add replicate app snd].
    by rewrite N.add_assoc.
Qed.

Lemma block_comment_run o body rest :
  contains_str body [star; slash] = false ->
  states BlockComment o (body ++ star :: slash :: rest) =
    replicate (length body + 2) BlockComment ++ states LexCode (o + utf8_len body + 2) rest.
Proof.
  unfold states. revert o. induction body as [|c body IH]; intros o Hb.
  - cbn [app char_indices_from lex_from]. rewrite !N.eqb_refl. cbn [andb]. rewrite N.add_0_r, !fmap_cons.
    change (len_utf8 star) with 1%N. change (len_utf8 slash) with 1%N. by rewrite <- N.add_assoc.
  - apply orb_false_iff in Hb as [Hs Hb]. change (contains_str body [star; slash] = false) in Hb.
    specialize (IH (o + len_utf8 c)%N Hb).
    change (utf8_len (c :: body)) with (len_utf8 c + utf8_len body)%N. cbn [length Nat.add replicate app].
    rewrite N.add_assoc, <- IH. clear IH.
    assert (exists d tail, body ++ star :: slash :: rest = d :: tail /\ (c =? star)%N && (d =? slash)%N = false) as (d & tail & E & Hd).
    { destruct body as [|d body]; [exists star, (slash :: rest); by rewrite andb_false_r|].
      exists d, (body ++ star :: slash :: rest). split; [done|]. cbn in Hs.
      rewrite starts_with_nil, andb_true_r in Hs. by rewrite (N.eqb_sym c), (N.eqb_sym d). }
    rewrite E. cbn [char_indices_from lex_from]. by rewrite Hd.
Qed.

Lemma string_run o body rest :
  quote ∉ body -> backslash ∉ body ->
  states StringLiteral o (body ++ quote :: rest) =
    replicate (length body + 1) StringLiteral ++ states LexCode (o + utf8_len body + 1) rest.
Proof.
  unfold states. revert o. induction body as [|c body IH]; intros o.
  - intros _ _. cbn [app char_indices_from lex_from]. rewrite (proj2 (N.eqb_neq quote backslash)) by done.
    by rewrite N.eqb_refl, N.add_0_r.
  - rewrite !not_elem_of_cons. intros [Hc Hb] [Hc' Hb']. cbn [app char_indices_from lex_from].
    rewrite (proj2 (N.eqb_neq c backslash)) by (intros E; by apply Hc').
    rewrite (proj2 (N.eqb_neq c quote)) by (intros E; by apply Hc). rewrite fmap_cons, IH by done.
    change (utf8_len (c :: body)) with (len_utf8 c + utf8_len body)%N. cbn [length Nat.add replicate app snd].
    by rewrite N.add_assoc.
Qed.

Lemma text_block_run o body rest :
  contains_str (body ++ [quote; quote]) [quote; quote; quote] = false ->
  states TextBlock o (body ++ quote :: quote :: quote :: rest) =
    replicate (length body + 3) TextBlock ++ states LexCode (o + utf8_len body + 3) rest.
Proof.
  unfold states. revert o. induction body as [|c body IH]; intros o Hb.
  - cbn [app char_indices_from lex_from]. rewrite !N.eqb_refl. cbn [andb]. rewrite N.add_0_r, !fmap_cons.
    change (len_utf8 quote) with 1%N. by rewrite <- !N.add_assoc.
  - rewrite <- app_comm_cons in Hb. apply orb_false_iff in Hb as [Hs Hb].
    change (contains_str (body ++ [quote; quote]) [quote; quote; quote] = false) in Hb.
    specialize (IH (o + len_utf8 c)%N Hb).
    change (utf8_len (c :: body)) with (len_utf8 c + utf8_len body)%N. cbn [length Nat.add replicate app].
    rewrite N.add_assoc, <- IH. clear IH.
    assert (exists d e tail, body ++ quote :: quote :: quote :: rest = d :: e :: tail /\
      (c =? quote)%N && (d =? quote)%N && (e =? quote)%N = false) as (d & e & tail & E & Hd).
    { assert (forall d e tail, starts_with (c :: d :: e :: tail) [quote; quote; quote]
        = (c =? quote)%N && (d =? quote)%N && (e =? quote)%N) as Hst.
      { intros. cbn [starts_with]. by rewrite starts_with_nil, andb_true_r, !(N.eqb_sym quote), andb_assoc. }
      destruct body as [|d [|e body]]; cbn [app] in Hs |- *; rewrite Hst in Hs; by eexists _, _, _. }
    rewrite E. cbn [char_indices_from lex_from]. by rewrite Hd.
Qed.

(** ** Properties *)

(** The lexer assigns exactly one state to every character, in order and at its own byte
    offset, so indexing its output by a character position never fails; and from code it reads
    each lexical form to exactly its end: a line comment to its line feed, a block comment to the
    first [*/], a string to its closing quote and a text block to its closing delimiter, code
    resuming right after. *)
Theorem lex_regions (source : str) (o : N) (body rest : str) :
  fst <$> lex source = fst <$> char_indices source /\ length (lex source) = length source /\
  (newline ∉ body ->
     states LexCode o (slash :: slash :: body ++ newline :: rest) =
     [LexCode; LexCode] ++ replicate (length body + 1) LineComment ++ states LexCode (o + 2 + utf8_len body + 1) rest) /\
  (contains_str body [star; slash] = false ->
     states LexCode o (slash :: star :: body ++ star :: slash :: rest) =
     [LexCode; LexCode] ++ replicate (length body + 2) BlockComment ++ states LexCode (o + 2 + utf8_len body + 2) rest) /\
  (body <> [] -> quote ∉ body -> backslash ∉ body ->
     states LexCode o (quote :: body ++ quote :: rest) =
     [LexCode] ++ replicate (length body + 1) StringLiteral ++ states LexCode (o + 1 + utf8_len body + 1) rest) /\
  (contains_str (body ++ [quote; quote]) [quote; quote; quote] = false ->
     states LexCode o (quote :: quote :: quote :: body ++ quote :: quote :: quote :: rest) =
     [LexCode; TextBlock; TextBlock] ++ replicate (length body + 3) TextBlock
       ++ states LexCode (o + 3 + utf8_len body + 3) rest).
Proof.
  split_and!; [apply lex_from_offsets|apply lex_length|intros Hb..].
  - rewrite <- (line_comment_run (o + 2)) by done. unfold states. cbn. by rewrite <- N.add_assoc.
  - rewrite <- (block_comment_run (o + 2)) by done. unfold states. cbn. by rewrite <- N.add_assoc.
  - intros Hq Hs. rewrite <- (string_run (o + 1)) by done. unfold states.
    destruct body as [|c body]; [done|]. apply not_elem_of_cons in Hq as [Hc _].
    cbn [app char_indices_from lex_from]. change (quote =? slash)%N with false. cbn [andb].
    rewrite N.eqb_refl, (proj2 (N.eqb_neq c quote)) by (intros E; by apply Hc). cbn [andb].
    by destruct (char_indices_from _ _) as [|[? ?] ?].
  - rewrite <- (text_block_run (o + 3)) by done. unfold states. cbn. by rewrite <- !N.add_assoc.
Qed.

(** C2: The classifier is exact: asked about any distinct character positions, each given by the line
    and UTF-16 column a scan counts, it answers for each, in order, the kind of the lexical state
    that very character is in. *)
Theorem classify_java_sites_exact (source : str) (ps : list nat) :
  NoDup ps -> Forall (fun i => exists c, source !! i = Some c /\ c <> newline) ps ->
  classify_java_sites source (position source <$> ps) = (fun i => site_kind (state_at source i)) <$> ps.
Proof.
  intros Hn Hs. unfold classify_java_sites. rewrite length_fmap.
  change (fun kinds '(offset, state) => _) with (mark (wanted_sites source (position source <$> ps))).
  pose proof (lex_offsets_distinct source) as Hlex.
  apply list_eq. intros k. rewrite list_lookup_fmap. destruct (ps !! k) as [i|] eqn:Hk; simpl.
  - rewrite Forall_forall in Hs. pose proof (Hs i ltac:(by eapply list_elem_of_lookup_2)) as (c & Hc & _).
    eapply marks_lookup with (o := utf8_len (take i source)); [done| | |].
    + eapply list_elem_of_lookup_2. by apply (lex_lookup source i c).
    + rewrite length_replicate. by eapply lookup_lt_Some.
    + apply wanted_sites_spec; [done|by apply Forall_forall|done].
  - apply lookup_ge_None. rewrite marks_length, length_replicate. by apply lookup_ge_None.
Qed.

(** Two sites at one position: only the last is classified, the first stays [Code]. *)
Definition commented : str := lit "// Foo".
Theorem duplicate_site_lost :
  classify_java_sites commented [position commented 3; position commented 3] = [Code; Comment] /\
  state_at commented 3 = LineComment.
Proof. split; vm_compute; reflexivity. Qed.

(** An escaped delimiter inside a text block ends it early: the [Foo] after it reads as code. *)
Definition escaped_block : str := [quote; quote; quote; newline; backslash] ++ [quote; quote; quote] ++ lit "Foo".
Theorem escaped_delimiter_ends_text_block : state_at escaped_block 8 = LexCode.
Proof. vm_compute. reflexivity. Qed.

(** ** Witnesses *)

Definition java_line : str := lit "int x; // count x".

Lemma classify_java_sites_exact_witness :
  classify_java_sites java_line (position java_line <$> [4; 16]) = [Code; Comment].
Proof.
  rewrite (classify_java_sites_exact java_line [4; 16]).
  - vm_compute. reflexivity.
  - apply (bool_decide_unpack _). vm_compute. exact I.
  - repeat constructor; eexists; (split; [vm_compute; reflexivity|vm_compute; discriminate]).
Defined.
