(* ===== verification/JavaEnclosing.v ===== *)
(** * JavaEnclosing: Java scopes and declarations from tokens

    Models [crates/ktsense-core/src/java_enclosing.rs]: the tokenizer over the Java lexer, the
    brace-scope walk that names enclosing declarations, and the declaration scan. An index into a
    vector of characters or tokens becomes the list of those left; stacks keep their top at the
    head. A [u32] subtraction that would underflow, and an index out of range, are [None]. *)
From S2P Require Import Prelude Collections Skeleton References JavaText.

Set Default Proof Using "Type*".

(** ** Tokens *)

Inductive Token :=
  | Ident (name : str)
  | LBrace | RBrace | LParen | RParen | Semi | At | Arrow | Eq_ | LAngle | RAngle.

Record Spanned := mkSpanned { token : Token; tok_line : N; tok_offset : N }.

Definition structural_token (character : char) : option Token :=
  if (character =? ch "{")%N then Some LBrace
  else if (character =? ch "}")%N then Some RBrace
  else if (character =? ch "(")%N then Some LParen
  else if (character =? ch ")")%N then Some RParen
  else if (character =? ch ";")%N then Some Semi
  else if (character =? ch "@")%N then Some At
  else if (character =? ch "=")%N then Some Eq_
  else if (character =? ch "<")%N then Some LAngle
  else if (character =? ch ">")%N then Some RAngle
  else None.

Definition is_class_keyword (name : str) : bool :=
  bool_decide (name ∈ [lit "class"; lit "interface"; lit "enum"; lit "record"]).
Definition is_control_keyword (name : str) : bool :=
  bool_decide (name ∈ [lit "if"; lit "for"; lit "while"; lit "switch"; lit "catch"; lit "synchronized"; lit "try"]).
Definition is_modifier (name : str) : bool :=
  bool_decide (name ∈ [lit "public"; lit "private"; lit "protected"; lit "static"; lit "final"; lit "abstract";
    lit "synchronized"; lit "native"; lit "strictfp"; lit "default"; lit "transient"; lit "volatile"; lit "sealed"]).

Section tokens.
Context `{Unicode}.

Definition is_ident_start (c : char) : bool := is_alphabetic c || (c =? ch "_")%N || (c =? ch "$")%N.
Definition is_ident_continue (c : char) : bool := is_alphanumeric c || (c =? ch "_")%N || (c =? ch "$")%N.

(** A character with its lexer entry: [chars[index]] and [states[index]]. *)
Definition LexChar : Type := char * (N * LexState).
Definition in_code (c : LexChar) : bool := lex_is_code c.2.2.
Definition lexed (source : str) : list LexChar := zip source (lex source).

(** The inner [while] loop over an identifier. *)
Fixpoint take_ident (rest : list LexChar) : str * list LexChar :=
  match rest with
  | c :: rest' =>
      if in_code c && is_ident_continue c.1
      then let '(name, rest'') := take_ident rest' in (c.1 :: name, rest'')
      else ([], rest)
  | [] => ([], [])
  end.

Definition arrow_follows (rest : list LexChar) : bool :=
  match rest with c :: _ => (c.1 =? ch ">")%N && in_code c | [] => false end.

(** The outer [while] loop of [tokenize]. *)
Fixpoint tokenize_chars (fuel : nat) (line : N) (rest : list LexChar) (tokens : list Spanned) : option (list Spanned) :=
  match rest with
  | [] => Some tokens
  | c :: rest' =>
      match fuel with
      | O => None
      | S fuel' =>
          if (c.1 =? newline)%N then tokenize_chars fuel' (line + 1)%N rest' tokens
          else if negb (in_code c) || is_whitespace c.1 then tokenize_chars fuel' line rest' tokens
          else if is_ident_start c.1 then
            let '(name, rest'') := take_ident rest in
            tokenize_chars fuel' line rest'' (tokens ++ [mkSpanned (Ident name) line c.2.1])
          else if (c.1 =? ch "-")%N && arrow_follows rest' then
            tokenize_chars fuel' line (drop 1 rest') (tokens ++ [mkSpanned Arrow line c.2.1])
          else
            tokenize_chars fuel' line rest'
              (tokens ++ match structural_token c.1 with Some t => [mkSpanned t line c.2.1] | None => [] end)
      end
  end.
Definition tokenize (source : str) : option (list Spanned) :=
  tokenize_chars (length source) 1 (lexed source) [].

End tokens.

(** ** Annotations *)

(** The balanced-parenthesis loop both annotation skips share; [depth -= 1] underflows to [None]. *)
Fixpoint skip_arguments (depth : N) (tokens : list Spanned) : option (list Spanned) :=
  match tokens with
  | [] => Some []
  | t :: tokens' =>
      match token t with
      | LParen => skip_arguments (depth + 1)%N tokens'
      | RParen =>
          if (depth =? 0)%N then None
          else if (depth - 1 =? 0)%N then Some tokens' else skip_arguments (depth - 1)%N tokens'
      | _ => skip_arguments depth tokens'
      end
  end.
Definition skip_argument_list (tokens : list Spanned) : option (list Spanned) :=
  match tokens with
  | t :: _ => match token t with LParen => skip_arguments 0 tokens | _ => Some tokens end
  | [] => Some []
  end.

(** ** The enclosing scan *)

Record Unit_ := mkUnit {
  u_class_name : option str;
  u_method_name : option str;
  u_prev_ident : option str;
  u_expect_class_name : bool;
  u_saw_new : bool;
  u_saw_arrow : bool;
  u_start_line : option N }.
Definition unit_default : Unit_ := mkUnit None None None false false false None.

(** [Option::get_or_insert]. *)
Definition get_or_insert {A} (o : option A) (x : A) : option A := match o with Some y => Some y | None => Some x end.

Definition observe_ident (u : Unit_) (name : str) (line : N) : Unit_ :=
  let start := get_or_insert (u_start_line u) line in
  if is_class_keyword name then
    mkUnit (u_class_name u) (u_method_name u) (Some name) true (u_saw_new u) (u_saw_arrow u) start
  else if u_expect_class_name u then
    mkUnit (Some name) (u_method_name u) (Some name) false (u_saw_new u) (u_saw_arrow u) start
  else
    mkUnit (u_class_name u) (u_method_name u) (Some name) (u_expect_class_name u)
      (bool_decide (name = lit "new") || u_saw_new u) (u_saw_arrow u) start.

Definition observe_param_list_open (u : Unit_) : Unit_ :=
  match u_class_name u, u_prev_ident u with
  | None, Some ident =>
      if negb (is_control_keyword ident) && negb (u_saw_new u)
      then mkUnit (u_class_name u) (Some ident) (u_prev_ident u) (u_expect_class_name u) (u_saw_new u)
             (u_saw_arrow u) (u_start_line u)
      else u
  | _, _ => u
  end.

Definition scope_name (u : Unit_) (paren_depth : N) : option str :=
  match u_class_name u with
  | Some class_name => Some class_name
  | None => if (paren_depth =? 0)%N && negb (u_saw_arrow u) then u_method_name u else None
  end.

Definition expect_class (u : Unit_) : Unit_ :=
  mkUnit (u_class_name u) (u_method_name u) (u_prev_ident u) true (u_saw_new u) (u_saw_arrow u) (u_start_line u).
Definition note_arrow (u : Unit_) : Unit_ :=
  mkUnit (u_class_name u) (u_method_name u) (u_prev_ident u) (u_expect_class_name u) (u_saw_new u) true (u_start_line u).

(** [skip_annotation], from the token after the [@]. *)
Definition skip_annotation (tokens : list Spanned) (u : Unit_) : option (list Spanned * Unit_) :=
  match tokens with
  | t :: tokens' =>
      match token t with
      | Ident name =>
          if decide (name = lit "interface") then Some (tokens', expect_class u)
          else rest ← skip_argument_list tokens'; Some (rest, u)
      | _ => rest ← skip_argument_list tokens; Some (rest, u)
      end
  | [] => Some ([], u)
  end.

Record OpenScope := mkOpen { o_open_line : N; o_named : bool; o_path : option str }.
Record Interval := mkInterval { open_line : N; close_line : N; path : option str }.

(** The loop's local variables. *)
Record Scan := mkScan {
  sc_intervals : list Interval;
  sc_named_stack : list str;
  sc_open : list OpenScope;
  sc_unit : Unit_;
  sc_paren_depth : N }.

Definition with_unit (s : Scan) (u : Unit_) : Scan :=
  mkScan (sc_intervals s) (sc_named_stack s) (sc_open s) u (sc_paren_depth s).
Definition dotted (named_stack : list str) : option str :=
  if bool_decide (named_stack = []) then None else Some (join (lit ".") (rev named_stack)).

(** The [LBrace] arm. *)
Definition open_scope (s : Scan) (line : N) : Scan :=
  let named := scope_name (sc_unit s) (sc_paren_depth s) in
  let '(stack, start) :=
    match named with
    | Some name => (name :: sc_named_stack s, default line (u_start_line (sc_unit s)))
    | None => (sc_named_stack s, line)
    end in
  mkScan (sc_intervals s) stack (mkOpen start (bool_decide (is_Some named)) (dotted stack) :: sc_open s)
    unit_default (sc_paren_depth s).

(** Closing the innermost open scope at [line]: the [RBrace] arm, and the loop at end of input. *)
Definition close_scope (s : Scan) (line : N) : Scan :=
  match sc_open s with
  | scope :: open' =>
      mkScan (sc_intervals s ++ [mkInterval (o_open_line scope) line (o_path scope)])
        (if o_named scope then drop 1 (sc_named_stack s) else sc_named_stack s) open' (sc_unit s) (sc_paren_depth s)
  | [] => s
  end.

(** One turn of the [while] loop: the state and the tokens left. *)
Definition scan_step (s : Scan) (t : Spanned) (rest : list Spanned) : option (Scan * list Spanned) :=
  match token t with
  | At => '(rest', u) ← skip_annotation rest (sc_unit s); Some (with_unit s u, rest')
  | Ident name => Some (with_unit s (observe_ident (sc_unit s) name (tok_line t)), rest)
  | LParen =>
      let u := if (sc_paren_depth s =? 0)%N then observe_param_list_open (sc_unit s) else sc_unit s in
      Some (mkScan (sc_intervals s) (sc_named_stack s) (sc_open s) u (sc_paren_depth s + 1)%N, rest)
  | RParen =>
      Some (mkScan (sc_intervals s) (sc_named_stack s) (sc_open s) (sc_unit s) (sc_paren_depth s - 1)%N, rest)
  | Arrow => Some (with_unit s (note_arrow (sc_unit s)), rest)
  | LBrace => Some (open_scope s (tok_line t), rest)
  | RBrace => Some (with_unit (close_scope s (tok_line t)) unit_default, rest)
  | Semi => Some (with_unit s unit_default, rest)
  | Eq_ | LAngle | RAngle => Some (s, rest)
  end.

Fixpoint scan_loop (fuel : nat) (s : Scan) (tokens : list Spanned) : option Scan :=
  match tokens with
  | [] => Some s
  | t :: rest =>
      match fuel with
      | O => None
      | S fuel' => '(s', rest') ← scan_step s t rest; scan_loop fuel' s' rest'
      end
  end.

(** The closing [while let Some(scope) = open.pop()] loop. *)
Definition close_all (s : Scan) (last_line : N) : Scan :=
  Nat.iter (length (sc_open s)) (fun s => close_scope s last_line) s.

Definition scan_init : Scan := mkScan [] [] [] unit_default 0.

(** [enclosing_intervals], after tokenizing. *)
Definition intervals_of (tokens : list Spanned) (last_line : N) : option (list Interval) :=
  s ← scan_loop (length tokens) scan_init tokens;
  Some (sc_intervals (close_all s last_line)).
Definition enclosing_intervals `{Unicode} (source : str) : option (list Interval) :=
  tokens ← tokenize source;
  intervals_of tokens (N.of_nat (max (length (lines source)) 1)).

(** [Iterator::max_by_key]: the last of the greatest. *)
Definition max_by_open_line (l : list Interval) : option Interval :=
  foldl (fun best i => match best with
                       | Some b => if (open_line b <=? open_line i)%N then Some i else Some b
                       | None => Some i
                       end) None l.
Definition interval_contains (line : N) (i : Interval) : bool :=
  (open_line i <=? line)%N && (line <=? close_line i)%N.
Definition innermost_path (intervals : list Interval) (line : N) : option str :=
  i ← max_by_open_line (filter (fun i => interval_contains line i = true) intervals); path i.

Definition java_enclosing_declarations `{Unicode} (source : str) (lines : list N) : option (list (option str)) :=
  intervals ← enclosing_intervals source;
  Some (innermost_path intervals <$> lines).

(** ** Lemmas: the tokenizer *)

(** [lines().count()], by recursion. *)
Fixpoint count_lines (s : str) : nat :=
  match s with
  | [] => 0
  | c :: s' => if (c =? newline)%N then S (count_lines s') else max 1 (count_lines s')
  end.

Lemma length_lines s : length (lines s) = count_lines s.
Proof.
  unfold lines. induction s as [|c s IH]; [done|]. rewrite split_char_cons. cbn [count_lines]. rewrite <- IH. clear IH.
  pose proof (split_char_nonempty 10%N s) as Hne. destruct (split_char 10%N s) as [|p [|q ps]]; [done|..];
    change newline with 10%N; destruct (c =? 10)%N; cbn [length Nat.sub]; rewrite ?Nat.sub_0_r; cbn [take drop fmap list_fmap];
    rewrite !length_app, ?length_fmap; cbn [length]; rewrite ?length_fmap, ?length_take; cbn [length]; try lia.
  all: by destruct p.
Qed.

Section tokenizer.
Context `{Unicode}.

Lemma ident_start_continue c : is_ident_start c = true -> is_ident_continue c = true.
Proof.
  unfold is_ident_start, is_ident_continue, is_alphabetic, is_alphanumeric.
  case_match; rewrite !orb_true_iff; tauto.
Qed.

Lemma take_ident_spec rest :
  exists taken, rest = taken ++ (take_ident rest).2 /\ (take_ident rest).1 = taken.*1 /\
    Forall (fun c => in_code c = true /\ is_ident_continue c.1 = true) taken.
Proof.
  induction rest as [|c rest IH]; simpl; [by exists []|].
  destruct (in_code c && is_ident_continue c.1) eqn:E; [|by exists []].
  apply andb_true_iff in E. destruct IH as (taken & Hr & Hn & Hf). destruct (take_ident rest) as [name rest'].
  simpl in *. exists (c :: taken). csimpl. split_and!; [by f_equal|by f_equal|by constructor].
Qed.

Lemma take_ident_progress c rest :
  in_code c = true -> is_ident_start c.1 = true ->
  exists taken, c :: rest = c :: taken ++ (take_ident (c :: rest)).2.
Proof.
  intros Hc Hs%ident_start_continue. cbn [take_ident]. rewrite Hc, Hs. cbn [andb].
  destruct (take_ident_spec rest) as (taken & E & _ & _). destruct (take_ident rest) as [name rest'].
  exists taken. simpl in *. by f_equal.
Qed.

(** Tokens come in line order, within the lines [lo] to [hi]. *)
Definition tokens_ok (lo hi : N) (tokens : list Spanned) : Prop :=
  StronglySorted (fun t t' => (tok_line t <= tok_line t')%N) tokens /\
  Forall (fun t => (lo <= tok_line t <= hi)%N) tokens.

Lemma tokens_ok_snoc lo line hi tokens t :
  tokens_ok lo line tokens -> tok_line t = line -> (lo <= line <= hi)%N -> tokens_ok lo line (tokens ++ [t]).
Proof.
  intros [Hs Hb] Ht Hl. split.
  - apply StronglySorted_app. split_and!; [|done|repeat constructor].
    intros x y Hx ->%list_elem_of_singleton. rewrite Forall_forall in Hb. apply Hb in Hx. lia.
  - apply Forall_app. split; [done|]. repeat constructor; lia.
Qed.

Lemma tokens_ok_mono lo hi hi' tokens : (hi <= hi')%N -> tokens_ok lo hi tokens -> tokens_ok lo hi' tokens.
Proof. intros Hh [Hs Hb]. split; [done|]. eapply Forall_impl; [exact Hb|]. intros; simpl in *; lia. Qed.

Lemma count_lines_cons (c : LexChar) (rest : list LexChar) :
  N.of_nat (count_lines (c :: rest).*1) = if (c.1 =? newline)%N then (1 + N.of_nat (count_lines rest.*1))%N
    else N.max 1 (N.of_nat (count_lines rest.*1)).
Proof. csimpl. destruct (c.1 =? newline)%N; lia. Qed.

Lemma count_lines_drop (taken rest : list LexChar) : count_lines rest.*1 <= count_lines (taken ++ rest).*1.
Proof.
  induction taken as [|c taken IH]; csimpl; [done|]. rewrite fmap_app in *. destruct (c.1 =? newline)%N; lia.
Qed.

Lemma tokenize_chars_ok fuel prev line rest tokens :
  length rest <= fuel -> tokens_ok 1 prev tokens -> (prev <= line)%N -> (1 <= line)%N ->
  exists tokens', tokenize_chars fuel line rest tokens = Some tokens' /\
    tokens_ok 1 (N.max prev (line + N.of_nat (count_lines rest.*1) - 1)) tokens'.
Proof.
  revert prev line rest tokens. induction fuel as [|fuel IH]; intros prev line rest tokens Hf Hok Hp Hl;
    destruct rest as [|c rest]; simpl in Hf; try lia; cbn [tokenize_chars].
  1-2: exists tokens; split; [done|]; eapply tokens_ok_mono; [|exact Hok]; lia.
  rewrite count_lines_cons. destruct (c.1 =? newline)%N eqn:Hnl.
  { destruct (IH prev (line + 1)%N rest tokens) as (tokens' & -> & Hok'); [lia|done|lia|lia|].
    exists tokens'. split; [done|]. eapply tokens_ok_mono; [|exact Hok']. lia. }
  assert (forall taken rest' ts, rest = taken ++ rest' -> tokens_ok 1 line ts ->
    exists tokens', tokenize_chars fuel line rest' ts = Some tokens' /\
      tokens_ok 1 (N.max prev (line + N.max 1 (N.of_nat (count_lines rest.*1)) - 1)) tokens') as Hrec.
  { intros taken rest' ts -> Hts. rewrite length_app in Hf.
    destruct (IH line line rest' ts) as (tokens' & -> & Hok'); [lia|done|lia|lia|]. exists tokens'. split; [done|].
    eapply tokens_ok_mono; [|exact Hok']. pose proof (count_lines_drop taken rest'). lia. }
  assert (forall t, tokens_ok 1 line (tokens ++ [mkSpanned t line c.2.1])) as Hadd
    by (intros t; apply (tokens_ok_snoc 1 line line); [exact (tokens_ok_mono 1 prev line _ Hp Hok)|done|lia]).
  apply (tokens_ok_mono 1 prev line) in Hok; [|done].
  destruct (negb (in_code c) || is_whitespace c.1) eqn:Hskip; [by apply (Hrec [] rest)|].
  apply orb_false_iff in Hskip as [Hcode _]. apply negb_false_iff in Hcode.
  destruct (is_ident_start c.1) eqn:Hident.
  { destruct (take_ident_progress c rest Hcode Hident) as [taken Et].
    destruct (take_ident (c :: rest)) as [name rest'']. injection Et as Et. by apply (Hrec taken rest''). }
  destruct ((c.1 =? ch "-")%N && arrow_follows rest).
  { apply (Hrec (take 1 rest) (drop 1 rest)); [by rewrite take_drop|done]. }
  apply (Hrec [] rest); [done|]. destruct (structural_token c.1); [done|]. by rewrite app_nil_r.
Qed.

Lemma lexed_chars source : (lexed source).*1 = source.
Proof. unfold lexed. apply fst_zip. by rewrite lex_length. Qed.

Lemma tokenize_ok source :
  exists tokens, tokenize source = Some tokens /\ tokens_ok 1 (N.of_nat (max (length (lines source)) 1)) tokens.
Proof.
  destruct (tokenize_chars_ok (length source) 1 1 (lexed source) []) as (tokens & E & Hok).
  - unfold lexed. rewrite length_zip_with, lex_length. lia.
  - split; constructor.
  - lia.
  - lia.
  - exists tokens. split; [done|]. rewrite lexed_chars in Hok. rewrite length_lines.
    eapply tokens_ok_mono; [|exact Hok]. lia.
Qed.

(** A token stands in [source] where it says: its text is at its offset, on its line, in code. *)
Definition token_text (t : Token) : str :=
  match t with
  | Ident name => name
  | LBrace => lit "{" | RBrace => lit "}" | LParen => lit "(" | RParen => lit ")" | Semi => lit ";" | At => lit "@"
  | Arrow => lit "->" | Eq_ => lit "=" | LAngle => lit "<" | RAngle => lit ">"
  end.
Definition token_spells (source : str) (t : Spanned) : Prop :=
  exists before after, source = before ++ token_text (token t) ++ after /\
    tok_offset t = utf8_len before /\ tok_line t = (position source (length before)).1 /\
    state_at source (length before) = LexCode /\
    (forall name, token t = Ident name -> name <> [] /\ Forall (fun c => is_ident_continue c = true) name).

Lemma newline_pieces s : length (split_char newline s) = S (length (filter (fun c => c = newline) s)).
Proof.
  induction s as [|c s IH]; [done|]. rewrite split_char_cons, filter_cons.
  pose proof (split_char_nonempty newline s) as Hne. destruct (split_char newline s) as [|p ps]; [done|].
  simpl in *. destruct (N.eqb_spec c newline); case_decide; simpl in *; try done; lia.
Qed.

Lemma position_line before after :
  (position (before ++ after) (length before)).1 = (1 + N.of_nat (length (filter (fun c => c = newline) before)))%N.
Proof. unfold position. rewrite take_app_length. simpl fst. rewrite newline_pieces. lia. Qed.

Lemma lexed_split source taken c rest :
  lexed source = taken ++ c :: rest ->
  source = taken.*1 ++ c.1 :: rest.*1 /\ c.2.1 = utf8_len taken.*1 /\ c.2.2 = state_at source (length taken).
Proof.
  intros E. assert (source = taken.*1 ++ c.1 :: rest.*1) as Es.
  { rewrite <- (lexed_chars source), E. by rewrite fmap_app. }
  assert (source !! length taken = Some c.1) as Hc.
  { rewrite Es. apply list_lookup_middle. by rewrite length_fmap. }
  split; [done|]. pose proof (lex_lookup source _ _ Hc) as Hl.
  assert (lexed source !! length taken = Some c) as Hx by (rewrite E; by apply list_lookup_middle).
  unfold lexed in Hx. rewrite lookup_zip_with, Hc, Hl in Hx. simpl in Hx. injection Hx as <-. simpl. split; [|done].
  rewrite Es at 1. by rewrite take_app_length' by by rewrite length_fmap.
Qed.

Lemma structural_token_text c t : structural_token c = Some t -> token_text t = [c] /\ (forall name, t <> Ident name).
Proof.
  unfold structural_token. intros E.
  repeat match type of E with context [(c =? ?d)%N] => destruct (N.eqb_spec c d) as [->|]; [by injection E as <-|] end.
  done.
Qed.

Lemma no_newline_ident c : is_ident_continue c = true -> c <> newline.
Proof. by intros Hc ->. Qed.

Lemma filter_newline_none (s : str) : Forall (fun c => c <> newline) s -> filter (fun c => c = newline) s = [].
Proof. induction 1; [done|]. by rewrite filter_cons_False. Qed.

Lemma tokenize_chars_spells source fuel line taken rest tokens tokens' :
  lexed source = taken ++ rest ->
  line = (1 + N.of_nat (length (filter (fun c => c = newline) taken.*1)))%N ->
  Forall (token_spells source) tokens ->
  tokenize_chars fuel line rest tokens = Some tokens' -> Forall (token_spells source) tokens'.
Proof.
  revert line taken rest tokens. induction fuel as [|fuel IH]; intros line taken rest tokens El Hline Hok;
    destruct rest as [|c rest]; cbn [tokenize_chars]; try done; try (by intros [= <-]).
  destruct (lexed_split source taken c rest El) as (Es & Ho & Hst).
  assert (line = (position source (length taken.*1)).1) as Hpos by (rewrite Es, position_line; exact Hline).
  assert (forall more rest' ts, c :: rest = more ++ rest' -> Forall (fun d => d.1 <> newline) more ->
    Forall (token_spells source) ts ->
    tokenize_chars fuel line rest' ts = Some tokens' -> Forall (token_spells source) tokens') as Hrec.
  { intros more rest' ts E Hm Hts. apply (IH line (taken ++ more)); [by rewrite <- app_assoc, <- E| |done].
    rewrite fmap_app, filter_app, (filter_newline_none more.*1), app_nil_r; [done|]. by apply Forall_fmap. }
  assert (forall t after, c.1 :: rest.*1 = token_text t ++ after -> in_code c = true ->
    (forall name : str, t = Ident name -> name <> [] /\ Forall (fun d => is_ident_continue d = true) name) ->
    Forall (token_spells source) (tokens ++ [mkSpanned t line c.2.1])) as Hadd.
  { intros t after Et Hc Hname. apply Forall_app. split; [done|]. repeat constructor.
    exists taken.*1, after. cbn [token tok_offset tok_line]. rewrite <- Et. split_and!; [done|done|done| |done].
    replace (length taken.*1) with (length taken) by (by rewrite length_fmap).
    rewrite <- Hst. unfold in_code in Hc. by destruct c.2.2. }
  destruct (N.eqb_spec c.1 newline) as [Hn|Hn].
  { apply (IH _ (taken ++ [c])); [by rewrite <- app_assoc| |done].
    rewrite fmap_app, filter_app, length_app. csimpl. rewrite filter_cons_True by done. csimpl. rewrite Hline. simpl length. lia. }
  destruct (negb (in_code c) || is_whitespace c.1) eqn:Hskip.
  { apply (Hrec [c] rest); [done|by repeat constructor|done]. }
  apply orb_false_iff in Hskip as [Hcode _]. apply negb_false_iff in Hcode.
  destruct (is_ident_start c.1) eqn:Hident.
  { pose proof (ident_start_continue _ Hident) as Hcont.
    destruct (take_ident_spec (c :: rest)) as (more & E & Hname & Hall).
    assert ((take_ident (c :: rest)).1 <> []) as Hne.
    { cbn [take_ident]. rewrite Hcode, Hcont. cbn [andb]. by destruct (take_ident rest). }
    destruct (take_ident (c :: rest)) as [name rest'']. cbn [fst snd] in *.
    apply (Hrec more rest''); [done| |].
    - eapply Forall_impl; [exact Hall|]. intros d [_ Hd]. by apply no_newline_ident.
    - apply (Hadd (Ident name) rest''.*1); [|done|].
      + change (c.1 :: rest.*1) with ((c :: rest).*1). rewrite E. simpl. by rewrite fmap_app, Hname.
      + intros name' [= <-]. split; [done|]. rewrite Hname. apply Forall_fmap. eapply Forall_impl; [exact Hall|]. by intros d []. }
  destruct ((c.1 =? ch "-")%N && arrow_follows rest) eqn:Harrow.
  { apply andb_true_iff in Harrow as [Hd%N.eqb_eq Ha]. destruct rest as [|d rest]; [done|]. cbn [arrow_follows] in Ha.
    apply andb_true_iff in Ha as [Hgt%N.eqb_eq _].
    apply (Hrec [c; d] rest); [done| |].
    - repeat constructor; [done|]. by rewrite Hgt.
    - apply (Hadd Arrow rest.*1); [|done|done]. csimpl. by rewrite Hd, Hgt. }
  apply (Hrec [c] rest); [done|by repeat constructor|].
  destruct (structural_token c.1) as [t|] eqn:Et; [|by rewrite app_nil_r].
  apply structural_token_text in Et as [Ht Hni].
  apply (Hadd t rest.*1); [by rewrite Ht|done|]. intros name ->. by destruct (Hni name).
Qed.

Lemma tokenize_spells_at source tokens : tokenize source = Some tokens -> Forall (token_spells source) tokens.
Proof. intros E. by apply (tokenize_chars_spells source (length source) 1 [] (lexed source) [] tokens) in E. Qed.

End tokenizer.

(** ** Lemmas: annotations *)

(** The parenthesis depth after a run of tokens, from [d]. *)
Definition paren_delta (t : Spanned) : Z := match token t with LParen => 1 | RParen => -1 | _ => 0 end.
Definition parens (l : list Spanned) : Z := foldr (fun t n => (paren_delta t + n)%Z) 0%Z l.

Lemma parens_cons t l : parens (t :: l) = (paren_delta t + parens l)%Z.
Proof. done. Qed.

Lemma skip_arguments_spec depth tokens :
  (0 < depth)%N ->
  exists skipped rest, skip_arguments depth tokens = Some rest /\ tokens = skipped ++ rest /\
    (forall k, k < length skipped -> (0 < Z.of_N depth + parens (take k skipped))%Z) /\
    (rest = [] \/ (Z.of_N depth + parens skipped = 0)%Z).
Proof.
  revert depth. induction tokens as [|t tokens IH]; intros depth Hd; cbn [skip_arguments].
  { exists [], []. split_and!; try done; [simpl; lia|by left]. }
  assert (forall d, (0 < d)%N -> Z.of_N d = (Z.of_N depth + paren_delta t)%Z -> skip_arguments d tokens = skip_arguments d tokens ->
    exists skipped rest, skip_arguments d tokens = Some rest /\ t :: tokens = skipped ++ rest /\
    (forall k, k < length skipped -> (0 < Z.of_N depth + parens (take k skipped))%Z) /\
    (rest = [] \/ (Z.of_N depth + parens skipped = 0)%Z)) as Hrec.
  { intros d Hd' Hdelta _. destruct (IH d Hd') as (skipped & rest & E & -> & Hk & Hend).
    exists (t :: skipped), rest. split_and!; [done|done| |].
    - intros [|k] Hlt; [simpl; lia|]. simpl in Hlt. specialize (Hk k ltac:(lia)). cbn [take]. rewrite parens_cons. lia.
    - destruct Hend as [?|Hend]; [by left|]. right. rewrite parens_cons. lia. }
  unfold paren_delta in Hrec. destruct (token t) eqn:Et; try (apply Hrec; [lia|lia|done]).
  rewrite (proj2 (N.eqb_neq depth 0)) by lia. destruct (N.eqb_spec (depth - 1) 0).
  - exists [t], tokens. split_and!; [done|done| |].
    + intros [|k] Hlt; [simpl; lia|simpl in Hlt; lia].
    + right. rewrite parens_cons. unfold paren_delta. rewrite Et. simpl. lia.
  - apply Hrec; [lia|lia|done].
Qed.

(** What an annotation's argument list skips: nothing, or a parenthesized group taken whole. *)
Definition skipped_whole (tokens skipped rest : list Spanned) : Prop :=
  tokens = skipped ++ rest /\
  (skipped = [] \/
   (exists t, head skipped = Some t /\ token t = LParen) /\
   (forall k, 0 < k < length skipped -> (0 < parens (take k skipped))%Z) /\
   (rest = [] \/ parens skipped = 0%Z)).

Lemma skip_argument_list_spec tokens :
  exists skipped rest, skip_argument_list tokens = Some rest /\ skipped_whole tokens skipped rest /\
    ((exists t, head tokens = Some t /\ token t = LParen) -> skipped <> []).
Proof.
  destruct tokens as [|t tokens]; [exists [], []; split_and!; [done|by split; [|left]|by intros (? & ? & _)]|].
  unfold skip_argument_list. destruct (token t) eqn:Et;
    try (exists [], (t :: tokens); split_and!; [done|by split; [|left]|]; intros (t' & [= <-] & ?); congruence).
  cbn [skip_arguments]. rewrite Et. destruct (skip_arguments_spec (0 + 1) tokens ltac:(lia)) as (skipped & rest & E & -> & Hk & Hend).
  exists (t :: skipped), rest. split_and!; [done| |done]. split; [done|]. right. split_and!.
  - by exists t.
  - intros [|k] [H0 Hlt]; [lia|]. simpl in Hlt. specialize (Hk k ltac:(lia)). cbn [take]. rewrite parens_cons.
    unfold paren_delta. rewrite Et. lia.
  - destruct Hend as [?|Hend]; [by left|]. right. rewrite parens_cons. unfold paren_delta. rewrite Et. lia.
Qed.

Lemma skip_annotation_spec tokens u :
  exists skipped rest u', skip_annotation tokens u = Some (rest, u') /\ tokens = skipped ++ rest /\
    (u' = u \/ u' = expect_class u).
Proof.
  destruct tokens as [|t tokens]; [exists [], [], u; auto|]. cbn [skip_annotation].
  destruct (skip_argument_list_spec tokens) as (sk & rest & E & [E' _] & _).
  destruct (skip_argument_list_spec (t :: tokens)) as (sk2 & rest2 & E2 & [E2' _] & _).
  destruct (token t); try (rewrite E2; simpl; exists sk2, rest2, u; auto).
  case_decide; [exists [t], tokens, (expect_class u); auto|]. rewrite E. simpl.
  exists (t :: sk), rest, u. rewrite E'. auto.
Qed.

(** ** Lemmas: the scope walk *)

(** The open scopes, innermost first, are named by [names]; the stack of names is those that have
    one, and a scope's path is the dotted names from the outermost down to itself. *)
Definition scopes_named (s : Scan) (names : list (option str)) : Prop :=
  length names = length (sc_open s) /\ sc_named_stack s = omap id names /\
  forall k o, sc_open s !! k = Some o -> exists n, names !! k = Some n /\
    o_named o = bool_decide (is_Some n) /\ o_path o = dotted (omap id (drop k names)).
Definition scopes_ok (s : Scan) : Prop := exists names, scopes_named s names.

(** Of two scopes, [a] closing first: it lies within [b], or [b] opens no earlier than [a] closes. *)
Definition nested (a b : Interval) : Prop :=
  (close_line a <= close_line b)%N /\ ((open_line b <= open_line a)%N \/ (close_line a <= open_line b)%N).
Definition around (o : OpenScope) (i : Interval) : Prop := (o_open_line o <= open_line i)%N \/ (close_line i <= o_open_line o)%N.

Record lines_ok (s : Scan) (line : N) : Prop := {
  LO_open : Forall (fun o => (o_open_line o <= line)%N) (sc_open s);
  LO_unit : forall l, u_start_line (sc_unit s) = Some l -> (l <= line)%N /\
    Forall (fun o => (o_open_line o <= l)%N) (sc_open s) /\ Forall (fun i => (close_line i <= l)%N) (sc_intervals s);
  LO_intervals : Forall (fun i => (open_line i <= close_line i <= line)%N) (sc_intervals s);
  LO_stack : StronglySorted (fun o o' => (o_open_line o' <= o_open_line o)%N) (sc_open s);
  LO_nested : StronglySorted nested (sc_intervals s);
  LO_around : Forall (fun i => Forall (fun o => around o i) (sc_open s)) (sc_intervals s) }.

Lemma open_scope_ok s line : scopes_ok s -> scopes_ok (open_scope s line).
Proof.
  intros (names & Hl & Hs & Hk). unfold open_scope. set (named := scope_name _ _).
  exists (named :: names). destruct named as [name|]; (split_and!; [simpl; by rewrite Hl|by rewrite Hs|]);
    intros [|k] o Ho; simpl in Ho; simplify_eq/=; eauto; (eexists; split_and!; [done|done|by rewrite Hs]).
Qed.

Lemma close_scope_ok s line : scopes_ok s -> scopes_ok (close_scope s line).
Proof.
  intros (names & Hl & Hs & Hk). unfold close_scope. destruct (sc_open s) as [|o open'] eqn:Eo.
  { exists names. split_and!; [by rewrite Eo|done|by rewrite Eo]. }
  destruct names as [|n names]; [done|]. exists names. simpl in *.
  destruct (Hk 0 o eq_refl) as (n' & [= <-] & Hn & _). split_and!; simpl.
  - by injection Hl.
  - rewrite Hn, Hs. by destruct n.
  - intros k o' Ho'. apply (Hk (S k) o' Ho').
Qed.


(** A scope whose header starts no earlier than anything seen goes on top. *)
Lemma push_lines s line start named p stack d :
  lines_ok s line -> (start <= line)%N -> Forall (fun o => (o_open_line o <= start)%N) (sc_open s) ->
  Forall (fun i => (close_line i <= start)%N) (sc_intervals s) ->
  lines_ok (mkScan (sc_intervals s) stack (mkOpen start named p :: sc_open s) unit_default d) line.
Proof.
  intros [Ho Hu Hi Hs Hn Ha] Hle Hos His. split; simpl; try done; try by constructor.
  rewrite Forall_forall in *. intros i Hin. constructor; [right; by apply His|by apply Ha].
Qed.
Lemma open_scope_lines s line : lines_ok s line -> lines_ok (open_scope s line) line.
Proof.
  intros H. unfold open_scope. pose proof H as [Ho Hu Hi Hs Hn Ha].
  assert (Forall (fun i => (close_line i <= line)%N) (sc_intervals s)) as Hc by (eapply Forall_impl; [exact Hi|]; intros i [_ ?]; done).
  destruct (scope_name _ _); apply push_lines; try done;
    destruct (u_start_line (sc_unit s)) as [l0|] eqn:E; simpl; try done; by destruct (Hu l0 eq_refl) as (? & ? & ?).
Qed.

Lemma default_unit_lines s line : lines_ok s line -> lines_ok (with_unit s unit_default) line.
Proof. by intros []. Qed.
Lemma close_scope_lines s line :
  lines_ok (with_unit s unit_default) line -> lines_ok (with_unit (close_scope s line) unit_default) line.
Proof.
  intros H. pose proof H as [Ho _ Hi Hs Hn Ha]. simpl in *. unfold close_scope. destruct (sc_open s) as [|o open'] eqn:E; [done|]. clear H.
  apply Forall_cons in Ho as [Ho Ho']. apply StronglySorted_inv in Hs as [Hs Hos]. rewrite Forall_forall in Hi, Ha. split; simpl; try done.
  - apply Forall_app. split; [by apply Forall_forall|]. repeat constructor; simpl; lia.
  - apply StronglySorted_app. split_and!; [|done|by repeat constructor]. intros i j Hin ->%list_elem_of_singleton.
    specialize (Hi _ Hin). specialize (Ha _ Hin). apply Forall_cons in Ha as [Ha _]. split; simpl; [lia|]. by destruct Ha; [left|right].
  - apply Forall_app. split.
    + apply Forall_forall. intros i Hin. specialize (Ha _ Hin). by apply Forall_cons in Ha as [_ Ha].
    + constructor; [|done]. eapply Forall_impl; [exact Hos|]. intros o' Hle. by left.
Qed.

Lemma lines_ok_mono s line line' : (line <= line')%N -> lines_ok s line -> lines_ok s line'.
Proof.
  intros Hle [Ho Hu Hi Hs Hn Ha]. split; try done.
  - eapply Forall_impl; [exact Ho|]. intros; simpl in *; lia.
  - intros l Hl. apply Hu in Hl as (? & ? & ?). split_and!; [lia|done..].
  - eapply Forall_impl; [exact Hi|]. intros; simpl in *; lia.
Qed.

Lemma scan_step_ok s t rest :
  scopes_ok s -> lines_ok s (tok_line t) ->
  exists s' skipped rest', scan_step s t rest = Some (s', rest') /\ rest = skipped ++ rest' /\
    scopes_ok s' /\ lines_ok s' (tok_line t).
Proof.
  intros Hs Hl. unfold scan_step.
  assert (forall s', Some (s', rest) = Some (s', rest) -> scopes_ok s' -> lines_ok s' (tok_line t) ->
    exists s'' skipped rest', Some (s', rest) = Some (s'', rest') /\ rest = skipped ++ rest' /\
    scopes_ok s'' /\ lines_ok s'' (tok_line t)) as Hstay by (intros s' _ ? ?; by exists s', [], rest).
  assert (forall u, u_start_line u = u_start_line (sc_unit s) \/ u_start_line u = Some (tok_line t) \/ u_start_line u = None -> lines_ok (with_unit s u) (tok_line t)) as Hunit.
  { intros u Hu. pose proof Hl as [Ho Hu0 Hi Hs0 Hn Ha]. split; simpl; try done. intros l El. destruct Hu as [Hu|[Hu|Hu]]; rewrite Hu in El; [by apply Hu0| |done].
    injection El as <-. split_and!; [done|done|]. eapply Forall_impl; [exact Hi|]. by intros i [_ ?]. }
  destruct (token t); try (apply Hstay; [done|done|]; first [done | by destruct Hl; split | by apply Hunit; auto]).
  - apply Hstay; [done|done|]. apply Hunit. unfold observe_ident, get_or_insert.
    destruct (u_start_line (sc_unit s)) as [l'|] eqn:E; repeat case_match; simpl; auto.
  - apply Hstay; [done|by apply open_scope_ok|by apply open_scope_lines].
  - apply Hstay; [done|by apply close_scope_ok|by apply close_scope_lines, default_unit_lines].
  - apply Hstay; [done|done|]. assert (u_start_line (observe_param_list_open (sc_unit s)) = u_start_line (sc_unit s)) as E
      by (unfold observe_param_list_open; repeat case_match; done).
    destruct Hl. split; simpl; try done. case_match; rewrite ?E; done.
  - destruct (skip_annotation_spec rest (sc_unit s)) as (sk & rest' & u' & -> & E & Hu'). simpl.
    exists (with_unit s u'), sk, rest'. split_and!; [done|done|done|]. apply Hunit. destruct Hu' as [->| ->]; auto.
Qed.

Lemma scan_loop_ok fuel s lo hi tokens :
  length tokens <= fuel -> scopes_ok s -> lines_ok s lo -> (lo <= hi)%N -> tokens_ok lo hi tokens ->
  exists s', scan_loop fuel s tokens = Some s' /\ scopes_ok s' /\ lines_ok s' hi.
Proof.
  revert s lo tokens. induction fuel as [|fuel IH]; intros s lo tokens Hf Hs Hl Hle Hok;
    destruct tokens as [|t rest]; simpl in Hf; try lia; cbn [scan_loop].
  1-2: exists s; split_and!; [done|done|by eapply lines_ok_mono].
  destruct Hok as [Hsort Hb]. apply StronglySorted_inv in Hsort as [Hsort Ht]. apply Forall_cons in Hb as [Htb Hb].
  destruct (scan_step_ok s t rest Hs) as (s' & sk & rest' & -> & -> & Hs' & Hl').
  { eapply lines_ok_mono; [|exact Hl]. lia. }
  simpl. rewrite length_app in Hf. apply (IH s' (tok_line t)); [lia|done|done|lia|].
  apply StronglySorted_app in Hsort as (_ & _ & Hsort). apply Forall_app in Hb as [_ Hb].
  apply Forall_app in Ht as [_ Ht]. split; [done|]. rewrite Forall_forall in *. intros x Hx.
  split; [by apply Ht|]. by apply Hb.
Qed.

Lemma close_all_ok s line :
  scopes_ok s -> lines_ok s line ->
  let e := close_all s line in
  sc_open e = [] /\ sc_named_stack e = [] /\ Forall (fun i => (open_line i <= close_line i <= line)%N) (sc_intervals e) /\
  StronglySorted nested (sc_intervals e) /\
  sc_intervals e = sc_intervals s ++ ((fun o => mkInterval (o_open_line o) line (o_path o)) <$> sc_open s).
Proof.
  intros Hs Hl%default_unit_lines. unfold close_all.
  assert (forall n s, length (sc_open s) = n -> scopes_ok s -> lines_ok (with_unit s unit_default) line ->
    let e := Nat.iter n (fun s => close_scope s line) s in
    sc_open e = [] /\ scopes_ok e /\ lines_ok (with_unit e unit_default) line /\
    sc_intervals e = sc_intervals s ++ ((fun o => mkInterval (o_open_line o) line (o_path o)) <$> sc_open s)) as Hn.
  { clear. induction n as [|n IH]; intros s Hn Hs Hl e; subst e.
    - cbn [Nat.iter nat_rect]. destruct (sc_open s) eqn:E; [|done]. by rewrite app_nil_r.
    - rewrite Nat.iter_succ_r.
      destruct (IH (close_scope s line)) as (H1 & H2 & H3 & H4).
      + unfold close_scope. destruct (sc_open s); simpl in *; lia.
      + by apply close_scope_ok.
      + by apply close_scope_lines.
      + split_and!; try done. rewrite H4. unfold close_scope. destruct (sc_open s) as [|o open']; [done|].
        simpl. by rewrite <- app_assoc. }
  destruct (Hn _ s eq_refl Hs Hl) as (H1 & (names & Hlen & Hst & _) & [_ _ H3 _ H5 _] & H4).
  split_and!; try done. rewrite H1 in Hlen. destruct names; [|done]. by rewrite Hst.
Qed.

(** The last of the greatest: nothing before it is greater, everything after it is smaller. *)
Lemma max_by_open_line_spec l :
  match max_by_open_line l with
  | Some m => exists before after, l = before ++ m :: after /\
      Forall (fun i => (open_line i <= open_line m)%N) before /\ Forall (fun i => (open_line i < open_line m)%N) after
  | None => l = []
  end.
Proof.
  unfold max_by_open_line. induction l as [|i l IH] using rev_ind; [done|]. rewrite foldl_app. cbn [foldl].
  destruct (foldl _ None l) as [b|].
  - destruct IH as (before & after & -> & Hb & Ha). destruct (N.leb_spec (open_line b) (open_line i)).
    + exists (before ++ b :: after), []. split_and!; [done| |done]. apply Forall_app. split; [|constructor; [done|]].
      all: eapply Forall_impl; [eassumption|]; simpl; intros; lia.
    + exists before, (after ++ [i]). split_and!; [by rewrite <- app_assoc|done|]. apply Forall_app. split; [done|by repeat constructor].
  - subst. exists [], []. by split_and!.
Qed.
(** What [filter] keeps, in the list it came from. *)
Lemma filter_split {A} (P : A -> Prop) `{forall x, Decision (P x)} (l : list A) : forall before x after,
  filter P l = before ++ x :: after -> exists before' after', l = before' ++ x :: after' /\ filter P before' = before /\ filter P after' = after.
Proof.
  induction l as [|y l IH]; intros before x after; [by destruct before|]. rewrite filter_cons. case_decide as Hy.
  - destruct before as [|z before]; intros [= <- E]; [by exists [], l|]. apply IH in E as (b & a & -> & <- & <-).
    exists (y :: b), a. rewrite filter_cons, decide_True by done. done.
  - intros E. apply IH in E as (b & a & -> & <- & <-). exists (y :: b), a. rewrite filter_cons, decide_False by done. done.
Qed.

Lemma scan_init_ok line : scopes_ok scan_init /\ lines_ok scan_init line.
Proof. split; [by exists []|]. by split; simpl; try constructor. Qed.

(** ** Properties *)

(** Every token is where it says it is: the tokenizer returns on every source, and each token's
    text stands in the source at its byte offset, on its 1-based line, in a character the lexer
    calls code - never inside a comment, a string or a text block - an identifier being a non-empty
    run of identifier characters. *)
Theorem tokenize_faithful `{Unicode} (source : str) :
  exists tokens, tokenize source = Some tokens /\
    StronglySorted (fun t t' => (tok_line t <= tok_line t')%N) tokens /\
    Forall (token_spells source) tokens.
Proof.
  destruct (tokenize_ok source) as (tokens & E & [Hs _]). exists tokens.
  split_and!; [done|done|by apply tokenize_spells_at].
Qed.

Lemma enclosing_intervals_some `{Unicode} (source : str) :
  exists intervals, enclosing_intervals source = Some intervals /\
    Forall (fun i => (open_line i <= close_line i <= N.of_nat (max (length (lines source)) 1))%N) intervals /\
    StronglySorted nested intervals.
Proof.
  unfold enclosing_intervals, intervals_of. destruct (tokenize_ok source) as (tokens & -> & Hok). simpl.
  set (last_line := N.of_nat (length (lines source) `max` 1)) in *.
  destruct (scan_init_ok 1) as [Hs0 Hl0].
  destruct (scan_loop_ok (length tokens) scan_init 1 last_line tokens) as (s & -> & Hs & Hl); try done.
  { unfold last_line. lia. }
  simpl. destruct (close_all_ok s last_line Hs Hl) as (_ & _ & Hi & Hn & _). by eexists.
Qed.

Definition contains (line : N) (i : Interval) : Prop := (open_line i <= line <= close_line i)%N.

(** C3: The enclosing scan is total and its answer exact. On every source text it returns - no index
    runs out of range, no depth underflows, every loop ends. The scopes, in the order they close, have
    well-formed ranges within the file, and of two of them the one that closes first lies within the
    other's lines or ends by the line the other opens on. A line is answered with the path of the
    containing scope that opens on the latest line and, of several that open on that line, the one that
    closes last - so the outermost of those; with nothing when no scope contains the line. *)
Theorem java_enclosing_exact `{Unicode} (source : str) (ls : list N) :
  exists intervals answers,
    enclosing_intervals source = Some intervals /\
    java_enclosing_declarations source ls = Some answers /\
    Forall (fun i => (open_line i <= close_line i <= N.of_nat (max (length (lines source)) 1))%N) intervals /\
    StronglySorted nested intervals /\
    Forall2 (fun line answer =>
      (answer = None /\ forall i, i ∈ intervals -> ~ contains line i) \/
      exists before i after, intervals = before ++ i :: after /\ contains line i /\ answer = path i /\
        (forall j, j ∈ before -> contains line j -> (open_line j <= open_line i)%N) /\
        (forall j, j ∈ after -> contains line j -> (open_line j < open_line i)%N)) ls answers.
Proof.
  unfold java_enclosing_declarations. destruct (enclosing_intervals_some source) as (intervals & -> & Hi & Hn). simpl.
  eexists _, _. split_and!; [done|done|done|done|].
  apply Forall2_fmap_r, Forall_Forall2_diag, Forall_forall. intros line _. unfold innermost_path. simpl.
  assert (forall i, interval_contains line i = true <-> contains line i) as Hc.
  { intros i. unfold interval_contains, contains. rewrite andb_true_iff, !N.leb_le. lia. }
  match goal with |- context [max_by_open_line ?l] => pose proof (max_by_open_line_spec l) as Hm;
    destruct (max_by_open_line l) as [m|]; simpl end.
  - right. destruct Hm as (b & a & E & Hb & Ha). assert (interval_contains line m = true) as Hm.
    { eapply (list_elem_of_filter (fun i => interval_contains line i = true)). rewrite E. apply elem_of_app. right. by left. }
    apply filter_split in E as (before & after & -> & <- & <-). rewrite Forall_forall in Hb, Ha. exists before, m, after.
    split_and!; [done|by apply Hc|done| |]; intros j Hj Hjc%Hc; [apply Hb|apply Ha]; by apply list_elem_of_filter.
  - left. split; [done|]. intros i Hin Hic%Hc. assert (i ∈ @nil Interval) as []%elem_of_nil. rewrite <- Hm. by apply list_elem_of_filter.
Qed.

(** Nested scopes need not open on later lines: when a class and its method open on one line, the line
    is attributed to the class. *)
Definition one_line_class : str := lit "class A { void f() { g(); } }".
Lemma one_line_method_names_the_class `{Unicode} :
  java_enclosing_declarations one_line_class [1%N] = Some [Some (lit "A")] /\
  (exists i, path i = Some (lit "A.f") /\ contains 1 i /\ i ∈ default [] (enclosing_intervals one_line_class)).
Proof.
  split; [by vm_compute|]. exists (mkInterval 1 1 (Some (lit "A.f"))). split_and!; [done|by vm_compute|]. vm_compute. by left.
Qed.

(** Names compose through the scope stack: after any run of tokens, the stack of names is
    exactly the names of the open named scopes, every open scope carries the dotted path of the
    named scopes around it down to itself, and at end of input every scope still open becomes one
    interval, closed at the last line, leaving no scope and no name behind. *)
Theorem scope_paths_compose (tokens : list Spanned) (lo hi : N) :
  tokens_ok lo hi tokens -> (lo <= hi)%N ->
  exists s, scan_loop (length tokens) scan_init tokens = Some s /\
    (exists names, scopes_named s names) /\
    let e := close_all s hi in
    sc_open e = [] /\ sc_named_stack e = [] /\
    sc_intervals e = sc_intervals s ++ ((fun o => mkInterval (o_open_line o) hi (o_path o)) <$> sc_open s).
Proof.
  intros Hok Hle. destruct (scan_init_ok lo) as [Hs0 Hl0].
  destruct (scan_loop_ok (length tokens) scan_init lo hi tokens) as (s & E & Hs & Hl); try done.
  exists s. destruct (close_all_ok s hi Hs Hl) as (H1 & H2 & _ & _ & H4). by split_and!.
Qed.

(** An annotation is skipped whole: the argument-list skip always returns, never underflows its
    depth, and takes either nothing (when no parenthesis follows) or one parenthesized group,
    nested groups included, up to its matching parenthesis or the end of the file. *)
Theorem annotation_skipped_whole (tokens : list Spanned) :
  exists skipped rest, skip_argument_list tokens = Some rest /\
    tokens = skipped ++ rest /\
    ((exists t, head tokens = Some t /\ token t = LParen) <-> skipped <> []) /\
    (forall k, 0 < k < length skipped -> (0 < parens (take k skipped))%Z) /\
    (skipped = [] \/ rest = [] \/ parens skipped = 0%Z).
Proof.
  destruct (skip_argument_list_spec tokens) as (skipped & rest & E & [Et Hsk] & Hne).
  exists skipped, rest. split_and!; [done|done| | |].
  - split; [done|]. intros Hn. destruct Hsk as [?|((t & Hh & Hp) & _)]; [done|]. exists t.
    split; [|done]. rewrite Et. by destruct skipped.
  - destruct Hsk as [->|(_ & Hk & _)]; [simpl; lia|done].
  - destruct Hsk as [?|(_ & _ & ?)]; auto.
Qed.

(** ** Witnesses *)

Definition outer_tokens : list Spanned :=
  [mkSpanned (Ident (lit "class")) 1 0; mkSpanned (Ident (lit "Outer")) 1 6; mkSpanned LBrace 1 12;
   mkSpanned (Ident (lit "void")) 2 16; mkSpanned (Ident (lit "run")) 2 21; mkSpanned LParen 2 24;
   mkSpanned RParen 2 25; mkSpanned LBrace 2 27].

Lemma scope_paths_compose_witness :
  tokens_ok 1 9 outer_tokens /\
  exists s, scan_loop (length outer_tokens) scan_init outer_tokens = Some s /\ sc_open (close_all s 9) = [].
Proof.
  assert (tokens_ok 1 9 outer_tokens) as Hok by (split; unfold outer_tokens; repeat constructor; simpl; lia).
  split; [exact Hok|]. destruct (scope_paths_compose outer_tokens 1 9 Hok ltac:(lia)) as (s & E & _ & H & _).
  exists s. split; [exact E|exact H].
Defined.
Example outer_path :
  o_path <$> default [] (sc_open <$> scan_loop 8 scan_init outer_tokens)
  = [Some (lit "Outer.run"); Some (lit "Outer")].
Proof. vm_compute. reflexivity. Qed.
