(* ===== verification/JavaDeclarations.v ===== *)
(** * JavaDeclarations: the Java declaration scan

    Models the second half of [crates/ktsense-core/src/java_enclosing.rs]: [java_declarations],
    the supertype clause reader and [java_package]. Slices of the source are taken by byte offset;
    an offset off a character boundary, where Rust panics, is [None]. *)
From S2P Require Import Prelude Collections Skeleton References JavaText JavaEnclosing.

Set Default Proof Using "Type*".

Inductive JavaDeclKind := JClass | JInterface | JEnum | JRecord | JAnnotation | JMethod | JConstructor | JField.
#[export] Instance JavaDeclKind_eq_dec : EqDecision JavaDeclKind.
Proof. solve_decision. Defined.

Definition label (k : JavaDeclKind) : str :=
  match k with
  | JClass => lit "class" | JInterface => lit "interface" | JEnum => lit "enum" | JRecord => lit "record"
  | JAnnotation => lit "@interface" | JMethod => lit "method" | JConstructor => lit "constructor" | JField => lit "field"
  end.
Definition is_type (k : JavaDeclKind) : bool :=
  match k with JClass | JInterface | JEnum | JRecord | JAnnotation => true | _ => false end.
Definition type_kind (name : str) : JavaDeclKind :=
  if decide (name = lit "interface") then JInterface
  else if decide (name = lit "enum") then JEnum
  else if decide (name = lit "record") then JRecord
  else JClass.

Record JavaDeclaration := mkJavaDecl {
  jd_kind : JavaDeclKind;
  jd_name : str;
  jd_line : N;
  jd_enclosing : list str;
  jd_signature : str;
  jd_supertypes : list str }.

Inductive ScopeKind := TypeScope | MemberScope | AnonymousScope.
#[export] Instance ScopeKind_eq_dec : EqDecision ScopeKind.
Proof. solve_decision. Defined.
Inductive Block := TypeBlock (kind : JavaDeclKind) | MemberBlock (kind : JavaDeclKind) | AnonymousBlock.

Record Pending := mkPending {
  pd_start_offset : option N;
  pd_kind : option JavaDeclKind;
  pd_expect_type_name : bool;
  pd_type_name : option str;
  pd_name_line : N;
  pd_prev_ident : option str;
  pd_prev_ident_line : N;
  pd_method_name : option str;
  pd_method_name_line : N;
  pd_field_name : option str;
  pd_field_name_line : N;
  pd_saw_param_list : bool;
  pd_saw_new : bool;
  pd_saw_arrow : bool;
  pd_saw_assignment : bool;
  pd_angle_depth : N;
  pd_header_ident_count : N }.
Definition pending_default : Pending :=
  mkPending None None false None 0 None 0 None 0 None 0 false false false false 0 0.

(** ** Observations *)

Definition pending_ident (p : Pending) (name : str) (offset line : N) : Pending :=
  let start := get_or_insert (pd_start_offset p) offset in
  let seen kind expect type_name name_line saw_new count :=
    mkPending start kind expect type_name name_line (Some name) line (pd_method_name p) (pd_method_name_line p)
      (pd_field_name p) (pd_field_name_line p) (pd_saw_param_list p) saw_new (pd_saw_arrow p)
      (pd_saw_assignment p) (pd_angle_depth p) count in
  if is_class_keyword name then
    seen (Some (type_kind name)) true (pd_type_name p) (pd_name_line p) (pd_saw_new p) (pd_header_ident_count p)
  else if pd_expect_type_name p then
    seen (pd_kind p) false (Some name) line (pd_saw_new p) (pd_header_ident_count p)
  else if decide (name = lit "new") then
    seen (pd_kind p) (pd_expect_type_name p) (pd_type_name p) (pd_name_line p) true (pd_header_ident_count p)
  else
    let counts := (pd_angle_depth p =? 0)%N && negb (pd_saw_param_list p) && negb (is_modifier name) in
    seen (pd_kind p) (pd_expect_type_name p) (pd_type_name p) (pd_name_line p) (pd_saw_new p)
      (if counts then pd_header_ident_count p + 1 else pd_header_ident_count p)%N.

Definition pending_param_list_open (p : Pending) : Pending :=
  match pd_type_name p with
  | Some _ => p
  | None =>
      let '(method_name, method_name_line) :=
        match pd_prev_ident p with
        | Some ident =>
            if negb (is_control_keyword ident) && negb (pd_saw_new p)
            then (Some ident, pd_prev_ident_line p) else (pd_method_name p, pd_method_name_line p)
        | None => (pd_method_name p, pd_method_name_line p)
        end in
      mkPending (pd_start_offset p) (pd_kind p) (pd_expect_type_name p) (pd_type_name p) (pd_name_line p)
        (pd_prev_ident p) (pd_prev_ident_line p) method_name method_name_line (pd_field_name p)
        (pd_field_name_line p) true (pd_saw_new p) (pd_saw_arrow p) (pd_saw_assignment p)
        (pd_angle_depth p) (pd_header_ident_count p)
  end.

Definition pending_assignment (p : Pending) : Pending :=
  let '(field_name, field_name_line) :=
    match pd_field_name p, pd_method_name p, pd_prev_ident p with
    | None, None, Some ident => (Some ident, pd_prev_ident_line p)
    | _, _, _ => (pd_field_name p, pd_field_name_line p)
    end in
  mkPending (pd_start_offset p) (pd_kind p) (pd_expect_type_name p) (pd_type_name p) (pd_name_line p)
    (pd_prev_ident p) (pd_prev_ident_line p) (pd_method_name p) (pd_method_name_line p) field_name
    field_name_line (pd_saw_param_list p) (pd_saw_new p) (pd_saw_arrow p) true
    (pd_angle_depth p) (pd_header_ident_count p).

(** The single-field updates of the loop: [start_offset], [kind]/[expect_type_name], [saw_arrow]
    and [angle_depth]. *)
Definition pending_set (p : Pending) (start : option N) (kind : option JavaDeclKind) (expect saw_arrow : bool)
    (angle_depth : N) : Pending :=
  mkPending start kind expect (pd_type_name p) (pd_name_line p) (pd_prev_ident p) (pd_prev_ident_line p)
    (pd_method_name p) (pd_method_name_line p) (pd_field_name p) (pd_field_name_line p)
    (pd_saw_param_list p) (pd_saw_new p) saw_arrow (pd_saw_assignment p) angle_depth (pd_header_ident_count p).
Definition pending_arrow (p : Pending) : Pending :=
  pending_set p (pd_start_offset p) (pd_kind p) (pd_expect_type_name p) true (pd_angle_depth p).
Definition pending_langle (p : Pending) (offset : N) : Pending :=
  pending_set p (get_or_insert (pd_start_offset p) offset) (pd_kind p) (pd_expect_type_name p) (pd_saw_arrow p)
    (pd_angle_depth p + 1)%N.
Definition pending_rangle (p : Pending) : Pending :=
  pending_set p (pd_start_offset p) (pd_kind p) (pd_expect_type_name p) (pd_saw_arrow p) (pd_angle_depth p - 1)%N.
Definition pending_annotation_type (p : Pending) (offset : N) : Pending :=
  pending_set p (get_or_insert (pd_start_offset p) offset) (Some JAnnotation) true (pd_saw_arrow p) (pd_angle_depth p).

(** ** Classification; the head of [type_stack] is the innermost type *)

Definition member_kind (p : Pending) (name : str) (type_stack : list str) : JavaDeclKind :=
  let names_enclosing_type := bool_decide (head type_stack = Some name) in
  if names_enclosing_type && (pd_header_ident_count p <=? 1)%N then JConstructor else JMethod.

Definition classify_block (p : Pending) (type_stack : list str) : Block :=
  match pd_kind p, pd_type_name p with
  | Some kind, Some _ => TypeBlock kind
  | _, _ =>
      if pd_saw_param_list p && negb (pd_saw_arrow p) then
        match pd_method_name p with
        | Some name => MemberBlock (member_kind p name type_stack)
        | None => AnonymousBlock
        end
      else AnonymousBlock
  end.

Definition header_slice (source : str) (start : option N) (stop : N) : option str :=
  match start with
  | Some start =>
      if (start <=? stop)%N then tail ← str_from source start; str_to tail (stop - start)%N else Some []
  | None => Some []
  end.

Definition fold_whitespace (text : str) : str := join (lit " ") (split_whitespace text).

Definition classify_statement (p : Pending) (type_stack : list str) (source : str) (semi_offset : N)
    : option (option JavaDeclaration) :=
  match pd_start_offset p with
  | None => Some None
  | Some start =>
      header ← header_slice source (Some start) semi_offset;
      let header := fold_whitespace header in
      if pd_saw_param_list p && negb (pd_saw_arrow p) && negb (pd_saw_assignment p) then
        Some (name ← pd_method_name p;
              Some (mkJavaDecl JMethod name (pd_method_name_line p) (rev type_stack) header []))
      else
        Some ('(name, line) ← match pd_field_name p, pd_saw_assignment p with
                              | Some name, true => Some (name, pd_field_name_line p)
                              | _, _ => name ← pd_prev_ident p; Some (name, pd_prev_ident_line p)
                              end;
              Some (mkJavaDecl JField name line (rev type_stack) header []))
  end.

(** ** Supertype clauses and the package, over lexed characters *)

Section names.
Context `{Unicode}.

Record Clause := mkClause {
  cl_supertypes : list str;
  cl_in_clause : bool;
  cl_angle_depth : N;
  cl_current : option str }.

Definition push_current (c : Clause) (in_clause : bool) : Clause :=
  mkClause (match cl_current c with
            | Some name => if in_clause then cl_supertypes c ++ [name] else cl_supertypes c
            | None => cl_supertypes c
            end) (cl_in_clause c) (cl_angle_depth c) None.
Definition set_clause (c : Clause) (in_clause : bool) : Clause :=
  mkClause (cl_supertypes c) in_clause (cl_angle_depth c) (cl_current c).

(** The [match word.as_str()] of [supertypes_in_header]. *)
Definition clause_word (c : Clause) (word : str) : Clause :=
  if negb (cl_angle_depth c =? 0)%N then c
  else if bool_decide (word = lit "extends") || bool_decide (word = lit "implements") then
    set_clause (push_current c (cl_in_clause c)) true
  else if bool_decide (word = lit "permits") then set_clause (push_current c (cl_in_clause c)) false
  else if cl_in_clause c then mkClause (cl_supertypes c) true (cl_angle_depth c) (Some word)
  else c.

(** The [match character]. *)
Definition clause_char (c : Clause) (character : char) : Clause :=
  let top := (cl_angle_depth c =? 0)%N in
  if (character =? ch "<")%N then mkClause (cl_supertypes c) (cl_in_clause c) (cl_angle_depth c + 1)%N (cl_current c)
  else if (character =? ch ">")%N then
    mkClause (cl_supertypes c) (cl_in_clause c) (cl_angle_depth c - 1)%N (cl_current c)
  else if (character =? ch ",")%N && top && cl_in_clause c then push_current c true
  else if ((character =? ch "{")%N || (character =? ch ";")%N) && top then
    set_clause (push_current c (cl_in_clause c)) false
  else c.

Fixpoint clause_loop (fuel : nat) (c : Clause) (rest : list LexChar) : option Clause :=
  match rest with
  | [] => Some c
  | x :: rest' =>
      match fuel with
      | O => None
      | S fuel' =>
          if negb (in_code x) then clause_loop fuel' c rest'
          else if is_ident_start x.1 then
            let '(word, rest'') := take_ident rest in clause_loop fuel' (clause_word c word) rest''
          else clause_loop fuel' (clause_char c x.1) rest'
      end
  end.
Definition supertypes_in_header (header : str) : option (list str) :=
  c ← clause_loop (length header) (mkClause [] false 0 None) (lexed header);
  Some (cl_supertypes (push_current c (cl_in_clause c))).

(** [read_package_name]. *)
Fixpoint read_package_name (rest : list LexChar) (name : str) : option str :=
  match rest with
  | [] => if bool_decide (name = []) then None else Some name
  | x :: rest' =>
      if in_code x then
        if (x.1 =? ch ";")%N then if bool_decide (name = []) then None else Some name
        else read_package_name rest'
               (if is_ident_continue x.1 || (x.1 =? ch ".")%N then name ++ [x.1] else name)
      else read_package_name rest' name
  end.
Fixpoint package_loop (fuel : nat) (rest : list LexChar) : option (option str) :=
  match rest with
  | [] => Some None
  | x :: rest' =>
      match fuel with
      | O => None
      | S fuel' =>
          if negb (in_code x) then package_loop fuel' rest'
          else if is_ident_start x.1 then
            let '(word, rest'') := take_ident rest in
            if decide (word = lit "package") then Some (read_package_name rest'' [])
            else package_loop fuel' rest''
          else package_loop fuel' rest'
      end
  end.
Definition java_package (source : str) : option (option str) := package_loop (length source) (lexed source).

(** ** The scan *)

Record DeclScan := mkDeclScan {
  ds_declarations : list JavaDeclaration;
  ds_type_stack : list str;
  ds_scopes : list ScopeKind;
  ds_pending : Pending;
  ds_paren_depth : N }.

Definition with_pending (s : DeclScan) (p : Pending) : DeclScan :=
  mkDeclScan (ds_declarations s) (ds_type_stack s) (ds_scopes s) p (ds_paren_depth s).

(** [step_annotation], from the tokens after the [@]. *)
Definition step_annotation (at_offset : N) (tokens : list Spanned) (p : Pending) : option (list Spanned * Pending) :=
  match tokens with
  | t :: tokens' =>
      match token t with
      | Ident name =>
          if decide (name = lit "interface") then Some (tokens', pending_annotation_type p at_offset)
          else rest ← skip_argument_list tokens'; Some (rest, p)
      | _ => rest ← skip_argument_list tokens; Some (rest, p)
      end
  | [] => Some ([], p)
  end.

(** The [LBrace] arm. *)
Definition open_block (source : str) (s : DeclScan) (brace_offset : N) : option DeclScan :=
  let p := ds_pending s in
  match classify_block p (ds_type_stack s) with
  | TypeBlock kind =>
      let name := default [] (pd_type_name p) in
      header ← header_slice source (pd_start_offset p) brace_offset;
      supertypes ← supertypes_in_header header;
      let declaration := mkJavaDecl kind name (pd_name_line p) (rev (ds_type_stack s))
                           (fold_whitespace header) supertypes in
      Some (mkDeclScan (ds_declarations s ++ [declaration]) (name :: ds_type_stack s)
              (TypeScope :: ds_scopes s) pending_default (ds_paren_depth s))
  | MemberBlock kind =>
      header ← header_slice source (pd_start_offset p) brace_offset;
      let declaration := mkJavaDecl kind (default [] (pd_method_name p)) (pd_method_name_line p)
                           (rev (ds_type_stack s)) (fold_whitespace header) [] in
      Some (mkDeclScan (ds_declarations s ++ [declaration]) (ds_type_stack s)
              (MemberScope :: ds_scopes s) pending_default (ds_paren_depth s))
  | AnonymousBlock =>
      Some (mkDeclScan (ds_declarations s) (ds_type_stack s) (AnonymousScope :: ds_scopes s)
              pending_default (ds_paren_depth s))
  end.

(** The [RBrace] arm. *)
Definition close_block (s : DeclScan) : DeclScan :=
  mkDeclScan (ds_declarations s)
    (match ds_scopes s with TypeScope :: _ => drop 1 (ds_type_stack s) | _ => ds_type_stack s end)
    (drop 1 (ds_scopes s)) pending_default (ds_paren_depth s).

(** The [Semi] arm. *)
Definition close_statement (source : str) (s : DeclScan) (semi_offset : N) : option DeclScan :=
  declaration ← (if decide (head (ds_scopes s) = Some TypeScope)
                 then classify_statement (ds_pending s) (ds_type_stack s) source semi_offset else Some None);
  Some (mkDeclScan (ds_declarations s ++ match declaration with Some d => [d] | None => [] end)
          (ds_type_stack s) (ds_scopes s) pending_default (ds_paren_depth s)).

Definition decl_step (source : str) (s : DeclScan) (t : Spanned) (rest : list Spanned)
    : option (DeclScan * list Spanned) :=
  match token t with
  | At => '(rest', p) ← step_annotation (tok_offset t) rest (ds_pending s); Some (with_pending s p, rest')
  | Ident name => Some (with_pending s (pending_ident (ds_pending s) name (tok_offset t) (tok_line t)), rest)
  | Eq_ => Some (with_pending s (pending_assignment (ds_pending s)), rest)
  | LParen =>
      let p := if (ds_paren_depth s =? 0)%N then pending_param_list_open (ds_pending s) else ds_pending s in
      Some (mkDeclScan (ds_declarations s) (ds_type_stack s) (ds_scopes s) p (ds_paren_depth s + 1)%N, rest)
  | RParen =>
      Some (mkDeclScan (ds_declarations s) (ds_type_stack s) (ds_scopes s) (ds_pending s) (ds_paren_depth s - 1)%N, rest)
  | Arrow => Some (with_pending s (pending_arrow (ds_pending s)), rest)
  | LAngle => Some (with_pending s (pending_langle (ds_pending s) (tok_offset t)), rest)
  | RAngle => Some (with_pending s (pending_rangle (ds_pending s)), rest)
  | LBrace => s' ← open_block source s (tok_offset t); Some (s', rest)
  | RBrace => Some (close_block s, rest)
  | Semi => s' ← close_statement source s (tok_offset t); Some (s', rest)
  end.

Fixpoint decl_loop (source : str) (fuel : nat) (s : DeclScan) (tokens : list Spanned) : option DeclScan :=
  match tokens with
  | [] => Some s
  | t :: rest =>
      match fuel with
      | O => None
      | S fuel' => '(s', rest') ← decl_step source s t rest; decl_loop source fuel' s' rest'
      end
  end.

Definition java_declarations (source : str) : option (list JavaDeclaration) :=
  tokens ← tokenize source;
  s ← decl_loop source (length tokens) (mkDeclScan [] [] [] pending_default 0) tokens;
  Some (ds_declarations s).

End names.

(** ** Lemmas: slices *)

(** A byte offset on a character boundary. *)
Definition boundary (source : str) (o : N) : Prop := exists before after, source = before ++ after /\ o = utf8_len before.

Lemma utf8_len_zero s : utf8_len s = 0%N -> s = [].
Proof.
  destruct s as [|c s]; [done|]. change (utf8_len (c :: s)) with (len_utf8 c + utf8_len s)%N.
  assert (1 <= len_utf8 c)%N by (unfold len_utf8; repeat case_match; lia). lia.
Qed.

(** Two boundaries of one text: the lower one is reached first. *)
Lemma boundaries_ordered source a b :
  boundary source a -> boundary source b -> (a <= b)%N ->
  exists before header after, source = before ++ header ++ after /\ a = utf8_len before /\ (b - a)%N = utf8_len header.
Proof.
  intros (p & q & Ea & ->) (p' & q' & Eb & ->) Hle. rewrite Eb in Ea. apply app_eq_inv in Ea as [(k & -> & ->)|(k & -> & ->)].
  - exists p, k, q'. rewrite utf8_len_app. split_and!; [by rewrite Eb, <- app_assoc|done|lia].
  - rewrite utf8_len_app in Hle. assert (k = []) as -> by (apply utf8_len_zero; lia).
    exists p', [], q. rewrite app_nil_r. split_and!; [done|done|simpl; lia].
Qed.

Lemma header_slice_ok source start stop :
  (forall o, start = Some o -> boundary source o) -> boundary source stop ->
  exists before header after, header_slice source start stop = Some header /\ source = before ++ header ++ after.
Proof.
  intros Hs He. unfold header_slice. destruct start as [o|]; [|by exists [], [], source].
  destruct (N.leb_spec o stop) as [Hle|]; [|by exists [], [], source].
  destruct (boundaries_ordered source o stop (Hs o eq_refl) He Hle) as (before & header & after & -> & -> & ->).
  exists before, header, after. rewrite str_from_app. simpl. by rewrite str_to_app.
Qed.

(** ** Lemmas: the clause reader *)

Section lemmas.
Context `{Unicode}.

Lemma clause_loop_ok fuel c rest : length rest <= fuel -> exists c', clause_loop fuel c rest = Some c'.
Proof.
  revert c rest. induction fuel as [|fuel IH]; intros c rest Hf; destruct rest as [|x rest]; simpl in Hf; try lia;
    cbn [clause_loop]; eauto.
  destruct (negb (in_code x)) eqn:Hc; [apply IH; lia|]. apply negb_false_iff in Hc.
  destruct (is_ident_start x.1) eqn:Hi; [|apply IH; lia].
  destruct (take_ident_progress x rest Hc Hi) as [taken E]. destruct (take_ident (x :: rest)) as [word rest''].
  injection E as E. simpl in E. apply IH. rewrite E, length_app in Hf. lia.
Qed.

Lemma lexed_length source : length (lexed source) = length source.
Proof. unfold lexed. rewrite length_zip_with, lex_length. lia. Qed.

Lemma supertypes_in_header_ok header : exists supertypes, supertypes_in_header header = Some supertypes.
Proof.
  unfold supertypes_in_header. destruct (clause_loop_ok (length header) (mkClause [] false 0 None) (lexed header)) as [c ->].
  - by rewrite lexed_length.
  - by eexists.
Qed.

(** ** Lemmas: the scan *)

(** An identifier token spells [name] on [line]. *)
Definition named_at (tokens : list Spanned) (name : str) (line : N) : Prop :=
  exists t, t ∈ tokens /\ token t = Ident name /\ tok_line t = line.

Record pending_ok (source : str) (tokens : list Spanned) (p : Pending) : Prop := {
  PO_start : forall o, pd_start_offset p = Some o -> boundary source o;
  PO_kind : forall k, pd_kind p = Some k -> is_type k = true;
  PO_type : forall n, pd_type_name p = Some n -> named_at tokens n (pd_name_line p);
  PO_prev : forall n, pd_prev_ident p = Some n -> named_at tokens n (pd_prev_ident_line p);
  PO_method : forall n, pd_method_name p = Some n -> named_at tokens n (pd_method_name_line p);
  PO_field : forall n, pd_field_name p = Some n -> named_at tokens n (pd_field_name_line p) }.

(** What holds of one declaration, and of the list in the order it was pushed. *)
Definition declaration_ok (source : str) (tokens : list Spanned) (d : JavaDeclaration) : Prop :=
  named_at tokens (jd_name d) (jd_line d) /\
  (jd_kind d = JConstructor -> last (jd_enclosing d) = Some (jd_name d)) /\
  exists before header after, source = before ++ header ++ after /\
    jd_signature d = fold_whitespace header /\
    (if is_type (jd_kind d) then supertypes_in_header header = Some (jd_supertypes d) else jd_supertypes d = []).
Definition nested_in (ds : list JavaDeclaration) (enclosing : list str) : Prop :=
  enclosing = [] \/
  exists d, d ∈ ds /\ is_type (jd_kind d) = true /\ enclosing = jd_enclosing d ++ [jd_name d].
Definition nesting_ok (ds : list JavaDeclaration) : Prop :=
  forall earlier d later, ds = earlier ++ d :: later -> nested_in earlier (jd_enclosing d).
Definition stack_ok (ds : list JavaDeclaration) (stack : list str) : Prop :=
  forall k n, stack !! k = Some n ->
    exists d, d ∈ ds /\ is_type (jd_kind d) = true /\ jd_name d = n /\ jd_enclosing d = rev (drop (S k) stack).

Record scan_ok (source : str) (tokens : list Spanned) (s : DeclScan) : Prop := {
  SO_pending : pending_ok source tokens (ds_pending s);
  SO_each : Forall (declaration_ok source tokens) (ds_declarations s);
  SO_nesting : nesting_ok (ds_declarations s);
  SO_stack : stack_ok (ds_declarations s) (ds_type_stack s) }.

Lemma pending_default_ok source tokens : pending_ok source tokens pending_default.
Proof. by split. Qed.

Lemma get_or_insert_ok {A} (P : A -> Prop) (o : option A) x :
  (forall y, o = Some y -> P y) -> P x -> forall y, get_or_insert o x = Some y -> P y.
Proof. intros Ho Hx y. destruct o; intros [= <-]; auto. Qed.

Lemma pending_ident_ok source tokens p name offset line :
  boundary source offset -> named_at tokens name line ->
  pending_ok source tokens p -> pending_ok source tokens (pending_ident p name offset line).
Proof.
  intros Ho Hn []. unfold pending_ident.
  assert (forall k, Some (type_kind name) = Some k -> is_type k = true) as Hk.
  { intros k [= <-]. unfold type_kind. by repeat case_match. }
  assert (forall n, Some name = Some n -> named_at tokens n line) as Hname by (by intros ? [= <-]).
  destruct (is_class_keyword name), (pd_expect_type_name p); try case_decide; (split; simpl; [by apply get_or_insert_ok|auto..]).
Qed.

Lemma pending_param_list_open_ok source tokens p :
  pending_ok source tokens p -> pending_ok source tokens (pending_param_list_open p).
Proof.
  intros []. unfold pending_param_list_open. destruct (pd_type_name p) eqn:Et; [split; auto; by rewrite ?Et|].
  destruct (pd_prev_ident p) as [i|] eqn:Ei; [destruct (_ && _)|]; (split; simpl; auto; by rewrite ?Et, ?Ei).
Qed.

Lemma pending_assignment_ok source tokens p :
  pending_ok source tokens p -> pending_ok source tokens (pending_assignment p).
Proof.
  intros []. unfold pending_assignment.
  destruct (pd_field_name p) eqn:Ef, (pd_method_name p) eqn:Em, (pd_prev_ident p) eqn:Ep;
    (split; simpl; auto; by rewrite ?Ef, ?Em, ?Ep).
Qed.

Lemma pending_set_ok source tokens p start kind expect arrow depth :
  (forall o, start = Some o -> boundary source o) -> (forall k, kind = Some k -> is_type k = true) ->
  pending_ok source tokens p -> pending_ok source tokens (pending_set p start kind expect arrow depth).
Proof. intros ? ? []. by split. Qed.

Lemma nested_rev ds stack : stack_ok ds stack -> nested_in ds (rev stack).
Proof.
  destruct stack as [|n stack]; [by left|]. intros Hs. right.
  destruct (Hs 0 n eq_refl) as (d & Hd & Ht & <- & He). exists d. rewrite He. by simpl.
Qed.

Lemma stack_ok_mono ds more stack : stack_ok ds stack -> stack_ok (ds ++ more) stack.
Proof. intros Hs k n Hk. destruct (Hs k n Hk) as (d & Hd & ?). exists d. split; [|done]. apply elem_of_app. by left. Qed.

Lemma nesting_ok_snoc ds d : nesting_ok ds -> nested_in ds (jd_enclosing d) -> nesting_ok (ds ++ [d]).
Proof.
  intros Hn Hd earlier d' later E.
  destruct later as [|x later _] using rev_ind.
  - apply app_inj_tail in E as [-> ->]. done.
  - rewrite app_comm_cons, app_assoc in E. apply app_inj_tail in E as [-> _]. by apply (Hn earlier d' later).
Qed.

(** Pushing a declaration made at the current stack. *)
Lemma push_declaration_ok source tokens s d scopes p depth :
  scan_ok source tokens s -> declaration_ok source tokens d -> jd_enclosing d = rev (ds_type_stack s) ->
  pending_ok source tokens p ->
  scan_ok source tokens (mkDeclScan (ds_declarations s ++ [d]) (ds_type_stack s) scopes p depth).
Proof.
  intros [] Hd He Hp. split; simpl; [done| | |by apply stack_ok_mono].
  - apply Forall_app. split; [done|]. by apply Forall_singleton.
  - apply nesting_ok_snoc; [done|]. rewrite He. by apply nested_rev.
Qed.

Lemma enter_type_ok source tokens s d :
  scan_ok source tokens s -> d ∈ ds_declarations s -> is_type (jd_kind d) = true ->
  jd_enclosing d = rev (ds_type_stack s) -> forall scopes,
  scan_ok source tokens (mkDeclScan (ds_declarations s) (jd_name d :: ds_type_stack s) scopes (ds_pending s) (ds_paren_depth s)).
Proof.
  intros [] Hd Ht He scopes. split; simpl; try done. intros [|k] n Hk; simpl in *; [|by apply SO_stack0].
  simplify_eq. by exists d.
Qed.

Lemma leave_ok source tokens s n scopes :
  scan_ok source tokens s ->
  scan_ok source tokens (mkDeclScan (ds_declarations s) (drop n (ds_type_stack s)) scopes pending_default (ds_paren_depth s)).
Proof.
  intros []. split; simpl; [apply pending_default_ok|done|done|]. intros k m Hk. rewrite lookup_drop in Hk.
  destruct (SO_stack0 _ _ Hk) as (d & ? & ? & ? & He). exists d. rewrite drop_drop. by rewrite <- Nat.add_succ_r in He.
Qed.

Lemma classify_block_spec p stack :
  match classify_block p stack with
  | TypeBlock kind => pd_kind p = Some kind /\ is_Some (pd_type_name p)
  | MemberBlock kind => exists name, pd_method_name p = Some name /\ kind = member_kind p name stack
  | AnonymousBlock => True
  end.
Proof. unfold classify_block. repeat case_match; simplify_eq; eauto. Qed.

Lemma member_kind_spec p name stack :
  is_type (member_kind p name stack) = false /\
  (member_kind p name stack = JConstructor -> last (rev stack) = Some name).
Proof.
  unfold member_kind. case_bool_decide as Hh; simpl; [|done]. case_match; [|done]. split; [done|]. intros _.
  destruct stack; simplify_eq/=. by rewrite last_snoc.
Qed.

Lemma open_block_ok source tokens s o :
  boundary source o -> scan_ok source tokens s ->
  exists s', open_block source s o = Some s' /\ scan_ok source tokens s'.
Proof.
  intros Ho Hs. pose proof (SO_pending _ _ _ Hs) as [Hstart Hkind Htype _ Hmethod _]. unfold open_block.
  pose proof (classify_block_spec (ds_pending s) (ds_type_stack s)) as Hb.
  destruct (header_slice_ok source (pd_start_offset (ds_pending s)) o Hstart Ho) as (before & header & after & Eh & Esrc).
  pose proof (pending_default_ok source tokens) as Hdef.
  destruct (classify_block _ _) as [kind|kind|]; rewrite ?Eh; cbn [mbind option_bind].
  - destruct Hb as [Hk [name Hn]]. destruct (supertypes_in_header_ok header) as [supertypes Est].
    rewrite Est, Hn. cbn [mbind option_bind default]. eexists. split; [done|].
    set (d := mkJavaDecl kind name (pd_name_line (ds_pending s)) (rev (ds_type_stack s)) (fold_whitespace header) supertypes).
    assert (scan_ok source tokens (mkDeclScan (ds_declarations s ++ [d]) (ds_type_stack s) (ds_scopes s) pending_default (ds_paren_depth s))) as Hp.
    { apply push_declaration_ok; try done. split; [by apply Htype|]. split.
      - simpl. intros ->. by apply Hkind in Hk.
      - exists before, header, after. simpl. by rewrite (Hkind _ Hk). }
    refine (enter_type_ok _ _ _ d Hp _ (Hkind _ Hk) eq_refl _). simpl. apply elem_of_app. right. by left.
  - destruct Hb as (name & Hn & ->). rewrite Hn. cbn [default]. eexists. split; [done|].
    destruct (member_kind_spec (ds_pending s) name (ds_type_stack s)) as [Hm Hc].
    apply push_declaration_ok; try done. split; [by apply Hmethod|]. split; [done|].
    exists before, header, after. simpl. by rewrite Hm.
  - eexists. split; [done|]. destruct Hs. by split.
Qed.

Lemma close_statement_ok source tokens s o :
  boundary source o -> scan_ok source tokens s ->
  exists s', close_statement source s o = Some s' /\ scan_ok source tokens s'.
Proof.
  intros Ho Hs. pose proof (SO_pending _ _ _ Hs) as [Hstart _ _ Hprev Hmethod Hfield]. unfold close_statement.
  pose proof (pending_default_ok source tokens) as Hdef.
  assert (exists s', Some (mkDeclScan (ds_declarations s ++ []) (ds_type_stack s) (ds_scopes s) pending_default
    (ds_paren_depth s)) = Some s' /\ scan_ok source tokens s') as Hnone.
  { eexists. split; [done|]. rewrite app_nil_r. destruct Hs. by split. }
  case_decide; [|done]. unfold classify_statement.
  destruct (pd_start_offset (ds_pending s)) as [start|]; [|done].
  destruct (header_slice_ok source (Some start) o Hstart Ho) as (before & header & after & -> & Esrc).
  cbn [mbind option_bind].
  assert (forall kind name line, (kind = JMethod \/ kind = JField) -> named_at tokens name line ->
    exists s', Some (mkDeclScan (ds_declarations s ++ [mkJavaDecl kind name line (rev (ds_type_stack s)) (fold_whitespace header) []])
      (ds_type_stack s) (ds_scopes s) pending_default (ds_paren_depth s)) = Some s' /\ scan_ok source tokens s') as Hsome.
  { intros kind name line Hk Hn. eexists. split; [done|]. apply push_declaration_ok; try done.
    split; [done|]. split; [by destruct Hk as [->| ->]|]. exists before, header, after. simpl. by destruct Hk as [->| ->]. }
  destruct (_ && _).
  - destruct (pd_method_name (ds_pending s)) eqn:Em; simpl; [apply Hsome; auto|done].
  - destruct (pd_field_name (ds_pending s)) eqn:Ef; [destruct (pd_saw_assignment _); simpl; [apply Hsome; auto|]|];
      (destruct (pd_prev_ident (ds_pending s)) eqn:Ep; simpl; [apply Hsome; auto|done]).
Qed.

Lemma step_annotation_ok source all o tokens p :
  boundary source o -> pending_ok source all p ->
  exists skipped rest p', step_annotation o tokens p = Some (rest, p') /\ tokens = skipped ++ rest /\ pending_ok source all p'.
Proof.
  intros Ho Hp. destruct tokens as [|t tokens]; [by exists [], [], p|]. cbn [step_annotation].
  destruct (skip_argument_list_spec tokens) as (sk & rest & E & [E' _] & _).
  destruct (skip_argument_list_spec (t :: tokens)) as (sk2 & rest2 & E2 & [E2' _] & _).
  destruct (token t); try (rewrite E2; simpl; by exists sk2, rest2, p).
  case_decide.
  - exists [t], tokens, (pending_annotation_type p o). split_and!; [done|done|].
    apply pending_set_ok; [|by intros k [= <-]|done]. apply get_or_insert_ok; [by destruct Hp|done].
  - rewrite E. simpl. exists (t :: sk), rest, p. by rewrite E'.
Qed.

Lemma decl_step_ok source all s t rest :
  boundary source (tok_offset t) -> t ∈ all -> scan_ok source all s ->
  exists s' skipped rest', decl_step source s t rest = Some (s', rest') /\ rest = skipped ++ rest' /\ scan_ok source all s'.
Proof.
  intros Ho Hin Hs. pose proof (SO_pending _ _ _ Hs) as Hp.
  assert (forall p, pending_ok source all p -> scan_ok source all (with_pending s p)) as Hwith
    by (intros p Hp'; destruct Hs; by split).
  assert (forall s', scan_ok source all s' -> exists s'' skipped rest', Some (s', rest) = Some (s'', rest') /\
    rest = skipped ++ rest' /\ scan_ok source all s'') as Hstay by (intros s' Hs'; by exists s', [], rest).
  unfold decl_step. destruct (token t) as [name| | | | | | | | | |] eqn:Et.
  - apply Hstay, Hwith, pending_ident_ok; try done. by exists t.
  - destruct (open_block_ok source all s (tok_offset t)) as (s' & -> & Hs'); try done. by apply Hstay.
  - apply Hstay. unfold close_block. destruct (ds_scopes s) as [|[] ?]; first [by apply leave_ok | by apply (leave_ok _ _ _ 0)].
  - apply Hstay. destruct Hs. split; try done. simpl. case_match; [by apply pending_param_list_open_ok|done].
  - apply Hstay. destruct Hs. by split.
  - destruct (close_statement_ok source all s (tok_offset t)) as (s' & -> & Hs'); try done. by apply Hstay.
  - destruct (step_annotation_ok source all (tok_offset t) rest (ds_pending s)) as (sk & rest' & p & -> & -> & Hp'); try done.
    simpl. exists (with_pending s p), sk, rest'. split_and!; auto.
  - apply Hstay, Hwith. destruct Hp. by apply pending_set_ok.
  - apply Hstay, Hwith. by apply pending_assignment_ok.
  - apply Hstay, Hwith, pending_set_ok; [|by destruct Hp|done]. apply get_or_insert_ok; [by destruct Hp|done].
  - apply Hstay, Hwith. destruct Hp. by apply pending_set_ok.
Qed.

Lemma decl_loop_ok source all fuel s tokens :
  length tokens <= fuel -> Forall (fun t => t ∈ all /\ boundary source (tok_offset t)) tokens -> scan_ok source all s ->
  exists s', decl_loop source fuel s tokens = Some s' /\ scan_ok source all s'.
Proof.
  revert s tokens. induction fuel as [|fuel IH]; intros s tokens Hf Ht Hs; destruct tokens as [|t rest]; simpl in Hf; try lia;
    cbn [decl_loop]; eauto.
  apply Forall_cons in Ht as [[Hin Hb] Ht].
  destruct (decl_step_ok source all s t rest Hb Hin Hs) as (s' & sk & rest' & -> & -> & Hs'). simpl.
  rewrite length_app in Hf. apply Forall_app in Ht as [_ Ht]. apply IH; [lia|done|done].
Qed.

End lemmas.

(** ** Properties *)

Lemma package_loop_some `{Unicode} fuel : forall rest, length rest <= fuel -> is_Some (package_loop fuel rest).
Proof.
  induction fuel as [|fuel IH]; intros [|x rest] Hf; cbn [length] in Hf; [by eexists|lia|by eexists|]. cbn [package_loop].
  destruct (in_code x) eqn:Ec; cbn [negb]; [|apply IH; lia]. destruct (is_ident_start x.1) eqn:Es; [|apply IH; lia].
  destruct (take_ident_progress x rest Ec Es) as (taken & E). destruct (take_ident (x :: rest)) as [word rest'].
  case_decide; [by eexists|]. apply IH. injection E as ->. cbn [snd] in Hf. rewrite length_app in Hf. lia.
Qed.
Lemma java_package_some `{Unicode} source : is_Some (java_package source).
Proof.
  unfold java_package. apply package_loop_some. pose proof (length_fmap fst (lexed source)) as E. rewrite lexed_chars in E. apply Nat.eq_le_incl. symmetry. exact E.
Qed.
Lemma decl_scan_some `{Unicode} (source : str) :
  exists tokens s, tokenize source = Some tokens /\ java_declarations source = Some (ds_declarations s) /\ scan_ok source tokens s.
Proof.
  unfold java_declarations. destruct (tokenize_ok source) as (tokens & E & _). rewrite E. simpl.
  pose proof (tokenize_spells_at source tokens E) as Hsp. exists tokens.
  destruct (decl_loop_ok source tokens (length tokens) (mkDeclScan [] [] [] pending_default 0) tokens) as (s & -> & Hs).
  - done.
  - rewrite Forall_forall in *. intros t Ht. split; [done|].
    destruct (Hsp t Ht) as (before & after & Es & -> & _). by exists before, (token_text (token t) ++ after).
  - split; simpl; [apply pending_default_ok|done| |by intros k n Hk].
    intros earlier d later Ed. by destruct earlier.
  - by exists s.
Qed.

(** The declaration scan is total and faithful. On every source it returns; each declaration's
    name and line are those of one identifier token of the file; its signature is the whitespace
    fold of a slice of the source; a type's supertypes are the ones read from that same slice and
    every other kind has none; a constructor is named like its innermost enclosing type; and each
    declaration is either top-level or nested directly in a type declared earlier, its enclosing
    chain being that type's chain and name. *)
Theorem java_declarations_faithful `{Unicode} (source : str) :
  exists tokens ds, tokenize source = Some tokens /\ java_declarations source = Some ds /\
    Forall (declaration_ok source tokens) ds /\ nesting_ok ds.
Proof.
  destruct (decl_scan_some source) as (tokens & s & E & Ed & [_ Heach Hnest _]). by exists tokens, (ds_declarations s).
Qed.

(** ** Examples *)

Definition ascii_unicode : Unicode := {| uni_alphabetic _ := false; uni_numeric _ := false |}.
Definition node_source : str :=
  lit "package a.b; @X(1) class Node<T> extends Base<T> implements I { int size = f(); Node Node(); <U> Node() { } }".
Example node_declarations :
  option_map (map (fun d => (jd_kind d, jd_name d, jd_enclosing d, jd_supertypes d))) (@java_declarations ascii_unicode node_source)
  = Some [(JClass, lit "Node", [], [lit "Base"; lit "I"]); (JField, lit "size", [lit "Node"], []);
          (JMethod, lit "Node", [lit "Node"], []); (JConstructor, lit "Node", [lit "Node"], [])].
Proof. vm_compute. reflexivity. Qed.
Example node_package : @java_package ascii_unicode node_source = Some (Some (lit "a.b")).
Proof. vm_compute. reflexivity. Qed.
