(* ===== verification/Trace.v ===== *)
(** * Trace: the answer to [trace]

    Models [crates/ktsense-core/src/trace.rs]: reference sites attributed to the declarations that
    enclose them, the implementors, the usages by file, and what a path-and-tests filter leaves
    out. A [FileSkeleton] index is the [BTreeMap] from path to skeleton. *)
From S2P Require Import Prelude Collections Skeleton References Sites Implementors.

Set Default Proof Using "Type*".

Inductive IndexCompleteness := Partial | Complete.
Definition index_label (i : IndexCompleteness) : str :=
  match i with Partial => lit "partial" | Complete => lit "complete" end.

(** Field prefixes: [df_] definition, [rd_] related declaration, [cl_] caller level, [es_] excluded
    site, [tf_] applied filter, [t_] report, [ti_] input. *)
Record Definition_ := mkDefinition {
  df_qualified_name : str;
  df_path : str;
  df_line : N;
  df_signature : str }.
Record RelatedDeclaration := mkRelated {
  rd_path : str;
  rd_line : N;
  rd_qualified_name : option str;
  rd_kind : option DeclKind;
  rd_sites : nat;
  rd_test : bool }.
Record CallerLevel := mkLevel {
  cl_depth : nat;
  cl_callers : list RelatedDeclaration;
  cl_production_omitted : nat;
  cl_test_omitted : nat }.
Definition level_new (depth : nat) (callers : list RelatedDeclaration) : CallerLevel := mkLevel depth callers 0 0.

Record ExcludedSite := mkExcluded { es_path : str; es_line : N; es_kind : SiteKind }.
Record AppliedTraceFilter := mkTraceFilter {
  tf_filter : SiteFilter;
  tf_usages_omitted : nat;
  tf_usage_files_omitted : nat;
  tf_annotated_omitted : nat;
  tf_java_text_references_omitted : nat;
  tf_kotlin_text_references_omitted : nat }.
Record TraceReport := mkReport {
  t_symbol : str;
  t_index : IndexCompleteness;
  t_definition : Definition_;
  t_implementors : list RelatedDeclaration;
  t_supertype_implementors : option SupertypeImplementors;
  t_callers : list CallerLevel;
  t_usages : list ReferenceGroup;
  t_sites : nat;
  t_excluded_sites : list ExcludedSite;
  t_annotated : option AnnotatedDeclarations;
  t_java_text_references : option TextReferences;
  t_kotlin_text_references : option TextReferences;
  t_filter : option AppliedTraceFilter;
  t_ignored_directory_results : nat }.
Record TraceInput := mkTraceInput {
  ti_definition : Definition_;
  ti_index : IndexCompleteness;
  ti_definition_site : Location;
  ti_implementation_sites : list Location;
  ti_reference_sites : list Location;
  ti_skeletons : list FileSkeleton;
  ti_options : GroupingOptions;
  ti_filter : option SiteFilter }.

(** ** The report's builders *)

Definition with_callers (r : TraceReport) (callers : list CallerLevel) : TraceReport :=
  mkReport (t_symbol r) (t_index r) (t_definition r) (t_implementors r) (t_supertype_implementors r) callers
    (t_usages r) (t_sites r) (t_excluded_sites r) (t_annotated r) (t_java_text_references r)
    (t_kotlin_text_references r) (t_filter r) (t_ignored_directory_results r).
Definition with_deeper_callers (r : TraceReport) (callers : list RelatedDeclaration) : TraceReport :=
  let depth := length (t_callers r) + 1 in
  with_callers r (t_callers r ++ [level_new depth callers]).
Definition with_deeper_level (r : TraceReport) (callers : list RelatedDeclaration)
    (production_omitted test_omitted : nat) : TraceReport :=
  let depth := length (t_callers r) + 1 in
  with_callers r (t_callers r ++ [mkLevel depth callers production_omitted test_omitted]).

(** The fields attached after the report is built. *)
Definition attach (r : TraceReport) (implementors : list RelatedDeclaration)
    (supertype : option SupertypeImplementors) (annotated : option AnnotatedDeclarations)
    (java kotlin : option TextReferences) (filter : option AppliedTraceFilter) (ignored : nat) : TraceReport :=
  mkReport (t_symbol r) (t_index r) (t_definition r) implementors supertype (t_callers r) (t_usages r) (t_sites r)
    (t_excluded_sites r) annotated java kotlin filter ignored.
Definition record_filtered_omissions (r : TraceReport) (annotated java kotlin : nat) : TraceReport :=
  attach r (t_implementors r) (t_supertype_implementors r) (t_annotated r) (t_java_text_references r)
    (t_kotlin_text_references r)
    ((fun f => mkTraceFilter (tf_filter f) (tf_usages_omitted f) (tf_usage_files_omitted f)
                 (tf_annotated_omitted f + annotated) (tf_java_text_references_omitted f + java)
                 (tf_kotlin_text_references_omitted f + kotlin)) <$> t_filter r)
    (t_ignored_directory_results r).
Definition direct_callers (r : TraceReport) : list RelatedDeclaration := default [] (cl_callers <$> head (t_callers r)).
Definition with_supertype_implementors (r : TraceReport) (implementors : SupertypeImplementors) : TraceReport :=
  attach r [] (Some implementors) (t_annotated r) (t_java_text_references r) (t_kotlin_text_references r)
    (t_filter r) (t_ignored_directory_results r).
Definition with_annotated (r : TraceReport) (annotated : AnnotatedDeclarations) : TraceReport :=
  attach r (t_implementors r) (t_supertype_implementors r) (Some annotated) (t_java_text_references r)
    (t_kotlin_text_references r) (t_filter r) (t_ignored_directory_results r).
Definition with_java_text_references (r : TraceReport) (references : TextReferences) : TraceReport :=
  attach r (t_implementors r) (t_supertype_implementors r) (t_annotated r) (Some references)
    (t_kotlin_text_references r) (t_filter r) (t_ignored_directory_results r).
Definition with_kotlin_text_references (r : TraceReport) (references : TextReferences) : TraceReport :=
  attach r (t_implementors r) (t_supertype_implementors r) (t_annotated r) (t_java_text_references r)
    (Some references) (t_filter r) (t_ignored_directory_results r).
Definition with_ignored_directory_results (r : TraceReport) (count : nat) : TraceReport :=
  attach r (t_implementors r) (t_supertype_implementors r) (t_annotated r) (t_java_text_references r)
    (t_kotlin_text_references r) (t_filter r) count.

(** ** The skeleton index *)

Definition SkeletonIndex : Type := list (str * FileSkeleton).
Definition skeleton_index (skeletons : list FileSkeleton) : SkeletonIndex := skeletons_by_path skeletons.

Definition cannot_be_subtyped (index : SkeletonIndex) (definition : Location) : bool :=
  match bt_get (l_path definition) index with
  | Some skeleton =>
      if fs_partial skeleton then false
      else match declaration_starting_at skeleton (l_line definition) with
           | Some declaration => negb (can_be_subtyped declaration)
           | None => false
           end
  | None => false
  end.
Definition resolve_site (index : SkeletonIndex) (site : Location) : option (str * DeclKind * N) :=
  skeleton ← bt_get (l_path site) index;
  enclosing ← fully_qualified_enclosing skeleton (l_line site);
  Some (q_fqn enclosing, q_kind enclosing, q_line enclosing).

(** ** Attribution *)

(** [entry]: the declaration a site is attributed to, with no site counted yet. *)
Definition related_at (index : SkeletonIndex) (site : Location) : RelatedDeclaration :=
  match resolve_site index site with
  | Some (qualified_name, kind, line) =>
      mkRelated (l_path site) line (Some qualified_name) (Some kind) 0 (is_test_source (l_path site))
  | None => mkRelated (l_path site) (l_line site) None None 0 (is_test_source (l_path site))
  end.
Definition related_key (d : RelatedDeclaration) : str * N * option str := (rd_path d, rd_line d, rd_qualified_name d).
Definition with_sites (d : RelatedDeclaration) (sites : nat) : RelatedDeclaration :=
  mkRelated (rd_path d) (rd_line d) (rd_qualified_name d) (rd_kind d) sites (rd_test d).
(** [by_declaration.entry(key).or_insert(entry).sites += 1]. *)
Definition count_site (index : SkeletonIndex) (m : list (str * N * option str * RelatedDeclaration)) (site : Location)
    : list (str * N * option str * RelatedDeclaration) :=
  let entry := related_at index site in
  bt_upsert (related_key entry) (fun o => let d := default entry o in with_sites d (rd_sites d + 1)) m.
Definition related_declarations (sites : list Location) (index : SkeletonIndex) : list RelatedDeclaration :=
  let by_declaration := foldl (count_site index) [] sites in
  sort_by_key rd_test by_declaration.*2.

Definition same_site (a b : Location) : bool :=
  bool_decide (l_path a = l_path b) && (l_line a =? l_line b)%N.
Definition implementations_other_than (sites : list Location) (definition : Location) : list Location :=
  filter (fun site => same_site site definition = false) sites.

(** The sites [callers_of] attributes: in code, and not set aside. *)
Definition calls (set_aside : list Location) (site : Location) : bool :=
  is_code (l_kind site) && negb (existsb (fun excluded => same_site excluded site) set_aside).
Definition callers_of (references set_aside : list Location) (skeletons : list FileSkeleton) : list RelatedDeclaration :=
  related_declarations (filter (fun site => calls set_aside site = true) references) (skeleton_index skeletons).

(** ** Partitions *)

Definition partition_sites (sites : list Location) (f : option SiteFilter) : list Location * list Location :=
  match f with
  | None => (sites, [])
  | Some f =>
      let keeps site := matches f (l_path site) (is_test_source (l_path site)) in
      (filter (fun site => keeps site = true) sites, filter (fun site => keeps site = false) sites)
  end.

Definition listed (definition site : Location) : bool := is_code (l_kind site) || same_site site definition.
Definition excluded_site (site : Location) : ExcludedSite := mkExcluded (l_path site) (l_line site) (l_kind site).
Definition partition_by_kind (references : list Location) (definition : Location) : list Location * list ExcludedSite :=
  (filter (fun site => listed definition site = true) references,
   excluded_site <$> filter (fun site => listed definition site = false) references).

(** [#[derive(Ord)]] on [SiteKind]: the order of the constructors. *)
Definition site_kind_index (k : SiteKind) : nat :=
  match k with Code => 0 | Comment => 1 | Kdoc => 2 | String_ => 3 | DeclarationName => 4 end.
Definition excluded_key (s : ExcludedSite) : str * N * nat := (es_path s, es_line s, site_kind_index (es_kind s)).

(** ** [build_trace] *)

Definition is_production (d : RelatedDeclaration) : bool := negb (rd_test d).

(** The [bookkeeping] closure: the filter as applied, with the callers it left out. *)
Definition filter_bookkeeping (request : SiteFilter) (dropped set_aside : list Location)
    (skeletons : list FileSkeleton) : AppliedTraceFilter * nat * nat :=
  let dropped_callers := callers_of dropped set_aside skeletons in
  let dropped_files := foldl (fun files site => bs_insert (l_path site) files) [] dropped in
  (mkTraceFilter request (length dropped) (length dropped_files) 0 0 0,
   length (filter (fun c => rd_test c = false) dropped_callers),
   length (filter (fun c => rd_test c = true) dropped_callers)).

Definition build_trace (input : TraceInput) : TraceReport :=
  let index := skeleton_index (ti_skeletons input) in
  let implementation_sites := implementations_other_than (ti_implementation_sites input) (ti_definition_site input) in
  let implementors :=
    if cannot_be_subtyped index (ti_definition_site input) then [] else related_declarations implementation_sites index in
  let set_aside := ti_definition_site input :: implementation_sites in
  let '(kept, dropped) := partition_sites (ti_reference_sites input) (ti_filter input) in
  let direct := callers_of kept set_aside (ti_skeletons input) in
  let '(usage_sites, excluded_sites) := partition_by_kind kept (ti_definition_site input) in
  let excluded_sites := sort_by_key excluded_key excluded_sites in
  let usages := group_references usage_sites (ti_skeletons input) (ti_options input) in
  let '(applied, production_omitted, test_omitted) :=
    match ti_filter input with
    | Some request =>
        let '(applied, production, test) := filter_bookkeeping request dropped set_aside (ti_skeletons input) in
        (Some applied, production, test)
    | None => (None, 0, 0)
    end in
  mkReport (df_qualified_name (ti_definition input)) (ti_index input) (ti_definition input) implementors None
    [mkLevel 1 direct production_omitted test_omitted] usages (length kept) excluded_sites None None None applied 0.

(** ** Lemmas: attribution *)

Lemma with_sites_twice d m n : with_sites (with_sites d m) n = with_sites d n.
Proof. done. Qed.

Lemma related_at_sites index site : rd_sites (related_at index site) = 0.
Proof. unfold related_at. by destruct (resolve_site index site) as [[[? ?] ?]|]. Qed.
Lemma related_at_path index site : rd_path (related_at index site) = l_path site.
Proof. unfold related_at. by destruct (resolve_site index site) as [[[? ?] ?]|]. Qed.
Lemma related_at_test index site : rd_test (related_at index site) = is_test_source (l_path site).
Proof. unfold related_at. by destruct (resolve_site index site) as [[[? ?] ?]|]. Qed.

Section attribution.
Context (index : SkeletonIndex).

Definition site_key_of (site : Location) : str * N * option str := related_key (related_at index site).

(** The declaration a group of sites is attributed to; groups are never empty. *)
Definition declaration_of (sites : list Location) : RelatedDeclaration :=
  match sites with
  | s :: _ => with_sites (related_at index s) (length sites)
  | [] => mkRelated [] 0 None None 0 false
  end.

Lemma count_site_group (m : list (str * N * option str * list Location)) site :
  (forall k g, (k, g) ∈ m -> g <> []) ->
  count_site index (prod_map id declaration_of <$> m) site = prod_map id declaration_of <$> bt_push (site_key_of site) site m.
Proof.
  unfold count_site, bt_push. fold (site_key_of site). induction m as [|[k g] m IH]; intros Hm.
  { cbn. unfold prod_map, id. cbn. by rewrite related_at_sites. }
  cbn [fmap list_fmap bt_upsert prod_map fst snd]. unfold id at 1.
  assert (g <> []) as Hg by (by eapply Hm; left). destruct (cmp (site_key_of site) k) eqn:E.
  - cbn [fmap list_fmap prod_map fst snd]. f_equal. unfold prod_map. cbn. f_equal. destruct g as [|s g]; [done|].
    cbn. by rewrite length_app.
  - cbn [fmap list_fmap]. f_equal. unfold prod_map, id. cbn. f_equal. by rewrite related_at_sites.
  - cbn [fmap list_fmap]. f_equal. apply IH. intros k' g' Hin. eapply Hm. by right; exact Hin.
Qed.

Lemma by_declaration_groups sites :
  foldl (count_site index) [] sites = prod_map id declaration_of <$> bt_group site_key_of sites.
Proof.
  induction sites as [|site sites IH] using rev_ind; [done|]. rewrite foldl_app. cbn [foldl].
  rewrite IH, count_site_group, bt_group_snoc; [done|]. intros k g [_ Hg]%bt_group_elem. exact Hg.
Qed.

(** The declarations in key order, before the split by source set. *)
Definition attributed (sites : list Location) : list RelatedDeclaration :=
  declaration_of <$> (bt_group site_key_of sites).*2.

Lemma related_declarations_split sites :
  related_declarations sites index =
  filter (fun d => rd_test d = false) (attributed sites) ++ filter (fun d => rd_test d = true) (attributed sites).
Proof.
  unfold related_declarations. rewrite sort_by_flag, by_declaration_groups.
  assert ((prod_map id declaration_of <$> bt_group site_key_of sites).*2 = attributed sites) as ->; [|done].
  unfold attributed. rewrite <- !list_fmap_compose. by apply list_fmap_ext.
Qed.

Lemma related_declarations_perm sites : related_declarations sites index ≡ₚ attributed sites.
Proof.
  rewrite related_declarations_split, <- sort_by_flag. apply (sort_by_key_perm rd_test).
Qed.

Lemma declaration_of_key k g sites :
  (k, g) ∈ bt_group site_key_of sites -> related_key (declaration_of g) = k /\
  exists s g', g = s :: g' /\ site_key_of s = k /\ filter (key_is site_key_of k) sites = g.
Proof.
  intros [Hg Hne]%bt_group_elem. destruct g as [|s g]; [done|].
  assert (s ∈ filter (key_is site_key_of k) sites) as [Hk _]%list_elem_of_filter by (rewrite <- Hg; left).
  split; [exact Hk|]. by exists s, g.
Qed.

Lemma attributed_keys sites : related_key <$> attributed sites = (bt_group site_key_of sites).*1.
Proof.
  unfold attributed. rewrite <- !list_fmap_compose. apply list_fmap_ext. intros i [k g] Hi. simpl.
  apply list_elem_of_lookup_2 in Hi. by apply declaration_of_key in Hi as [-> _].
Qed.

Lemma attributed_exact sites d :
  d ∈ attributed sites ->
  exists s g, filter (fun x => site_key_of x = related_key d) sites = s :: g /\
    d = with_sites (related_at index s) (S (length g)).
Proof.
  unfold attributed. rewrite <- list_fmap_compose. intros ([k g] & -> & Hin)%list_elem_of_fmap. simpl.
  apply declaration_of_key in Hin as [-> (s & g' & -> & _ & Hf)]. by exists s, g'.
Qed.

Lemma attributed_covers sites s :
  s ∈ sites -> exists d, d ∈ attributed sites /\ related_key d = site_key_of s.
Proof.
  intros Hs. assert (site_key_of s ∈ related_key <$> attributed sites) as (d & E & Hd)%list_elem_of_fmap.
  - rewrite attributed_keys. apply bt_group_keys, list_elem_of_fmap. by exists s.
  - by exists d.
Qed.

Lemma attributed_total sites : sum_list (rd_sites <$> attributed sites) = length sites.
Proof.
  rewrite <- (bt_group_concat site_key_of sites) at 2. rewrite length_concat_sum. unfold attributed.
  rewrite <- !list_fmap_compose. f_equal. apply list_fmap_ext. intros i [k g] Hi. simpl.
  apply list_elem_of_lookup_2 in Hi. by apply declaration_of_key in Hi as [_ (s & g' & -> & _)].
Qed.

Lemma attributed_sorted sites :
  StronglySorted (fun a b => ord_lt (related_key a) (related_key b)) (attributed sites).
Proof.
  pose proof (bt_group_sorted site_key_of sites) as Hs. unfold bt_sorted in Hs. rewrite <- attributed_keys in Hs.
  revert Hs. induction (attributed sites) as [|d l IH]; intros Hs; [constructor|].
  apply StronglySorted_inv in Hs as [Hs Hd]. constructor; [by apply IH|]. exact (proj1 (Forall_fmap related_key (ord_lt (related_key d)) l) Hd).
Qed.

(** A test on the path commutes with attribution: a declaration's sites are all in its file. *)
Lemma attributed_filter (P : str -> Prop) `{!∀ p, Decision (P p)} sites :
  attributed (filter (fun s => P (l_path s)) sites) = filter (fun d => P (rd_path d)) (attributed sites).
Proof.
  unfold attributed.
  rewrite (list_filter_iff _ (fun s => P (site_key_of s).1.1) sites).
  2:{ intros s. unfold site_key_of, related_key. cbn. by rewrite related_at_path. }
  pose proof (bt_group_filter site_key_of (fun k => P k.1.1) sites) as E. cbn beta in E. rewrite E, <- !list_fmap_compose. clear E.
  pose proof (fun k g Hin => proj1 (declaration_of_key k g sites Hin)) as Hkey. revert Hkey.
  induction (bt_group site_key_of sites) as [|[k g] m IH]; intros Hkey; [done|].
  assert (related_key (declaration_of g) = k) as Hk by (apply Hkey; left). specialize (IH (fun k g Hin => Hkey k g (list_elem_of_further _ _ _ Hin))).
  rewrite filter_cons. csimpl. rewrite filter_cons. rewrite <- Hk. cbn [related_key fst]. by case_decide; csimpl; rewrite IH.
Qed.

Lemma related_declarations_filter (P : str -> Prop) `{!∀ p, Decision (P p)} sites :
  related_declarations (filter (fun s => P (l_path s)) sites) index =
  filter (fun d => P (rd_path d)) (related_declarations sites index).
Proof.
  rewrite !related_declarations_split, attributed_filter, filter_app, !list_filter_filter.
  f_equal; apply list_filter_iff; intros d; tauto.
Qed.

End attribution.

(** ** Lemmas: the parts of [build_trace] *)

Lemma partition_sites_perm sites f : (partition_sites sites f).1 ++ (partition_sites sites f).2 ≡ₚ sites.
Proof.
  unfold partition_sites. destruct f as [f|]; simpl; [|by rewrite app_nil_r].
  rewrite <- (filter_app_complement (fun s => matches f (l_path s) (is_test_source (l_path s)) = true) sites) at 3.
  f_equiv. apply Permutation_refl', list_filter_iff. intros s. symmetry. apply not_true_iff_false.
Qed.

(** The report's parts, whichever filter it was built under. *)
Lemma build_trace_parts input :
  let r := build_trace input in
  let index := skeleton_index (ti_skeletons input) in
  let definition := ti_definition_site input in
  let implementation_sites := implementations_other_than (ti_implementation_sites input) definition in
  let parts := partition_sites (ti_reference_sites input) (ti_filter input) in
  let direct sites := callers_of sites (definition :: implementation_sites) (ti_skeletons input) in
  t_implementors r = (if cannot_be_subtyped index definition then [] else related_declarations implementation_sites index) /\
  t_callers r = [mkLevel 1 (direct parts.1)
    (match ti_filter input with Some _ => length (filter (fun c => rd_test c = false) (direct parts.2)) | None => 0 end)
    (match ti_filter input with Some _ => length (filter (fun c => rd_test c = true) (direct parts.2)) | None => 0 end)] /\
  t_usages r = group_references (filter (fun s => listed definition s = true) parts.1) (ti_skeletons input) (ti_options input) /\
  t_sites r = length parts.1 /\
  t_excluded_sites r =
    sort_by_key excluded_key (excluded_site <$> filter (fun s => listed definition s = false) parts.1) /\
  t_filter r = (fun f => mkTraceFilter f (length parts.2)
    (length (foldl (fun files site => bs_insert (l_path site) files) [] parts.2)) 0 0 0) <$> ti_filter input.
Proof.
  unfold build_trace. destruct (partition_sites _ _) as [kept dropped]. cbn.
  by destruct (ti_filter input).
Qed.

Lemma callers_of_filter (P : str -> Prop) `{!∀ p, Decision (P p)} references set_aside skeletons :
  callers_of (filter (fun s => P (l_path s)) references) set_aside skeletons =
  filter (fun d => P (rd_path d)) (callers_of references set_aside skeletons).
Proof.
  unfold callers_of. rewrite <- related_declarations_filter, !list_filter_filter.
  f_equal. apply list_filter_iff. tauto.
Qed.

Lemma callers_of_tested references set_aside skeletons :
  Forall (fun c => rd_test c = is_test_source (rd_path c)) (callers_of references set_aside skeletons).
Proof.
  unfold callers_of. rewrite related_declarations_perm. apply Forall_forall.
  intros d (s & g & _ & ->)%attributed_exact. cbn. by rewrite related_at_test, related_at_path.
Qed.

(** A filter splits the callers as it splits the sites. *)
Lemma callers_of_partition sites f set_aside skeletons :
  let callers := callers_of sites set_aside skeletons in
  callers_of (partition_sites sites (Some f)).1 set_aside skeletons =
    filter (fun c => matches f (rd_path c) (rd_test c) = true) callers /\
  callers_of (partition_sites sites (Some f)).2 set_aside skeletons =
    filter (fun c => matches f (rd_path c) (rd_test c) = false) callers.
Proof.
  intros callers. pose proof (callers_of_tested sites set_aside skeletons) as Ht. fold callers in Ht.
  assert (forall b, callers_of (filter (fun s => matches f (l_path s) (is_test_source (l_path s)) = b) sites) set_aside skeletons
    = filter (fun c => matches f (rd_path c) (rd_test c) = b) callers) as H; [|split; apply H].
  intros b. pose proof (callers_of_filter (fun p => matches f p (is_test_source p) = b) sites set_aside skeletons) as E.
  cbn beta in E. rewrite E. apply filter_agree. eapply Forall_impl; [exact Ht|]. intros c Hc. cbn beta in Hc. by rewrite Hc.
Qed.

(** A site that the usage groups list or cap: imports are kept, or it is past its file's header. *)
Definition past_header (skeletons : list FileSkeleton) (options : GroupingOptions) (site : Location) : bool :=
  include_imports options
  || negb (in_header (s ← bt_get (l_path site) (bt_of_list ((fun s => (fs_path s, s)) <$> skeletons)); first_declaration_line s)
             (l_line site)).

(** The usage groups count every site past the headers. *)
Lemma usages_count sites skeletons options :
  sum_list ((fun g => length (g_references g) + g_omitted g) <$> group_references sites skeletons options) =
  length (filter (fun l => past_header skeletons options l = true) sites).
Proof.
  rewrite <- (bt_group_concat l_path sites) at 2. rewrite filter_concat, length_concat_sum. unfold group_references.
  rewrite <- !list_fmap_compose. f_equal. apply list_fmap_ext. intros i [path file_sites] Hi.
  apply list_elem_of_lookup_2, bt_group_elem in Hi as [-> _]. cbn. unfold capped_references.
  match goal with |- context [cap_at ?l ?x] => destruct (cap_at_spec l x) as [_ Hlen]; destruct (cap_at l x) end.
  cbn in *. rewrite Hlen. unfold sort_by_key. rewrite length_sort_by, length_fmap. f_equal.
  apply filter_agree, Forall_forall. intros site [Hk _]%list_elem_of_filter. unfold key_is in Hk. unfold past_header. by rewrite Hk.
Qed.

(** With imports kept, they count every listed site. *)
Lemma usages_total sites skeletons options :
  include_imports options = true ->
  sum_list ((fun g => length (g_references g) + g_omitted g) <$> group_references sites skeletons options) = length sites.
Proof.
  intros Hi. rewrite usages_count. f_equal. apply filter_all, Forall_forall. intros l _. unfold past_header. by rewrite Hi.
Qed.

(** The calls that attach later sections to a report. *)
Inductive TraceStep :=
  | DeeperCallers (callers : list RelatedDeclaration)
  | DeeperLevel (callers : list RelatedDeclaration) (production_omitted test_omitted : nat)
  | RecordOmissions (annotated java kotlin : nat)
  | AttachSupertypes (implementors : SupertypeImplementors)
  | AttachAnnotated (annotated : AnnotatedDeclarations)
  | AttachJava (references : TextReferences)
  | AttachKotlin (references : TextReferences)
  | AttachIgnored (count : nat).
Definition apply_step (r : TraceReport) (step : TraceStep) : TraceReport :=
  match step with
  | DeeperCallers callers => with_deeper_callers r callers
  | DeeperLevel callers production test => with_deeper_level r callers production test
  | RecordOmissions annotated java kotlin => record_filtered_omissions r annotated java kotlin
  | AttachSupertypes implementors => with_supertype_implementors r implementors
  | AttachAnnotated annotated => with_annotated r annotated
  | AttachJava references => with_java_text_references r references
  | AttachKotlin references => with_kotlin_text_references r references
  | AttachIgnored count => with_ignored_directory_results r count
  end.
(** The annotated omissions a step records, and whether it attaches supertype implementors. *)
Definition recorded (step : TraceStep) : nat := match step with RecordOmissions annotated _ _ => annotated | _ => 0 end.
Definition attaches_supertypes (step : TraceStep) : Prop := match step with AttachSupertypes _ => True | _ => False end.

(** What every later step keeps of a report [r0]. *)
Record continues (r0 : TraceReport) (n : nat) (r : TraceReport) : Prop := {
  CT_depths : forall i l, t_callers r !! i = Some l -> cl_depth l = S i;
  CT_first : take 1 (t_callers r) = take 1 (t_callers r0);
  CT_usages : t_usages r = t_usages r0 /\ t_sites r = t_sites r0 /\ t_excluded_sites r = t_excluded_sites r0;
  CT_filter : tf_filter <$> t_filter r = tf_filter <$> t_filter r0;
  CT_recorded : forall f f0, t_filter r = Some f -> t_filter r0 = Some f0 ->
    tf_annotated_omitted f = tf_annotated_omitted f0 + n /\ tf_usages_omitted f = tf_usages_omitted f0;
  CT_implementors : is_Some (t_supertype_implementors r) -> t_supertype_implementors r0 = None -> t_implementors r = [] }.

Lemma depths_snoc (callers : list CallerLevel) l :
  (forall i l', callers !! i = Some l' -> cl_depth l' = S i) -> cl_depth l = length callers + 1 ->
  forall i l', (callers ++ [l]) !! i = Some l' -> cl_depth l' = S i.
Proof.
  intros Hc Hl i l' [Hi|[Hi Hl']]%lookup_app_Some; [by apply Hc|].
  destruct (i - length callers) as [|k] eqn:E; [|done]. injection Hl' as <-. lia.
Qed.

Lemma apply_step_continues r0 n r step :
  t_callers r0 <> [] -> continues r0 n r -> continues r0 (n + recorded step) (apply_step r step).
Proof.
  intros Hne [Hd Hf Hu Hfi Hr Hi]. assert (t_callers r <> []) as Hne'.
  { intros E. rewrite E in Hf. by destruct (t_callers r0). }
  destruct step; cbn [apply_step recorded]; try (rewrite Nat.add_0_r); split; try done; cbn.
  1,3: by apply depths_snoc.
  1-2: destruct (t_callers r); [done|]; exact Hf.
  - by destruct (t_filter r).
  - intros f f0 Hf' Hf0. destruct (t_filter r) as [f1|]; [|done]. injection Hf' as <-. cbn.
    destruct (Hr f1 f0 eq_refl Hf0). lia.
Qed.

(** ** Properties *)

(** Callers are exact: each entry is the declaration of its first site with the number of
    eligible sites - in code and not on a set-aside line - that resolve to the same path, line and
    name; every eligible site is counted by some entry, none twice; production entries come before
    test entries and, inside each, entries are strictly ordered by path, line and name. *)
Theorem callers_exact (references set_aside : list Location) (skeletons : list FileSkeleton) :
  let index := skeleton_index skeletons in
  let eligible := filter (fun site => calls set_aside site = true) references in
  let callers := callers_of references set_aside skeletons in
  Forall (fun c => exists s g, filter (fun x => site_key_of index x = related_key c) eligible = s :: g /\
    c = with_sites (related_at index s) (S (length g))) callers /\
  (forall s, s ∈ eligible -> exists c, c ∈ callers /\ related_key c = site_key_of index s) /\
  sum_list (rd_sites <$> callers) = length eligible /\
  exists production test, callers = production ++ test /\
    Forall (fun c => rd_test c = false) production /\ Forall (fun c => rd_test c = true) test /\
    StronglySorted (fun a b => ord_lt (related_key a) (related_key b)) production /\
    StronglySorted (fun a b => ord_lt (related_key a) (related_key b)) test.
Proof.
  intros index eligible callers. pose proof (related_declarations_perm index eligible) as Hp. split_and!.
  - unfold callers, callers_of. fold index eligible. rewrite Hp. apply Forall_forall. apply attributed_exact.
  - intros s Hs. destruct (attributed_covers index eligible s Hs) as (d & Hd & Hk). exists d. split; [|done].
    unfold callers, callers_of. fold index eligible. by rewrite Hp.
  - unfold callers, callers_of. fold index eligible. rewrite Hp. apply attributed_total.
  - eexists _, _. split; [apply related_declarations_split|]. fold index eligible.
    split_and!; try (apply Forall_forall; by intros c [? _]%list_elem_of_filter).
    all: apply sorted_filter, attributed_sorted.
Qed.

(** A filter only leaves things out, and says how much. Against the unfiltered answer to the same
    question, the filtered one lists exactly the direct callers the filter admits, in the same
    order and with the same counts; the production and test callers it reports as left out are
    the rest; implementors are untouched; and sites kept plus sites left out are all of them. *)
Theorem trace_filter_partitions (input : TraceInput) (f : SiteFilter) :
  let with_filter f := mkTraceInput (ti_definition input) (ti_index input) (ti_definition_site input)
    (ti_implementation_sites input) (ti_reference_sites input) (ti_skeletons input) (ti_options input) f in
  let full := build_trace (with_filter None) in
  let filtered := build_trace (with_filter (Some f)) in
  let admitted c := matches f (rd_path c) (rd_test c) in
  t_implementors filtered = t_implementors full /\
  exists applied level, t_filter filtered = Some applied /\ t_callers filtered = [level] /\
    cl_callers level = filter (fun c => admitted c = true) (direct_callers full) /\
    cl_production_omitted level =
      length (filter (fun c => rd_test c = false /\ admitted c = false) (direct_callers full)) /\
    cl_test_omitted level = length (filter (fun c => rd_test c = true /\ admitted c = false) (direct_callers full)) /\
    t_sites filtered + tf_usages_omitted applied = t_sites full.
Proof.
  intros with_filter full filtered admitted.
  destruct (build_trace_parts (with_filter None)) as (Ei & Ec & _ & Es & _).
  destruct (build_trace_parts (with_filter (Some f))) as (Ei' & Ec' & _ & Es' & _ & Ef').
  fold full in Ei, Ec, Es. fold filtered in Ei', Ec', Es', Ef'. split; [by rewrite Ei, Ei'|].
  cbn [with_filter ti_definition_site ti_implementation_sites ti_reference_sites ti_skeletons ti_filter fmap option_fmap
    option_map] in *.
  destruct (callers_of_partition (ti_reference_sites input) f (ti_definition_site input ::
    implementations_other_than (ti_implementation_sites input) (ti_definition_site input)) (ti_skeletons input)) as [Hk Hd].
  unfold direct_callers. rewrite Ec, Ef', Ec', Es', Es, Hk, Hd. eexists _, _. split_and!; [done|done|done|..]; cbn.
  1-2: by rewrite list_filter_filter.
  pose proof (partition_sites_perm (ti_reference_sites input) (Some f)) as Hp. apply Permutation_length in Hp.
  rewrite length_app in Hp. exact Hp.
Qed.

(** C4: A trace accounts for every site. Under any filter, the sites kept and the sites the filter
    left out are all of them; with imports kept, what the usage groups list or report as capped,
    plus the excluded mentions, is exactly the number of sites kept; and the excluded sites are
    never code and come in path, line and kind order. *)
Theorem trace_accounts (input : TraceInput) :
  let r := build_trace input in
  let dropped := match t_filter r with Some applied => tf_usages_omitted applied | None => 0 end in
  t_sites r + dropped = length (ti_reference_sites input) /\
  (include_imports (ti_options input) = true ->
    sum_list ((fun g => length (g_references g) + g_omitted g) <$> t_usages r) + length (t_excluded_sites r) = t_sites r) /\
  Forall (fun e => is_code (es_kind e) = false) (t_excluded_sites r) /\
  StronglySorted (fun a b => ord_le (excluded_key a) (excluded_key b)) (t_excluded_sites r).
Proof.
  intros r dropped. destruct (build_trace_parts input) as (_ & _ & Eu & Es & Ee & Ef). fold r in Eu, Es, Ee, Ef.
  pose proof (partition_sites_perm (ti_reference_sites input) (ti_filter input)) as Hp.
  unfold dropped. rewrite Ef, Eu, Es, Ee. set (kept := (partition_sites _ _).1) in *. split_and!.
  - rewrite <- Hp, length_app. fold kept. destruct (ti_filter input); [done|]. cbn. lia.
  - intros Hi. rewrite usages_total by done. unfold sort_by_key. rewrite length_sort_by, length_fmap, <- length_app.
    apply Permutation_length. rewrite <- (filter_app_complement (fun s => listed (ti_definition_site input) s = true) kept) at 3.
    f_equiv. apply Permutation_refl', list_filter_iff. intros s. symmetry. apply not_true_iff_false.
  - rewrite sort_by_key_perm. apply Forall_fmap, Forall_forall. intros s [Hl _]%list_elem_of_filter.
    unfold listed in Hl. by apply orb_false_iff in Hl as [? _].
  - apply sort_by_key_sorted.
Qed.

(** Later sections never disturb the answer. Whatever is attached to a built report, in any order,
    its caller levels stay numbered 1, 2, 3, ..., the direct callers, usages, sites, exclusions and
    filter are those it was built with, the omissions recorded later add up on a filtered report
    and are dropped on an unfiltered one, and once supertype implementors are attached the engine's
    own implementor list is empty. *)
Theorem trace_builders_compose (input : TraceInput) (steps : list TraceStep) :
  let r0 := build_trace input in
  let r := foldl apply_step r0 steps in
  (forall i l, t_callers r !! i = Some l -> cl_depth l = S i) /\
  direct_callers r = direct_callers r0 /\
  t_usages r = t_usages r0 /\ t_sites r = t_sites r0 /\ t_excluded_sites r = t_excluded_sites r0 /\
  tf_filter <$> t_filter r = ti_filter input /\
  (forall applied, t_filter r = Some applied -> tf_annotated_omitted applied = sum_list (recorded <$> steps)) /\
  (is_Some (t_supertype_implementors r) -> t_implementors r = []).
Proof.
  intros r0 r. destruct (build_trace_parts input) as (_ & Ec & _ & _ & _ & Ef). fold r0 in Ec, Ef.
  assert (t_callers r0 <> []) as Hne by by rewrite Ec.
  assert (t_supertype_implementors r0 = None) as Hs.
  { unfold r0, build_trace. destruct (partition_sites _ _), (ti_filter input); done. }
  assert (continues r0 (sum_list (recorded <$> steps)) r) as [Hd Hf (Hu & Hsi & He) Hfi Hr Hi].
  { unfold r. induction steps as [|step steps IH] using rev_ind.
    - split; try done; cbn.
      + intros [|i] l; rewrite Ec; [by intros [= <-]|done].
      + intros f f0 -> [= ->]. lia.
      + rewrite Hs. by intros [].
    - rewrite foldl_app, fmap_app, sum_list_with_app. cbn. rewrite Nat.add_0_r. by apply apply_step_continues. }
  split_and!; try done.
  - unfold direct_callers. destruct (t_callers r), (t_callers r0); try done. by injection Hf as ->.
  - rewrite Hfi, Ef. by destruct (ti_filter input).
  - intros applied Ha. rewrite Ef in Hr. destruct (ti_filter input) as [f|] eqn:Ei.
    + destruct (Hr applied _ Ha eq_refl) as [-> _]. done.
    + rewrite Ha, Ef in Hfi. done.
  - auto.
Qed.

(** A declaration never implements itself, and a final one has no implementors: each implementor
    counts implementation sites of its own file, all off the line the definition is on; and when
    the definition's file parsed whole and the declaration starting on its line cannot be
    subtyped, none are listed whatever the engine answered. *)
Theorem implementors_sound (input : TraceInput) :
  let definition := ti_definition_site input in
  let implementors := t_implementors (build_trace input) in
  Forall (fun d => exists s, s ∈ ti_implementation_sites input /\ ~ (l_path s = l_path definition /\ l_line s = l_line definition) /\
    rd_path d = l_path s /\ 0 < rd_sites d) implementors /\
  sum_list (rd_sites <$> implementors) <= length (ti_implementation_sites input) /\
  (forall f d, bt_get (l_path definition) (skeleton_index (ti_skeletons input)) = Some f -> fs_partial f = false ->
    declaration_starting_at f (l_line definition) = Some d -> can_be_subtyped d = false -> implementors = []).
Proof.
  intros definition implementors. destruct (build_trace_parts input) as (Ei & _). fold implementors definition in Ei.
  set (index := skeleton_index (ti_skeletons input)) in *.
  set (sites := implementations_other_than (ti_implementation_sites input) definition) in *.
  rewrite Ei. split_and!.
  - destruct (cannot_be_subtyped index definition); [constructor|]. rewrite related_declarations_perm.
    apply Forall_forall. intros d (s & g & Hg & Ed)%attributed_exact.
    assert (s ∈ filter (fun x => site_key_of index x = related_key d) sites) as [_ Hs]%list_elem_of_filter by (rewrite Hg; left).
    clear Hg. subst d. apply list_elem_of_filter in Hs as [Hne Hs]. exists s. cbn. rewrite related_at_path. split_and!; [done| |done|lia].
    intros [Hp Hl]. unfold same_site in Hne. by rewrite Hp, Hl, bool_decide_true, N.eqb_refl in Hne.
  - destruct (cannot_be_subtyped index definition); [cbn; lia|]. rewrite related_declarations_perm, attributed_total.
    apply length_filter.
  - intros f d Hf Hp Hd Hs. unfold cannot_be_subtyped. by rewrite Hf, Hp, Hd, Hs.
Qed.

(** ** Examples *)

Definition site_at (line : N) (kind : SiteKind) : Location := mkLocation (lit "src/A.kt") line None kind.
Definition trace_of (sites : list Location) (f : option SiteFilter) : TraceInput :=
  mkTraceInput (mkDefinition (lit "a.run") (lit "src/A.kt") 1 []) Complete (site_at 1 Code) [] sites []
    (mkGrouping None true) f.

(** [usages_omitted] is documented as the listed usage sites the filter dropped, but it also counts
    a dropped comment, which no listing would have shown. *)
Lemma usages_omitted_counts_mentions :
  let sites := [site_at 3 Comment] in
  (forall f, t_usages (build_trace (trace_of sites f)) = []) /\
  exists applied, t_filter (build_trace (trace_of sites (Some (mkFilter [lit "lib/"] AllScope)))) = Some applied /\
    tf_usages_omitted applied = 1.
Proof.
  split.
  - intros [f|]; [|vm_compute; reflexivity]. cbn. unfold build_trace. cbn.
    destruct (matches f _ _); reflexivity.
  - eexists. split; vm_compute; reflexivity.
Qed.
