(* ===== verification/Render.v ===== *)
(** * Render: the skeleton as text

    Models the skeleton half of [crates/ktsense-core/src/render.rs]: the signature line of a
    declaration, [SkeletonWriter], [render_skeleton], [render_markdown] with its hidden-declaration
    and hidden-annotation notices, and [render_member_summary]. The writer's [lines] vector is the
    list of lines a call appends. *)
From S2P Require Import Prelude Collections Text Skeleton.

Set Default Proof Using "Type*".

Definition INDENT : str := lit "    ".
Definition INFERRED_TYPE_MARKER : str := lit "/* inferred */".
Definition TRUNCATION_NOTICE : str := lit "// truncated: nesting depth limit reached".
Definition PARTIAL_NOTICE : str :=
  lit "// partial: recovered around a parse error; some declarations may be missing and shown signatures may be incomplete or malformed".
Definition MAX_INLINE_WIDTH : N := 100.

Definition render_member_summary (entries : list str) (properties : list NamedProperty) : option str :=
  if negb (bool_decide (entries = [])) then Some (lit "entries: " ++ join (lit ", ") entries)
  else if negb (bool_decide (properties = [])) then
    Some (lit "properties: "
          ++ join (lit ", ") ((fun p => np_name p ++ lit ": " ++ np_type_name p) <$> properties))
  else None.

Record RenderOptions := mkRenderOptions {
  include_private : bool;
  include_doc : bool;
  include_lines : bool;
  include_annotations : bool }.
(** [RenderOptions::default] and its setters. *)
Definition options_default : RenderOptions := mkRenderOptions false false false false.
Definition with_private (o : RenderOptions) := mkRenderOptions true (include_doc o) (include_lines o) (include_annotations o).
Definition with_doc (o : RenderOptions) := mkRenderOptions (include_private o) true (include_lines o) (include_annotations o).
Definition with_lines (o : RenderOptions) := mkRenderOptions (include_private o) (include_doc o) true (include_annotations o).
Definition with_annotations (o : RenderOptions) := mkRenderOptions (include_private o) (include_doc o) (include_lines o) true.

Definition is_visible_api (v : Visibility) : bool := match v with Public | Protected => true | _ => false end.
Definition admits_declaration (o : RenderOptions) (d : Declaration) : bool :=
  include_private o || is_visible_api (d_visibility d).

(** ** The signature line *)

Definition canonical_modifiers (d : Declaration) : list Modifier := dedup (sort (d_modifiers d)).

(** [words.push(..)] unless the word is empty. *)
Definition word (w : str) : list str := if bool_decide (w = []) then [] else [w].

Definition keyword_prefix (d : Declaration) : str :=
  let words :=
    word (visibility_keyword (d_visibility d))
    ++ (modifier_keyword <$> canonical_modifiers d)
    ++ word (decl_keyword (d_kind d))
    ++ match d_type_parameters d with
       | Some type_parameters => if type_parameters_precede_name (d_kind d) then [neutralize type_parameters] else []
       | None => []
       end in
  match words with [] => [] | _ => join (lit " ") words ++ lit " " end.

Definition name_segment (d : Declaration) : str :=
  let trailing_type_parameters :=
    match d_type_parameters d with
    | Some type_parameters => if type_parameters_precede_name (d_kind d) then [] else type_parameters
    | None => []
    end in
  let receiver := match d_receiver d with Some receiver => neutralize receiver ++ lit "." | None => [] end in
  receiver ++ neutralize (d_name d) ++ neutralize trailing_type_parameters.

Definition render_parameter (p : Parameter_) : str :=
  match p_property p with
  | Some property =>
      let visibility := visibility_keyword (pp_visibility property) in
      (if bool_decide (visibility = []) then [] else visibility ++ lit " ")
      ++ (if pp_mutable property then lit "var " else lit "val ")
  | None => []
  end
  ++ (if p_vararg p then modifier_keyword Vararg ++ lit " " else [])
  ++ neutralize (p_name p) ++ lit ": " ++ neutralize (p_type_name p)
  ++ match p_default p with Some default => lit " = " ++ neutralize default | None => [] end.

Definition constructor_keyword (d : Declaration) : str :=
  match d_constructor_visibility d with
  | Some visibility => if negb (is_public visibility) then lit " " ++ visibility_keyword visibility ++ lit " constructor" else []
  | None => []
  end.
Definition parameter_segment (d : Declaration) : str :=
  if negb (takes_parentheses (d_kind d)) && bool_decide (d_parameters d = []) then []
  else constructor_keyword d ++ lit "(" ++ join (lit ", ") (render_parameter <$> d_parameters d) ++ lit ")".

Definition type_segment (d : Declaration) : str :=
  match d_return_type d with
  | None => if d_type_inferred d then lit " " ++ INFERRED_TYPE_MARKER else []
  | Some type_name => (if bool_decide (d_kind d = TypeAlias) then lit " = " else lit ": ") ++ neutralize type_name
  end.
Definition supertype_segment (d : Declaration) : str :=
  if bool_decide (d_supertypes d = []) then []
  else lit " : " ++ join (lit ", ") (neutralize <$> d_supertypes d).
Definition constraint_segment (d : Declaration) : str :=
  match d_type_constraints d with Some constraints => lit " where " ++ neutralize constraints | None => [] end.
Definition line_segment (d : Declaration) (o : RenderOptions) : str :=
  if include_lines o then lit "  # L" ++ dec (d_line d) else [].

Definition header_of (d : Declaration) (o : RenderOptions) : str :=
  trim_end (concat [keyword_prefix d; name_segment d; parameter_segment d; type_segment d;
                    supertype_segment d; constraint_segment d; line_segment d o]).

(** ** [SkeletonWriter] *)

Definition padding_of (depth : nat) : str := concat (replicate depth INDENT).

Definition note_truncation (depth : nat) : list str := [padding_of depth ++ TRUNCATION_NOTICE].
Definition write_doc (o : RenderOptions) (d : Declaration) (padding : str) : list str :=
  if negb (include_doc o) then []
  else match d_doc d with Some doc => [padding ++ lit "/** " ++ neutralize doc ++ lit " */"] | None => [] end.
Definition write_annotations (o : RenderOptions) (d : Declaration) (padding : str) : list str :=
  if negb (include_annotations o) then [] else (fun annotation => padding ++ neutralize annotation) <$> d_annotations d.

Definition visible_members (o : RenderOptions) (d : Declaration) : list Declaration :=
  filter (fun child => admits_declaration o child = true) (d_children d).

Definition inline_form (o : RenderOptions) (header : str) (members : list Declaration) (indent_width : N) : option str :=
  match members with
  | [only] =>
      let carries_doc := include_doc o && bool_decide (is_Some (d_doc only)) in
      let carries_annotations := include_annotations o && negb (bool_decide (d_annotations only = [])) in
      if negb (bool_decide (d_children only = [])) || carries_doc || carries_annotations then None
      else
        let inlined := header ++ lit " { " ++ header_of only o ++ lit " }" in
        if (indent_width + utf8_len inlined <=? MAX_INLINE_WIDTH)%N then Some inlined else None
  | _ => None
  end.

(** [take_while] the members are enum entries. *)
Fixpoint leading_enum_entries (members : list Declaration) : list Declaration :=
  match members with
  | m :: members' => if bool_decide (d_kind m = EnumEntry) then m :: leading_enum_entries members' else []
  | [] => []
  end.
Definition join_names (ds : list Declaration) : str := join (lit ", ") ((fun d => neutralize (d_name d)) <$> ds).

(** [write_members], over the members and what [write] gives for each. *)
Definition write_members (members : list Declaration) (written : list (list str)) (depth : nat) : list str :=
  let entries := leading_enum_entries members in
  (if bool_decide (entries = []) then []
   else let terminator := if length entries <? length members then lit ";" else [] in
        [padding_of depth ++ join_names entries ++ terminator])
  ++ concat (drop (length entries) written).

Fixpoint write (o : RenderOptions) (depth : nat) (d : Declaration) : list str :=
  if negb (admits_declaration o d) then []
  else
    let padding := padding_of depth in
    let header := header_of d o in
    let members := visible_members o d in
    let written := snd <$> filter (fun m => admits_declaration o m.1 = true)
                             ((fun child => (child, write o (S depth) child)) <$> d_children d) in
    write_doc o d padding
    ++ write_annotations o d padding
    ++ (if negb (is_container d) || bool_decide (members = []) then [padding ++ header]
        else if MAX_NESTING_DEPTH <=? depth then
          [padding ++ header ++ lit " {"] ++ note_truncation (depth + 1) ++ [padding ++ lit "}"]
        else match inline_form o header members (utf8_len padding) with
             | Some inlined => [padding ++ inlined]
             | None =>
                 [padding ++ header ++ lit " {"] ++ write_members members written (depth + 1) ++ [padding ++ lit "}"]
             end).
Definition write_all (o : RenderOptions) (ds : list Declaration) (depth : nat) : list str :=
  concat (write o depth <$> ds).

Definition skeleton_lines (f : FileSkeleton) (o : RenderOptions) : list str :=
  (if fs_partial f then [PARTIAL_NOTICE] else [])
  ++ write_all o (fs_declarations f) 0
  ++ (if fs_truncated f then note_truncation 0 else []).
Definition render_skeleton (f : FileSkeleton) (o : RenderOptions) : str := join [10%N] (skeleton_lines f o).

(** ** Notices and [render_markdown] *)

Fixpoint subtree_size (d : Declaration) : nat := 1 + sum_list (subtree_size <$> d_children d).
Fixpoint hidden_within (d : Declaration) : nat :=
  if is_visible_api (d_visibility d) then sum_list (hidden_within <$> d_children d) else subtree_size d.
Definition hidden_declaration_count (ds : list Declaration) (o : RenderOptions) : nat :=
  if include_private o then 0 else sum_list (hidden_within <$> ds).

Fixpoint annotations_within (o : RenderOptions) (d : Declaration) : nat :=
  if negb (is_visible_api (d_visibility d)) && negb (include_private o) then 0
  else length (d_annotations d) + sum_list (annotations_within o <$> d_children d).
Definition hidden_annotation_count (ds : list Declaration) (o : RenderOptions) : nat :=
  if include_annotations o then 0 else sum_list (annotations_within o <$> ds).

Definition line_end : str := [10%N].
Definition append_hidden_notice (out : str) (hidden : nat) : str :=
  if bool_decide (hidden = 0) then out
  else let noun := if bool_decide (hidden = 1) then lit "declaration" else lit "declarations" in
       out ++ dec (N.of_nat hidden) ++ lit " private or internal " ++ noun
       ++ lit " hidden; pass --private to include them." ++ line_end.
Definition append_annotation_notice (out : str) (hidden : nat) : str :=
  if bool_decide (hidden = 0) then out
  else let noun := if bool_decide (hidden = 1) then lit "annotation" else lit "annotations" in
       out ++ dec (N.of_nat hidden) ++ lit " " ++ noun ++ lit " hidden; pass --annotations to include them." ++ line_end.

Definition render_markdown (f : FileSkeleton) (o : RenderOptions) : str :=
  let body := render_skeleton f o in
  let out := lit "## " ++ neutralize (fs_path f) ++ line_end
             ++ match fs_package f with
                | Some package => line_end ++ lit "package " ++ neutralize package ++ line_end
                | None => []
                end in
  let hidden := hidden_declaration_count (fs_declarations f) o in
  let hidden_annotations := hidden_annotation_count (fs_declarations f) o in
  if bool_decide (body = []) then
    append_annotation_notice
      (append_hidden_notice (out ++ line_end ++ lit "No public declarations." ++ line_end) hidden) hidden_annotations
  else
    let fence := fence_for body in
    append_annotation_notice
      (append_hidden_notice
         (out ++ line_end ++ fence ++ lit "kotlin" ++ line_end ++ body ++ line_end ++ fence ++ line_end) hidden)
      hidden_annotations.

(** ** Lemmas: safe text *)

Create HintDb safe.

Lemma all_safe_app a b : all_safe a -> all_safe b -> all_safe (a ++ b).
Proof. intros. by apply Forall_app. Qed.
Lemma all_safe_nil : all_safe [].
Proof. constructor. Qed.
Lemma safe_by_test s : forallb (fun c => negb (is_unsafe_in_output c)) s = true -> all_safe s.
Proof. intros Hs. apply Forall_forall. intros c Hc. rewrite forallb_forall in Hs. apply negb_true_iff, Hs, list_elem_of_In, Hc. Qed.

Lemma join_safe sep l : all_safe sep -> Forall all_safe l -> all_safe (join sep l).
Proof.
  intros Hsep. induction 1 as [|x [|y l] Hx Hl IH]; [constructor|done|].
  rewrite join_cons. by repeat apply all_safe_app.
Qed.
Lemma fmap_safe {A} (f : A -> str) (l : list A) : (forall x, all_safe (f x)) -> Forall all_safe (f <$> l).
Proof. intros Hf. apply Forall_fmap, Forall_forall. intros x _. apply Hf. Qed.

Lemma trim_start_safe s : all_safe s -> all_safe (trim_start s).
Proof. induction 1 as [|c s Hc Hs IH]; simpl; [constructor|]. case_match; [done|by constructor]. Qed.
Lemma trim_end_safe s : all_safe s -> all_safe (trim_end s).
Proof. intros Hs. apply Forall_rev, trim_start_safe, Forall_rev, Hs. Qed.
Lemma concat_safe l : Forall all_safe l -> all_safe (concat l).
Proof. induction 1; simpl; [constructor|by apply all_safe_app]. Qed.

Lemma padding_safe depth : all_safe (padding_of depth).
Proof. apply concat_safe, Forall_replicate. by apply safe_by_test. Qed.
Lemma visibility_keyword_safe v : all_safe (visibility_keyword v).
Proof. destruct v; by apply safe_by_test. Qed.
Lemma modifier_keyword_safe m : all_safe (modifier_keyword m).
Proof. destruct m; by apply safe_by_test. Qed.
Lemma decl_keyword_safe k : all_safe (decl_keyword k).
Proof. destruct k; by apply safe_by_test. Qed.

#[export] Hint Resolve all_safe_app all_safe_nil neutralize_all_safe dec_safe padding_safe visibility_keyword_safe
  modifier_keyword_safe decl_keyword_safe trim_end_safe join_safe fmap_safe : safe.
#[export] Hint Extern 2 (all_safe (lit _)) => (apply safe_by_test; vm_compute; reflexivity) : safe.
#[export] Hint Extern 2 (all_safe INFERRED_TYPE_MARKER) => (apply safe_by_test; vm_compute; reflexivity) : safe.
#[export] Hint Extern 2 (all_safe TRUNCATION_NOTICE) => (apply safe_by_test; vm_compute; reflexivity) : safe.
#[export] Hint Extern 2 (all_safe PARTIAL_NOTICE) => (apply safe_by_test; vm_compute; reflexivity) : safe.

(** Case analysis on whatever the segment branches on, then the hints. *)
Ltac solve_safe := repeat case_match; eauto 12 with safe.

Lemma word_safe w : all_safe w -> Forall all_safe (word w).
Proof. intros. unfold word. case_match; by repeat constructor. Qed.

Lemma keyword_prefix_safe d : all_safe (keyword_prefix d).
Proof.
  unfold keyword_prefix. set (words := word _ ++ _).
  assert (Forall all_safe words) as Hw.
  { unfold words. repeat (apply Forall_app; split); auto using word_safe with safe.
    repeat case_match; repeat constructor; eauto with safe. }
  destruct words; [constructor|]. apply all_safe_app; [apply join_safe|]; eauto with safe.
Qed.
Lemma name_segment_safe d : all_safe (name_segment d).
Proof. unfold name_segment. repeat apply all_safe_app; solve_safe. Qed.
Lemma render_parameter_safe p : all_safe (render_parameter p).
Proof. unfold render_parameter. repeat apply all_safe_app; solve_safe. Qed.
#[export] Hint Resolve keyword_prefix_safe name_segment_safe render_parameter_safe : safe.
Lemma parameter_segment_safe d : all_safe (parameter_segment d).
Proof. unfold parameter_segment, constructor_keyword. solve_safe. Qed.
Lemma type_segment_safe d : all_safe (type_segment d).
Proof. unfold type_segment. solve_safe. Qed.
Lemma supertype_segment_safe d : all_safe (supertype_segment d).
Proof. unfold supertype_segment. solve_safe. Qed.
Lemma constraint_segment_safe d : all_safe (constraint_segment d).
Proof. unfold constraint_segment. solve_safe. Qed.
Lemma line_segment_safe d o : all_safe (line_segment d o).
Proof. unfold line_segment. solve_safe. Qed.
#[export] Hint Resolve parameter_segment_safe type_segment_safe supertype_segment_safe constraint_segment_safe
  line_segment_safe : safe.

Lemma header_of_safe d o : all_safe (header_of d o).
Proof. apply trim_end_safe, concat_safe. repeat constructor; eauto with safe. Qed.
#[export] Hint Resolve header_of_safe : safe.

Lemma inline_form_safe o header members width inlined :
  all_safe header -> inline_form o header members width = Some inlined -> all_safe inlined.
Proof.
  intros Hh. unfold inline_form. destruct members as [|only [|? ?]]; [done| |done].
  repeat case_match; try done. intros E. apply (inj Some) in E as <-. eauto 12 with safe.
Qed.

Lemma write_members_safe members written depth :
  Forall (Forall all_safe) written -> Forall all_safe (write_members members written depth).
Proof.
  intros Hw. unfold write_members. apply Forall_app. split.
  - case_match; [constructor|]. constructor; [|constructor]. unfold join_names. solve_safe.
  - apply Forall_concat. by apply Forall_drop.
Qed.

(** One turn of [write], its recursive calls named. *)
Definition written_members (o : RenderOptions) (d : Declaration) (depth : nat) : list (list str) :=
  write o depth <$> visible_members o d.
Definition write_block (o : RenderOptions) (d : Declaration) (depth : nat) (written : list (list str)) : list str :=
  let padding := padding_of depth in
  let header := header_of d o in
  let members := visible_members o d in
  if negb (is_container d) || bool_decide (members = []) then [padding ++ header]
  else if MAX_NESTING_DEPTH <=? depth then
    [padding ++ header ++ lit " {"] ++ note_truncation (depth + 1) ++ [padding ++ lit "}"]
  else match inline_form o header members (utf8_len padding) with
       | Some inlined => [padding ++ inlined]
       | None => [padding ++ header ++ lit " {"] ++ write_members members written (depth + 1) ++ [padding ++ lit "}"]
       end.

Lemma filter_pairs {A B} (P : A -> Prop) `{!∀ x, Decision (P x)} (f : A -> B) (l : list A) :
  snd <$> filter (fun m => P m.1) ((fun x => (x, f x)) <$> l) = f <$> filter P l.
Proof. induction l as [|x l IH]; [done|]. csimpl. rewrite !filter_cons. simpl. case_decide; csimpl; by rewrite IH. Qed.

Lemma write_eq o depth d :
  write o depth d =
  if negb (admits_declaration o d) then []
  else write_doc o d (padding_of depth) ++ write_annotations o d (padding_of depth)
       ++ write_block o d depth (written_members o d (S depth)).
Proof.
  unfold written_members, visible_members, write_block.
  rewrite <- (filter_pairs (fun child => admits_declaration o child = true)). by destruct d.
Qed.

Lemma write_safe o d depth : Forall all_safe (write o depth d).
Proof.
  revert depth. induction d as [d IH] using declaration_ind'. intros depth. rewrite write_eq.
  case_match; [constructor|]. apply Forall_app. split; [|apply Forall_app; split].
  - unfold write_doc. repeat case_match; repeat constructor; eauto 12 with safe.
  - unfold write_annotations. case_match; eauto 12 with safe.
  - unfold write_block. case_match; [repeat constructor; eauto with safe|]. case_match.
    { unfold note_truncation. repeat constructor; eauto 12 with safe. }
    destruct (inline_form _ _ _ _) eqn:Ei.
    { apply inline_form_safe in Ei; repeat constructor; eauto with safe. }
    constructor; [eauto 12 with safe|]. apply Forall_app. split; [|repeat constructor; eauto with safe].
    apply write_members_safe, Forall_fmap, Forall_forall. intros c [_ Hc]%list_elem_of_filter.
    rewrite Forall_forall in IH. by apply IH.
Qed.

Lemma skeleton_lines_safe f o : Forall all_safe (skeleton_lines f o).
Proof.
  unfold skeleton_lines, write_all, note_truncation. repeat (apply Forall_app; split); try (case_match; repeat constructor; eauto with safe).
  apply Forall_concat, Forall_fmap, Forall_forall. intros d _. apply write_safe.
Qed.

(** ** Lemmas: what is hidden *)

Definition with_children (d : Declaration) (children : list Declaration) : Declaration :=
  mkDecl (d_kind d) (d_name d) (d_receiver d) (d_line d) (d_visibility d) (d_annotations d) (d_modifiers d)
    (d_type_parameters d) (d_parameters d) (d_constructor_visibility d) (d_return_type d) (d_type_inferred d)
    (d_supertypes d) (d_type_constraints d) (d_doc d) children.




Section public_only.
Context (o : RenderOptions) (public_only : include_private o = false).

Lemma admits_visible d : admits_declaration o d = is_visible_api (d_visibility d).
Proof using public_only. unfold admits_declaration. by rewrite public_only. Qed.








End public_only.

(** Two lists of declarations that agree on all that is neither private nor internal: in each place either
    both have a private or internal declaration, whatever it is, or both have one declaration, its members
    again alike. *)
Definition hidden (d : Declaration) : Prop := d_visibility d = Private \/ d_visibility d = Internal.

(** The declarations an outline shows: admitted, with every declaration around them, outermost first. *)
Fixpoint shown_in (o : RenderOptions) (d : Declaration) : list Declaration :=
  if admits_declaration o d then d :: concat (shown_in o <$> d_children d) else [].
Definition shown (o : RenderOptions) (f : FileSkeleton) : list Declaration := concat (shown_in o <$> fs_declarations f).

Lemma shown_in_eq o d :
  shown_in o d = if admits_declaration o d then d :: concat (shown_in o <$> d_children d) else [].
Proof. by destruct d. Qed.
Lemma subtree_size_eq d : subtree_size d = 1 + sum_list (subtree_size <$> d_children d).
Proof. by destruct d. Qed.
Lemma hidden_within_eq d :
  hidden_within d = if is_visible_api (d_visibility d) then sum_list (hidden_within <$> d_children d) else subtree_size d.
Proof. by destruct d. Qed.
Lemma annotations_within_eq o d :
  annotations_within o d =
  if negb (is_visible_api (d_visibility d)) && negb (include_private o) then 0
  else length (d_annotations d) + sum_list (annotations_within o <$> d_children d).
Proof. by destruct d. Qed.

Lemma sum_fmap_forall {A} (f g : A -> nat) (l : list A) :
  Forall (fun x => f x = g x) l -> sum_list (f <$> l) = sum_list (g <$> l).
Proof. induction 1 as [|x l Hx _ IH]; csimpl; [done|]. by rewrite Hx, IH. Qed.
Lemma sum_fmap_add {A} (f g : A -> nat) (l : list A) :
  sum_list ((fun x => f x + g x) <$> l) = sum_list (f <$> l) + sum_list (g <$> l).
Proof. induction l as [|x l IH]; csimpl; [done|]. rewrite IH. lia. Qed.

Lemma count_sum ds : count_declarations ds = sum_list (count_declaration <$> ds).
Proof. done. Qed.

Lemma subtree_count d : subtree_size d = count_declaration d.
Proof.
  induction d as [d IH] using declaration_ind'. rewrite subtree_size_eq, count_declaration_eq. simpl. f_equal.
  rewrite count_sum. by apply sum_fmap_forall.
Qed.

Lemma hidden_and_shown o d :
  include_private o = false -> hidden_within d + length (shown_in o d) = count_declaration d.
Proof.
  intros Ho. induction d as [d IH] using declaration_ind'. rewrite hidden_within_eq, shown_in_eq, (admits_visible o Ho).
  destruct (is_visible_api _); [|simpl; rewrite subtree_count; lia].
  rewrite count_declaration_eq, count_sum. simpl. rewrite length_concat_sum, <- list_fmap_compose.
  rewrite <- (sum_fmap_forall _ _ _ IH), sum_fmap_add. unfold compose. lia.
Qed.

Lemma shown_all o d : include_private o = true -> shown_in o d = flatten d.
Proof.
  intros Ho. induction d as [d IH] using declaration_ind'. rewrite shown_in_eq, flatten_eq.
  unfold admits_declaration. rewrite Ho. simpl. do 2 f_equal. induction IH as [|c l Hc _ IH]; csimpl; [done|]. by rewrite Hc, IH.
Qed.

Lemma annotations_shown o d : annotations_within o d = sum_list ((length ∘ d_annotations) <$> shown_in o d).
Proof.
  induction d as [d IH] using declaration_ind'. rewrite annotations_within_eq, shown_in_eq.
  unfold admits_declaration. destruct (is_visible_api _), (include_private o); simpl; try done; f_equal;
    rewrite (sum_fmap_forall _ _ _ IH); clear IH; induction (d_children d) as [|c l IH]; csimpl; try done;
    by rewrite fmap_app, sum_list_with_app, IH.
Qed.

(** ** Properties *)

(** Rendered source cannot break out of its line: the skeleton is its lines joined, no line holds
    a line feed, a control character or a bidirectional override, whatever the names, types,
    defaults, docs and annotations lifted from the source contain, and so splitting the output at
    line feeds gives back exactly the lines that were written. *)
Theorem render_skeleton_line_safe (f : FileSkeleton) (o : RenderOptions) :
  let ls := skeleton_lines f o in
  render_skeleton f o = join [10%N] ls /\
  Forall (Forall (fun c => is_unsafe_in_output c = false)) ls /\
  (ls <> [] -> split_char 10%N (render_skeleton f o) = ls).
Proof.
  intros ls. pose proof (skeleton_lines_safe f o) as Hs. fold ls in Hs. split_and!; [done|exact Hs|].
  intros Hne. unfold render_skeleton. fold ls. apply split_join; [done|]. intros l Hl Hin.
  rewrite Forall_forall in Hs. specialize (Hs l Hl). unfold all_safe in Hs. rewrite Forall_forall in Hs.
  by apply Hs in Hin.
Qed.


(** The notices are exact: declarations hidden plus declarations shown are all of the file's, at
    every depth, whether or not [--private] is given; and the annotations reported as hidden are
    those of the shown declarations, or none under [--annotations]. *)
Theorem render_notices_exact (f : FileSkeleton) (o : RenderOptions) :
  hidden_declaration_count (fs_declarations f) o + length (shown o f) = declaration_count f /\
  hidden_annotation_count (fs_declarations f) o =
    (if include_annotations o then 0 else sum_list ((length ∘ d_annotations) <$> shown o f)).
Proof.
  unfold shown, hidden_declaration_count, hidden_annotation_count, declaration_count. split.
  - rewrite count_sum, length_concat_sum, <- list_fmap_compose. destruct (include_private o) eqn:Ho.
    + simpl. apply sum_fmap_forall, Forall_forall. intros d _. simpl. by rewrite count_flatten, shown_all.
    + rewrite <- sum_fmap_add. apply sum_fmap_forall, Forall_forall. intros d _. by apply hidden_and_shown.
  - case_match; [done|]. induction (fs_declarations f) as [|d l IH]; csimpl; [done|].
    by rewrite fmap_app, sum_list_with_app, IH, annotations_shown.
Qed.

(** The outline's fence holds: a non-empty skeleton is embedded unchanged between two copies of a
    fence of at least three backticks that occurs nowhere in it, so no source text can close the
    block it is shown in. *)
Theorem render_markdown_fenced (f : FileSkeleton) (o : RenderOptions) :
  let body := render_skeleton f o in
  body <> [] ->
  exists heading fence notices,
    render_markdown f o = heading ++ fence ++ lit "kotlin" ++ [10%N] ++ body ++ [10%N] ++ fence ++ [10%N] ++ notices /\
    contains_str body fence = false /\ Forall (fun c => c = backtick) fence /\ 3 <= length fence.
Proof.
  intros body Hb. unfold render_markdown. fold body. rewrite bool_decide_false by done.
  set (head := lit "## " ++ _). exists (head ++ line_end), (fence_for body).
  assert (forall (out : str) (n : nat), exists t, append_hidden_notice out n = out ++ t) as Hh.
  { intros out n. unfold append_hidden_notice. case_bool_decide; [exists []; by rewrite app_nil_r|by eexists]. }
  assert (forall (out : str) (n : nat), exists t, append_annotation_notice out n = out ++ t) as Ha.
  { intros out n. unfold append_annotation_notice. case_bool_decide; [exists []; by rewrite app_nil_r|by eexists]. }
  match goal with |- context [append_annotation_notice (append_hidden_notice ?x ?n) ?m] =>
    destruct (Hh x n) as [t1 ->]; destruct (Ha (x ++ t1) m) as [t2 ->] end.
  exists (t1 ++ t2). split_and!.
  - unfold line_end. by rewrite <- !app_assoc.
  - apply fence_for_not_in_body.
  - by apply Forall_replicate.
  - unfold fence_for. rewrite length_replicate. unfold MIN_FENCE_BACKTICKS. lia.
Qed.

(** ** Witnesses and examples *)

Definition secret : Declaration := with_visibility (declaration_new Val (lit "token") 3) Private.
Definition vault : FileSkeleton :=
  mkFile (lit "src/Vault.kt") (Some (lit "app")) []
    [with_children (declaration_new Class_ (lit "Vault") 1) [declaration_new Function_ (lit "open") 2; secret]] false false.


(** A private property of a primary constructor is part of its class's line. *)
Definition private_property : Parameter_ := mkParameter (lit "repo") (lit "Repo") None (Some (mkProperty Private false)) false.
Definition service : FileSkeleton :=
  mkFile (lit "S.kt") None [] [mkDecl Class_ (lit "S") None 1 Public [] [] None [private_property] None None false [] None None []] false false.
Lemma private_property_shown : render_skeleton service options_default = lit "class S(private val repo: Repo)".
Proof. vm_compute. reflexivity. Qed.

Lemma render_markdown_fenced_witness :
  render_skeleton vault options_default <> [] /\
  exists fence, contains_str (render_skeleton vault options_default) fence = false /\ 3 <= length fence.
Proof.
  assert (render_skeleton vault options_default <> []) as Hb by (intros E; vm_compute in E; discriminate E).
  split; [exact Hb|].
  destruct (render_markdown_fenced vault options_default Hb) as (heading & fence & notices & _ & Hc & _ & Hl).
  exists fence. split; [exact Hc|exact Hl].
Defined.

(** An enum entry's own annotation is counted by the notice that [--annotations] would reveal it, but
    the entries of an enum share one line of names and neither doc nor annotation of theirs is
    ever written. *)
Definition annotated_enum : FileSkeleton :=
  let entry := mkDecl EnumEntry (lit "A") None 2 Public [lit "@Old"] [] None [] None None false [] None None [] in
  let other := declaration_new EnumEntry (lit "B") 3 in
  mkFile (lit "E.kt") None []
    [mkDecl Class_ (lit "E") None 1 Public [] [Enum] None [] None None false [] None None [entry; other]] false false.
Lemma enum_entry_annotations_lost :
  hidden_annotation_count (fs_declarations annotated_enum) options_default = 1 /\
  contains_str (render_skeleton annotated_enum (with_annotations options_default)) (lit "@Old") = false.
Proof. split; vm_compute; reflexivity. Qed.
