(* ===== verification/RepoMap.v ===== *)
(** * RepoMap: the budgeted map of a repository

    Models [crates/ktsense-core/src/repo_map.rs]: files ranked by package rank and use, their
    signatures emitted within a token budget, the focus section that claims the budget first, and
    the summary of what was left out. Counts are unbounded; every [usize] subtraction is checked,
    [None] where Rust would underflow. *)
From Stdlib Require Import QArith.Qcanon.
From S2P Require Import Prelude Collections Budget Text Graph Scc Skeleton Imports Render.

Set Default Proof Using "Type*".

Record ReferenceCounts := mkCounts { by_name : list (str * N) }.
Definition from_counts (by_name : list (str * N)) : ReferenceCounts := mkCounts by_name.
Definition for_name (c : ReferenceCounts) (name : str) : N := default 0%N (bt_get name (by_name c)).
Definition counts_is_empty (c : ReferenceCounts) : bool := bool_decide (by_name c = []).
Definition distinct_names (c : ReferenceCounts) : nat := length (by_name c).

(** Field prefixes: [mf_] mapped file, [od_] omitted directory, [pf_] path filter, [fm_] focus
    matches, [m_] map, [mi_] input, [fb_] focus build. *)
Record MappedFile := mkMapped { mf_path : str; mf_declarations : list str }.
Record OmittedDirectory := mkOmittedDir { od_path : str; od_files : N }.
Record PathFilter := mkPathFilter { pf_substrings : list str; pf_total_files : nat; pf_matched_files : nat }.
Record FocusMatches := mkFocusMatches { fm_pattern : str; fm_files : list MappedFile; fm_omitted : N }.
Record RepoMap := mkMap {
  m_path_filter : option PathFilter;
  m_focus : option FocusMatches;
  m_fill : option bool;
  m_other_files_not_mapped : option N;
  m_files : list MappedFile;
  m_budget : N;
  m_token_upper_bound : N;
  m_files_omitted : nat;
  m_omitted_directories : list OmittedDirectory;
  m_omitted_directories_shown : nat;
  m_files_without_public_declarations : nat }.

(** [NameMatcher::matches] is the [matcher] of a [FocusSpec]. *)
Record FocusSpec := mkFocus { focus_pattern : str; matcher : str -> bool }.
Record RepoMapInput := mkMapInput {
  mi_files : list FileSkeleton;
  mi_references : ReferenceCounts;
  mi_budget : N;
  mi_path : list str;
  mi_compact : bool;
  mi_focus : option FocusSpec;
  mi_fill : bool }.

(** ** Signatures *)

Definition lone (d : Declaration) : Declaration :=
  mkDecl (d_kind d) (d_name d) (d_receiver d) (d_line d) (d_visibility d) (d_annotations d) (d_modifiers d)
    (d_type_parameters d) (d_parameters d) (d_constructor_visibility d) (d_return_type d) (d_type_inferred d)
    (d_supertypes d) (d_type_constraints d) (d_doc d) [].
Definition signature_of (f : FileSkeleton) (d : Declaration) : option str :=
  let rendered := render_skeleton (mkFile (fs_path f) (fs_package f) [] [lone d] false false) options_default in
  line ← head (lines rendered);
  let line := trim line in
  if bool_decide (line = []) then None else Some line.
Definition compact_signature (d : Declaration) : option str :=
  let keyword := decl_keyword (d_kind d) in
  if bool_decide (keyword = []) then None else Some (keyword ++ lit " " ++ neutralize (d_name d)).
Definition rendered_signature (f : FileSkeleton) (d : Declaration) (compact : bool) : option str :=
  full ← signature_of f d;
  Some (if compact then default full (compact_signature d) else full).

(** ** Ranking *)

Record Ranking := mkRanking { rk_references : ReferenceCounts; rk_importers : list (str * N) }.

Definition qualified_name (f : FileSkeleton) (d : Declaration) : str :=
  match fs_package f with Some package => package ++ lit "." ++ d_name d | None => d_name d end.
Definition weight_of (r : Ranking) (f : FileSkeleton) (d : Declaration) : N * N :=
  (for_name (rk_references r) (d_name d), default 0%N (bt_get (qualified_name f d) (rk_importers r))).
Definition add_weights (a b : N * N) : N * N := (a.1 + b.1, a.2 + b.2)%N.
Definition file_weight (r : Ranking) (f : FileSkeleton) : N * N :=
  foldl add_weights (0, 0)%N (weight_of r f <$> fs_declarations f).

(** [*counts.entry(k).or_insert(0) += 1]. *)
Definition bump (counts : list (str * N)) (k : str) : list (str * N) := bt_upsert k (fun o => (default 0 o + 1)%N) counts.
Definition importer_counts (files : list FileSkeleton) : list (str * N) :=
  foldl (fun counts f =>
    foldl (fun counts import => if ends_with import (lit ".*") then counts else bump counts import) counts (fs_imports f))
    [] files.

(** The declarations of a file, most used first, with their rendered lines. *)
Definition decl_cmp (r : Ranking) (f : FileSkeleton) (left right : Declaration) : comparison :=
  then_cmp (cmp (weight_of r f right) (weight_of r f left)) (cmp (d_line left) (d_line right)).
Definition signatures_in_reference_order (f : FileSkeleton) (r : Ranking) (compact : bool) : list str :=
  omap (fun d => rendered_signature f d compact) (sort_by (decl_cmp r f) (fs_declarations f)).
Definition matching_signatures (f : FileSkeleton) (r : Ranking) (matcher : str -> bool) : list str :=
  omap (fun d => rendered_signature f d true)
    (sort_by (decl_cmp r f) (filter (fun d => matcher (d_name d) = true) (fs_declarations f))).

(** ** Emission units *)

Record EmitUnit := mkUnit { un_file_index : option nat; un_text : str }.
Definition unit_header (path : str) : EmitUnit := mkUnit None (lit "## " ++ path).
Definition unit_declaration (file_index : nat) (text : str) : EmitUnit := mkUnit (Some file_index) text.
Definition is_header (u : EmitUnit) : bool := match un_file_index u with None => true | Some _ => false end.

(** [str::trim_start_matches("## ")]: every leading copy. *)
Fixpoint trim_headings (s : str) : str :=
  match s with
  | a :: b :: c :: s' => if bool_decide ([a; b; c] = lit "## ") then trim_headings s' else s
  | _ => s
  end.
(** One turn of the loop of [regroup]: [files.last_mut()]. *)
Definition regroup_unit (files : list MappedFile) (u : EmitUnit) : list MappedFile :=
  if is_header u then files ++ [mkMapped (trim_headings (un_text u)) []]
  else match last files with
       | Some current =>
           take (length files - 1) files ++ [mkMapped (mf_path current) (mf_declarations current ++ [un_text u])]
       | None => files
       end.
Definition regroup (units : list EmitUnit) : list MappedFile :=
  filter (fun f => mf_declarations f ≠ []) (foldl regroup_unit [] units).

(** The loop both sections run: candidate paths so far, their units, and files with nothing to show. *)
Record Gathered := mkGathered { ga_units : list EmitUnit; ga_paths : list str; ga_empty : nat; ga_total : nat }.
Definition gather_file (signatures : FileSkeleton -> list str) (g : Gathered) (f : FileSkeleton) : Gathered :=
  match signatures f with
  | [] => mkGathered (ga_units g) (ga_paths g) (ga_empty g + 1) (ga_total g)
  | sigs =>
      let index := length (ga_paths g) in
      mkGathered (ga_units g ++ unit_header (fs_path f) :: (unit_declaration index <$> sigs))
        (ga_paths g ++ [fs_path f]) (ga_empty g) (ga_total g + length sigs)
  end.
Definition gather (signatures : FileSkeleton -> list str) (ordered : list FileSkeleton) : Gathered :=
  foldl (gather_file signatures) (mkGathered [] [] 0 0) ordered.

(** ** What was left out *)

Definition OMISSION_SUMMARY_BUDGET_FRACTION : N := 4.

Definition omitted_from (candidate_paths : list str) (emitted : list EmitUnit) : list str :=
  let shown := mf_path <$> regroup emitted in
  filter (fun path => path ∉ shown) candidate_paths.
Definition parent_directory (path : str) : str :=
  match rsplit_once (ch "/") path with Some (directory, _) => directory | None => lit "." end.
Definition directory_cmp (left right : OmittedDirectory) : comparison :=
  then_cmp (cmp (od_files right) (od_files left)) (cmp (od_path left) (od_path right)).
Definition group_omitted (paths : list str) : list OmittedDirectory :=
  let by_directory := foldl (fun counts path => bump counts (parent_directory path)) [] paths in
  sort_by directory_cmp ((fun e => mkOmittedDir e.1 e.2) <$> by_directory).

(** [shown] never exceeds the number of directories where the line is built. *)
Definition omitted_directories_line (directories : list OmittedDirectory) (shown : nat) : option str :=
  if bool_decide (directories = []) || (shown =? 0) then None
  else
    let named := join (lit ", ")
      ((fun d => od_path d ++ lit " (" ++ dec (od_files d) ++ lit ")") <$> take shown directories) in
    let remaining := length directories - shown in
    Some (lit "Omitted: " ++ named
          ++ if 0 <? remaining then lit ", and " ++ dec (N.of_nat remaining) ++ lit " more directories" else []).
Definition files_without_public_declarations_line (count : nat) : option str :=
  match count with
  | 0 => None
  | 1 => Some (lit "1 file declares nothing public and is not mapped.")
  | many => Some (dec (N.of_nat many) ++ lit " files declare nothing public and are not mapped.")
  end.

Definition restrict_to_path (files : list FileSkeleton) (substrings : list str) : option (list FileSkeleton) :=
  if bool_decide (substrings = []) then None
  else Some (filter (fun f => existsb (contains_str (fs_path f)) substrings = true) files).

(** ** [build_repo_map] *)

Section build.
Context {F : Type} `{FloatOps F} `{TokenEstimator} (page_rank_default : PageRankOptions F).

Definition package_scores (files : list FileSkeleton) : option (list (str * F)) :=
  graph ← build_import_graph files PackageLevel;
  let edges := (fun e => (de_from e, de_to e)) <$> ig_edges graph in
  let ranked := page_rank (from_edges edges) page_rank_default in
  Some (bt_of_list ((fun n => (node n, score n)) <$> ranked)).
Definition score_of (scores : list (str * F)) (f : FileSkeleton) : F :=
  default fzero (package ← fs_package f; bt_get package scores).

Definition file_cmp (scores : list (str * F)) (r : Ranking) (left right : FileSkeleton) : comparison :=
  then_cmp (default Eq (partial_cmp (score_of scores right) (score_of scores left)))
    (then_cmp (cmp (file_weight r right) (file_weight r left)) (cmp (fs_path left) (fs_path right))).

Definition summary_reserve (dropped : list str) (budget : N) : N :=
  if bool_decide (dropped = []) then 0%N
  else
    let directories := group_omitted dropped in
    let full_line := default [] (omitted_directories_line directories (length directories)) in
    N.min (estimate full_line) (budget / OMISSION_SUMMARY_BUDGET_FRACTION).

(** [(1..=directories.len()).rev().find(..).unwrap_or(0)]. *)
Fixpoint fit_from (directories : list OmittedDirectory) (room : N) (shown : nat) : nat :=
  match shown with
  | O => 0
  | S fewer =>
      match omitted_directories_line directories shown with
      | Some line => if (estimate line <=? room)%N then shown else fit_from directories room fewer
      | None => fit_from directories room fewer
      end
  end.
Definition fit_directories (directories : list OmittedDirectory) (room : N) : nat :=
  fit_from directories room (length directories).

Record FocusBuild := mkFocusBuild { fb_matches : option FocusMatches; fb_tokens : N; fb_match_files : nat }.
Definition build_focus_section (ordered : list FileSkeleton) (r : Ranking) (input : RepoMapInput) : option FocusBuild :=
  match mi_focus input with
  | None => Some (mkFocusBuild None 0 0)
  | Some spec =>
      let g := gather (fun f => matching_signatures f r (matcher spec)) ordered in
      let emission := emit_within_budget un_text (ga_units g) (mi_budget input) in
      let files := regroup (items emission) in
      let shown := sum_list ((length ∘ mf_declarations) <$> files) in
      omitted ← checked_sub (N.of_nat (ga_total g)) (N.of_nat shown);
      Some (mkFocusBuild (Some (mkFocusMatches (focus_pattern spec) files omitted)) (token_upper_bound emission)
              (length (ga_paths g)))
  end.

Definition focus_only_map (fb : FocusBuild) (candidate_files files_without_public : nat) (budget : N) : option RepoMap :=
  others ← checked_sub (N.of_nat candidate_files) (N.of_nat (fb_match_files fb));
  Some (mkMap None (fb_matches fb) (Some false) (Some others) [] budget (fb_tokens fb) 0 [] 0 files_without_public).

(** The part that emits the ranked map, from the gathered candidates and what the focus left. *)
Definition ranked_map (input : RepoMapInput) (path_filter : option PathFilter) (fb : FocusBuild) (g : Gathered)
    (map_budget : N) : option RepoMap :=
  let full := emit_within_budget un_text (ga_units g) map_budget in
  let reserve := summary_reserve (omitted_from (ga_paths g) (items full)) map_budget in
  emission ← (if (reserve =? 0)%N then Some full
              else rest ← checked_sub map_budget reserve; Some (emit_within_budget un_text (ga_units g) rest));
  let omitted := omitted_from (ga_paths g) (items emission) in
  let omitted_directories := group_omitted omitted in
  room_for_summary ← checked_sub map_budget (token_upper_bound emission);
  let omitted_directories_shown := fit_directories omitted_directories room_for_summary in
  let summary_cost :=
    match omitted_directories_line omitted_directories omitted_directories_shown with
    | Some line => estimate line
    | None => 0%N
    end in
  Some (mkMap path_filter (fb_matches fb) (match mi_focus input with Some _ => Some true | None => None end) None
          (regroup (items emission)) (mi_budget input) (fb_tokens fb + token_upper_bound emission + summary_cost)%N
          (length omitted) omitted_directories omitted_directories_shown (ga_empty g)).

Definition restricted_files (input : RepoMapInput) : list FileSkeleton :=
  default (mi_files input) (restrict_to_path (mi_files input) (mi_path input)).
Definition applied_path_filter (input : RepoMapInput) : option PathFilter :=
  if bool_decide (mi_path input = []) then None
  else Some (mkPathFilter (mi_path input) (length (mi_files input)) (length (restricted_files input))).
Definition ranking_of (input : RepoMapInput) : Ranking :=
  mkRanking (mi_references input) (importer_counts (restricted_files input)).

(** The rank order of the files, most central first. *)
Definition ordered_files (input : RepoMapInput) : option (list FileSkeleton) :=
  scores ← package_scores (restricted_files input);
  Some (sort_by (file_cmp scores (ranking_of input)) (restricted_files input)).

Definition build_repo_map (input : RepoMapInput) : option RepoMap :=
  let ranking := ranking_of input in
  ordered ← ordered_files input;
  fb ← build_focus_section ordered ranking input;
  map_budget ← checked_sub (mi_budget input) (fb_tokens fb);
  let g := gather (fun f => signatures_in_reference_order f ranking (mi_compact input)) ordered in
  match mi_focus input, mi_fill input with
  | Some _, false =>
      m ← focus_only_map fb (length (ga_paths g)) (ga_empty g) (mi_budget input);
      Some (mkMap (applied_path_filter input) (m_focus m) (m_fill m) (m_other_files_not_mapped m) (m_files m)
              (m_budget m) (m_token_upper_bound m) (m_files_omitted m) (m_omitted_directories m)
              (m_omitted_directories_shown m) (m_files_without_public_declarations m))
  | _, _ => ranked_map input (applied_path_filter input) fb g map_budget
  end.

End build.

Definition with_files (i : RepoMapInput) (files : list FileSkeleton) : RepoMapInput :=
  mkMapInput files (mi_references i) (mi_budget i) (mi_path i) (mi_compact i) (mi_focus i) (mi_fill i).

(** ** Lemmas: gathering *)

(** The files with something to show, each with its lines, and the units of one of them. *)
Definition candidates (signatures : FileSkeleton -> list str) (ordered : list FileSkeleton) : list (str * list str) :=
  filter (fun c => c.2 ≠ []) ((fun f => (fs_path f, signatures f)) <$> ordered).
Definition unit_group (index : nat) (c : str * list str) : list EmitUnit :=
  unit_header c.1 :: (unit_declaration index <$> c.2).
Definition unit_groups (start : nat) (cs : list (str * list str)) : list (list EmitUnit) :=
  imap (fun i c => unit_group (start + i) c) cs.

Lemma unit_groups_cons start c cs : unit_groups start (c :: cs) = unit_group start c :: unit_groups (S start) cs.
Proof.
  unfold unit_groups. rewrite imap_cons. rewrite Nat.add_0_r. f_equal. apply imap_ext. intros i x _. simpl. f_equal. lia.
Qed.

Lemma gather_spec signatures ordered :
  let cs := candidates signatures ordered in
  gather signatures ordered =
  mkGathered (concat (unit_groups 0 cs)) cs.*1 (length ordered - length cs) (sum_list ((length ∘ snd) <$> cs)) /\
  length cs <= length ordered.
Proof.
  unfold gather, candidates. induction ordered as [|f l [IH Hle]] using rev_ind; [done|].
  rewrite foldl_app, fmap_app, filter_app. cbn [foldl]. rewrite IH. unfold gather_file. csimpl. rewrite filter_cons.
  destruct (signatures f) as [|s sigs] eqn:Es; simpl.
  - rewrite filter_nil, app_nil_r, length_app. simpl. split; [f_equal; lia|lia].
  - rewrite filter_nil. unfold unit_groups. rewrite imap_app, concat_app, !fmap_app, sum_list_with_app, !length_app. simpl.
    rewrite length_fmap, Nat.add_0_r, !app_nil_r. unfold unit_group. simpl. split; [f_equal; lia|lia].
Qed.

(** ** Lemmas: regrouping *)

Definition mapped (c : str * list str) : MappedFile := mkMapped (trim_headings (lit "## " ++ c.1)) c.2.

Lemma regroup_declarations files path ds index sigs :
  foldl regroup_unit (files ++ [mkMapped path ds]) (unit_declaration index <$> sigs) = files ++ [mkMapped path (ds ++ sigs)].
Proof.
  revert ds. induction sigs as [|s sigs IH]; intros ds; csimpl; [by rewrite app_nil_r|].
  unfold regroup_unit at 2. cbn [is_header un_file_index unit_declaration]. rewrite last_snoc, length_app. simpl length.
  rewrite Nat.add_sub, take_app_length. cbn [mf_path mf_declarations un_text]. rewrite IH, <- app_assoc. done.
Qed.

Lemma regroup_group files index c :
  foldl regroup_unit files (unit_group index c) = files ++ [mapped c].
Proof. unfold unit_group. cbn [foldl]. apply (regroup_declarations files _ []). Qed.

Lemma regroup_groups files start cs :
  foldl regroup_unit files (concat (unit_groups start cs)) = files ++ (mapped <$> cs).
Proof.
  revert files start. induction cs as [|c cs IH]; intros files start; [by rewrite app_nil_r|].
  rewrite unit_groups_cons. cbn [concat]. rewrite foldl_app, regroup_group, IH, <- app_assoc. done.
Qed.

(** A prefix of a concatenation: whole pieces, then a proper part of the next. *)
Lemma prefix_of_concat {A} (l : list A) (gs : list (list A)) :
  l `prefix_of` concat gs ->
  l = concat gs \/ exists done_ g rest p, gs = done_ ++ g :: rest /\ l = concat done_ ++ p /\ p `prefix_of` g /\ p <> g.
Proof.
  revert l. induction gs as [|g gs IH]; intros l Hl; cbn [concat] in *.
  { left. by apply prefix_nil_inv in Hl. }
  assert (g `prefix_of` g ++ concat gs) as Hg by by eexists.
  assert (g `prefix_of` l \/ (l `prefix_of` g /\ l <> g)) as [[k ->]|[Hlg Hne]].
  { destruct (prefix_weak_total _ _ _ Hl Hg) as [[[|x k] E]|]; [left|right|by left].
    - exists []. by rewrite E, app_nil_r, app_nil_r.
    - split; [by exists (x :: k)|]. intros ->. apply (f_equal length) in E. rewrite length_app in E. simpl in E. lia. }
  - apply prefix_app_inv in Hl. destruct (IH k Hl) as [->|(d & g' & rest & p & -> & -> & Hp)]; [by left|right].
    exists (g :: d), g', rest, p. cbn. by rewrite <- app_assoc.
  - right. by exists [], g, gs, l.
Qed.

(** What a cut of the units shows: whole files, then possibly the first lines of one more. *)
Definition cut (cs : list (str * list str)) (files : list MappedFile) : Prop :=
  files = mapped <$> cs \/
  exists done_ c rest n, cs = done_ ++ c :: rest /\ n < length c.2 /\
    files = (mapped <$> done_) ++ (if n =? 0 then [] else [mapped (c.1, take n c.2)]).

Lemma unit_groups_app start cs cs' :
  unit_groups start (cs ++ cs') = unit_groups start cs ++ unit_groups (start + length cs) cs'.
Proof.
  unfold unit_groups. rewrite imap_app. f_equal. apply imap_ext. intros i c _. simpl. f_equal. lia.
Qed.

Lemma unit_groups_split start cs gs g gs' :
  unit_groups start cs = gs ++ g :: gs' ->
  exists done_ c rest, cs = done_ ++ c :: rest /\ gs = unit_groups start done_ /\ g = unit_group (start + length done_) c.
Proof.
  revert start gs. induction cs as [|c cs IH]; intros start gs E; [by destruct gs|].
  rewrite unit_groups_cons in E. destruct gs as [|g' gs]; injection E as <- E.
  - exists [], c, cs. by rewrite Nat.add_0_r.
  - destruct (IH _ _ E) as (d & c' & rest & -> & -> & ->). exists (c :: d), c', rest.
    rewrite unit_groups_cons. split_and!; [done|done|]. f_equal. simpl. lia.
Qed.

Lemma regroup_prefix cs units :
  Forall (fun c => c.2 ≠ []) cs -> units `prefix_of` concat (unit_groups 0 cs) -> cut cs (regroup units).
Proof.
  intros Hcs Hp. unfold regroup. destruct (prefix_of_concat _ _ Hp) as [->|(gs & g & gs' & p & E & -> & [k Hg] & Hne)].
  - left. rewrite regroup_groups. apply filter_all, Forall_fmap. exact Hcs.
  - right. apply unit_groups_split in E as (done_ & c & rest & -> & -> & ->). exists done_, c, rest.
    apply Forall_app in Hcs as [Hd [Hc _]%Forall_cons].
    assert (filter (fun f => mf_declarations f ≠ []) (mapped <$> done_) = mapped <$> done_) as Hall
      by (apply filter_all, Forall_fmap; exact Hd).
    rewrite foldl_app, regroup_groups, app_nil_l. destruct p as [|u p].
    + exists 0. split_and!; [done|destruct c.2; [done|simpl; lia]|]. cbn [foldl]. by rewrite Hall, app_nil_r.
    + injection Hg as <- Hg. apply fmap_app_inv in Hg as (s1 & s2 & -> & -> & Es). exists (length s1).
      rewrite Es, take_app_length. split_and!; [done| |].
      * destruct s2; [|rewrite length_app; simpl; lia]. exfalso. apply Hne. unfold unit_group. by rewrite Es, app_nil_r.
      * match goal with |- context [foldl regroup_unit _ (_ :: (unit_declaration ?i <$> s1))] =>
          change (foldl regroup_unit (mapped <$> done_) (unit_header c.1 :: (unit_declaration i <$> s1)))
            with (foldl regroup_unit (mapped <$> done_) (unit_group i (c.1, s1))) end.
        rewrite regroup_group, filter_app, Hall. f_equal. destruct s1; [done|]. by rewrite filter_cons_True.
Qed.

(** ** Lemmas: what a cut shows *)

(** Paths a heading can carry unchanged. *)
Definition plain_path (path : str) : Prop := starts_with path (lit "## ") = false.

Lemma trim_headings_plain path : plain_path path -> trim_headings (lit "## " ++ path) = path.
Proof.
  unfold plain_path. intros Hp. change (trim_headings (lit "## " ++ path)) with (trim_headings path).
  destruct path as [|a [|b [|c s]]]; try done. cbn [trim_headings]. case_bool_decide as E; [|done].
  injection E as -> -> ->. by destruct s.
Qed.

Lemma cut_shown cs files :
  Forall (fun c => c.2 ≠ []) cs -> Forall plain_path cs.*1 -> cut cs files ->
  length files <= length cs /\ mf_path <$> files = take (length files) cs.*1 /\
  (forall i f c, files !! i = Some f -> cs !! i = Some c ->
    mf_declarations f <> [] /\ mf_declarations f `prefix_of` c.2 /\ (S i < length files -> mf_declarations f = c.2)).
Proof.
  intros Hcs Hplain Hcut.
  assert (forall cs, Forall plain_path cs.*1 -> mf_path <$> (mapped <$> cs) = cs.*1) as Hpaths.
  { clear. intros cs Hp. rewrite <- list_fmap_compose. induction cs as [|c cs IH]; [done|].
    csimpl. apply Forall_cons in Hp as [Hc Hp]. rewrite (IH Hp). f_equal. by apply trim_headings_plain. }
  destruct Hcut as [->|(done_ & c & rest & n & -> & Hn & ->)].
  - rewrite length_fmap. split_and!; [done| |].
    + rewrite (Hpaths cs Hplain), take_ge; [done|by rewrite length_fmap].
    + intros i f c Hf Hc. rewrite list_lookup_fmap, Hc in Hf. injection Hf as <-. split_and!; [|done|done].
      rewrite Forall_forall in Hcs. apply (Hcs c). by eapply list_elem_of_lookup_2.
  - apply Forall_app in Hcs as [Hd _]. rewrite fmap_app, fmap_cons in Hplain. apply Forall_app in Hplain as [Hpd [Hpc _]%Forall_cons].
    set (partial := if n =? 0 then [] else _).
    assert (length partial <= 1 /\ mf_path <$> partial = take (length partial) [c.1]) as [Hl Hpp].
    { unfold partial. destruct (n =? 0); [split; [simpl; lia|done]|]. split; [done|]. simpl. f_equal. by apply trim_headings_plain. }
    rewrite !length_app, !length_fmap. simpl length. split_and!; [lia| |].
    + rewrite !fmap_app, fmap_cons, Hpaths, Hpp by done. rewrite take_app, length_fmap, Nat.add_comm, Nat.add_sub.
      rewrite (take_ge done_.*1) by (rewrite length_fmap; lia). f_equal. destruct (length partial) as [|[|k]]; [done|done|lia].
    + intros i f c' Hf Hc'. destruct (decide (i < length done_)).
      * rewrite lookup_app_l in Hf by (by rewrite length_fmap). rewrite lookup_app_l in Hc' by done. rewrite list_lookup_fmap, Hc' in Hf. injection Hf as <-.
        split_and!; [|done|done]. rewrite Forall_forall in Hd. apply (Hd c'). by eapply list_elem_of_lookup_2.
      * rewrite lookup_app_r, length_fmap in Hf by (rewrite length_fmap; lia). rewrite lookup_app_r in Hc' by lia.
        unfold partial in *. destruct n as [|n]; [done|]. simpl in Hf, Hl.
        destruct (i - length done_) as [|k] eqn:Ei; [|done]. injection Hf as <-. injection Hc' as <-. simpl.
        split_and!; [destruct c.2; [simpl in Hn; lia|done]|apply (prefix_take _ (S n))|intros; simpl in *; lia].
Qed.

Lemma filter_not_in_take (n : nat) (l : list str) : NoDup l -> filter (fun x => x ∉ take n l) l = drop n l.
Proof.
  intros Hnd. transitivity (filter (fun x => x ∉ take n l) (take n l ++ drop n l)); [by rewrite take_drop|]. rewrite filter_app.
  rewrite <- (take_drop n l) in Hnd. apply NoDup_app in Hnd as (_ & Hd & _).
  assert (filter (fun x => x ∉ take n l) (take n l) = []) as ->.
  { apply elem_of_nil_inv. by intros x [Hn Hx]%list_elem_of_filter. }
  rewrite app_nil_l. apply filter_all, Forall_forall. intros x Hx Hx'. by apply (Hd x).
Qed.

Lemma omitted_from_cut cs units :
  Forall (fun c => c.2 ≠ []) cs -> Forall plain_path cs.*1 -> NoDup cs.*1 -> cut cs (regroup units) ->
  omitted_from cs.*1 units = drop (length (regroup units)) cs.*1.
Proof.
  intros Hcs Hp Hnd Hcut. unfold omitted_from. destruct (cut_shown _ _ Hcs Hp Hcut) as (_ & -> & _).
  by apply filter_not_in_take.
Qed.

Lemma cut_total cs files :
  cut cs files -> sum_list ((length ∘ mf_declarations) <$> files) <= sum_list ((length ∘ snd) <$> cs).
Proof.
  assert (forall cs, sum_list ((length ∘ mf_declarations) <$> (mapped <$> cs)) = sum_list ((length ∘ snd) <$> cs)) as Hm
    by (intros l; by rewrite <- list_fmap_compose).
  intros [->|(done_ & c & rest & n & -> & Hn & ->)]; [by rewrite Hm|].
  rewrite !fmap_app, !sum_list_with_app, Hm. csimpl. destruct (n =? 0); csimpl; [lia|]. rewrite length_take. lia.
Qed.

(** ** Lemmas: directories *)

Definition directory_total (l : list (str * N)) : nat := sum_list ((N.to_nat ∘ snd) <$> l).

Lemma bump_total counts k : directory_total (bump counts k) = S (directory_total counts).
Proof.
  unfold directory_total, bump. induction counts as [|[k' v] m IH]; [done|]. cbn [bt_upsert].
  destruct (cmp k k'); csimpl; [lia|lia|]. rewrite IH. lia.
Qed.

Lemma group_omitted_total paths : sum_list ((N.to_nat ∘ od_files) <$> group_omitted paths) = length paths.
Proof.
  unfold group_omitted. rewrite (sort_by_perm directory_cmp), <- list_fmap_compose.
  change (directory_total (foldl (fun counts path => bump counts (parent_directory path)) [] paths) = length paths).
  induction paths as [|p l IH] using rev_ind; [done|]. rewrite foldl_app, length_app. cbn [foldl]. rewrite bump_total, IH. simpl. lia.
Qed.

Lemma fit_from_spec `{TokenEstimator} directories room n :
  fit_from directories room n <= n /\
  match omitted_directories_line directories (fit_from directories room n) with
  | Some line => (estimate line <= room)%N
  | None => True
  end.
Proof.
  induction n as [|n [IHle IH]]; cbn [fit_from].
  - unfold omitted_directories_line. by rewrite orb_true_r.
  - destruct (omitted_directories_line directories (S n)) as [line|] eqn:E; [|split; [lia|done]].
    destruct (N.leb_spec (estimate line) room); [|split; [lia|done]]. rewrite E. done.
Qed.

(** ** Lemmas: the ranked map *)

Section map_lemmas.
Context {F : Type} `{FloatOps F} `{TokenEstimator} (page_rank_default : PageRankOptions F).

Definition summary_cost (m : RepoMap) : N :=
  match omitted_directories_line (m_omitted_directories m) (m_omitted_directories_shown m) with
  | Some line => estimate line
  | None => 0%N
  end.

Lemma summary_reserve_le dropped budget : (summary_reserve dropped budget <= budget)%N.
Proof.
  unfold summary_reserve. case_bool_decide; [lia|]. unfold OMISSION_SUMMARY_BUDGET_FRACTION.
  pose proof (N.Div0.div_le_upper_bound budget 4 budget ltac:(lia)). lia.
Qed.

Lemma ranked_map_spec input path_filter fb g map_budget :
  is_usize map_budget ->
  exists m units, ranked_map input path_filter fb g map_budget = Some m /\
    units `prefix_of` ga_units g /\ m_files m = regroup units /\
    m_token_upper_bound m = (fb_tokens fb + cost_of un_text units + summary_cost m)%N /\
    (m_token_upper_bound m <= fb_tokens fb + map_budget)%N /\
    m_focus m = fb_matches fb /\ m_budget m = mi_budget input /\ m_path_filter m = path_filter /\
    m_files_omitted m = length (omitted_from (ga_paths g) units) /\
    m_omitted_directories m = group_omitted (omitted_from (ga_paths g) units) /\
    m_omitted_directories_shown m <= length (m_omitted_directories m) /\
    m_files_without_public_declarations m = ga_empty g /\ m_other_files_not_mapped m = None.
Proof.
  intros Hb. unfold ranked_map. set (full := emit_within_budget un_text (ga_units g) map_budget).
  set (reserve := summary_reserve _ _). pose proof (summary_reserve_le (omitted_from (ga_paths g) (items full)) map_budget) as Hr.
  fold reserve in Hr.
  assert (exists b, (b <= map_budget)%N /\ (if (reserve =? 0)%N then Some full
    else rest ← checked_sub map_budget reserve; Some (emit_within_budget un_text (ga_units g) rest)) =
    Some (emit_within_budget un_text (ga_units g) b)) as (b & Hle & ->).
  { destruct (reserve =? 0)%N; [by exists map_budget|]. rewrite checked_sub_le by done. simpl.
    exists (map_budget - reserve)%N. split; [lia|done]. }
  assert (is_usize b) as Hb' by (unfold is_usize in *; lia).
  destruct (emit_within_budget_spec un_text (ga_units g) b Hb') as (rest & Hin & Hcost & Hbound & _).
  set (e := emit_within_budget un_text (ga_units g) b) in *. cbn [mbind option_bind].
  rewrite checked_sub_le by lia. cbn [mbind option_bind].
  set (dirs := group_omitted _). set (room := (map_budget - token_upper_bound e)%N).
  destruct (fit_from_spec dirs room (length dirs)) as [Hfit Hline]. fold (fit_directories dirs room) in Hfit, Hline.
  eexists _, (items e). split; [done|]. cbn. split_and!; try done; unfold summary_cost; cbn.
  - by exists rest.
  - by rewrite Hcost.
  - destruct (omitted_directories_line _ _); lia.
Qed.

Lemma package_scores_some files :
  (N.of_nat (length files) < usize_max)%N ->
  package_scores page_rank_default files =
  Some (bt_of_list ((fun n => (node n, score n)) <$> page_rank (from_edges (edge_pairs files PackageLevel)) page_rank_default)).
Proof.
  intros Hfit. destruct (build_import_graph_edges files PackageLevel Hfit) as (g & E & He).
  unfold package_scores. rewrite E. simpl. by rewrite He.
Qed.

Lemma restricted_le input : length (restricted_files input) <= length (mi_files input).
Proof.
  unfold restricted_files, restrict_to_path. case_bool_decide; simpl; [done|]. apply length_filter.
Qed.

Lemma ordered_files_some input :
  (N.of_nat (length (mi_files input)) < usize_max)%N ->
  exists ordered, ordered_files page_rank_default input = Some ordered /\ ordered ≡ₚ restricted_files input.
Proof.
  intros Hfit. unfold ordered_files. pose proof (restricted_le input). rewrite package_scores_some by lia. simpl.
  eexists. split; [done|]. apply sort_by_perm.
Qed.

Lemma rendered_signature_compact f d c c' : is_Some (rendered_signature f d c) -> is_Some (rendered_signature f d c').
Proof. unfold rendered_signature. destruct (signature_of f d); simpl; [by eexists|by intros []]. Qed.

(** A file the focus matches has something to show in the ranked map too. *)
Lemma matching_shown f r matcher c :
  matching_signatures f r matcher <> [] -> signatures_in_reference_order f r c <> [].
Proof.
  intros Hm Hs. apply Hm. unfold matching_signatures, signatures_in_reference_order in *.
  assert (forall d, d ∈ fs_declarations f -> rendered_signature f d c = None) as Hnone.
  { intros d Hd. destruct (rendered_signature f d c) as [s|] eqn:E; [|done].
    assert (s ∈ omap (fun d => rendered_signature f d c) (sort_by (decl_cmp r f) (fs_declarations f))) as Hin.
    { apply list_elem_of_omap. exists d. by rewrite sort_by_perm. }
    rewrite Hs in Hin. by apply elem_of_nil in Hin. }
  apply elem_of_nil_inv. intros s (d & Hd & E)%list_elem_of_omap. rewrite sort_by_perm in Hd.
  apply list_elem_of_filter in Hd as [_ Hd]. destruct (rendered_signature_compact f d true c) as [s' Es']; [by eexists|].
  by rewrite (Hnone d Hd) in Es'.
Qed.

Lemma candidates_le (s s' : FileSkeleton -> list str) ordered :
  (forall f, s f <> [] -> s' f <> []) -> length (candidates s ordered) <= length (candidates s' ordered).
Proof.
  intros Hss. unfold candidates. induction ordered as [|f l IH]; [done|]. rewrite !fmap_cons, !filter_cons. simpl.
  destruct (decide (s f ≠ [])) as [Hs|Hs], (decide (s' f ≠ [])) as [Hs'|Hs']; simpl; try lia. by destruct Hs'; apply Hss.
Qed.

Lemma build_focus_section_spec ordered r input :
  is_usize (mi_budget input) ->
  exists fb units, build_focus_section ordered r input = Some fb /\
    fb_tokens fb = cost_of un_text units /\ (fb_tokens fb <= mi_budget input)%N /\
    match mi_focus input with
    | None => units = [] /\ fb_matches fb = None /\ fb_match_files fb = 0
    | Some spec =>
        let cs := candidates (fun f => matching_signatures f r (matcher spec)) ordered in
        exists fm, fb_matches fb = Some fm /\ fm_pattern fm = focus_pattern spec /\ fm_files fm = regroup units /\
          cut cs (regroup units) /\ fb_match_files fb = length cs /\
          (fm_omitted fm + N.of_nat (sum_list ((length ∘ mf_declarations) <$> fm_files fm)) =
           N.of_nat (sum_list ((length ∘ snd) <$> cs)))%N
    end.
Proof.
  intros Hb. unfold build_focus_section. destruct (mi_focus input) as [spec|].
  2: { exists (mkFocusBuild None 0 0), []. split_and!; try done. simpl. lia. }
  destruct (gather_spec (fun f => matching_signatures f r (matcher spec)) ordered) as [-> _].
  set (cs := candidates _ ordered). cbn [ga_units ga_total ga_paths].
  destruct (emit_within_budget_spec un_text (concat (unit_groups 0 cs)) _ Hb) as (rest & Hin & Hcost & Hbound & _).
  set (e := emit_within_budget _ _ _) in *.
  assert (cut cs (regroup (items e))) as Hcut.
  { apply regroup_prefix; [|by exists rest]. apply Forall_forall. by intros c [Hc _]%list_elem_of_filter. }
  pose proof (cut_total _ _ Hcut) as Ht. rewrite checked_sub_le by lia. cbn [mbind option_bind].
  eexists _, (items e). split; [done|]. cbn. split_and!; [done|done|]. rewrite length_fmap.
  eexists. split_and!; [done|done|done|done|done|]. cbn. lia.
Qed.

Lemma build_repo_map_spec input :
  is_usize (mi_budget input) -> (N.of_nat (length (mi_files input)) < usize_max)%N ->
  exists ordered fb focus_units m,
    ordered_files page_rank_default input = Some ordered /\ ordered ≡ₚ restricted_files input /\
    build_focus_section ordered (ranking_of input) input = Some fb /\ fb_tokens fb = cost_of un_text focus_units /\
    match fb_matches fb with Some fm => fm_files fm = regroup focus_units | None => focus_units = [] end /\
    build_repo_map page_rank_default input = Some m /\
    m_budget m = mi_budget input /\ m_focus m = fb_matches fb /\ m_path_filter m = applied_path_filter input /\
    let cs := candidates (fun f => signatures_in_reference_order f (ranking_of input) (mi_compact input)) ordered in
    m_files_without_public_declarations m = length (restricted_files input) - length cs /\
    length cs <= length (restricted_files input) /\
    exists units,
      m_token_upper_bound m = (fb_tokens fb + cost_of un_text units + summary_cost m)%N /\
      (m_token_upper_bound m <= mi_budget input)%N /\ m_files m = regroup units /\
      if bool_decide (is_Some (mi_focus input)) && negb (mi_fill input)
      then units = [] /\ m_files_omitted m = 0 /\ m_omitted_directories m = [] /\
           exists others, m_other_files_not_mapped m = Some others /\
             (others + N.of_nat (fb_match_files fb) = N.of_nat (length cs))%N
      else units `prefix_of` concat (unit_groups 0 cs) /\ m_other_files_not_mapped m = None /\
           m_files_omitted m = length (omitted_from cs.*1 units) /\
           m_omitted_directories m = group_omitted (omitted_from cs.*1 units) /\
           m_omitted_directories_shown m <= length (m_omitted_directories m).
Proof.
  intros Hb Hfit. destruct (ordered_files_some input Hfit) as (ordered & Eo & Hperm).
  destruct (build_focus_section_spec ordered (ranking_of input) input Hb) as (fb & fus & Ef & Hft & Hfb & Hfocus).
  exists ordered, fb, fus. unfold build_repo_map. rewrite Eo. cbn [mbind option_bind]. rewrite Ef. cbn [mbind option_bind].
  rewrite checked_sub_le by done. cbn [mbind option_bind].
  destruct (gather_spec (fun f => signatures_in_reference_order f (ranking_of input) (mi_compact input)) ordered) as [Eg Hle].
  rewrite Eg. set (cs := candidates _ ordered) in *. rewrite (Permutation_length Hperm) in Hle, Eg |- *.
  set (g := mkGathered _ _ _ _) in *.
  assert (match fb_matches fb with Some fm => fm_files fm = regroup fus | None => fus = [] end) as Hm.
  { destruct (mi_focus input) as [spec|]; [destruct Hfocus as (fm & -> & _ & -> & _); done|by destruct Hfocus as (-> & -> & _)]. }
  assert (is_usize (mi_budget input - fb_tokens fb)) as Hu by (unfold is_usize in *; lia).
  destruct (ranked_map_spec input (applied_path_filter input) fb g _ Hu)
    as (m & units & Em & Hp & Hf & Ht & Htle & Hmf & Hmb & Hmp & Homit & Hdirs & Hshown & Hempty & Hother).
  destruct (bool_decide (is_Some (mi_focus input)) && negb (mi_fill input)) eqn:Ekind.
  - apply andb_true_iff in Ekind as [Hs%bool_decide_eq_true Hfill%negb_true_iff].
    destruct (mi_focus input) as [spec|]; [|by destruct Hs]. rewrite Hfill.
    destruct Hfocus as (fm & Efm & _ & _ & _ & Hmatch & _).
    assert (fb_match_files fb <= length cs) as Hcs.
    { rewrite Hmatch. apply candidates_le. intros f. apply matching_shown. }
    unfold focus_only_map. cbn [g ga_paths ga_empty]. rewrite length_fmap, checked_sub_le by lia. cbn [mbind option_bind].
    eexists. split_and!; try done. exists []. cbn. split_and!; try done; [unfold summary_cost; cbn; lia|].
    eexists. split; [done|]. lia.
  - exists m. split_and!; try done.
    + destruct (mi_focus input); [|done]. by destruct (mi_fill input).
    + exists units. split_and!; try done. lia.
Qed.

(** ** Properties *)

(** C7: The map fits its budget and the bound is honest: whatever the files, the filters and the
    focus, the map is built, no subtraction underflows, and the reported bound is exactly the cost of
    the focus units, of the ranked units and of the omission line it prints, and never exceeds the
    requested budget. *)
Theorem repo_map_within_budget input :
  is_usize (mi_budget input) -> (N.of_nat (length (mi_files input)) < usize_max)%N ->
  exists m focus_units units,
    build_repo_map page_rank_default input = Some m /\
    match m_focus m with Some fm => fm_files fm = regroup focus_units | None => focus_units = [] end /\
    m_files m = regroup units /\
    m_token_upper_bound m = (cost_of un_text focus_units + cost_of un_text units + summary_cost m)%N /\
    (m_token_upper_bound m <= m_budget m)%N /\ m_budget m = mi_budget input.
Proof.
  intros Hb Hfit.
  destruct (build_repo_map_spec input Hb Hfit)
    as (ordered & fb & fus & m & _ & _ & _ & Hft & Hfm & Em & Hmb & Hmf & _ & _ & _ & units & Ht & Hle & Hf & _).
  exists m, fus, units. rewrite Hmf, Ht, Hft, Hmb in *. split_and!; done.
Qed.

Lemma candidates_paths signatures ordered : (candidates signatures ordered).*1 `sublist_of` fs_path <$> ordered.
Proof.
  unfold candidates. induction ordered as [|f l IH]; [done|]. rewrite !fmap_cons, filter_cons. cbn [fst snd].
  destruct (decide (signatures f ≠ [])); [by apply sublist_skip|by apply sublist_cons].
Qed.

(** The ranked map accounts for every file. The files it shows are the first ones of the rank
    order that declare anything, each shown with a non-empty initial part of its signatures and all
    but the last with all of them; files shown, files reported as omitted and files reported as
    declaring nothing public are all of the files admitted by the path filter; and the directories
    named in the omission summary count exactly the omitted files. *)
Theorem repo_map_partitions input :
  is_usize (mi_budget input) -> (N.of_nat (length (mi_files input)) < usize_max)%N ->
  (mi_focus input = None \/ mi_fill input = true) ->
  NoDup (fs_path <$> restricted_files input) -> Forall plain_path (fs_path <$> restricted_files input) ->
  exists m ordered, build_repo_map page_rank_default input = Some m /\
    ordered_files page_rank_default input = Some ordered /\ ordered ≡ₚ restricted_files input /\
    let all := candidates (fun f => signatures_in_reference_order f (ranking_of input) (mi_compact input)) ordered in
    let shown := length (m_files m) in
    mf_path <$> m_files m = take shown all.*1 /\
    (forall i f c, m_files m !! i = Some f -> all !! i = Some c ->
      mf_declarations f <> [] /\ mf_declarations f `prefix_of` c.2 /\ (S i < shown -> mf_declarations f = c.2)) /\
    shown + m_files_omitted m + m_files_without_public_declarations m = length (restricted_files input) /\
    m_omitted_directories m = group_omitted (drop shown all.*1) /\
    sum_list ((N.to_nat ∘ od_files) <$> m_omitted_directories m) = m_files_omitted m.
Proof.
  intros Hb Hfit Hkind Hnd Hplain.
  destruct (build_repo_map_spec input Hb Hfit)
    as (ordered & fb & fus & m & Eo & Hperm & _ & _ & _ & Em & _ & _ & _ & Hw & Hle & units & _ & _ & Hf & Hrest).
  exists m, ordered. split_and!; try done. intros all shown. fold all in Hw, Hle, Hrest.
  assert (bool_decide (is_Some (mi_focus input)) && negb (mi_fill input) = false) as Hk.
  { destruct Hkind as [-> | ->]; [by rewrite bool_decide_eq_false_2 by (by intros [])|apply andb_false_r]. }
  rewrite Hk in Hrest. destruct Hrest as (Hp & _ & Homit & Hdirs & _).
  assert (Forall (fun c => c.2 ≠ []) all) as Hne by (apply Forall_forall; by intros c [Hc _]%list_elem_of_filter).
  rewrite <- Hperm in Hnd, Hplain.
  pose proof (candidates_paths (fun f => signatures_in_reference_order f (ranking_of input) (mi_compact input)) ordered) as Hsub.
  fold all in Hsub.
  assert (NoDup all.*1) as Hnd' by by eapply sublist_NoDup.
  assert (Forall plain_path all.*1) as Hp'.
  { rewrite Forall_forall in Hplain |- *. eauto using elem_of_sublist. }
  pose proof (regroup_prefix all units Hne Hp) as Hcut.
  destruct (cut_shown all (regroup units) Hne Hp' Hcut) as (Hl & Hpaths & Hdecls).
  rewrite omitted_from_cut in Homit, Hdirs by done. rewrite <- Hf in *. fold shown in Hl, Hpaths, Homit, Hdirs, Hdecls.
  rewrite length_drop, length_fmap in Homit.
  split_and!; [done|done|lia|done|]. rewrite Hdirs, group_omitted_total, length_drop, length_fmap. lia.
Qed.

(** The focus section is complete: it is present exactly when a focus is asked for, and what it
    lists plus what it reports as omitted is every declaration of an admitted file the matcher
    accepts and the renderer shows. Without [--fill] nothing else is mapped, and the files it holds a
    match in plus the files reported as not mapped are all the files with something to show. *)
Theorem focus_section_complete input spec :
  is_usize (mi_budget input) -> (N.of_nat (length (mi_files input)) < usize_max)%N ->
  mi_focus input = Some spec ->
  let matches f := matching_signatures f (ranking_of input) (matcher spec) in
  let signatures f := signatures_in_reference_order f (ranking_of input) (mi_compact input) in
  exists m fm, build_repo_map page_rank_default input = Some m /\ m_focus m = Some fm /\ fm_pattern fm = focus_pattern spec /\
    (fm_omitted fm + N.of_nat (sum_list ((length ∘ mf_declarations) <$> fm_files fm)) =
     N.of_nat (sum_list ((length ∘ matches) <$> restricted_files input)))%N /\
    (mi_fill input = false ->
      m_files m = [] /\ exists others, m_other_files_not_mapped m = Some others /\
        (others + N.of_nat (length (filter (fun f => matches f ≠ []) (restricted_files input))) =
         N.of_nat (length (filter (fun f => signatures f ≠ []) (restricted_files input))))%N).
Proof.
  intros Hb Hfit Hs matches signatures.
  assert (forall s ordered, ordered ≡ₚ restricted_files input ->
    length (candidates s ordered) = length (filter (fun f => s f ≠ []) (restricted_files input)) /\
    sum_list ((length ∘ snd) <$> candidates s ordered) = sum_list ((length ∘ s) <$> restricted_files input)) as Hcand.
  { intros s ordered <-. unfold candidates. clear. induction ordered as [|f l [IH1 IH2]]; [done|].
    rewrite !fmap_cons, !filter_cons. cbn [fst snd]. destruct (decide (s f ≠ [])) as [|Hn]; csimpl.
    - by rewrite IH1, IH2.
    - rewrite IH1, IH2. apply dec_stable in Hn. by rewrite Hn. }
  destruct (build_repo_map_spec input Hb Hfit)
    as (ordered & fb & fus & m & Eo & Hperm & Efb & _ & _ & Em & _ & Hmf & _ & _ & _ & units & _ & _ & Hf & Hrest).
  destruct (build_focus_section_spec ordered (ranking_of input) input Hb) as (fb' & fus' & Efb' & _ & _ & Hfocus).
  rewrite Efb in Efb'. apply (inj Some) in Efb' as <-. rewrite Hs in Hfocus, Hrest.
  destruct Hfocus as (fm & Efm & Epat & _ & _ & Hmatch & Htotal). fold matches in Hmatch, Htotal.
  destruct (Hcand matches ordered Hperm) as [Hml Hms]. destruct (Hcand signatures ordered Hperm) as [Hsl _].
  exists m, fm. rewrite Hmf, Hms in *. split_and!; try done. intros Hfill. rewrite Hfill in Hrest. cbn in Hrest.
  destruct Hrest as (-> & _ & _ & others & Eothers & Hothers). split; [by rewrite Hf|]. exists others. split; [done|].
  by rewrite <- Hml, <- Hsl, <- Hmatch.
Qed.

End map_lemmas.

(** ** Lemmas: the order the files came in *)

Lemma bump_all_get (l : list str) :
  bt_sorted (foldl bump [] l) /\
  forall k, bt_get k (foldl bump [] l) = if decide (k ∈ l) then Some (N.of_nat (length (filter (k =.) l))) else None.
Proof.
  induction l as [|x l [Hs IH]] using rev_ind; [split; [constructor|done]|]. rewrite foldl_app. cbn [foldl].
  split; [by apply bt_sorted_upsert|]. intros k. unfold bump at 1. rewrite filter_app, length_app, filter_cons, filter_nil.
  destruct (decide (k = x)) as [->|Hne].
  - rewrite bt_get_upsert_eq, IH by done. rewrite (decide_True (P := x ∈ l ++ [x])) by (apply elem_of_app; right; left).
    f_equal. destruct (decide (x ∈ l)) as [|Hx]; cbn [default length]; [simpl; lia|].
    rewrite (proj2 (length_zero_iff_nil _)); [done|]. apply elem_of_nil_inv. by intros y [<- Hy]%list_elem_of_filter.
  - rewrite bt_get_upsert_ne, IH by done. rewrite Nat.add_0_r.
    assert (k ∈ l ++ [x] <-> k ∈ l) as Hin by (rewrite elem_of_app, list_elem_of_singleton; tauto).
    destruct (decide (k ∈ l)), (decide (k ∈ l ++ [x])); tauto.
Qed.

Lemma bump_all_perm l l' : l ≡ₚ l' -> foldl bump [] l = foldl bump [] l'.
Proof.
  intros Hp. destruct (bump_all_get l) as [Hs Hg]. destruct (bump_all_get l') as [Hs' Hg']. apply bt_ext; [done|done|].
  intros k. rewrite Hg, Hg'. rewrite (Permutation_length (filter_Permutation (k =.) _ _ Hp)).
  by destruct (decide (k ∈ l)) as [Hk|Hk], (decide (k ∈ l')) as [Hk'|Hk']; rewrite Hp in Hk.
Qed.

Lemma importer_counts_flat files :
  importer_counts files =
  foldl bump [] (filter (fun import => ends_with import (lit ".*") = false) (concat (fs_imports <$> files))).
Proof.
  unfold importer_counts. induction files as [|f l IH] using rev_ind; [done|].
  rewrite foldl_app, fmap_app, concat_app, filter_app, foldl_app, IH. csimpl. rewrite app_nil_r.
  generalize (foldl bump [] (filter (fun import => ends_with import (lit ".*") = false) (concat (fs_imports <$> l)))).
  induction (fs_imports f) as [|i rest IHi]; intros counts; [done|]. rewrite filter_cons. cbn [foldl].
  destruct (ends_with i (lit ".*")); apply IHi.
Qed.

#[export] Instance importer_counts_proper : Proper ((≡ₚ) ==> (=)) importer_counts.
Proof.
  intros files files' Hp. rewrite !importer_counts_flat. apply bump_all_perm, filter_Permutation.
  induction Hp; csimpl; [done|by f_equiv|by rewrite !app_assoc, (Permutation_app_comm (fs_imports x))|by etransitivity].
Qed.

Lemma file_cmp_then scores r :
  file_cmp (F := Qc) scores r =
  cmp_then (cmp_desc (fun a b => (score_of scores a ?= score_of scores b)%Qc))
    (cmp_then (cmp_desc (cmp_on (file_weight r))) (cmp_on fs_path)).
Proof. reflexivity. Qed.

#[export] Instance file_cmp_pre scores r : CmpPre (file_cmp (F := Qc) scores r).
Proof.
  rewrite file_cmp_then. apply cmp_then_pre; [|apply _]. apply cmp_desc_pre. split; intros *; [apply Qccompare_opp|].
  rewrite <- !Qcle_alt. intros. by eapply Qcle_trans.
Qed.

Lemma file_cmp_path scores r left right :
  file_cmp (F := Qc) scores r left right <> Gt -> file_cmp (F := Qc) scores r right left <> Gt -> fs_path left = fs_path right.
Proof.
  rewrite file_cmp_then. unfold cmp_then, cmp_desc, cmp_on. intros Hl Hr.
  rewrite (Qccompare_opp (score_of scores right)) in Hr.
  destruct (score_of scores right ?= score_of scores left)%Qc; cbn [then_cmp CompOpp] in Hl, Hr; try done.
  rewrite (cmp_opp (file_weight r right)) in Hr.
  destruct (cmp (file_weight r right) (file_weight r left)); cbn [then_cmp CompOpp] in Hl, Hr; try done.
  by apply ord_le_antisymm.
Qed.

Lemma ordered_files_perm (opts : PageRankOptions Qc) input input' :
  (N.of_nat (length (mi_files input)) < usize_max)%N ->
  restricted_files input ≡ₚ restricted_files input' -> mi_references input = mi_references input' ->
  length (mi_files input) = length (mi_files input') ->
  NoDup (fs_path <$> restricted_files input) ->
  ordered_files opts input = ordered_files opts input'.
Proof.
  intros Hfit Hp Href Hlen Hnd. unfold ordered_files, ranking_of.
  pose proof (restricted_le input). pose proof (restricted_le input').
  rewrite !package_scores_some by lia. rewrite (edge_pairs_perm _ _ PackageLevel Hp), Href.
  assert (importer_counts (restricted_files input) = importer_counts (restricted_files input')) as -> by by rewrite Hp.
  cbn [mbind option_bind]. f_equal.
  set (scores := bt_of_list _). set (r := mkRanking _ _).
  apply (sorted_unique_in (file_cmp scores r)); [|apply (sort_by_sorted (file_cmp scores r))..|by rewrite !(sort_by_perm (file_cmp scores r))].
  intros x y Hx Hy Hle Hge. rewrite (sort_by_perm (file_cmp scores r)) in Hx, Hy. pose proof (file_cmp_path scores r x y Hle Hge) as Epath.
  apply list_elem_of_lookup in Hx as [i Hi]. apply list_elem_of_lookup in Hy as [j Hj].
  assert (i = j) as <-; [|congruence]. eapply (NoDup_lookup _ i j); [exact Hnd| |]; rewrite list_lookup_fmap; [by rewrite Hi|].
  rewrite Hj, Epath. done.
Qed.

(** C8: The map is the same on every machine: it does not depend on the order the files were read in,
    as long as no two files share a path - ranking ends on the path, so no tie is left to chance
    (scores in exact arithmetic). *)
Theorem repo_map_order_independent (opts : PageRankOptions Qc) `{TokenEstimator} input files' :
  (N.of_nat (length (mi_files input)) < usize_max)%N ->
  mi_files input ≡ₚ files' -> NoDup (fs_path <$> mi_files input) ->
  build_repo_map opts (with_files input files') = build_repo_map opts input.
Proof.
  intros Hfit Hp Hnd.
  assert (restricted_files input ≡ₚ restricted_files (with_files input files')) as Hr.
  { unfold restricted_files, restrict_to_path. cbn. case_bool_decide; cbn; [done|by apply filter_Permutation]. }
  assert (NoDup (fs_path <$> restricted_files input)) as Hnd'.
  { unfold restricted_files, restrict_to_path. case_bool_decide; cbn; [done|].
    eapply sublist_NoDup; [exact Hnd|]. apply fmap_sublist, sublist_filter. }
  unfold build_repo_map. rewrite <- (ordered_files_perm opts input (with_files input files') Hfit Hr eq_refl) by (done || by apply Permutation_length).
  assert (ranking_of (with_files input files') = ranking_of input) as -> by (unfold ranking_of; by rewrite <- Hr).
  assert (applied_path_filter (with_files input files') = applied_path_filter input) as ->.
  { unfold applied_path_filter. cbn. by rewrite <- (Permutation_length Hr), (Permutation_length Hp). }
  reflexivity.
Qed.

(** ** Witnesses *)

Definition demo_declaration (name : str) (line : N) : Declaration := declaration_new Function_ name line.
Definition demo_file (path : str) (names : list str) : FileSkeleton :=
  mkFile path (Some (lit "shop")) [] ((fun n => demo_declaration n 3) <$> names) false false.
Definition demo_files : list FileSkeleton :=
  [demo_file (lit "a/Cart.kt") [lit "total"; lit "clear"]; demo_file (lit "b/Pay.kt") [lit "pay"]; demo_file (lit "c/Empty.kt") []].
Definition demo_input (budget : N) (focus : option FocusSpec) : RepoMapInput :=
  mkMapInput demo_files (from_counts [(lit "total", 3%N)]) budget [] false focus false.
Definition demo_focus : FocusSpec := mkFocus (lit "pay") (fun name => contains_str name (lit "pay")).

Lemma repo_map_within_budget_witness :
  exists m, build_repo_map (F := Qc) default_options (demo_input 20 (Some demo_focus)) = Some m /\ (m_token_upper_bound m <= 20)%N.
Proof.
  destruct (repo_map_within_budget (F := Qc) default_options (demo_input 20 (Some demo_focus)))
    as (m & _ & _ & E & _ & _ & _ & Hle & Hb); [compute_done|compute_done|].
  exists m. split; [exact E|]. rewrite Hb in Hle. exact Hle.
Defined.

Lemma repo_map_partitions_witness :
  exists m, build_repo_map (F := Qc) default_options (demo_input 30 None) = Some m /\
    length (m_files m) + m_files_omitted m + m_files_without_public_declarations m = 3.
Proof.
  destruct (repo_map_partitions (F := Qc) default_options (demo_input 30 None)) as (m & _ & E & _ & _ & _ & _ & Hsum & _);
    [compute_done|compute_done|by left| |repeat constructor|].
  - apply (bool_decide_unpack _). vm_compute. exact I.
  - exists m. split; [exact E|]. rewrite Hsum. reflexivity.
Defined.

Lemma focus_section_complete_witness :
  exists m fm, build_repo_map (F := Qc) default_options (demo_input 30 (Some demo_focus)) = Some m /\
    m_focus m = Some fm /\ fm_pattern fm = lit "pay".
Proof.
  destruct (focus_section_complete (F := Qc) default_options (demo_input 30 (Some demo_focus)) demo_focus)
    as (m & fm & E & Ef & Ep & _); [compute_done|compute_done|reflexivity|].
  exists m, fm. split_and!; [exact E|exact Ef|exact Ep].
Defined.

Lemma repo_map_order_independent_witness :
  build_repo_map (F := Qc) default_options (with_files (demo_input 30 None) (rev demo_files)) =
  build_repo_map (F := Qc) default_options (demo_input 30 None).
Proof.
  apply (repo_map_order_independent default_options (demo_input 30 None) (rev demo_files)); [compute_done| |].
  - apply Permutation_rev.
  - apply (bool_decide_unpack _). vm_compute. exact I.
Defined.

(** ** A path that starts with a heading mark

    [regroup] strips every leading [## ] from a heading, so a file whose path starts with one is shown
    under another path and counted as omitted as well. *)

Definition marked_input : RepoMapInput :=
  mkMapInput [demo_file (lit "## a.kt") [lit "total"]] (from_counts []) 1000 [] false None false.

Lemma marked_path_shown_and_omitted :
  exists m, build_repo_map (F := Qc) default_options marked_input = Some m /\
    mf_path <$> m_files m = [lit "a.kt"] /\ m_files_omitted m = 1.
Proof. eexists. split; [vm_compute; reflexivity|]. split; vm_compute; reflexivity. Qed.
