(* ===== verification/Lines.v ===== *)
(** * Lines: the list lines and labels the rendered answers share

    Models the small writers of [crates/ktsense-core/src/render.rs] that [context.rs] measures its
    budget with as well: a related declaration, an annotated one, a foreign text reference, a grep
    hit, plurals and joined names. *)
From S2P Require Import Prelude Text Skeleton References Sites Trace Render.

Set Default Proof Using "Type*".

(** [ForeignReference] of [context.rs]. *)
Record ForeignReference := mkForeign { fr_path : str; fr_line : N; fr_enclosing : option str; fr_text : option str }.

Definition num (n : nat) : str := dec (N.of_nat n).

Definition MAX_HIT_LINE_CHARS : nat := 160.
Definition ONE_FACT_HIT_LIMIT : nat := 5.

Definition pluralize (count : nat) (singular : str) : str :=
  if count =? 1 then num count ++ lit " " ++ singular else num count ++ lit " " ++ singular ++ lit "s".

Definition join_neutralized (members : list str) : str := join (lit ", ") (neutralize <$> members).

Definition simple_name (qualified_name : str) : str := last_piece (ch ".") qualified_name.

Definition fence_language (path : str) : str := if ends_with path (lit ".java") then lit "java" else lit "kotlin".

Definition filter_note (filter : SiteFilter) (omitted : nat) : str :=
  lit " " ++ describe filter ++ lit "; " ++ num omitted ++ lit " others".

Definition annotated_kind_label (kind : DeclKind) : str :=
  match kind with
  | EnumEntry => lit "enum entry"
  | Constructor_ => lit "constructor"
  | other => decl_keyword other
  end.

Definition trimmed_hit_line (source : str) : str :=
  let neutral := neutralize (trim source) in
  let head := take MAX_HIT_LINE_CHARS neutral in
  match drop MAX_HIT_LINE_CHARS neutral with
  | _ :: _ => head ++ lit "..."
  | [] => head
  end.

(** [format!("{}:{}", neutralize(path), line)]. *)
Definition place (path : str) (line : N) : str := neutralize path ++ lit ":" ++ dec line.

Definition related_line (d : RelatedDeclaration) : str :=
  let name := match rd_qualified_name d with
              | Some name => neutralize name
              | None => lit "(enclosing declaration not resolved)"
              end in
  let sites := if rd_sites d =? 1 then [] else lit " (" ++ num (rd_sites d) ++ lit " sites)" in
  lit "- " ++ name ++ lit "  " ++ place (rd_path d) (rd_line d) ++ sites.

Definition context_caller_line (d : RelatedDeclaration) : str :=
  related_line d ++ if rd_test d then lit "  [test]" else [].

Definition annotated_context_line (d : AnnotatedDeclaration) : str :=
  lit "- " ++ neutralize (a_fqn d) ++ lit "  " ++ annotated_kind_label (a_kind d) ++ lit "  " ++ place (a_path d) (a_line d).

Definition foreign_reference_line (r : ForeignReference) : str :=
  let location := match fr_enclosing r with
                  | Some fqn => lit "- " ++ neutralize fqn ++ lit "  " ++ place (fr_path r) (fr_line r)
                  | None => lit "- " ++ place (fr_path r) (fr_line r)
                  end in
  match fr_text r with
  | Some text => location ++ lit ": " ++ trimmed_hit_line text
  | None => location
  end.

(** ** Every line is safe *)

Lemma num_safe n : all_safe (num n).
Proof. apply dec_safe. Qed.
Lemma annotated_kind_label_safe k : all_safe (annotated_kind_label k).
Proof. destruct k; by apply safe_by_test. Qed.
#[export] Hint Resolve num_safe annotated_kind_label_safe : safe.

Lemma take_safe n s : all_safe s -> all_safe (take n s).
Proof. intros Hs. by apply Forall_take. Qed.

Lemma pluralize_safe n s : all_safe s -> all_safe (pluralize n s).
Proof. intros Hs. unfold pluralize. case_match; eauto 6 with safe. Qed.
Lemma join_neutralized_safe l : all_safe (join_neutralized l).
Proof. unfold join_neutralized. eauto with safe. Qed.
Lemma trimmed_hit_line_safe s : all_safe (trimmed_hit_line s).
Proof. unfold trimmed_hit_line. case_match; eauto 6 using take_safe with safe. Qed.
Lemma place_safe path line : all_safe (place path line).
Proof. unfold place. eauto with safe. Qed.
#[export] Hint Resolve pluralize_safe join_neutralized_safe trimmed_hit_line_safe place_safe : safe.

Lemma related_line_safe d : all_safe (related_line d).
Proof.
  unfold related_line. repeat apply all_safe_app; eauto with safe; case_match; eauto 8 with safe.
Qed.
#[export] Hint Resolve related_line_safe : safe.
Lemma context_caller_line_safe d : all_safe (context_caller_line d).
Proof. unfold context_caller_line. case_match; eauto with safe. Qed.
Lemma annotated_context_line_safe d : all_safe (annotated_context_line d).
Proof. unfold annotated_context_line. eauto 8 with safe. Qed.
Lemma foreign_reference_line_safe r : all_safe (foreign_reference_line r).
Proof. unfold foreign_reference_line. repeat case_match; eauto 8 with safe. Qed.
#[export] Hint Resolve context_caller_line_safe annotated_context_line_safe foreign_reference_line_safe : safe.

(** A hit line never grows past the cap and its ellipsis. *)
Lemma trimmed_hit_line_bounded s : length (trimmed_hit_line s) <= MAX_HIT_LINE_CHARS + 3.
Proof.
  unfold trimmed_hit_line. case_match; rewrite ?length_app, length_take; [lia|]. change (length (lit "...")) with 3. lia.
Qed.
