(* ===== verification/Context.v ===== *)
(** * Context: the budgeted bundle about one symbol

    Models [crates/ktsense-core/src/context.rs]: the queried declaration's source body or its
    matched lines, the caller caps, the units in priority order, their emission within the budget,
    and the sections they regroup into. A line number is a [u32]; [as u32] wraps. *)
From S2P Require Import Prelude Collections Budget Text Skeleton References Sites Trace Render Lines.

Set Default Proof Using "Type*".

Record ContextSections := mkSections {
  want_source : bool;
  want_outline : bool;
  want_callers : bool;
  want_implementors : bool }.
#[export] Instance ContextSections_eq_dec : EqDecision ContextSections.
Proof. solve_decision. Defined.

Definition all_sections : ContextSections := mkSections true true true true.
Definition sections_is_all (s : ContextSections) : bool := bool_decide (s = all_sections).
Definition is_callers_only (s : ContextSections) : bool :=
  want_callers s && negb (want_source s) && negb (want_outline s) && negb (want_implementors s).

(** Field prefixes: [sec_] section, [so_] source section, [ml_] matched line, [ms_] matched source,
    [cf_] applied filter, [c_] bundle, [ci_] input, [sb_] source body, [sc_] source candidate. *)
Record ContextSection (T : Type) := mkSection { sec_items : list T; sec_omitted : nat }.
Arguments mkSection {T}. Arguments sec_items {T}. Arguments sec_omitted {T}.
Definition available {T} (s : ContextSection T) : nat := length (sec_items s) + sec_omitted s.
Definition is_absent {T} (s : ContextSection T) : bool :=
  match sec_items s with [] => sec_omitted s =? 0 | _ => false end.

Record SourceSection := mkSource { so_lines : list str; so_start_line : N; so_end_line : N; so_omitted_lines : nat }.
Record MatchedLine := mkMatchedLine { ml_number : N; ml_text : str; ml_gap_before : bool }.
Record MatchedSource := mkMatchedSource {
  ms_lines : list MatchedLine;
  ms_start_line : N;
  ms_end_line : N;
  ms_omitted_lines : nat }.
(** [LineMatcher::matches] is [sm_matcher]. *)
Record SourceMatch := mkSourceMatch { sm_matcher : str -> bool; sm_around : nat }.

Record AppliedContextFilter := mkContextFilter {
  cf_filter : SiteFilter;
  cf_callers_omitted : nat;
  cf_annotated_omitted : nat;
  cf_java_text_references_omitted : nat;
  cf_kotlin_text_references_omitted : nat }.

Record SymbolContext := mkContext {
  c_symbol : str;
  c_sections : ContextSections;
  c_index : IndexCompleteness;
  c_definition : Definition_;
  c_declaration : ContextSection str;
  c_source : option SourceSection;
  c_matched_source : option MatchedSource;
  c_file_outline : ContextSection str;
  c_callers : ContextSection RelatedDeclaration;
  c_callers_omitted : nat;
  c_test_callers_omitted : nat;
  c_annotated : ContextSection AnnotatedDeclaration;
  c_java_text_references : ContextSection ForeignReference;
  c_kotlin_text_references : ContextSection ForeignReference;
  c_implementors : ContextSection RelatedDeclaration;
  c_filter : option AppliedContextFilter;
  c_budget : N;
  c_token_upper_bound : N }.

Definition context_omitted (c : SymbolContext) : nat :=
  sec_omitted (c_declaration c)
  + from_option so_omitted_lines 0 (c_source c)
  + from_option ms_omitted_lines 0 (c_matched_source c)
  + sec_omitted (c_file_outline c)
  + sec_omitted (c_callers c)
  + sec_omitted (c_annotated c)
  + sec_omitted (c_java_text_references c)
  + sec_omitted (c_kotlin_text_references c)
  + sec_omitted (c_implementors c).

Record ContextInput := mkContextInput {
  ci_definition : Definition_;
  ci_index : IndexCompleteness;
  ci_sections : ContextSections;
  ci_file : option FileSkeleton;
  ci_source : option (list str);
  ci_source_match : option SourceMatch;
  ci_callers : list RelatedDeclaration;
  ci_annotated : list AnnotatedDeclaration;
  ci_java_text_references : list ForeignReference;
  ci_kotlin_text_references : list ForeignReference;
  ci_implementors : list RelatedDeclaration;
  ci_budget : N;
  ci_filter : option AppliedContextFilter }.

(** ** Caller caps *)

Definition DEFAULT_TEST_CALLER_CAP : nat := 3.
Definition DEFAULT_PRODUCTION_CALLER_CAP : nat := 10.
Record CallerCaps := mkCaps { cap_production : nat; cap_test : nat }.

(** The four counters of [cap_callers] and what it kept. *)
Record Capping := mkCapping {
  kp_kept : list RelatedDeclaration;
  kp_production_kept : nat;
  kp_test_kept : nat;
  kp_production_omitted : nat;
  kp_test_omitted : nat }.
Definition cap_step (caps : CallerCaps) (k : Capping) (caller : RelatedDeclaration) : Capping :=
  if rd_test caller then
    if kp_test_kept k <? cap_test caps
    then mkCapping (kp_kept k ++ [caller]) (kp_production_kept k) (kp_test_kept k + 1) (kp_production_omitted k) (kp_test_omitted k)
    else mkCapping (kp_kept k) (kp_production_kept k) (kp_test_kept k) (kp_production_omitted k) (kp_test_omitted k + 1)
  else if kp_production_kept k <? cap_production caps
    then mkCapping (kp_kept k ++ [caller]) (kp_production_kept k + 1) (kp_test_kept k) (kp_production_omitted k) (kp_test_omitted k)
    else mkCapping (kp_kept k) (kp_production_kept k) (kp_test_kept k) (kp_production_omitted k + 1) (kp_test_omitted k).
Definition cap_callers (callers : list RelatedDeclaration) (caps : option CallerCaps) : list RelatedDeclaration * nat * nat :=
  match caps with
  | None => (callers, 0, 0)
  | Some caps =>
      let k := foldl (cap_step caps) (mkCapping [] 0 0 0 0) callers in
      (kp_kept k, kp_production_omitted k, kp_test_omitted k)
  end.

(** ** The source body *)

Record SourceCandidate := mkCandidate { sc_rendered : str; sc_raw : str; sc_matched : option MatchedLine }.
Record SourceBody := mkBody { sb_candidates : list SourceCandidate; sb_start_line : N; sb_end_line : N; sb_matched : bool }.

Definition whole_body (raw_lines : list str) (start_line end_line : N) : SourceBody :=
  mkBody ((fun raw => mkCandidate raw raw None) <$> raw_lines) start_line end_line false.

(** [low..=high] of [kept_indices]; [lines] is not empty where it is reached. The sum is one of [usize]
    and wraps as an optimised build does. *)
Definition window (around len index : nat) : list nat :=
  let low := index - around in
  let high := N.to_nat (N.min ((N.of_nat index + N.of_nat around) mod (usize_max + 1)) (N.of_nat (len - 1))) in
  seq low (S high - low).
Definition kept_indices (lines : list str) (spec : SourceMatch) : list nat :=
  foldl (fun keep e => if sm_matcher spec e.2 then foldl (fun keep n => bs_insert n keep) keep (window (sm_around spec) (length lines) e.1)
                       else keep)
    [] (imap pair lines).

Definition matched_candidate (raw_lines : list str) (start_line : N) (previous : option nat) (index : nat) : option SourceCandidate :=
  let gap_before := match previous with None => 0 <? index | Some prev => prev + 1 <? index end in
  text ← raw_lines !! index;
  let number := (start_line + N.of_nat index)%N in
  let numbered := dec number ++ lit ": " ++ text in
  let rendered := if gap_before then lit "..." ++ [10%N] ++ numbered else numbered in
  Some (mkCandidate rendered text (Some (mkMatchedLine number text gap_before))).
Fixpoint matched_candidates (raw_lines : list str) (start_line : N) (previous : option nat) (indices : list nat)
    : option (list SourceCandidate) :=
  match indices with
  | [] => Some []
  | index :: rest =>
      candidate ← matched_candidate raw_lines start_line previous index;
      candidates ← matched_candidates raw_lines start_line (Some index) rest;
      Some (candidate :: candidates)
  end.
Definition matched_body (raw_lines : list str) (start_line end_line : N) (spec : SourceMatch) : option SourceBody :=
  candidates ← matched_candidates raw_lines start_line None (kept_indices raw_lines spec);
  Some (mkBody candidates start_line end_line true).

(** [source[a..b]], a panic when the range is not in order and in bounds. *)
Definition slice (l : list str) (a b : nat) : option (list str) :=
  if (a <=? b) && (b <=? length l) then Some (take (b - a) (drop a l)) else None.

(** [None] outside is a panic; [Some None] is no body. *)
Definition source_body (input : ContextInput) : option (option SourceBody) :=
  match ci_source input, ci_file input with
  | Some source, Some file =>
      match declaration_span_at file (df_line (ci_definition input)) with
      | Some span =>
          let total := (N.of_nat (length source) mod 2 ^ 32)%N in
          let end_line := N.min (default total (span_stop span)) total in
          if (span_start span =? 0)%N || (end_line <? span_start span)%N then Some None
          else
            lines ← slice source (N.to_nat (span_start span - 1)) (N.to_nat end_line);
            let raw_lines := neutralize <$> lines in
            match ci_source_match input with
            | Some spec => body ← matched_body raw_lines (span_start span) end_line spec; Some (Some body)
            | None => Some (Some (whole_body raw_lines (span_start span) end_line))
            end
      | None => Some None
      end
  | _, _ => Some None
  end.

(** ** Units *)

Inductive Payload :=
  | PDeclaration (signature : str)
  | PSourceLine (candidate : SourceCandidate)
  | PFileOutline (block : str)
  | PCaller (caller : RelatedDeclaration)
  | PAnnotated (declaration : AnnotatedDeclaration)
  | PJavaReference (reference : ForeignReference)
  | PKotlinReference (reference : ForeignReference)
  | PImplementor (implementor : RelatedDeclaration).
Record Unit := mkContextUnit { cu_text : str; cu_payload : Payload }.

Definition outline_block (f : FileSkeleton) (d : Declaration) : option str :=
  let rendered := render_skeleton (mkFile (fs_path f) (fs_package f) [] [d] false false) options_default in
  if bool_decide (rendered = []) then None else Some rendered.
Definition outline_blocks (f : FileSkeleton) : list str := omap (outline_block f) (fs_declarations f).

Definition units_in_priority_order (input : ContextInput) (source : option SourceBody) (callers : list RelatedDeclaration) : list Unit :=
  let signature := df_signature (ci_definition input) in
  (if bool_decide (signature = []) then [] else [mkContextUnit signature (PDeclaration signature)])
  ++ match source with
     | Some body => (fun c => mkContextUnit (sc_rendered c) (PSourceLine c)) <$> sb_candidates body
     | None => []
     end
  ++ (if want_outline (ci_sections input) then
        match ci_file input with
        | Some file => (fun block => mkContextUnit block (PFileOutline block)) <$> outline_blocks file
        | None => []
        end
      else [])
  ++ (if want_callers (ci_sections input) then
        ((fun caller => mkContextUnit (context_caller_line caller) (PCaller caller)) <$> callers)
        ++ ((fun d => mkContextUnit (annotated_context_line d) (PAnnotated d)) <$> ci_annotated input)
        ++ ((fun r => mkContextUnit (foreign_reference_line r) (PJavaReference r)) <$> ci_java_text_references input)
        ++ ((fun r => mkContextUnit (foreign_reference_line r) (PKotlinReference r)) <$> ci_kotlin_text_references input)
      else [])
  ++ (if want_implementors (ci_sections input) then
        (fun i => mkContextUnit (related_line i) (PImplementor i)) <$> ci_implementors input
      else []).

(** What a payload contributes to each section. *)
Definition as_declaration (p : Payload) : option str := match p with PDeclaration s => Some s | _ => None end.
Definition as_source (p : Payload) : option SourceCandidate := match p with PSourceLine c => Some c | _ => None end.
Definition as_outline (p : Payload) : option str := match p with PFileOutline b => Some b | _ => None end.
Definition as_caller (p : Payload) : option RelatedDeclaration := match p with PCaller c => Some c | _ => None end.
Definition as_annotated (p : Payload) : option AnnotatedDeclaration := match p with PAnnotated d => Some d | _ => None end.
Definition as_java (p : Payload) : option ForeignReference := match p with PJavaReference r => Some r | _ => None end.
Definition as_kotlin (p : Payload) : option ForeignReference := match p with PKotlinReference r => Some r | _ => None end.
Definition as_implementor (p : Payload) : option RelatedDeclaration := match p with PImplementor i => Some i | _ => None end.

(** [Available::of] counts and [Kept::of] collects, one section at a time. *)
Definition kept {T} (select : Payload -> option T) (units : list Unit) : list T := omap (fun u => select (cu_payload u)) units.
Definition available_of {T} (select : Payload -> option T) (units : list Unit) : nat :=
  foldl (fun n u => match select (cu_payload u) with Some _ => n + 1 | None => n end) 0 units.
(** [available.saturating_sub(items.len())]. *)
Definition section {T} (items : list T) (available : nat) : ContextSection T := mkSection items (available - length items).

Definition split_source (body : option SourceBody) (kept : list SourceCandidate)
    : option (option SourceSection * option MatchedSource) :=
  match body with
  | None => Some (None, None)
  | Some body =>
      omitted ← checked_sub (N.of_nat (length (sb_candidates body))) (N.of_nat (length kept));
      let omitted_lines := N.to_nat omitted in
      if sb_matched body then
        Some (None, Some (mkMatchedSource (omap sc_matched kept) (sb_start_line body) (sb_end_line body) omitted_lines))
      else
        Some (Some (mkSource (sc_raw <$> kept) (sb_start_line body) (sb_end_line body) omitted_lines), None)
  end.

(** ** [build_context] *)

Definition default_caps : CallerCaps := mkCaps DEFAULT_PRODUCTION_CALLER_CAP DEFAULT_TEST_CALLER_CAP.

Definition build_context `{TokenEstimator} (input : ContextInput) : option SymbolContext :=
  body ← (if want_source (ci_sections input) then source_body input else Some None);
  let caps := if is_callers_only (ci_sections input) then None else Some default_caps in
  let '(callers, callers_omitted, test_callers_omitted) := cap_callers (ci_callers input) caps in
  let offered := units_in_priority_order input body callers in
  let emission := emit_within_budget cu_text offered (ci_budget input) in
  let units := items emission in
  '(source, matched_source) ← split_source body (kept as_source units);
  let part {T} (select : Payload -> option T) := section (kept select units) (available_of select offered) in
  Some (mkContext (df_qualified_name (ci_definition input)) (ci_sections input) (ci_index input) (ci_definition input)
    (part as_declaration) source matched_source (part as_outline) (part as_caller) callers_omitted test_callers_omitted
    (part as_annotated) (part as_java) (part as_kotlin) (part as_implementor) (ci_filter input) (ci_budget input)
    (token_upper_bound emission)).

(** ** Lemmas: the caller caps *)

Definition is_test (d : RelatedDeclaration) : Prop := rd_test d = true.
Definition is_shipping (d : RelatedDeclaration) : Prop := rd_test d = false.

Lemma cap_fold_spec caps callers :
  let k := foldl (cap_step caps) (mkCapping [] 0 0 0 0) callers in
  let production := filter is_shipping callers in
  let tests := filter is_test callers in
  kp_kept k `sublist_of` callers /\
  filter is_shipping (kp_kept k) = take (cap_production caps) production /\
  filter is_test (kp_kept k) = take (cap_test caps) tests /\
  kp_production_kept k = min (cap_production caps) (length production) /\
  kp_test_kept k = min (cap_test caps) (length tests) /\
  kp_production_omitted k = length production - cap_production caps /\
  kp_test_omitted k = length tests - cap_test caps.
Proof.
  induction callers as [|c l (Hs & Hp & Ht & Hpk & Htk & Hpo & Hto)] using rev_ind.
  { split_and!; try done; by destruct (cap_production caps), (cap_test caps). }
  rewrite foldl_app. cbn [foldl]. set (k := foldl (cap_step caps) _ l) in *. rewrite !filter_app, !length_app.
  assert (kp_kept k `sublist_of` l ++ [c]) as Hskip by (by apply sublist_inserts_r).
  assert (kp_kept k ++ [c] `sublist_of` l ++ [c]) as Htake by (by apply sublist_app).
  unfold cap_step. destruct (rd_test c) eqn:E.
  - rewrite (filter_cons_True is_test), (filter_cons_False is_shipping) by (unfold is_test, is_shipping; congruence).
    rewrite !filter_nil, app_nil_r, Nat.add_0_r. rewrite Htk. destruct (Nat.ltb_spec (min (cap_test caps) (length (filter is_test l))) (cap_test caps)); cbn.
    + rewrite !filter_app, (filter_cons_True is_test), (filter_cons_False is_shipping), !filter_nil, app_nil_r by (unfold is_test, is_shipping; congruence).
      rewrite Hp, Ht, (take_ge (filter is_test l)), (take_ge (filter is_test l ++ [c])) by (rewrite ?length_app; cbn; lia). split_and!; try done; lia.
    + rewrite Hp, Ht, (take_app_le (filter is_test l)) by lia. split_and!; try done; lia.
  - rewrite (filter_cons_False is_test), (filter_cons_True is_shipping) by (unfold is_test, is_shipping; congruence).
    rewrite !filter_nil, app_nil_r, Nat.add_0_r. rewrite Hpk. destruct (Nat.ltb_spec (min (cap_production caps) (length (filter is_shipping l))) (cap_production caps)); cbn.
    + rewrite !filter_app, (filter_cons_False is_test), (filter_cons_True is_shipping), !filter_nil, app_nil_r by (unfold is_test, is_shipping; congruence).
      rewrite Hp, Ht, (take_ge (filter is_shipping l)), (take_ge (filter is_shipping l ++ [c])) by (rewrite ?length_app; cbn; lia). split_and!; try done; lia.
    + rewrite Hp, Ht, (take_app_le (filter is_shipping l)) by lia. split_and!; try done; lia.
Qed.

(** ** Lemmas: the lines around a match *)

(** Line [i] is at most [sm_around] lines away from a line the matcher accepts. *)
Definition near (spec : SourceMatch) (lines : list str) (i : nat) : Prop :=
  exists j line, lines !! j = Some line /\ sm_matcher spec line = true /\ j <= i + sm_around spec /\ i <= j + sm_around spec.

Lemma elem_of_window around len index i :
  i ∈ window around len index <->
  index - around <= i /\ (N.of_nat i <= (N.of_nat index + N.of_nat around) mod (usize_max + 1))%N /\ i <= len - 1.
Proof. unfold window. rewrite elem_of_seq. lia. Qed.

Lemma insert_all_spec (ns keep : list nat) :
  bs_sorted keep ->
  bs_sorted (foldl (fun keep n => bs_insert n keep) keep ns) /\
  forall x, x ∈ foldl (fun keep n => bs_insert n keep) keep ns <-> x ∈ keep \/ x ∈ ns.
Proof.
  revert keep. induction ns as [|n ns IH]; intros keep Hs; cbn [foldl].
  { split; [done|]. intros x. rewrite elem_of_nil. tauto. }
  destruct (IH (bs_insert n keep)) as [Hs' He]; [by apply bs_sorted_insert|]. split; [done|].
  intros x. rewrite He, bs_elem_insert, elem_of_cons. tauto.
Qed.

Lemma elem_of_kept lines spec :
  StronglySorted lt (kept_indices lines spec) /\
  forall i, i ∈ kept_indices lines spec <-> exists j line, lines !! j = Some line /\ sm_matcher spec line = true /\ i ∈ window (sm_around spec) (length lines) j.
Proof.
  unfold kept_indices. set (step := fun keep e => if sm_matcher spec e.2 then _ else keep).
  assert (forall es, bs_sorted (foldl step [] es) /\ forall x, x ∈ foldl step [] es <->
    exists e, e ∈ es /\ sm_matcher spec e.2 = true /\ x ∈ window (sm_around spec) (length lines) e.1) as Hfold.
  { induction es as [|e es [Hs He]] using rev_ind.
    { split; [constructor|]. intros x. rewrite elem_of_nil. split; [done|]. by intros (e & ?%elem_of_nil & _). }
    rewrite foldl_app. cbn [foldl]. unfold step at 1 3. setoid_rewrite elem_of_app. setoid_rewrite list_elem_of_singleton.
    destruct (sm_matcher spec e.2) eqn:E.
    - destruct (insert_all_spec (window (sm_around spec) (length lines) e.1) _ Hs) as [Hs' He']. split; [done|].
      intros x. rewrite He', He. split.
      + intros [(a & ? & ? & ?)|Hx]; [exists a; auto|exists e; auto].
      + intros (a & [?| ->] & ? & ?); [left; by exists a|by right].
    - split; [done|]. intros x. rewrite He. split; [intros (a & ? & ? & ?); exists a; auto|].
      intros (a & [?| ->] & Hm & ?); [by exists a|congruence]. }
  destruct (Hfold (imap pair lines)) as [Hs He]. split.
  { eapply sorted_impl; [|exact Hs]. intros x y. unfold ord_lt. apply Nat.compare_lt_iff. }
  intros i. rewrite He. split.
  - intros ([j line] & (k & Hk)%list_elem_of_lookup & Hm & Hw). rewrite list_lookup_imap in Hk.
    destruct (lines !! k) as [l|] eqn:El; [|done]. injection Hk as -> ->. by exists j, line.
  - intros (j & line & Hl & Hm & Hw). exists (j, line). split_and!; [|done|done]. apply list_elem_of_lookup. exists j. by rewrite list_lookup_imap, Hl.
Qed.
Lemma kept_indices_bound lines spec i : i ∈ kept_indices lines spec -> i < length lines.
Proof. intros (j & line & Hl & _ & (_ & _ & Hw)%elem_of_window)%elem_of_kept. apply lookup_lt_Some in Hl. lia. Qed.
(** Where the sum does not wrap, the lines kept are those near a match. *)
Lemma kept_indices_spec lines spec :
  (N.of_nat (length lines) + N.of_nat (sm_around spec) <= usize_max)%N ->
  forall i, i ∈ kept_indices lines spec <-> i < length lines /\ near spec lines i.
Proof.
  intros Hfit i. rewrite (proj2 (elem_of_kept lines spec)). unfold near.
  assert (forall j line, lines !! j = Some line -> i ∈ window (sm_around spec) (length lines) j <->
    i < length lines /\ j <= i + sm_around spec /\ i <= j + sm_around spec) as Hw.
  { intros j line Hl%lookup_lt_Some. rewrite elem_of_window, N.mod_small by lia. lia. }
  split.
  - intros (j & line & Hl & Hm & (Hi & Hlo & Hhi)%(Hw j line Hl)). split; [done|]. by exists j, line.
  - intros (Hi & j & line & Hl & Hm & Hlo & Hhi). exists j, line. split_and!; [done|done|]. by apply (Hw j line Hl).
Qed.

(** A count of context lines near the largest [usize] makes the sum wrap: the line that matches is itself
    left out, with all that follow it. *)
Lemma wide_around_drops_the_match lines spec j :
  N.of_nat (sm_around spec) = usize_max -> 0 < j -> (N.of_nat j < usize_max)%N ->
  (forall i line, lines !! i = Some line -> sm_matcher spec line = true -> i = j) -> forall i, i ∈ kept_indices lines spec -> i < j.
Proof.
  intros Ha Hj Hfit Hone i (k & line & Hl & Hm & (_ & Hw & _)%elem_of_window)%elem_of_kept. rewrite (Hone k line Hl Hm), Ha in Hw.
  replace (N.of_nat j + usize_max)%N with (N.of_nat j - 1 + 1 * (usize_max + 1))%N in Hw by (unfold usize_max in *; lia).
  rewrite N.Div0.mod_add, N.mod_small in Hw by (unfold usize_max in *; lia). lia.
Qed.

(** The numbered line of index [i], when [whole] are the kept ones. *)
Definition numbered (raw_lines : list str) (start_line : N) (whole : list nat) (i : nat) : MatchedLine :=
  mkMatchedLine (start_line + N.of_nat i)%N (default [] (raw_lines !! i)) (bool_decide (0 < i /\ i - 1 ∉ whole)).

Lemma numbered_sorted raw_lines start_line whole l :
  StronglySorted lt l -> StronglySorted (fun a b => (ml_number a < ml_number b)%N) (numbered raw_lines start_line whole <$> l).
Proof.
  induction 1 as [|i l Hl IH Hi]; csimpl; constructor; [done|]. apply Forall_fmap. eapply Forall_impl; [exact Hi|].
  intros j Hj. cbn. lia.
Qed.

Lemma matched_candidates_spec raw_lines start_line whole :
  StronglySorted lt whole -> Forall (fun i => i < length raw_lines) whole ->
  forall indices before, whole = before ++ indices ->
  exists cs, matched_candidates raw_lines start_line (last before) indices = Some cs /\
    sc_matched <$> cs = (Some ∘ numbered raw_lines start_line whole) <$> indices.
Proof.
  intros Hs Hin indices. induction indices as [|i rest IH]; intros before E; [by exists []|].
  destruct (IH (before ++ [i])) as (cs & Ecs & Hcs); [by rewrite <- app_assoc|]. rewrite last_snoc in Ecs.
  assert (i < length raw_lines) as [text Htext]%lookup_lt_is_Some_2.
  { rewrite Forall_forall in Hin. apply Hin. rewrite E. apply elem_of_app. right. left. }
  eexists. cbn [matched_candidates]. unfold matched_candidate. rewrite Htext. cbn [mbind option_bind]. rewrite Ecs.
  cbn [mbind option_bind]. split; [done|]. csimpl. f_equal; [|done]. f_equal. unfold numbered. rewrite Htext. cbn [default]. f_equal.
  rewrite E in Hs |- *. apply StronglySorted_app in Hs as (Hcross & Hb & Hr).
  apply StronglySorted_inv in Hr as [_ Hr]. rewrite Forall_forall in Hr.
  assert (forall x, x ∈ before -> x < i) as Hbi by (intros x Hx; apply Hcross; [done|left]).
  destruct (last before) as [prev|] eqn:El.
  - apply last_Some in El as [b' ->]. assert (prev < i) by (apply Hbi, elem_of_app; right; left).
    assert (forall x, x ∈ b' -> x < prev) as Hlast.
    { apply StronglySorted_app in Hb as (Hc & _ & _). intros x Hx. apply Hc; [done|left]. }
    destruct (Nat.ltb_spec (prev + 1) i); symmetry.
    + apply bool_decide_eq_true. split; [lia|]. rewrite !elem_of_app, !elem_of_cons, elem_of_nil.
      intros [[Hx|[Hx|[]]]|[Hx|Hx]]; [apply Hlast in Hx; lia|lia|lia|apply Hr in Hx; lia].
    + apply bool_decide_eq_false. intros [_ Hn]. apply Hn. rewrite !elem_of_app. left. right.
      apply list_elem_of_singleton. lia.
  - apply last_None in El as ->. destruct (Nat.ltb_spec 0 i); symmetry.
    + apply bool_decide_eq_true. split; [lia|]. cbn [app]. rewrite elem_of_cons. intros [Hx|Hx]; [lia|]. apply Hr in Hx. lia.
    + apply bool_decide_eq_false. lia.
Qed.

(** ** Lemmas: the body *)

(** What a body is cut from: lines [start..=stop] of the file, neutralized, where [stop] is the line the
    declaration's span ends on, or the file's last when it has none or ends past it. *)
Definition line_total (source : list str) : N := (N.of_nat (length source) mod 2 ^ 32)%N.
Definition body_of (input : ContextInput) (body : SourceBody) (raw_lines : list str) : Prop :=
  exists file source span lines,
    ci_file input = Some file /\ ci_source input = Some source /\
    declaration_span_at file (df_line (ci_definition input)) = Some span /\
    sb_start_line body = span_start span /\ (1 <= sb_start_line body)%N /\
    sb_end_line body = N.min (default (line_total source) (span_stop span)) (line_total source) /\ (sb_start_line body <= sb_end_line body)%N /\
    slice source (N.to_nat (sb_start_line body - 1)) (N.to_nat (sb_end_line body)) = Some lines /\
    raw_lines = neutralize <$> lines /\ (N.of_nat (length raw_lines) + sb_start_line body = sb_end_line body + 1)%N.

Lemma source_slice_spec (l : list str) a b : a <= b -> b <= length l -> slice l a b = Some (take (b - a) (drop a l)).
Proof. intros Ha Hb. unfold slice. by rewrite (proj2 (Nat.leb_le a b) Ha), (proj2 (Nat.leb_le b _) Hb). Qed.

Lemma source_body_spec input :
  exists o, source_body input = Some o /\ (o = None -> forall body raw, ~ body_of input body raw) /\
    forall body, o = Some body -> exists raw_lines, body_of input body raw_lines /\
      match ci_source_match input with
      | Some spec => sb_matched body = true /\
          sc_matched <$> sb_candidates body =
          (Some ∘ numbered raw_lines (sb_start_line body) (kept_indices raw_lines spec)) <$> kept_indices raw_lines spec
      | None => sb_matched body = false /\ sc_raw <$> sb_candidates body = raw_lines
      end.
Proof.
  assert (forall o : option SourceBody, o <> None -> o = None -> forall body raw, ~ body_of input body raw) as Hsome by done.
  unfold source_body. destruct (ci_source input) as [source|] eqn:Es.
  2: { exists None. split_and!; [done| |done]. intros _ body raw (? & ? & ? & ? & _ & ? & _). congruence. }
  destruct (ci_file input) as [file|] eqn:Ef.
  2: { exists None. split_and!; [done| |done]. intros _ body raw (? & ? & ? & ? & ? & _). congruence. }
  destruct (declaration_span_at file _) as [span|] eqn:Espan.
  2: { exists None. split_and!; [done| |done]. intros _ body raw (? & ? & ? & ? & ? & ? & ? & _). congruence. }
  fold (line_total source). set (stop := N.min _ (line_total source)).
  assert (line_total source <= N.of_nat (length source))%N as Htotal by (apply N.Div0.mod_le).
  destruct ((span_start span =? 0)%N || (stop <? span_start span)%N) eqn:Ez.
  { exists None. split_and!; [done| |done]. intros _ body raw (file' & source' & span' & lines & Ef' & Es' & Esp & Hst & H1 & Hend & Hle & _).
    assert (file' = file /\ source' = source) as [-> ->] by (split; congruence). assert (span' = span) as -> by congruence. fold stop in Hend.
    apply orb_true_iff in Ez as [Ez%N.eqb_eq|Ez%N.ltb_lt]; lia. }
  apply orb_false_iff in Ez as [Hz%N.eqb_neq Hlt%N.ltb_ge].
  rewrite source_slice_spec by lia. cbn [mbind option_bind]. set (lines := take _ _).
  assert (N.of_nat (length (neutralize <$> lines)) + span_start span = stop + 1)%N as Hlen.
  { rewrite length_fmap. unfold lines. rewrite length_take, length_drop. lia. }
  assert (forall m cs, body_of input (mkBody cs (span_start span) stop m) (neutralize <$> lines)) as Hof.
  { intros m cs. exists file, source, span, lines. cbn. split_and!; try done; [lia|apply source_slice_spec; lia]. }
  destruct (ci_source_match input) as [spec|].
  - destruct (elem_of_kept (neutralize <$> lines) spec) as [Hs _].
    destruct (matched_candidates_spec (neutralize <$> lines) (span_start span) (kept_indices (neutralize <$> lines) spec))
      with (indices := kept_indices (neutralize <$> lines) spec) (before := @nil nat) as (cs & Ecs & Hcs); [done| |done|].
    { apply Forall_forall. intros i. apply kept_indices_bound. }
    unfold matched_body. cbn [last] in Ecs. rewrite Ecs. cbn [mbind option_bind]. eexists. split_and!; [done|by apply Hsome|].
    intros body [= <-]. exists (neutralize <$> lines). split_and!; [apply Hof|done|exact Hcs].
  - eexists. split_and!; [done|by apply Hsome|]. intros body [= <-]. exists (neutralize <$> lines). split_and!; [apply Hof|done|].
    cbn. rewrite <- list_fmap_compose. apply list_fmap_id.
Qed.

(** ** Lemmas: units and sections *)

Lemma kept_app {T} (select : Payload -> option T) a b : kept select (a ++ b) = kept select a ++ kept select b.
Proof. apply omap_app. Qed.
Lemma kept_same {T} (select : Payload -> option T) (mk : T -> Unit) l :
  (forall x, select (cu_payload (mk x)) = Some x) -> kept select (mk <$> l) = l.
Proof. intros Hs. unfold kept. induction l as [|x l IH]; [done|]. csimpl. by rewrite Hs, IH. Qed.
Lemma kept_other {S T} (select : Payload -> option T) (mk : S -> Unit) l :
  (forall x, select (cu_payload (mk x)) = None) -> kept select (mk <$> l) = [].
Proof. intros Hs. unfold kept. induction l as [|x l IH]; [done|]. csimpl. by rewrite Hs, IH. Qed.

Lemma available_of_kept {T} (select : Payload -> option T) units : available_of select units = length (kept select units).
Proof.
  unfold available_of, kept. induction units as [|u l IH] using rev_ind; [done|].
  rewrite foldl_app, omap_app, length_app. cbn [foldl]. rewrite IH. cbn. by destruct (select (cu_payload u)); cbn; lia.
Qed.

(** A unit's place in the priority order. *)
Definition rank_of (u : Unit) : nat :=
  match cu_payload u with
  | PDeclaration _ => 0 | PSourceLine _ => 1 | PFileOutline _ => 2 | PCaller _ => 3
  | PAnnotated _ => 4 | PJavaReference _ => 5 | PKotlinReference _ => 6 | PImplementor _ => 7
  end.
Definition count_rank (n : nat) (units : list Unit) : nat := length (filter (fun u => rank_of u = n) units).

Lemma kept_count {T} (select : Payload -> option T) n units :
  (forall u, is_Some (select (cu_payload u)) <-> rank_of u = n) -> length (kept select units) = count_rank n units.
Proof.
  intros Hs. unfold kept, count_rank. induction units as [|u l IH]; [done|]. rewrite filter_cons. cbn.
  destruct (decide (rank_of u = n)) as [E|E]; destruct (select (cu_payload u)) eqn:Es; cbn; rewrite ?IH; try done.
  - apply Hs in E as [? ?]. congruence.
  - exfalso. apply E, Hs. by eexists.
Qed.

Lemma sorted_ranks_app a b :
  StronglySorted (fun u v => rank_of u <= rank_of v) a -> StronglySorted (fun u v => rank_of u <= rank_of v) b ->
  (forall u v, u ∈ a -> v ∈ b -> rank_of u <= rank_of v) -> StronglySorted (fun u v => rank_of u <= rank_of v) (a ++ b).
Proof. intros. by apply StronglySorted_app. Qed.

Lemma sorted_same_rank {S} (mk : S -> Unit) n l :
  (forall x, rank_of (mk x) = n) ->
  StronglySorted (fun u v => rank_of u <= rank_of v) (mk <$> l) /\ Forall (fun u => rank_of u = n) (mk <$> l).
Proof.
  intros Hn. induction l as [|x l [IHs IHf]]; [split; constructor|]. csimpl. split; constructor; auto.
  eapply Forall_impl; [exact IHf|]. intros u Hu. rewrite Hn. by rewrite Hu.
Qed.

(** What the bundle offers to the budget, section by section. *)
Definition offered_outline (input : ContextInput) : list str :=
  if want_outline (ci_sections input) then from_option outline_blocks [] (ci_file input) else [].
Definition if_callers {T} (input : ContextInput) (l : list T) : list T := if want_callers (ci_sections input) then l else [].
Definition offered_implementors (input : ContextInput) : list RelatedDeclaration :=
  if want_implementors (ci_sections input) then ci_implementors input else [].
Definition offered_declaration (input : ContextInput) : list str :=
  if bool_decide (df_signature (ci_definition input) = []) then [] else [df_signature (ci_definition input)].

(** The units as eight mapped lists. *)
Lemma units_mapped input body callers :
  units_in_priority_order input body callers =
  ((fun s => mkContextUnit s (PDeclaration s)) <$> offered_declaration input)
  ++ ((fun c => mkContextUnit (sc_rendered c) (PSourceLine c)) <$> from_option sb_candidates [] body)
  ++ ((fun b => mkContextUnit b (PFileOutline b)) <$> offered_outline input)
  ++ ((fun c => mkContextUnit (context_caller_line c) (PCaller c)) <$> if_callers input callers)
  ++ ((fun d => mkContextUnit (annotated_context_line d) (PAnnotated d)) <$> if_callers input (ci_annotated input))
  ++ ((fun r => mkContextUnit (foreign_reference_line r) (PJavaReference r)) <$> if_callers input (ci_java_text_references input))
  ++ ((fun r => mkContextUnit (foreign_reference_line r) (PKotlinReference r)) <$> if_callers input (ci_kotlin_text_references input))
  ++ ((fun i => mkContextUnit (related_line i) (PImplementor i)) <$> offered_implementors input).
Proof.
  unfold units_in_priority_order, offered_declaration, offered_outline, if_callers, offered_implementors.
  case_bool_decide; destruct body, (want_outline _), (ci_file input), (want_callers _), (want_implementors _); cbn [from_option];
    by rewrite <- ?app_assoc.
Qed.

Ltac kept_of_units := rewrite units_mapped, !kept_app; repeat first [rewrite kept_same by done|rewrite kept_other by done]; rewrite ?app_nil_r; done.

Lemma kept_units input body callers :
  let units := units_in_priority_order input body callers in
  kept as_declaration units = offered_declaration input /\
  kept as_source units = from_option sb_candidates [] body /\
  kept as_outline units = offered_outline input /\
  kept as_caller units = if_callers input callers /\
  kept as_annotated units = if_callers input (ci_annotated input) /\
  kept as_java units = if_callers input (ci_java_text_references input) /\
  kept as_kotlin units = if_callers input (ci_kotlin_text_references input) /\
  kept as_implementor units = offered_implementors input.
Proof. intros units. subst units. split_and!; kept_of_units. Qed.

Lemma units_sorted input body callers :
  StronglySorted (fun u v => rank_of u <= rank_of v) (units_in_priority_order input body callers).
Proof.
  rewrite units_mapped.
  assert (forall (T : Type) (mk : T -> Unit) n l b, (forall x, rank_of (mk x) = n) ->
    StronglySorted (fun u v => rank_of u <= rank_of v) b /\ Forall (fun u => S n <= rank_of u) b ->
    StronglySorted (fun u v => rank_of u <= rank_of v) ((mk <$> l) ++ b) /\ Forall (fun u => n <= rank_of u) ((mk <$> l) ++ b)) as Hstep.
  { intros T mk n l b Hn [Hs Hb]. destruct (sorted_same_rank mk n l Hn) as [Hl Hf]. rewrite Forall_forall in Hf, Hb. split.
    - apply sorted_ranks_app; [done|done|]. intros u v Hu Hv. rewrite (Hf u Hu). apply Hb in Hv. lia.
    - apply Forall_app. split; apply Forall_forall; [intros u Hu; rewrite (Hf u Hu); lia|intros u Hu; apply Hb in Hu; lia]. }
  rewrite <- (app_nil_r (_ <$> offered_implementors input)).
  eapply (proj1 (B := Forall (fun u => 0 <= rank_of u) _)). do 8 (eapply Hstep; [done|]). split; constructor.
Qed.

Lemma context_parts `{TokenEstimator} input :
  exists body callers_omitted,
    (body = None \/ want_source (ci_sections input) = true /\ source_body input = Some body) /\
    (want_source (ci_sections input) = true -> source_body input = Some body) /\
    let caps := if is_callers_only (ci_sections input) then None else Some default_caps in
    callers_omitted = cap_callers (ci_callers input) caps /\
    let offered := units_in_priority_order input body callers_omitted.1.1 in
    let units := items (emit_within_budget cu_text offered (ci_budget input)) in
    forall o m, split_source body (kept as_source units) = Some (o, m) ->
    let part {T} (select : Payload -> option T) := section (kept select units) (available_of select offered) in
    build_context input = Some (mkContext (df_qualified_name (ci_definition input)) (ci_sections input) (ci_index input) (ci_definition input)
      (part as_declaration) o m (part as_outline) (part as_caller) callers_omitted.1.2 callers_omitted.2
      (part as_annotated) (part as_java) (part as_kotlin) (part as_implementor) (ci_filter input) (ci_budget input)
      (token_upper_bound (emit_within_budget cu_text offered (ci_budget input)))).
Proof.
  destruct (source_body_spec input) as (o & Eo & _).
  exists (if want_source (ci_sections input) then o else None). eexists. split; [|split; [intros ->; done|]].
  { destruct (want_source _); [by right|by left]. }
  intros caps. split; [reflexivity|]. intros offered units s m Esplit part. subst caps. unfold build_context.
  assert ((if want_source (ci_sections input) then source_body input else Some None) =
          Some (if want_source (ci_sections input) then o else None)) as -> by (by destruct (want_source _)).
  cbn [mbind option_bind]. subst part units offered. revert Esplit.
  destruct (cap_callers _ _) as [[callers co] tco]. cbn [fst snd]. intros Esplit. rewrite Esplit. reflexivity.
Qed.

(** Every section's items and omissions, in priority order. *)
Definition sizes {T} (s : ContextSection T) : nat * nat := (length (sec_items s), sec_omitted s).
Definition source_sizes (c : SymbolContext) : nat * nat :=
  match c_source c, c_matched_source c with
  | Some s, _ => (length (so_lines s), so_omitted_lines s)
  | None, Some m => (length (ms_lines m), ms_omitted_lines m)
  | None, None => (0, 0)
  end.
Definition section_sizes (c : SymbolContext) : list (nat * nat) :=
  [sizes (c_declaration c); source_sizes c; sizes (c_file_outline c); sizes (c_callers c); sizes (c_annotated c);
   sizes (c_java_text_references c); sizes (c_kotlin_text_references c); sizes (c_implementors c)].

Definition rank_sizes (shown rest : list Unit) (n : nat) : nat * nat := (count_rank n shown, count_rank n rest).

Lemma count_rank_app n a b : count_rank n (a ++ b) = count_rank n a + count_rank n b.
Proof. unfold count_rank. by rewrite filter_app, length_app. Qed.

Lemma section_size {T} (select : Payload -> option T) n shown rest :
  (forall u, is_Some (select (cu_payload u)) <-> rank_of u = n) ->
  sizes (section (kept select shown) (available_of select (shown ++ rest))) = rank_sizes shown rest n.
Proof.
  intros Hs. unfold sizes, section, rank_sizes. cbn. rewrite available_of_kept, !(kept_count select n) by done.
  rewrite count_rank_app. f_equal. lia.
Qed.

(** The body's candidates cut short: the view of the first ones, and how many are left. *)
Lemma split_source_spec body candidates rest :
  from_option sb_candidates [] body = candidates ++ rest ->
  exists o m, split_source body candidates = Some (o, m) /\
    match body with
    | None => o = None /\ m = None
    | Some b =>
        if sb_matched b
        then o = None /\ m = Some (mkMatchedSource (omap sc_matched candidates) (sb_start_line b) (sb_end_line b) (length rest))
        else o = Some (mkSource (sc_raw <$> candidates) (sb_start_line b) (sb_end_line b) (length rest)) /\ m = None
    end.
Proof.
  intros E. unfold split_source. destruct body as [b|]; [|by exists None, None]. cbn in E.
  rewrite E, length_app, checked_sub_le by lia. cbn [mbind option_bind].
  assert (N.to_nat (N.of_nat (length candidates + length rest) - N.of_nat (length candidates)) = length rest) as -> by lia.
  destruct (sb_matched b); by eexists _, _.
Qed.

Lemma omap_all_some {A B} (f : A -> option B) (l : list A) (l' : list B) : f <$> l = Some <$> l' -> omap f l = l'.
Proof.
  revert l'. induction l as [|x l IH]; intros [|y l'] E; try done. csimpl. injection E as -> E. by rewrite (IH l').
Qed.

Lemma filter_ranks units : Forall (fun u => rank_of u < 8) units -> sum_list ((fun n => count_rank n units) <$> seq 0 8) = length units.
Proof.
  unfold count_rank. induction 1 as [|u l Hu Hl IH]; [done|]. cbn [length]. rewrite <- IH. cbn -[filter].
  rewrite !filter_cons. repeat (case_decide; try lia); cbn [length]; lia.
Qed.
Lemma rank_bound u : rank_of u < 8.
Proof. unfold rank_of. destruct (cu_payload u); lia. Qed.

Ltac rank_cases := intros [? []]; cbn; split; first [done|by intros [? ?]|by eexists].

Section properties.
Context `{TokenEstimator}.

(** The bundle, from the units shown and the units left out. *)
Lemma build_context_spec input :
  is_usize (ci_budget input) ->
  exists c body callers shown rest,
    build_context input = Some c /\
    (want_source (ci_sections input) = true -> source_body input = Some body) /\
    (want_source (ci_sections input) = false -> body = None) /\
    (callers, c_callers_omitted c, c_test_callers_omitted c) =
      cap_callers (ci_callers input) (if is_callers_only (ci_sections input) then None else Some default_caps) /\
    units_in_priority_order input body callers = shown ++ rest /\
    c_token_upper_bound c = cost_of cu_text shown /\ (c_token_upper_bound c <= ci_budget input)%N /\ c_budget c = ci_budget input /\
    sec_items (c_declaration c) = kept as_declaration shown /\ sec_items (c_file_outline c) = kept as_outline shown /\
    sec_items (c_callers c) = kept as_caller shown /\ sec_items (c_annotated c) = kept as_annotated shown /\
    sec_items (c_java_text_references c) = kept as_java shown /\ sec_items (c_kotlin_text_references c) = kept as_kotlin shown /\
    sec_items (c_implementors c) = kept as_implementor shown /\
    split_source body (kept as_source shown) = Some (c_source c, c_matched_source c) /\
    section_sizes c = rank_sizes shown rest <$> seq 0 8.
Proof.
  intros Hb. destruct (context_parts input) as (body & [[callers co] tco] & Hbody & Hwant & Hc). cbn [fst snd] in Hc.
  destruct Hc as [Ecap Hbuild].
  set (offered := units_in_priority_order input body callers) in *.
  destruct (emit_within_budget_spec cu_text offered (ci_budget input) Hb) as (rest & Hin & Hcost & Hbound & _).
  set (e := emit_within_budget cu_text offered (ci_budget input)) in *.
  destruct (kept_units input body callers) as (_ & Hks & _). fold offered in Hks.
  destruct (split_source_spec body (kept as_source (items e)) (kept as_source rest)) as (o & m & Esplit & Hom).
  { by rewrite <- Hks, Hin, kept_app. }
  specialize (Hbuild o m Esplit). eexists _, body, callers, (items e), rest. split; [exact Hbuild|].
  assert (forall b, body = Some b -> sb_matched b = true -> exists ls, sc_matched <$> sb_candidates b = Some <$> ls) as Hmatched.
  { intros b -> Hm. destruct Hbody as [?|[_ Hb']]; [done|]. destruct (source_body_spec input) as (o' & Eo & _ & Ho).
    rewrite Hb' in Eo. injection Eo as <-. destruct (Ho b eq_refl) as (raw & _ & Hr).
    destruct (ci_source_match input); [|destruct Hr; congruence]. destruct Hr as [_ ->]. eexists. by rewrite list_fmap_compose. }
  cbn -[section_sizes seq]. split_and!; try done.
  { intros Hw. destruct Hbody as [?|[Hw' _]]; [done|congruence]. }
  unfold section_sizes. cbn -[rank_sizes sizes source_sizes section]. rewrite Hin.
  rewrite (section_size as_declaration 0), (section_size as_outline 2), (section_size as_caller 3), (section_size as_annotated 4),
    (section_size as_java 5), (section_size as_kotlin 6), (section_size as_implementor 7) by rank_cases.
  do 2 f_equal. unfold source_sizes, rank_sizes. cbn.
  rewrite <- !(kept_count as_source 1) by rank_cases. rewrite Hin, kept_app in Hks.
  destruct body as [b|]; [|destruct Hom as [-> ->]; apply app_eq_nil in Hks as [-> ->]; done].
  destruct (sb_matched b) eqn:Em; destruct Hom as [-> ->]; cbn; f_equal; [|apply length_fmap].
  destruct (Hmatched b eq_refl Em) as [ls Els]. cbn in Hks. rewrite <- Hks, fmap_app in Els. symmetry in Els.
  apply fmap_app_inv in Els as (l1 & l2 & E1 & _ & _).
  rewrite (omap_all_some _ _ l1 E1). by rewrite <- (length_fmap sc_matched), E1, length_fmap.
Qed.

Lemma context_omitted_sizes c :
  c_source c = None \/ c_matched_source c = None -> context_omitted c = sum_list (snd <$> section_sizes c).
Proof.
  unfold context_omitted, section_sizes, source_sizes, sizes.
  destruct (c_source c), (c_matched_source c); cbn; intros [?|?]; try done; lia.
Qed.

Lemma split_source_one body kept o m : split_source body kept = Some (o, m) -> o = None \/ m = None.
Proof. unfold split_source. intros E. invert_some E; auto. Qed.

(** C9: A context bundle spends its budget in the stated order and owns up to the rest. On every input
    it is built; the reported bound is exactly the cost of the units it shows and within the budget;
    every section lists, in order, the first of what it was offered; the omissions reported over all
    sections are exactly the units left out; and once a section has lost anything, every later section
    is empty, so no caller is bought with the budget an outline needed. *)
Theorem context_accounts (input : ContextInput) :
  is_usize (ci_budget input) ->
  exists c body callers shown rest,
    build_context input = Some c /\
    units_in_priority_order input body callers = shown ++ rest /\
    c_token_upper_bound c = cost_of cu_text shown /\ (c_token_upper_bound c <= c_budget c)%N /\
    sec_items (c_declaration c) `prefix_of` offered_declaration input /\
    sec_items (c_file_outline c) `prefix_of` offered_outline input /\
    sec_items (c_callers c) `prefix_of` if_callers input callers /\
    sec_items (c_annotated c) `prefix_of` if_callers input (ci_annotated input) /\
    sec_items (c_java_text_references c) `prefix_of` if_callers input (ci_java_text_references input) /\
    sec_items (c_kotlin_text_references c) `prefix_of` if_callers input (ci_kotlin_text_references input) /\
    sec_items (c_implementors c) `prefix_of` offered_implementors input /\
    context_omitted c = length rest /\
    forall i j lost later, i < j -> snd <$> section_sizes c !! i = Some lost -> fst <$> section_sizes c !! j = Some later ->
      lost <> 0 -> later = 0.
Proof.
  intros Hb. destruct (build_context_spec input Hb) as (c & body & callers & shown & rest & Hc & _ & _ & _ & Hu & Hcost & Hle & Hbudget &
    Hd & Ho & Hcl & Ha & Hj & Hk & Hi & Hs & Hsizes).
  exists c, body, callers, shown, rest. pose proof (kept_units input body callers) as Hkept. cbn zeta in Hkept. rewrite Hu, !kept_app in Hkept.
  destruct Hkept as (Kd & _ & Ko & Kc & Ka & Kj & Kk & Ki).
  rewrite Hd, Ho, Hcl, Ha, Hj, Hk, Hi, <- Kd, <- Ko, <- Kc, <- Ka, <- Kj, <- Kk, <- Ki, Hbudget.
  split_and!; try done; try by eexists.
  - rewrite context_omitted_sizes by by eapply split_source_one. rewrite Hsizes, <- list_fmap_compose.
    rewrite <- (filter_ranks rest); [done|]. apply Forall_forall. intros u _. apply rank_bound.
  - intros i j lost later Hij Elost Elater Hne. rewrite Hsizes, list_lookup_fmap in Elost, Elater.
    apply fmap_Some in Elost as (x & Ex & ->). apply fmap_Some in Ex as (n & [Hn _]%lookup_seq & ->).
    apply fmap_Some in Elater as (y & Ey & ->). apply fmap_Some in Ey as (k & [Hk' _]%lookup_seq & ->). cbn in *. subst n k.
    pose proof (units_sorted input body callers) as Hsort. rewrite Hu in Hsort. apply StronglySorted_app in Hsort as (Hcross & _).
    unfold count_rank in *. apply length_zero_iff_nil, elem_of_nil_inv. intros u [Eu Hin]%list_elem_of_filter.
    destruct (filter (fun v => rank_of v = i) rest) as [|v l] eqn:Ev; [done|].
    assert (v ∈ filter (fun v => rank_of v = i) rest) as [Evi Hv]%list_elem_of_filter by (rewrite Ev; left).
    specialize (Hcross u v Hin Hv). lia.
Qed.

(** The sum of a line's index and [--around] does not overflow. *)
Definition around_fits (input : ContextInput) : Prop :=
  forall source spec, ci_source input = Some source -> ci_source_match input = Some spec ->
    (N.of_nat (length source) + N.of_nat (sm_around spec) <= usize_max)%N.

(** C10: The body shown is the declaration's own source. There is one unless the section was not asked
    for or the declaration has no span in the file. A whole-body section holds the first lines of the
    declaration's span, neutralized, from its first line to its last, or to the file's last when it ends
    past it or says no end; a matched section holds, in file order and under their absolute numbers, the
    first of exactly the lines within [--around] of a match, a gap marked before a line exactly when its
    predecessor in the body was left out; either way what is shown and what is reported as omitted add
    up. This is so while the file's lines and [--around] together stay below the largest [usize]: a
    larger [--around] overflows. *)
Theorem context_source_exact (input : ContextInput) :
  is_usize (ci_budget input) -> around_fits input ->
  exists c, build_context input = Some c /\
  match c_source c, c_matched_source c with
  | None, None => want_source (ci_sections input) = false \/ forall body raw, ~ body_of input body raw
  | Some s, None => exists body raw, body_of input body raw /\ ci_source_match input = None /\
      so_start_line s = sb_start_line body /\ so_end_line s = sb_end_line body /\
      so_lines s `prefix_of` raw /\ length (so_lines s) + so_omitted_lines s = length raw
  | None, Some m => exists body raw spec all, body_of input body raw /\ ci_source_match input = Some spec /\
      ms_start_line m = sb_start_line body /\ ms_end_line m = sb_end_line body /\
      ms_lines m `prefix_of` all /\ length (ms_lines m) + ms_omitted_lines m = length all /\
      StronglySorted (fun a b => (ml_number a < ml_number b)%N) all /\
      forall l, l ∈ all <-> exists i text, raw !! i = Some text /\ near spec raw i /\
        l = mkMatchedLine (sb_start_line body + N.of_nat i) text (ml_gap_before l) /\
        (ml_gap_before l = true <-> 0 < i /\ ~ near spec raw (i - 1))
  | Some _, Some _ => False
  end.
Proof.
  intros Hb Hfits. destruct (build_context_spec input Hb) as (c & body & callers & shown & rest & Hc & Hsrc & Hno & _ & Hu & _ & _ & _ &
    _ & _ & _ & _ & _ & _ & _ & Hs & _).
  exists c. split; [done|]. pose proof (kept_units input body callers) as (_ & Hks & _). rewrite Hu, kept_app in Hks.
  destruct (split_source_spec body (kept as_source shown) (kept as_source rest) (eq_sym Hks)) as (o & m & Es & Hom).
  rewrite Hs in Es. injection Es as -> ->. destruct body as [b|].
  2: { destruct Hom as [-> ->]. destruct (want_source (ci_sections input)); [|by left]. right.
    destruct (source_body_spec input) as (ob & Eb & Hnone & _). rewrite Hsrc in Eb by done. injection Eb as <-. by apply Hnone. }
  destruct (want_source (ci_sections input)); [|by specialize (Hno eq_refl)].
  destruct (source_body_spec input) as (ob & Eb & _ & Hbody). rewrite Hsrc in Eb by done. injection Eb as <-.
  destruct (Hbody b eq_refl) as (raw & Hof & Hcand). cbn in Hks. set (first := kept as_source shown) in *. set (last := kept as_source rest) in *.
  destruct (ci_source_match input) as [spec|] eqn:Ematch; destruct Hcand as [Em Hcand]; rewrite Em in Hom; destruct Hom as [-> ->]; cbn.
  - destruct (elem_of_kept raw spec) as [Hsorted _].
    assert (N.of_nat (length raw) + N.of_nat (sm_around spec) <= usize_max)%N as Hfit.
    { destruct Hof as (file & source & span & lines & _ & Es & _ & _ & _ & _ & _ & Hslice & -> & _). specialize (Hfits source spec Es Ematch).
      unfold slice in Hslice. destruct (_ && _); [|done]. injection Hslice as <-. rewrite length_fmap, length_take, length_drop. lia. }
    pose proof (kept_indices_spec raw spec Hfit) as Hkept. set (ks := kept_indices raw spec) in *.
    set (all := numbered raw (sb_start_line b) ks <$> ks).
    assert (sc_matched <$> first ++ last = Some <$> all) as Hall by (by rewrite Hks, Hcand, list_fmap_compose).
    rewrite fmap_app in Hall. apply eq_sym, fmap_app_inv in Hall as (l1 & l2 & E1 & E2 & Eall).
    rewrite (omap_all_some _ _ l1) by done. exists b, raw, spec, all. split_and!; try done.
    + rewrite Eall. by eexists.
    + rewrite Eall, length_app. f_equal. by rewrite <- (length_fmap Some l2), <- E2, length_fmap.
    + by apply numbered_sorted.
    + intros l. unfold all. rewrite list_elem_of_fmap. split.
      * intros (i & -> & [Hlt Hn]%Hkept). apply lookup_lt_is_Some_2 in Hlt as [text Ht]. exists i, text.
        unfold numbered. rewrite Ht. cbn [default ml_gap_before]. split_and!; [done|done|done|].
        rewrite bool_decide_eq_true, Hkept. apply lookup_lt_Some in Ht. split; intros [? Hx]; (split; [done|]); [|tauto].
        intros Hy. apply Hx. split; [lia|done].
      * intros (i & text & Ht & Hn & El & Hgap). exists i. apply lookup_lt_Some in Ht as Hlt. split; [|by apply Hkept].
        rewrite El. unfold numbered. rewrite Ht. cbn [default]. f_equal. apply eq_true_iff_eq. rewrite Hgap, bool_decide_eq_true, Hkept.
        split; intros [? Hx]; (split; [done|]); [tauto|]. intros Hy. apply Hx. split; [lia|done].
  - assert (raw = (sc_raw <$> first) ++ (sc_raw <$> last)) as Eraw by by rewrite <- Hcand, <- Hks, fmap_app.
    exists b, raw. split_and!; try done; rewrite Eraw; [by eexists|by rewrite length_app, !length_fmap].
Qed.

End properties.

(** The caller caps keep a sample and count the rest: with caps, the listing is a subsequence of the
    callers, its production entries are the first ten and its test entries the first three, and each
    omission count is exactly the callers of that kind beyond the cap; [--only callers] keeps all. *)
Theorem cap_callers_exact (callers : list RelatedDeclaration) :
  cap_callers callers None = (callers, 0, 0) /\
  let '(kept, production_omitted, test_omitted) := cap_callers callers (Some default_caps) in
  kept `sublist_of` callers /\
  filter is_shipping kept = take 10 (filter is_shipping callers) /\ filter is_test kept = take 3 (filter is_test callers) /\
  length (filter is_shipping kept) + production_omitted = length (filter is_shipping callers) /\
  length (filter is_test kept) + test_omitted = length (filter is_test callers).
Proof.
  split; [done|]. cbn [cap_callers]. destruct (cap_fold_spec default_caps callers) as (Hs & Hp & Ht & _ & _ & -> & ->).
  set (k := foldl _ _ _) in *. rewrite Hp, Ht, !length_take. cbn [cap_production cap_test default_caps].
  unfold DEFAULT_PRODUCTION_CALLER_CAP, DEFAULT_TEST_CALLER_CAP. split_and!; try done; lia.
Qed.

(** ** Witnesses *)

Definition ledger_source : list str :=
  [lit "package shop"; lit "class Ledger {"; lit "  fun post() {"; lit "    check()"; lit "    save()"; lit "  }"; lit "}"].
Definition ledger_file : FileSkeleton :=
  mkFile (lit "Ledger.kt") (Some (lit "shop")) [] [declaration_new Class_ (lit "Ledger") 2] false false.
Definition ledger_input (budget : N) (source_match : option SourceMatch) : ContextInput :=
  mkContextInput (mkDefinition (lit "shop.Ledger") (lit "Ledger.kt") 2 (lit "class Ledger")) Complete all_sections
    (Some ledger_file) (Some ledger_source) source_match [mkRelated (lit "App.kt") 4 (Some (lit "shop.App.run")) None 2 false]
    [] [] [] [] budget None.
Definition save_lines : SourceMatch := mkSourceMatch (fun l => contains_str l (lit "save")) 0.

Lemma context_accounts_witness :
  exists c, build_context (ledger_input 20 None) = Some c /\ (c_token_upper_bound c <= 20)%N.
Proof.
  destruct (context_accounts (ledger_input 20 None)) as (c & _ & _ & _ & _ & Hc & _ & _ & Hle & _); [compute_done|].
  exists c. split; [exact Hc|]. replace 20%N with (c_budget c); [exact Hle|].
  vm_compute in Hc. apply (inj Some) in Hc as <-. reflexivity.
Defined.

Lemma context_source_exact_witness :
  (is_usize (ci_budget (ledger_input 1000 (Some save_lines))) /\ around_fits (ledger_input 1000 (Some save_lines))) /\
  exists c m, build_context (ledger_input 1000 (Some save_lines)) = Some c /\ c_matched_source c = Some m /\
    ms_lines m = [mkMatchedLine 5 (lit "    save()") true].
Proof.
  assert (around_fits (ledger_input 1000 (Some save_lines))) as Hfits by (intros source spec [= <-] [= <-]; compute_done).
  split; [split; [compute_done|exact Hfits]|].
  destruct (context_source_exact (ledger_input 1000 (Some save_lines))) as (c & Hc & _); [compute_done|exact Hfits|].
  exists c. assert (build_context (ledger_input 1000 (Some save_lines)) = Some c) as Hc' by exact Hc.
  vm_compute in Hc'. apply (inj Some) in Hc' as <-. eexists. split; [exact Hc|]. split; reflexivity.
Defined.

(** ** The bound and the newlines between lines

    The bound is the sum of the lines' estimates; the renderer joins the lines with line feeds it does
    not measure, so the text shown can cost more than the reported bound. *)

Definition two_lines : ContextInput :=
  mkContextInput (mkDefinition (lit "wide") (lit "W.kt") 1 []) Complete (mkSections true false false false)
    (Some (mkFile (lit "W.kt") None [] [declaration_new Function_ (lit "wide") 1] false false))
    (Some [lit "fun wide(a: Int) ="; lit "  2222222222222222"]) None [] [] [] [] [] 1000 None.

Lemma newlines_exceed_bound :
  exists input c s, build_context input = Some c /\ c_source c = Some s /\
    (c_token_upper_bound c < estimate (join [10%N] (so_lines s)))%N.
Proof.
  exists two_lines.
  eexists _, _. split; [vm_compute; reflexivity|]. split; [reflexivity|]. vm_compute. reflexivity.
Qed.

