(* ===== verification/Answers.v ===== *)
(** * Answers: the Markdown and Graphviz documents

    Models the document renderers of [crates/ktsense-core/src/render.rs]: dependencies, maps, traces,
    annotated listings, text references, grep answers and context bundles. An [append_*] function of
    the code is the text it appends. *)
From Stdlib Require Import QArith Qcanon.
From S2P Require Import Prelude Collections Budget Graph Text Skeleton References Sites Implementors Imports Trace Render RepoMap Lines Context.

Set Default Proof Using "Type*".

Definition nl : str := [10%N].

(** ** Shared layout *)

Definition append_lines {T} (items : list T) (render_line : T -> str) : str :=
  match items with
  | [] => lit "- none" ++ nl
  | _ => concat ((fun item => render_line item ++ nl) <$> items)
  end.

(** A fenced block in a language. *)
Definition fenced (language body : str) : str :=
  let fence := fence_for body in nl ++ fence ++ language ++ nl ++ body ++ nl ++ fence ++ nl.

(** ** Dependencies *)

Definition render_deps_markdown (g : ImportGraph) : str :=
  lit "# Dependencies" ++ nl ++ nl
  ++ lit "Level: " ++ noun (ig_level g) ++ lit ". " ++ pluralize (length (ig_nodes g)) (noun (ig_level g)) ++ lit ", "
  ++ pluralize (length (ig_edges g)) (lit "edge") ++ lit ", " ++ pluralize (length (ig_external g)) (lit "external import")
  ++ lit ", " ++ pluralize (length (ig_cycles g)) (lit "cycle") ++ lit "." ++ nl
  ++ nl ++ lit "## Edges" ++ nl
  ++ append_lines (ig_edges g) (fun e => lit "- " ++ neutralize (de_from e) ++ lit " -> " ++ neutralize (de_to e))
  ++ nl ++ lit "## Cycles" ++ nl
  ++ append_lines (ig_cycles g) (fun c => lit "- { " ++ join_neutralized c ++ lit " }")
  ++ nl ++ lit "## External imports" ++ nl
  ++ append_lines (ig_external g) (fun e => lit "- " ++ neutralize (ex_source e) ++ lit " -> " ++ neutralize (ex_import e))
  ++ nl ++ lit "Resolution is syntactic: edges are import statements, not type-checked references." ++ nl.

Definition quote : str := [34%N].
Definition render_deps_dot (g : ImportGraph) : str :=
  lit "digraph deps {" ++ nl ++ lit "  rankdir=LR;" ++ nl
  ++ concat ((fun n => lit "  " ++ quote ++ neutralize n ++ quote ++ lit ";" ++ nl) <$> ig_nodes g)
  ++ concat ((fun e => lit "  " ++ quote ++ neutralize (de_from e) ++ quote ++ lit " -> " ++ quote ++ neutralize (de_to e)
                       ++ quote ++ lit ";" ++ nl) <$> ig_edges g)
  ++ lit "}" ++ nl.

(** ** Maps *)

Definition append_map_summary (m : RepoMap) : str :=
  match files_without_public_declarations_line (m_files_without_public_declarations m) with
  | Some line => nl ++ line ++ nl
  | None => []
  end
  ++ match omitted_directories_line (m_omitted_directories m) (m_omitted_directories_shown m) with
     | Some line => nl ++ line ++ nl
     | None => []
     end.

Definition declarations_in (files : list MappedFile) : nat := sum_list ((length ∘ mf_declarations) <$> files).

Definition focus_only_summary (m : RepoMap) (other_files_not_mapped : N) : str :=
  let '(files, declarations) := match m_focus m with
                                | Some focus => (length (fm_files focus), declarations_in (fm_files focus))
                                | None => (0, 0)
                                end in
  lit "Focus only: " ++ pluralize declarations (lit "declaration") ++ lit " in " ++ pluralize files (lit "file") ++ lit "; "
  ++ pluralize (N.to_nat other_files_not_mapped) (lit "other file") ++ lit " not mapped, pass --fill to map them".

(** One mapped file under a heading of the given depth. *)
Definition mapped_file (heading : str) (f : MappedFile) : str :=
  nl ++ heading ++ lit " " ++ neutralize (mf_path f) ++ nl ++ fenced (lit "kotlin") (join nl (mf_declarations f)).

Definition append_focus_section (m : RepoMap) : str :=
  match m_focus m with
  | None => []
  | Some focus =>
      nl ++ lit "## Focus: " ++ neutralize (fm_pattern focus) ++ lit " ("
      ++ pluralize (declarations_in (fm_files focus)) (lit "declaration") ++ lit ")" ++ nl
      ++ match fm_files focus with
         | [] => nl ++ lit "No declaration name matched." ++ nl
         | files =>
             concat (mapped_file (lit "###") <$> files)
             ++ if (0 <? fm_omitted focus)%N
                then nl ++ pluralize (N.to_nat (fm_omitted focus)) (lit "matching declaration") ++ lit " omitted for budget." ++ nl
                else []
         end
  end.

Definition ranking_note : str :=
  lit "Ranking is syntactic: files are ordered by import centrality, then by how often their declarations are referenced by name across the corpus, with import counts breaking ties. A reference is an identifier occurrence outside an import, counted by name and not type-checked, so declarations sharing a simple name across packages share a count.".

Definition render_map_markdown (m : RepoMap) : str :=
  lit "# Repository map" ++ nl ++ nl
  ++ match m_path_filter m with
     | Some filter => lit "Path filter " ++ neutralize (join (lit ", ") (pf_substrings filter)) ++ lit ": "
                      ++ num (pf_matched_files filter) ++ lit " of " ++ num (pf_total_files filter) ++ lit " files" ++ nl
     | None => []
     end
  ++ lit "Budget " ++ dec (m_budget m) ++ lit " tokens, content bound " ++ dec (m_token_upper_bound m) ++ lit ". "
  ++ match m_other_files_not_mapped m with
     | Some other => focus_only_summary m other ++ nl ++ append_focus_section m
     | None =>
         pluralize (length (m_files m)) (lit "file") ++ lit " shown, " ++ num (m_files_omitted m) ++ lit " omitted." ++ nl
         ++ match m_files m with
            | [] => nl ++ lit "The budget was too small for any file." ++ nl ++ append_focus_section m ++ append_map_summary m
            | files => append_focus_section m ++ concat (mapped_file (lit "##") <$> files) ++ nl ++ ranking_note ++ nl
                       ++ append_map_summary m
            end
     end.

(** ** Listings *)

Definition render_annotated_titled (a : AnnotatedDeclarations) (filter_note : str) : str :=
  lit "## Annotated (" ++ num (ad_total a) ++ filter_note ++ lit ")" ++ nl
  ++ lit "precision: " ++ ad_precision a ++ nl
  ++ concat ((fun group =>
       nl ++ neutralize (ag_path group) ++ nl
       ++ concat ((fun m => lit "- " ++ neutralize (m_fqn m) ++ lit "  " ++ annotated_kind_label (m_kind m) ++ lit "  "
                            ++ dec (m_line m) ++ nl) <$> ag_declarations group)) <$> ad_groups a).
Definition render_annotated_markdown (a : AnnotatedDeclarations) : str := render_annotated_titled a [].

Definition FILE_HEADER : str := lit "(file header)".

(** [append_grep_layout]; [current] is the declaration the last site was listed under. *)
Fixpoint grep_sites (current : option (option str)) (sites : list TextReferenceSite) : str :=
  match sites with
  | [] => []
  | site :: rest =>
      (if bool_decide (current = Some (ts_enclosing site)) then []
       else neutralize (default FILE_HEADER (ts_enclosing site)) ++ nl)
      ++ lit "  " ++ dec (ts_line site) ++ lit ": " ++ trimmed_hit_line (default [] (ts_text site)) ++ nl
      ++ grep_sites (Some (ts_enclosing site)) rest
  end.
Definition append_grep_layout (g : TextReferenceGroup) : str :=
  grep_sites None (tg_sites g) ++ if 0 <? tg_omitted g then lit "  ... " ++ num (tg_omitted g) ++ lit " more" ++ nl else [].
Definition append_line_layout (g : TextReferenceGroup) : str :=
  concat ((fun site =>
    match ts_enclosing site with
    | Some fqn => lit "- " ++ dec (ts_line site) ++ lit "  " ++ neutralize fqn ++ nl
    | None => lit "- " ++ dec (ts_line site) ++ nl
    end) <$> tg_sites g)
  ++ if 0 <? tg_omitted g then lit "- ... " ++ num (tg_omitted g) ++ lit " more" ++ nl else [].

(** [total_sites - text_mention_sites]; [None] where the subtraction would underflow. *)
Definition code_count (total mentions : nat) : option nat := N.to_nat <$> checked_sub (N.of_nat total) (N.of_nat mentions).

Definition render_text_references_with_note (refs : TextReferences) (heading filter_note : str) : option str :=
  code ← (if 0 <? tr_total_sites refs then
            code_sites ← code_count (tr_total_sites refs) (tr_text_mention_sites refs);
            Some (num code_sites ++ lit " in code, " ++ num (tr_text_mention_sites refs) ++ lit " in comments or strings." ++ nl)
          else Some []);
  Some (lit "## " ++ heading ++ lit " (" ++ pluralize (tr_total_sites refs) (lit "site") ++ lit " in "
        ++ pluralize (tr_file_count refs) (lit "file") ++ filter_note ++ lit ")" ++ nl
        ++ lit "precision: " ++ tr_precision refs ++ nl ++ code
        ++ concat ((fun group =>
             nl ++ neutralize (tg_path group) ++ nl
             ++ if existsb (fun site => bool_decide (is_Some (ts_text site))) (tg_sites group)
                then append_grep_layout group else append_line_layout group) <$> tr_groups refs)).
Definition render_text_references_titled (refs : TextReferences) (heading : str) : option str :=
  render_text_references_with_note refs heading [].
Definition render_text_references_markdown (refs : TextReferences) : option str :=
  render_text_references_titled refs (lit "Text references").

Definition search_file_text (f : TextSearchFile) : str :=
  let source_set := if sf_test f then lit "test" else lit "production" in
  let label := if sf_java f then source_set ++ lit ", java" else source_set in
  nl ++ lit "### " ++ neutralize (sf_path f) ++ lit " (" ++ label ++ lit ")" ++ nl
  ++ concat ((fun d =>
       neutralize (default FILE_HEADER (sd_fqn d)) ++ nl
       ++ concat ((fun hit => lit "  " ++ dec (sl_line hit) ++ lit ": " ++ trimmed_hit_line (sl_source_line hit) ++ nl)
                  <$> sd_hits d)) <$> sf_declarations f)
  ++ if 0 <? sf_omitted f then lit "  ... " ++ num (sf_omitted f) ++ lit " more" ++ nl else [].

Definition render_text_search_markdown (search : TextSearch) : option str :=
  let out := lit "# Grep: " ++ neutralize (s_pattern search) ++ nl ++ lit "precision: " ++ s_precision search ++ nl in
  if s_total_hits search =? 0 then Some (out ++ nl ++ lit "No matches." ++ nl)
  else
    counts ← (if s_total_hits search <? ONE_FACT_HIT_LIMIT then Some []
              else code_hits ← code_count (s_total_hits search) (s_text_mention_hits search);
                   Some (pluralize (s_total_hits search) (lit "hit") ++ lit " in " ++ pluralize (s_file_count search) (lit "file")
                         ++ lit ". " ++ num code_hits ++ lit " in code, " ++ num (s_text_mention_hits search)
                         ++ lit " in comments or strings." ++ nl));
    Some (out ++ counts ++ concat (search_file_text <$> s_files search)).

(** ** Traces *)

(** The lines a filter's note adds to a heading. *)
Definition trace_note (r : TraceReport) (omitted : AppliedTraceFilter -> nat) : str :=
  from_option (fun applied => filter_note (tf_filter applied) (omitted applied)) [] (t_filter r).

Definition append_supertype_implementors (i : SupertypeImplementors) : str :=
  nl ++ lit "## Implementors (" ++ num (length (i_implementors i)) ++ lit ")" ++ nl
  ++ lit "precision: " ++ i_precision i ++ nl
  ++ concat ((fun row =>
       lit "- " ++ neutralize (i_fqn row) ++ lit "  " ++ place (i_path row) (i_line row)
       ++ from_option (fun parent => lit " via " ++ neutralize parent) [] (i_via row) ++ nl) <$> i_implementors i).

Definition append_caller_level (level : CallerLevel) (from_kotlin : bool) (filter_ : option SiteFilter) : str :=
  let production := filter (fun c => rd_test c = false) (cl_callers level) in
  let tests := filter (fun c => rd_test c = true) (cl_callers level) in
  let '(production_heading, test_heading) :=
    if cl_depth level =? 1 then (lit "## Callers", lit "## Test callers")
    else (lit "### Callers at depth " ++ num (cl_depth level), lit "### Test callers at depth " ++ num (cl_depth level)) in
  let count := if from_kotlin && (cl_depth level =? 1) then num (length production) ++ lit " from Kotlin" else num (length production) in
  let note (omitted : nat) := from_option (fun f => filter_note f omitted) [] filter_ in
  nl ++ production_heading ++ lit " (" ++ count ++ note (cl_production_omitted level) ++ lit ")" ++ nl
  ++ append_lines production related_line
  ++ match tests with
     | [] => []
     | _ => nl ++ test_heading ++ lit " (" ++ num (length tests) ++ note (cl_test_omitted level) ++ lit ")" ++ nl
            ++ append_lines tests related_line
     end.

(** The four numbers [omitted_sites_line] reconciles. *)
Record Reconciliation := mkReconciliation {
  rc_not_listed : nat;
  rc_by_limit : nat;
  rc_text_mentions : nat;
  rc_other_declarations : nat;
  rc_in_headers : nat }.
Definition reconcile (r : TraceReport) : Reconciliation :=
  let shown := sum_list ((fun g => length (g_references g)) <$> t_usages r) in
  let by_limit := sum_list (g_omitted <$> t_usages r) in
  let not_listed := t_sites r - shown in
  let text_mentions := length (filter (fun e => is_text_mention (es_kind e) = true) (t_excluded_sites r)) in
  let other_declarations := length (filter (fun e => es_kind e = DeclarationName) (t_excluded_sites r)) in
  mkReconciliation not_listed by_limit text_mentions other_declarations
    (not_listed - by_limit - text_mentions - other_declarations).
Definition omitted_reasons (symbol : str) (c : Reconciliation) : list str :=
  (if 0 <? rc_in_headers c then [num (rc_in_headers c) ++ lit " in file headers"] else [])
  ++ (if 0 <? rc_by_limit c then [num (rc_by_limit c) ++ lit " by the per-file limit"] else [])
  ++ (if 0 <? rc_text_mentions c then
        [num (rc_text_mentions c) ++ lit " " ++ (if rc_text_mentions c =? 1 then lit "text mention" else lit "text mentions")
         ++ lit " (comments, KDoc, strings)"]
      else [])
  ++ (if 0 <? rc_other_declarations c then
        [num (rc_other_declarations c) ++ lit " "
         ++ (if rc_other_declarations c =? 1 then lit "other declaration named" else lit "other declarations named")
         ++ lit " " ++ neutralize (simple_name symbol)]
      else []).
Definition omitted_sites_line (r : TraceReport) : option str :=
  let c := reconcile r in
  if rc_not_listed c =? 0 then None
  else Some (pluralize (rc_not_listed c) (lit "site") ++ lit " omitted: "
             ++ join (lit ", ") (omitted_reasons (t_symbol r) c) ++ lit "." ++ nl).

Definition append_usage_group (g : ReferenceGroup) : str :=
  nl ++ neutralize (g_path g) ++ nl
  ++ concat ((fun r =>
       lit "- " ++ dec (r_line r)
       ++ from_option (fun e => lit " in " ++ neutralize (e_qualified_name e)) [] (r_enclosing r) ++ nl) <$> g_references g)
  ++ if 0 <? g_omitted g then lit "- ... " ++ num (g_omitted g) ++ lit " more" ++ nl else [].

Definition java_note : str :=
  nl ++ lit "References from Java sources are text matches; the engine resolves Kotlin only." ++ nl.

(** An optional listing attached to the report, after a blank line. *)
Definition attached_references (refs : option TextReferences) (heading note : str) : option str :=
  match refs with
  | Some refs => text ← render_text_references_with_note refs heading note; Some (nl ++ text)
  | None => Some []
  end.

Definition render_trace_markdown (r : TraceReport) : option str :=
  let definition := t_definition r in
  java ← attached_references (t_java_text_references r) (lit "Java text references") (trace_note r tf_java_text_references_omitted);
  kotlin ← attached_references (t_kotlin_text_references r) (lit "Kotlin text references") (trace_note r tf_kotlin_text_references_omitted);
  Some (lit "# Trace: " ++ neutralize (t_symbol r) ++ nl ++ nl
  ++ lit "index: " ++ index_label (t_index r) ++ nl
  ++ (if 0 <? t_ignored_directory_results r
      then lit "ignored: " ++ pluralize (t_ignored_directory_results r) (lit "engine result")
           ++ lit " inside ignored directories such as bin/" ++ nl
      else [])
  ++ nl ++ lit "## Definition" ++ nl ++ nl ++ place (df_path definition) (df_line definition) ++ nl
  ++ (if bool_decide (df_signature definition = []) then [] else fenced (fence_language (df_path definition)) (df_signature definition))
  ++ match t_supertype_implementors r with
     | Some found => append_supertype_implementors found
     | None => nl ++ lit "## Implementors (" ++ num (length (t_implementors r)) ++ lit ")" ++ nl
               ++ append_lines (t_implementors r) related_line
     end
  ++ concat ((fun level => append_caller_level level (bool_decide (is_Some (t_java_text_references r))) (tf_filter <$> t_filter r))
             <$> t_callers r)
  ++ nl ++ lit "## Usages (" ++ pluralize (t_sites r) (lit "site") ++ lit " in " ++ pluralize (length (t_usages r)) (lit "file")
  ++ trace_note r tf_usages_omitted ++ lit ")" ++ nl
  ++ default [] (omitted_sites_line r)
  ++ concat (append_usage_group <$> t_usages r)
  ++ match t_annotated r with
     | Some annotated =>
         if annotated_is_empty annotated then []
         else nl ++ render_annotated_titled annotated (trace_note r tf_annotated_omitted)
     | None => []
     end
  ++ java ++ kotlin
  ++ (if ends_with (df_path definition) (lit ".java") then java_note else [])
  ++ nl ++ lit "Callers are the declarations enclosing each reference site; the engine reports no call hierarchy. Resolution is syntactic, not type-checked." ++ nl).

(** ** Context bundles *)

Definition append_context_blocks (s : ContextSection str) (unit language : str) : str :=
  match sec_items s with
  | [] => nl ++ if 0 <? sec_omitted s then lit "Omitted for budget: " ++ pluralize (sec_omitted s) unit ++ lit "." ++ nl
                else lit "None." ++ nl
  | items =>
      fenced language (join nl items)
      ++ if 0 <? sec_omitted s then nl ++ lit "Omitted for budget: " ++ pluralize (sec_omitted s) unit ++ lit "." ++ nl else []
  end.
Definition append_context_lines {T} (s : ContextSection T) (line : T -> str) : str :=
  if is_absent s then lit "- none" ++ nl
  else concat ((fun d => line d ++ nl) <$> sec_items s)
       ++ if 0 <? sec_omitted s then lit "- ... " ++ num (sec_omitted s) ++ lit " omitted for budget" ++ nl else [].

Definition matched_body_text (m : MatchedSource) : str :=
  join nl (concat ((fun l => (if ml_gap_before l then [lit "..."] else []) ++ [dec (ml_number l) ++ lit ": " ++ ml_text l])
                   <$> ms_lines m)).
Definition lines_range (c : SymbolContext) (first last : N) : str :=
  neutralize (df_path (c_definition c)) ++ lit ":" ++ dec first ++ lit "-" ++ dec last.
Definition append_matched_source (c : SymbolContext) (m : MatchedSource) : str :=
  nl ++ lit "## Source" ++ nl
  ++ match ms_lines m with
     | [] => nl ++ lit "No source lines matched." ++ nl
     | _ => fenced [] (matched_body_text m)
     end
  ++ if 0 <? ms_omitted_lines m
     then nl ++ num (ms_omitted_lines m) ++ lit " more matched lines omitted; read "
          ++ lines_range c (ms_start_line m) (ms_end_line m) ++ nl
     else [].
Definition append_source (c : SymbolContext) (language : str) : str :=
  match c_matched_source c, c_source c with
  | Some matched, _ => append_matched_source c matched
  | None, Some s =>
      nl ++ lit "## Source" ++ nl
      ++ match so_lines s with [] => [] | lines => fenced language (join nl lines) end
      ++ if 0 <? so_omitted_lines s
         then nl ++ num (so_omitted_lines s) ++ lit " more lines omitted; read "
              ++ lines_range c (so_start_line s + N.of_nat (length (so_lines s))) (so_end_line s) ++ nl
         else []
  | None, None => []
  end.

Definition context_note (c : SymbolContext) (omitted : AppliedContextFilter -> nat) : str :=
  from_option (fun applied => filter_note (cf_filter applied) (omitted applied)) [] (c_filter c).
(** A section that only appears when it has something, under a heading with its size. *)
Definition optional_section {T} (heading note preface : str) (s : ContextSection T) (line : T -> str) : str :=
  if 0 <? available s
  then nl ++ lit "## " ++ heading ++ lit " (" ++ num (available s) ++ note ++ lit ")" ++ nl ++ preface ++ append_context_lines s line
  else [].
Definition text_match_line : str := lit "precision: text match" ++ nl.
Definition more_callers (c : SymbolContext) (omitted : nat) (what : str) : str :=
  if 0 <? omitted then nl ++ num omitted ++ what ++ lit "; trace " ++ neutralize (c_symbol c) ++ lit " lists them all" ++ nl else [].

(** The lines between the title and the declaration. *)
Definition context_preamble (c : SymbolContext) (one_fact : bool) : str :=
  (if negb one_fact || match c_index c with Partial => true | Complete => false end
   then lit "index: " ++ index_label (c_index c) ++ nl else [])
  ++ (if one_fact then []
      else lit "Budget " ++ dec (c_budget c) ++ lit " tokens, content bound " ++ dec (c_token_upper_bound c) ++ lit ". "
           ++ pluralize (context_omitted c) (lit "item") ++ lit " omitted for budget." ++ nl).

Definition render_context_markdown (c : SymbolContext) : str :=
  let matched := bool_decide (is_Some (c_matched_source c)) in
  let one_fact := negb (sections_is_all (c_sections c)) || matched in
  let language := fence_language (df_path (c_definition c)) in
  let preamble := context_preamble c one_fact in
  lit "# Context: " ++ neutralize (c_symbol c) ++ nl
  ++ (if matched then neutralize (df_qualified_name (c_definition c)) ++ lit "  "
                      ++ place (df_path (c_definition c)) (df_line (c_definition c)) ++ nl
      else [])
  ++ (if bool_decide (preamble = []) then [] else nl ++ preamble)
  ++ (if matched then []
      else nl ++ lit "## Declaration" ++ nl ++ nl ++ place (df_path (c_definition c)) (df_line (c_definition c)) ++ nl
           ++ append_context_blocks (c_declaration c) (lit "signature") language)
  ++ append_source c language
  ++ (if want_outline (c_sections c) then
        nl ++ lit "## File outline: " ++ neutralize (df_path (c_definition c)) ++ nl
        ++ append_context_blocks (c_file_outline c) (lit "declaration") language
      else [])
  ++ (if want_callers (c_sections c) then
        let callers := available (c_callers c) + c_test_callers_omitted c + c_callers_omitted c in
        nl ++ lit "## Callers (" ++ num callers
        ++ (if 0 <? available (c_java_text_references c) then lit " from Kotlin" else [])
        ++ context_note c cf_callers_omitted ++ lit ")" ++ nl
        ++ append_context_lines (c_callers c) context_caller_line
        ++ more_callers c (c_callers_omitted c) (lit " more callers")
        ++ more_callers c (c_test_callers_omitted c) (lit " more test callers")
      else [])
  ++ optional_section (lit "Annotated") (context_note c cf_annotated_omitted) [] (c_annotated c) annotated_context_line
  ++ optional_section (lit "Java text references") (context_note c cf_java_text_references_omitted) text_match_line
       (c_java_text_references c) foreign_reference_line
  ++ optional_section (lit "Kotlin text references") (context_note c cf_kotlin_text_references_omitted) text_match_line
       (c_kotlin_text_references c) foreign_reference_line
  ++ (if want_callers (c_sections c) && ends_with (df_path (c_definition c)) (lit ".java") then java_note else [])
  ++ (if want_implementors (c_sections c) then
        nl ++ lit "## Implementors (" ++ num (available (c_implementors c)) ++ lit ")" ++ nl
        ++ append_context_lines (c_implementors c) related_line
      else [])
  ++ (if one_fact then []
      else nl ++ lit "Callers are the declarations enclosing each reference site; the engine reports no call hierarchy. Resolution is syntactic, not type-checked. The content bound covers the declaration, its source, the outline, and the caller and implementor lines the budget gated, not the headings around them." ++ nl).

(** ** Lemmas: documents of safe lines *)

(** Line feeds apart, no character of the document breaks a line or reorders it. *)
Definition doc_safe (s : str) : Prop := Forall (fun c => is_unsafe_in_output c = false \/ c = 10%N) s.

Lemma doc_of_safe s : all_safe s -> doc_safe s.
Proof. intros Hs. eapply Forall_impl; [exact Hs|]. auto. Qed.
Lemma doc_nl : doc_safe nl.
Proof. apply Forall_singleton. by right. Qed.
Lemma doc_safe_app a b : doc_safe a -> doc_safe b -> doc_safe (a ++ b).
Proof. intros. by apply Forall_app. Qed.
Lemma doc_concat {T} (f : T -> str) l : Forall (fun x => doc_safe (f x)) l -> doc_safe (concat (f <$> l)).
Proof. induction 1; csimpl; [constructor|by apply doc_safe_app]. Qed.
Lemma doc_concat_all {T} (f : T -> str) l : (forall x, doc_safe (f x)) -> doc_safe (concat (f <$> l)).
Proof. intros Hf. by apply doc_concat, Forall_forall. Qed.
Lemma doc_lines {T} (f : T -> str) l : (forall x, all_safe (f x)) -> doc_safe (append_lines l f).
Proof.
  intros Hf. unfold append_lines. destruct l as [|x l]; [apply doc_safe_app; [by apply doc_of_safe, safe_by_test|apply doc_nl]|].
  apply doc_concat_all. intros y. apply doc_safe_app; [by apply doc_of_safe|apply doc_nl].
Qed.
Lemma doc_join l : Forall doc_safe l -> doc_safe (join nl l).
Proof.
  induction 1 as [|x [|y l] Hx Hl IH]; [constructor|done|]. rewrite join_cons. apply doc_safe_app; [done|]. by apply doc_safe_app; [apply doc_nl|].
Qed.
Lemma fence_safe body : all_safe (fence_for body).
Proof. unfold fence_for. apply Forall_replicate. by vm_compute. Qed.
Lemma doc_fenced language body : all_safe language -> doc_safe body -> doc_safe (fenced language body).
Proof.
  intros Hl Hb. unfold fenced. pose proof (doc_of_safe _ (fence_safe body)). apply doc_of_safe in Hl.
  repeat apply doc_safe_app; first [apply doc_nl|done].
Qed.

Definition filter_safe (f : SiteFilter) : Prop := Forall all_safe (f_path f).
Lemma describe_safe f : filter_safe f -> all_safe (describe f).
Proof.
  intros Hf. unfold describe. case_bool_decide; destruct (f_tests f); repeat apply all_safe_app; try (apply join_safe; [|exact Hf]);
    by first [apply safe_by_test|constructor].
Qed.
Lemma filter_note_safe f n : filter_safe f -> all_safe (filter_note f n).
Proof. intros Hf. unfold filter_note. pose proof (describe_safe f Hf). eauto 8 with safe. Qed.
Lemma fence_language_safe path : all_safe (fence_language path).
Proof. unfold fence_language. case_match; by apply safe_by_test. Qed.
Lemma noun_safe level : all_safe (noun level).
Proof. destruct level; by apply safe_by_test. Qed.
Lemma index_label_safe i : all_safe (index_label i).
Proof. destruct i; by apply safe_by_test. Qed.
Lemma quote_safe : all_safe quote.
Proof. by apply safe_by_test. Qed.
#[export] Hint Resolve fence_safe fence_language_safe noun_safe index_label_safe quote_safe filter_note_safe : safe.

(** Takes a document apart down to lines that are safe. *)
Ltac doc_step :=
  match goal with
  | |- doc_safe (_ ++ _) => apply doc_safe_app
  | |- doc_safe nl => apply doc_nl
  | |- doc_safe [] => constructor
  | |- doc_safe (id _) => unfold id
  | |- doc_safe (if ?b then _ else _) => destruct b
  | |- doc_safe (match ?x with _ => _ end) => destruct x
  | |- doc_safe (from_option _ _ ?o) => destruct o; cbn [from_option]
  | |- doc_safe (fenced _ _) => apply doc_fenced; [solve [eauto with safe]|]
  | |- doc_safe (concat (_ <$> _)) => apply doc_concat_all; intros ?
  | |- doc_safe (append_lines _ _) => apply doc_lines; intros ?; solve [eauto 12 with safe]
  | |- doc_safe _ => apply doc_of_safe; solve [eauto 12 with safe]
  end.
Ltac doc := repeat doc_step.

Lemma deps_markdown_safe g : doc_safe (render_deps_markdown g).
Proof. unfold render_deps_markdown. doc. Qed.
Lemma deps_dot_safe g : doc_safe (render_deps_dot g).
Proof. unfold render_deps_dot. doc. Qed.

(** ** Lemmas: listings *)

Lemma precision_safe : all_safe TEXT_MATCH_PRECISION /\ all_safe ANNOTATION_PRECISION /\ all_safe SUPERTYPE_PRECISION.
Proof. split_and!; by apply safe_by_test. Qed.
Lemma file_header_safe : all_safe FILE_HEADER.
Proof. by apply safe_by_test. Qed.

Lemma annotated_safe a note : all_safe (ad_precision a) -> all_safe note -> doc_safe (render_annotated_titled a note).
Proof. intros Hp Hn. unfold render_annotated_titled. doc. Qed.

Lemma grep_sites_safe current sites : doc_safe (grep_sites current sites).
Proof.
  revert current. induction sites as [|site sites IH]; intros current; cbn [grep_sites]; [constructor|].
  repeat apply doc_safe_app; try apply IH; doc.
Qed.
Lemma layout_safe g : doc_safe (append_grep_layout g) /\ doc_safe (append_line_layout g).
Proof.
  unfold append_grep_layout, append_line_layout. split; [apply doc_safe_app; [apply grep_sites_safe|]|]; doc.
Qed.

Lemma code_count_some total mentions : mentions <= total -> code_count total mentions = Some (total - mentions).
Proof. intros Hm. unfold code_count. rewrite checked_sub_le by lia. cbn. f_equal. lia. Qed.

(** What the builders guarantee of a text listing. *)
Definition refs_built (r : TextReferences) : Prop := tr_text_mention_sites r <= tr_total_sites r /\ all_safe (tr_precision r).
Lemma build_grouped_built symbol sites limit attribute : refs_built (build_grouped symbol sites limit attribute).
Proof. split; [apply length_filter|apply precision_safe]. Qed.

Lemma text_references_safe refs heading note :
  refs_built refs -> all_safe heading -> all_safe note ->
  exists text, render_text_references_with_note refs heading note = Some text /\ doc_safe text.
Proof.
  intros [Hm Hp] Hh Hn. unfold render_text_references_with_note. rewrite code_count_some by done.
  set (code := if 0 <? tr_total_sites refs then _ else _).
  assert (exists text, code = Some text /\ doc_safe text) as (text & -> & Ht).
  { unfold code. destruct (0 <? tr_total_sites refs); eexists; (split; [reflexivity|]); doc. }
  eexists. split; [reflexivity|]. repeat apply doc_safe_app; try exact Ht; doc; apply layout_safe.
Qed.

Lemma search_file_safe f : doc_safe (search_file_text f).
Proof. unfold search_file_text. doc. Qed.

Lemma text_search_safe pattern hits skeletons limit :
  exists text, render_text_search_markdown (build_text_search pattern hits skeletons limit) = Some text /\ doc_safe text.
Proof.
  unfold render_text_search_markdown, build_text_search. cbn [s_total_hits s_text_mention_hits s_precision s_pattern s_file_count s_files].
  rewrite code_count_some by apply length_filter. destruct precision_safe as [Hp _].
  destruct (length hits =? 0); [eexists; split; [reflexivity|]; doc|].
  destruct (length hits <? ONE_FACT_HIT_LIMIT); cbn [mbind option_bind]; eexists; (split; [reflexivity|]); doc; apply search_file_safe.
Qed.

(** ** Lemmas: traces *)

Lemma place_doc path line : doc_safe (place path line).
Proof. apply doc_of_safe, place_safe. Qed.
Lemma supertype_implementors_safe i : all_safe (i_precision i) -> doc_safe (append_supertype_implementors i).
Proof. intros Hp. unfold append_supertype_implementors. doc. Qed.
Lemma caller_level_safe level from_kotlin f :
  (forall x, f = Some x -> filter_safe x) -> doc_safe (append_caller_level level from_kotlin f).
Proof.
  intros Hf. unfold append_caller_level.
  assert (forall n, all_safe (from_option (fun f => filter_note f n) [] f)) as Hnote.
  { intros n. destruct f as [x|]; [by apply filter_note_safe, Hf|constructor]. }
  destruct (cl_depth level =? 1); doc.
Qed.
Lemma omitted_reasons_safe symbol c : Forall all_safe (omitted_reasons symbol c).
Proof.
  unfold omitted_reasons.
  repeat (apply Forall_app; split); (case_match; [|by constructor]); apply Forall_singleton;
    repeat apply all_safe_app; try case_match; eauto with safe.
Qed.
Lemma omitted_sites_line_safe r : doc_safe (default [] (omitted_sites_line r)).
Proof.
  unfold omitted_sites_line. case_match; cbn [default]; [constructor|].
  assert (all_safe (join (lit ", ") (omitted_reasons (t_symbol r) (reconcile r)))) as Hj.
  { apply join_safe; [by apply safe_by_test|apply omitted_reasons_safe]. }
  doc.
Qed.
Lemma usage_group_safe g : doc_safe (append_usage_group g).
Proof. unfold append_usage_group. doc. Qed.

(** What a report holds once its sections come from their builders. *)
Record report_built (r : TraceReport) : Prop := {
  RB_signature : doc_safe (df_signature (t_definition r));
  RB_filter : forall applied, t_filter r = Some applied -> filter_safe (tf_filter applied);
  RB_supertypes : forall i, t_supertype_implementors r = Some i -> all_safe (i_precision i);
  RB_annotated : forall a, t_annotated r = Some a -> all_safe (ad_precision a);
  RB_java : forall refs, t_java_text_references r = Some refs -> refs_built refs;
  RB_kotlin : forall refs, t_kotlin_text_references r = Some refs -> refs_built refs }.

(** A step attaches what a builder produced. *)
Definition step_built (step : TraceStep) : Prop :=
  match step with
  | AttachSupertypes i => all_safe (i_precision i)
  | AttachAnnotated a => all_safe (ad_precision a)
  | AttachJava refs | AttachKotlin refs => refs_built refs
  | _ => True
  end.
Definition input_safe (input : TraceInput) : Prop :=
  doc_safe (df_signature (ti_definition input)) /\ forall f, ti_filter input = Some f -> filter_safe f.

Lemma build_trace_built input : input_safe input -> report_built (build_trace input).
Proof.
  intros [Hs Hf]. destruct (build_trace_parts input) as (_ & _ & _ & _ & _ & Ef).
  assert (forall applied, t_filter (build_trace input) = Some applied -> filter_safe (tf_filter applied)) as Hfilter.
  { intros applied. rewrite Ef. destruct (ti_filter input) as [f|]; [|done]. intros [= <-]. by apply Hf. }
  clear Ef. split; [|exact Hfilter|..]; unfold build_trace; destruct (partition_sites _ _), (ti_filter input); done.
Qed.
Lemma apply_step_built r step : report_built r -> step_built step -> report_built (apply_step r step).
Proof.
  intros [Hs Hf Hi Ha Hj Hk] Hstep. destruct step; split; try done; cbn in *.
  - intros applied E. destruct (t_filter r) as [f|]; [|done]. injection E as <-. exact (Hf f eq_refl).
  - by intros ? [= <-].
  - by intros ? [= <-].
  - by intros ? [= <-].
  - by intros ? [= <-].
Qed.
Lemma steps_built r steps : report_built r -> Forall step_built steps -> report_built (foldl apply_step r steps).
Proof.
  intros Hr Hsteps. revert r Hr. induction Hsteps as [|step steps Hstep Hsteps IH]; intros r Hr; [done|].
  by apply IH, apply_step_built.
Qed.

Lemma trace_note_safe r omitted : report_built r -> all_safe (trace_note r omitted).
Proof.
  intros [_ Hf _ _ _ _]. unfold trace_note. destruct (t_filter r) as [applied|]; [|constructor].
  by apply filter_note_safe, Hf.
Qed.
Lemma attached_safe refs heading note :
  (forall x, refs = Some x -> refs_built x) -> all_safe heading -> all_safe note ->
  exists text, attached_references refs heading note = Some text /\ doc_safe text.
Proof.
  intros Hr Hh Hn. unfold attached_references. destruct refs as [x|]; [|by exists []; split; [done|constructor]].
  destruct (text_references_safe x heading note) as (text & E & Ht); auto. rewrite E.
  eexists. split; [reflexivity|]. by apply doc_safe_app; [apply doc_nl|].
Qed.

Lemma report_document_safe r :
  report_built r -> exists text, render_trace_markdown r = Some text /\ doc_safe text.
Proof.
  intros Hr. pose proof (fun o => trace_note_safe r o Hr) as Hn. unfold render_trace_markdown.
  destruct (attached_safe (t_java_text_references r) (lit "Java text references") (trace_note r tf_java_text_references_omitted))
    as (java & -> & Hjava); [apply Hr|by apply safe_by_test|apply Hn|].
  destruct (attached_safe (t_kotlin_text_references r) (lit "Kotlin text references") (trace_note r tf_kotlin_text_references_omitted))
    as (kotlin & -> & Hkotlin); [apply Hr|by apply safe_by_test|apply Hn|].
  cbn [mbind option_bind]. eexists. split; [reflexivity|]. pose proof (omitted_sites_line_safe r) as Ho.
  assert (doc_safe match t_supertype_implementors r with
    | Some found => append_supertype_implementors found
    | None => nl ++ lit "## Implementors (" ++ num (length (t_implementors r)) ++ lit ")" ++ nl
              ++ append_lines (t_implementors r) related_line
    end) as Hi.
  { destruct (t_supertype_implementors r) as [i|] eqn:E; [by apply supertype_implementors_safe, Hr|]. doc. }
  assert (doc_safe match t_annotated r with
    | Some annotated => if annotated_is_empty annotated then []
                        else nl ++ render_annotated_titled annotated (trace_note r tf_annotated_omitted)
    | None => [] end) as Ha.
  { destruct (t_annotated r) as [a|] eqn:E; [|constructor]. destruct (annotated_is_empty a); [constructor|].
    apply doc_safe_app; [apply doc_nl|]. apply annotated_safe; [by apply Hr|apply Hn]. }
  pose proof (RB_signature _ Hr) as Hs.
  assert (forall level, doc_safe (append_caller_level level (bool_decide (is_Some (t_java_text_references r))) (tf_filter <$> t_filter r))) as Hc.
  { intros level. apply caller_level_safe. intros x E. destruct (t_filter r) as [applied|] eqn:Ef; [|done].
    injection E as <-. by eapply RB_filter. }
  pose proof usage_group_safe as Hu.
  repeat (apply doc_safe_app; [solve [exact Hi|exact Ha|exact Ho|exact Hjava|exact Hkotlin|doc;done|doc; unfold java_note; doc]|]).
  doc.
Qed.

(** ** Lemmas: context bundles *)

Lemma skeleton_text_safe f o : doc_safe (render_skeleton f o).
Proof. apply doc_join. eapply Forall_impl; [apply skeleton_lines_safe|]. apply doc_of_safe. Qed.

Definition section_safe (s : ContextSection str) : Prop := Forall doc_safe (sec_items s).
Lemma context_blocks_safe s unit language :
  section_safe s -> all_safe unit -> all_safe language -> doc_safe (append_context_blocks s unit language).
Proof.
  intros Hs Hu Hl. unfold append_context_blocks. apply doc_join in Hs.
  destruct (sec_items s); [doc|]. apply doc_safe_app; [by apply doc_fenced|]. doc.
Qed.
Lemma context_lines_safe {T} (s : ContextSection T) line : (forall x, all_safe (line x)) -> doc_safe (append_context_lines s line).
Proof. intros Hl. unfold append_context_lines. doc. Qed.
Lemma optional_section_safe {T} heading note preface (s : ContextSection T) line :
  all_safe heading -> all_safe note -> doc_safe preface -> (forall x, all_safe (line x)) ->
  doc_safe (optional_section heading note preface s line).
Proof.
  intros Hh Hn Hp Hl. unfold optional_section. pose proof (context_lines_safe s line Hl).
  destruct (0 <? available s); [|constructor]. repeat (apply doc_safe_app; [solve [done|doc]|]). done.
Qed.

Definition matched_safe (m : MatchedSource) : Prop := Forall (fun l => all_safe (ml_text l)) (ms_lines m).
Lemma matched_body_safe m : matched_safe m -> doc_safe (matched_body_text m).
Proof.
  intros Hm. unfold matched_body_text. apply doc_join, Forall_concat, Forall_fmap. eapply Forall_impl; [exact Hm|].
  intros l Hl. cbn. apply Forall_app. split; [destruct (ml_gap_before l); repeat constructor; by apply doc_of_safe, safe_by_test|].
  apply Forall_singleton. apply doc_of_safe. eauto with safe.
Qed.
Lemma lines_range_safe c a b : all_safe (lines_range c a b).
Proof. unfold lines_range. eauto 8 with safe. Qed.
#[export] Hint Resolve lines_range_safe : safe.

(** What a built bundle holds. *)
Record context_built (c : SymbolContext) : Prop := {
  CB_declaration : section_safe (c_declaration c);
  CB_outline : section_safe (c_file_outline c);
  CB_source : forall s, c_source c = Some s -> Forall all_safe (so_lines s);
  CB_matched : forall m, c_matched_source c = Some m -> matched_safe m;
  CB_filter : forall applied, c_filter c = Some applied -> filter_safe (cf_filter applied) }.

Lemma source_safe c language : context_built c -> all_safe language -> doc_safe (append_source c language).
Proof.
  intros Hc Hl. unfold append_source. destruct (c_matched_source c) as [m|] eqn:Em.
  - apply (CB_matched _ Hc), matched_body_safe in Em. unfold append_matched_source. doc. done.
  - destruct (c_source c) as [s|] eqn:Es; [|constructor]. apply (CB_source _ Hc) in Es.
    assert (doc_safe (join nl (so_lines s))) as Hj by (apply doc_join; eapply Forall_impl; [exact Es|apply doc_of_safe]).
    destruct (so_lines s); doc; exact Hj.
Qed.
Lemma context_note_safe c omitted : context_built c -> all_safe (context_note c omitted).
Proof.
  intros Hc. unfold context_note. destruct (c_filter c) as [applied|] eqn:E; [|constructor].
  by apply filter_note_safe, (CB_filter _ Hc).
Qed.
Lemma more_callers_safe c n what : all_safe what -> doc_safe (more_callers c n what).
Proof. intros Hw. unfold more_callers. doc. Qed.

Lemma bundle_document_safe c : context_built c -> doc_safe (render_context_markdown c).
Proof.
  intros Hc. unfold render_context_markdown. pose proof (fun o => context_note_safe c o Hc) as Hn.
  pose proof (source_safe c (fence_language (df_path (c_definition c))) Hc ltac:(eauto with safe)) as Hs.
  pose proof (context_blocks_safe _ (lit "signature") (fence_language (df_path (c_definition c))) (CB_declaration _ Hc)
    ltac:(eauto with safe) ltac:(eauto with safe)) as Hd.
  pose proof (context_blocks_safe _ (lit "declaration") (fence_language (df_path (c_definition c))) (CB_outline _ Hc)
    ltac:(eauto with safe) ltac:(eauto with safe)) as Ho.
  pose proof (context_lines_safe (c_callers c) context_caller_line ltac:(eauto with safe)) as Hcl.
  pose proof (context_lines_safe (c_implementors c) related_line ltac:(eauto with safe)) as Hi.
  pose proof (fun n w => more_callers_safe c n w) as Hm.
  cbv zeta. set (matched := bool_decide _). set (one_fact := _ || matched).
  assert (doc_safe (context_preamble c one_fact)) as Hp by (unfold context_preamble; doc).
  repeat (apply doc_safe_app; [solve [exact Hs|apply optional_section_safe; eauto with safe; unfold text_match_line; doc
    |doc; first [done|by apply Hm, safe_by_test|unfold java_note; doc]]|]).
  doc.
Qed.

(** What is offered to a bundle, unit by unit. *)
Definition matched_line_safe (l : MatchedLine) : Prop := all_safe (ml_text l).
Definition body_safe (b : SourceBody) : Prop :=
  if sb_matched b then Forall matched_line_safe (omap sc_matched (sb_candidates b)) else Forall all_safe (sc_raw <$> sb_candidates b).
Lemma neutralized_safe lines : Forall all_safe (neutralize <$> lines).
Proof. apply Forall_fmap, Forall_forall. intros l _. eauto with safe. Qed.
Lemma source_body_safe input b : source_body input = Some (Some b) -> body_safe b.
Proof.
  intros E. destruct (source_body_spec input) as (o & Eo & _ & Ho). rewrite E in Eo. injection Eo as <-.
  destruct (Ho b eq_refl) as (raw & Hof & Hb).
  assert (Forall all_safe raw) as Hraw by (destruct Hof as (? & ? & ? & lines & _ & _ & _ & _ & _ & _ & _ & _ & -> & _); apply neutralized_safe).
  unfold body_safe. destruct (ci_source_match input) as [spec|]; destruct Hb as [-> Hb]; [|by rewrite Hb].
  rewrite list_fmap_compose in Hb. rewrite (omap_all_some _ _ _ Hb). apply Forall_fmap, Forall_forall. intros i _.
  unfold matched_line_safe. cbn. destruct (raw !! i) as [text|] eqn:Ei; [|constructor]. by eapply Forall_lookup_1 in Ei.
Qed.
Lemma offered_outline_safe input : Forall doc_safe (offered_outline input).
Proof.
  unfold offered_outline. destruct (want_outline _); [|constructor]. destruct (ci_file input) as [f|]; [|constructor].
  apply Forall_forall. intros block (d & _ & Hd)%list_elem_of_omap. unfold outline_block in Hd. case_bool_decide; [done|].
  injection Hd as <-. apply skeleton_text_safe.
Qed.

Definition context_input_safe (input : ContextInput) : Prop :=
  doc_safe (df_signature (ci_definition input)) /\ forall applied, ci_filter input = Some applied -> filter_safe (cf_filter applied).

Lemma build_context_filter `{TokenEstimator} input c : build_context input = Some c -> c_filter c = ci_filter input.
Proof.
  unfold build_context. intros (body & _ & E)%bind_Some. destruct (cap_callers _ _) as [[? ?] ?].
  apply bind_Some in E as ([s m] & _ & E). by injection E as <-.
Qed.

Lemma context_is_built `{TokenEstimator} input :
  is_usize (ci_budget input) -> context_input_safe input -> exists c, build_context input = Some c /\ context_built c.
Proof.
  intros Hb [Hsig Hf]. destruct (build_context_spec input Hb) as (c & body & callers & shown & rest & Hc & Hsrc & Hno & _ & Hu & _ & _ & _ &
    Hd & Ho & _ & _ & _ & _ & _ & Hs & _).
  exists c. split; [done|]. pose proof (kept_units input body callers) as Hkept. cbn zeta in Hkept. rewrite Hu, !kept_app in Hkept.
  destruct Hkept as (Kd & Ks & Ko & _). destruct (split_source_spec _ _ _ (eq_sym Ks)) as (o & m & Es & Hom).
  rewrite Hs in Es. injection Es as Eo Em.
  assert (forall b, body = Some b -> body_safe b) as Hbody.
  { intros b ->. destruct (want_source (ci_sections input)); [|by specialize (Hno eq_refl)]. by apply (source_body_safe input), Hsrc. }
  split.
  - unfold section_safe. rewrite Hd.
    assert (Forall doc_safe (kept as_declaration shown ++ kept as_declaration rest)) as [? _]%Forall_app; [|done].
    rewrite Kd. unfold offered_declaration. case_bool_decide; by repeat constructor.
  - unfold section_safe. rewrite Ho.
    assert (Forall doc_safe (kept as_outline shown ++ kept as_outline rest)) as [? _]%Forall_app; [|done].
    rewrite Ko. apply offered_outline_safe.
  - rewrite Eo. destruct body as [b|]; [|by destruct Hom as [-> _]]. specialize (Hbody b eq_refl). unfold body_safe in Hbody. cbn in Ks.
    destruct (sb_matched b); [by destruct Hom as [-> _]|]. destruct Hom as [-> _]. intros s [= <-]. cbn.
    rewrite <- Ks, fmap_app in Hbody. by apply Forall_app in Hbody as [? _].
  - rewrite Em. destruct body as [b|]; [|by destruct Hom as [_ ->]]. specialize (Hbody b eq_refl). unfold body_safe in Hbody. cbn in Ks.
    destruct (sb_matched b); [|by destruct Hom as [_ ->]]. destruct Hom as [_ ->]. intros s [= <-]. cbn.
    rewrite <- Ks, omap_app in Hbody. by apply Forall_app in Hbody as [? _].
  - intros applied. rewrite (build_context_filter input c Hc). apply Hf.
Qed.

(** ** Lemmas: the reconciliation of the usages *)

Lemma sum_split {A} (f g : A -> nat) l : sum_list ((fun x => f x + g x) <$> l) = sum_list (f <$> l) + sum_list (g <$> l).
Proof. induction l; csimpl; lia. Qed.

(** Excluded sites are mentions in text or names of other declarations. *)
Lemma excluded_split (l : list ExcludedSite) :
  Forall (fun e => is_code (es_kind e) = false) l ->
  length (filter (fun e => is_text_mention (es_kind e) = true) l) + length (filter (fun e => es_kind e = DeclarationName) l)
  = length l.
Proof.
  induction 1 as [|e l He _ IH]; [done|]. rewrite !filter_cons. cbn [length].
  destruct (es_kind e); cbn in He |- *; try discriminate; repeat case_decide; try done; cbn [length]; lia.
Qed.

(** ** Properties *)

(** A trace says where every site it does not list went. For a built report, the sites listed
    and the sites said to be omitted are all the sites kept; the four reasons given - file headers,
    the per-file limit, text mentions, other declarations of the name - add up to exactly the sites
    omitted, with no subtraction saturating; the header count is the number of code sites above
    their file's first declaration; and the line is left out exactly when every site is listed. *)
Theorem usages_reconciled (input : TraceInput) :
  let r := build_trace input in
  let c := reconcile r in
  let kept := (partition_sites (ti_reference_sites input) (ti_filter input)).1 in
  let shown := sum_list ((fun g => length (g_references g)) <$> t_usages r) in
  shown + rc_not_listed c = length kept /\
  rc_in_headers c + rc_by_limit c + rc_text_mentions c + rc_other_declarations c = rc_not_listed c /\
  rc_in_headers c = length (filter (fun s => listed (ti_definition_site input) s = true /\
    past_header (ti_skeletons input) (ti_options input) s = false) kept) /\
  (omitted_sites_line r = None <-> shown = length kept).
Proof.
  intros r c kept shown. destruct (build_trace_parts input) as (_ & _ & Eu & Es & Ee & _). fold r kept in Eu, Es, Ee.
  set (P := fun s => listed (ti_definition_site input) s = true) in *.
  set (Q := fun s => past_header (ti_skeletons input) (ti_options input) s = true) in *.
  pose proof (usages_count (filter P kept) (ti_skeletons input) (ti_options input)) as Hcount.
  rewrite <- Eu, sum_split in Hcount. fold shown Q in Hcount.
  assert (length (filter P kept) + length (t_excluded_sites r) = length kept) as Hsplit.
  { rewrite Ee. unfold sort_by_key. rewrite length_sort_by, length_fmap, <- length_app. apply Permutation_length.
    rewrite <- (filter_app_complement P kept) at 3. f_equiv. apply Permutation_refl', list_filter_iff.
    intros s. unfold P. symmetry. apply not_true_iff_false. }
  assert (length (filter Q (filter P kept)) + length (filter (fun s => listed (ti_definition_site input) s = true /\
    past_header (ti_skeletons input) (ti_options input) s = false) kept) = length (filter P kept)) as Hheaders.
  { rewrite <- length_app. apply Permutation_length. rewrite <- (filter_app_complement Q (filter P kept)) at 2. f_equiv.
    rewrite !list_filter_filter. apply Permutation_refl', list_filter_iff.
    intros s. unfold P, Q. rewrite not_true_iff_false. tauto. }
  assert (Forall (fun e => is_code (es_kind e) = false) (t_excluded_sites r)) as Hcode.
  { rewrite Ee, sort_by_key_perm. apply Forall_fmap, Forall_forall. intros s [Hl _]%list_elem_of_filter.
    unfold listed in Hl. by apply orb_false_iff in Hl as [? _]. }
  apply excluded_split in Hcode. unfold c, reconcile. cbn [rc_not_listed rc_by_limit rc_text_mentions rc_other_declarations rc_in_headers].
  fold shown. rewrite Es. split_and!; try lia. unfold omitted_sites_line, reconcile. cbn [rc_not_listed]. fold shown. rewrite Es.
  destruct (Nat.eqb_spec (length kept - shown) 0); split; try done; lia.
Qed.

(** C22: A trace document lets no text of the source or the engine out raw, beside the two texts it prints as they are: the
    signature of the definition, and the prefixes of a path filter ([unsafe_filter_printed]). With a signature and a filter
    that are free of control characters and bidirectional overrides (line feeds in the signature apart), and precision
    labels and notes of the attached sections that are free of them too, as the sections that the commands build have them,
    then, whatever the engine answered and however hostile the paths, names and source lines are, a report built from the
    input, with any such sections attached, is rendered, and every character of the document is a plain one or a line feed. *)
Theorem trace_document_safe (input : TraceInput) (steps : list TraceStep) :
  input_safe input -> Forall step_built steps ->
  exists text, render_trace_markdown (foldl apply_step (build_trace input) steps) = Some text /\
    Forall (fun c => is_unsafe_in_output c = false \/ c = 10%N) text.
Proof. intros Hi Hs. by apply report_document_safe, steps_built; [apply build_trace_built|]. Qed.

(** A context bundle never lets source text out raw: on every budget it is built and rendered,
    and every character of the document, source lines, matched lines and outline included, is a
    plain one or a line feed. *)
Theorem context_document_safe `{TokenEstimator} (input : ContextInput) :
  is_usize (ci_budget input) -> context_input_safe input ->
  exists c, build_context input = Some c /\
    Forall (fun c => is_unsafe_in_output c = false \/ c = 10%N) (render_context_markdown c).
Proof. intros Hb Hi. destruct (context_is_built input Hb Hi) as (c & Hc & Hbuilt). exists c. split; [done|]. by apply bundle_document_safe. Qed.

(** ** Witnesses *)

Definition hostile : str := lit "a" ++ [10%N; 8238%N] ++ lit "b".
Definition hostile_trace : TraceInput :=
  mkTraceInput (mkDefinition hostile hostile 1 (lit "fun run()")) Complete (mkLocation hostile 1 None Code)
    [] [mkLocation hostile 7 None Code; mkLocation hostile 9 None Comment] [] (mkGrouping None true) None.
Definition hostile_steps : list TraceStep :=
  [AttachJava (build_grouped hostile [] None (fun _ _ => (None, None))); DeeperCallers []; AttachIgnored 2].

Lemma trace_document_safe_witness :
  exists text, render_trace_markdown (foldl apply_step (build_trace hostile_trace) hostile_steps) = Some text /\ doc_safe text.
Proof.
  apply (trace_document_safe hostile_trace hostile_steps).
  - split; [by apply doc_of_safe, safe_by_test|done].
  - unfold hostile_steps. repeat constructor; vm_compute; lia.
Defined.

Definition hostile_context : ContextInput :=
  mkContextInput (mkDefinition (lit "shop.Ledger") (lit "Ledger.kt") 2 (lit "class Ledger")) Complete all_sections
    (Some ledger_file) (Some [lit "package shop"; hostile; hostile]) None [] [] [] [] [] 100 None.
Lemma context_document_safe_witness :
  exists c, build_context hostile_context = Some c /\ doc_safe (render_context_markdown c).
Proof.
  apply (context_document_safe hostile_context); [compute_done|].
  split; [by apply doc_of_safe, safe_by_test|done].
Defined.

(** ** A filter printed raw

    The map neutralizes the filter it names; a trace prints the prefixes it was given in the headings they filter. *)
Definition hostile_filter_trace : TraceInput :=
  mkTraceInput (mkDefinition (lit "run") (lit "Run.kt") 1 (lit "fun run()")) Complete (mkLocation (lit "Run.kt") 1 None Code)
    [] [] [] (mkGrouping None true) (filter_new [lit "a" ++ [8238%N] ++ lit "b"] AllScope).
Lemma unsafe_filter_printed :
  exists text, render_trace_markdown (build_trace hostile_filter_trace) = Some text /\ 8238%N ∈ text /\ is_unsafe_in_output 8238%N = true.
Proof. eexists. split; [vm_compute; reflexivity|]. split; [|reflexivity]. apply (bool_decide_unpack _). vm_compute. exact I. Qed.

(** ** A directory printed raw

    The renderers are documented to neutralize source-derived text; the map's omission line prints
    directory names as they are. *)

Definition raw_directory_input : RepoMapInput :=
  mkMapInput [demo_file (lit "a" ++ [8238%N] ++ lit "b/Pay.kt") [replicate 600 (ch "p")]; demo_file (lit "c.kt") [lit "x"]]
    (from_counts [(lit "x", 9%N)]) 120 [] false None false.
Lemma omitted_directory_raw :
  exists m, build_repo_map (F := Qc) default_options raw_directory_input = Some m /\ 8238%N ∈ render_map_markdown m.
Proof. eexists. split; [vm_compute; reflexivity|]. apply (bool_decide_unpack _). vm_compute. exact I. Qed.
