(* ===== verification/Framing.v ===== *)
(** * Framing: Content-Length frames over a byte stream

    Models [crates/ktsense-lsp/src/framing.rs] and the read loop of [client.rs] ([Reader::run]): the
    incremental decoder keeps the bytes not yet consumed, and the loop pushes each chunk read and
    takes every frame that is complete. Bytes are numbers below 256. *)
From S2P Require Import Prelude Text.

Set Default Proof Using "Type*".

Definition HEADER_TERMINATOR : list N := [13; 10; 13; 10]%N.
Definition CONTENT_LENGTH : str := lit "content-length".
Definition MAX_CONTENT_LENGTH : N := 64 * 1024 * 1024.
Definition MAX_HEADER_BYTES : N := 8192.
Definition isize_max : N := 9223372036854775807.

Inductive FramingError :=
  | MissingContentLength
  | InvalidContentLength (value : str)
  | InvalidHeaderText
  | FrameTooLarge (length limit : N)
  | HeaderTooLarge (limit : N).

(** ** Bytes and text *)

(** [std::str::from_utf8]: the scalar values the bytes encode, if they are well-formed. *)
Definition continuation (lo hi b : N) : bool := (lo <=? b)%N && (b <=? hi)%N.
Definition low6 (b : N) : N := (b mod 64)%N.
Fixpoint from_utf8 (bytes : list N) : option str :=
  match bytes with
  | [] => Some []
  | b0 :: rest0 =>
      if (b0 <? 128)%N then cons b0 <$> from_utf8 rest0
      else match rest0 with
      | [] => None
      | b1 :: rest1 =>
          if continuation 0xC2 0xDF b0 then
            if continuation 0x80 0xBF b1 then cons ((b0 mod 32) * 64 + low6 b1)%N <$> from_utf8 rest1 else None
          else match rest1 with
          | [] => None
          | b2 :: rest2 =>
              if continuation 0xE0 0xEF b0 then
                if continuation (if (b0 =? 0xE0)%N then 0xA0 else 0x80) (if (b0 =? 0xED)%N then 0x9F else 0xBF) b1
                   && continuation 0x80 0xBF b2
                then cons ((b0 mod 16) * 4096 + low6 b1 * 64 + low6 b2)%N <$> from_utf8 rest2 else None
              else match rest2 with
              | [] => None
              | b3 :: rest3 =>
                  if continuation 0xF0 0xF4 b0
                     && continuation (if (b0 =? 0xF0)%N then 0x90 else 0x80) (if (b0 =? 0xF4)%N then 0x8F else 0xBF) b1
                     && continuation 0x80 0xBF b2 && continuation 0x80 0xBF b3
                  then cons ((b0 mod 8) * 262144 + low6 b1 * 4096 + low6 b2 * 64 + low6 b3)%N <$> from_utf8 rest3 else None
              end
          end
      end
  end.

(** [str::split] on CRLF. *)
Fixpoint split_crlf (s : str) : list str :=
  match s with
  | [] => [[]]
  | c :: s' =>
      let piece := match split_crlf s' with p :: ps => (c :: p) :: ps | [] => [[c]] end in
      match s' with
      | d :: s'' => if (c =? 13)%N && (d =? 10)%N then [] :: split_crlf s'' else piece
      | [] => piece
      end
  end.

(** ** [framing.rs] *)

Definition encode (body : list N) : list N :=
  as_bytes (lit "Content-Length: " ++ dec (N.of_nat (length body))) ++ HEADER_TERMINATOR ++ body.

Arguments encode : simpl never.

Fixpoint find_subslice (haystack needle : list N) : option nat :=
  if starts_with haystack needle then Some 0
  else match haystack with [] => None | _ :: rest => S <$> find_subslice rest needle end.

Fixpoint content_length_in (lines : list str) : FramingError + N :=
  match lines with
  | [] => inl MissingContentLength
  | line :: rest =>
      match split_once (ch ":") line with
      | None => content_length_in rest
      | Some (name, value) =>
          if eq_ignore_ascii_case (trim name) CONTENT_LENGTH then
            match parse_unsigned usize_max (trim value) with
            | Some n => inr n
            | None => inl (InvalidContentLength (trim value))
            end
          else content_length_in rest
      end
  end.
Definition parse_content_length (header_block : str) : FramingError + N := content_length_in (split_crlf header_block).

(** [body_start.checked_add(length).filter(..).ok_or(..)]. *)
Definition frame_end_of (body_start : nat) (length : N) : FramingError + nat :=
  match checked_add (N.of_nat body_start) length with
  | Some stop => if (length <=? MAX_CONTENT_LENGTH)%N && (stop <=? isize_max)%N then inr (N.to_nat stop)
                 else inl (FrameTooLarge length MAX_CONTENT_LENGTH)
  | None => inl (FrameTooLarge length MAX_CONTENT_LENGTH)
  end.

(** [FrameDecoder::push] and [FrameDecoder::next_frame], on the decoder's buffer. *)
Definition push (buffer bytes : list N) : list N := buffer ++ bytes.
Definition next_frame (buffer : list N) : (FramingError + option (list N)) * list N :=
  match find_subslice buffer HEADER_TERMINATOR with
  | None => if (MAX_HEADER_BYTES <? N.of_nat (length buffer))%N then (inl (HeaderTooLarge MAX_HEADER_BYTES), buffer) else (inr None, buffer)
  | Some separator =>
      match from_utf8 (take separator buffer) with
      | None => (inl InvalidHeaderText, buffer)
      | Some header_text =>
          match parse_content_length header_text with
          | inl e => (inl e, buffer)
          | inr length_ =>
              let body_start := separator + length HEADER_TERMINATOR in
              match frame_end_of body_start length_ with
              | inl e => (inl e, buffer)
              | inr frame_end =>
                  if length buffer <? frame_end then (inr None, buffer)
                  else (inr (Some (take (frame_end - body_start) (drop body_start buffer))), drop frame_end buffer)
              end
          end
      end
  end.

(** ** The read loop of [Reader::run] *)

(** The inner loop: every complete frame, until more bytes are needed or a fault. *)
Fixpoint drain (fuel : nat) (buffer : list N) : option (list (list N) * option FramingError * list N) :=
  match fuel with
  | O => None
  | S fuel =>
      match next_frame buffer with
      | (inl e, buffer) => Some ([], Some e, buffer)
      | (inr None, buffer) => Some ([], None, buffer)
      | (inr (Some body), buffer) => '(bodies, fault, rest) ← drain fuel buffer; Some (body :: bodies, fault, rest)
      end
  end.
(** The outer loop over the chunks read before the stream closes: the bodies dispatched, the decoding
    fault, and the bytes left in the decoder. *)
Fixpoint read_chunks (buffer : list N) (chunks : list (list N)) : option (list (list N) * option FramingError * list N) :=
  match chunks with
  | [] => Some ([], None, buffer)
  | chunk :: rest =>
      '(bodies, fault, buffer) ← drain (S (length (push buffer chunk))) (push buffer chunk);
      match fault with
      | Some e => Some (bodies, Some e, buffer)
      | None => '(more, fault, buffer) ← read_chunks buffer rest; Some (bodies ++ more, fault, buffer)
      end
  end.

(** ** Lemmas: searching *)

Lemma find_subslice_spec h n i :
  find_subslice h n = Some i <-> n `prefix_of` drop i h /\ forall j, j < i -> ~ n `prefix_of` drop j h.
Proof.
  revert i. induction h as [|x h IH]; intros i; cbn [find_subslice].
  - destruct (starts_with [] n) eqn:E.
    + apply starts_with_spec in E. split.
      * intros [= <-]. split; [done|lia].
      * intros [_ Hj]. destruct i as [|i]; [done|]. exfalso. apply (Hj 0); [lia|done].
    + split; [done|]. intros [Hp _]. rewrite drop_nil in Hp. apply starts_with_spec in Hp. congruence.
  - destruct (starts_with (x :: h) n) eqn:E.
    + apply starts_with_spec in E. split.
      * intros [= <-]. split; [done|lia].
      * intros [_ Hj]. destruct i as [|i]; [done|]. exfalso. apply (Hj 0); [lia|done].
    + rewrite fmap_Some. split.
      * intros (k & [Hp Hk]%IH & ->). split; [done|]. intros [|j] Hj; [|apply Hk; lia].
        cbn [drop]. intros Hn%starts_with_spec. congruence.
      * intros [Hp Hj]. destruct i as [|i]; [apply starts_with_spec in Hp; cbn [drop] in Hp; congruence|].
        exists i. split; [|done]. apply IH. split; [done|]. intros j Hji. apply (Hj (S j)). lia.
Qed.

Lemma find_subslice_none h n : find_subslice h n = None <-> forall i, i <= length h -> ~ n `prefix_of` drop i h.
Proof.
  induction h as [|x h IH]; cbn [find_subslice].
  - destruct (starts_with [] n) eqn:E; (split; [try done|]).
    + intros Hi. exfalso. apply (Hi 0); [done|]. by apply starts_with_spec.
    + intros _ i _ Hp%starts_with_spec. rewrite drop_nil in Hp. congruence.
    + done.
  - destruct (starts_with (x :: h) n) eqn:E.
    + split; [done|]. intros Hi. exfalso. apply (Hi 0); [lia|]. by apply starts_with_spec.
    + rewrite fmap_None, IH. split.
      * intros Hi [|i] Hl; [intros Hp%starts_with_spec; cbn [drop] in Hp; congruence|]. apply Hi. simpl in Hl. lia.
      * intros Hi i Hl. apply (Hi (S i)). simpl. lia.
Qed.

Lemma prefix_drop_app (n h more : list N) i : i <= length h -> n `prefix_of` drop i h -> n `prefix_of` drop i (h ++ more).
Proof. intros Hi Hp. rewrite drop_app_le by done. by apply prefix_app_r. Qed.

Lemma prefix_of_app_le (n a b : list N) : length n <= length a -> n `prefix_of` a ++ b -> n `prefix_of` a.
Proof.
  intros Hl [k Hk]. assert (take (length n) (a ++ b) = n) as E by by rewrite Hk, take_app_length.
  rewrite take_app_le in E by done. rewrite <- E. apply prefix_take.
Qed.

Lemma find_subslice_app h n i more : n <> [] -> find_subslice h n = Some i -> find_subslice (h ++ more) n = Some i.
Proof.
  intros Hn [Hp Hj]%find_subslice_spec. apply find_subslice_spec.
  assert (i + length n <= length h) as Hlen.
  { apply prefix_length in Hp. rewrite length_drop in Hp. destruct n; [done|simpl in *; lia]. }
  split; [apply prefix_drop_app; [lia|done]|]. intros j Hji Hpj. apply (Hj j Hji).
  rewrite drop_app_le in Hpj by lia. apply prefix_of_app_le in Hpj; [done|]. rewrite length_drop. lia.
Qed.

(** ** Lemmas: the header *)

Definition ascii_text (s : str) : Prop := Forall (fun c => (c < 128)%N) s.

Lemma as_bytes_ascii s : ascii_text s -> as_bytes s = s.
Proof.
  induction 1 as [|c s Hc Hs IH]; [done|]. unfold as_bytes in *. csimpl. rewrite IH. unfold utf8_char.
  by rewrite (proj2 (N.ltb_lt c 128) Hc).
Qed.
Lemma from_utf8_ascii s : ascii_text s -> from_utf8 s = Some s.
Proof. induction 1 as [|c s Hc Hs IH]; [done|]. cbn [from_utf8]. by rewrite (proj2 (N.ltb_lt c 128) Hc), IH. Qed.

Lemma split_crlf_free s : 13%N ∉ s -> split_crlf s = [s].
Proof.
  induction s as [|c s IH]; [done|]. rewrite not_elem_of_cons. intros [Hc Hs]. cbn [split_crlf]. rewrite IH by done.
  destruct s as [|d s]; [done|]. by rewrite (proj2 (N.eqb_neq c 13)).
Qed.

Definition header_text (n : N) : str := lit "Content-Length: " ++ dec n.

Lemma digits_text n : ascii_text (dec n) /\ Forall (fun c => is_whitespace c = false) (dec n) /\ 13%N ∉ dec n.
Proof.
  destruct (dec_digits n) as [Hd _]. split_and!.
  - eapply Forall_impl; [exact Hd|]. intros c. unfold ascii_digit. rewrite andb_true_iff, !N.leb_le. lia.
  - eapply Forall_impl; [exact Hd|]. intros c. unfold ascii_digit. rewrite andb_true_iff, !N.leb_le. intros [Hlo Hhi].
    unfold is_whitespace. rewrite !orb_false_iff, !andb_false_iff, !N.leb_gt, bool_decide_eq_false, !not_elem_of_cons.
    split_and!; try lia. apply not_elem_of_nil.
  - rewrite Forall_forall in Hd. intros Hin. apply Hd in Hin. by vm_compute in Hin.
Qed.

Lemma header_ascii n : ascii_text (header_text n) /\ 13%N ∉ header_text n.
Proof.
  destruct (digits_text n) as (Ha & _ & Hn). unfold header_text. split.
  - apply Forall_app. split; [|done]. apply Forall_forall. intros c Hc.
    assert (forallb (fun c => (c <? 128)%N) (lit "Content-Length: ") = true) as Hf by reflexivity.
    rewrite forallb_forall in Hf. apply N.ltb_lt, Hf, list_elem_of_In, Hc.
  - rewrite elem_of_app. intros [Hin|Hin]; [|done]. revert Hin. apply (bool_decide_unpack (_ ∉ _)). reflexivity.
Qed.

Lemma encode_header body : encode body = header_text (N.of_nat (length body)) ++ HEADER_TERMINATOR ++ body.
Proof. unfold encode. by rewrite as_bytes_ascii by apply header_ascii. Qed.

Lemma parse_header n : (n <= usize_max)%N -> parse_content_length (header_text n) = inr n.
Proof.
  intros Hn. unfold parse_content_length. rewrite split_crlf_free by apply header_ascii. cbn [content_length_in].
  assert (split_once (ch ":") (header_text n) = Some (lit "Content-Length", lit " " ++ dec n)) as -> by reflexivity.
  assert (eq_ignore_ascii_case (trim (lit "Content-Length")) CONTENT_LENGTH = true) as -> by reflexivity.
  assert (trim (lit " " ++ dec n) = dec n) as ->.
  { destruct (digits_text n) as (_ & Hw & _). transitivity (trim (dec n)); [reflexivity|by apply trim_id]. }
  by rewrite parse_dec.
Qed.

(** ** Lemmas: whole and partial frames *)

Definition fits (body : list N) : Prop := (N.of_nat (length body) <= MAX_CONTENT_LENGTH)%N.
(** The start of a frame, not all of it. *)
Definition partial (p : list N) : Prop := exists body q, fits body /\ encode body = p ++ q /\ q <> [].

Lemma find_terminator h rest : 13%N ∉ h -> find_subslice (h ++ HEADER_TERMINATOR ++ rest) HEADER_TERMINATOR = Some (length h).
Proof.
  intros Hh. apply find_subslice_spec. rewrite drop_app_length. split; [by eexists|]. intros j Hj [k Hk].
  apply lookup_lt_is_Some_2 in Hj as [c Hc]. assert ((h ++ HEADER_TERMINATOR ++ rest) !! j = Some 13%N) as Hc'.
  { rewrite <- (Nat.add_0_r j), <- lookup_drop, Hk. done. }
  rewrite (lookup_app_l_Some _ _ _ _ Hc) in Hc'. injection Hc' as ->. by apply list_elem_of_lookup_2 in Hc.
Qed.

Lemma header_short n : (n <= usize_max)%N -> length (header_text n) <= 100.
Proof.
  intros Hn. unfold header_text. rewrite length_app. change (length (lit "Content-Length: ")) with 16.
  destruct (dec_digits n) as [_ [_ Hl]]. enough (N.size_nat n <= 64) by lia.
  assert (N.size n <= 64)%N as Hs.
  { destruct n as [|p]; [by vm_compute|]. apply N.lt_succ_r. apply (N.pow_lt_mono_r_iff 2); [lia|].
    pose proof (N.size_le (N.pos p)) as Hle. rewrite N.succ_double_spec in Hle. unfold usize_max in Hn. change (2 ^ N.succ 64)%N with 36893488147419103232%N. lia. }
  destruct n as [|p]; [cbn; lia|]. cbn [N.size N.size_nat] in *.
  assert (Npos (Pos.size p) = N.of_nat (Pos.size_nat p)) as E by (clear; induction p as [p IH|p IH|]; cbn [Pos.size Pos.size_nat]; lia). lia.
Qed.

Lemma fits_usize body : fits body -> (N.of_nat (length body) <= usize_max)%N.
Proof. unfold fits, MAX_CONTENT_LENGTH, usize_max. lia. Qed.

Lemma frame_end_fits (h body : list N) :
  length h <= 100 -> fits body ->
  frame_end_of (length h + length HEADER_TERMINATOR) (N.of_nat (length body)) = inr (length h + 4 + length body).
Proof.
  intros Hh Hf. unfold frame_end_of, checked_add. change (length HEADER_TERMINATOR) with 4.
  unfold fits, MAX_CONTENT_LENGTH, isize_max, usize_max in *.
  rewrite (proj2 (N.leb_le (N.of_nat (length h + 4) + _) _)) by lia. rewrite !(proj2 (N.leb_le _ _)) by lia. cbn. f_equal. lia.
Qed.

Lemma next_frame_header body rest :
  fits body ->
  next_frame (header_text (N.of_nat (length body)) ++ HEADER_TERMINATOR ++ rest) =
  if length rest <? length body then (inr None, header_text (N.of_nat (length body)) ++ HEADER_TERMINATOR ++ rest)
  else (inr (Some (take (length body) rest)), drop (length body) rest).
Proof.
  intros Hf. pose proof (fits_usize _ Hf) as Hu. set (h := header_text _). pose proof (header_ascii (N.of_nat (length body))) as [Ha Hn].
  unfold next_frame. rewrite find_terminator by done. fold h. rewrite take_app_length, from_utf8_ascii by done.
  unfold h at 1. rewrite parse_header by done. rewrite frame_end_fits by (try done; by apply header_short).
  rewrite !length_app. change (length HEADER_TERMINATOR) with 4.
  destruct (Nat.ltb_spec (length h + (4 + length rest)) (length h + 4 + length body)),
    (Nat.ltb_spec (length rest) (length body)); try lia; [done|].
  replace (length h + 4 + length body - (length h + 4)) with (length body) by lia.
  assert (drop (length h + 4) (h ++ HEADER_TERMINATOR ++ rest) = rest) as Hdrop by (by rewrite <- drop_drop, drop_app_length).
  by rewrite <- (drop_drop _ (length body) (length h + 4)), Hdrop.
Qed.

Lemma next_frame_encode body rest : fits body -> next_frame (encode body ++ rest) = (inr (Some body), rest).
Proof.
  intros Hf. rewrite encode_header, <- !app_assoc, next_frame_header by done. rewrite length_app.
  destruct (Nat.ltb_spec (length body + length rest) (length body)); [lia|]. by rewrite take_app_length, drop_app_length.
Qed.

Lemma next_frame_partial p : partial p -> next_frame p = (inr None, p).
Proof.
  intros (body & q & Hf & E & Hq). rewrite encode_header in E. pose proof (fits_usize _ Hf) as Hu.
  set (h := header_text _) in *. assert (length h <= 100) as Hh by by apply header_short.
  destruct (header_ascii (N.of_nat (length body))) as [_ Hn]. fold h in Hn.
  destruct (decide (length h + 4 <= length p)) as [Hlong|Hshort].
  - assert (exists r, p = h ++ HEADER_TERMINATOR ++ r) as [r ->].
    { exists (drop (length h + 4) p). rewrite app_assoc. rewrite <- (take_drop (length h + 4) p) at 1. f_equal.
      rewrite <- (take_app_le p q) by done. rewrite <- E, app_assoc. apply take_app_length'. rewrite length_app. cbn. lia. }
    rewrite <- !app_assoc in E. apply app_inv_head, app_inv_head in E. unfold h at 1. rewrite next_frame_header by done. fold h.
    rewrite E, length_app. destruct q; [done|]. by rewrite (proj2 (Nat.ltb_lt _ _)) by (simpl; lia).
  - unfold next_frame. rewrite (proj2 (find_subslice_none p HEADER_TERMINATOR)).
    + rewrite (proj2 (N.ltb_ge _ _)); [done|]. unfold MAX_HEADER_BYTES. lia.
    + intros i Hi Hp. pose proof (prefix_drop_app _ _ q _ Hi Hp) as Hp'. rewrite <- E in Hp'.
      pose proof (find_terminator h body Hn) as Hfind. apply find_subslice_spec in Hfind as [_ Hno].
      apply prefix_length in Hp. rewrite length_drop in Hp. change (length HEADER_TERMINATOR) with 4 in Hp.
      apply (Hno i); [lia|done].
Qed.

(** ** Lemmas: the stream *)

Lemma encode_nonempty body : encode body <> [].
Proof. rewrite encode_header. unfold header_text. done. Qed.

Lemma partial_nil : partial [].
Proof. exists [], (encode []). split_and!; [vm_compute; discriminate|done|apply encode_nonempty]. Qed.

Lemma partial_prefix p q : partial (p ++ q) -> partial p.
Proof.
  intros (body & r & Hf & E & Hr). exists body, (q ++ r). rewrite app_assoc. split_and!; [done|done|].
  intros [_ ?]%app_eq_nil. done.
Qed.

Definition stream (bodies : list (list N)) : list N := concat (encode <$> bodies).
Lemma stream_cons body bodies : stream (body :: bodies) = encode body ++ stream bodies.
Proof. done. Qed.

Lemma drain_stream fuel bodies p :
  Forall fits bodies -> partial p -> length bodies < fuel -> drain fuel (stream bodies ++ p) = Some (bodies, None, p).
Proof.
  intros Hf Hp. revert fuel. induction Hf as [|body bodies Hb Hf IH]; intros [|fuel] Hl; [simpl in Hl; lia| |simpl in Hl; lia|].
  - cbn [drain stream fmap list_fmap concat app]. by rewrite next_frame_partial.
  - rewrite stream_cons, <- app_assoc. cbn [drain]. rewrite next_frame_encode by done.
    rewrite IH by (simpl in Hl; lia). done.
Qed.

Lemma length_stream bodies : length bodies <= length (stream bodies).
Proof.
  induction bodies as [|b bodies IH]; [done|]. rewrite stream_cons, length_app.
  pose proof (encode_nonempty b). destruct (encode b); [done|]. simpl. lia.
Qed.

(** A cut of the stream falls inside a frame or between two. *)
Lemma split_stream bodies p pre post :
  Forall fits bodies -> partial p -> pre ++ post = stream bodies ++ p ->
  exists b1 b2 p1, bodies = b1 ++ b2 /\ pre = stream b1 ++ p1 /\ partial p1 /\ p1 ++ post = stream b2 ++ p.
Proof.
  intros Hf Hp. revert pre. induction Hf as [|body bodies Hb Hf IH]; intros pre E.
  { cbn in E. exists [], [], pre. split_and!; [done|done| |done]. apply (partial_prefix pre post). by rewrite E. }
  rewrite stream_cons, <- app_assoc in E.
  destruct (decide (length (encode body) <= length pre)) as [Hl|Hl].
  - assert (exists pre', pre = encode body ++ pre') as [pre' ->].
    { exists (drop (length (encode body)) pre). rewrite <- (take_drop (length (encode body)) pre) at 1. f_equal.
      rewrite <- (take_app_le pre post) by done. rewrite E. apply take_app_length. }
    rewrite <- app_assoc in E. apply app_inv_head in E. destruct (IH pre' E) as (b1 & b2 & p1 & -> & -> & Hp1 & Epost).
    exists (body :: b1), b2, p1. split_and!; [done| |done|done]. by rewrite stream_cons, app_assoc.
  - exists [], (body :: bodies), pre. split_and!; [done|done| |].
    + exists body, (drop (length pre) (encode body)). split_and!; [done| |].
      * rewrite <- (take_drop (length pre) (encode body)) at 1. f_equal.
        rewrite <- (take_app_le (encode body) (stream bodies ++ p)) by lia. rewrite <- E. apply take_app_length.
      * intros Hd%(f_equal length). rewrite length_drop in Hd. cbn [length] in Hd. lia.
    + by rewrite stream_cons, <- app_assoc.
Qed.

Lemma fits_app b1 b2 : Forall fits (b1 ++ b2) <-> Forall fits b1 /\ Forall fits b2.
Proof. apply Forall_app. Qed.

Lemma frame_end_ge body_start n stop : frame_end_of body_start n = inr stop -> body_start <= stop.
Proof.
  unfold frame_end_of, checked_add. destruct (_ <=? usize_max)%N; [|done].
  destruct (_ && _); [|done]. intros [= <-]. lia.
Qed.

Lemma next_frame_shrinks buffer body rest :
  next_frame buffer = (inr (Some body), rest) -> length rest < length buffer.
Proof.
  unfold next_frame. destruct (find_subslice _ _) as [sep|] eqn:Es; [|by case_match]. destruct (from_utf8 _); [|done].
  destruct (parse_content_length _) as [|len]; [done|]. destruct (frame_end_of _ _) as [|stop] eqn:Estop; [done|].
  apply frame_end_ge in Estop. case_match; [done|]. intros [= _ <-]. rewrite length_drop.
  apply find_subslice_spec in Es as [Hp%prefix_length _]. rewrite length_drop in Hp. change (length HEADER_TERMINATOR) with 4 in *. lia.
Qed.

Lemma drain_total fuel buffer : length buffer < fuel -> is_Some (drain fuel buffer).
Proof.
  revert buffer. induction fuel as [|fuel IH]; intros buffer Hl; [lia|]. cbn [drain].
  destruct (next_frame buffer) as [[e|[body|]] rest] eqn:E; [by eexists| |by eexists].
  apply next_frame_shrinks in E. destruct (IH rest) as [[[bodies fault] r] ->]; [lia|]. by eexists.
Qed.

(** ** Properties *)

(** C21: Framing is lossless however the bytes arrive: for any message bodies within the frame ceiling and
    any cut of their encodings into chunks - mid-header, mid-body, many frames in one read, followed by
    the start of one more - the read loop dispatches exactly those bodies, in order, reports no fault and
    keeps exactly the unfinished bytes. *)
Theorem framing_roundtrip (bodies : list (list N)) (tail : list N) (chunks : list (list N)) :
  Forall fits bodies -> partial tail -> concat chunks = stream bodies ++ tail ->
  read_chunks [] chunks = Some (bodies, None, tail).
Proof.
  intros Hf Ht E. assert (forall buffer, partial buffer -> buffer ++ concat chunks = stream bodies ++ tail ->
    read_chunks buffer chunks = Some (bodies, None, tail)) as Hgen; [|by apply Hgen; [apply partial_nil|]].
  clear E. revert bodies Hf. induction chunks as [|chunk chunks IH]; intros bodies Hf buffer Hb E.
  - cbn in *. rewrite app_nil_r in E. subst buffer. destruct bodies as [|body bodies]; [done|]. exfalso.
    apply Forall_cons in Hf as [Hfit _]. apply next_frame_partial in Hb. revert Hb.
    by rewrite stream_cons, <- app_assoc, next_frame_encode.
  - cbn [concat] in E. rewrite app_assoc in E. destruct (split_stream bodies tail _ _ Hf Ht E) as (b1 & b2 & p1 & -> & Epre & Hp1 & Epost).
    apply fits_app in Hf as [Hf1 Hf2]. cbn [read_chunks]. unfold push. rewrite Epre.
    rewrite drain_stream; [|done|done|rewrite length_app; pose proof (length_stream b1); lia]. cbn [mbind option_bind].
    rewrite (IH b2 Hf2 p1) by done. done.
Qed.

(** One frame, exactly: a body is taken only from a header, the first terminator and the declared
    number of bytes, within the ceiling, and nothing after it is consumed; more bytes are asked for only
    when the frame really is unfinished, so what is buffered stays bounded by the header limit or by the
    declared frame; a fault consumes nothing; and the loop always ends. *)
Theorem next_frame_exact (buffer : list N) :
  match next_frame buffer with
  | (inr (Some body), rest) => exists header text,
      buffer = header ++ HEADER_TERMINATOR ++ body ++ rest /\ find_subslice buffer HEADER_TERMINATOR = Some (length header) /\
      from_utf8 header = Some text /\ parse_content_length text = inr (N.of_nat (length body)) /\ fits body
  | (inr None, rest) => rest = buffer /\
      ((find_subslice buffer HEADER_TERMINATOR = None /\ (N.of_nat (length buffer) <= MAX_HEADER_BYTES)%N) \/
       exists header text n, find_subslice buffer HEADER_TERMINATOR = Some (length header) /\ from_utf8 header = Some text /\
         parse_content_length text = inr n /\ (n <= MAX_CONTENT_LENGTH)%N /\
         (N.of_nat (length buffer) < N.of_nat (length header) + 4 + n)%N)
  | (inl e, rest) => rest = buffer
  end /\
  is_Some (drain (S (length buffer)) buffer).
Proof.
  split; [|apply drain_total; lia]. unfold next_frame.
  destruct (find_subslice buffer HEADER_TERMINATOR) as [sep|] eqn:Es.
  2: { destruct (N.ltb_spec MAX_HEADER_BYTES (N.of_nat (length buffer))); [done|]. split; [done|by left]. }
  pose proof Es as [[k Hk] _]%find_subslice_spec. assert (sep <= length buffer) as Hsep.
  { apply (f_equal length) in Hk. rewrite length_drop, length_app in Hk. cbn in Hk. lia. }
  assert (length (take sep buffer) = sep) as Hl by (rewrite length_take; lia).
  assert (buffer = take sep buffer ++ HEADER_TERMINATOR ++ k) as Eb by (by rewrite <- Hk, take_drop).
  destruct (from_utf8 (take sep buffer)) as [text|] eqn:Et; [|done]. destruct (parse_content_length text) as [e|n] eqn:En; [done|].
  unfold frame_end_of, checked_add. change (length HEADER_TERMINATOR) with 4 in *.
  destruct (N.leb_spec (N.of_nat (sep + 4) + n) usize_max); [|done].
  destruct (N.leb_spec n MAX_CONTENT_LENGTH); [|done]. destruct (N.leb_spec (N.of_nat (sep + 4) + n) isize_max); [|done]. cbn [andb].
  destruct (Nat.ltb_spec (length buffer) (N.to_nat (N.of_nat (sep + 4) + n))) as [Hlt|Hge].
  - split; [done|]. right. exists (take sep buffer), text, n. rewrite Hl. split_and!; try done. lia.
  - exists (take sep buffer), text. rewrite Hl.
    assert (drop (sep + 4) buffer = k) as Ek by (by rewrite <- drop_drop, Hk).
    assert (N.to_nat (N.of_nat (sep + 4) + n) = sep + 4 + N.to_nat n) as Hstop by lia. rewrite Hstop in *.
    assert (N.to_nat n <= length k) as Hn by (rewrite <- Ek, length_drop; lia).
    rewrite Ek, <- (drop_drop _ (N.to_nat n) (sep + 4)), Ek. replace (sep + 4 + N.to_nat n - (sep + 4)) with (N.to_nat n) by lia.
    unfold fits. rewrite take_drop, length_take_le by done. rewrite N2Nat.id. split_and!; done.
Qed.

(** ** Faults *)

(** A fault is final: except for a header that outgrew its limit, a fault is reported whatever bytes
    follow, so closing the session loses no message that was still to come. *)
Theorem fault_is_final (buffer more : list N) (e : FramingError) :
  (next_frame buffer).1 = inl e -> (forall limit, e <> HeaderTooLarge limit) -> (next_frame (buffer ++ more)).1 = inl e.
Proof.
  unfold next_frame. destruct (find_subslice buffer HEADER_TERMINATOR) as [sep|] eqn:Es.
  2: { case_match; cbn; [|done]. intros [= <-] Hno. by destruct (Hno MAX_HEADER_BYTES). }
  pose proof Es as [Hp%prefix_length _]%find_subslice_spec. rewrite length_drop in Hp. change (length HEADER_TERMINATOR) with 4 in Hp.
  rewrite (find_subslice_app buffer HEADER_TERMINATOR sep more ltac:(discriminate) Es), take_app_le by lia.
  destruct (from_utf8 (take sep buffer)); [|done]. destruct (parse_content_length _); [done|].
  destruct (frame_end_of _ _); [done|]. by case_match.
Qed.

(** The exception is real: whether a long header is accepted depends on how it was cut. *)
Definition long_header : list N := as_bytes (lit "X: ") ++ replicate (N.to_nat 8200) 97%N.
Definition header_end : list N := as_bytes ([13; 10]%N ++ lit "Content-Length: 0" ++ [13; 10; 13; 10]%N).

Lemma header_limit_depends_on_chunks :
  read_chunks [] [long_header ++ header_end] = Some ([[]], None, []) /\
  read_chunks [] [long_header; header_end] = Some ([], Some (HeaderTooLarge MAX_HEADER_BYTES), long_header).
Proof. split; vm_compute; reflexivity. Qed.

(** ** Witnesses *)

Definition ping : list N := as_bytes (lit "{}").

Lemma framing_roundtrip_witness :
  read_chunks [] [take 5 (encode ping); drop 5 (encode ping) ++ encode [] ++ lit "Content"] = Some ([ping; []], None, lit "Content").
Proof.
  apply framing_roundtrip.
  - repeat constructor; vm_compute; discriminate.
  - exists [], (drop 7 (encode [])). split_and!; [vm_compute; discriminate|reflexivity|discriminate].
  - reflexivity.
Defined.

Lemma fault_is_final_witness :
  (next_frame (as_bytes (lit "A: b") ++ HEADER_TERMINATOR ++ encode ping)).1 = inl MissingContentLength.
Proof.
  rewrite app_assoc. apply fault_is_final; [reflexivity|]. intros limit E. discriminate E.
Defined.
