(* ===== verification/Client.v ===== *)
(** * Client: requests in flight over one engine stream

    Models the client of [crates/ktsense-lsp/src/client.rs]: any number of requests at once, the task that reads the
    engine's stream through [Framing] and hands each reply to the request it answers, the fault that ends it, and the
    teardown. A step is what a task does between two points where another can run. What the pipe yields, whether a write
    or a wait is over in time and what the JSON decoder makes of a frame are what each step is given. Request ids are
    integers: fewer than 2^63 requests are made. *)
From stdpp Require Import gmap.
From S2P Require Import Prelude Framing.

Set Default Proof Using "Type*".

(** ** Messages *)

Section client.
(** [serde_json::Value], [null], and the fields of a decoded message the client looks at. *)
Context {Value : Type} (null_ : Value).
Record Incoming := mkIncoming {
  in_method : option str; in_has_id : bool; in_id : option Z; in_params : option Value; in_result : option Value;
  in_error : option (option Z * option str) }.
Context (from_slice : list N -> option Incoming).

Record Notification := mkNotification { nt_method : str; nt_params : Value }.
Definition ResponseOutcome : Type := (Z * str) + Value.
Definition response_outcome (m : Incoming) : ResponseOutcome :=
  match in_error m with
  | Some (code, text) => inl (default 0%Z code, default [] text)
  | None => inr (default null_ (in_result m))
  end.

(** ** The client *)

Inductive RequestError := Io_ | TimedOut (method : str) | Response_ (method : str) (code : Z) (message : str) | ChildExited (method : str) | FramingFault (e : FramingError).
(** Where a request stands. *)
Inductive Phase :=
  | CheckFault                        (* [current_fault] *)
  | TakeId                            (* [fetch_add] *)
  | Register (id : Z)                 (* the sender goes into [pending] *)
  | Write (id : Z)                    (* [write_message] *)
  | Wait (id : Z)                     (* [rx] *)
  | Forget (id : Z)                   (* the bound elapsed: [pending.remove] *)
  | Returned (id : option Z) (outcome : RequestError + Value).
Record Sent := mkSent { rq_method : str; rq_phase : Phase }.
(** Where the reader stands. *)
Inductive Reading :=
  | AtStream                          (* [stdout.read] *)
  | AtBuffer                          (* [next_frame] *)
  | SetFault (e : FramingError)
  | KillChild
  | FailPending
  | ReaderGone.
Record Client := mkClient {
  cl_next : Z;
  cl_pending : gset Z;
  cl_channels : gmap Z (option ResponseOutcome);     (* a channel that was answered, or whose sender is gone *)
  cl_fault : option FramingError;
  cl_reader : Reading;
  cl_buffer : list N;
  cl_frames : list (list N);                         (* the frames read so far *)
  cl_notes : list Notification;
  cl_killed : bool;
  cl_stdin : bool;                                   (* [EngineStdin] is not closed *)
  cl_requests : gmap nat Sent }.

Definition with_request (c : Client) (p : nat) (r : Sent) : Client :=
  mkClient (cl_next c) (cl_pending c) (cl_channels c) (cl_fault c) (cl_reader c) (cl_buffer c) (cl_frames c) (cl_notes c) (cl_killed c) (cl_stdin c) (<[p := r]> (cl_requests c)).
Definition with_next (c : Client) (next : Z) : Client :=
  mkClient next (cl_pending c) (cl_channels c) (cl_fault c) (cl_reader c) (cl_buffer c) (cl_frames c) (cl_notes c) (cl_killed c) (cl_stdin c) (cl_requests c).
Definition with_pending (c : Client) (pending : gset Z) (channels : gmap Z (option ResponseOutcome)) : Client :=
  mkClient (cl_next c) pending channels (cl_fault c) (cl_reader c) (cl_buffer c) (cl_frames c) (cl_notes c) (cl_killed c) (cl_stdin c) (cl_requests c).
Definition with_reader (c : Client) (reader : Reading) (buffer : list N) : Client :=
  mkClient (cl_next c) (cl_pending c) (cl_channels c) (cl_fault c) reader buffer (cl_frames c) (cl_notes c) (cl_killed c) (cl_stdin c) (cl_requests c).
Definition with_fault (c : Client) (e : FramingError) : Client :=
  mkClient (cl_next c) (cl_pending c) (cl_channels c) (Some e) (cl_reader c) (cl_buffer c) (cl_frames c) (cl_notes c) (cl_killed c) (cl_stdin c) (cl_requests c).
Definition with_killed (c : Client) : Client :=
  mkClient (cl_next c) (cl_pending c) (cl_channels c) (cl_fault c) (cl_reader c) (cl_buffer c) (cl_frames c) (cl_notes c) true (cl_stdin c) (cl_requests c).
Definition with_frame (c : Client) (body : list N) : Client :=
  mkClient (cl_next c) (cl_pending c) (cl_channels c) (cl_fault c) (cl_reader c) (cl_buffer c) (cl_frames c ++ [body]) (cl_notes c) (cl_killed c) (cl_stdin c) (cl_requests c).
Definition with_note (c : Client) (note : Notification) : Client :=
  mkClient (cl_next c) (cl_pending c) (cl_channels c) (cl_fault c) (cl_reader c) (cl_buffer c) (cl_frames c) (cl_notes c ++ [note]) (cl_killed c) (cl_stdin c) (cl_requests c).
Definition close_stdin (c : Client) : Client :=
  mkClient (cl_next c) (cl_pending c) (cl_channels c) (cl_fault c) (cl_reader c) (cl_buffer c) (cl_frames c) (cl_notes c) (cl_killed c) false (cl_requests c).

(** [spawn], of an engine that started. *)
Definition spawn : Client := mkClient 1 ∅ ∅ None AtStream [] [] [] false true ∅.

(** ** [request_within] *)

(** [wrote] is how a write ended: [None] that the bound elapsed first. *)
Definition request_step (wrote : option bool) (elapsed : bool) (p : nat) (c : Client) : option Client :=
  r ← cl_requests c !! p;
  let goto phase := with_request c p (mkSent (rq_method r) phase) in
  match rq_phase r with
  | CheckFault => match cl_fault c with Some e => Some (goto (Returned None (inl (FramingFault e)))) | None => Some (goto TakeId) end
  | TakeId => Some (with_next (goto (Register (cl_next c))) (cl_next c + 1))
  | Register id => Some (with_pending (goto (Write id)) ({[id]} ∪ cl_pending c) (cl_channels c))
  | Write id =>
      match wrote with
      | None => Some (goto (Forget id))
      | Some written => if written && cl_stdin c then Some (goto (Wait id)) else Some (goto (Returned (Some id) (inl Io_)))
      end
  | Wait id =>
      match cl_channels c !! id with
      | Some (Some (inr result)) => Some (goto (Returned (Some id) (inr result)))
      | Some (Some (inl (code, text))) => Some (goto (Returned (Some id) (inl (Response_ (rq_method r) code text))))
      | Some None => Some (goto (Returned (Some id) (inl (ChildExited (rq_method r)))))
      | None => if elapsed then Some (goto (Forget id)) else None
      end
  | Forget id => Some (with_pending (goto (Returned (Some id) (inl (TimedOut (rq_method r))))) (cl_pending c ∖ {[id]}) (cl_channels c))
  | Returned _ _ => None
  end.

(** ** [Reader] *)

Definition dispatch (c : Client) (body : list N) : Client :=
  match from_slice body with
  | None => c
  | Some m =>
      match in_method m with
      | Some method => if in_has_id m then c else with_note c (mkNotification method (default null_ (in_params m)))
      | None =>
          match in_id m with
          | Some id => if bool_decide (id ∈ cl_pending c) then with_pending c (cl_pending c ∖ {[id]}) (<[id := Some (response_outcome m)]> (cl_channels c)) else c
          | None => c
          end
      end
  end.
(** Every sender left is dropped. *)
Definition fail_pending (c : Client) : Client :=
  with_pending c ∅ (gset_to_gmap None (cl_pending c) ∪ cl_channels c).
(** [chunk] is what the pipe yields: [None] at its end. *)
Definition reader_step (chunk : option (list N)) (c : Client) : option Client :=
  match cl_reader c with
  | AtStream => match chunk with None => Some (with_reader c FailPending (cl_buffer c)) | Some bytes => Some (with_reader c AtBuffer (push (cl_buffer c) bytes)) end
  | AtBuffer =>
      match next_frame (cl_buffer c) with
      | (inr (Some body), buffer) => Some (dispatch (with_frame (with_reader c AtBuffer buffer) body) body)
      | (inr None, buffer) => Some (with_reader c AtStream buffer)
      | (inl e, buffer) => Some (with_reader c (SetFault e) buffer)
      end
  | SetFault e => Some (with_fault (with_reader c KillChild (cl_buffer c)) e)
  | KillChild => Some (with_killed (with_reader c FailPending (cl_buffer c)))
  | FailPending => Some (with_reader (fail_pending c) ReaderGone (cl_buffer c))
  | ReaderGone => None
  end.

(** ** Everything that happens *)

Inductive Occurrence :=
  | Requests (p : nat) (method : str)
  | RequestRuns (p : nat) (wrote : option bool) (elapsed : bool)
  | ReaderRuns (chunk : option (list N))
  | StdinCloses.
Definition occur (e : Occurrence) (c : Client) : option Client :=
  match e with
  | Requests p method => if bool_decide (is_Some (cl_requests c !! p)) then None else Some (with_request c p (mkSent method CheckFault))
  | RequestRuns p wrote elapsed => request_step wrote elapsed p c
  | ReaderRuns chunk => reader_step chunk c
  | StdinCloses => Some (close_stdin c)
  end.
Fixpoint occurrences (es : list Occurrence) (c : Client) : option Client := match es with [] => Some c | e :: es => c ← occur e c; occurrences es c end.

(** ** [shutdown] *)

Inductive Teardown := Exited | KilledChild.
(** How the wait for the child ended ([None] that the grace elapsed), and the kill and the wait after it; [None] is an I/O error. *)
Definition teardown (waited : option bool) (killed reaped : bool) : option Teardown :=
  match waited with
  | Some true => Some Exited
  | Some false => None
  | None => if killed && reaped then Some KilledChild else None
  end.

(** ** Lemmas: requests, their ids and their channels *)

Definition id_of (phase : Phase) : option Z :=
  match phase with Register id | Write id | Wait id | Forget id => Some id | Returned id _ => id | CheckFault | TakeId => None end.
(** A frame that answers [id] with [o]. *)
Definition answers (body : list N) (id : Z) (o : ResponseOutcome) : Prop :=
  exists m, from_slice body = Some m /\ in_method m = None /\ in_id m = Some id /\ response_outcome m = o.
(** What a returned request says of its channel and of the fault. *)
Definition truthful (c : Client) (phase : Phase) : Prop :=
  match phase with
  | Register id => id ∉ cl_pending c /\ cl_channels c !! id = None
  | Returned (Some id) (inr v) => cl_channels c !! id = Some (Some (inr v))
  | Returned (Some id) (inl (Response_ _ code text)) => cl_channels c !! id = Some (Some (inl (code, text)))
  | Returned (Some id) (inl (ChildExited _)) => cl_channels c !! id = Some None
  | Returned None (inl (FramingFault e)) => cl_fault c = Some e
  | Returned None _ => False
  | _ => True
  end.
Record tidy (c : Client) : Prop := {
  td_ids : forall p r id, cl_requests c !! p = Some r -> id_of (rq_phase r) = Some id -> (id < cl_next c)%Z;
  td_unique : forall p q r r' id, cl_requests c !! p = Some r -> cl_requests c !! q = Some r' -> id_of (rq_phase r) = Some id -> id_of (rq_phase r') = Some id -> p = q;
  td_pending : forall id, id ∈ cl_pending c -> (id < cl_next c)%Z /\ cl_channels c !! id = None;
  td_channel : forall id o, cl_channels c !! id = Some o -> (id < cl_next c)%Z /\ forall a, o = Some a -> exists body, body ∈ cl_frames c /\ answers body id a;
  td_truth : forall p r, cl_requests c !! p = Some r -> truthful c (rq_phase r);
  td_fault : is_Some (cl_fault c) -> match cl_reader c with KillChild | FailPending | ReaderGone => True | _ => False end }.

Lemma tidy_spawn : tidy spawn.
Proof.
  split; cbn [spawn cl_requests cl_pending cl_channels cl_fault cl_next].
  - intros p r id. by rewrite lookup_empty.
  - intros p q r r' id. by rewrite lookup_empty.
  - intros id. set_solver.
  - intros id o. by rewrite lookup_empty.
  - intros p r. by rewrite lookup_empty.
  - by intros [e [=]].
Qed.
(** A request that moves on with the id it has. *)
Lemma tidy_move c p r phase : tidy c -> cl_requests c !! p = Some r -> id_of phase = id_of (rq_phase r) -> truthful c phase ->
  tidy (with_request c p (mkSent (rq_method r) phase)).
Proof.
  intros [Hi Hu Hp Hc Ht Hf] Er Eid Hph. split; cbn [with_request cl_requests cl_pending cl_channels cl_fault cl_next cl_frames cl_reader]; [| |done|done| |done].
  - intros q r' id. rewrite lookup_insert. case_decide; [intros [= <-]; cbn [rq_phase]; rewrite Eid; by apply (Hi p)|apply Hi].
  - intros q1 q2 r1 r2 id. rewrite !lookup_insert. repeat case_decide; subst; [done| | |apply Hu].
    + intros [= <-] E2 H1 H2. cbn [rq_phase] in H1. rewrite Eid in H1. by apply (Hu _ q2 r r2 id).
    + intros E1 [= <-] H1 H2. cbn [rq_phase] in H2. rewrite Eid in H2. by apply (Hu q1 _ r1 r id).
  - intros q r'. rewrite lookup_insert. case_decide; [by intros [= <-]|apply Ht].
Qed.
Lemma tidy_arrival c p method : tidy c -> cl_requests c !! p = None -> tidy (with_request c p (mkSent method CheckFault)).
Proof.
  intros [Hi Hu Hp Hc Ht Hf] Er. split; cbn [with_request cl_requests cl_pending cl_channels cl_fault cl_next cl_frames cl_reader]; [| |done|done| |done].
  - intros q r' id. rewrite lookup_insert. case_decide; [by intros [= <-]|apply Hi].
  - intros q1 q2 r1 r2 id. rewrite !lookup_insert. repeat case_decide; subst; [done|by intros [= <-]|by intros ? [= <-]|apply Hu].
  - intros q r'. rewrite lookup_insert. case_decide; [by intros [= <-]|apply Ht].
Qed.
(** A fresh id. *)
Lemma tidy_take c p r : tidy c -> cl_requests c !! p = Some r -> rq_phase r = TakeId ->
  tidy (with_next (with_request c p (mkSent (rq_method r) (Register (cl_next c)))) (cl_next c + 1)).
Proof.
  intros [Hi Hu Hp Hc Ht Hf] Er Eph. split; cbn [with_next with_request cl_requests cl_pending cl_channels cl_fault cl_next cl_frames cl_reader].
  - intros q r' id. rewrite lookup_insert. case_decide; [intros [= <-] [= <-]; lia|]. intros E' Eid. pose proof (Hi q r' id E' Eid). lia.
  - intros q1 q2 r1 r2 id. rewrite !lookup_insert. repeat case_decide; subst; [done| | |apply Hu].
    + intros [= <-] E2 [= <-] H2. pose proof (Hi q2 r2 _ E2 H2). lia.
    + intros E1 [= <-] H1 [= <-]. pose proof (Hi q1 r1 _ E1 H1). lia.
  - intros id Hid. destruct (Hp id Hid). split; [lia|done].
  - intros id o Eo. destruct (Hc id o Eo). split; [lia|done].
  - intros q r'. rewrite lookup_insert. case_decide; [intros [= <-]; cbn [rq_phase truthful]|].
    + split; [intros Hin%Hp; lia|]. destruct (cl_channels c !! cl_next c) as [o|] eqn:Eo; [|done]. destruct (Hc _ _ Eo). lia.
    + intros E'. pose proof (Ht q r' E') as Htr. destruct (rq_phase r') as [| | | | | |[] [[]|]]; exact Htr.
  - exact Hf.
Qed.
(** A set of pending ids that shrinks, or grows by an id whose channel is open, beside a request that moves on. *)
Lemma tidy_pending c p r phase pending : tidy c -> cl_requests c !! p = Some r -> id_of phase = id_of (rq_phase r) ->
  (forall id, id ∈ pending -> id ∈ cl_pending c \/ id_of phase = Some id /\ cl_channels c !! id = None) ->
  match phase with Write _ | Returned _ (inl (TimedOut _)) => True | _ => False end -> (forall o, phase <> Returned None o) ->
  tidy (with_pending (with_request c p (mkSent (rq_method r) phase)) pending (cl_channels c)).
Proof.
  intros Htidy Er Eid Hpend Hph Hnone. assert (truthful c phase) as Htr by (destruct phase as [| | | | | |[id|] [[]|]]; try done; by destruct (Hnone (inl (TimedOut method)))).
  pose proof (tidy_move c p r phase Htidy Er Eid Htr) as [Hi Hu Hp Hc Ht Hf]. destruct Htidy as [Hi0 Hu0 Hp0 Hc0 Ht0 Hf0].
  split; cbn [with_pending with_request cl_requests cl_pending cl_channels cl_fault cl_next cl_frames cl_reader] in *; [exact Hi|exact Hu| |exact Hc| |exact Hf].
  - intros id [Hid|[Hid Hch]]%Hpend; [by apply Hp0|]. split; [|done]. rewrite Eid in Hid. by apply (Hi0 p r id).
  - intros q r' E'. pose proof E' as E''. apply Ht in E'. rewrite lookup_insert in E''. destruct (decide (p = q)) as [<-|Hq].
    + injection E'' as <-. cbn [rq_phase] in *. destruct phase as [| | | | | |[id|] [[]|]]; first [done|exact E'].
    + destruct (rq_phase r') as [| |id| | | |[] [[]|]] eqn:Eph'; try exact E'. destruct E' as [Hn Hch]. split; [|exact Hch].
      intros [Hid|[Hid _]]%Hpend; [done|]. apply Hq. rewrite Eid in Hid. apply (Hu0 p q r r' id); [done|done|done|by rewrite Eph'].
Qed.
Lemma tidy_request wrote elapsed p c c' : tidy c -> request_step wrote elapsed p c = Some c' -> tidy c'.
Proof.
  intros Htidy. unfold request_step. destruct (cl_requests c !! p) as [r|] eqn:Er; [|done]. cbn [mbind option_bind]. pose proof (td_truth c Htidy p r Er) as Htr.
  destruct (rq_phase r) as [| |id|id|id|id|id outcome] eqn:Eph; intros Hs; simplify_eq.
  - destruct (cl_fault c) as [e|] eqn:Ef; simplify_eq; (apply tidy_move; [done|done|by rewrite Eph|done]).
  - by apply tidy_take.
  - cbn [truthful] in Htr. apply (tidy_pending c p r (Write id)); [done|done|by rewrite Eph| |done|done].
    intros i [->%elem_of_singleton|Hi]%elem_of_union; [right; split; [done|apply Htr]|by left].
  - destruct wrote as [written|]; [destruct (written && cl_stdin c)|]; simplify_eq; (apply tidy_move; [done|done|by rewrite Eph|done]).
  - destruct (cl_channels c !! id) as [[[[code text]|result]|]|] eqn:Ech; [..|destruct elapsed; [|done]]; simplify_eq; (apply tidy_move; [done|done|by rewrite Eph|done]).
  - apply (tidy_pending c p r (Returned (Some id) (inl (TimedOut (rq_method r))))); [done|done|by rewrite Eph| |done|done].
    intros i [Hi _]%elem_of_difference. by left.
Qed.

(** The reader's own moves. *)
Lemma tidy_reader c reader buffer : tidy c -> (is_Some (cl_fault c) -> match reader with KillChild | FailPending | ReaderGone => True | _ => False end) -> tidy (with_reader c reader buffer).
Proof. intros [Hi Hu Hp Hc Ht Hf] Hr. split; [exact Hi|exact Hu|exact Hp|exact Hc| |exact Hr]. intros p r Er. pose proof (Ht p r Er) as H. destruct (rq_phase r) as [| | | | | |[] [[]|]]; exact H. Qed.
Lemma truthful_answer c phase pending channels : truthful c phase -> (forall id o, cl_channels c !! id = Some o -> channels !! id = Some o) ->
  (forall id, phase = Register id -> id ∉ pending /\ channels !! id = None) -> truthful (with_pending c pending channels) phase.
Proof. intros Ht Hch Hr. destruct phase as [| |id| | | |[id|] [[]|]]; cbn [truthful with_pending cl_pending cl_channels cl_fault] in *; auto. Qed.
Lemma tidy_frame c body : tidy c -> tidy (with_frame c body).
Proof.
  intros [Hi Hu Hp Hc Ht Hf]. split; [exact Hi|exact Hu|exact Hp| | |exact Hf].
  - intros id o Eo. destruct (Hc id o Eo) as [Hlt Ha]. split; [done|]. intros a Ea. destruct (Ha a Ea) as (b & Hb & Hans). exists b. split; [|done]. apply elem_of_app. by left.
  - intros p r Er. pose proof (Ht p r Er) as H. destruct (rq_phase r) as [| | | | | |[] [[]|]]; exact H.
Qed.
Lemma tidy_dispatch c body : tidy c -> body ∈ cl_frames c -> tidy (dispatch c body).
Proof.
  intros Htidy Hb. unfold dispatch. destruct (from_slice body) as [m|] eqn:Em; [|done]. destruct (in_method m) as [method|] eqn:Emeth.
  - destruct (in_has_id m); [done|]. destruct Htidy as [Hi Hu Hp Hc Ht Hf]. split; [exact Hi|exact Hu|exact Hp|exact Hc| |exact Hf].
    intros p r Er. pose proof (Ht p r Er) as H. destruct (rq_phase r) as [| | | | | |[] [[]|]]; exact H.
  - destruct (in_id m) as [id|] eqn:Eid; [|done]. case_bool_decide as Hin; [|done]. destruct Htidy as [Hi Hu Hp Hc Ht Hf]. destruct (Hp id Hin) as [Hlt Hopen].
    split; [exact Hi|exact Hu| | | |exact Hf]; cbn [with_pending cl_pending cl_channels cl_next cl_frames cl_requests].
    + intros i [Hi' Hne]%elem_of_difference. rewrite lookup_insert_ne by set_solver. by apply Hp.
    + intros i o. rewrite lookup_insert. case_decide as Hd; [subst i|apply Hc]. intros [= <-]. split; [done|]. intros a [= <-]. exists body. split; [done|]. by exists m.
    + intros p r Er. apply truthful_answer; [by eapply Ht| |].
      * intros i o Eo. rewrite lookup_insert_ne; [done|]. intros <-. congruence.
      * intros i Eph. pose proof (Ht p r Er) as H. rewrite Eph in H. destruct H as [Hn Hch]. split; [set_solver|]. rewrite lookup_insert_ne; [done|]. by intros <-.
Qed.
Lemma tidy_fail c : tidy c -> tidy (fail_pending c).
Proof.
  intros [Hi Hu Hp Hc Ht Hf]. split; [exact Hi|exact Hu| | | |exact Hf]; cbn [fail_pending with_pending cl_pending cl_channels cl_next cl_frames cl_requests].
  - intros id. set_solver.
  - intros id o. rewrite lookup_union_Some_raw, lookup_gset_to_gmap_Some. intros [[Hin <-]|[_ Eo]]; [|by apply Hc]. split; [by apply Hp|]. by intros a [=].
  - intros p r Er. apply truthful_answer; [by eapply Ht| |].
    + intros i o Eo. apply lookup_union_Some_raw. right. split; [|done]. apply lookup_gset_to_gmap_None. intros Hin. apply Hp in Hin as [_ Hin]. congruence.
    + intros i Eph. pose proof (Ht p r Er) as H. rewrite Eph in H. destruct H as [Hn Hch]. split; [set_solver|]. apply lookup_union_None. split; [by apply lookup_gset_to_gmap_None|done].
Qed.
Lemma tidy_reads chunk c c' : tidy c -> reader_step chunk c = Some c' -> tidy c'.
Proof.
  intros Htidy. pose proof (td_fault c Htidy) as Hf. unfold reader_step. destruct (cl_reader c) as [| |e| | |] eqn:Er; intros Hs; simplify_eq.
  - destruct chunk; simplify_eq; apply tidy_reader; [done| |done|]; intros Hx; by destruct (Hf Hx).
  - destruct (next_frame (cl_buffer c)) as [[e|[body|]] buffer]; simplify_eq.
    + apply tidy_reader; [done|]. intros Hx; by destruct (Hf Hx).
    + apply tidy_dispatch; [|apply elem_of_app; right; by left]. apply tidy_frame, tidy_reader; [done|]. intros Hx; by destruct (Hf Hx).
    + apply tidy_reader; [done|]. intros Hx; by destruct (Hf Hx).
  - assert (tidy (with_reader c KillChild (cl_buffer c))) as [Hi Hu Hp Hc Ht _] by by apply tidy_reader.
    split; [exact Hi|exact Hu|exact Hp|exact Hc| |done]. intros p r Erq. pose proof (Ht p r Erq) as H. destruct (rq_phase r) as [| | | | | |[] [[]|]]; try exact H.
    cbn in H. exfalso. apply Hf. by eexists.
  - assert (tidy (with_reader c FailPending (cl_buffer c))) as [Hi Hu Hp Hc Ht Hf'] by by apply tidy_reader.
    split; [exact Hi|exact Hu|exact Hp|exact Hc| |exact Hf']. intros p r Erq. pose proof (Ht p r Erq) as H. destruct (rq_phase r) as [| | | | | |[] [[]|]]; exact H.
  - apply tidy_reader; [by apply tidy_fail|done].
Qed.
Lemma tidy_occur e c c' : tidy c -> occur e c = Some c' -> tidy c'.
Proof.
  intros Htidy. destruct e as [p method|p wrote elapsed|chunk|]; cbn [occur].
  - case_bool_decide as Hp; [done|]. apply eq_None_not_Some in Hp. intros [= <-]. by apply tidy_arrival.
  - by apply tidy_request.
  - by apply tidy_reads.
  - intros [= <-]. destruct Htidy as [Hi Hu Hp Hc Ht Hf]. split; [exact Hi|exact Hu|exact Hp|exact Hc| |exact Hf].
    intros p r Er. pose proof (Ht p r Er) as H. destruct (rq_phase r) as [| | | | | |[] [[]|]]; exact H.
Qed.
Lemma occurrences_ind (P : Client -> Prop) : (forall e c c', P c -> occur e c = Some c' -> P c') -> forall es c c', P c -> occurrences es c = Some c' -> P c'.
Proof.
  intros Hstep es. induction es as [|e es IH]; intros c c' Hc; cbn [occurrences]; [by intros [= <-]|].
  destruct (occur e c) as [c1|] eqn:E; [|done]. cbn [mbind option_bind]. apply IH. by eapply Hstep.
Qed.
Lemma tidy_run es c : occurrences es spawn = Some c -> tidy c.
Proof. apply (occurrences_ind tidy); [apply tidy_occur|apply tidy_spawn]. Qed.

(** ** Properties *)

(** What a frame says to the request of an id: the error it carries, whatever else it holds, or else its result. *)
Inductive says (body : list N) (id : Z) : ResponseOutcome -> Prop :=
  | says_error m code text : from_slice body = Some m -> in_method m = None -> in_id m = Some id ->
      in_error m = Some (code, text) -> says body id (inl (default 0%Z code, default [] text))
  | says_result m v : from_slice body = Some m -> in_method m = None -> in_id m = Some id ->
      in_error m = None -> in_result m = Some v -> says body id (inr v)
  | says_nothing m : from_slice body = Some m -> in_method m = None -> in_id m = Some id ->
      in_error m = None -> in_result m = None -> says body id (inr null_).
Lemma says_answers body id o : says body id o <-> answers body id o.
Proof.
  split.
  - destruct 1 as [m code text Em Hm Hi He|m v Em Hm Hi He Hv|m Em Hm Hi He Hv]; exists m; split_and!; try done; unfold response_outcome; rewrite He; try rewrite Hv; done.
  - intros (m & Em & Hm & Hi & <-). unfold response_outcome. destruct (in_error m) as [[code text]|] eqn:He; [by eapply says_error|].
    destruct (in_result m) as [v|] eqn:Hv; [by eapply says_result|by eapply says_nothing].
Qed.

(** What a request is told once its channel is settled. *)
Definition told (method : str) (settled : option ResponseOutcome) : RequestError + Value :=
  match settled with
  | Some (inr v) => inr v
  | Some (inl (code, text)) => inl (Response_ method code text)
  | None => inl (ChildExited method)
  end.

(** A channel is settled once, and a frame settles those of the pending requests it answers and no other. *)
Lemma channels_kept e c c' id o : tidy c -> occur e c = Some c' -> cl_channels c !! id = Some o -> cl_channels c' !! id = Some o.
Proof.
  intros Htidy. assert (forall id, id ∈ cl_pending c -> cl_channels c !! id = None) as Hp by (intros i Hi; by apply (td_pending c Htidy)).
  destruct e as [p method|p wrote elapsed|chunk|]; cbn [occur]; [case_bool_decide; [done|]; by intros [= <-]| | |by intros [= <-]].
  - unfold request_step. destruct (cl_requests c !! p) as [r|]; [|done]. cbn [mbind option_bind]. intros Hs. destruct (rq_phase r); repeat case_match; by simplify_eq.
  - unfold reader_step, dispatch. intros Hs Ho. destruct (cl_reader c); repeat case_match; simplify_eq; cbn; try done.
    + rewrite lookup_insert_ne; [done|]. intros <-. rewrite Hp in Ho; [done|]. by case_bool_decide.
    + apply lookup_union_Some_raw. right. split; [|done]. apply lookup_gset_to_gmap_None. intros Hin%Hp. congruence.
Qed.
Lemma dispatch_settles c body id o : says body id o -> id ∈ cl_pending c ->
  cl_channels (dispatch c body) !! id = Some (Some o) /\ id ∉ cl_pending (dispatch c body).
Proof.
  intros (m & Em & Hm & Hi & <-)%says_answers Hin. unfold dispatch. rewrite Em, Hm, Hi, bool_decide_eq_true_2 by done. cbn.
  split; [by rewrite lookup_insert_eq|set_solver].
Qed.
Lemma dispatch_spares c body id : (forall o, says body id o -> id ∉ cl_pending c) ->
  cl_channels (dispatch c body) !! id = cl_channels c !! id /\ (id ∈ cl_pending (dispatch c body) <-> id ∈ cl_pending c).
Proof.
  intros Hno. unfold dispatch. destruct (from_slice body) as [m|] eqn:Em; [|done]. destruct (in_method m) eqn:Hm; [by destruct (in_has_id m)|].
  destruct (in_id m) as [i|] eqn:Hi; [|done]. case_bool_decide as Hin; [|done]. assert (i <> id) as Hne.
  { intros ->. apply (Hno (response_outcome m)); [|done]. apply says_answers. by exists m. }
  cbn. rewrite lookup_insert_ne by done. split; [done|set_solver].
Qed.
(** Nothing is told the child exited while the reader reads. *)
Lemma gone_run es c : occurrences es spawn = Some c -> forall id, cl_channels c !! id = Some None -> cl_reader c = ReaderGone.
Proof.
  apply (occurrences_ind (fun c => forall id, cl_channels c !! id = Some None -> cl_reader c = ReaderGone)); [|intros id; cbn; by rewrite lookup_empty].
  intros e d d' Hd. destruct e as [p method|p wrote elapsed|chunk|]; cbn [occur]; [case_bool_decide; [done|]; by intros [= <-]| | |by intros [= <-]].
  - unfold request_step. destruct (cl_requests d !! p) as [r|]; [|done]. cbn [mbind option_bind]. intros Hs. destruct (rq_phase r); repeat case_match; by simplify_eq.
  - unfold reader_step, dispatch. intros Hs id. destruct (cl_reader d) eqn:Er; repeat case_match; simplify_eq; cbn; try done; try by intros ?%Hd.
    match goal with |- <[?i := _]> _ !! _ = _ -> _ => destruct (decide (i = id)) as [->|] end; [rewrite lookup_insert_eq|rewrite lookup_insert_ne by done; by intros ?%Hd].
    intros Hx. discriminate Hx.
Qed.

(** C33: A reply reaches the request it answers and no other, however the requests, the reader and the engine interleave. No
    two requests have one id. A frame read off the stream settles the pending request whose id it carries, with the error it
    says or else its result, and leaves every other alone; when the stream ends, every request still pending is settled as
    unanswered; and what is settled stays so. A waiting request whose id is settled returns, at its next step and whatever its
    bound, just what it was settled with; and a request returns a result or the engine's error only from a frame that said so
    to its id, and that the child exited only once the reader is gone, no frame having answered it. *)
Theorem reply_reaches_its_request (es : list Occurrence) (c : Client) :
  occurrences es spawn = Some c ->
  (forall p q r r' id, cl_requests c !! p = Some r -> cl_requests c !! q = Some r' -> id_of (rq_phase r) = Some id -> id_of (rq_phase r') = Some id -> p = q) /\
  (forall chunk c' body buffer, cl_reader c = AtBuffer -> next_frame (cl_buffer c) = (inr (Some body), buffer) -> occur (ReaderRuns chunk) c = Some c' ->
    forall id,
      (forall o, says body id o -> id ∈ cl_pending c -> cl_channels c' !! id = Some (Some o) /\ id ∉ cl_pending c') /\
      ((forall o, says body id o -> id ∉ cl_pending c) -> cl_channels c' !! id = cl_channels c !! id /\ (id ∈ cl_pending c' <-> id ∈ cl_pending c))) /\
  (forall chunk c' id, cl_reader c = FailPending -> occur (ReaderRuns chunk) c = Some c' -> id ∈ cl_pending c -> cl_channels c' !! id = Some None) /\
  (forall e c' id o, occur e c = Some c' -> cl_channels c !! id = Some o -> cl_channels c' !! id = Some o) /\
  (forall p r id o wrote elapsed, cl_requests c !! p = Some r -> rq_phase r = Wait id -> cl_channels c !! id = Some o ->
    exists c', occur (RequestRuns p wrote elapsed) c = Some c' /\ cl_requests c' !! p = Some (mkSent (rq_method r) (Returned (Some id) (told (rq_method r) o)))) /\
  (forall p r id v, cl_requests c !! p = Some r -> rq_phase r = Returned (Some id) (inr v) -> exists body, body ∈ cl_frames c /\ says body id (inr v)) /\
  (forall p r id method code text, cl_requests c !! p = Some r -> rq_phase r = Returned (Some id) (inl (Response_ method code text)) ->
     exists body, body ∈ cl_frames c /\ says body id (inl (code, text))) /\
  (forall p r id method, cl_requests c !! p = Some r -> rq_phase r = Returned (Some id) (inl (ChildExited method)) ->
     cl_reader c = ReaderGone /\ cl_channels c !! id = Some None).
Proof.
  intros Hr. pose proof (tidy_run es c Hr) as Htidy. pose proof Htidy as [Hi Hu Hp Hc Ht Hf]. setoid_rewrite says_answers.
  split; [exact Hu|]. split; [|split; [|split; [|split]]].
  - intros chunk c' body buffer Er En Ho id. cbn [occur] in Ho. unfold reader_step in Ho. rewrite Er, En in Ho. injection Ho as <-. setoid_rewrite <- says_answers.
    split; [intros o Hs Hin; by apply (dispatch_settles (with_frame (with_reader c AtBuffer buffer) body))|].
    intros Hno. by apply (dispatch_spares (with_frame (with_reader c AtBuffer buffer) body)).
  - intros chunk c' id Er Ho Hin. cbn [occur] in Ho. unfold reader_step in Ho. rewrite Er in Ho. injection Ho as <-. cbn. apply lookup_union_Some_raw. left. by apply lookup_gset_to_gmap_Some.
  - intros e c' id o Ho. by apply (channels_kept e).
  - intros p r id o wrote elapsed Er Eph Eo. cbn [occur]. unfold request_step. rewrite Er. cbn [mbind option_bind]. rewrite Eph. cbn beta iota zeta. match goal with |- context [match ?l with Some _ => _ | None => _ end] => replace l with (Some o) by done end.
    destruct o as [[[code text]|v]|]; eexists; (split; [done|]); cbn; by rewrite lookup_insert_eq.
  - split_and!.
    + intros p r id v Er Eph. pose proof (Ht p r Er) as H. rewrite Eph in H. by apply (Hc _ _ H).
    + intros p r id method code text Er Eph. pose proof (Ht p r Er) as H. rewrite Eph in H. by apply (Hc _ _ H).
    + intros p r id method Er Eph. pose proof (Ht p r Er) as H. rewrite Eph in H. split; [by eapply gone_run|done].
Qed.

(** A request that began after the fault: it looks for one first. *)
Definition refused (e : FramingError) (phase : Phase) : Prop := phase = CheckFault \/ phase = Returned None (inl (FramingFault e)).
Lemma fault_kept o c c' e : tidy c -> cl_fault c = Some e -> occur o c = Some c' -> cl_fault c' = Some e.
Proof.
  intros [_ _ _ _ _ Hf] Ef. specialize (Hf ltac:(by eexists)). destruct o as [p method|p wrote elapsed|chunk|]; cbn [occur].
  - case_bool_decide; [done|]. by intros [= <-].
  - unfold request_step. destruct (cl_requests c !! p) as [r|]; [|done]. cbn [mbind option_bind]. intros Hs. destruct (rq_phase r); repeat case_match; by simplify_eq.
  - unfold reader_step. intros Hs. destruct (cl_reader c); try done; by simplify_eq.
  - by intros [= <-].
Qed.
Lemma refused_kept o c c' e p : cl_fault c = Some e -> (forall r, cl_requests c !! p = Some r -> refused e (rq_phase r)) -> occur o c = Some c' ->
  forall r, cl_requests c' !! p = Some r -> refused e (rq_phase r).
Proof.
  intros Ef Hp. destruct o as [q method|q wrote elapsed|chunk|]; cbn [occur].
  - case_bool_decide; [done|]. intros [= <-] r. cbn. rewrite lookup_insert. case_decide; [intros [= <-]; by left|apply Hp].
  - unfold request_step. destruct (cl_requests c !! q) as [r|] eqn:Er; [|done]. cbn [mbind option_bind]. destruct (decide (p = q)) as [<-|Hq].
    + destruct (Hp r Er) as [-> | ->]; [|done]. rewrite Ef. intros [= <-] r'. cbn. rewrite lookup_insert_eq. intros [= <-]. by right.
    + intros Hs r' Er'. apply Hp. destruct (rq_phase r); repeat case_match; simplify_eq; cbn in Er'; by rewrite lookup_insert_ne in Er'.
  - unfold reader_step. intros Hs r. destruct (cl_reader c); repeat case_match; simplify_eq; unfold dispatch; repeat case_match; apply Hp.
  - intros [= <-]. exact Hp.
Qed.

(** C34: A malformed frame faults the client for good: from the moment the fault is set it never changes, and every request that
    begins from then on is refused with it before it is given an id. *)
Theorem fault_refuses_later (es es' : list Occurrence) (c c' : Client) (e : FramingError) (p : nat) (r : Sent) :
  occurrences es spawn = Some c -> cl_fault c = Some e -> cl_requests c !! p = None -> occurrences es' c = Some c' -> cl_requests c' !! p = Some r ->
  cl_fault c' = Some e /\ (rq_phase r = CheckFault \/ rq_phase r = Returned None (inl (FramingFault e))).
Proof.
  intros Hr Ef Ep Hr'. pose proof (tidy_run es c Hr) as Htidy. revert r.
  apply (occurrences_ind (fun c => tidy c /\ cl_fault c = Some e /\ forall r, cl_requests c !! p = Some r -> refused e (rq_phase r))) in Hr'.
  - intros r Er. destruct Hr' as (_ & Hf & Hp). split; [exact Hf|]. by apply Hp.
  - intros o d d' (Hd & Hf & Hp) Ho. split_and!; [by eapply tidy_occur|by eapply fault_kept|by eapply refused_kept].
  - split_and!; [done|done|]. by rewrite Ep.
Qed.

(** The steps a request has left, at most, and those it took. *)
Definition steps_left (phase : Phase) : nat :=
  match phase with CheckFault => 6 | TakeId => 5 | Register _ => 4 | Write _ => 3 | Wait _ => 2 | Forget _ => 1 | Returned _ _ => 0 end.
Lemma request_spends wrote elapsed p c c' : request_step wrote elapsed p c = Some c' ->
  exists r r', cl_requests c !! p = Some r /\ cl_requests c' = <[p := r']> (cl_requests c) /\ steps_left (rq_phase r') < steps_left (rq_phase r).
Proof.
  unfold request_step. destruct (cl_requests c !! p) as [r|] eqn:Er; [|done]. cbn [mbind option_bind]. intros Hs. exists r.
  destruct (rq_phase r) eqn:Eph; repeat case_match; simplify_eq; eexists; (split; [done|]; split; [reflexivity|]); cbn; lia.
Qed.
(** Once its bound has elapsed nothing holds a request up. *)
Lemma request_ends wrote p c r : cl_requests c !! p = Some r -> (forall id outcome, rq_phase r <> Returned id outcome) -> is_Some (request_step wrote true p c).
Proof.
  intros Er Hn. unfold request_step. rewrite Er. cbn [mbind option_bind]. destruct (rq_phase r); repeat case_match; try by eexists. by destruct (Hn id outcome).
Qed.
(** What was in flight when the reader gave up is told so without waiting. *)
Lemma in_flight_failed c c' id : cl_reader c = FailPending -> id ∈ cl_pending c -> reader_step None c = Some c' -> cl_channels c' !! id = Some None.
Proof.
  unfold reader_step. intros -> Hin [= <-]. cbn. apply lookup_union_Some_raw. left. by apply lookup_gset_to_gmap_Some.
Qed.
End client.

(** ** Witnesses, and what arrives too late *)

Local Notation by_id := (fun body : list N => Some (mkIncoming None true (Z.of_N <$> head body) None (Some body) None)).
Local Abbreviation demo es := (occurrences (lit "null") by_id es spawn).
Local Abbreviation runs p := (RequestRuns p (Some true) false).
Local Abbreviation sends p method := [Requests p method; runs p; runs p; runs p; runs p].
Local Notation both := (sends 0 (lit "definition") ++ sends 1 (lit "hover") ++
  [ReaderRuns (Some (encode [2]%N ++ encode [1]%N)); ReaderRuns None; ReaderRuns None; runs 1; runs 0]).
Lemma reply_reaches_its_request_witness : exists c r body, demo both = Some c /\ cl_requests c !! 0 = Some r /\ rq_phase r = Returned (Some 1%Z) (inr [1]%N) /\
  body ∈ cl_frames c /\ says (lit "null") by_id body 1 (inr [1]%N).
Proof.
  destruct (demo both) as [c|] eqn:E; [|vm_compute in E; discriminate E]. pose proof E as E'. vm_compute in E'. injection E' as E'.
  destruct (reply_reaches_its_request (lit "null") by_id both c E) as (_ & _ & _ & _ & _ & Hv & _).
  destruct (Hv 0 (mkSent (lit "definition") (Returned (Some 1%Z) (inr [1]%N))) 1%Z [1]%N) as (body & Hb & Ha); [subst c; vm_compute; reflexivity|reflexivity|].
  exists c. eexists. exists body. split; [reflexivity|]. split; [subst c; vm_compute; reflexivity|]. split; [reflexivity|]. split; [exact Hb|exact Ha].
Defined.
Local Notation garbled := (lit "X" ++ [13; 10; 13; 10]%N).
Local Notation faulted := [ReaderRuns (Some garbled); ReaderRuns None; ReaderRuns None; ReaderRuns None; ReaderRuns None].
Lemma fault_refuses_later_witness : exists c r, demo (faulted ++ [Requests 0 (lit "hover"); runs 0]) = Some c /\ cl_requests c !! 0 = Some r /\
  exists e, cl_fault c = Some e /\ rq_phase r = Returned None (inl (FramingFault e)).
Proof.
  destruct (demo faulted) as [c|] eqn:E; [|vm_compute in E; discriminate E]. pose proof E as E'. vm_compute in E'. injection E' as E'.
  destruct (occurrences (lit "null") by_id [Requests 0 (lit "hover"); runs 0] c) as [c'|] eqn:F; [|subst c; vm_compute in F; discriminate F]. pose proof F as F'. subst c. vm_compute in F'. injection F' as F'.
  destruct (cl_requests c' !! 0) as [r|] eqn:Er; [|subst c'; vm_compute in Er; discriminate Er].
  edestruct (fault_refuses_later (lit "null") by_id faulted [Requests 0 (lit "hover"); runs 0] _ c' _ 0 r E eq_refl) as (Hf & [Hp|Hp]); [vm_compute; reflexivity|exact F|exact Er|..].
  - exfalso. subst c'. vm_compute in Er. injection Er as <-. discriminate Hp.
  - exists c', r. split; [subst c'; vm_compute; reflexivity|]. split; [exact Er|]. eexists. split; [exact Hf|exact Hp].
Defined.

(** A request that looked for a fault just before one was set registers after the senders were dropped: nothing answers it
    and nothing fails it, so it waits out its whole bound and reports a timeout, not the fault. *)
Lemma fault_missed_by_a_hair : exists c r,
  demo ([Requests 0 (lit "hover"); runs 0] ++ faulted ++ [runs 0; runs 0; runs 0]) = Some c /\ is_Some (cl_fault c) /\ cl_reader c = ReaderGone /\
  cl_requests c !! 0 = Some r /\ rq_phase r = Wait 1 /\ request_step None false 0 c = None.
Proof. eexists _, _. split; [vm_compute; reflexivity|]. split; [by eexists|]. repeat (split; [vm_compute; reflexivity|]). vm_compute. reflexivity. Qed.
(** A stream that closed without a fault leaves no trace: every later request is sent and waits out its bound. *)
Lemma closed_stream_not_noticed : exists c r,
  demo ([ReaderRuns None; ReaderRuns None] ++ sends 0 (lit "hover")) = Some c /\ cl_reader c = ReaderGone /\ cl_fault c = None /\
  cl_requests c !! 0 = Some r /\ rq_phase r = Wait 1 /\ request_step None false 0 c = None.
Proof. eexists _, _. split; [vm_compute; reflexivity|]. repeat (split; [vm_compute; reflexivity|]). vm_compute. reflexivity. Qed.
