(* ===== verification/Files.v ===== *)
(** * Files: the source files of a workspace

    Models the traversals of [crates/ktsense-cli/src/main.rs]: which Kotlin, Java and generated files
    a command reads, how a path is displayed, and which paths of the engine are judged inside an
    ignored directory. The file system is data: a directory lists its entries in the order the system
    returns them, a path under the root is the list of its names. *)
From stdpp Require Import countable.
From S2P Require Import Prelude Collections.

Set Default Proof Using "Type*".

(** What [symlink_metadata], [read_dir] and [read_to_string] see of one name. A link carries what it
    resolves to; [Vanished] is a name whose metadata cannot be read. *)
Inductive Entry :=
  | File (content : option str)
  | Directory (listing : option (list (str * Entry)))
  | Symlink (target : option Entry)
  | Special
  | Vanished.
Definition Path : Type := list str.

(** [fs::read_dir] and [fs::read_to_string], which follow a link. *)
Definition read_children (e : Entry) : option (list (str * Entry)) :=
  match e with
  | Directory listing => listing
  | Symlink (Some (Directory listing)) => listing
  | _ => None
  end.
Definition read_to_string (e : Entry) : option str :=
  match e with
  | File content => content
  | Symlink (Some (File content)) => content
  | _ => None
  end.
Definition child_named (name : str) (l : list (str * Entry)) : option Entry :=
  snd <$> find (fun entry => bool_decide (entry.1 = name)) l.
Fixpoint entry_at (e : Entry) (p : Path) : option Entry :=
  match p with
  | [] => Some e
  | name :: p' => l ← read_children e; c ← child_named name l; entry_at c p'
  end.

(** ** File names *)

(** [Path::extension]: after the last dot, unless the name starts with that dot. *)
Definition extension (name : str) : option str :=
  match rsplit_once (ch ".") name with
  | Some (_ :: _, ext) => Some ext
  | _ => None
  end.
Definition has_kotlin_extension (name : str) : bool :=
  bool_decide (extension name = Some (lit "kt") \/ extension name = Some (lit "kts")).
Definition has_java_extension (name : str) : bool := bool_decide (extension name = Some (lit "java")).

Definition IGNORED_DIRS : list str :=
  [lit ".git"; lit "target"; lit "build"; lit "bin"; lit ".gradle"; lit ".idea"; lit "node_modules"].
Definition GENERATED_DIRS : list str := [lit "generated"; lit "generated-src"].
Definition MAX_TRAVERSAL_DEPTH : nat := 64.
Definition is_ignored_dir_name (name : str) : bool := starts_with name [ch "."] || bool_decide (name ∈ IGNORED_DIRS).
Definition is_build_dir (name : str) : bool := bool_decide (name = lit "build").
Definition is_real_directory (e : Entry) : bool := match e with Directory _ => true | _ => false end.

(** [is_test_source] of [main.rs] on the path under the root. *)
Definition names_tests (segment : str) : bool :=
  bool_decide (segment ∈ [lit "test"; lit "tests"; lit "androidTest"; lit "test-utils"])
  || ends_with segment (lit "Test") || ends_with segment (lit "Tests").
Definition is_test_path (p : Path) : bool := existsb names_tests p.

(** ** [collect_source_files] *)

(** A directory waiting to be read, with its depth; the head of the list is the top of the stack. *)
Definition Pending : Type := list (Path * nat * Entry).
Definition child_cmp (a b : str * Entry) : comparison := cmp_on fst a b.

(** One directory's children; [inl] is the path [CommandError::read] names. *)
Fixpoint visit_children (keep : str -> bool) (directory : Path) (depth : nat) (children : list (str * Entry))
    (pending : Pending) (files : list Path) : Path + Pending * list Path :=
  match children with
  | [] => inr (pending, files)
  | (name, child) :: rest =>
      let path := directory ++ [name] in
      match child with
      | Vanished => inl path
      | Symlink _ => visit_children keep directory depth rest pending files
      | Directory _ =>
          if (depth <? MAX_TRAVERSAL_DEPTH) && negb (is_ignored_dir_name name)
          then visit_children keep directory depth rest ((path, S depth, child) :: pending) files
          else visit_children keep directory depth rest pending files
      | File _ | Special =>
          visit_children keep directory depth rest pending (if keep name then files ++ [path] else files)
      end
  end.
Fixpoint collect_loop (fuel : nat) (keep : str -> bool) (pending : Pending) (files : list Path) : option (Path + list Path) :=
  match fuel with
  | O => None
  | S fuel' =>
      match pending with
      | [] => Some (inr files)
      | (directory, depth, e) :: pending =>
          match read_children e with
          | None => Some (inl directory)
          | Some children =>
              match visit_children keep directory depth (sort_by child_cmp children) pending files with
              | inl path => Some (inl path)
              | inr (pending, files) => collect_loop fuel' keep pending files
              end
          end
      end
  end.

(** Nodes of a tree, which bound the directories a walk reads. *)
Fixpoint weight (e : Entry) : nat :=
  S (match e with
     | Directory (Some l) => (fix go (l : list (str * Entry)) : nat := match l with [] => 0 | (_, c) :: l' => weight c + go l' end) l
     | Symlink (Some t) => weight t
     | _ => 0
     end).
Definition collect_source_files (root : Entry) (keep : str -> bool) : option (Path + list Path) :=
  r ← collect_loop (S (weight root)) keep [([], 0, root)] [];
  Some (match r with inl path => inl path | inr files => inr (sort files) end).
Definition collect_kotlin_files (root : Entry) : option (Path + list Path) := collect_source_files root has_kotlin_extension.
Definition collect_java_files (root : Entry) : option (Path + list Path) := collect_source_files root has_java_extension.

(** ** [collect_generated_kotlin_files] *)

(** [collect_kotlin_under]; [room] counts the levels still allowed, [MAX_TRAVERSAL_DEPTH - depth + 1]. *)
Fixpoint collect_kotlin_under (room : nat) (directory : Path) (e : Entry) : list Path :=
  match room with
  | O => []
  | S room' =>
      concat ((fun '(name, child) =>
        match child with
        | Directory _ => collect_kotlin_under room' (directory ++ [name]) child
        | File _ => if has_kotlin_extension name then [directory ++ [name]] else []
        | _ => []
        end) <$> default [] (read_children e))
  end.
Definition collect_generated_under_build (build_dir : Path) (e : Entry) : list Path :=
  concat ((fun generated =>
    match child_named generated (default [] (read_children e)) with
    | Some child => collect_kotlin_under (S MAX_TRAVERSAL_DEPTH) (build_dir ++ [generated]) child
    | None => []
    end) <$> GENERATED_DIRS).
Fixpoint visit_generated (directory : Path) (depth : nat) (children : list (str * Entry)) (pending : Pending) (files : list Path)
    : Pending * list Path :=
  match children with
  | [] => (pending, files)
  | (name, child) :: rest =>
      let path := directory ++ [name] in
      if negb (is_real_directory child) then visit_generated directory depth rest pending files
      else if is_build_dir name then visit_generated directory depth rest pending (files ++ collect_generated_under_build path child)
      else if (depth <? MAX_TRAVERSAL_DEPTH) && negb (is_ignored_dir_name name)
      then visit_generated directory depth rest ((path, S depth, child) :: pending) files
      else visit_generated directory depth rest pending files
  end.
Fixpoint generated_loop (fuel : nat) (pending : Pending) (files : list Path) : option (list Path) :=
  match fuel with
  | O => None
  | S fuel' =>
      match pending with
      | [] => Some files
      | (directory, depth, e) :: pending =>
          match read_children e with
          | None => generated_loop fuel' pending files
          | Some children =>
              let '(pending, files) := visit_generated directory depth (sort_by child_cmp children) pending files in
              generated_loop fuel' pending files
          end
      end
  end.
Definition collect_generated_kotlin_files (root : Entry) : option (list Path) :=
  files ← generated_loop (S (weight root)) [([], 0, root)] []; Some (sort files).

(** ** Display paths and [is_inside_ignored_dir] *)

(** [join_components] of a path under the root. *)
Definition display (p : Path) : str := join [ch "/"] p.

(** A path as its components, and [Path::new] of a text: empty pieces and dots are dropped, save a leading dot. *)
Record FsPath := mkFsPath { fp_rooted : bool; fp_components : list str }.
#[export] Instance FsPath_eq_dec : EqDecision FsPath.
Proof. solve_decision. Defined.
#[export] Instance FsPath_countable : Countable FsPath.
Proof. refine (inj_countable' (fun p => (fp_rooted p, fp_components p)) (fun q => mkFsPath q.1 q.2) _). by intros []. Defined.
Definition parse_path (s : str) : FsPath :=
  let rooted := starts_with s [ch "/"] in
  let undotted := filter (fun piece => piece ≠ [ch "."]) in
  mkFsPath rooted
    (match filter (fun piece => piece ≠ []) (split_char (ch "/") s) with
     | [] => []
     | first_ :: rest => (if rooted then undotted [first_] else [first_]) ++ undotted rest
     end).
(** [Path::join] and [Path::strip_prefix]. *)
Definition path_join (base path : FsPath) : FsPath :=
  if fp_rooted path then path else mkFsPath (fp_rooted base) (fp_components base ++ fp_components path).
Fixpoint strip_components (base components : list str) : option (list str) :=
  match base, components with
  | [], _ => Some components
  | b :: base', c :: components' => if decide (b = c) then strip_components base' components' else None
  | _ :: _, [] => None
  end.
Definition path_strip_prefix (path base : FsPath) : option FsPath :=
  if Bool.eqb (fp_rooted path) (fp_rooted base)
  then mkFsPath false <$> strip_components (fp_components base) (fp_components path)
  else None.
Definition join_components (path : FsPath) : str :=
  if fp_rooted path then ch "/" :: join [ch "/"] (fp_components path) else join [ch "/"] (fp_components path).
(** [canonicalize] asks the file system. *)
Definition normalized_path (canonicalize : FsPath -> option FsPath) (root path : FsPath) : str :=
  match path_strip_prefix path root with
  | Some relative => join_components relative
  | None =>
      let root_anchor := default root (canonicalize root) in
      let path_anchor := default path (canonicalize path) in
      join_components (default path_anchor (path_strip_prefix path_anchor root_anchor))
  end.

(** The judgement on the directories of a relative path, last name left off. *)
Fixpoint any_ignored (directories : list str) : bool :=
  match directories with
  | [] => false
  | name :: rest =>
      let generated_follows := match rest with next :: _ => bool_decide (next ∈ GENERATED_DIRS) | [] => false end in
      is_ignored_dir_name name && negb (is_build_dir name && generated_follows) || any_ignored rest
  end.
Definition is_inside_ignored_dir (relative : str) : bool :=
  if starts_with relative [ch "/"] then false
  else let directories := split_char (ch "/") relative in any_ignored (take (length directories - 1) directories).

(** ** What a walk should find *)

(** What the walk keeps of one child, with [room] levels left below its directory. *)
Fixpoint child_files (keep : str -> bool) (room : nat) (path : Path) (name : str) (c : Entry) : list Path :=
  match c with
  | Directory listing =>
      match room with
      | O => []
      | S room' =>
          if is_ignored_dir_name name then []
          else concat ((fun entry => child_files keep room' (path ++ [entry.1]) entry.1 entry.2) <$> default [] listing)
      end
  | File _ | Special => if keep name then [path] else []
  | _ => []
  end.
Definition listed_files (keep : str -> bool) (room : nat) (directory : Path) (l : list (str * Entry)) : list Path :=
  concat ((fun entry => child_files keep room (directory ++ [entry.1]) entry.1 entry.2) <$> l).
Definition directory_files (keep : str -> bool) (item : Path * nat * Entry) : list Path :=
  listed_files keep (MAX_TRAVERSAL_DEPTH - item.1.2) item.1.1 (default [] (read_children item.2)).

(** No directory on the walk, and no name in one, fails to be read. *)
Fixpoint child_readable (room : nat) (name : str) (c : Entry) : Prop :=
  match c with
  | Directory listing =>
      match room with
      | O => True
      | S room' =>
          is_ignored_dir_name name = false ->
          match listing with Some l => Forall (fun entry => child_readable room' entry.1 entry.2) l | None => False end
      end
  | Vanished => False
  | _ => True
  end.
Definition directory_readable (item : Path * nat * Entry) : Prop :=
  match read_children item.2 with
  | Some l => Forall (fun entry => child_readable (MAX_TRAVERSAL_DEPTH - item.1.2) entry.1 entry.2) l
  | None => False
  end.

(** ** Lemmas: the walk *)

Definition total_weight (l : list Entry) : nat := sum_list (weight <$> l).
Lemma weight_children e l : read_children e = Some l -> total_weight l.*2 < weight e.
Proof.
  assert (forall l, (fix go (l : list (str * Entry)) : nat := match l with [] => 0 | (_, c) :: l' => weight c + go l' end) l = total_weight l.*2) as Hgo.
  { clear. induction l as [|[n c] l IH]; [done|]. rewrite IH. done. }
  destruct e as [|[l0|]|[[|[l0|]| | |]|]| |]; simpl; intros [= ->]; rewrite Hgo; lia.
Qed.
Lemma total_weight_perm l k : l ≡ₚ k -> total_weight l = total_weight k.
Proof. intros E. unfold total_weight. by rewrite E. Qed.

Section walk.
Context (keep : str -> bool).

Definition found (pending : Pending) (files : list Path) : list Path := files ++ concat (directory_files keep <$> pending).
Definition pending_weight (pending : Pending) : nat := total_weight pending.*2.

Lemma visit_children_spec directory depth children : forall pending files,
  depth <= MAX_TRAVERSAL_DEPTH -> Forall (fun item => item.1.2 <= MAX_TRAVERSAL_DEPTH) pending ->
  match visit_children keep directory depth children pending files with
  | inl _ => ~ Forall (fun entry => child_readable (MAX_TRAVERSAL_DEPTH - depth) entry.1 entry.2) children
  | inr (pending', files') =>
      found pending' files' ≡ₚ found pending files ++ listed_files keep (MAX_TRAVERSAL_DEPTH - depth) directory children /\
      (Forall directory_readable pending' <->
        Forall directory_readable pending /\ Forall (fun entry => child_readable (MAX_TRAVERSAL_DEPTH - depth) entry.1 entry.2) children) /\
      pending_weight pending' <= pending_weight pending + total_weight children.*2 /\
      Forall (fun item => item.1.2 <= MAX_TRAVERSAL_DEPTH) pending'
  end.
Proof.
  induction children as [|[name c] children IH]; intros pending files Hd Hp; cbn [visit_children].
  { unfold listed_files. cbn. rewrite app_nil_r. split_and!; [done|rewrite Forall_nil; tauto|lia|done]. }
  assert (forall files' pending', 
    found pending' files' ≡ₚ found pending files ++ child_files keep (MAX_TRAVERSAL_DEPTH - depth) (directory ++ [name]) name c ->
    (Forall directory_readable pending' <-> Forall directory_readable pending /\ child_readable (MAX_TRAVERSAL_DEPTH - depth) name c) ->
    pending_weight pending' <= pending_weight pending + weight c -> Forall (fun item => item.1.2 <= MAX_TRAVERSAL_DEPTH) pending' ->
    match visit_children keep directory depth children pending' files' with
    | inl _ => ~ Forall (fun entry => child_readable (MAX_TRAVERSAL_DEPTH - depth) entry.1 entry.2) ((name, c) :: children)
    | inr (pending', files') =>
        found pending' files' ≡ₚ found pending files ++ listed_files keep (MAX_TRAVERSAL_DEPTH - depth) directory ((name, c) :: children) /\
        (Forall directory_readable pending' <->
          Forall directory_readable pending /\ Forall (fun entry => child_readable (MAX_TRAVERSAL_DEPTH - depth) entry.1 entry.2) ((name, c) :: children)) /\
        pending_weight pending' <= pending_weight pending + total_weight ((name, c) :: children).*2 /\
        Forall (fun item => item.1.2 <= MAX_TRAVERSAL_DEPTH) pending'
    end) as Hstep.
  { intros files' pending' Hf Hr Hw Hp'. specialize (IH pending' files' Hd Hp').
    destruct (visit_children _ _ _ _ _ _) as [|[pending'' files'']]; [rewrite Forall_cons; tauto|].
    destruct IH as (If & Ir & Iw & Ip). split_and!; [| |change (total_weight ((name, c) :: children).*2) with (weight c + total_weight children.*2); lia|done].
    - rewrite If, Hf, <- app_assoc. done.
    - rewrite Forall_cons, Ir, Hr. cbn [fst snd]. tauto. }
  assert (forall K : list Path, K = [] -> found pending files ≡ₚ found pending files ++ K) as Hnil by (intros K ->; by rewrite app_nil_r).
  assert (forall K, found pending (files ++ K) ≡ₚ found pending files ++ K) as Hfile.
  { intros K. unfold found. rewrite <- !app_assoc. f_equiv. apply Permutation_app_comm. }
  destruct c as [content|listing|target| |].
  - apply Hstep; [|destruct (MAX_TRAVERSAL_DEPTH - depth); cbn; tauto|lia|done].
    destruct (MAX_TRAVERSAL_DEPTH - depth); cbn; destruct (keep name); first [apply Hfile | by apply Hnil].
  - destruct (Nat.ltb_spec depth MAX_TRAVERSAL_DEPTH) as [Hlt|Hge]; cbn [andb].
    + replace (MAX_TRAVERSAL_DEPTH - depth) with (S (MAX_TRAVERSAL_DEPTH - S depth)) in * by lia.
      destruct (is_ignored_dir_name name) eqn:Ei; cbn [negb]; apply Hstep; cbn [child_files child_readable].
      * rewrite Ei. by apply Hnil.
      * rewrite Ei. naive_solver.
      * lia.
      * done.
      * rewrite Ei. unfold found. csimpl. rewrite (Permutation_app_comm (directory_files _ _)), app_assoc. done.
      * rewrite Forall_cons, Ei. unfold directory_readable at 1. cbn [fst snd read_children]. destruct listing; tauto.
      * unfold pending_weight, total_weight. csimpl. lia.
      * by constructor.
    + replace (MAX_TRAVERSAL_DEPTH - depth) with 0 in * by lia. apply Hstep; [by apply Hnil|cbn; tauto|lia|done].
  - apply Hstep; [|destruct (MAX_TRAVERSAL_DEPTH - depth); cbn; tauto|lia|done]. apply Hnil. by destruct (MAX_TRAVERSAL_DEPTH - depth).
  - apply Hstep; [|destruct (MAX_TRAVERSAL_DEPTH - depth); cbn; tauto|lia|done].
    destruct (MAX_TRAVERSAL_DEPTH - depth); cbn; destruct (keep name); first [apply Hfile | by apply Hnil].
  - rewrite Forall_cons. cbn [fst snd]. intros [Hc _]. revert Hc. by destruct (MAX_TRAVERSAL_DEPTH - depth).
Qed.

Lemma listed_files_perm room directory l k : l ≡ₚ k -> listed_files keep room directory l ≡ₚ listed_files keep room directory k.
Proof. intros E. unfold listed_files. by rewrite E. Qed.

Lemma collect_loop_spec fuel : forall pending files,
  pending_weight pending < fuel -> Forall (fun item => item.1.2 <= MAX_TRAVERSAL_DEPTH) pending ->
  exists r, collect_loop fuel keep pending files = Some r /\
    match r with
    | inl _ => ~ Forall directory_readable pending
    | inr fs => fs ≡ₚ found pending files /\ Forall directory_readable pending
    end.
Proof.
  induction fuel as [|fuel IH]; intros pending files Hw Hp; [lia|]. cbn [collect_loop].
  destruct pending as [|[[directory depth] e] pending].
  { eexists; split; [done|]. unfold found. cbn. by rewrite app_nil_r. }
  apply Forall_cons in Hp as [Hd Hp]. cbn [fst snd] in Hd.
  change (pending_weight ((directory, depth, e) :: pending)) with (weight e + pending_weight pending) in Hw.
  assert (directory_readable (directory, depth, e) <-> match read_children e with
    | Some l => Forall (fun entry => child_readable (MAX_TRAVERSAL_DEPTH - depth) entry.1 entry.2) l | None => False end) as Hread by done.
  destruct (read_children e) as [children|] eqn:Ec.
  2: { eexists; split; [done|]. cbn beta iota. rewrite Forall_cons. tauto. }
  pose proof (visit_children_spec directory depth (sort_by child_cmp children) pending files Hd Hp) as Hv.
  destruct (visit_children _ _ _ _ _ _) as [path|[pending' files']].
  { rewrite (sort_by_perm child_cmp children) in Hv. eexists; split; [done|]. cbn beta iota. rewrite Forall_cons. tauto. }
  destruct Hv as (Hf & Hr & Hw' & Hp'). rewrite (sort_by_perm child_cmp children) in Hr. pose proof (weight_children _ _ Ec) as Hwc.
  rewrite (total_weight_perm _ children.*2) in Hw' by (by rewrite (sort_by_perm child_cmp children)).
  destruct (IH pending' files') as (r & -> & Hres); [lia|done|]. exists r. split; [done|].
  destruct r as [path|fs]; rewrite Forall_cons; [tauto|]. destruct Hres as [Hfs Hok]. split; [|tauto].
  rewrite Hfs, Hf. unfold found. csimpl. rewrite (listed_files_perm _ _ _ _ (sort_by_perm child_cmp children)).
  unfold directory_files at 2. cbn [fst snd]. rewrite Ec. cbn [default from_option]. rewrite <- app_assoc. f_equiv. apply Permutation_app_comm.
Qed.
End walk.

(** ** What each walk finds, by paths *)

(** The listing of the directory a path leads to through real directories. *)
Fixpoint listing_in (l : list (str * Entry)) (q : Path) (l' : list (str * Entry)) : Prop :=
  match q with
  | [] => l' = l
  | name :: q' => exists e below, (name, e) ∈ l /\ is_real_directory e = true /\ read_children e = Some below /\ listing_in below q' l'
  end.
Definition listing_at (root : Entry) (q : Path) (l' : list (str * Entry)) : Prop :=
  exists l, read_children root = Some l /\ listing_in l q l'.

(** Names a file system has: distinct in a directory, not empty, without a separator. *)
Definition valid_name (name : str) : Prop := name <> [] /\ ch "/" ∉ name.
Definition well_formed (root : Entry) : Prop := forall q l, listing_at root q l -> NoDup l.*1 /\ Forall valid_name l.*1.

Definition unignored (q : Path) : Prop := Forall (fun name => is_ignored_dir_name name = false) q.
Definition is_plain (e : Entry) : bool := match e with File _ | Special => true | _ => false end.

Lemma listing_in_app l q1 q2 l2 : listing_in l (q1 ++ q2) l2 <-> exists l1, listing_in l q1 l1 /\ listing_in l1 q2 l2.
Proof.
  revert l. induction q1 as [|n q1 IH]; intros l; cbn [app listing_in]; [naive_solver|]. split.
  - intros (e & b & Hin & Hr & Hb & (l1 & H1 & H2)%IH). exists l1. eauto 10.
  - intros (l1 & (e & b & Hin & Hr & Hb & H1) & H2). exists e, b. split_and!; [done..|]. apply IH. eauto.
Qed.

Lemma elem_of_child_files keep room path name c p :
  p ∈ child_files keep room path name c <->
    (is_plain c = true /\ keep name = true /\ p = path) \/
    (exists room' listing, room = S room' /\ c = Directory listing /\ is_ignored_dir_name name = false /\
      p ∈ listed_files keep room' path (default [] listing)).
Proof.
  destruct c as [content|listing|target| |]; destruct room as [|room]; cbn [child_files is_plain]; unfold listed_files;
    try (destruct (keep name)); try (destruct (is_ignored_dir_name name) eqn:E); rewrite ?list_elem_of_singleton, ?elem_of_nil; naive_solver.
Qed.
Lemma elem_of_listed_files keep room : forall directory l p,
  p ∈ listed_files keep room directory l <->
  exists q name l' c, p = directory ++ q ++ [name] /\ listing_in l q l' /\ (name, c) ∈ l' /\ unignored q /\ length q <= room /\
    is_plain c = true /\ keep name = true.
Proof.
  induction room as [|room IH]; intros directory l p; unfold listed_files at 1; rewrite elem_of_concat; split.
  1, 3: intros (fs & ([name c] & -> & Hin)%list_elem_of_fmap & Hp); cbn [fst snd] in Hp; apply elem_of_child_files in Hp as
    [(Hc & Hk & ->)|(room' & listing & [= <-] & -> & Hi & Hp)]; first [exists [], name, l, c; split_and!; [done..|constructor|cbn; lia|done|done] | idtac].
  - apply IH in Hp as (q & name' & l' & c & -> & Hl & Hin' & Hq & Hlen & Hc & Hk). exists (name :: q), name', l', c.
    split_and!; [by rewrite <- app_assoc| |done|by constructor|cbn; lia|done|done].
    destruct listing as [below|]; [by exists (Directory (Some below)), below|]. cbn in Hl.
    exfalso. destruct q; [cbn in Hl; subst; by apply not_elem_of_nil in Hin'|]. destruct Hl as (e & b & He & _). by apply not_elem_of_nil in He.
  - intros (q & name & l' & c & -> & Hl & Hin & Hq & Hlen & Hc & Hk). destruct q; [|cbn in Hlen; lia]. cbn in Hl. subst l'.
    eexists. split; [apply list_elem_of_fmap; by exists (name, c)|]. apply elem_of_child_files. left. done.
  - intros (q & name & l' & c & -> & Hl & Hin & Hq & Hlen & Hc & Hk). destruct q as [|n q].
    + cbn in Hl. subst l'. eexists. split; [apply list_elem_of_fmap; by exists (name, c)|]. apply elem_of_child_files. by left.
    + destruct Hl as (e & below & He & Hr & Hb & Hl). eexists. split; [apply list_elem_of_fmap; by exists (n, e)|].
      apply elem_of_child_files. right. destruct e as [|[below'|]| | |]; try done. injection Hb as ->.
      apply Forall_cons in Hq as [Hn Hq]. exists room, (Some below). split_and!; [done..|]. apply IH. exists q, name, l', c.
      cbn in Hlen. split_and!; [by rewrite <- app_assoc|done..|lia|done|done].
Qed.

Lemma child_files_below keep room path name c p : p ∈ child_files keep room path name c -> path `prefix_of` p.
Proof.
  intros [(_ & _ & ->)|(room' & listing & -> & -> & _ & (q & n & l' & c' & -> & _)%elem_of_listed_files)]%elem_of_child_files; [done|].
  by eexists.
Qed.
Lemma listed_files_nodup keep room : forall directory l, (forall q l', listing_in l q l' -> NoDup l'.*1) -> NoDup (listed_files keep room directory l).
Proof.
  induction room as [room IH] using lt_wf_ind. intros directory l Hl. unfold listed_files.
  assert (forall entry, entry ∈ l -> NoDup (child_files keep room (directory ++ [entry.1]) entry.1 entry.2)) as Hc.
  { intros [name c] Hin. destruct c as [content|[below|]|target| |]; destruct room as [|room]; cbn [child_files fst snd]; repeat case_match;
      try apply NoDup_nil_2; try apply NoDup_singleton. apply IH; [lia|].
    intros q l' Hq. apply (Hl (name :: q)). by exists (Directory (Some below)), below. }
  specialize (Hl [] l eq_refl). clear IH. revert Hl Hc. induction l as [|[name c] k IHk]; intros Hl Hc; [constructor|].
  cbn [fmap list_fmap concat fst snd] in *. apply NoDup_cons in Hl as [Hn Hl]. apply NoDup_app. split_and!.
  - apply (Hc (name, c)). left.
  - intros p Hp%child_files_below (fs & ([n' c'] & -> & Hin)%list_elem_of_fmap & Hp'%child_files_below)%elem_of_concat. cbn [fst snd] in Hp'.
    destruct Hp as [a ->], Hp' as [b E]. rewrite <- !app_assoc in E. apply app_inv_head in E. injection E as -> _.
    apply Hn. apply list_elem_of_fmap. by exists (n', c').
  - apply IHk; [done|]. intros entry Hin. apply Hc. by right.
Qed.

Lemma sort_strict {A} `{OrdLaws A} (l : list A) : NoDup l -> StronglySorted ord_lt (sort l).
Proof.
  intros Hn. pose proof (sort_sorted l) as Hs. assert (NoDup (sort l)) as Hn' by (by rewrite sort_perm).
  induction Hs as [|x k Hk IH Hx]; constructor; [apply IH; by apply NoDup_cons in Hn' as []|].
  apply NoDup_cons in Hn' as [Hnx _]. rewrite Forall_forall in *. intros y Hy. specialize (Hx y Hy). apply ord_le_iff in Hx as [| ->]; done.
Qed.

(** Every directory the walk enters can be read, and so can the metadata of every name in it. *)
Definition readable_root (root : Entry) : Prop := directory_readable ([], 0, root).
(** A plain file the walk is after: its directories are real and not ignored, at most 64 deep. *)
Definition source_file (keep : str -> bool) (root : Entry) (p : Path) : Prop :=
  exists q name l c, p = q ++ [name] /\ listing_at root q l /\ (name, c) ∈ l /\ unignored q /\ length q <= MAX_TRAVERSAL_DEPTH /\
    is_plain c = true /\ keep name = true.

Lemma collect_source_files_spec (root : Entry) (keep : str -> bool) :
  well_formed root ->
  exists r, collect_source_files root keep = Some r /\
    match r with
    | inl _ => ~ readable_root root
    | inr files => readable_root root /\ StronglySorted ord_lt files /\ files ≡ₚ directory_files keep ([], 0, root)
    end.
Proof.
  intros Hwf. unfold collect_source_files.
  destruct (collect_loop_spec keep (S (weight root)) [([], 0, root)] []) as (r & -> & Hr).
  { unfold pending_weight, total_weight. cbn. lia. }
  { apply Forall_singleton. cbn. lia. }
  cbn [mbind option_bind]. eexists. split; [done|]. destruct r as [path|fs]; [by rewrite Forall_singleton in Hr|].
  destruct Hr as [Hfs Hok]. rewrite Forall_singleton in Hok. split; [done|].
  assert (fs ≡ₚ directory_files keep ([], 0, root)) as Hp by (rewrite Hfs; unfold found; csimpl; by rewrite app_nil_r).
  split; [|by rewrite sort_perm]. apply sort_strict. rewrite Hp. apply listed_files_nodup. cbn [fst snd]. intros q l' Hq.
  destruct (read_children root) as [l|] eqn:El; [by apply (Hwf q l'); exists l|].
  destruct q; [cbn in Hq; subst; constructor|]. destruct Hq as (e & b & He & _). by apply not_elem_of_nil in He.
Qed.
Lemma elem_of_collected keep root p : readable_root root -> p ∈ directory_files keep ([], 0, root) <-> source_file keep root p.
Proof.
  unfold readable_root, directory_readable, directory_files, source_file, listing_at. cbn [fst snd]. destruct (read_children root) as [l|]; [|done]. intros _.
  rewrite elem_of_listed_files. cbn [default from_option]. unfold id. rewrite Nat.sub_0_r. naive_solver.
Qed.

(** C25: The walk for source files always returns: a read error exactly when a directory or a name on it
    cannot be read, else each plain file with a wanted extension below directories that are real, not
    ignored and not nested too deep, once and in path order. *)
Theorem collect_source_files_exact (root : Entry) (keep : str -> bool) :
  well_formed root ->
  exists r, collect_source_files root keep = Some r /\
    match r with
    | inl _ => ~ readable_root root
    | inr files => readable_root root /\ StronglySorted ord_lt files /\ forall p, p ∈ files <-> source_file keep root p
    end.
Proof.
  intros Hwf. destruct (collect_source_files_spec root keep Hwf) as (r & E & Hr). exists r. split; [done|].
  destruct r as [|files]; [done|]. destruct Hr as (Hok & Hs & Hp). split_and!; [done..|]. intros p. rewrite Hp. by apply elem_of_collected.
Qed.

(** ** The generated walk *)

Fixpoint child_generated (room : nat) (path : Path) (name : str) (c : Entry) : list Path :=
  match c with
  | Directory listing =>
      if is_build_dir name then collect_generated_under_build path c
      else match room with
           | O => []
           | S room' =>
               if is_ignored_dir_name name then []
               else concat ((fun entry => child_generated room' (path ++ [entry.1]) entry.1 entry.2) <$> default [] listing)
           end
  | _ => []
  end.
Definition listed_generated (room : nat) (directory : Path) (l : list (str * Entry)) : list Path :=
  concat ((fun entry => child_generated room (directory ++ [entry.1]) entry.1 entry.2) <$> l).
Definition directory_generated (item : Path * nat * Entry) : list Path :=
  listed_generated (MAX_TRAVERSAL_DEPTH - item.1.2) item.1.1 (default [] (read_children item.2)).
Definition found_generated (pending : Pending) (files : list Path) : list Path := files ++ concat (directory_generated <$> pending).

Lemma visit_generated_spec directory depth children : forall pending files pending' files',
  depth <= MAX_TRAVERSAL_DEPTH -> visit_generated directory depth children pending files = (pending', files') ->
  found_generated pending' files' ≡ₚ found_generated pending files ++ listed_generated (MAX_TRAVERSAL_DEPTH - depth) directory children /\
  pending_weight pending' <= pending_weight pending + total_weight children.*2 /\
  (Forall (fun item => item.1.2 <= MAX_TRAVERSAL_DEPTH) pending -> Forall (fun item => item.1.2 <= MAX_TRAVERSAL_DEPTH) pending').
Proof.
  induction children as [|[name c] children IH]; intros pending files pending' files' Hd; cbn [visit_generated].
  { intros [= <- <-]. unfold listed_generated. cbn. rewrite app_nil_r. split_and!; [done|lia|done]. }
  set (room := MAX_TRAVERSAL_DEPTH - depth) in *.
  assert (forall pending1 files1,
    found_generated pending1 files1 ≡ₚ found_generated pending files ++ child_generated room (directory ++ [name]) name c ->
    pending_weight pending1 <= pending_weight pending + weight c ->
    (Forall (fun item => item.1.2 <= MAX_TRAVERSAL_DEPTH) pending -> Forall (fun item => item.1.2 <= MAX_TRAVERSAL_DEPTH) pending1) ->
    visit_generated directory depth children pending1 files1 = (pending', files') ->
    found_generated pending' files' ≡ₚ found_generated pending files ++ listed_generated room directory ((name, c) :: children) /\
    pending_weight pending' <= pending_weight pending + total_weight ((name, c) :: children).*2 /\
    (Forall (fun item => item.1.2 <= MAX_TRAVERSAL_DEPTH) pending -> Forall (fun item => item.1.2 <= MAX_TRAVERSAL_DEPTH) pending')) as Hstep.
  { intros pending1 files1 Hf Hw Hp Hv. apply IH in Hv as (If & Iw & Ip); [|done]. split_and!; [| |tauto].
    - rewrite If, Hf, <- app_assoc. done.
    - change (total_weight ((name, c) :: children).*2) with (weight c + total_weight children.*2). lia. }
  assert (forall K : list Path, K = [] -> found_generated pending files ≡ₚ found_generated pending files ++ K) as Hnil by (intros K ->; by rewrite app_nil_r).
  assert (is_real_directory c = true -> forall K, K = child_generated room (directory ++ [name]) name c -> is_build_dir name = true ->
    found_generated pending (files ++ K) ≡ₚ found_generated pending files ++ K) as Hbuild.
  { intros _ K _ _. unfold found_generated. rewrite <- !app_assoc. f_equiv. apply Permutation_app_comm. }
  destruct c as [|listing| | |]; cbn [is_real_directory negb];
    try (apply Hstep; [apply Hnil; by destruct room|lia|done]).
  destruct (is_build_dir name) eqn:Eb.
  { apply Hstep; [|lia|done].
    assert (child_generated room (directory ++ [name]) name (Directory listing) = collect_generated_under_build (directory ++ [name]) (Directory listing)) as E
      by (destruct room; cbn; by rewrite Eb).
    rewrite E. apply Hbuild; [done|by rewrite E|done]. }
  destruct (Nat.ltb_spec depth MAX_TRAVERSAL_DEPTH) as [Hlt|Hge]; cbn [andb].
  - assert (room = S (MAX_TRAVERSAL_DEPTH - S depth)) as -> by lia. destruct (is_ignored_dir_name name) eqn:Ei; cbn [negb]; apply Hstep.
    + apply Hnil. cbn. by rewrite Eb, Ei.
    + lia.
    + done.
    + cbn [child_generated]. rewrite Eb, Ei. unfold found_generated. csimpl. rewrite (Permutation_app_comm (directory_generated _)), app_assoc. done.
    + unfold pending_weight, total_weight. csimpl. lia.
    + by constructor.
  - assert (room = 0) as -> by lia. apply Hstep; [apply Hnil; cbn; by rewrite Eb|lia|done].
Qed.

Lemma generated_loop_spec fuel : forall pending files,
  pending_weight pending < fuel -> Forall (fun item => item.1.2 <= MAX_TRAVERSAL_DEPTH) pending ->
  exists fs, generated_loop fuel pending files = Some fs /\ fs ≡ₚ found_generated pending files.
Proof.
  induction fuel as [|fuel IH]; intros pending files Hw Hp; [lia|]. cbn [generated_loop].
  destruct pending as [|[[directory depth] e] pending].
  { eexists; split; [done|]. unfold found_generated. cbn. by rewrite app_nil_r. }
  apply Forall_cons in Hp as [Hd Hp]. cbn [fst snd] in Hd.
  change (pending_weight ((directory, depth, e) :: pending)) with (weight e + pending_weight pending) in Hw.
  assert (0 < weight e) by (destruct e; cbn; lia).
  unfold found_generated. csimpl. unfold directory_generated at 1. cbn [fst snd].
  destruct (read_children e) as [children|] eqn:Ec; [|apply IH; [lia|done]].
  destruct (visit_generated _ _ _ _ _) as [pending' files'] eqn:Ev. pose proof (weight_children _ _ Ec) as Hwc.
  apply visit_generated_spec in Ev as (Hf & Hw' & Hp'); [|done].
  rewrite (total_weight_perm _ children.*2) in Hw' by (by rewrite (sort_by_perm child_cmp children)).
  destruct (IH pending' files') as (fs & -> & Hfs); [lia|tauto|]. exists fs. split; [done|].
  rewrite Hfs, Hf. unfold found_generated, listed_generated. rewrite (sort_by_perm child_cmp children). cbn [default from_option]. unfold id.
  rewrite <- app_assoc. f_equiv. apply Permutation_app_comm.
Qed.

Lemma elem_of_under room : forall directory e p,
  p ∈ collect_kotlin_under (S room) directory e <->
  exists below r l' name content, read_children e = Some below /\ listing_in below r l' /\ (name, File content) ∈ l' /\ length r <= room /\
    has_kotlin_extension name = true /\ p = directory ++ r ++ [name].
Proof.
  induction room as [|room IH]; intros directory e p; cbn [collect_kotlin_under]; rewrite elem_of_concat; split.
  1, 3: intros (fs & ([name c] & -> & Hin)%list_elem_of_fmap & Hp); destruct (read_children e) as [below|] eqn:Eb; [|by apply not_elem_of_nil in Hin];
    cbn [default from_option] in Hin; unfold id in Hin; destruct c as [content|listing|target| |]; try (by apply not_elem_of_nil in Hp);
    try (destruct (has_kotlin_extension name) eqn:Ek; [|by apply not_elem_of_nil in Hp]; apply list_elem_of_singleton in Hp as ->;
         exists below, [], below, name, content; split_and!; [done..|cbn; lia|done|done]).
  - apply IH in Hp as (below' & r & l' & name' & content & Hb & Hl & Hin' & Hr & Hk & ->). exists below, (name :: r), l', name', content.
    split_and!; [done| |done|cbn; lia|done|by rewrite <- app_assoc]. by exists (Directory listing), below'.
  - intros (below & r & l' & name & content & -> & Hl & Hin & Hr & Hk & ->). destruct r; [|cbn in Hr; lia]. cbn in Hl. subst l'.
    eexists. split; [apply list_elem_of_fmap; by exists (name, File content)|]. cbn. rewrite Hk. left.
  - intros (below & r & l' & name & content & -> & Hl & Hin & Hr & Hk & ->). destruct r as [|n r].
    + cbn in Hl. subst l'. eexists. split; [apply list_elem_of_fmap; by exists (name, File content)|]. cbn. rewrite Hk. left.
    + destruct Hl as (c & below' & Hc & Hreal & Hb & Hl). eexists. split; [apply list_elem_of_fmap; by exists (n, c)|].
      destruct c; try done. apply IH. cbn in Hr. exists below', r, l', name, content. split_and!; [done..|lia|done|by rewrite <- app_assoc].
Qed.

Lemma elem_of_listed_generated room : forall directory l p,
  p ∈ listed_generated room directory l <->
  exists q l' b, listing_in l q l' /\ unignored q /\ length q <= room /\ (lit "build", Directory b) ∈ l' /\
    p ∈ collect_generated_under_build (directory ++ q ++ [lit "build"]) (Directory b).
Proof.
  assert (forall room path c p, p ∈ child_generated room path (lit "build") c <-> exists b, c = Directory b /\ p ∈ collect_generated_under_build path (Directory b)) as Hbuild.
  { intros r path c p. destruct r, c; cbn [child_generated]; rewrite ?elem_of_nil; naive_solver. }
  induction room as [|room IH]; intros directory l p; unfold listed_generated at 1; rewrite elem_of_concat; split.
  1, 3: intros (fs & ([name c] & -> & Hin)%list_elem_of_fmap & Hp); cbn [fst snd] in Hp; destruct (decide (name = lit "build")) as [->|Hn];
    [apply Hbuild in Hp as (b & -> & Hp); exists [], l, b; split_and!; [done|constructor|cbn; lia|done|done]|].
  - exfalso. destruct c; try (by apply not_elem_of_nil in Hp). cbn [child_generated] in Hp. unfold is_build_dir in Hp.
    rewrite bool_decide_false in Hp by done. by apply not_elem_of_nil in Hp.
  - destruct c as [|listing| | |]; try (by apply not_elem_of_nil in Hp). cbn [child_generated] in Hp. unfold is_build_dir in Hp.
    rewrite bool_decide_false in Hp by done. destruct (is_ignored_dir_name name) eqn:Ei; [by apply not_elem_of_nil in Hp|].
    apply IH in Hp as (q & l' & b & Hl & Hq & Hlen & Hin' & Hp). exists (name :: q), l', b.
    split_and!; [|by constructor|cbn; lia|done|by rewrite <- app_assoc in Hp].
    destruct listing as [below|]; [by exists (Directory (Some below)), below|]. exfalso. destruct q; [cbn in Hl; subst; by apply not_elem_of_nil in Hin'|].
    destruct Hl as (e & b' & He & _). by apply not_elem_of_nil in He.
  - intros (q & l' & b & Hl & Hq & Hlen & Hin & Hp). destruct q; [|cbn in Hlen; lia]. cbn in Hl. subst l'.
    eexists. split; [apply list_elem_of_fmap; by exists (lit "build", Directory b)|]. apply Hbuild. by exists b.
  - intros (q & l' & b & Hl & Hq & Hlen & Hin & Hp). destruct q as [|n q].
    + cbn in Hl. subst l'. eexists. split; [apply list_elem_of_fmap; by exists (lit "build", Directory b)|]. apply Hbuild. by exists b.
    + destruct Hl as (e & below & He & Hr & Hb & Hl). eexists. split; [apply list_elem_of_fmap; by exists (n, e)|].
      destruct e as [|[below'|]| | |]; try done. injection Hb as ->. apply Forall_cons in Hq as [Hn Hq].
      cbn [child_generated fst snd]. destruct (is_build_dir n) eqn:Eb; [unfold is_build_dir in Eb; apply bool_decide_eq_true in Eb as ->; done|].
      rewrite Hn. apply IH. exists q, l', b. cbn in Hlen. split_and!; [done..|lia|done|by rewrite <- app_assoc].
Qed.

Lemma child_named_elem name l e : NoDup l.*1 -> child_named name l = Some e <-> (name, e) ∈ l.
Proof.
  intros Hn. unfold child_named. split.
  - intros ([n c] & Hf & ->)%fmap_Some. apply find_some in Hf as [Hin Hb]. apply bool_decide_eq_true in Hb. cbn in Hb. subst. by apply list_elem_of_In.
  - induction l as [|[n c] l IH]; [by intros ?%not_elem_of_nil|]. apply NoDup_cons in Hn as [Hnin Hn]. cbn [find fst].
    intros [Heq|Hin]%elem_of_cons; [injection Heq as <- <-; by rewrite bool_decide_true|].
    rewrite bool_decide_false; [by apply IH|]. intros ->. apply Hnin. apply list_elem_of_fmap. by exists (name, e).
Qed.

(** A generated source: a regular Kotlin file below [generated] or [generated-src] of a [build] directory the walk reaches. *)
Definition generated_file (root : Entry) (p : Path) : Prop :=
  exists q l b g e below r l' name content,
    listing_at root q l /\ unignored q /\ length q <= MAX_TRAVERSAL_DEPTH /\ (lit "build", Directory (Some b)) ∈ l /\
    g ∈ GENERATED_DIRS /\ (g, e) ∈ b /\ read_children e = Some below /\ listing_in below r l' /\ length r <= MAX_TRAVERSAL_DEPTH /\
    (name, File content) ∈ l' /\ has_kotlin_extension name = true /\ p = q ++ [lit "build"; g] ++ r ++ [name].

Lemma elem_of_generated root files : well_formed root -> collect_generated_kotlin_files root = Some files ->
  forall p, p ∈ files <-> generated_file root p.
Proof.
  intros Hwf Hc p. unfold collect_generated_kotlin_files in Hc.
  destruct (generated_loop_spec (S (weight root)) [([], 0, root)] []) as (fs & E & Hfs).
  { unfold pending_weight, total_weight. cbn. lia. }
  { apply Forall_singleton. cbn. lia. }
  rewrite E in Hc. injection Hc as <-. rewrite sort_perm, Hfs. unfold found_generated. csimpl. rewrite app_nil_r.
  unfold directory_generated. cbn [fst snd]. rewrite elem_of_listed_generated, Nat.sub_0_r. split.
  - intros (q & l' & b & Hl & Hq & Hlen & Hb & Hp). destruct (read_children root) as [l|] eqn:El.
    2: { destruct q; [cbn in Hl; subst; by apply not_elem_of_nil in Hb|]. destruct Hl as (e & b' & He & _). by apply not_elem_of_nil in He. }
    cbn [default from_option] in Hl. unfold id in Hl. unfold collect_generated_under_build in Hp.
    apply elem_of_concat in Hp as (ps & (g & -> & Hg)%list_elem_of_fmap & Hp). cbn [read_children] in Hp.
    destruct (child_named g (default [] b)) as [e|] eqn:Eg; [|by apply not_elem_of_nil in Hp]. destruct b as [b|]; [|done].
    assert (listing_at root q l') as Hat by (by exists l).
    assert (listing_at root (q ++ [lit "build"]) b) as Hat'.
    { exists l. split; [done|]. apply listing_in_app. exists l'. split; [done|]. by exists (Directory (Some b)), b. }
    apply child_named_elem in Eg; [|by apply (Hwf _ _ Hat')].
    apply elem_of_under in Hp as (below & r & l'' & name & content & Hb' & Hl' & Hin & Hr & Hk & ->).
    exists q, l', b, g, e, below, r, l'', name, content. split_and!; try done. by rewrite <- !app_assoc.
  - intros (q & l & b & g & e & below & r & l' & name & content & (l0 & El & Hl) & Hq & Hlen & Hb & Hg & He & Hbelow & Hl' & Hr & Hin & Hk & ->).
    exists q, l, (Some b). rewrite El. cbn [default from_option]. unfold id. split_and!; [done..|].
    unfold collect_generated_under_build. apply elem_of_concat. eexists. split; [apply list_elem_of_fmap; by exists g|].
    assert (listing_at root (q ++ [lit "build"]) b) as Hat'.
    { exists l0. split; [done|]. apply listing_in_app. exists l. split; [done|]. by exists (Directory (Some b)), b. }
    cbn [read_children default from_option]. unfold id. rewrite (proj2 (child_named_elem g b e (proj1 (Hwf _ _ Hat'))) He).
    apply elem_of_under. exists below, r, l', name, content. split_and!; try done. by rewrite <- !app_assoc.
Qed.

Lemma generated_some root : is_Some (collect_generated_kotlin_files root).
Proof.
  unfold collect_generated_kotlin_files. destruct (generated_loop_spec (S (weight root)) [([], 0, root)] []) as (fs & -> & _); [|apply Forall_singleton; cbn; lia|by eexists].
  unfold pending_weight, total_weight. cbn. lia.
Qed.

(** ** The judgement of engine paths agrees with the walks *)

Lemma any_ignored_unignored q : unignored q -> any_ignored q = false.
Proof. induction 1 as [|name q Hn Hq IH]; [done|]. cbn. by rewrite Hn, IH. Qed.
Lemma any_ignored_split q : any_ignored q = false ->
  unignored q \/ exists q1 g r, q = q1 ++ [lit "build"; g] ++ r /\ unignored q1 /\ g ∈ GENERATED_DIRS.
Proof.
  induction q as [|name q IH]; [left; constructor|]. cbn [any_ignored]. intros [Hn Hq]%orb_false_iff.
  destruct (is_ignored_dir_name name) eqn:Ei.
  - right. cbn [andb] in Hn. apply negb_false_iff, andb_true_iff in Hn as [Hb Hg]. unfold is_build_dir in Hb. apply bool_decide_eq_true in Hb as ->.
    destruct q as [|g r]; [done|]. apply bool_decide_eq_true in Hg. exists [], g, r. split_and!; [done|constructor|done].
  - destruct (IH Hq) as [Hu|(q1 & g & r & -> & Hu & Hg)]; [left; by constructor|]. right. exists (name :: q1), g, r. split_and!; [done|by constructor|done].
Qed.

Lemma judge_display q name : Forall valid_name (q ++ [name]) -> is_inside_ignored_dir (display (q ++ [name])) = any_ignored q.
Proof.
  intros Hv. unfold is_inside_ignored_dir, display.
  rewrite split_join; [| by destruct q|intros n Hn; rewrite Forall_forall in Hv; by apply Hv in Hn as []].
  rewrite length_app, Nat.add_sub, take_app_length.
  assert (starts_with (join [ch "/"] (q ++ [name])) [ch "/"] = false) as ->; [|done].
  destruct (starts_with (join [ch "/"] (q ++ [name])) [ch "/"]) eqn:E; [|done]. apply starts_with_spec in E as [k E].
  assert (forall n ps, valid_name n -> join [ch "/"] (n :: ps) <> [ch "/"] ++ k) as Hno.
  { intros n ps [Hne Hfree] Ej. destruct n as [|c n]; [done|]. destruct ps as [|p ps]; cbn in Ej; injection Ej as -> _; apply Hfree; left. }
  destruct q as [|n q]; apply Forall_cons in Hv as [Hn _]; by apply Hno in E.
Qed.
Lemma strip_components_app base rest : strip_components base (base ++ rest) = Some rest.
Proof. induction base as [|b base IH]; [by destruct rest|]. cbn. by rewrite decide_True. Qed.
(** What a walk finds below the root is displayed as its names joined. *)
Lemma normalized_walked canonicalize root p : normalized_path canonicalize root (path_join root (mkFsPath false p)) = display p.
Proof.
  unfold normalized_path, path_strip_prefix, path_join. cbn [fp_rooted fp_components]. by rewrite Bool.eqb_reflx, strip_components_app.
Qed.
Lemma listing_names root q l name c : well_formed root -> listing_at root q l -> (name, c) ∈ l -> Forall valid_name (q ++ [name]).
Proof.
  intros Hwf (l0 & El & Hl) Hin. assert (forall q1 q2 l1, listing_at root q1 l1 -> listing_in l1 q2 l -> Forall valid_name (q2 ++ [name])) as H.
  2: { apply (H [] q l0); [by exists l0|done]. }
  clear q Hl. intros q1 q2. revert q1. induction q2 as [|n q2 IH]; intros q1 l1 Hat Hl; cbn [listing_in app] in *.
  - subst l1. destruct (Hwf _ _ Hat) as [_ Hv]. rewrite Forall_forall in Hv. apply Forall_singleton, Hv. apply list_elem_of_fmap. by exists (name, c).
  - destruct Hl as (e & b & He & Hr & Hb & Hl). constructor.
    + destruct (Hwf _ _ Hat) as [_ Hv]. rewrite Forall_forall in Hv. apply Hv. apply list_elem_of_fmap. by exists (n, e).
    + apply (IH (q1 ++ [n]) b); [|done]. destruct Hat as (l2 & E2 & Hl2). exists l2. split; [done|]. apply listing_in_app. exists l1. split; [done|].
      by exists e, b.
Qed.

(** The filter on the engine's answers and the walks see one workspace: no path the Kotlin walk
    collects is judged inside an ignored directory, and a Kotlin file below real directories that is not
    judged so is collected by the Kotlin walk or by the generated walk. *)
Theorem engine_filter_agrees (root : Entry) (files generated : list Path) :
  well_formed root -> collect_kotlin_files root = Some (inr files) -> collect_generated_kotlin_files root = Some generated ->
  (forall p, p ∈ files -> is_inside_ignored_dir (display p) = false) /\
  (forall q l name content, listing_at root q l -> (name, File content) ∈ l -> has_kotlin_extension name = true ->
    length q <= MAX_TRAVERSAL_DEPTH -> is_inside_ignored_dir (display (q ++ [name])) = false ->
    q ++ [name] ∈ files \/ q ++ [name] ∈ generated).
Proof.
  intros Hwf Hk Hg. destruct (collect_source_files_spec root has_kotlin_extension Hwf) as (r & E & Hr).
  unfold collect_kotlin_files in Hk. rewrite E in Hk. injection Hk as ->. destruct Hr as (Hok & _ & Hp).
  assert (forall p, p ∈ files <-> source_file has_kotlin_extension root p) as Hfiles by (intros p; rewrite Hp; by apply elem_of_collected). split.
  - intros p (q & name & l & c & -> & Hat & Hin & Hq & _)%Hfiles. rewrite judge_display by (by eapply listing_names). by apply any_ignored_unignored.
  - intros q l name content Hat Hin Hext Hlen Hj. rewrite judge_display in Hj by (by eapply listing_names).
    apply any_ignored_split in Hj as [Hu|(q1 & g & rest & -> & Hu & Hgen)].
    + left. apply Hfiles. exists q, name, l, (File content). by split_and!.
    + right. apply (elem_of_generated root generated Hwf Hg). destruct Hat as (l0 & El & Hl).
      apply listing_in_app in Hl as (l1 & Hl1 & e1 & b & He1 & Hr1 & Hb1 & e2 & below & He2 & Hr2 & Hb2 & Hl2).
      destruct e1 as [|[b1|]| | |]; try done. injection Hb1 as ->. rewrite !length_app in Hlen. cbn in Hlen.
      exists q1, l1, b, g, e2, below, rest, l, name, content. split_and!; try done; [by exists l0|lia|lia|]. by rewrite <- !app_assoc.
Qed.

(** The display of a path under the root leads back to it: split at the separators it is the names
    of the path, which reach the same entry. *)
Theorem display_roundtrip (root : Entry) (q : Path) (l : list (str * Entry)) (name : str) (c : Entry) :
  well_formed root -> listing_at root q l -> (name, c) ∈ l ->
  split_char (ch "/") (display (q ++ [name])) = q ++ [name] /\ entry_at root (q ++ [name]) = Some c.
Proof.
  intros Hwf Hat Hin. pose proof (listing_names _ _ _ _ _ Hwf Hat Hin) as Hv. split.
  { unfold display. apply split_join; [by destruct q|]. intros n Hn. rewrite Forall_forall in Hv. by apply Hv in Hn as []. }
  clear Hv. revert root Hwf Hat. induction q as [|n q IH]; intros root Hwf (l0 & El & Hl); cbn [listing_in app entry_at] in *; rewrite El; cbn [mbind option_bind].
  - subst l0. rewrite (proj2 (child_named_elem name l c (proj1 (Hwf [] l (ex_intro _ l (conj El eq_refl))))) Hin). done.
  - destruct Hl as (e & b & He & Hr & Hb & Hl).
    rewrite (proj2 (child_named_elem n l0 e (proj1 (Hwf [] l0 (ex_intro _ l0 (conj El eq_refl))))) He). cbn [mbind option_bind].
    apply IH; [|by exists b]. intros q' l' (b' & Eb & Hl'). apply (Hwf (n :: q')). exists l0. split; [done|]. by exists e, b'.
Qed.

(** ** A workspace on disk *)

Fixpoint tidy (room : nat) (l : list (str * Entry)) : bool :=
  match room with
  | O => false
  | S room' =>
      bool_decide (NoDup l.*1) && forallb (fun name => bool_decide (name <> [] /\ ch "/" ∉ name)) l.*1
      && forallb (fun entry => match entry.2 with Directory (Some below) => tidy room' below | _ => true end) l
  end.
Lemma tidy_listing room : forall l q l', tidy room l = true -> listing_in l q l' -> NoDup l'.*1 /\ Forall valid_name l'.*1.
Proof.
  induction room as [|room IH]; intros l q l' Ht; [done|]. cbn [tidy] in Ht.
  apply andb_true_iff in Ht as [[Hn Hv]%andb_true_iff Hb]. apply bool_decide_eq_true in Hn. destruct q as [|n q].
  - intros ->. split; [done|]. apply Forall_forall. intros name Hname. rewrite forallb_forall in Hv.
    apply list_elem_of_In, Hv, bool_decide_eq_true in Hname. done.
  - intros (e & b & Hin & Hr & Hrc & Hl). rewrite forallb_forall in Hb. apply list_elem_of_In, Hb in Hin. cbn [snd] in Hin.
    destruct e as [|[b'|]| | |]; try done. injection Hrc as ->. by apply (IH b q).
Qed.
Lemma tidy_well_formed room root : match read_children root with Some l => tidy room l = true | None => True end -> well_formed root.
Proof. intros Ht q l (l0 & E & Hl). rewrite E in Ht. by apply (tidy_listing room l0 q). Qed.

(** A generated tree may hold an ignored name; a [build/generated] link is followed. *)
Definition shop : Entry :=
  Directory (Some [
    (lit "src", Directory (Some [(lit "B.kt", File (Some (lit "class B"))); (lit "A.kt", File (Some (lit "class A"))); (lit "A.java", File None)]));
    (lit "bin", Directory (Some [(lit "A.kt", File (Some (lit "class A")))]));
    (lit "link", Symlink (Some (Directory (Some [(lit "L.kt", File None)]))));
    (lit "build", Directory (Some [
      (lit "generated", Directory (Some [(lit "G.kt", File (Some (lit "class G"))); (lit ".cache", Directory (Some [(lit "H.kt", File (Some (lit "class H")))]))]));
      (lit "generated-src", Symlink (Some (Directory (Some [(lit "K.kt", File (Some (lit "class K")))]))));
      (lit "classes", Directory (Some [(lit "C.kt", File None)]))]))]).
Definition shop_kotlin : list Path := [[lit "src"; lit "A.kt"]; [lit "src"; lit "B.kt"]].
Definition shop_generated : list Path :=
  [[lit "build"; lit "generated"; lit ".cache"; lit "H.kt"]; [lit "build"; lit "generated"; lit "G.kt"]; [lit "build"; lit "generated-src"; lit "K.kt"]].

Lemma shop_well_formed : well_formed shop.
Proof. apply (tidy_well_formed 5). vm_compute. reflexivity. Qed.
Lemma shop_collected : collect_kotlin_files shop = Some (inr shop_kotlin) /\ collect_generated_kotlin_files shop = Some shop_generated.
Proof. split; vm_compute; reflexivity. Qed.

(** A generated file in a dotted directory is collected, but an engine result in it is dropped. *)
Lemma generated_file_judged_ignored :
  [lit "build"; lit "generated"; lit ".cache"; lit "H.kt"] ∈ shop_generated /\
  is_inside_ignored_dir (display [lit "build"; lit "generated"; lit ".cache"; lit "H.kt"]) = true.
Proof. split; [left|vm_compute; reflexivity]. Qed.
(** The generated walk is documented as free of links; a link named as a generated directory is followed. *)
Lemma generated_link_followed :
  entry_at shop [lit "build"; lit "generated-src"] = Some (Symlink (Some (Directory (Some [(lit "K.kt", File (Some (lit "class K")))])))) /\
  [lit "build"; lit "generated-src"; lit "K.kt"] ∈ shop_generated.
Proof. split; [vm_compute; reflexivity|]. right. right. left. Qed.

Lemma collect_source_files_exact_witness : well_formed shop /\
  exists r, collect_source_files shop has_kotlin_extension = Some r /\ r = inr shop_kotlin /\ source_file has_kotlin_extension shop [lit "src"; lit "A.kt"].
Proof.
  split; [exact shop_well_formed|]. destruct (collect_source_files_exact shop has_kotlin_extension shop_well_formed) as (r & E & Hr).
  exists r. split; [exact E|]. assert (r = inr shop_kotlin) as -> by (pose proof (proj1 shop_collected) as E'; unfold collect_kotlin_files in E'; congruence).
  split; [reflexivity|]. apply Hr. left.
Defined.
Lemma engine_filter_agrees_witness :
  (well_formed shop /\ collect_kotlin_files shop = Some (inr shop_kotlin) /\ collect_generated_kotlin_files shop = Some shop_generated) /\
  is_inside_ignored_dir (display [lit "src"; lit "B.kt"]) = false.
Proof.
  split; [split; [exact shop_well_formed|exact shop_collected]|].
  destruct (engine_filter_agrees shop shop_kotlin shop_generated shop_well_formed (proj1 shop_collected) (proj2 shop_collected)) as [Hj _].
  apply Hj. right. left.
Defined.
Lemma display_roundtrip_witness :
  well_formed shop /\ split_char (ch "/") (display [lit "src"; lit "A.kt"]) = [lit "src"; lit "A.kt"] /\ entry_at shop [lit "src"; lit "A.kt"] = Some (File (Some (lit "class A"))).
Proof.
  split; [exact shop_well_formed|].
  apply (display_roundtrip shop [lit "src"] [(lit "B.kt", File (Some (lit "class B"))); (lit "A.kt", File (Some (lit "class A"))); (lit "A.java", File None)]
    (lit "A.kt") (File (Some (lit "class A"))) shop_well_formed).
  - eexists. split; [reflexivity|]. eexists _, _. split; [left|]. split; [reflexivity|]. split; reflexivity.
  - right. left.
Defined.
