(* ===== verification/Cst.v ===== *)
(** * Cst: the concrete syntax tree a file is read from

    The crate [ktsense-syntax] walks a tree-sitter tree. The parser and the Kotlin grammar are
    third-party, so a tree is data with the attributes the walk reads and parsing is an operation of
    the class [Grammar]; [GrammarLaws] states the documented guarantees of a syntax tree. *)
From S2P Require Import Prelude.

Set Default Proof Using "Type*".

(** [Node]: [kind], [is_named], [byte_range], [start_position().row], and the children. *)
Inductive Node := mkNode {
  n_kind : str;
  n_named : bool;
  n_start : N;
  n_stop : N;
  n_row : N;
  n_children : list Node }.
Record Tree := mkTree { t_root : Node; t_has_error : bool }.

(** [parse] of [lib.rs], and [Node::descendant_for_point_range] at one point: the child indices on the
    way from the root to the smallest node there. *)
Class Grammar := {
  parse : str -> option Tree;
  descendant_for_point : Node -> N -> N -> option (list nat) }.

Section node_ind.
Variable P : Node -> Prop.
Hypothesis step : forall n, Forall P (n_children n) -> P n.

Fixpoint node_ind' (n : Node) : P n :=
  step n
    ((fix go (ns : list Node) : Forall P ns :=
        match ns with
        | [] => Forall_nil_2 P
        | n' :: ns' => Forall_cons_2 P n' ns' (node_ind' n') (go ns')
        end) (n_children n)).
End node_ind.

(** Every node, parents first, in document order. *)
Fixpoint preorder (n : Node) : list Node :=
  n :: (fix go (ns : list Node) : list Node :=
          match ns with [] => [] | n' :: ns' => preorder n' ++ go ns' end) (n_children n).
Lemma preorder_eq n : preorder n = n :: concat (preorder <$> n_children n).
Proof.
  destruct n as [? ? ? ? ? children]. simpl. f_equal. by induction children as [|n ns IH]; csimpl; [|rewrite IH].
Qed.

Definition is_kind (kind : str) (n : Node) : bool := bool_decide (n_kind n = kind).
Definition kind_in (kinds : list str) (n : Node) : bool := bool_decide (n_kind n ∈ kinds).

(** [Extractor::first_child_of_kind], with the child's position. *)
Definition first_child (n : Node) (kind : str) : option (nat * Node) := list_find (fun c => n_kind c = kind) (n_children n).
Definition first_child_of_kind (n : Node) (kind : str) : option Node := snd <$> first_child n kind.

(** [class_body], else [enum_class_body]: where [body_of] looks for members. *)
Definition first_body (n : Node) : option (nat * Node) :=
  match first_child n (lit "class_body") with
  | Some body => Some body
  | None => first_child n (lit "enum_class_body")
  end.

(** A declaration's name comes before its members. *)
Definition named_first (n : Node) : Prop :=
  forall i name j body, first_child n (lit "type_identifier") = Some (i, name) -> first_body n = Some (j, body) -> i < j.

(** The kinds [Extractor::declaration] dispatches on. *)
Definition DECLARATION_KINDS : list str :=
  [lit "class_declaration"; lit "object_declaration"; lit "companion_object"; lit "function_declaration";
   lit "property_declaration"; lit "type_alias"; lit "enum_entry"; lit "secondary_constructor"].

Class GrammarLaws `{Grammar} := {
  (** Byte ranges are inside the source, on character boundaries. *)
  parse_ranges : forall source tree, parse source = Some tree ->
    Forall (fun n => is_Some (str_slice source (n_start n) (n_stop n))) (preorder (t_root tree));
  (** Nodes start in document order; a row is a 32-bit number. *)
  parse_rows : forall source tree, parse source = Some tree ->
    StronglySorted (fun a b => (n_row a <= n_row b)%N) (preorder (t_root tree)) /\
    Forall (fun n => (n_row n < 2 ^ 32)%N) (preorder (t_root tree));
  (** An anonymous node is a token, whose kind is its text. *)
  parse_anonymous : forall source tree, parse source = Some tree ->
    Forall (fun n => n_named n = false -> n_kind n ∉ DECLARATION_KINDS) (preorder (t_root tree));
  (** In the Kotlin grammar a class, interface or object is named before its body opens. *)
  parse_named_first : forall source tree, parse source = Some tree -> Forall named_first (preorder (t_root tree)) }.

(** ** Lemmas *)

Lemma preorder_self n : n ∈ preorder n.
Proof. rewrite preorder_eq. left. Qed.
Lemma child_in_preorder n c m : c ∈ n_children n -> m ∈ preorder c -> m ∈ preorder n.
Proof.
  intros Hc Hm. rewrite preorder_eq. right. apply elem_of_concat. exists (preorder c). split; [|done].
  apply list_elem_of_fmap. by exists c.
Qed.
Lemma first_child_spec n kind i c :
  first_child n kind = Some (i, c) -> n_children n !! i = Some c /\ n_kind c = kind.
Proof. unfold first_child. intros (? & ? & _)%list_find_Some. done. Qed.
Lemma first_child_of_kind_elem n kind c : first_child_of_kind n kind = Some c -> c ∈ n_children n.
Proof.
  unfold first_child_of_kind. intros ([i c'] & E & ->)%fmap_Some. apply first_child_spec in E as [Hi _].
  by apply list_elem_of_lookup_2 in Hi.
Qed.
Lemma first_body_spec n j body : first_body n = Some (j, body) -> n_children n !! j = Some body.
Proof.
  unfold first_body. destruct (first_child n (lit "class_body")) as [[i c]|] eqn:E; intros Hb; [injection Hb as -> ->; apply first_child_spec in E|
    apply first_child_spec in Hb]; tauto.
Qed.
Lemma first_body_elem n j body : first_body n = Some (j, body) -> body ∈ n_children n.
Proof. intros Hb%first_body_spec. by eapply list_elem_of_lookup_2. Qed.
