(* ===== verification/Extract.v ===== *)
(** * Extract: from a syntax tree to a file skeleton

    Models [crates/ktsense-syntax/src/extract.rs]: [extract] reads the declarations of a Kotlin tree,
    [locate_local] finds one inside a body. A slice of the source that would panic is [None]. The
    [Cell] recording that nesting was cut is a flag returned beside the result. *)
From S2P Require Import Prelude Text Skeleton References Cst.

Set Default Proof Using "Type*".

Definition TYPE_KINDS : list str :=
  [lit "user_type"; lit "nullable_type"; lit "function_type"; lit "parenthesized_type"; lit "dynamic_type"; lit "type_reference"].
Definition is_type (n : Node) : bool := kind_in TYPE_KINDS n.

(** [modifier_from_keyword]. *)
Definition MODIFIER_KEYWORDS : list (str * Modifier) :=
  [(lit "expect", Expect); (lit "actual", Actual); (lit "final", Final); (lit "open", Open); (lit "abstract", Abstract);
   (lit "sealed", Sealed); (lit "const", Const); (lit "external", External); (lit "override", Override);
   (lit "lateinit", Lateinit); (lit "tailrec", Tailrec); (lit "vararg", Vararg); (lit "suspend", Suspend);
   (lit "inner", Inner); (lit "enum", Enum); (lit "annotation", Annotation); (lit "fun", Fun);
   (lit "companion", Companion); (lit "inline", Inline); (lit "value", Value); (lit "infix", Infix_);
   (lit "operator", Operator); (lit "data", Data)].
Definition modifier_from_keyword (keyword : str) : option Modifier :=
  snd <$> (snd <$> list_find (fun e => e.1 = keyword) MODIFIER_KEYWORDS).

(** [summarize_kdoc]: the first sentence of a KDoc block; [summary[..=end]] ends with the full stop. *)
Definition kdoc_line (line : str) : str := trim (trim_start_matches [ch "*"] (trim line)).
Definition summarize_kdoc (raw : str) : option (option str) :=
  let inner := trim_end_matches (lit "*/") (trim_start_matches (lit "/**") raw) in
  let body := join (lit " ") (take_while (fun line => negb (starts_with line [ch "@"])) (kdoc_line <$> lines inner)) in
  let summary := join (lit " ") (split_whitespace body) in
  sentence ← match find_str summary (lit ". ") with
             | Some stop => head ← str_to summary (stop + 1); Some (trim_end head)
             | None => Some summary
             end;
  Some (if bool_decide (sentence = []) then None else Some sentence).

Section extractor.
Context `{Unicode} (source : str).

Definition text (n : Node) : option str := str_slice source (n_start n) (n_stop n).
Definition signature_text (n : Node) : option str := t ← text n; normalize_signature_layout t.
(** [.map(..).unwrap_or_default()] and [.map(..)] of an optional node. *)
Definition text_or_empty (o : option Node) : option str := match o with Some n => text n | None => Some [] end.
Definition signature_of_node (o : option Node) : option (option str) :=
  match o with Some n => Some <$> signature_text n | None => Some None end.

(** [row as u32 + 1]. *)
Definition line_of (n : Node) : N := (n_row n mod 2 ^ 32 + 1)%N.

Fixpoint modifier_groups (groups : list Node) (visibility : Visibility) (collected : list Modifier)
    : option (Visibility * list Modifier) :=
  match groups with
  | [] => Some (visibility, collected)
  | group :: rest =>
      if is_kind (lit "annotation") group then modifier_groups rest visibility collected
      else
        raw ← text group;
        let keyword := trim raw in
        if bool_decide (keyword = lit "private") then modifier_groups rest Private collected
        else if bool_decide (keyword = lit "internal") then modifier_groups rest Internal collected
        else if bool_decide (keyword = lit "protected") then modifier_groups rest Protected collected
        else if bool_decide (keyword = lit "public") then modifier_groups rest Public collected
        else match modifier_from_keyword keyword with
             | Some modifier => modifier_groups rest visibility (collected ++ [modifier])
             | None => modifier_groups rest visibility collected
             end
  end.
Definition modifiers_of (n : Node) : option (Visibility * list Modifier) :=
  match first_child_of_kind n (lit "modifiers") with
  | Some modifiers => modifier_groups (n_children modifiers) Public []
  | None => Some (Public, [])
  end.
Definition annotations_of (n : Node) : option (list str) :=
  match first_child_of_kind n (lit "modifiers") with
  | Some modifiers => mapM signature_text (filter (fun group => is_kind (lit "annotation") group = true) (n_children modifiers))
  | None => Some []
  end.

(** [doc_of]: [prev_named_sibling] is the last named one of the siblings before. *)
Definition doc_of (before : list Node) : option (option str) :=
  match last (filter (fun s => n_named s = true) before) with
  | None => Some None
  | Some previous =>
      if is_kind (lit "multiline_comment") previous then
        raw ← text previous;
        if starts_with raw (lit "/**") then summarize_kdoc raw else Some None
      else Some None
  end.

Definition type_parameters_of (n : Node) : option (option str) := signature_of_node (first_child_of_kind n (lit "type_parameters")).
Definition constraints_of (n : Node) : option (option str) :=
  match first_child_of_kind n (lit "type_constraints") with
  | Some constraints => t ← signature_text constraints; Some (Some (trim (trim_start_matches (lit "where") t)))
  | None => Some None
  end.
Definition supertypes_of (n : Node) : option (list str) :=
  mapM signature_text (filter (fun c => is_kind (lit "delegation_specifier") c = true) (n_children n)).
Definition receiver_of (n : Node) : option (option str) :=
  match first_child_of_kind n (lit "receiver_type") with Some receiver => Some <$> text receiver | None => Some None end.

(** *** Parameters *)

Definition class_parameter (n : Node) : option Parameter_ :=
  '(visibility, _) ← modifiers_of n;
  name ← text_or_empty (first_child_of_kind n (lit "simple_identifier"));
  let type_index := list_find (fun c => is_type c = true) (n_children n) in
  type_name ← match type_index with Some (_, t) => signature_text t | None => Some [] end;
  property ← match first_child_of_kind n (lit "binding_pattern_kind") with
             | Some binding => keyword ← text binding; Some (Some (mkProperty visibility (bool_decide (keyword = lit "var"))))
             | None => Some None
             end;
  default ← match type_index with
            | Some (index, _) => signature_of_node (find n_named (drop (index + 1) (n_children n)))
            | None => Some None
            end;
  Some (mkParameter name type_name default property false).
Definition class_parameters (constructor : Node) : option (list Parameter_) :=
  mapM class_parameter (filter (fun c => is_kind (lit "class_parameter") c = true) (n_children constructor)).

Definition parameter_type (parameter : Node) : option str :=
  match list_find (fun c => is_type c = true) (n_children parameter) with
  | None => Some []
  | Some (index, t) =>
      modifier ← match index with
                 | O => Some []
                 | S previous =>
                     match n_children parameter !! previous with
                     | Some p => if is_kind (lit "type_modifiers") p then t ← text p; Some (t ++ lit " ") else Some []
                     | None => Some []
                     end
                 end;
      t ← text t;
      normalize_signature_layout (modifier ++ t)
  end.

Definition with_default (p : Parameter_) (default : str) : Parameter_ :=
  mkParameter (p_name p) (p_type_name p) (Some default) (p_property p) (p_vararg p).
(** [parameters.last_mut()]: the last parameter gets the default, unless it has one. *)
Definition default_last (parameters : list Parameter_) (n : Node) : option (list Parameter_) :=
  match last parameters with
  | Some p =>
      match p_default p with
      | None => t ← signature_text n; Some (take (length parameters - 1) parameters ++ [with_default p t])
      | Some _ => Some parameters
      end
  | None => Some parameters
  end.
Fixpoint function_parameters_loop (children : list Node) (parameters : list Parameter_) (next_is_vararg : bool)
    : option (list Parameter_) :=
  match children with
  | [] => Some parameters
  | child :: rest =>
      if negb (n_named child) then function_parameters_loop rest parameters next_is_vararg
      else if is_kind (lit "parameter_modifiers") child then
        t ← text child; function_parameters_loop rest parameters (contains_str t (lit "vararg"))
      else if is_kind (lit "parameter") child then
        name ← text_or_empty (first_child_of_kind child (lit "simple_identifier"));
        type_name ← parameter_type child;
        function_parameters_loop rest (parameters ++ [mkParameter name type_name None None next_is_vararg]) false
      else
        parameters ← default_last parameters child;
        function_parameters_loop rest parameters next_is_vararg
  end.
Definition function_parameters (n : Node) : option (list Parameter_) := function_parameters_loop (n_children n) [] false.
Definition value_parameters (n : Node) : option (list Parameter_) :=
  match first_child_of_kind n (lit "function_value_parameters") with Some ps => function_parameters ps | None => Some [] end.

Definition return_type_of (n : Node) : option (option str) :=
  let after := drop 1 (skip_while (fun c => negb (is_kind (lit "function_value_parameters") c)) (n_children n)) in
  signature_of_node (find is_type (take_while (fun c => negb (is_kind (lit "function_body") c)) after)).
Definition has_expression_body (n : Node) : option bool :=
  match first_child_of_kind n (lit "function_body") with
  | Some body => t ← text body; Some (starts_with (trim_start t) (lit "="))
  | None => Some false
  end.

(** *** Declarations *)

(** [declared]: kind, name, line, visibility and modifiers; the rest as [Declaration::new] leaves it. *)
Definition declared (n : Node) (kind : DeclKind) (name_kind : str) : option Declaration :=
  '(visibility, modifiers) ← modifiers_of n;
  let name_node := first_child_of_kind n name_kind in
  name ← text_or_empty name_node;
  Some (mkDecl kind name None (line_of (default n name_node)) visibility [] modifiers None [] None None false [] None None []).

Definition class_like (n : Node) (before : list Node) (members : list Declaration) : option Declaration :=
  let keywords := n_kind <$> filter (fun c => n_named c = false) (n_children n) in
  let kind := if bool_decide (lit "interface" ∈ keywords) then Interface else Class_ in
  d ← declared n kind (lit "type_identifier");
  let modifiers := d_modifiers d
    ++ (if bool_decide (lit "enum" ∈ keywords) then [Enum] else [])
    ++ (if bool_decide (lit "fun" ∈ keywords) && bool_decide (kind = Interface) then [Fun] else []) in
  type_parameters ← type_parameters_of n;
  '(parameters, constructor_visibility) ←
    match first_child_of_kind n (lit "primary_constructor") with
    | Some constructor =>
        ps ← class_parameters constructor;
        '(v, _) ← modifiers_of constructor;
        Some (ps, if is_public v then None else Some v)
    | None => Some ([], None)
    end;
  supertypes ← supertypes_of n;
  constraints ← constraints_of n;
  doc ← doc_of before;
  annotations ← annotations_of n;
  Some (mkDecl kind (d_name d) None (d_line d) (d_visibility d) annotations modifiers type_parameters parameters
          constructor_visibility None false supertypes constraints doc members).

Definition object_of (n : Node) (before : list Node) (members : list Declaration) : option Declaration :=
  d ← declared n Object (lit "type_identifier");
  supertypes ← supertypes_of n;
  doc ← doc_of before;
  annotations ← annotations_of n;
  Some (mkDecl Object (d_name d) None (d_line d) (d_visibility d) annotations (d_modifiers d) None [] None None false
          supertypes None doc members).
Definition companion_object (n : Node) (before : list Node) (members : list Declaration) : option Declaration :=
  d ← object_of n before members;
  Some (mkDecl Object (d_name d) None (d_line d) (d_visibility d) (d_annotations d) (d_modifiers d ++ [Companion]) None [] None
          None false (d_supertypes d) None (d_doc d) members).

Definition function (n : Node) (before : list Node) : option Declaration :=
  d ← declared n Function_ (lit "simple_identifier");
  receiver ← receiver_of n;
  type_parameters ← type_parameters_of n;
  parameters ← value_parameters n;
  return_type ← return_type_of n;
  inferred ← (if bool_decide (return_type = None) then has_expression_body n else Some false);
  constraints ← constraints_of n;
  doc ← doc_of before;
  annotations ← annotations_of n;
  Some (mkDecl Function_ (d_name d) receiver (d_line d) (d_visibility d) annotations (d_modifiers d) type_parameters parameters
          None return_type inferred [] constraints doc []).

Definition property (n : Node) (before : list Node) : option (option Declaration) :=
  '(visibility, modifiers) ← modifiers_of n;
  mutable ← match first_child_of_kind n (lit "binding_pattern_kind") with
            | Some binding => t ← text binding; Some (bool_decide (t = lit "var"))
            | None => Some false
            end;
  match first_child_of_kind n (lit "variable_declaration") with
  | None => Some None
  | Some variable =>
      match first_child_of_kind variable (lit "simple_identifier") with
      | None => Some None
      | Some name_node =>
          name ← text name_node;
          receiver ← receiver_of n;
          return_type ← signature_of_node (find is_type (n_children variable));
          doc ← doc_of before;
          annotations ← annotations_of n;
          Some (Some (mkDecl (if mutable : bool then Var else Val) name receiver (line_of name_node) visibility annotations
                        modifiers None [] None return_type (bool_decide (return_type = None)) [] None doc []))
      end
  end.

Definition type_alias (n : Node) (before : list Node) : option Declaration :=
  d ← declared n TypeAlias (lit "type_identifier");
  type_parameters ← type_parameters_of n;
  let after := drop 1 (skip_while (fun c => negb (is_kind (lit "type_identifier") c)) (n_children n)) in
  return_type ← signature_of_node (find is_type after);
  doc ← doc_of before;
  Some (mkDecl TypeAlias (d_name d) None (d_line d) (d_visibility d) [] (d_modifiers d) type_parameters [] None return_type false
          [] None doc []).

Definition enum_entry (n : Node) : option Declaration :=
  let name_node := first_child_of_kind n (lit "simple_identifier") in
  name ← text_or_empty name_node;
  Some (declaration_new EnumEntry name (line_of (default n name_node))).

Definition secondary_constructor (n : Node) (before : list Node) : option Declaration :=
  '(visibility, modifiers) ← modifiers_of n;
  parameters ← value_parameters n;
  doc ← doc_of before;
  annotations ← annotations_of n;
  Some (mkDecl Constructor_ (lit "constructor") None (line_of n) visibility annotations modifiers None parameters None None
          false [] None doc []).

(** The children a walk visits, each with the siblings before it; the declarations found, and whether
    nesting was cut below any of them. *)
Fixpoint collect (declaration : list Node -> Node -> option (option Declaration * bool)) (before nodes : list Node)
    : option (list Declaration * bool) :=
  match nodes with
  | [] => Some ([], false)
  | n :: rest =>
      '(found, cut) ← declaration before n;
      '(more, cut') ← collect declaration (before ++ [n]) rest;
      Some (option_list found ++ more, cut || cut')
  end.

(** The dispatch of [declaration] on the node's kind, given what [body_of] answers. *)
Definition declare (members : option (list Declaration * bool)) (before : list Node) (n : Node)
    : option (option Declaration * bool) :=
  let kind := n_kind n in
  if bool_decide (kind = lit "class_declaration") then
    '(ms, cut) ← members; d ← class_like n before ms; Some (Some d, cut)
  else if bool_decide (kind = lit "object_declaration") then
    '(ms, cut) ← members; d ← object_of n before ms; Some (Some d, cut)
  else if bool_decide (kind = lit "companion_object") then
    '(ms, cut) ← members; d ← companion_object n before ms; Some (Some d, cut)
  else if bool_decide (kind = lit "function_declaration") then d ← function n before; Some (Some d, false)
  else if bool_decide (kind = lit "property_declaration") then d ← property n before; Some (d, false)
  else if bool_decide (kind = lit "type_alias") then d ← type_alias n before; Some (Some d, false)
  else if bool_decide (kind = lit "enum_entry") then d ← enum_entry n; Some (Some d, false)
  else if bool_decide (kind = lit "secondary_constructor") then d ← secondary_constructor n before; Some (Some d, false)
  else Some (None, false).

(** [declaration] with [body_of] inside it; [room] is [MAX_NESTING_DEPTH - depth], how much deeper
    members may nest. *)
Fixpoint declaration (room : nat) (before : list Node) (n : Node) : option (option Declaration * bool) :=
  declare
    match snd <$> first_body n with
    | None => Some ([], false)
    | Some body =>
        match room with
        | O => Some ([], existsb n_named (n_children body))
        | S room' => collect (declaration room') [] (n_children body)
        end
    end before n.

(** The package and imports a root child sets; anything else may be a declaration. *)
Definition package_of (header : Node) : option (option str) :=
  match first_child_of_kind header (lit "identifier") with Some id => Some <$> text id | None => Some None end.
Definition imports_of (import_list : Node) : option (list str) :=
  mapM text (omap (fun header => first_child_of_kind header (lit "identifier"))
               (filter (fun c => is_kind (lit "import_header") c = true) (n_children import_list))).
Fixpoint read_file (room : nat) (f : FileSkeleton) (before nodes : list Node) : option FileSkeleton :=
  match nodes with
  | [] => Some f
  | n :: rest =>
      f ← (if is_kind (lit "package_header") n then
             package ← package_of n;
             Some (mkFile (fs_path f) package (fs_imports f) (fs_declarations f) (fs_truncated f) (fs_partial f))
           else if is_kind (lit "import_list") n then
             imports ← imports_of n;
             Some (mkFile (fs_path f) (fs_package f) imports (fs_declarations f) (fs_truncated f) (fs_partial f))
           else
             '(found, cut) ← declaration room before n;
             Some (mkFile (fs_path f) (fs_package f) (fs_imports f) (fs_declarations f ++ option_list found)
                     (fs_truncated f || cut) (fs_partial f)));
      read_file room f (before ++ [n]) rest
  end.

End extractor.

(** [extract]: the two failures are a source the parser rejects and one nothing is recovered from. *)
Inductive ExtractError := ParseFailed | NothingRecovered.
Definition extract_within `{Unicode} `{Grammar} (room : nat) (path source : str) : option (ExtractError + FileSkeleton) :=
  match parse source with
  | None => Some (inl ParseFailed)
  | Some tree =>
      f ← read_file source room (file_new path) [] (n_children (t_root tree));
      let f := mkFile (fs_path f) (fs_package f) (fs_imports f) (fs_declarations f) (fs_truncated f) (t_has_error tree) in
      Some (if fs_partial f && file_is_empty f then inl NothingRecovered else inr f)
  end.
Definition extract `{Unicode} `{Grammar} : str -> str -> option (ExtractError + FileSkeleton) := extract_within MAX_NESTING_DEPTH.

(** ** [locate_local] *)

Definition MAX_LOCAL_SCAN_DEPTH : nat := 512.
Definition holds_members (kind : str) : bool :=
  bool_decide (kind ∈ [lit "class_declaration"; lit "object_declaration"; lit "companion_object"]).

Record LocalDeclaration := mkLocal { lo_package : option str; lo_ancestors : list str; lo_declaration : Declaration }.

Section locate.
Context `{Unicode} (source : str).

Definition name_of_node (o : option Node) : option (option str) :=
  match o with Some n => Some <$> text source n | None => Some None end.
Definition declaration_name (n : Node) : option (option str) :=
  if kind_in [lit "class_declaration"; lit "object_declaration"; lit "companion_object"; lit "type_alias"] n then
    name_of_node (first_child_of_kind n (lit "type_identifier"))
  else if kind_in [lit "function_declaration"; lit "enum_entry"] n then
    name_of_node (first_child_of_kind n (lit "simple_identifier"))
  else if is_kind (lit "property_declaration") n then
    name_of_node (variable ← first_child_of_kind n (lit "variable_declaration"); first_child_of_kind variable (lit "simple_identifier"))
  else if is_kind (lit "secondary_constructor") n then Some (Some (lit "constructor"))
  else Some None.

(** What a search has found: whether it may stop, and the best declaration so far. *)
Abbreviation Best := (option (Declaration * list str)).
Definition or_insert (best : Best) (d : Declaration) (ancestors : list str) : Best :=
  match best with Some b => Some b | None => Some (d, ancestors) end.

(** The test of one child that is named as wanted. *)
Definition test_child (line : N) (before : list Node) (child : Node) (ancestors : list str) (best : Best) : option (bool * Best) :=
  '(found, _) ← declaration source MAX_NESTING_DEPTH before child;
  match found with
  | Some d => if (d_line d =? line)%N then Some (true, Some (d, ancestors)) else Some (false, or_insert best d ancestors)
  | None => Some (false, best)
  end.

(** [find_local]; [room] is [MAX_LOCAL_SCAN_DEPTH - depth]. *)
Fixpoint find_local (room : nat) (n : Node) (name : str) (line : N) (in_local_scope : bool) (ancestors : list str) (best : Best)
    : option (bool * Best) :=
  match room with
  | O => Some (false, best)
  | S room' =>
      (fix children (before nodes : list Node) (best : Best) : option (bool * Best) :=
         match nodes with
         | [] => Some (false, best)
         | child :: rest =>
             child_name ← declaration_name child;
             match child_name with
             | None =>
                 '(done, best) ← find_local room' child name line in_local_scope ancestors best;
                 if done : bool then Some (true, best) else children (before ++ [child]) rest best
             | Some declared_name =>
                 '(done, best) ← (if in_local_scope && bool_decide (declared_name = name)
                                  then test_child line before child ancestors best else Some (false, best));
                 if done : bool then Some (true, best)
                 else
                   let entered_local := in_local_scope || negb (holds_members (n_kind child)) in
                   '(done, best) ← find_local room' child name line entered_local (ancestors ++ [declared_name]) best;
                   if done : bool then Some (true, best) else children (before ++ [child]) rest best
             end
         end) [] (n_children n) best
  end.
End locate.

Definition package_under `{Unicode} (source : str) (root : Node) : option (option str) :=
  match find (is_kind (lit "package_header")) (n_children root) with
  | Some header => package_of source header
  | None => Some None
  end.
Definition locate_local `{Unicode} `{Grammar} (source name : str) (line : N) : option (option LocalDeclaration) :=
  match parse source with
  | None => Some None
  | Some tree =>
      package ← package_under source (t_root tree);
      '(_, found) ← find_local source MAX_LOCAL_SCAN_DEPTH (t_root tree) name line false [] None;
      Some (match found with Some (d, ancestors) => Some (mkLocal package ancestors d) | None => None end)
  end.

Arguments declared : simpl never.
Arguments modifiers_of : simpl never.
Arguments object_of : simpl never.

(** ** Lemmas: nothing panics *)

Lemma bind_some {A B} (m : option A) (f : A -> option B) :
  is_Some m -> (forall x, m = Some x -> is_Some (f x)) -> is_Some (m ≫= f).
Proof. intros [x Ex] Hf. rewrite Ex. by apply Hf. Qed.
Lemma mapM_some {A B} (f : A -> option B) l : Forall (fun x => is_Some (f x)) l -> is_Some (mapM f l).
Proof.
  induction 1 as [|x l [y Ey] _ [ys Eys]]; [by eexists|]. cbn. rewrite Ey. cbn [mbind option_bind].
  exists (y :: ys). change ((ys' ← mapM f l; Some (y :: ys')) = Some (y :: ys)). by rewrite Eys.
Qed.

Lemma summarize_kdoc_some raw : is_Some (summarize_kdoc raw).
Proof.
  unfold summarize_kdoc. set (summary := join _ (split_whitespace _)).
  pose proof (find_str_spec summary (lit ". ")) as Hf. destruct (find_str summary (lit ". ")) as [stop|]; [|by eexists].
  destruct Hf as (a & b & E & -> & _). rewrite E.
  replace (utf8_len a + 1)%N with (utf8_len (a ++ lit ".")) by (rewrite utf8_len_app; done).
  assert (a ++ lit ". " ++ b = (a ++ lit ".") ++ [32%N] ++ b) as -> by (by rewrite <- app_assoc).
  rewrite str_to_app. by eexists.
Qed.
Lemma normalize_some `{Unicode} t : is_Some (normalize_signature_layout t).
Proof.
  destruct (tokenize_layout_spec t) as (pieces & segs & Ht & _ & _ & Hsp).
  destruct (normalize_pieces_spec pieces Hsp) as (kept & Hk & _).
  unfold normalize_signature_layout. rewrite Ht. cbn [mbind option_bind]. rewrite Hk. by eexists.
Qed.

Create HintDb reads.
#[export] Hint Resolve summarize_kdoc_some normalize_some : reads.

(** Takes a computation apart into the reads it makes. *)
Ltac reads_step :=
  match goal with
  | |- is_Some (Some _) => by eexists
  | |- is_Some (_ ≫= _) => apply bind_some; [|intros ? ?]
  | |- is_Some (_ <$> _) => apply fmap_is_Some
  | |- is_Some (let _ := _ in _) => cbv zeta
  | |- is_Some (if ?b then _ else _) => destruct b
  | |- is_Some (match ?x with _ => _ end) => destruct x eqn:?
  | |- is_Some _ => solve [eauto with reads]
  end.
Ltac reads := repeat reads_step.

Section totality.
Context `{Unicode} (source : str).

(** Every node below has its text. *)
Definition readable (n : Node) : Prop := Forall (fun m => is_Some (text source m)) (preorder n).

Lemma readable_text n : readable n -> is_Some (text source n).
Proof. unfold readable. rewrite preorder_eq. by intros [? _]%Forall_cons. Qed.
Lemma readable_children n : readable n -> Forall readable (n_children n).
Proof.
  unfold readable. rewrite !Forall_forall. intros Hn c Hc. apply Forall_forall. intros m Hm. apply Hn.
  by eapply child_in_preorder.
Qed.
Lemma readable_child n c : readable n -> c ∈ n_children n -> readable c.
Proof. intros Hn Hc. apply readable_children in Hn. rewrite Forall_forall in Hn. by apply Hn. Qed.
Lemma readable_first n kind c : readable n -> first_child_of_kind n kind = Some c -> readable c.
Proof. intros Hn Hc. apply (readable_child n); [done|]. by eapply first_child_of_kind_elem. Qed.
Lemma readable_find n p l c : readable n -> (forall x, x ∈ l -> x ∈ n_children n) -> find p l = Some c -> readable c.
Proof. intros Hn Hl [Hin%list_elem_of_In _]%find_some. by apply (readable_child n); [|apply Hl]. Qed.
Lemma readable_filter n (P : Node -> Prop) `{!∀ x, Decision (P x)} : readable n -> Forall readable (filter P (n_children n)).
Proof. intros Hn. apply Forall_forall. intros c [_ Hc]%list_elem_of_filter. by apply (readable_child n). Qed.
Hint Resolve readable_text readable_first readable_child : reads.

Lemma signature_text_some n : readable n -> is_Some (signature_text source n).
Proof. intros Hn. unfold signature_text. reads. Qed.
Hint Resolve signature_text_some : reads.
Lemma text_or_empty_some n kind : readable n -> is_Some (text_or_empty source (first_child_of_kind n kind)).
Proof. intros Hn. unfold text_or_empty. reads. Qed.
Lemma signature_of_node_some n o : readable n -> (forall c, o = Some c -> c ∈ n_children n) -> is_Some (signature_of_node source o).
Proof. intros Hn Ho. unfold signature_of_node. destruct o; reads. Qed.
Lemma mapM_children {A} (f : Node -> option A) (l : list Node) n :
  readable n -> (forall x, x ∈ l -> x ∈ n_children n) -> (forall x, readable x -> is_Some (f x)) -> is_Some (mapM f l).
Proof. intros Hn Hl Hf. apply mapM_some, Forall_forall. intros x Hx. eauto with reads. Qed.
Hint Resolve text_or_empty_some : reads.

Lemma modifier_groups_some groups v ms : Forall readable groups -> is_Some (modifier_groups source groups v ms).
Proof. intros Hg. revert v ms. induction Hg as [|g groups Hg _ IH]; intros v ms; cbn [modifier_groups]; reads. Qed.
Lemma modifiers_of_some n : readable n -> is_Some (modifiers_of source n).
Proof.
  intros Hn. unfold modifiers_of. destruct (first_child_of_kind n _) as [m|] eqn:E; [|by eexists].
  apply modifier_groups_some, readable_children. eauto with reads.
Qed.
Lemma in_filter (P : Node -> Prop) `{!∀ x, Decision (P x)} (l : list Node) (x : Node) : x ∈ filter P l -> x ∈ l.
Proof. by intros [_ ?]%list_elem_of_filter. Qed.
Lemma in_find p (l : list Node) (x : Node) : find p l = Some x -> x ∈ l.
Proof. by intros [?%list_elem_of_In _]%find_some. Qed.
Lemma in_skip (p : Node -> bool) (l : list Node) (x : Node) : x ∈ skip_while p l -> x ∈ l.
Proof. induction l as [|y l IH]; [done|]. cbn. destruct (p y); [|done]. intros ?. right. auto. Qed.
Lemma in_take (p : Node -> bool) (l : list Node) (x : Node) : x ∈ take_while p l -> x ∈ l.
Proof. induction l as [|y l IH]; [done|]. cbn. destruct (p y); [|by intros ?%elem_of_nil]. intros [->|?]%elem_of_cons; [left|right; auto]. Qed.
Lemma in_drop n (l : list Node) (x : Node) : x ∈ drop n l -> x ∈ l.
Proof. intros Hx. rewrite <- (take_drop n l). apply elem_of_app. by right. Qed.
Hint Resolve modifiers_of_some in_filter in_find in_skip in_take in_drop : reads.

Lemma annotations_of_some n : readable n -> is_Some (annotations_of source n).
Proof.
  intros Hn. unfold annotations_of. destruct (first_child_of_kind n _) as [m|] eqn:E; [|by eexists].
  apply (mapM_children _ _ m); eauto with reads.
Qed.
Lemma doc_of_some before : Forall readable before -> is_Some (doc_of source before).
Proof.
  intros Hb. unfold doc_of. destruct (last _) as [p|] eqn:E; [|by eexists]. apply last_Some_elem_of, list_elem_of_filter in E as [_ Hp].
  rewrite Forall_forall in Hb. specialize (Hb p Hp). reads.
Qed.
Lemma type_parameters_some n : readable n -> is_Some (type_parameters_of source n).
Proof. intros Hn. apply (signature_of_node_some n); [done|]. intros c. apply first_child_of_kind_elem. Qed.
Lemma constraints_some n : readable n -> is_Some (constraints_of source n).
Proof. intros Hn. unfold constraints_of. reads. Qed.
Lemma supertypes_some n : readable n -> is_Some (supertypes_of source n).
Proof. intros Hn. apply (mapM_children _ _ n); eauto with reads. Qed.
Lemma receiver_some n : readable n -> is_Some (receiver_of source n).
Proof. intros Hn. unfold receiver_of. reads. Qed.
Hint Resolve annotations_of_some doc_of_some type_parameters_some constraints_some supertypes_some receiver_some : reads.

Lemma class_parameter_some n : readable n -> is_Some (class_parameter source n).
Proof.
  intros Hn. unfold class_parameter. reads.
  - match goal with H : list_find _ _ = Some _ |- _ => apply list_find_Some in H as (Ht & _) end.
    apply list_elem_of_lookup_2 in Ht. eauto with reads.
  - apply (signature_of_node_some n); [done|]. intros c Hc. eauto with reads.
Qed.
Lemma class_parameters_some n : readable n -> is_Some (class_parameters source n).
Proof. intros Hn. apply (mapM_children _ _ n); eauto using class_parameter_some with reads. Qed.
Lemma parameter_type_some n : readable n -> is_Some (parameter_type source n).
Proof.
  intros Hn. unfold parameter_type. destruct (list_find _ _) as [[i t]|] eqn:E; [|by eexists].
  apply list_find_Some in E as (Ht%list_elem_of_lookup_2 & _). reads.
  match goal with H : n_children n !! _ = Some _ |- _ => apply list_elem_of_lookup_2 in H end. eauto with reads.
Qed.
Hint Resolve class_parameters_some parameter_type_some : reads.
Lemma default_last_some ps n : readable n -> is_Some (default_last source ps n).
Proof. intros Hn. unfold default_last. reads. Qed.
Hint Resolve default_last_some : reads.
Lemma function_parameters_loop_some l ps v : Forall readable l -> is_Some (function_parameters_loop source l ps v).
Proof. intros Hl. revert ps v. induction Hl as [|n l Hn _ IH]; intros ps v; cbn [function_parameters_loop]; reads. Qed.
Lemma value_parameters_some n : readable n -> is_Some (value_parameters source n).
Proof.
  intros Hn. unfold value_parameters. destruct (first_child_of_kind n _) as [ps|] eqn:E; [|by eexists].
  apply function_parameters_loop_some, readable_children. eauto with reads.
Qed.
Lemma return_type_some n : readable n -> is_Some (return_type_of source n).
Proof. intros Hn. apply (signature_of_node_some n); [done|]. intros c Hc. eauto 8 with reads. Qed.
Lemma expression_body_some n : readable n -> is_Some (has_expression_body source n).
Proof. intros Hn. unfold has_expression_body. reads. Qed.
Hint Resolve value_parameters_some return_type_some expression_body_some : reads.

Lemma declared_some n kind name : readable n -> is_Some (declared source n kind name).
Proof. intros Hn. unfold declared. reads. Qed.
Hint Resolve declared_some : reads.

Lemma property_some n before : readable n -> Forall readable before -> is_Some (property source n before).
Proof.
  intros Hn Hb. unfold property. reads. apply (signature_of_node_some n0); [eauto with reads|]. eauto with reads.
Qed.
Hint Resolve property_some : reads.
Lemma type_alias_some n before : readable n -> Forall readable before -> is_Some (type_alias source n before).
Proof.
  intros Hn Hb. unfold type_alias. reads. apply (signature_of_node_some n); [done|]. intros c Hc. eauto 8 with reads.
Qed.
Hint Resolve type_alias_some : reads.
Lemma class_like_some n before ms : readable n -> Forall readable before -> is_Some (class_like source n before ms).
Proof. intros Hn Hb. unfold class_like. reads. Qed.
Lemma object_of_some n before ms : readable n -> Forall readable before -> is_Some (object_of source n before ms).
Proof. intros Hn Hb. unfold object_of. reads. Qed.
Hint Resolve class_like_some object_of_some : reads.
Lemma companion_some n before ms : readable n -> Forall readable before -> is_Some (companion_object source n before ms).
Proof. intros Hn Hb. unfold companion_object. reads. Qed.
Lemma function_some n before : readable n -> Forall readable before -> is_Some (function source n before).
Proof. intros Hn Hb. unfold function. reads. Qed.
Lemma enum_entry_some n : readable n -> is_Some (enum_entry source n).
Proof. intros Hn. unfold enum_entry. reads. Qed.
Lemma secondary_some n before : readable n -> Forall readable before -> is_Some (secondary_constructor source n before).
Proof. intros Hn Hb. unfold secondary_constructor. reads. Qed.
Hint Resolve companion_some function_some enum_entry_some secondary_some : reads.

Lemma declare_some members n before :
  readable n -> Forall readable before -> is_Some members -> is_Some (declare source members before n).
Proof. intros Hn Hb Hm. unfold declare. reads. Qed.

Lemma collect_some d before l :
  (forall b n, readable n -> Forall readable b -> is_Some (d b n)) -> Forall readable before -> Forall readable l ->
  is_Some (collect d before l).
Proof.
  intros Hd Hb Hl. revert before Hb. induction Hl as [|n l Hn _ IH]; intros before Hb; cbn [collect]; [by eexists|].
  assert (Forall readable (before ++ [n])) by (apply Forall_app; split; [done|by constructor]). reads.
Qed.

Lemma declaration_some room : forall before n, readable n -> Forall readable before -> is_Some (declaration source room before n).
Proof.
  induction room as [|room IH]; intros before n Hn Hb; cbn [declaration]; apply declare_some; try done;
    (destruct (first_body n) as [[j body]|] eqn:E; cbn; [|by eexists]); [by eexists|].
  apply collect_some; [intros; by apply IH|done|]. apply readable_children, (readable_child n); [done|].
  by eapply first_body_elem.
Qed.
Hint Resolve declaration_some : reads.

Lemma package_some n : readable n -> is_Some (package_of source n).
Proof. intros Hn. unfold package_of. reads. Qed.
Lemma imports_some n : readable n -> is_Some (imports_of source n).
Proof.
  intros Hn. unfold imports_of. apply mapM_some, Forall_forall. intros id (header & [_ Hh]%list_elem_of_filter & Hid)%list_elem_of_omap.
  eauto with reads.
Qed.
Hint Resolve package_some imports_some : reads.
Lemma read_file_some room f before l : Forall readable before -> Forall readable l -> is_Some (read_file source room f before l).
Proof.
  intros Hb Hl. revert f before Hb. induction Hl as [|n l Hn _ IH]; intros f before Hb; cbn [read_file]; [by eexists|].
  assert (Forall readable (before ++ [n])) by (apply Forall_app; split; [done|by constructor]). reads.
Qed.

Lemma name_of_node_some o : (forall n, o = Some n -> readable n) -> is_Some (name_of_node source o).
Proof. intros Ho. destruct o as [n|]; [|by eexists]. apply fmap_is_Some, readable_text. by apply Ho. Qed.
Lemma declaration_name_some n : readable n -> is_Some (declaration_name source n).
Proof.
  intros Hn. unfold declaration_name.
  case_match; [apply name_of_node_some; eauto using readable_first|]. case_match; [apply name_of_node_some; eauto using readable_first|].
  case_match; [|case_match; by eexists]. apply name_of_node_some. intros c (v & Hv & Hc)%bind_Some. eauto using readable_first.
Qed.
Lemma find_local_some room : forall n name line local ancestors best, readable n ->
  is_Some (find_local source room n name line local ancestors best).
Proof.
  induction room as [|room IH]; intros n name line local ancestors best Hn; [by eexists|]. cbn [find_local].
  apply readable_children in Hn. assert (Forall readable []) as Hb by constructor. revert Hb best. generalize (@nil Node) at 1 4 as before.
  induction Hn as [|c cs Hc Hcs IHcs]; intros before Hb best; [by eexists|].
  assert (Forall readable (before ++ [c])) as Hb' by (apply Forall_app; split; [done|by constructor]).
  apply bind_some; [by apply declaration_name_some|]. intros [declared_name|] _.
  - apply bind_some.
    + case_match; [|by eexists]. unfold test_child. apply bind_some; [by apply declaration_some|]. intros [found cut] _. repeat case_match; by eexists.
    + intros [[] best'] _; [by eexists|]. apply bind_some; [by apply IH|]. intros [[] best''] _; [by eexists|]. by apply IHcs.
  - apply bind_some; [by apply IH|]. intros [[] best'] _; [by eexists|]. by apply IHcs.
Qed.
End totality.

(** ** Lemmas: the shape of a declaration *)

Section shape.
Context `{Unicode} (source : str).

Lemma declared_line n kind name d :
  declared source n kind name = Some d -> d_line d = line_of (default n (first_child_of_kind n name)).
Proof. unfold declared. intros E. by invert_some E. Qed.

(** What a node's declaration is made of: a class-like one holds the members of its body and is placed
    on its name; the others hold nothing and are placed on a node below. *)
Lemma declare_cases members before n found cut :
  declare source members before n = Some (found, cut) ->
  match found with
  | Some d =>
      (exists ms, members = Some (ms, cut) /\ d_children d = ms /\
         d_line d = line_of (default n (first_child_of_kind n (lit "type_identifier")))) \/
      (d_children d = [] /\ cut = false /\ exists m, m ∈ preorder n /\ d_line d = line_of m)
  | None => cut = false
  end.
Proof.
  assert (forall name, default n (first_child_of_kind n name) ∈ preorder n) as Hname.
  { intros name. destruct (first_child_of_kind n name) as [c|] eqn:E; [|apply preorder_self].
    apply (child_in_preorder n c); [by eapply first_child_of_kind_elem|apply preorder_self]. }
  unfold declare. intros E.
  case_bool_decide.
  { apply bind_Some in E as ([ms c] & Em & E). apply bind_Some in E as (d & Ed & E). injection E as <- <-. left. exists ms.
    split; [done|]. unfold class_like in Ed. invert_some Ed; split; try done;
      match goal with H : declared _ _ _ _ = Some _ |- _ => by apply declared_line in H end. }
  case_bool_decide.
  { apply bind_Some in E as ([ms c] & Em & E). apply bind_Some in E as (d & Ed & E). injection E as <- <-. left. exists ms.
    split; [done|]. unfold object_of in Ed. invert_some Ed. split; [done|].
    match goal with H : declared _ _ _ _ = Some _ |- _ => by apply declared_line in H end. }
  case_bool_decide.
  { apply bind_Some in E as ([ms c] & Em & E). apply bind_Some in E as (d & Ed & E). injection E as <- <-. left. exists ms.
    split; [done|]. unfold companion_object in Ed. apply bind_Some in Ed as (o & Eo & Ed). injection Ed as <-.
    unfold object_of in Eo. invert_some Eo. split; [done|]. match goal with H : declared _ _ _ _ = Some _ |- _ => by apply declared_line in H end. }
  case_bool_decide.
  { apply bind_Some in E as (d & Ed & E). injection E as <- <-. right. unfold function in Ed. invert_some Ed;
    (split; [done|split; [done|]]); eexists; (split; [apply Hname|]);
      match goal with H : declared _ _ _ _ = Some _ |- _ => by apply declared_line in H end. }
  case_bool_decide.
  { apply bind_Some in E as (d & Ed & E). injection E as <- <-. unfold property in Ed.
    apply bind_Some in Ed as ([v ms] & _ & Ed). apply bind_Some in Ed as (mutable & _ & Ed).
    destruct (first_child_of_kind n (lit "variable_declaration")) as [variable|] eqn:Ev; [|by injection Ed as <-].
    destruct (first_child_of_kind variable (lit "simple_identifier")) as [name|] eqn:En; [|by injection Ed as <-].
    invert_some Ed. right. split; [done|split; [done|]]. exists name. split; [|done].
    apply (child_in_preorder n variable); [by eapply first_child_of_kind_elem|].
    apply (child_in_preorder variable name); [by eapply first_child_of_kind_elem|apply preorder_self]. }
  case_bool_decide.
  { apply bind_Some in E as (d & Ed & E). injection E as <- <-. right. unfold type_alias in Ed. invert_some Ed.
    split; [done|split; [done|]]. eexists. split; [apply Hname|].
    match goal with H : declared _ _ _ _ = Some _ |- _ => by apply declared_line in H end. }
  case_bool_decide.
  { apply bind_Some in E as (d & Ed & E). injection E as <- <-. right. unfold enum_entry in Ed. invert_some Ed.
    split; [done|split; [done|]]. eexists. by split; [apply Hname|]. }
  case_bool_decide; [|by injection E as <- <-].
  apply bind_Some in E as (d & Ed & E). injection E as <- <-. right. unfold secondary_constructor in Ed. invert_some Ed.
  split; [done|split; [done|]]. exists n. by split; [apply preorder_self|].
Qed.

Lemma collect_cons (f : list Node -> Node -> option (option Declaration * bool)) before n l ds cut :
  collect f before (n :: l) = Some (ds, cut) ->
  exists found c more c', f before n = Some (found, c) /\ collect f (before ++ [n]) l = Some (more, c') /\
    ds = option_list found ++ more /\ cut = c || c'.
Proof.
  cbn [collect]. intros E. apply bind_Some in E as ([found c] & E1 & E). apply bind_Some in E as ([more c'] & E2 & E).
  injection E as <- <-. by exists found, c, more, c'.
Qed.
End shape.

(** ** Lemmas: document order *)

Section order.
Context `{Unicode} (source : str).

Definition lines_of (ds : list Declaration) : list N := d_line <$> concat (flatten <$> ds).
Definition rows_of (ns : list Node) : list N := line_of <$> concat (preorder <$> ns).

Lemma lines_of_app a b : lines_of (a ++ b) = lines_of a ++ lines_of b.
Proof. unfold lines_of. by rewrite fmap_app, concat_app, fmap_app. Qed.
Lemma rows_of_cons n ns : rows_of (n :: ns) = (line_of <$> preorder n) ++ rows_of ns.
Proof. unfold rows_of. csimpl. by rewrite fmap_app. Qed.
Lemma rows_of_app a b : rows_of (a ++ b) = rows_of a ++ rows_of b.
Proof. unfold rows_of. by rewrite fmap_app, concat_app, fmap_app. Qed.

Definition in_order (f : list Node -> Node -> option (option Declaration * bool)) (n : Node) : Prop :=
  forall before found cut, f before n = Some (found, cut) -> lines_of (option_list found) `sublist_of` (line_of <$> preorder n).

Lemma collect_in_order f l : Forall (in_order f) l ->
  forall before ds cut, collect f before l = Some (ds, cut) -> lines_of ds `sublist_of` rows_of l.
Proof.
  induction 1 as [|n l Hn _ IH]; intros before ds cut E; [by injection E as <- <-|].
  apply collect_cons in E as (found & c & more & c' & E1 & E2 & -> & _).
  rewrite lines_of_app, rows_of_cons. apply sublist_app; [by eapply Hn|by eapply IH].
Qed.

Lemma rows_of_elem n ns : n ∈ ns -> (line_of <$> preorder n) `sublist_of` rows_of ns.
Proof.
  intros (l & k & ->)%list_elem_of_split. rewrite rows_of_app, rows_of_cons.
  apply sublist_inserts_l, sublist_inserts_r. reflexivity.
Qed.

(** A class-like declaration: its name, then the members of its body. *)
Lemma members_in_order n ms :
  named_first n ->
  match first_body n with
  | Some (_, body) => lines_of ms `sublist_of` rows_of (n_children body)
  | None => ms = []
  end ->
  line_of (default n (first_child_of_kind n (lit "type_identifier"))) :: lines_of ms `sublist_of` (line_of <$> preorder n).
Proof.
  intros Hn Hms. rewrite preorder_eq. csimpl. fold (rows_of (n_children n)).
  assert (forall l j body, first_body n = Some (j, body) -> body ∈ l -> lines_of ms `sublist_of` rows_of l) as Hbody.
  { intros l j body E Hl. rewrite E in Hms. etrans; [exact Hms|]. etrans; [|by apply rows_of_elem].
    rewrite preorder_eq. csimpl. by apply sublist_cons. }
  unfold first_child_of_kind. destruct (first_child n (lit "type_identifier")) as [[i c]|] eqn:En; cbn [fmap option_fmap option_map snd default from_option].
  - pose proof En as [Hc _]%first_child_spec. apply sublist_cons. unfold id.
    destruct (first_body n) as [[j body]|] eqn:Eb.
    + pose proof (Hn i c j body En Eb) as Hij. pose proof (first_body_spec n j body Eb) as Hj.
      rewrite <- (take_drop j (n_children n)), rows_of_app. apply (sublist_app [line_of c]).
      * apply singleton_sublist_l. unfold rows_of. apply list_elem_of_fmap. exists c. split; [done|].
        apply elem_of_concat. exists (preorder c). split; [|apply preorder_self]. apply list_elem_of_fmap. exists c. split; [done|].
        apply (list_elem_of_lookup_2 _ i). by rewrite lookup_take_lt.
      * eapply Hbody; [done|]. apply (list_elem_of_lookup_2 _ 0). rewrite lookup_drop, Nat.add_0_r. exact Hj.
    + subst ms. apply singleton_sublist_l. unfold rows_of. apply list_elem_of_fmap. exists c. split; [done|].
      apply elem_of_concat. exists (preorder c). split; [|apply preorder_self]. apply list_elem_of_fmap. exists c. split; [done|].
      by eapply list_elem_of_lookup_2.
  - apply sublist_skip. destruct (first_body n) as [[j body]|] eqn:Eb; [|subst ms; apply sublist_nil_l].
    eapply Hbody; [done|]. by eapply first_body_elem.
Qed.

Lemma declaration_in_order room : forall n, Forall named_first (preorder n) -> in_order (declaration source room) n.
Proof.
  induction room as [|room IH]; intros n Hn before found cut E; cbn [declaration] in E; apply declare_cases in E;
    (destruct found as [d|]; [|apply sublist_nil_l]).
  all: unfold lines_of; csimpl; rewrite flatten_eq, app_nil_r; csimpl; fold (lines_of (d_children d)).
  all: destruct E as [(ms & Em & -> & ->)|(-> & _ & m & Hm & ->)];
    [|apply singleton_sublist_l, list_elem_of_fmap; by exists m].
  all: rewrite preorder_eq in Hn; apply Forall_cons in Hn as [Hn Hsub]; apply members_in_order; [done|].
  all: destruct (first_body n) as [[j body]|] eqn:Eb; cbn in Em; [|by injection Em as <- <-].
  - injection Em as <- <-. apply sublist_nil_l.
  - eapply collect_in_order; [|exact Em]. apply Forall_forall. intros c Hc. apply IH. rewrite Forall_forall in Hsub.
    apply Forall_forall. intros m Hm. apply Hsub, elem_of_concat. exists (preorder body). split.
    + apply list_elem_of_fmap. exists body. split; [done|]. by eapply first_body_elem.
    + by eapply child_in_preorder.
Qed.
End order.

(** ** Lemmas: how deep a skeleton nests *)

Fixpoint height (d : Declaration) : nat := S (max_list (height <$> d_children d)).
Lemma height_eq d : height d = S (max_list (height <$> d_children d)).
Proof. by destruct d. Qed.
Lemma max_list_app a b : max_list (a ++ b) = max (max_list a) (max_list b).
Proof. induction a as [|x a IH]; [done|]. cbn. rewrite IH. lia. Qed.

Lemma max_height_one d : max_list (height <$> [d]) = height d.
Proof. change (max (height d) 0 = height d). lia. Qed.

Section depth.
Context `{Unicode} (source : str).

(** A walk allowed [room] levels below: it nests no deeper; if it cut, it nests exactly as deep as it may;
    if it did not cut, any more room finds the same. *)
Definition bounded (room : nat) (f : list Node -> Node -> option (option Declaration * bool)) : Prop :=
  forall before n found cut, f before n = Some (found, cut) ->
    max_list (height <$> option_list found) <= S room /\
    (cut = true -> max_list (height <$> option_list found) = S room).

Lemma collect_bounded room f : bounded room f ->
  forall l before ds cut, collect f before l = Some (ds, cut) ->
  max_list (height <$> ds) <= S room /\ (cut = true -> max_list (height <$> ds) = S room).
Proof.
  intros Hf l. induction l as [|n l IH]; intros before ds cut E; [injection E as <- <-; split; [cbn; lia|done]|].
  apply collect_cons in E as (found & c & more & c' & E1 & E2 & -> & ->). apply Hf in E1 as [Hle Hcut]. apply IH in E2 as [Hle' Hcut'].
  rewrite fmap_app, max_list_app. split; [lia|]. intros [->| ->]%orb_true_iff; [specialize (Hcut eq_refl)|specialize (Hcut' eq_refl)]; lia.
Qed.

Lemma declaration_bounded room : bounded room (declaration source room).
Proof.
  induction room as [|room IH]; intros before n found cut E; cbn [declaration] in E; apply declare_cases in E;
    (destruct found as [d|]; [|subst cut; split; [cbn; lia|done]]); change (option_list (Some d)) with [d];
    rewrite (max_height_one d), height_eq;
    (destruct E as [(ms & Em & -> & _)|(-> & -> & _)]; [|split; [cbn; lia|done]]);
    (destruct (first_body n) as [[j body]|]; cbn in Em; [|injection Em as <- <-; split; [cbn; lia|done]]).
  - injection Em as <- <-. cbn. by split.
  - destruct (collect_bounded room _ IH _ _ _ _ Em) as [Hle Hcut]. split; [lia|]. intros Hc. rewrite Hcut by done. done.
Qed.

(** More room changes nothing where nothing was cut. *)
Lemma collect_room f g l :
  Forall (fun n => forall before found, f before n = Some (found, false) -> g before n = Some (found, false)) l ->
  forall before ds, collect f before l = Some (ds, false) -> collect g before l = Some (ds, false).
Proof.
  induction 1 as [|n l Hfg _ IH]; intros before ds E; [done|].
  apply collect_cons in E as (found & c & more & c' & E1 & E2 & -> & Hc). symmetry in Hc. apply orb_false_iff in Hc as [-> ->].
  cbn [collect]. rewrite (Hfg _ _ E1). cbn [mbind option_bind]. by rewrite (IH _ _ E2).
Qed.

(** [declare] looks at nothing of the members but the answer. *)
Lemma declare_uncut members before n found :
  declare source members before n = Some (found, false) ->
  (exists ms, members = Some (ms, false)) \/ forall members', declare source members' before n = Some (found, false).
Proof.
  unfold declare. intros E. do 3 (case_bool_decide; [left; apply bind_Some in E as ([ms c] & Em & E); apply bind_Some in E as (d & _ & E);
    injection E as _ ->; by exists ms|]). right. by intros _.
Qed.

Definition anonymous_token (n : Node) : Prop := n_named n = false -> n_kind n ∉ DECLARATION_KINDS.
Lemma declare_token members before n : n_kind n ∉ DECLARATION_KINDS -> declare source members before n = Some (None, false).
Proof.
  intros Hk. unfold declare. repeat (rewrite bool_decide_eq_false_2; [|intros E; apply Hk; rewrite E; by apply (bool_decide_unpack _); vm_compute]).
  done.
Qed.
Lemma collect_tokens room l before :
  Forall anonymous_token l -> existsb n_named l = false -> collect (declaration source room) before l = Some ([], false).
Proof.
  intros Hl. revert before. induction Hl as [|n l Hn _ IH]; intros before E; [done|]. cbn in E. apply orb_false_iff in E as [En E].
  cbn [collect]. assert (declaration source room before n = Some (None, false)) as ->.
  { destruct room; cbn [declaration]; by apply declare_token, Hn. }
  cbn [mbind option_bind]. by rewrite IH.
Qed.

Lemma below_body n j body (P : Node -> Prop) : first_body n = Some (j, body) -> Forall P (preorder n) -> Forall (fun c => Forall P (preorder c)) (n_children body).
Proof.
  intros Hb Hn. rewrite Forall_forall in Hn. apply Forall_forall. intros c Hc. apply Forall_forall. intros m Hm. apply Hn.
  apply (child_in_preorder n body); [by eapply first_body_elem|]. by eapply child_in_preorder.
Qed.

Lemma declaration_room room : forall room' before n found, room <= room' -> Forall anonymous_token (preorder n) ->
  declaration source room before n = Some (found, false) -> declaration source room' before n = Some (found, false).
Proof.
  induction room as [|room IH]; intros room' before n found Hr Hn E; cbn [declaration] in E;
    (destruct (declare_uncut _ _ _ _ E) as [[ms Em]|Hany]; [|destruct room'; apply Hany]).
  - rewrite Em in E. destruct room' as [|room']; cbn [declaration]; [by rewrite Em|]. rewrite <- E. f_equal.
    destruct (first_body n) as [[j body]|] eqn:Eb; cbn in *; [|done]. injection Em as <- Hnone. apply collect_tokens; [|done].
    eapply Forall_impl; [by eapply below_body|]. intros c Hc. cbn in Hc. rewrite preorder_eq in Hc. by apply Forall_cons in Hc as [? _].
  - destruct room' as [|room']; [lia|]. rewrite Em in E. cbn [declaration]. rewrite <- E. f_equal.
    destruct (first_body n) as [[j body]|] eqn:Eb; cbn in *; [|done]. eapply collect_room; [|exact Em].
    eapply Forall_impl; [by eapply below_body|]. intros c Hc b f Ef. eapply IH; [lia|exact Hc|exact Ef].
Qed.
End depth.

(** ** Lemmas: the whole file *)

Section file.
Context `{Unicode} (source : str).

Definition is_header (n : Node) : bool := is_kind (lit "package_header") n || is_kind (lit "import_list") n.
Definition walk_child (room : nat) (before : list Node) (n : Node) : option (option Declaration * bool) :=
  if is_header n then Some (None, false) else declaration source room before n.

(** What reading the root's children adds to a skeleton. *)
Lemma read_file_collect room l : forall f before g, read_file source room f before l = Some g ->
  exists ds cut, collect (walk_child room) before l = Some (ds, cut) /\ fs_declarations g = fs_declarations f ++ ds /\
    fs_truncated g = fs_truncated f || cut /\ fs_path g = fs_path f /\ fs_partial g = fs_partial f.
Proof.
  induction l as [|n l IH]; intros f before g E; cbn [read_file] in E.
  { injection E as ->. exists [], false. by rewrite app_nil_r, orb_false_r. }
  apply bind_Some in E as (f' & Ef & E). apply IH in E as (ds & cut & Ec & Ed & Et & Ep & Er).
  assert (forall found c, walk_child room before n = Some (found, c) ->
    collect (walk_child room) before (n :: l) = Some (option_list found ++ ds, c || cut)) as Hstep.
  { intros found c Ew. cbn [collect]. rewrite Ew. cbn [mbind option_bind]. by rewrite Ec. }
  rewrite Ed, Et, Ep, Er. unfold walk_child at 1, is_header in Hstep. destruct (is_kind (lit "package_header") n); cbn [orb] in Hstep.
  { apply bind_Some in Ef as (p & _ & [= <-]). exists ds, cut. split_and!; try done. by apply (Hstep None false). }
  destruct (is_kind (lit "import_list") n).
  { apply bind_Some in Ef as (p & _ & [= <-]). exists ds, cut. split_and!; try done. by apply (Hstep None false). }
  apply bind_Some in Ef as ([found c] & Efound & [= <-]). apply Hstep in Efound.
  exists (option_list found ++ ds), (c || cut). cbn. by rewrite <- app_assoc, orb_assoc.
Qed.

Lemma read_file_room room room' l : room <= room' -> Forall (fun n => Forall anonymous_token (preorder n)) l ->
  forall f before g, fs_truncated g = false -> read_file source room f before l = Some g -> read_file source room' f before l = Some g.
Proof.
  intros Hr. induction 1 as [|n l Hn _ IH]; intros f before g Hg E; [done|]. cbn [read_file] in *.
  apply bind_Some in E as (f' & Ef & E). pose proof E as (ds & cut & _ & _ & Et & _)%read_file_collect.
  rewrite Hg in Et. symmetry in Et. apply orb_false_iff in Et as [Ht _]. apply IH in E; [|done].
  destruct (is_kind (lit "package_header") n); [by rewrite Ef|]. destruct (is_kind (lit "import_list") n); [by rewrite Ef|].
  apply bind_Some in Ef as ([found c] & Efound & [= <-]). cbn in Ht. apply orb_false_iff in Ht as [_ ->].
  by rewrite (declaration_room source room room' before n found Hr Hn Efound).
Qed.

Lemma extract_within_inr `{Grammar} room path f :
  extract_within room path source = Some (inr f) ->
  exists tree g, parse source = Some tree /\ read_file source room (file_new path) [] (n_children (t_root tree)) = Some g /\
    f = mkFile (fs_path g) (fs_package g) (fs_imports g) (fs_declarations g) (fs_truncated g) (t_has_error tree).
Proof.
  unfold extract_within. destruct (parse source) as [tree|]; [|done]. intros (g & Eg & E)%bind_Some.
  case_match; [done|]. injection E as <-. by exists tree, g.
Qed.

Lemma below_root `{Grammar} tree (P : Node -> Prop) : Forall P (preorder (t_root tree)) -> Forall (fun c => Forall P (preorder c)) (n_children (t_root tree)).
Proof.
  intros Hn. rewrite Forall_forall in Hn. apply Forall_forall. intros c Hc. apply Forall_forall. intros m Hm. apply Hn.
  by eapply child_in_preorder.
Qed.
End file.

(** ** Lemmas: parameters by position *)

Section parameters.
Context `{Unicode} (source : str).

(** One parameter as the grammar lays it out: modifiers before it, its default among what follows. *)
Record Slot := mkSlot { sl_modifiers : option Node; sl_parameter : Node; sl_rest : list Node }.
Definition slot_nodes (s : Slot) : list Node := option_list (sl_modifiers s) ++ sl_parameter s :: sl_rest s.
Definition slot_ok (s : Slot) : Prop :=
  (forall m, sl_modifiers s = Some m -> n_kind m = lit "parameter_modifiers") /\ n_kind (sl_parameter s) = lit "parameter" /\
  Forall (fun n => n_kind n <> lit "parameter_modifiers" /\ n_kind n <> lit "parameter") (sl_rest s).
Definition slot_parameter (s : Slot) : option Parameter_ :=
  vararg ← match sl_modifiers s with Some m => t ← text source m; Some (contains_str t (lit "vararg")) | None => Some false end;
  name ← text_or_empty source (first_child_of_kind (sl_parameter s) (lit "simple_identifier"));
  type_name ← parameter_type source (sl_parameter s);
  default ← signature_of_node source (head (sl_rest s));
  Some (mkParameter name type_name default None vararg).

Lemma loop_named l ps v :
  function_parameters_loop source l ps v = function_parameters_loop source (filter (fun n => n_named n = true) l) ps v.
Proof.
  revert ps v. induction l as [|n l IH]; intros ps v; [done|]. rewrite filter_cons. cbn [function_parameters_loop].
  destruct (n_named n) eqn:E; cbn [negb]; [|rewrite decide_False by done; apply IH].
  rewrite decide_True by done. cbn [function_parameters_loop]. rewrite E. cbn [negb].
  destruct (is_kind (lit "parameter_modifiers") n); [by apply option_bind_ext_fun|].
  destruct (is_kind (lit "parameter") n); [|by apply option_bind_ext_fun].
  apply option_bind_ext_fun. intros name. by apply option_bind_ext_fun.
Qed.

Lemma default_last_snoc ps p n :
  default_last source (ps ++ [p]) n =
  match p_default p with None => t ← signature_text source n; Some (ps ++ [with_default p t]) | Some _ => Some (ps ++ [p]) end.
Proof.
  unfold default_last. rewrite last_snoc. destruct (p_default p); [done|]. rewrite length_app, Nat.add_sub, take_app_length.
  by apply option_bind_ext_fun.
Qed.

Lemma not_kind n kind : n_kind n <> kind -> is_kind kind n = false.
Proof. intros Hk. by apply bool_decide_eq_false. Qed.
Lemma yes_kind n kind : n_kind n = kind -> is_kind kind n = true.
Proof. intros Hk. by apply bool_decide_eq_true. Qed.

(** What follows a parameter that has its default changes nothing. *)
Lemma loop_rest rest k ps p v :
  Forall (fun n => n_kind n <> lit "parameter_modifiers" /\ n_kind n <> lit "parameter") rest ->
  Forall (fun n => n_named n = true) rest -> is_Some (p_default p) ->
  function_parameters_loop source (rest ++ k) (ps ++ [p]) v = function_parameters_loop source k (ps ++ [p]) v.
Proof.
  intros Hk Hn [d Hd]. induction Hk as [|n rest [H1 H2] _ IH]; [done|]. apply Forall_cons in Hn as [Hn Hrest].
  cbn [app function_parameters_loop]. rewrite Hn, !not_kind by done. cbn [negb]. rewrite default_last_snoc, Hd.
  cbn [mbind option_bind]. by apply IH.
Qed.

Lemma loop_slot s k ps :
  slot_ok s -> Forall (fun n => n_named n = true) (slot_nodes s) ->
  function_parameters_loop source (slot_nodes s ++ k) ps false =
  (p ← slot_parameter s; function_parameters_loop source k (ps ++ [p]) false).
Proof.
  intros (Hm & Hp & Hr) Hn. unfold slot_nodes, slot_parameter in *.
  assert (forall v, Forall (fun n => n_named n = true) (sl_parameter s :: sl_rest s) ->
    function_parameters_loop source ((sl_parameter s :: sl_rest s) ++ k) ps v =
    (p ← (name ← text_or_empty source (first_child_of_kind (sl_parameter s) (lit "simple_identifier"));
          type_name ← parameter_type source (sl_parameter s);
          default ← signature_of_node source (head (sl_rest s));
          Some (mkParameter name type_name default None v)); function_parameters_loop source k (ps ++ [p]) false)) as Hparam.
  { intros v [Hnp Hnr]%Forall_cons. cbn [app function_parameters_loop]. rewrite Hnp. cbn [negb].
    rewrite (not_kind _ (lit "parameter_modifiers")), (yes_kind _ (lit "parameter")) by (rewrite Hp; done).
    destruct (text_or_empty source _) as [name|]; [|done]. cbn [mbind option_bind].
    destruct (parameter_type source _) as [ty|]; [|done]. cbn [mbind option_bind].
    destruct (sl_rest s) as [|n rest]; cbn [head signature_of_node]; [done|].
    apply Forall_cons in Hr as [[H1 H2] Hr]. apply Forall_cons in Hnr as [Hnn Hnr].
    cbn [app function_parameters_loop]. rewrite Hnn, !not_kind by done. cbn [negb]. rewrite default_last_snoc. cbn [p_default].
    destruct (signature_text source n) as [t|]; [|done]. cbn. by apply loop_rest. }
  destruct (sl_modifiers s) as [m|] eqn:Em; cbn [option_list app] in *; [|by apply Hparam].
  apply Forall_cons in Hn as [Hnm Hn]. match goal with |- function_parameters_loop _ ?l _ _ = _ => change l with (m :: (sl_parameter s :: sl_rest s) ++ k) end.
  cbn [function_parameters_loop]. rewrite Hnm, (yes_kind m) by auto. cbn [negb].
  destruct (text source m) as [t|]; [|done]. cbn [mbind option_bind]. by apply Hparam.
Qed.

Lemma loop_slots slots ps :
  Forall slot_ok slots -> Forall (fun n => n_named n = true) (concat (slot_nodes <$> slots)) ->
  function_parameters_loop source (concat (slot_nodes <$> slots)) ps false = (qs ← mapM slot_parameter slots; Some (ps ++ qs)).
Proof.
  intros Hs. revert ps. induction Hs as [|s slots Hs _ IH]; intros ps Hn; csimpl.
  { by rewrite app_nil_r. }
  csimpl in Hn. apply Forall_app in Hn as [Hn Hns]. rewrite loop_slot by done.
  change (mapM slot_parameter (s :: slots)) with (p ← slot_parameter s; qs ← mapM slot_parameter slots; Some (p :: qs)).
  destruct (slot_parameter s) as [p|]; [|done]. cbn [mbind option_bind]. rewrite IH by done.
  destruct (mapM slot_parameter slots) as [qs|]; [|done]. cbn [mbind option_bind]. by rewrite <- app_assoc.
Qed.
End parameters.

(** ** Properties *)

Section properties.
Context `{Unicode} `{GrammarLaws}.

Lemma extract_some path source : is_Some (extract path source).
Proof.
  unfold extract, extract_within. destruct (parse source) as [tree|] eqn:Et; [|by eexists].
  assert (Forall (readable source) (n_children (t_root tree))) as Hr by (apply readable_children, (parse_ranges _ _ Et)).
  destruct (read_file_some source MAX_NESTING_DEPTH (file_new path) [] (n_children (t_root tree))) as [g Eg]; [done|done|].
  rewrite Eg. by eexists.
Qed.

Lemma extract_path path source f : extract path source = Some (inr f) -> fs_path f = path.
Proof.
  intros (tree & g & Et & Eg & ->)%extract_within_inr. by apply read_file_collect in Eg as (_ & _ & _ & _ & _ & Ep & _).
Qed.

Lemma locate_local_some source name line : is_Some (locate_local source name line).
Proof.
  unfold locate_local. destruct (parse source) as [tree|] eqn:Et; [|by eexists].
  assert (readable source (t_root tree)) as Hr by apply (parse_ranges _ _ Et).
  apply bind_some.
  - unfold package_under. destruct (find _ _) as [header|] eqn:Eh; [|by eexists]. apply package_some. by eapply readable_find.
  - intros package _. apply bind_some; [by apply find_local_some|]. intros [found [[d ancestors]|]] _; by eexists.
Qed.

(** Extraction never panics. Whatever the source, [extract] answers: a skeleton of the path it was
    given, marked partial exactly when the tree has an error and never empty if it is; a failure of the
    parser; or, only for a tree with an error, nothing recovered. No slice of the source is ever out of
    range or off a character boundary. *)
Theorem extract_total (path source : str) :
  exists r, extract path source = Some r /\
    match r, parse source with
    | inl ParseFailed, None => True
    | inl NothingRecovered, Some tree => t_has_error tree = true
    | inr f, Some tree => fs_path f = path /\ fs_partial f = t_has_error tree /\ (fs_partial f = true -> file_is_empty f = false)
    | _, _ => False
    end.
Proof.
  destruct (extract_some path source) as [r E]. unfold extract, extract_within in *. destruct (parse source) as [tree|] eqn:Et; [|eexists; split; [reflexivity|exact I]].
  destruct (read_file source MAX_NESTING_DEPTH (file_new path) [] (n_children (t_root tree))) as [g|] eqn:Eg; [clear E|discriminate].
  cbn [mbind option_bind fs_partial]. eexists. split; [reflexivity|]. pose proof Eg as (_ & _ & _ & _ & _ & Ep & _)%read_file_collect.
  match goal with |- context [if ?b then _ else _] => destruct b eqn:E end; [by apply andb_true_iff in E as [? _]|].
  cbn [fs_path fs_partial]. split; [exact Ep|]. split; [done|]. intros Hp. rewrite Hp in E |- *. exact E.
Qed.

(** C23: Extraction keeps source order: the declarations of a skeleton, listed outermost first, stand on
    ascending lines counted from one. This is what attributing a line to its enclosing declaration
    relies on. *)
Theorem extract_in_source_order (path source : str) (f : FileSkeleton) :
  extract path source = Some (inr f) -> in_source_order f.
Proof.
  intros (tree & g & Et & Eg & ->)%extract_within_inr. apply read_file_collect in Eg as (ds & cut & Ec & Ed & _). cbn in Ed.
  unfold in_source_order, ordered. cbn [fs_declarations]. rewrite Ed.
  assert (lines_of ds `sublist_of` (line_of <$> preorder (t_root tree))) as Hsub.
  { rewrite preorder_eq. csimpl. apply sublist_cons. eapply collect_in_order; [|exact Ec].
    eapply Forall_impl; [apply below_root, (parse_named_first _ _ Et)|]. intros n Hn before found c. unfold walk_child.
    destruct (is_header n); [intros [= <- <-]; apply sublist_nil_l|]. by apply declaration_in_order. }
  destruct (parse_rows _ _ Et) as [Hsort Hsmall]. split.
  - assert (StronglySorted N.le (line_of <$> preorder (t_root tree))) as Hl.
    { clear Hsub Ec Ed. revert Hsmall. induction Hsort as [|n ns Hns IH Hn]; intros Hsmall; csimpl; [constructor|].
      apply Forall_cons in Hsmall as [Hsn Hsmall]. constructor; [by apply IH|]. apply Forall_fmap. rewrite Forall_forall in Hn, Hsmall |- *.
      intros m Hm. unfold line_of. cbn. rewrite !N.mod_small by auto. specialize (Hn m Hm). cbn in Hn. lia. }
    apply (sublist_strongly_sorted N.le) in Hsub; [|done]. unfold lines_of in Hsub. clear -Hsub.
    induction (concat (flatten <$> ds)) as [|d l IH]; [constructor|]. cbn in Hsub. apply StronglySorted_inv in Hsub as [Hs Hd].
    constructor; [by apply IH|]. exact (proj1 (Forall_fmap _ _ _) Hd).
  - apply Forall_forall. intros d Hd. assert (d_line d ∈ lines_of ds) as Hin by (by apply list_elem_of_fmap_2).
    eapply elem_of_sublist in Hin; [|exact Hsub]. apply list_elem_of_fmap in Hin as (n & -> & _). unfold line_of. apply N.le_add_l.
Qed.

(** The depth bound is exact and honest: a skeleton nests at most [MAX_NESTING_DEPTH] levels below its
    top-level declarations; it is marked truncated only when some declaration nests exactly that deep;
    and when it is not marked, allowing any more nesting gives the same skeleton, so nothing was lost. *)
Theorem extract_depth_bounded (path source : str) (f : FileSkeleton) :
  extract path source = Some (inr f) ->
  max_list (height <$> fs_declarations f) <= S MAX_NESTING_DEPTH /\
  (fs_truncated f = true -> max_list (height <$> fs_declarations f) = S MAX_NESTING_DEPTH) /\
  (fs_truncated f = false -> forall room, MAX_NESTING_DEPTH <= room -> extract_within room path source = Some (inr f)).
Proof.
  intros E. pose proof E as (tree & g & Et & Eg & Ef)%extract_within_inr.
  pose proof Eg as (ds & cut & Ec & Ed & Etr & _)%read_file_collect. cbn in Ed, Etr.
  assert (bounded MAX_NESTING_DEPTH (walk_child source MAX_NESTING_DEPTH)) as Hb.
  { intros before n found c. unfold walk_child. destruct (is_header n); [intros [= <- <-]; split; [cbn; lia|done]|].
    apply declaration_bounded. }
  destruct (collect_bounded _ _ Hb _ _ _ _ Ec) as [Hle Hcut]. subst f. cbn [fs_declarations fs_truncated].
  split; [by rewrite Ed|]. split; [by rewrite Ed, Etr|]. intros Hcf room Hroom. unfold extract in E. rewrite <- E. unfold extract_within. rewrite Et, Eg.
  rewrite (read_file_room source MAX_NESTING_DEPTH room) with (g := g); [done|done| |done|done].
  apply below_root, (parse_anonymous _ _ Et).
Qed.

(** Function parameters are paired by position, as the grammar lays them out: a [vararg] before a
    parameter marks that one and no other, the first value after a parameter is its default and not a
    later one's, tokens between them are ignored, and every parameter comes out, in order. *)
Theorem function_parameters_positional (source : str) (n : Node) (slots : list Slot) :
  Forall slot_ok slots -> filter (fun c => n_named c = true) (n_children n) = concat (slot_nodes <$> slots) ->
  function_parameters source n = mapM (slot_parameter source) slots.
Proof.
  intros Hs Hn. unfold function_parameters. rewrite loop_named, Hn, loop_slots; [by destruct (mapM _ slots)|done|].
  rewrite <- Hn. apply Forall_forall. by intros c [? _]%list_elem_of_filter.
Qed.
End properties.

(** ** A concrete grammar *)

Definition demo_source : str :=
  lit "class Cart {" ++ [10%N] ++ lit "    fun total(): Int = 0" ++ [10%N] ++ lit "}" ++ [10%N].
Definition token (kind : str) (start stop row : N) : Node := mkNode kind false start stop row [].
Definition leaf (kind : str) (start stop row : N) : Node := mkNode kind true start stop row [].
Definition demo_tree : Tree :=
  mkTree (mkNode (lit "source_file") true 0 40 0
    [mkNode (lit "class_declaration") true 0 39 0
       [token (lit "class") 0 5 0; leaf (lit "type_identifier") 6 10 0;
        mkNode (lit "class_body") true 11 39 0
          [token (lit "{") 11 12 0;
           mkNode (lit "function_declaration") true 17 37 1
             [token (lit "fun") 17 20 1; leaf (lit "simple_identifier") 21 26 1;
              mkNode (lit "function_value_parameters") true 26 28 1 [token (lit "(") 26 27 1; token (lit ")") 27 28 1];
              token (lit ":") 28 29 1; leaf (lit "user_type") 30 33 1; leaf (lit "function_body") 34 37 1];
           token (lit "}") 38 39 2]]])%N false.
(** A parser of one file. *)
#[export] Instance demo_grammar : Grammar :=
  {| parse := fun source => if bool_decide (source = demo_source) then Some demo_tree else None;
     descendant_for_point := fun _ _ _ => None |}.

Lemma demo_parse source tree : parse source = Some tree -> source = demo_source /\ tree = demo_tree.
Proof. cbn. case_bool_decide; [|done]. by intros [= <-]. Qed.
Lemma demo_named_first : Forall named_first (preorder (t_root demo_tree)).
Proof.
  let l := eval vm_compute in (preorder (t_root demo_tree)) in change (preorder (t_root demo_tree)) with l.
  repeat apply Forall_cons_2; try constructor; intros i name j body H1 H2; vm_compute in H1; vm_compute in H2; try discriminate.
  injection H1 as <- <-. injection H2 as <- <-. lia.
Qed.
#[export] Instance demo_laws : GrammarLaws.
Proof.
  split; intros source tree [-> ->]%demo_parse; [| split | |exact demo_named_first];
    try (apply (bool_decide_unpack _); vm_compute; exact I).
Qed.

Example extract_example :
  (fun r => match r with inr f => all_declarations f | inl _ => [] end) <$> @extract latin1_unicode _ (lit "Cart.kt") demo_source =
  Some [mkDecl Class_ (lit "Cart") None 1 Public [] [] None [] None None false [] None None
          [returning (declaration_new Function_ (lit "total") 2) (lit "Int")];
        returning (declaration_new Function_ (lit "total") 2) (lit "Int")].
Proof. vm_compute. reflexivity. Qed.

(** ** Witnesses *)

Lemma extract_total_witness : exists f, @extract latin1_unicode _ (lit "Cart.kt") demo_source = Some (inr f) /\ fs_path f = lit "Cart.kt".
Proof.
  destruct (@extract_total latin1_unicode _ _ (lit "Cart.kt") demo_source) as (r & E & Hr).
  destruct r as [[]|f]; cbn in Hr; rewrite bool_decide_true in Hr by done; try done. exists f. split; [exact E|apply Hr].
Defined.
Lemma extract_in_source_order_witness :
  exists f, @extract latin1_unicode _ (lit "Cart.kt") demo_source = Some (inr f) /\ in_source_order f.
Proof.
  eexists. assert (@extract latin1_unicode _ (lit "Cart.kt") demo_source = Some (inr _)) as E by (vm_compute; reflexivity).
  split; [exact E|]. exact (extract_in_source_order _ _ _ E).
Defined.
Lemma extract_depth_bounded_witness :
  exists f, @extract latin1_unicode _ (lit "Cart.kt") demo_source = Some (inr f) /\ max_list (height <$> fs_declarations f) <= 65.
Proof.
  eexists. assert (@extract latin1_unicode _ (lit "Cart.kt") demo_source = Some (inr _)) as E by (vm_compute; reflexivity).
  split; [exact E|]. exact (proj1 (extract_depth_bounded _ _ _ E)).
Defined.

(** [fun f(vararg xs: Int = 1)], laid out by the grammar. *)
Definition vararg_source : str := lit "(vararg xs: Int = 1)".
Definition vararg_slot : Slot :=
  mkSlot (Some (leaf (lit "parameter_modifiers") 1 7 0))
    (mkNode (lit "parameter") true 8 15 0 [leaf (lit "simple_identifier") 8 10 0; leaf (lit "user_type") 12 15 0])
    [leaf (lit "integer_literal") 18 19 0].
Definition vararg_node : Node :=
  mkNode (lit "function_value_parameters") true 0 20 0
    ([token (lit "(") 0 1 0] ++ slot_nodes vararg_slot ++ [token (lit ")") 19 20 0]).
Lemma function_parameters_positional_witness :
  @function_parameters latin1_unicode vararg_source vararg_node
    = Some [mkParameter (lit "xs") (lit "Int") (Some (lit "1")) None true].
Proof.
  rewrite (function_parameters_positional vararg_source vararg_node [vararg_slot]).
  - vm_compute. reflexivity.
  - constructor; [|constructor]. split; [by intros m [= <-]|split; [done|]]. repeat constructor; discriminate.
  - reflexivity.
Defined.
