(* ===== verification/Classify.v ===== *)
(** * Classify: what a site of a name falls in

    Models [crates/ktsense-syntax/src/classify.rs], the kind of each reference site from the syntax
    node under it, and [annotations.rs], the declarations an annotation is written on. A node is
    reached by its path of child indices from the root, which also gives its ancestors. *)
From S2P Require Import Prelude Collections Text Skeleton References Sites Cst Extract.

Set Default Proof Using "Type*".

Definition STRING_KINDS : list str :=
  [lit "string_literal"; lit "line_string_literal"; lit "multi_line_string_literal"; lit "character_literal"].
Definition INTERPOLATION_KINDS : list str := [lit "interpolated_expression"; lit "interpolated_identifier"].

(** [byte_column_of_utf16]. *)
Fixpoint byte_column_from (byte consumed : N) (line : str) (units : N) : N :=
  match line with
  | [] => byte
  | character :: rest =>
      if (units <? consumed + len_utf16 character)%N then byte
      else byte_column_from (byte + len_utf8 character) (consumed + len_utf16 character) rest units
  end.
Definition byte_column_of_utf16 (line : str) (units : N) : N := byte_column_from 0 0 line units.

(** A node and its ancestors, innermost first, each with its index among its siblings. *)
Fixpoint lineage (above : list (nat * Node)) (index : nat) (n : Node) (path : list nat) : list (nat * Node) :=
  match path with
  | [] => (index, n) :: above
  | i :: path' =>
      match n_children n !! i with
      | Some child => lineage ((index, n) :: above) i child path'
      | None => (index, n) :: above
      end
  end.

Section classifier.
Context `{Unicode} `{Grammar} (source : str).

(** The loop over the ancestors; [Some None] is undecided. *)
Fixpoint decide_by_ancestors (chain : list (nat * Node)) : option (option SiteKind) :=
  match chain with
  | [] => Some None
  | (_, current) :: above =>
      if is_kind (lit "line_comment") current then Some (Some Comment)
      else if is_kind (lit "multiline_comment") current then
        t ← text source current; Some (Some (if starts_with t (lit "/**") then Kdoc else Comment))
      else if kind_in INTERPOLATION_KINDS current then Some (Some Code)
      else if kind_in STRING_KINDS current then Some (Some String_)
      else decide_by_ancestors above
  end.

(** [names_with]: [name.id() == node.id()] for a child and its parent's first child of a kind. *)
Definition names_with (parent : Node) (name_kind : str) (index : nat) : bool :=
  bool_decide (fst <$> first_child parent name_kind = Some index).
Definition is_declaration_name (chain : list (nat * Node)) : bool :=
  match chain with
  | (index, node) :: (_, parent) :: above =>
      kind_in [lit "simple_identifier"; lit "type_identifier"] node
      && (if kind_in [lit "class_declaration"; lit "object_declaration"; lit "companion_object"; lit "type_alias"] parent then
            names_with parent (lit "type_identifier") index
          else if kind_in [lit "function_declaration"; lit "enum_entry"] parent then
            names_with parent (lit "simple_identifier") index
          else if is_kind (lit "variable_declaration") parent then
            names_with parent (lit "simple_identifier") index
            && match above with (_, grandparent) :: _ => is_kind (lit "property_declaration") grandparent | [] => false end
          else false)
  | _ => false
  end.

Definition classify_site (root : Node) (line column : N) : option SiteKind :=
  let row := (line - 1)%N in
  match lines source !! N.to_nat row with
  | None => Some Code
  | Some line_text =>
      match descendant_for_point root row (byte_column_of_utf16 line_text (column - 1)) with
      | None => Some Code
      | Some path =>
          let chain := lineage [] 0 root path in
          decided ← decide_by_ancestors chain;
          Some (match decided with
                | Some kind => kind
                | None => if is_declaration_name chain then DeclarationName else Code
                end)
      end
  end.
Definition classify_reference_sites (sites : list (N * N)) : option (list SiteKind) :=
  match parse source with
  | None => Some (replicate (length sites) Code)
  | Some tree => mapM (fun '(line, column) => classify_site (t_root tree) line column) sites
  end.
End classifier.

(** ** [annotations.rs] *)

Section annotations.
Context `{Unicode}.

Definition is_identifier_char (c : char) : bool := is_alphanumeric c || (c =? ch "_")%N.

(** The text before the first of [(], [<], a space or a tab. *)
Definition is_head_end (c : char) : bool := bool_decide (c ∈ [ch "("; ch "<"; ch " "; 9%N]).
Definition annotation_simple_name (written : str) : option str :=
  rest ← strip_prefix (trim written) (lit "@");
  let head_ := default rest (head (split_by is_head_end rest)) in
  let after_target := last_piece (ch ":") head_ in
  let simple := trim (last_piece (ch ".") after_target) in
  if negb (bool_decide (simple = [])) && forallb is_identifier_char simple then Some simple else None.

Definition fully_qualified (package : option str) (ancestors : list str) (name : str) : str :=
  join (lit ".") (filter (fun part => part <> []) (option_list package ++ ancestors ++ [name])).

(** [walk]: the declarations found below siblings, outermost first. *)
Definition is_annotated (annotation : str) (d : Declaration) : bool :=
  existsb (fun written => bool_decide (annotation_simple_name written = Some annotation)) (d_annotations d).
Fixpoint walk_annotated (path : str) (package : option str) (annotation : str) (ancestors : list str) (d : Declaration)
    : list AnnotatedDeclaration :=
  (if is_annotated annotation d
   then [mkAnnotated path (d_line d) (fully_qualified package ancestors (d_name d)) (d_kind d)] else [])
  ++ concat (walk_annotated path package annotation (if bool_decide (d_name d = []) then ancestors else ancestors ++ [d_name d])
             <$> d_children d).
Definition annotated_declarations `{Grammar} (path source annotation : str) : option (list AnnotatedDeclaration) :=
  r ← extract path source;
  Some (match r with
        | inl _ => []
        | inr file => concat (walk_annotated path (fs_package file) annotation [] <$> fs_declarations file)
        end).
End annotations.

(** ** Lemmas: lineages *)

Lemma lineage_below root path : forall above index n,
  Forall (fun e => e.2 ∈ preorder root) above -> (forall m, m ∈ preorder n -> m ∈ preorder root) ->
  Forall (fun e => e.2 ∈ preorder root) (lineage above index n path).
Proof.
  induction path as [|i path IH]; intros above index n Ha Hn; cbn [lineage].
  - constructor; [apply Hn, preorder_self|done].
  - assert (Forall (fun e : nat * Node => e.2 ∈ preorder root) ((index, n) :: above)) as Ha' by (constructor; [apply Hn, preorder_self|done]).
    destruct (n_children n !! i) as [c|] eqn:Ei; [|done]. apply IH; [done|]. intros m Hm. apply Hn.
    apply (child_in_preorder n c); [by eapply list_elem_of_lookup_2|done].
Qed.

(** ** What a site is *)

(** A node at which the kind of what lies below it is settled. *)
Definition settles (n : Node) : Prop :=
  n_kind n = lit "line_comment" \/ n_kind n = lit "multiline_comment" \/ n_kind n ∈ INTERPOLATION_KINDS \/ n_kind n ∈ STRING_KINDS.
Inductive settled (source : str) (n : Node) : SiteKind -> Prop :=
  | settled_line_comment : n_kind n = lit "line_comment" -> settled source n Comment
  | settled_documentation rest : n_kind n = lit "multiline_comment" -> text source n = Some (lit "/**" ++ rest) -> settled source n Kdoc
  | settled_comment t : n_kind n = lit "multiline_comment" -> text source n = Some t -> ~ lit "/**" `prefix_of` t -> settled source n Comment
  | settled_interpolation : n_kind n ∈ INTERPOLATION_KINDS -> settled source n Code
  | settled_string : n_kind n ∈ STRING_KINDS -> settled source n String_.

(** The node at the head of a chain is the name of a declaration: the first [type_identifier] of a class, an
    object or a type alias, or the first [simple_identifier] of a function, an enum entry or a property. *)
Definition first_of_kind (parent : Node) (index : nat) (kind : str) : Prop :=
  (exists n, n_children parent !! index = Some n /\ n_kind n = kind) /\
  forall j n, j < index -> n_children parent !! j = Some n -> n_kind n <> kind.
Definition names_declaration (chain : list (nat * Node)) : Prop :=
  exists index node at_ parent above, chain = (index, node) :: (at_, parent) :: above /\
    ((n_kind parent ∈ [lit "class_declaration"; lit "object_declaration"; lit "companion_object"; lit "type_alias"] /\
        first_of_kind parent index (lit "type_identifier")) \/
     (n_kind parent ∈ [lit "function_declaration"; lit "enum_entry"] /\ first_of_kind parent index (lit "simple_identifier")) \/
     (n_kind parent = lit "variable_declaration" /\ first_of_kind parent index (lit "simple_identifier") /\
        exists e, head above = Some e /\ n_kind e.2 = lit "property_declaration")).

(** The kind of a node, from the chain of its ancestors, innermost first. *)
Definition kind_in_chain (source : str) (chain : list (nat * Node)) (kind : SiteKind) : Prop :=
  (exists inner e outer, chain = inner ++ e :: outer /\ Forall (fun e' => ~ settles e'.2) inner /\ settled source e.2 kind) \/
  (Forall (fun e => ~ settles e.2) chain /\
    (names_declaration chain /\ kind = DeclarationName \/ ~ names_declaration chain /\ kind = Code)).

(** The byte column of a UTF-16 offset: that of the character holding it, or the line's end. *)
Definition column_of (line : str) (units column : N) : Prop :=
  (exists before c after, line = before ++ c :: after /\ column = utf8_len before /\
    (utf16_len before <= units < utf16_len before + len_utf16 c)%N) \/
  ((utf16_len line <= units)%N /\ column = utf8_len line).

(** ** Lemmas: the classifier *)

Lemma byte_column_spec line units : column_of line units (byte_column_of_utf16 line units).
Proof.
  unfold byte_column_of_utf16. assert (forall pre rest, (utf16_len pre <= units)%N -> line = pre ++ rest ->
    column_of line units (byte_column_from (utf8_len pre) (utf16_len pre) rest units)) as Hall.
  { intros pre rest. revert pre. induction rest as [|c rest IH]; intros pre Hle E; cbn [byte_column_from].
    - right. rewrite app_nil_r in E. by subst.
    - destruct (N.ltb_spec units (utf16_len pre + len_utf16 c)).
      + left. exists pre, c, rest. by split_and!.
      + assert (utf8_len pre + len_utf8 c = utf8_len (pre ++ [c]))%N as -> by (rewrite utf8_len_app; unfold utf8_len; cbn; lia).
        assert (utf16_len pre + len_utf16 c = utf16_len (pre ++ [c]))%N as Eu by (rewrite utf16_len_app; unfold utf16_len; cbn; lia).
        rewrite Eu. apply IH; [lia|]. by rewrite <- app_assoc. }
  apply (Hall [] line); [unfold utf16_len; cbn; lia|done].
Qed.

(** A chain: each node stands at its index among the children of the next. *)
Fixpoint linked (chain : list (nat * Node)) : Prop :=
  match chain with
  | (index, node) :: ((_, parent) :: _) as above => n_children parent !! index = Some node /\ linked above
  | _ => True
  end.
Lemma lineage_linked path : forall above index n, linked ((index, n) :: above) -> linked (lineage above index n path).
Proof.
  induction path as [|i path IH]; intros above index n Hl; cbn [lineage]; [done|].
  destruct (n_children n !! i) as [c|] eqn:Ei; [|done]. apply IH. by split.
Qed.

Lemma names_with_spec parent kind index : names_with parent kind index = true <-> first_of_kind parent index kind.
Proof.
  unfold names_with, first_child, first_of_kind. rewrite bool_decide_eq_true. split.
  - intros ([i c] & E & ->)%fmap_Some. apply list_find_Some in E as (Hi & Hk & Hb). split; [by exists c|]. intros j n Hj Hn. by apply (Hb j n).
  - intros [(c & Hc & Hk) Hb]. assert (list_find (fun c => n_kind c = kind) (n_children parent) = Some (index, c)) as ->; [|done].
    apply list_find_Some. split_and!; [done|done|]. intros j n Hn Hj. by apply (Hb j n).
Qed.
Lemma is_declaration_name_spec chain : linked chain -> is_declaration_name chain = true <-> names_declaration chain.
Proof.
  unfold is_declaration_name, names_declaration. destruct chain as [|[index node] [|[at_ parent] above]]; [split; [done|by intros (? & ? & ? & ? & ? & ? & _)]..|].
  intros [Hnode _]. assert (forall kind, first_of_kind parent index kind -> n_kind node = kind) as Hkind.
  { intros kind [(n & Hn & <-) _]. by simplify_eq. }
  rewrite andb_true_iff. unfold kind_in, is_kind. rewrite bool_decide_eq_true. split.
  - intros [_ Hd]. exists index, node, at_, parent, above. split; [done|]. revert Hd.
    case_bool_decide; [left; split; [done|by apply names_with_spec]|]. case_bool_decide; [right; left; split; [done|by apply names_with_spec]|].
    case_bool_decide; [|done]. rewrite andb_true_iff, names_with_spec. intros [Hn Ha]. right; right. split_and!; [done|done|].
    destruct above as [|e above]; [done|]. exists e. split; [done|]. destruct e. by apply bool_decide_eq_true in Ha.
  - intros (? & ? & ? & ? & ? & [= <- <- <- <- <-] & Hd). split.
    + destruct Hd as [[_ Hf]|[[_ Hf]|(_ & Hf & _)]]; rewrite (Hkind _ Hf); [right; left|left..].
    + destruct Hd as [[Hp Hf]|[[Hp Hf]|(Hp & Hf & e & He & Hk)]]; apply names_with_spec in Hf.
      * by rewrite bool_decide_eq_true_2.
      * rewrite bool_decide_eq_false_2, bool_decide_eq_true_2; [done|done|]. clear -Hp. rewrite !elem_of_cons, elem_of_nil in Hp. intros Hn. rewrite !elem_of_cons, elem_of_nil in Hn. destruct_or!; try done; rewrite Hp in Hn; vm_compute in Hn; discriminate.
      * rewrite bool_decide_eq_false_2, bool_decide_eq_false_2, bool_decide_eq_true_2, Hf; [|done|rewrite Hp; apply (bool_decide_unpack _); vm_compute; exact I..].
        destruct above as [|[? ?] above]; [done|]. injection He as <-. by apply bool_decide_eq_true_2.
Qed.

Section ancestors.
Context `{Unicode} (source : str).

Lemma decide_spec chain : Forall (fun e => is_Some (text source e.2)) chain ->
  exists decided, decide_by_ancestors source chain = Some decided /\
    match decided with
    | Some kind => exists inner e outer, chain = inner ++ e :: outer /\ Forall (fun e' => ~ settles e'.2) inner /\ settled source e.2 kind
    | None => Forall (fun e => ~ settles e.2) chain
    end.
Proof.
  induction 1 as [|[i n] chain [t Ht] _ IH]; [by exists None|]. cbn [decide_by_ancestors].
  assert (forall kind, settled source n kind -> exists inner e outer, (i, n) :: chain = inner ++ e :: outer /\
    Forall (fun e' => ~ settles e'.2) inner /\ settled source e.2 kind) as Hhere by (intros kind Hk; by exists [], (i, n), chain).
  unfold is_kind, kind_in. case_bool_decide; [eexists; split; [done|]; by apply Hhere, settled_line_comment|].
  case_bool_decide.
  { cbn [snd] in Ht. rewrite Ht. eexists; split; [done|]. apply Hhere. destruct (starts_with t (lit "/**")) eqn:E.
    - apply starts_with_spec in E as [rest ->]. by eapply settled_documentation.
    - eapply settled_comment; [done|done|]. intros Hp. by rewrite (proj2 (starts_with_spec t (lit "/**")) Hp) in E. }
  case_bool_decide; [eexists; split; [done|]; by apply Hhere, settled_interpolation|].
  case_bool_decide; [eexists; split; [done|]; by apply Hhere, settled_string|].
  assert (~ settles n) as Hn by (intros [?|[?|[?|?]]]; done).
  destruct IH as (decided & E & Hd). exists decided. split; [done|]. destruct decided as [kind|]; [|by constructor].
  destruct Hd as (inner & e & outer & -> & Hi & Hk). exists ((i, n) :: inner), e, outer. split_and!; [done|by constructor|done].
Qed.
End ancestors.

(** ** Lemmas: annotation names *)

Section names.
Context `{Unicode}.

Lemma split_by_free p (s : str) : Forall (fun c => p c = false) s -> forall r, split_by p (s ++ r) =
  match split_by p r with piece :: rest => (s ++ piece) :: rest | [] => [s] end.
Proof.
  induction 1 as [|c s Hc _ IH]; intros r; cbn [app split_by].
  { assert (split_by p r <> []). { destruct r as [|d r]; cbn; [done|]. destruct (p d); [done|]. by destruct (split_by p r). }
    by destruct (split_by p r). }
  rewrite Hc, IH. by destruct (split_by p r).
Qed.
Lemma head_split p (s : str) r : Forall (fun c => p c = false) s -> (r = [] \/ exists c r', r = c :: r' /\ p c = true) ->
  head (split_by p (s ++ r)) = Some s.
Proof.
  intros Hs Hr. rewrite split_by_free by done. destruct Hr as [->|(c & r' & -> & Hc)]; cbn; [by rewrite app_nil_r|].
  rewrite Hc. cbn. by rewrite app_nil_r.
Qed.
Lemma last_piece_free c (s : str) : c ∉ s -> last_piece c s = s.
Proof. intros Hs. unfold last_piece. by rewrite split_char_free. Qed.
Lemma last_piece_app c (a s : str) : c ∉ s -> last_piece c (a ++ c :: s) = s.
Proof. intros Hs. unfold last_piece. rewrite split_char_sep, (split_char_free c s) by done. by rewrite last_snoc. Qed.

(** Identifier characters are none of those the reduction cuts at. *)
Lemma identifier_plain c : is_identifier_char c = true -> (c < 128)%N ->
  is_whitespace c = false /\ is_head_end c = false /\ c <> ch ":" /\ c <> ch ".".
Proof.
  intros Hc Hlt.
  assert (forallb (fun c => implb (is_identifier_char c)
    (negb (is_whitespace c) && negb (is_head_end c) && negb (c =? ch ":")%N && negb (c =? ch ".")%N)) (N.of_nat <$> seq 0 128) = true) as Hall
    by (vm_compute; reflexivity).
  rewrite forallb_forall in Hall. specialize (Hall c). rewrite Hc in Hall. cbn [implb] in Hall.
  rewrite !andb_true_iff, !negb_true_iff, !N.eqb_neq in Hall. destruct Hall as [[[? ?] ?] ?]; [|by split_and!].
  apply list_elem_of_In, list_elem_of_fmap. exists (N.to_nat c). split; [lia|]. apply elem_of_seq. lia.
Qed.
End names.

(** ** Lemmas: annotated declarations *)

Section walk.
Context `{Unicode} (path : str) (package : option str) (annotation : str).

Lemma walk_annotated_eq ancestors d :
  (fun a => (a_path a, a_line a, a_kind a)) <$> walk_annotated path package annotation ancestors d =
  (fun d => (path, d_line d, d_kind d)) <$> filter (fun d => is_annotated annotation d = true) (flatten d).
Proof.
  revert ancestors. induction d as [d IH] using declaration_ind'. intros ancestors.
  rewrite flatten_eq. destruct d as [k n r l v an ms tp ps cv rt ti sts tc doc children]. cbn [walk_annotated d_children d_name d_line d_kind].
  set (d := mkDecl k n r l v an ms tp ps cv rt ti sts tc doc children). rewrite filter_cons, fmap_app.
  match goal with |- context [walk_annotated path package annotation ?below] => set (below' := below) end.
  assert ((fun a => (a_path a, a_line a, a_kind a)) <$> concat (walk_annotated path package annotation below' <$> children) =
    (fun d => (path, d_line d, d_kind d)) <$> filter (fun d => is_annotated annotation d = true) (concat (flatten <$> children))) as Hsub.
  { clearbody below'. cbn [d_children] in IH. clear d. induction IH as [|c cs Hc _ IH]; [done|]. csimpl. by rewrite fmap_app, Hc, IH, filter_app, fmap_app. }
  rewrite Hsub. destruct (is_annotated annotation d) eqn:E; [rewrite decide_True by done|rewrite decide_False by congruence]; done.
Qed.
End walk.

(** ** Properties *)

Section properties.
Context `{Unicode} `{GrammarLaws}.

(** One site of a parsed source: no such line, or no node there, is code. *)
Definition site_classified (source : str) (tree : Tree) (site : N * N) (kind : SiteKind) : Prop :=
  match lines source !! N.to_nat (site.1 - 1) with
  | None => kind = Code
  | Some line => exists column, column_of line (site.2 - 1) column /\
      match descendant_for_point (t_root tree) (site.1 - 1) column with
      | None => kind = Code
      | Some path => kind_in_chain source (lineage [] 0 (t_root tree) path) kind
      end
  end.
Lemma classify_site_spec (source : str) (tree : Tree) (e : N * N) : parse source = Some tree ->
  exists kind, classify_site source (t_root tree) e.1 e.2 = Some kind /\ site_classified source tree e kind.
Proof.
  intros Et. destruct e as [line column]. unfold classify_site, site_classified. cbn [fst snd].
  destruct (lines source !! _) as [text|]; [|by exists Code]. pose proof (byte_column_spec text (column - 1)) as Hcol.
  destruct (descendant_for_point _ _ _) as [path|] eqn:Ep.
  2: { exists Code. split; [done|]. eexists. split; [exact Hcol|]. by rewrite Ep. }
  set (chain := lineage _ _ _ _).
  assert (Forall (fun e : nat * Node => is_Some (Extract.text source e.2)) chain) as Hread.
  { pose proof (parse_ranges _ _ Et) as Hr. rewrite Forall_forall in Hr. eapply Forall_impl; [by apply lineage_below|].
    intros e He. by apply Hr. }
  destruct (decide_spec source chain Hread) as (decided & -> & Hd). cbn [mbind option_bind]. eexists. split; [done|].
  eexists. split; [exact Hcol|]. rewrite Ep. fold chain. destruct decided as [kind|]; [by left|]. right. split; [done|].
  assert (linked chain) as Hl%is_declaration_name_spec by by apply lineage_linked.
  destruct (is_declaration_name chain); [left|right]; (split; [|done]); naive_solver.
Qed.
Lemma classify_some (source : str) (sites : list (N * N)) :
  exists kinds, classify_reference_sites source sites = Some kinds /\ length kinds = length sites.
Proof.
  unfold classify_reference_sites. destruct (parse source) as [tree|] eqn:Et; [|eexists; split; [done|apply length_replicate]].
  destruct (mapM_some (fun '(line, column) => classify_site source (t_root tree) line column) sites) as [kinds Ek].
  { apply Forall_forall. intros [line column] _. destruct (classify_site_spec source tree (line, column) Et) as (kind & E & _). cbn in E. rewrite E. by eexists. }
  exists kinds. split; [done|]. apply mapM_Some in Ek. by eapply Forall2_length in Ek.
Qed.

(** C24: Classification is exact and errs toward code. For any sites it answers, one kind each, without
    panicking; every site of a source that does not parse is code, and so is one on no line or under no
    node. Otherwise the innermost of the node under the site and its ancestors that is a comment, an
    interpolation or a string literal settles it, as comment or documentation, as code, as string text;
    where there is none, the site is a declaration's name only when its node is that declaration's first
    identifier, and code in every other case. *)
Theorem classify_never_hides_code (source : str) (sites : list (N * N)) :
  exists kinds, classify_reference_sites source sites = Some kinds /\
    match parse source with
    | None => kinds = (fun _ => Code) <$> sites
    | Some tree => Forall2 (site_classified source tree) sites kinds
    end.
Proof.
  unfold classify_reference_sites. destruct (parse source) as [tree|] eqn:Et.
  2: { eexists. split; [done|]. clear. induction sites as [|site sites IH]; [done|]. cbn. by f_equal. }
  destruct (classify_some source sites) as (kinds & Ek & _). unfold classify_reference_sites in Ek. rewrite Et in Ek.
  exists kinds. split; [done|]. apply mapM_Some in Ek. eapply Forall2_impl; [exact Ek|]. intros [line column] kind E.
  destruct (classify_site_spec source tree (line, column) Et) as (kind' & E' & Hkind). cbn in E'. rewrite E in E'. by injection E' as <-.
Qed.

(** The simple name of an annotation is read through everything it may be written with: for a name of
    plain identifier characters, any use-site target and package qualifier before it and any type
    arguments, arguments or blank after it, the reduction answers exactly the name. *)
Theorem annotation_name_roundtrip (target package name rest : str) :
  name <> [] -> Forall (fun c => is_identifier_char c = true /\ (c < 128)%N) name ->
  Forall (fun c => is_identifier_char c = true /\ (c < 128)%N) target ->
  Forall (fun c => (is_identifier_char c = true \/ c = ch ".") /\ (c < 128)%N) package ->
  (rest = [] \/ exists c r, rest = c :: r /\ is_head_end c = true) ->
  annotation_simple_name (lit "@" ++ (if bool_decide (target = []) then [] else target ++ lit ":")
    ++ (if bool_decide (package = []) then [] else package ++ lit ".") ++ name ++ rest) = Some name.
Proof.
  intros Hne Hn Ht Hp Hr. set (tpart := if bool_decide (target = []) then [] else _).
  set (ppart := if bool_decide (package = []) then [] else _).
  assert (Forall (fun c => is_identifier_char c = true /\ (c < 128)%N \/ c = ch ":") tpart /\
    last_piece (ch ":") (tpart ++ ppart ++ name) = ppart ++ name) as [Htp Htl].
  { assert (ch ":" ∉ ppart ++ name) as Hfree.
    { intros [Hin|Hin]%elem_of_app.
      - unfold ppart in Hin. case_bool_decide; [by apply elem_of_nil in Hin|]. apply elem_of_app in Hin as [Hin|Hin%list_elem_of_singleton]; [|done].
        rewrite Forall_forall in Hp. destruct (Hp _ Hin) as [[Hc|Hc] Hlt]; [|done]. by apply (identifier_plain (ch ":")) in Hc as (_ & _ & ? & _).
      - rewrite Forall_forall in Hn. destruct (Hn _ Hin) as [Hc Hlt]. by apply (identifier_plain (ch ":")) in Hc as (_ & _ & ? & _). }
    unfold tpart. case_bool_decide; [split; [constructor|by apply last_piece_free]|]. split.
    - apply Forall_app. split; [eapply Forall_impl; [exact Ht|]; auto|repeat constructor; by right].
    - rewrite <- app_assoc. by apply (last_piece_app (ch ":") target). }
  assert (Forall (fun c => is_identifier_char c = true /\ (c < 128)%N \/ c = ch ".") ppart /\
    last_piece (ch ".") (ppart ++ name) = name) as [Hpp Hpl].
  { assert (ch "." ∉ name) as Hfree.
    { intros Hin. rewrite Forall_forall in Hn. destruct (Hn _ Hin) as [Hc Hlt]. by apply (identifier_plain (ch ".")) in Hc as (_ & _ & _ & ?). }
    unfold ppart. case_bool_decide; [split; [constructor|by apply last_piece_free]|]. split.
    - apply Forall_app. split; [|repeat constructor; by right]. eapply Forall_impl; [exact Hp|]. intros c [[?|?] ?]; auto.
    - rewrite <- app_assoc. by apply (last_piece_app (ch ".") package). }
  assert (Forall (fun c => is_head_end c = false) (tpart ++ ppart ++ name)) as Hheads.
  { repeat (apply Forall_app; split).
    - eapply Forall_impl; [exact Htp|]. intros c [[Hc Hlt]| ->]; [|done]. by apply identifier_plain.
    - eapply Forall_impl; [exact Hpp|]. intros c [[Hc Hlt]| ->]; [|done]. by apply identifier_plain.
    - eapply Forall_impl; [exact Hn|]. intros c [Hc Hlt]. by apply identifier_plain. }
  assert (Forall (fun c => is_whitespace c = false) name) as Hws by (eapply Forall_impl; [exact Hn|]; intros c [Hc Hlt]; by apply identifier_plain).
  assert (trim (lit "@" ++ tpart ++ ppart ++ name ++ rest) = lit "@" ++ (tpart ++ ppart ++ name) ++ trim_end rest) as Etrim.
  { assert (forall x : str, trim_start (lit "@" ++ x) = lit "@" ++ x) as Hat by (intros x; reflexivity). unfold trim. rewrite Hat.
    destruct name as [|c0 n0 _] using rev_ind; [done|]. apply Forall_app in Hws as [_ [Hc _]%Forall_cons].
    replace (lit "@" ++ tpart ++ ppart ++ (n0 ++ [c0]) ++ rest) with ((lit "@" ++ tpart ++ ppart ++ n0) ++ c0 :: rest)
      by (rewrite <- !app_assoc; done).
    rewrite trim_end_snoc by done. by rewrite <- !app_assoc. }
  unfold annotation_simple_name. rewrite Etrim.
  rewrite strip_prefix_app.
  cbn [mbind option_bind].
  rewrite (head_split is_head_end (tpart ++ ppart ++ name) (trim_end rest)); [|done|].
  2: { destruct Hr as [->|(c & r & -> & Hc)]; [by left|]. destruct (trim_end_prefix (c :: r)) as [b Eb].
       destruct (trim_end (c :: r)) as [|d l]; [by left|]. right. injection Eb as <- _. by exists c, l. }
  cbn [default from_option]. unfold id. rewrite Htl, Hpl, trim_id by done. rewrite bool_decide_eq_false_2 by done. cbn [negb andb].
  assert (forallb is_identifier_char name = true) as ->; [|done].
  apply forallb_forall. intros c Hc%list_elem_of_In. rewrite Forall_forall in Hn. by apply Hn.
Qed.

(** An annotation's declarations are exactly those written with it: for a file that extracts, the answer
    lists, outermost first and in source order, the line and kind of every declaration at any depth one of
    whose annotations reduces to the name, and of no other. *)
Theorem annotated_declarations_exact (path source annotation : str) (f : FileSkeleton) :
  extract path source = Some (inr f) ->
  exists found, annotated_declarations path source annotation = Some found /\
    (fun a => (a_path a, a_line a, a_kind a)) <$> found =
    (fun d => (path, d_line d, d_kind d)) <$> filter (fun d => is_annotated annotation d = true) (all_declarations f).
Proof.
  intros E. unfold annotated_declarations. rewrite E. cbn [mbind option_bind]. eexists. split; [done|].
  unfold all_declarations. induction (fs_declarations f) as [|d ds IH]; [done|]. csimpl. by rewrite fmap_app, walk_annotated_eq, IH, filter_app, fmap_app.
Qed.
End properties.

(** ** Witnesses *)

(** A grammar that finds the name of the class in the one file it parses. *)
Definition pointing_grammar : Grammar :=
  {| parse := fun source => if bool_decide (source = demo_source) then Some demo_tree else None;
     descendant_for_point := fun _ row column => if (row =? 0)%N && (column =? 6)%N then Some [0; 1] else None |}.
#[export] Instance pointing_laws : @GrammarLaws pointing_grammar.
Proof. destruct demo_laws as [H1 H2 H3 H4]. split; [exact H1|exact H2|exact H3|exact H4]. Qed.

(** And one that finds a comment in a file with a syntax error beside it. *)
Definition broken_source : str := lit "fun {{ // Cart".
Definition broken_tree : Tree :=
  mkTree (mkNode (lit "ERROR") true 0 14 0 [mkNode (lit "line_comment") true 7 14 0 []]) true.
Definition broken_grammar : Grammar :=
  {| parse := fun source => if bool_decide (source = broken_source) then Some broken_tree else None;
     descendant_for_point := fun _ row column => if (row =? 0)%N && (7 <=? column)%N then Some [0] else Some [] |}.
Lemma broken_laws : @GrammarLaws broken_grammar.
Proof.
  assert (forall source tree, @parse broken_grammar source = Some tree -> source = broken_source /\ tree = broken_tree) as Hp.
  { intros source tree. cbn. case_bool_decide as E; [|done]. intros [= <-]. by split. }
  split; intros source tree [-> ->]%Hp.
  - repeat constructor; by eexists.
  - split; repeat constructor; cbn; lia.
  - repeat constructor; discriminate.
  - repeat constructor; intros i name j body; discriminate.
Qed.

Lemma classify_never_hides_code_witness :
  (exists kinds, @classify_reference_sites pointing_grammar demo_source [(1, 7); (2, 9)]%N = Some kinds /\ kinds = [DeclarationName; Code]) /\
  exists kinds, @classify_reference_sites broken_grammar broken_source [(1, 11); (1, 1)]%N = Some kinds /\ kinds = [Comment; Code].
Proof.
  split.
  - destruct (@classify_never_hides_code pointing_grammar pointing_laws demo_source [(1, 7); (2, 9)]%N) as (kinds & E & _).
    exists kinds. split; [exact E|]. vm_compute in E. by injection E as <-.
  - destruct (@classify_never_hides_code broken_grammar broken_laws broken_source [(1, 11); (1, 1)]%N) as (kinds & E & _).
    exists kinds. split; [exact E|]. vm_compute in E. by injection E as <-.
Defined.
(** A tree recovered around an error is classified by its nodes all the same. *)
Lemma recovered_tree_classified :
  t_has_error broken_tree = true /\ @parse broken_grammar broken_source = Some broken_tree /\
  @classify_reference_sites broken_grammar broken_source [(1, 11)]%N = Some [Comment].
Proof. split_and!; vm_compute; reflexivity. Qed.
Lemma annotation_name_roundtrip_witness :
  @annotation_simple_name latin1_unicode (lit "@field:com.example.Audited(level = 1)") = Some (lit "Audited").
Proof.
  apply (@annotation_name_roundtrip latin1_unicode (lit "field") (lit "com.example") (lit "Audited") (lit "(level = 1)")).
  - discriminate.
  - repeat constructor.
  - repeat constructor.
  - apply Forall_forall. intros c Hc. split; [|revert c Hc; apply Forall_forall; repeat constructor].
    revert c Hc. apply Forall_forall. repeat constructor; (left; reflexivity) || (right; reflexivity).
  - right. exists (ch "("), (lit "level = 1)"). by split.
Defined.
Lemma annotated_declarations_exact_witness :
  @annotated_declarations latin1_unicode _ (lit "Cart.kt") demo_source (lit "Audited") = Some [].
Proof.
  eassert (@extract latin1_unicode _ (lit "Cart.kt") demo_source = Some (inr _)) as E by (vm_compute; reflexivity).
  destruct (annotated_declarations_exact (lit "Cart.kt") demo_source (lit "Audited") _ E) as (found & Ef & Hf).
  rewrite Ef. f_equal. vm_compute in Hf. by destruct found.
Defined.
