(* ===== verification/Words.v ===== *)
(** * Words: where a name is written

    Models [word_bounded_matches] of [crates/ktsense-cli/src/text_refs.rs], the whole-word scan of one
    source. [Scan] runs it over the sources that the walks of [Files] find. *)
From S2P Require Import Prelude Collections Text Skeleton References Sites JavaText JavaEnclosing Lines Context Cst Extract Classify.

Set Default Proof Using "Type*".

(** ** [word_bounded_matches] *)

Definition is_identifier_byte (b : N) : bool := ascii_alphabetic b || ascii_digit b || (b =? ch "_")%N.

(** [n as u32 + 1], wrapping as an optimised build does. *)
Definition one_based (n : N) : N := ((n mod 2 ^ 32 + 1) mod 2 ^ 32)%N.

(** The scan of one line from a byte offset; [None] is a panic of a slice or an index. *)
Fixpoint match_loop (fuel : nat) (line symbol : str) (row search_from : N) : option (list (N * N)) :=
  match fuel with
  | O => None
  | S fuel' =>
      tail ← str_from line search_from;
      match find_str tail symbol with
      | None => Some []
      | Some offset =>
          let start := (search_from + offset)%N in
          let stop := (start + utf8_len symbol)%N in
          bounded_before ← (if (start =? 0)%N then Some true
                            else b ← as_bytes line !! N.to_nat (start - 1); Some (negb (is_identifier_byte b)));
          bounded_after ← (if (utf8_len line <=? stop)%N then Some true
                           else b ← as_bytes line !! N.to_nat stop; Some (negb (is_identifier_byte b)));
          here ← (if bounded_before && bounded_after then
                    before ← str_to line start; Some [(one_based row, one_based (utf16_len before))]
                  else Some []);
          more ← match_loop fuel' line symbol row (start + 1);
          Some (here ++ more)
      end
  end.
Definition line_matches (symbol : str) (row : nat) (line : str) : option (list (N * N)) :=
  match_loop (S (length line)) line symbol (N.of_nat row) 0.
Definition word_bounded_matches (source symbol : str) : option (list (N * N)) :=
  match symbol with
  | [] => Some []
  | _ => per_line ← mapM id (imap (line_matches symbol) (lines source)); Some (concat per_line)
  end.

(** ** Lemmas: bytes around an offset *)

(** A character of an ASCII identifier. *)
Definition is_word_char (c : char) : bool := (c <? 128)%N && is_identifier_byte c.

Lemma high_byte b : (128 <= b)%N -> is_identifier_byte b = false.
Proof.
  intros Hb. unfold is_identifier_byte, ascii_alphabetic, ascii_digit. chars.
  repeat match goal with |- context [(?x <=? ?y)%N] => destruct (N.leb_spec x y) | |- context [(?x =? ?y)%N] => destruct (N.eqb_spec x y) end;
    cbn; try done; lia.
Qed.
Local Ltac at_least_128 := match goal with |- (_ <= _ + ?x)%N => generalize x; intros; lia | |- (_ <= ?x + _)%N => generalize x; intros; lia end.
Lemma utf8_char_ends c : exists first_ mid last_, utf8_char c = first_ :: mid /\ last (utf8_char c) = Some last_ /\
  is_identifier_byte first_ = is_word_char c /\ is_identifier_byte last_ = is_word_char c.
Proof.
  unfold utf8_char, is_word_char. destruct (N.ltb_spec c 128); [by exists c, [], c|]. cbn [andb].
  destruct (c <? 2048)%N; [|destruct (c <? 65536)%N]; eexists _, _, _; (split; [done|split; [done|]]); split; apply high_byte; at_least_128.
Qed.

Lemma byte_before p d q : as_bytes ((p ++ [d]) ++ q) !! N.to_nat (utf8_len (p ++ [d]) - 1) =
  last (utf8_char d).
Proof.
  rewrite as_bytes_app. assert (length (as_bytes (p ++ [d])) = N.to_nat (utf8_len (p ++ [d]))) as Hl by (rewrite <- length_as_bytes; lia).
  assert (1 <= utf8_len (p ++ [d]))%N by (rewrite utf8_len_app, utf8_len_cons; pose proof (len_utf8_pos d); lia).
  rewrite lookup_app_l by lia. replace (N.to_nat (utf8_len (p ++ [d]) - 1)) with (pred (length (as_bytes (p ++ [d])))) by lia.
  rewrite <- last_lookup. rewrite as_bytes_app, last_app. unfold as_bytes at 1. cbn. rewrite app_nil_r.
  destruct (utf8_char_ends d) as (f & m & l & -> & Hl' & _). rewrite Hl'. done.
Qed.
Lemma byte_after p d q : as_bytes (p ++ d :: q) !! N.to_nat (utf8_len p) = head (utf8_char d).
Proof.
  rewrite as_bytes_app. assert (length (as_bytes p) = N.to_nat (utf8_len p)) as <- by (rewrite <- length_as_bytes; lia).
  rewrite lookup_app_r, Nat.sub_diag by lia. unfold as_bytes. cbn. destruct (utf8_char_ends d) as (f & m & l & -> & _). done.
Qed.

(** What surrounds a whole word. *)
Definition free_before (before : str) : bool := match last before with Some d => negb (is_word_char d) | None => true end.
Definition free_after (after : str) : bool := match after with d :: _ => negb (is_word_char d) | [] => true end.

(** The positions of a line from [pre] on where the word is written whole. *)
Fixpoint word_hits (symbol : str) (row : N) (pre rest : str) : list (N * N) :=
  (if starts_with rest symbol && free_before pre && free_after (drop (length symbol) rest)
   then [(one_based row, one_based (utf16_len pre))] else []) ++
  match rest with
  | [] => []
  | c :: rest' => word_hits symbol row (pre ++ [c]) rest'
  end.

Lemma word_hits_skip symbol row a : forall pre b,
  (forall a' b', a ++ b = a' ++ symbol ++ b' -> length a <= length a') ->
  word_hits symbol row pre (a ++ b) = word_hits symbol row (pre ++ a) b.
Proof.
  induction a as [|c a IH]; intros pre b Hfirst; [by rewrite app_nil_r|]. cbn [app word_hits].
  destruct (starts_with (c :: a ++ b) symbol) eqn:E.
  { apply starts_with_spec in E as [k Ek]. specialize (Hfirst [] k Ek). cbn in Hfirst. lia. }
  cbn [andb app]. rewrite IH; [by rewrite <- app_assoc|]. intros a' b' E'.
  specialize (Hfirst (c :: a') b'). cbn in Hfirst. rewrite E' in Hfirst. specialize (Hfirst eq_refl). lia.
Qed.
Lemma word_hits_none symbol row rest : forall pre, symbol <> [] -> (forall a b, rest <> a ++ symbol ++ b) -> word_hits symbol row pre rest = [].
Proof.
  induction rest as [|c rest IH]; intros pre Hne Hno; cbn [word_hits].
  - destruct symbol; done.
  - destruct (starts_with (c :: rest) symbol) eqn:E.
    { apply starts_with_spec in E as [k Ek]. by apply (Hno [] k) in Ek. }
    cbn [andb app]. apply IH; [done|]. intros a b ->. by apply (Hno (c :: a) b).
Qed.

Lemma bounded_before_spec pre rest (k : bool -> option (list (N * N))) :
  (bounded ← (if (utf8_len pre =? 0)%N then Some true
              else b ← as_bytes (pre ++ rest) !! N.to_nat (utf8_len pre - 1); Some (negb (is_identifier_byte b))); k bounded)
  = k (free_before pre).
Proof.
  destruct pre as [|d p _] using rev_ind; [done|].
  assert (1 <= utf8_len (p ++ [d]))%N by (rewrite utf8_len_app, utf8_len_cons; pose proof (len_utf8_pos d); lia).
  destruct (N.eqb_spec (utf8_len (p ++ [d])) 0); [lia|]. rewrite byte_before. unfold free_before. rewrite last_snoc.
  destruct (utf8_char_ends d) as (f & m & l & _ & -> & _ & El). cbn. by rewrite El.
Qed.
Lemma bounded_after_spec pre after (k : bool -> option (list (N * N))) :
  (bounded ← (if (utf8_len (pre ++ after) <=? utf8_len pre)%N then Some true
              else b ← as_bytes (pre ++ after) !! N.to_nat (utf8_len pre); Some (negb (is_identifier_byte b))); k bounded)
  = k (free_after after).
Proof.
  destruct after as [|d q].
  - rewrite app_nil_r. by rewrite N.leb_refl.
  - assert (utf8_len (d :: q) > 0)%N by (rewrite utf8_len_cons; pose proof (len_utf8_pos d); lia).
    rewrite utf8_len_app. destruct (N.leb_spec (utf8_len pre + utf8_len (d :: q)) (utf8_len pre)); [lia|]. rewrite byte_after.
    destruct (utf8_char_ends d) as (f & m & l & -> & _ & Ef & _). cbn. by rewrite Ef.
Qed.

(** From a character boundary the loop finds the remaining whole words: a match starts with an ASCII
    character, so one byte past it is a boundary again. *)
Lemma match_loop_hits c w row : (c < 128)%N -> forall fuel pre rest, length rest < fuel ->
  match_loop fuel (pre ++ rest) (c :: w) row (utf8_len pre) = Some (word_hits (c :: w) row pre rest).
Proof.
  intros Hc fuel. induction fuel as [|fuel IH]; intros pre rest Hf; [lia|]. cbn [match_loop].
  rewrite str_from_app. cbn [mbind option_bind]. pose proof (find_str_spec rest (c :: w)) as Hfind.
  destruct (find_str rest (c :: w)) as [o|]; [|by rewrite word_hits_none].
  destruct Hfind as (a & b & -> & -> & Hfirst). rewrite word_hits_skip by done.
  rewrite <- utf8_len_app. replace (pre ++ a ++ (c :: w) ++ b) with ((pre ++ a) ++ (c :: w) ++ b) by (by rewrite <- app_assoc).
  rewrite bounded_before_spec. rewrite <- utf8_len_app, (app_assoc (pre ++ a)), bounded_after_spec, <- (app_assoc (pre ++ a)).
  rewrite str_to_app. cbn [mbind option_bind].
  assert (utf8_len (pre ++ a) + 1 = utf8_len ((pre ++ a) ++ [c]))%N as ->.
  { rewrite (utf8_len_app _ [c]). f_equal. unfold utf8_len. cbn. unfold len_utf8. destruct (N.ltb_spec c 128); [done|lia]. }
  replace ((pre ++ a) ++ (c :: w) ++ b) with (((pre ++ a) ++ [c]) ++ w ++ b) by (by rewrite <- !app_assoc).
  rewrite IH by (rewrite !length_app in Hf; cbn in Hf; rewrite length_app; lia).
  change ((c :: w) ++ b) with (c :: w ++ b). cbn [word_hits].
  assert (starts_with (c :: w ++ b) (c :: w) = true) as -> by (apply starts_with_spec; by exists b).
  cbn [andb]. replace (drop (length (c :: w)) (c :: w ++ b)) with b by (cbn; by rewrite drop_app_length).
  by destruct (free_before (pre ++ a) && free_after b).
Qed.

(** ** Lemmas: the scan is exact *)

Lemma elem_of_word_hits symbol row rest : forall pre hit, symbol <> [] ->
  hit ∈ word_hits symbol row pre rest <->
  exists before after, rest = before ++ symbol ++ after /\ hit = (one_based row, one_based (utf16_len (pre ++ before))) /\
    free_before (pre ++ before) = true /\ free_after after = true.
Proof.
  induction rest as [|c rest IH]; intros pre hit Hne; cbn [word_hits]; rewrite elem_of_app.
  - split.
    + intros [Hhit|Hhit]; [|by apply not_elem_of_nil in Hhit]. destruct symbol; [done|]. cbn in Hhit. by apply not_elem_of_nil in Hhit.
    + intros (b & a & E & _). destruct b; [by destruct symbol|done].
  - rewrite IH by done. split.
    + intros [Hhit|(b & a & -> & -> & Hb & Ha)].
      * destruct (starts_with (c :: rest) symbol) eqn:E; [|by apply not_elem_of_nil in Hhit].
        apply starts_with_spec in E as [k Ek]. rewrite Ek, drop_app_length in Hhit.
        destruct (free_before pre) eqn:Eb, (free_after k) eqn:Ea; cbn in Hhit; try by apply not_elem_of_nil in Hhit.
        apply list_elem_of_singleton in Hhit as ->. exists [], k. by rewrite app_nil_r.
      * exists (c :: b), a. by rewrite <- app_assoc in *.
    + intros ([|d b] & a & E & -> & Hb & Ha).
      * left. cbn in E. rewrite app_nil_r in *. rewrite E, drop_app_length, Hb, Ha.
        assert (starts_with (symbol ++ a) symbol = true) as -> by (apply starts_with_spec; by exists a). left.
      * right. injection E as -> ->. exists b, a. by rewrite <- !app_assoc.
Qed.

Definition before_in (a b : N * N) : Prop := (a.1 < b.1 \/ a.1 = b.1 /\ a.2 < b.2)%N.

Lemma utf16_le_utf8 s : (utf16_len s <= utf8_len s)%N.
Proof.
  induction s as [|c s IH]; [done|]. change (utf16_len (c :: s)) with (len_utf16 c + utf16_len s)%N. rewrite utf8_len_cons.
  assert (len_utf16 c <= len_utf8 c)%N; [|lia]. unfold len_utf16, len_utf8.
  repeat match goal with |- context [(?x <? ?y)%N] => destruct (N.ltb_spec x y) end; lia.
Qed.
Lemma one_based_small n : (n + 1 < 2 ^ 32)%N -> one_based n = (n + 1)%N.
Proof. intros Hn. unfold one_based. by rewrite !N.mod_small by (rewrite ?N.mod_small; lia). Qed.

Lemma utf8_len_nonempty s : s <> [] -> (1 <= utf8_len s)%N.
Proof. destruct s as [|c s]; [done|]. intros _. rewrite utf8_len_cons. pose proof (len_utf8_pos c). lia. Qed.

Lemma word_hits_sorted symbol row rest : forall pre, symbol <> [] -> (utf8_len (pre ++ rest) < 2 ^ 32)%N ->
  StronglySorted before_in (word_hits symbol row pre rest).
Proof.
  induction rest as [|c rest IH]; intros pre Hne Hlen; cbn [word_hits].
  { rewrite app_nil_r. case_match; repeat constructor. }
  rewrite cons_middle, app_assoc in Hlen. specialize (IH (pre ++ [c]) Hne Hlen).
  case_match; [|done]. cbn [app]. constructor; [done|]. apply Forall_forall. intros hit Hhit.
  apply elem_of_word_hits in Hhit as (b & a & E & -> & _); [|done]. right. split; [done|]. cbn.
  pose proof (utf16_le_utf8 pre). pose proof (utf16_le_utf8 ((pre ++ [c]) ++ b)). pose proof (utf8_len_nonempty symbol Hne).
  rewrite E, !utf8_len_app in Hlen. rewrite !utf8_len_app in *.
  rewrite !one_based_small by lia. rewrite !utf16_len_app.
  assert (1 <= utf16_len [c])%N by (unfold utf16_len; cbn; unfold len_utf16; case_match; lia). lia.
Qed.

(** A line is no longer than its source, and there are no more rows than bytes. *)
Lemma length_utf8 s : (N.of_nat (length s) <= utf8_len s)%N.
Proof. induction s as [|c s IH]; [done|]. rewrite utf8_len_cons. pose proof (len_utf8_pos c). cbn [length]. lia. Qed.
Lemma count_lines_length s : count_lines s <= length s.
Proof. induction s as [|c s IH]; [done|]. cbn. case_match; lia. Qed.
Lemma utf8_len_strip_cr s : (utf8_len (strip_cr s) <= utf8_len s)%N.
Proof.
  unfold strip_cr. case_match; [|done]. case_match; [|done]. pose proof (utf8_len_app (take (length s - 1) s) (drop (length s - 1) s)) as E.
  rewrite take_drop in E. lia.
Qed.
Lemma split_piece_utf8 c s p : p ∈ split_char c s -> (utf8_len p <= utf8_len s)%N.
Proof.
  revert p. induction s as [|d s IH]; intros p Hp; [by apply list_elem_of_singleton in Hp as ->|]. rewrite split_char_cons in Hp.
  rewrite utf8_len_cons. pose proof (split_char_nonempty c s) as Hne. destruct (split_char c s) as [|q qs] eqn:E; [done|].
  destruct (d =? c)%N.
  - apply elem_of_cons in Hp as [->|Hp]; [unfold utf8_len; cbn; lia|]. specialize (IH p Hp). lia.
  - apply elem_of_cons in Hp as [->|Hp]; [rewrite utf8_len_cons; specialize (IH q ltac:(left)); lia|]. specialize (IH p ltac:(by right)). lia.
Qed.
Lemma line_utf8 s line : line ∈ lines s -> (utf8_len line <= utf8_len s)%N.
Proof.
  unfold lines. intros [(p & -> & Hp)%list_elem_of_fmap|[_ Hp]%list_elem_of_filter]%elem_of_app.
  - pose proof (utf8_len_strip_cr p). assert (p ∈ split_char 10%N s) as Hin%split_piece_utf8; [|lia].
    rewrite <- (take_drop (length (split_char 10%N s) - 1)). apply elem_of_app. by left.
  - apply (split_piece_utf8 10%N). rewrite <- (take_drop (length (split_char 10%N s) - 1)). apply elem_of_app. by right.
Qed.

Lemma lookup_row source row line : lines source !! row = Some line -> (utf8_len source < 2 ^ 32)%N -> (N.of_nat row + 1 < 2 ^ 32)%N.
Proof.
  intros Hrow%lookup_lt_Some Hlen. rewrite length_lines in Hrow. pose proof (count_lines_length source). pose proof (length_utf8 source). lia.
Qed.

Lemma scan_rows c w : (c < 128)%N -> forall ls k, mapM id (imap (fun i => line_matches (c :: w) (k + i)) ls) =
  Some (imap (fun i => word_hits (c :: w) (N.of_nat (k + i)) []) ls).
Proof.
  intros Hc ls k. rewrite mapM_Some. rewrite Forall2_lookup. intros i. rewrite !list_lookup_imap.
  destruct (ls !! i) as [line|]; constructor. unfold id, line_matches.
  pose proof (match_loop_hits c w (N.of_nat (k + i)) Hc (S (length line)) [] line) as Hl. cbn [app] in Hl. by rewrite <- Hl by lia.
Qed.

Lemma rows_sorted symbol (ls : list str) : symbol <> [] -> Forall (fun line => utf8_len line < 2 ^ 32)%N ls -> forall k,
  (N.of_nat (k + length ls) < 2 ^ 32)%N ->
  StronglySorted before_in (concat (imap (fun i => word_hits symbol (N.of_nat (k + i)) []) ls)) /\
  Forall (fun hit => (N.of_nat k < hit.1)%N) (concat (imap (fun i => word_hits symbol (N.of_nat (k + i)) []) ls)).
Proof.
  intros Hne Hlen. induction Hlen as [|line ls Hl Hls IH]; intros k Hk; [repeat constructor|]. cbn [imap concat length] in *.
  destruct (IH (S k)) as [Hs Hf]; [lia|].
  assert (imap ((fun i => word_hits symbol (N.of_nat (k + i)) []) ∘ S) ls = imap (fun i => word_hits symbol (N.of_nat (S k + i)) []) ls) as ->.
  { apply imap_ext. intros i x _. unfold compose. by rewrite Nat.add_succ_r. }
  rewrite Nat.add_0_r. assert (forall hit, hit ∈ word_hits symbol (N.of_nat k) [] line -> hit.1 = (N.of_nat k + 1)%N) as Hrow.
  { intros hit (b & a & _ & -> & _)%elem_of_word_hits; [|done]. cbn. rewrite one_based_small; lia. }
  rewrite Forall_forall in Hf. split.
  - apply StronglySorted_app; split_and!; [|by apply word_hits_sorted|done].
    intros x y Hx%Hrow Hy%Hf. left. lia.
  - apply Forall_app. split; apply Forall_forall; intros hit Hhit; [apply Hrow in Hhit|apply Hf in Hhit]; lia.
Qed.

Lemma word_bounded_matches_some (source : str) (c : char) (w : str) : (c < 128)%N ->
  word_bounded_matches source (c :: w) = Some (concat (imap (fun i => word_hits (c :: w) (N.of_nat i) []) (lines source))).
Proof.
  intros Hc. unfold word_bounded_matches. pose proof (scan_rows c w Hc (lines source) 0) as Hrows. cbn [Nat.add] in Hrows.
  change (fun i => line_matches (c :: w) i) with (line_matches (c :: w)) in Hrows. by rewrite Hrows.
Qed.

(** A place of a source where a word stands whole: its 1-based line, and the 1-based UTF-16 column of
    its first character, with no identifier character on either side. *)
Definition written_whole (source word : str) (place : N * N) : Prop :=
  exists row line before after, lines source !! row = Some line /\ line = before ++ word ++ after /\
    place = (N.of_nat row + 1, utf16_len before + 1)%N /\ free_before before = true /\ free_after after = true.

(** The whole-word scan finds exactly the places where the name is written with no identifier
    character on either side, as 1-based lines and UTF-16 columns, in source order and once each; on a
    name that starts with an ASCII character no slice leaves a character boundary. *)
Theorem word_matches_exact (source : str) (c : char) (w : str) :
  (utf8_len source < 2 ^ 32)%N -> (c < 128)%N ->
  exists found, word_bounded_matches source (c :: w) = Some found /\ StronglySorted before_in found /\
    forall place, place ∈ found <-> written_whole source (c :: w) place.
Proof.
  intros Hlen Hc. rewrite word_bounded_matches_some by done.
  exists (concat (imap (fun i => word_hits (c :: w) (N.of_nat i) []) (lines source))). split_and!.
  - done.
  - apply (rows_sorted (c :: w) (lines source) ltac:(done)) with (k := 0).
    + apply Forall_forall. intros line Hline%line_utf8. lia.
    + rewrite length_lines. pose proof (count_lines_length source). pose proof (length_utf8 source). lia.
  - intros [l col]. rewrite elem_of_concat. split.
    + intros (hits & (row & line & -> & Hrow)%elem_of_lookup_imap & Hhit). 
      apply elem_of_word_hits in Hhit as (b & a & E & Ehit & Hb & Ha); [|done]. injection Ehit as -> ->.
      pose proof (lookup_row _ _ _ Hrow Hlen). pose proof (line_utf8 _ _ (list_elem_of_lookup_2 _ _ _ Hrow)) as Hl.
      exists row, line, b, a. split_and!; [done|done| |done|done]. f_equal; [by apply one_based_small|].
      apply one_based_small. pose proof (utf16_le_utf8 b). pose proof (utf8_len_nonempty (c :: w) ltac:(done)). rewrite E, !utf8_len_app in Hl. cbn [app]. lia.
    + intros (row & line & b & a & Hrow & E & [= -> ->] & Hb & Ha). exists (word_hits (c :: w) (N.of_nat row) [] line). split.
      { apply elem_of_lookup_imap. by exists row, line. }
      apply elem_of_word_hits; [done|]. exists b, a. split_and!; [done| |done|done].
      pose proof (lookup_row _ _ _ Hrow Hlen). pose proof (line_utf8 _ _ (list_elem_of_lookup_2 _ _ _ Hrow)) as Hl.
      pose proof (utf16_le_utf8 b). pose proof (utf8_len_nonempty (c :: w) ltac:(done)). rewrite E, !utf8_len_app in Hl. cbn [app]. rewrite !one_based_small by lia. done.
Qed.

(** The step of one byte past a match leaves the character boundary when the name starts with a wider
    character, and the next slice panics. *)
Definition accented : str := [233; 116]%N.
Lemma accented_name_panics : word_bounded_matches accented accented = None /\ word_bounded_matches (lit "tt") accented = Some [].
Proof. split; vm_compute; reflexivity. Qed.

Definition scanned_source : str := lit "m.put(put)" ++ [10; 233; 32]%N ++ lit "put input".
Lemma word_matches_exact_witness : ((utf8_len scanned_source < 2 ^ 32)%N /\ (ch "p" < 128)%N) /\
  exists found, word_bounded_matches scanned_source (lit "put") = Some found /\ StronglySorted before_in found /\ found = [(1, 3); (1, 7); (2, 3)]%N.
Proof.
  split; [split; vm_compute; reflexivity|].
  destruct (word_matches_exact scanned_source (ch "p") (lit "ut")) as (found & Hf & Hs & _); [vm_compute; reflexivity..|].
  exists found. split; [exact Hf|]. split; [exact Hs|]. assert (Some found = Some [(1, 3); (1, 7); (2, 3)]%N) as E by (rewrite <- Hf; vm_compute; reflexivity).
  by injection E.
Defined.
