(* ===== verification/Scan.v ===== *)
(** * Scan: where a name nothing declares is written

    Models the rest of [crates/ktsense-cli/src/text_refs.rs] over the walks of [Files] and the word scan of
    [Words]: the classified Kotlin sites, the annotated declarations, the attributed Java sites, the
    references a context bundle carries, and the not-found answer. *)
From stdpp Require Import gmap.
From S2P Require Import Prelude Collections Text Skeleton References Sites JavaText JavaEnclosing Trace Render Lines Context Answers Files Cst Extract Classify Words.

Set Default Proof Using "Type*".

(** A walk's read error ends the command; [None] is a panic. *)
Abbreviation Outcome A := (option (Path + A)).
Definition on_files {A} (walk : Outcome (list Path)) (f : list Path -> option A) : Outcome A :=
  r ← walk;
  match r with
  | inl path => Some (inl path)
  | inr files => a ← f files; Some (inr a)
  end.
Definition outcome_map {A B} (f : A -> option B) (o : Outcome A) : Outcome B :=
  r ← o;
  match r with
  | inl path => Some (inl path)
  | inr a => b ← f a; Some (inr b)
  end.

Definition read_path (root : Entry) (path : Path) : option str := e ← entry_at root path; read_to_string e.

(** [filtered] and [note]. *)
Definition filtered {A} (items : list A) (filter_ : option SiteFilter) (path_of : A -> str) : list A * nat :=
  match filter_ with
  | None => (items, 0)
  | Some f =>
      let kept := filter (fun item => matches_path f (path_of item) = true) items in
      (kept, length items - length kept)
  end.
Definition note (filter_ : option SiteFilter) (omitted : nat) : str :=
  match filter_ with Some f => filter_note f omitted | None => [] end.

(** [HashSet::insert] in a loop: the paths not met before. *)
Fixpoint unseen {A} `{EqDecision A} (seen items : list A) : list A :=
  match items with
  | [] => []
  | x :: items' => if decide (x ∈ seen) then unseen seen items' else x :: unseen (x :: seen) items'
  end.

Section scan.
Context `{Unicode} `{Grammar} (root : Entry).

(** The Kotlin sources, then the generated ones not among them, each scanned once. *)
Definition scan_sources {A} (scan : Path -> option (list A)) : Outcome (list A) :=
  on_files (collect_kotlin_files root) (fun files =>
    found ← mapM scan files;
    generated ← collect_generated_kotlin_files root;
    more ← mapM scan (unseen files generated);
    Some (concat found ++ concat more)).

Definition site_of (path : str) (line : N) (kind : SiteKind) : Location := mkLocation path line None kind.
Definition scan_file_for_sites (symbol : str) (path : Path) : option (list Location) :=
  match read_path root path with
  | None => Some []
  | Some source =>
      coordinates ← word_bounded_matches source symbol;
      if bool_decide (coordinates = []) then Some []
      else kinds ← classify_reference_sites source coordinates;
           Some (zip_with (fun at_ kind => site_of (display path) at_.1 kind) coordinates kinds)
  end.
Definition collect_text_sites (symbol : str) : Outcome (list Location) := scan_sources (scan_file_for_sites symbol).

Definition scan_file_for_annotations (annotation : str) (path : Path) : option (list AnnotatedDeclaration) :=
  match read_path root path with
  | None => Some []
  | Some source =>
      coordinates ← word_bounded_matches source annotation;
      if bool_decide (coordinates = []) then Some [] else annotated_declarations (display path) source annotation
  end.
Definition collect_annotation_uses (annotation : str) (filter_ : option SiteFilter) : Outcome (list AnnotatedDeclaration * nat) :=
  outcome_map (fun declarations => Some (filtered declarations filter_ a_path)) (scan_sources (scan_file_for_annotations annotation)).

(** ** Java *)

Record JavaScan := mkJavaScan {
  js_sites : list Location;
  js_attribution : gmap (str * N) (option str * option str) }.

Definition attribute_line (display_ : str) (source_lines : list str) (attribution : gmap (str * N) (option str * option str))
    (entry : N * option str) : option (gmap (str * N) (option str * option str)) :=
  row ← checked_sub entry.1 1;
  Some (<[(display_, entry.1) := (entry.2, source_lines !! N.to_nat row)]> attribution).
Fixpoint fold_option {A B} (f : B -> A -> option B) (b : B) (l : list A) : option B :=
  match l with
  | [] => Some b
  | x :: l' => b' ← f b x; fold_option f b' l'
  end.
Definition scan_java_file (symbol : str) (scan : JavaScan) (path : Path) : option JavaScan :=
  match read_path root path with
  | None => Some scan
  | Some source =>
      coordinates ← word_bounded_matches source symbol;
      if bool_decide (coordinates = []) then Some scan
      else
        let kinds := classify_java_sites source coordinates in
        let sites := zip_with (fun at_ kind => site_of (display path) at_.1 kind) coordinates kinds in
        enclosings ← java_enclosing_declarations source (fst <$> coordinates);
        attribution ← fold_option (attribute_line (display path) (lines source)) (js_attribution scan) (zip (fst <$> coordinates) enclosings);
        Some (mkJavaScan (js_sites scan ++ sites) attribution)
  end.
Definition scan_java (symbol : str) : Outcome JavaScan :=
  on_files (collect_java_files root) (fold_option (scan_java_file symbol) (mkJavaScan [] ∅)).

Definition attributed_line (scan : JavaScan) (path : str) (line : N) : option str * option str :=
  default (None, None) (js_attribution scan !! (path, line)).
Definition java_text_references (symbol : str) (limit : option nat) (filter_ : option SiteFilter) : Outcome (option TextReferences * nat) :=
  outcome_map (fun scan =>
    let '(sites, omitted) := filtered (js_sites scan) filter_ l_path in
    Some (if bool_decide (sites = []) then (None, omitted)
          else (Some (build_text_references_with_text symbol sites limit (attributed_line scan)), omitted))) (scan_java symbol).

Definition foreign_key (r : ForeignReference) : str * N := (fr_path r, fr_line r).
Definition java_foreign_references (symbol : str) (filter_ : option SiteFilter) : Outcome (list ForeignReference * nat) :=
  outcome_map (fun scan =>
    let '(sites, omitted) := filtered (js_sites scan) filter_ l_path in
    let references := (fun site =>
      let '(enclosing, text) := attributed_line scan (l_path site) (l_line site) in
      mkForeign (l_path site) (l_line site) enclosing text) <$> sites in
    Some (sort_by_key foreign_key references, omitted)) (scan_java symbol).

(** ** Kotlin, attributed *)

(** [skeleton_at] of [trace.rs] for a path below the root, as the answer names it. *)
Definition skeleton_at (path : str) : option (option FileSkeleton) :=
  match read_path root (split_char (ch "/") path) with
  | None => Some None
  | Some source =>
      r ← extract path source;
      Some (match r with inr skeleton => Some skeleton | inl _ => None end)
  end.
Definition skeletons_for_sites (sites : list Location) : option (list FileSkeleton) :=
  found ← mapM skeleton_at (unseen [] (l_path <$> sites)); Some (omap id found).

Definition kotlin_text_references (symbol : str) (limit : option nat) (filter_ : option SiteFilter) : Outcome (option TextReferences * nat) :=
  outcome_map (fun all =>
    let '(sites, omitted) := filtered all filter_ l_path in
    if bool_decide (sites = []) then Some (None, omitted)
    else skeletons ← skeletons_for_sites sites;
         Some (Some (build_text_references_attributed symbol sites skeletons limit), omitted)) (collect_text_sites symbol).
Definition kotlin_foreign_references (symbol : str) (filter_ : option SiteFilter) : Outcome (list ForeignReference * nat) :=
  outcome_map (fun all =>
    let '(sites, omitted) := filtered all filter_ l_path in
    skeletons ← skeletons_for_sites sites;
    let by_path := skeletons_by_path skeletons in
    let references := (fun site =>
      let enclosing := skeleton ← bt_get (l_path site) by_path; q_fqn <$> fully_qualified_enclosing skeleton (l_line site) in
      mkForeign (l_path site) (l_line site) enclosing None) <$> sites in
    Some (sort_by_key foreign_key references, omitted)) (collect_text_sites symbol).

(** ** The not-found answer *)

Definition JAVA_NOT_FOUND_SENTENCE : str :=
  lit "Java-only names and generated accessors (Lombok, AutoValue, Immutables) appear under Java text references below.".
Definition no_symbol_message (query : str) : str :=
  lit "no declaration named " ++ query ++ lit " in this workspace; library and dependency declarations are not searched, so use a text search for external types".
Definition no_symbol_message_scoped (query : str) : option str :=
  generated ← collect_generated_kotlin_files root;
  Some (if bool_decide (generated = [])
        then no_symbol_message query ++ lit ". No generated Kotlin sources were found under build/generated, so if " ++ query
             ++ lit " is generated, run the build and retry"
        else no_symbol_message query ++ lit ". Generated Kotlin sources under build/generated were also searched").

Record NotFound := mkNotFound {
  nf_symbol : str;
  nf_annotated : option AnnotatedDeclarations;
  nf_annotated_omitted : nat;
  nf_references : TextReferences;
  nf_references_omitted : nat;
  nf_java : option TextReferences;
  nf_java_omitted : nat;
  nf_filter : option SiteFilter }.

(** [present] in Markdown. *)
Definition present_not_found (n : NotFound) : option str :=
  message ← no_symbol_message_scoped (nf_symbol n);
  references ← render_text_references_with_note (nf_references n) (lit "Text references") (note (nf_filter n) (nf_references_omitted n));
  java ← (match nf_java n with
          | Some java =>
              text ← render_text_references_with_note java (lit "Java text references") (note (nf_filter n) (nf_java_omitted n));
              Some (nl ++ text)
          | None => Some []
          end);
  Some (message
        ++ (match nf_java n with Some _ => nl ++ nl ++ JAVA_NOT_FOUND_SENTENCE | None => [] end)
        ++ nl ++ nl
        ++ (match nf_annotated n with Some a => render_annotated_titled a (note (nf_filter n) (nf_annotated_omitted n)) ++ nl | None => [] end)
        ++ references ++ java).
(** What the answer is made of. *)
Definition gather_not_found (symbol : str) (limit : option nat) (filter_ : option SiteFilter) : Outcome NotFound :=
  all ← collect_text_sites symbol;
  match all with
  | inl path => Some (inl path)
  | inr all =>
      let '(sites, references_omitted) := filtered all filter_ l_path in
      let references := build_text_references symbol sites limit in
      uses ← collect_annotation_uses symbol filter_;
      match uses with
      | inl path => Some (inl path)
      | inr (uses, annotated_omitted) =>
          let annotated := if bool_decide (uses = []) then None else Some (build_annotated symbol uses) in
          outcome_map (fun '(java, java_omitted) =>
            Some (mkNotFound symbol annotated annotated_omitted references references_omitted java java_omitted filter_))
            (java_text_references symbol limit filter_)
      end
  end.
Definition not_found_outcome (symbol : str) (limit : option nat) (filter_ : option SiteFilter) : Outcome str :=
  outcome_map present_not_found (gather_not_found symbol limit filter_).
End scan.

(** ** Lemmas *)

Lemma elem_of_unseen {A} `{EqDecision A} (seen items : list A) x : x ∈ unseen seen items <-> x ∈ items /\ x ∉ seen.
Proof.
  revert seen. induction items as [|y items IH]; intros seen; cbn [unseen]; [set_solver|].
  case_decide; [set_solver|]. rewrite elem_of_cons, IH. destruct (decide (x = y)) as [->|]; set_solver.
Qed.
Lemma unseen_nodup {A} `{EqDecision A} (seen items : list A) : NoDup (unseen seen items).
Proof.
  revert seen. induction items as [|y items IH]; intros seen; cbn [unseen]; [constructor|].
  case_decide; [done|]. constructor; [|done]. rewrite elem_of_unseen. set_solver.
Qed.
Lemma nodup_app_unseen {A} `{EqDecision A} (items more : list A) : NoDup items -> NoDup (items ++ unseen items more).
Proof. intros Hn. apply NoDup_app. split_and!; [done| |apply unseen_nodup]. intros x Hx. rewrite elem_of_unseen. tauto. Qed.
Lemma elem_of_app_unseen {A} `{EqDecision A} (items more : list A) x : x ∈ items ++ unseen items more <-> x ∈ items \/ x ∈ more.
Proof. rewrite elem_of_app, elem_of_unseen. destruct (decide (x ∈ items)); tauto. Qed.

(** A scan that answers every file answers their concatenation. *)
Lemma mapM_concat {A B C} (f : A -> option (list B)) (view : B -> C) (g : A -> list C) l :
  (forall x, x ∈ l -> exists ys, f x = Some ys /\ view <$> ys = g x) ->
  exists yss, mapM f l = Some yss /\ view <$> concat yss = concat (g <$> l).
Proof.
  induction l as [|x l IH]; intros Hf; [by exists []|]. destruct (Hf x) as (ys & E & Ev); [left|].
  destruct IH as (yss & Ey & Eyss); [intros y Hy; apply Hf; by right|]. exists (ys :: yss). cbn. rewrite E. cbn. rewrite Ey. split; [done|].
  cbn. by rewrite fmap_app, Ev, Eyss.
Qed.

Lemma zip_with_length_fmap {A B C D} (f : A -> B -> C) (view : C -> D) (g : A -> D) l k :
  length l = length k -> (forall x y, view (f x y) = g x) -> view <$> zip_with f l k = g <$> l.
Proof. revert k. induction l as [|x l IH]; intros [|y k] Hl Hv; try done. cbn in *. rewrite Hv. f_equal. apply IH; [lia|done]. Qed.

Section facts.
Context `{Unicode} `{GrammarLaws} (root : Entry).

(** The occurrences of a word in one file, and the place each is shown at. *)
Definition file_hits (symbol : str) (p : Path) : list (N * N) :=
  match read_path root p with
  | Some source => default [] (word_bounded_matches source symbol)
  | None => []
  end.
Definition places (symbol : str) (p : Path) : list (str * N) := (fun hit : N * N => (display p, hit.1)) <$> file_hits symbol p.
Definition site_place (s : Location) : str * N := (l_path s, l_line s).

Lemma scan_file_some c w p : (c < 128)%N ->
  exists sites, scan_file_for_sites root (c :: w) p = Some sites /\ site_place <$> sites = places (c :: w) p.
Proof.
  intros Hc. unfold scan_file_for_sites, places, file_hits. destruct (read_path root p) as [source|]; [|by exists []].
  rewrite word_bounded_matches_some by done. cbn [mbind option_bind default from_option]. unfold id.
  case_bool_decide as E; [rewrite E; by exists []|]. destruct (classify_some source (concat (imap (fun i => word_hits (c :: w) (N.of_nat i) []) (lines source)))) as (kinds & -> & Hlen).
  eexists. split; [done|]. by apply zip_with_length_fmap.
Qed.

(** Every source that can be read is smaller than 4 GiB, so that lines and columns fit their counters. *)
Definition sized : Prop := forall p source, read_path root p = Some source -> (utf8_len source + 1 < 2 ^ 32)%N.
Lemma sized_bytes p source : sized -> read_path root p = Some source -> (utf8_len source < 2 ^ 32)%N.
Proof. intros Hs Hp%Hs. lia. Qed.

(** The occurrences of a word in one file are the places it is written whole, in order. *)
Lemma file_hits_written c w p : sized -> (c < 128)%N ->
  StronglySorted before_in (file_hits (c :: w) p) /\
  forall place, place ∈ file_hits (c :: w) p <-> exists source, read_path root p = Some source /\ written_whole source (c :: w) place.
Proof.
  intros Hsized Hc. unfold file_hits. destruct (read_path root p) as [source|] eqn:E.
  - destruct (word_matches_exact source c w (sized_bytes _ _ Hsized E) Hc) as (found & -> & Hs & Hf). cbn. split; [done|]. intros place. rewrite Hf. naive_solver.
  - split; [constructor|]. intros place. rewrite elem_of_nil. naive_solver.
Qed.

(** The files a scan reads: the Kotlin sources, then the generated ones, none twice. *)
Definition scanned_files (files generated : list Path) : list Path := files ++ unseen files generated.

Lemma scan_sources_some {A B} (scan : Path -> option (list A)) (view : A -> B) (g : Path -> list B) files :
  collect_kotlin_files root = Some (inr files) -> (forall p, exists ys, scan p = Some ys /\ view <$> ys = g p) ->
  exists generated found, collect_generated_kotlin_files root = Some generated /\ scan_sources root scan = Some (inr found) /\
    view <$> found = concat (g <$> scanned_files files generated).
Proof.
  intros Hk Hs. destruct (generated_some root) as [generated Hg]. unfold scan_sources, on_files. rewrite Hk. cbn [mbind option_bind].
  destruct (mapM_concat scan view g files) as (found & -> & Hf); [intros; apply Hs|]. cbn [mbind option_bind].
  rewrite Hg. cbn [mbind option_bind]. destruct (mapM_concat scan view g (unseen files generated)) as (more & -> & Hm); [intros; apply Hs|].
  exists generated, (concat found ++ concat more). cbn [mbind option_bind]. split_and!; [done..|].
  unfold scanned_files. by rewrite fmap_app, Hf, Hm, fmap_app, concat_app.
Qed.
End facts.

Section properties.
Context `{Unicode} `{GrammarLaws} (root : Entry).

(** C26: The scan behind a not-found answer reads every Kotlin source and every generated one exactly once
    and lists one site for each place, file by file and in source order, where a line writes the name with
    no identifier character on either side, and for no other - in a tree of valid file names, whose
    readable sources are smaller than 4 GiB, for a name that starts with an ASCII character. *)
Theorem text_sites_exact (c : char) (w : str) (files : list Path) :
  well_formed root -> sized root -> (c < 128)%N -> collect_kotlin_files root = Some (inr files) ->
  exists generated found sites, collect_generated_kotlin_files root = Some generated /\ collect_text_sites root (c :: w) = Some (inr sites) /\
    NoDup (scanned_files files generated) /\ (forall p, p ∈ scanned_files files generated <-> p ∈ files \/ p ∈ generated) /\
    Forall2 (fun p hits => StronglySorted before_in hits /\
      forall place, place ∈ hits <-> exists source, read_path root p = Some source /\ written_whole source (c :: w) place)
      (scanned_files files generated) found /\
    site_place <$> sites = concat (zip_with (fun p hits => (fun hit : N * N => (display p, hit.1)) <$> hits) (scanned_files files generated) found).
Proof.
  intros Hwf Hsized Hc Hk. destruct (scan_sources_some root (scan_file_for_sites root (c :: w)) site_place (places root (c :: w)) files Hk) as (generated & sites & Hg & Hs & Hv).
  { intros p. by apply scan_file_some. }
  exists generated, (file_hits root (c :: w) <$> scanned_files files generated), sites. split_and!; [done..| |intros p; apply elem_of_app_unseen| |].
  2: { apply Forall2_fmap_r, Forall_Forall2_diag, Forall_forall. intros p _. by apply file_hits_written. }
  2: { rewrite zip_with_fmap_r, zip_with_diag. exact Hv. }
  apply nodup_app_unseen. destruct (collect_source_files_spec root has_kotlin_extension Hwf) as (r & E & Hr).
  unfold collect_kotlin_files in Hk. rewrite E in Hk. injection Hk as ->. destruct Hr as (_ & Hsort & _). by apply ord_lt_sorted_nodup.
Qed.
End properties.

(** ** Java attribution *)

Section java.
Context `{Unicode} (root : Entry).

(** What the listing says of a line of a Java file: its enclosing declaration and its text. *)
Definition line_attribution (source : str) (line : N) : option str * option str :=
  (intervals ← enclosing_intervals source; innermost_path intervals line, lines source !! N.to_nat (line - 1)).

Lemma fold_attribution display_ source (entries : list N) attribution :
  Forall (fun line => 1 <= line)%N entries ->
  exists attribution',
    fold_option (attribute_line display_ (lines source)) attribution
      (zip entries ((fun line => (line_attribution source line).1) <$> entries)) = Some attribution' /\
    forall key, attribution' !! key =
      if decide (key.1 = display_ /\ key.2 ∈ entries) then Some (line_attribution source key.2) else attribution !! key.
Proof.
  intros Hone. revert attribution. induction Hone as [|line entries Hline Hone IH]; intros attribution.
  { exists attribution. split; [done|]. intros key. rewrite decide_False; [done|]. set_solver. }
  cbn [fmap list_fmap zip_with fold_option].
  assert (attribute_line display_ (lines source) attribution (line, (line_attribution source line).1)
    = Some (<[(display_, line) := line_attribution source line]> attribution)) as ->.
  { unfold attribute_line. cbn [fst snd]. by rewrite checked_sub_le. }
  cbn [mbind option_bind].
  match goal with |- context [fold_option _ ?m _] => destruct (IH m) as (attribution' & -> & Hl) end. exists attribution'. split; [done|].
  intros [d l]. rewrite Hl. cbn [fst snd]. destruct (decide (d = display_ /\ l ∈ entries)) as [[-> Hin]|Hno].
  { rewrite decide_True; [done|]. split; [done|by right]. }
  destruct (decide ((d, l) = (display_, line))) as [[= -> ->]|Hne].
  - rewrite lookup_insert_eq, decide_True by (split; [done|left]). done.
  - rewrite lookup_insert_ne by done. rewrite decide_False; [done|]. rewrite elem_of_cons. naive_solver.
Qed.

Lemma hit_lines_positive source c w : (utf8_len source < 2 ^ 32)%N ->
  Forall (fun line => 1 <= line)%N (fst <$> concat (imap (fun i => word_hits (c :: w) (N.of_nat i) []) (lines source))).
Proof.
  intros Hlen. apply Forall_fmap, Forall_forall. intros hit (hits & (row & line & -> & Hrow)%elem_of_lookup_imap & Hhit)%elem_of_concat.
  apply elem_of_word_hits in Hhit as (b & a & _ & -> & _); [|done]. cbn. rewrite one_based_small by by eapply lookup_row. lia.
Qed.

Lemma length_java_kinds source coordinates : length (classify_java_sites source coordinates) = length coordinates.
Proof.
  unfold classify_java_sites. match goal with |- length (foldl ?f ?k ?l) = _ => assert (forall ks, length (foldl f ks l) = length ks) as Hlen end.
  { clear. intros ks. revert ks. induction (lex source) as [|[o st] l IH]; intros ks; [done|]. cbn [foldl]. rewrite IH. case_match; [apply length_insert|done]. }
  rewrite Hlen. apply length_replicate.
Qed.

(** One Java file, read once: its sites, and its lines attributed. *)
Lemma scan_java_file_some c w scan p : sized root -> (c < 128)%N ->
  exists scan', scan_java_file root (c :: w) scan p = Some scan' /\
    site_place <$> js_sites scan' = (site_place <$> js_sites scan) ++ places root (c :: w) p /\
    forall key, js_attribution scan' !! key =
      if decide (key.1 = display p /\ key.2 ∈ fst <$> file_hits root (c :: w) p)
      then (fun source => line_attribution source key.2) <$> read_path root p else js_attribution scan !! key.
Proof.
  intros Hsized Hc. unfold scan_java_file, places, file_hits. destruct (read_path root p) as [source|] eqn:Eread.
  2: { exists scan. split; [done|]. rewrite app_nil_r. split; [done|]. intros key. rewrite decide_False; [done|]. cbn. rewrite elem_of_nil. tauto. }
  rewrite word_bounded_matches_some by done. cbn [mbind option_bind default from_option]. unfold id.
  set (hits := concat _). pose proof (hit_lines_positive source c w (sized_bytes root _ _ Hsized Eread)) as Hone. fold hits in Hone. case_bool_decide as E.
  { exists scan. split; [done|]. rewrite E. cbn. rewrite app_nil_r. split; [done|]. intros key. rewrite decide_False; [done|]. rewrite elem_of_nil. tauto. }
  unfold java_enclosing_declarations. destruct (enclosing_intervals_some source) as (intervals & Ei & _ & _). rewrite Ei. cbn [mbind option_bind].
  destruct (fold_attribution (display p) source (fst <$> hits) (js_attribution scan) Hone) as (attribution & Ea & Hl).
  assert ((fun line => (line_attribution source line).1) <$> (fst <$> hits) = innermost_path intervals <$> (fst <$> hits)) as Efst.
  { apply list_fmap_ext. intros i line _. unfold line_attribution. by rewrite Ei. }
  rewrite Efst in Ea. rewrite Ea. cbn [mbind option_bind]. eexists. split; [done|]. cbn [js_sites js_attribution]. split.
  - rewrite fmap_app. f_equal. apply zip_with_length_fmap; [|done]. symmetry. apply length_java_kinds.
  - intros key. rewrite Hl. done.
Qed.

Lemma scan_java_files c w : sized root -> (c < 128)%N -> forall files scan, NoDup (display <$> files) ->
  exists scan', fold_option (scan_java_file root (c :: w)) scan files = Some scan' /\
    site_place <$> js_sites scan' = (site_place <$> js_sites scan) ++ concat (places root (c :: w) <$> files) /\
    (forall p line, p ∈ files -> line ∈ fst <$> file_hits root (c :: w) p ->
      js_attribution scan' !! (display p, line) = (fun source => line_attribution source line) <$> read_path root p) /\
    (forall key, key.1 ∉ display <$> files -> js_attribution scan' !! key = js_attribution scan !! key).
Proof.
  intros Hsized Hc files. induction files as [|p files IH]; intros scan Hn.
  { exists scan. cbn. rewrite app_nil_r. split_and!; [done..|intros ? ? []%elem_of_nil|done]. }
  apply NoDup_cons in Hn as [Hp Hn]. cbn [fold_option fmap list_fmap concat].
  destruct (scan_java_file_some c w scan p Hsized Hc) as (scan1 & -> & Hs1 & Ha1). cbn [mbind option_bind].
  destruct (IH scan1 Hn) as (scan' & -> & Hs & Ha & Hother). exists scan'. split_and!; [done| | |].
  - rewrite Hs, Hs1. by rewrite app_assoc.
  - intros q line [->|Hq]%elem_of_cons Hline; [|by apply Ha]. rewrite Hother by done. rewrite Ha1. by rewrite decide_True.
  - intros key Hk. rewrite not_elem_of_cons in Hk. destruct Hk as [Hk Hk']. rewrite Hother by done. rewrite Ha1, decide_False by tauto. done.
Qed.

Definition keeps (filter_ : option SiteFilter) (path : str) : bool := match filter_ with Some f => matches_path f path | None => true end.
Lemma filtered_spec {A} (items : list A) filter_ path_of :
  filtered items filter_ path_of = (filter (fun i => keeps filter_ (path_of i) = true) items,
    length items - length (filter (fun i => keeps filter_ (path_of i) = true) items)).
Proof.
  destruct filter_ as [f|]; [done|]. cbn. rewrite filter_all by (by apply Forall_forall). by rewrite Nat.sub_diag.
Qed.

(** One line of a Java file as a bundle carries it, and all of them. *)
Definition java_reference (p : Path) (line : N) : ForeignReference :=
  let '(enclosing, text) := default (None, None) ((fun source => line_attribution source line) <$> read_path root p) in
  mkForeign (display p) line enclosing text.
Definition java_references (symbol : str) (files : list Path) : list ForeignReference :=
  concat ((fun p => (fun hit : N * N => java_reference p hit.1) <$> file_hits root symbol p) <$> files).

Lemma display_inj p q : p <> [] -> q <> [] -> Forall valid_name p -> Forall valid_name q -> display p = display q -> p = q.
Proof.
  intros Hp Hq Vp Vq E. apply (f_equal (split_char (ch "/"))) in E. unfold display in E. rewrite Forall_forall in Vp, Vq.
  rewrite !split_join in E; try done; intros n Hn; [by apply Vq in Hn as []|by apply Vp in Hn as []].
Qed.
Lemma collected_displays keep files : well_formed root -> collect_source_files root keep = Some (inr files) -> NoDup (display <$> files).
Proof.
  intros Hwf Hc. destruct (collect_source_files_spec root keep Hwf) as (r & E & Hr). rewrite E in Hc. injection Hc as ->.
  destruct Hr as (Hok & Hsort & Hp). assert (forall p, p ∈ files -> p <> [] /\ Forall valid_name p) as Hv.
  { intros p Hin. rewrite Hp in Hin. apply elem_of_collected in Hin as (q & name & l & c & -> & Hat & Hin & _); [|done].
    split; [by destruct q|by eapply listing_names]. }
  apply ord_lt_sorted_nodup in Hsort. clear -Hsort Hv. induction Hsort as [|p files Hp Hn IH]; [constructor|]. csimpl. constructor.
  - intros (q & E & Hq)%list_elem_of_fmap. assert (p = q) as -> by (apply display_inj; try done; apply Hv; (by left) || (by right)). done.
  - apply IH. intros q Hq. apply Hv. by right.
Qed.

(** The Java lines a bundle carries are exact: every place a Java source writes the name as a whole
    word, kept by the filter, with the declaration the enclosing scan finds for its line and that line's
    text, ordered by path then line; the filter's count is everything else. *)
Theorem java_foreign_references_exact (c : char) (w : str) (filter_ : option SiteFilter) (files : list Path) :
  well_formed root -> sized root -> (c < 128)%N -> collect_java_files root = Some (inr files) ->
  exists references omitted, java_foreign_references root (c :: w) filter_ = Some (inr (references, omitted)) /\
    StronglySorted (fun a b => ord_le (foreign_key a) (foreign_key b)) references /\
    references ≡ₚ filter (fun r => keeps filter_ (fr_path r) = true) (java_references (c :: w) files) /\
    length references + omitted = length (java_references (c :: w) files).
Proof.
  intros Hwf Hsized Hc Hf. destruct (scan_java_files c w Hsized Hc files (mkJavaScan [] ∅)) as (scan & Es & Hs & Ha & _); [by eapply collected_displays|].
  unfold java_foreign_references, scan_java, on_files, outcome_map. rewrite Hf. cbn [mbind option_bind]. rewrite Es. cbn [mbind option_bind].
  rewrite filtered_spec. set (attribute := fun site => let '(enclosing, text) := attributed_line scan (l_path site) (l_line site) in mkForeign (l_path site) (l_line site) enclosing text). eexists _, _. split; [done|].
  assert (attribute <$> js_sites scan = java_references (c :: w) files) as Hall.
  { assert (attribute <$> js_sites scan = (fun place : str * N => let '(enclosing, text) := attributed_line scan place.1 place.2 in mkForeign place.1 place.2 enclosing text)
      <$> (site_place <$> js_sites scan)) as -> by (by rewrite <- list_fmap_compose).
    rewrite Hs. cbn [js_sites fmap list_fmap app]. clear Hs Es Hf. unfold java_references. induction files as [|p files IH]; [done|].
    csimpl. rewrite fmap_app. f_equal.
    - unfold places. rewrite <- list_fmap_compose. apply list_fmap_ext. intros i hit Hhit%list_elem_of_lookup_2. unfold compose, java_reference, attributed_line. cbn [fst snd].
      rewrite Ha; [done|left|]. apply list_elem_of_fmap. by exists hit.
    - apply IH. intros q line Hq. apply Ha. by right. }
  assert (filter (fun r => keeps filter_ (fr_path r) = true) (java_references (c :: w) files) =
    attribute <$> filter (fun site => keeps filter_ (l_path site) = true) (js_sites scan)) as Efilter.
  { rewrite <- Hall. apply filter_fmap. intros site. unfold attribute. by destruct (attributed_line _ _ _). }
  split_and!.
  - apply sort_by_key_sorted.
  - by rewrite sort_by_key_perm, Efilter.
  - rewrite sort_by_key_perm, length_fmap, <- Hall, length_fmap. pose proof (length_filter (fun site => keeps filter_ (l_path site) = true) (js_sites scan)). lia.
Qed.
End java.

(** ** Kotlin attribution *)

Section kotlin.
Context `{Unicode} `{GrammarLaws} (root : Entry).

Definition file_skeleton (d : str) : option FileSkeleton := default None (skeleton_at root d).
Definition file_enclosing (p : Path) (line : N) : option str :=
  skeleton ← file_skeleton (display p); q_fqn <$> fully_qualified_enclosing skeleton line.
Definition kotlin_reference (p : Path) (line : N) : ForeignReference := mkForeign (display p) line (file_enclosing p line) None.
Definition kotlin_references (symbol : str) (files : list Path) : list ForeignReference :=
  concat ((fun p => (fun hit : N * N => kotlin_reference p hit.1) <$> file_hits root symbol p) <$> files).

Lemma skeleton_at_some d : skeleton_at root d = Some (file_skeleton d).
Proof.
  unfold file_skeleton, skeleton_at. destruct (read_path root _) as [source|]; [|done].
  destruct (extract_some d source) as [r ->]. done.
Qed.
Lemma file_skeleton_path d s : file_skeleton d = Some s -> fs_path s = d.
Proof.
  unfold file_skeleton, skeleton_at. destruct (read_path root _) as [source|]; [|done].
  destruct (extract_some d source) as [[e|f] E]; rewrite E; cbn; [done|]. intros [= ->]. by eapply extract_path.
Qed.

Lemma skeletons_lookup (paths : list str) d : NoDup paths ->
  bt_get d (skeletons_by_path (omap id (file_skeleton <$> paths))) = if decide (d ∈ paths) then file_skeleton d else None.
Proof.
  intros Hn. unfold skeletons_by_path. set (l := (fun s => (fs_path s, s)) <$> omap id (file_skeleton <$> paths)).
  assert (forall k s, (k, s) ∈ l <-> k ∈ paths /\ file_skeleton k = Some s) as Hl.
  { intros k s. unfold l. rewrite list_elem_of_fmap. setoid_rewrite list_elem_of_omap. setoid_rewrite list_elem_of_fmap. split.
    - intros (s' & [= -> ->] & o & (k' & -> & Hk') & E). cbn in E. by rewrite (file_skeleton_path _ _ E).
    - intros [Hk E]. exists s. split; [by rewrite (file_skeleton_path _ _ E)|]. exists (file_skeleton k). split; [by exists k|by rewrite E]. }
  assert (NoDup l.*1) as Hnl.
  { unfold l. clear Hl. induction Hn as [|k paths Hk Hn IH]; [constructor|]. csimpl. unfold id at 1. destruct (file_skeleton k) as [s|] eqn:E; [|done].
    csimpl. constructor; [|done]. rewrite (file_skeleton_path _ _ E). intros (e & -> & (s' & -> & (o & (k' & -> & Hk')%list_elem_of_fmap & Eo)%list_elem_of_omap)%list_elem_of_fmap)%list_elem_of_fmap.
    cbn in Eo, Hk. rewrite (file_skeleton_path _ _ Eo) in Hk. done. }
  case_decide as Hd.
  - destruct (file_skeleton d) as [s|] eqn:E; [by apply bt_of_list_get, Hl|].
    destruct (bt_get d (bt_of_list l)) as [s|] eqn:Eg; [|done]. apply bt_of_list_get, Hl in Eg as [_ Eg]; [congruence|done].
  - destruct (bt_get d (bt_of_list l)) as [s|] eqn:Eg; [|done]. apply bt_of_list_get, Hl in Eg as [Eg _]; done.
Qed.

(** The Kotlin lines a bundle carries for a Java definition are exact: every place a Kotlin source, or
    a generated one, writes the name as a whole word, kept by the filter, each under the qualified name
    of the declaration of its own file that encloses the line; the filter's count is everything else. *)
Theorem kotlin_foreign_references_exact (c : char) (w : str) (filter_ : option SiteFilter) (files : list Path) :
  (c < 128)%N -> collect_kotlin_files root = Some (inr files) ->
  exists generated references omitted, collect_generated_kotlin_files root = Some generated /\
    kotlin_foreign_references root (c :: w) filter_ = Some (inr (references, omitted)) /\
    StronglySorted (fun a b => ord_le (foreign_key a) (foreign_key b)) references /\
    references ≡ₚ filter (fun r => keeps filter_ (fr_path r) = true) (kotlin_references (c :: w) (scanned_files files generated)) /\
    length references + omitted = length (kotlin_references (c :: w) (scanned_files files generated)).
Proof.
  intros Hc Hk. destruct (scan_sources_some root (scan_file_for_sites root (c :: w)) site_place (places root (c :: w)) files Hk) as (generated & sites & Hg & Hs & Hv).
  { intros p. by apply scan_file_some. }
  exists generated. unfold kotlin_foreign_references, collect_text_sites, outcome_map. rewrite Hs. cbn [mbind option_bind]. rewrite filtered_spec.
  set (kept := filter _ sites). unfold skeletons_for_sites.
  assert (mapM (skeleton_at root) (unseen [] (l_path <$> kept)) = Some (file_skeleton <$> unseen [] (l_path <$> kept))) as ->.
  { apply mapM_Some, Forall2_fmap_r, Forall_Forall2_diag, Forall_forall. intros d _. apply skeleton_at_some. }
  cbn [mbind option_bind]. eexists _, _. split; [done|]. split; [done|].
  set (full := fun site : Location => mkForeign (l_path site) (l_line site) (skeleton ← file_skeleton (l_path site); q_fqn <$> fully_qualified_enclosing skeleton (l_line site)) None).
  match goal with |- context [sort_by_key foreign_key (?f <$> kept)] => assert (f <$> kept = full <$> kept) as -> end.
  { apply list_fmap_ext. intros i site Hsite%list_elem_of_lookup_2. unfold full. do 2 f_equal. rewrite skeletons_lookup by apply unseen_nodup.
    rewrite decide_True; [done|]. apply elem_of_unseen. split; [|apply not_elem_of_nil]. apply list_elem_of_fmap. by exists site. }
  assert (full <$> sites = kotlin_references (c :: w) (scanned_files files generated)) as Hall.
  { assert (full <$> sites = (fun place : str * N => mkForeign place.1 place.2 (skeleton ← file_skeleton place.1; q_fqn <$> fully_qualified_enclosing skeleton place.2) None)
      <$> (site_place <$> sites)) as -> by (by rewrite <- list_fmap_compose).
    rewrite Hv. clear Hv. unfold kotlin_references. induction (scanned_files files generated) as [|p ps IH]; [done|]. csimpl. rewrite fmap_app, IH. f_equal.
    unfold places. rewrite <- list_fmap_compose. done. }
  split_and!.
  - apply sort_by_key_sorted.
  - rewrite sort_by_key_perm, <- Hall. by rewrite (filter_fmap full _ (fun site => keeps filter_ (l_path site) = true)).
  - rewrite sort_by_key_perm, length_fmap, <- Hall, length_fmap. pose proof (length_filter (fun site => keeps filter_ (l_path site) = true) sites). unfold kept. lia.
Qed.
End kotlin.

(** ** Witnesses *)

(** A test of [sized]. *)
Fixpoint light (room : nat) (e : Entry) : bool :=
  match room with
  | O => false
  | S room' =>
      match read_to_string e with Some source => (utf8_len source + 1 <? 2 ^ 32)%N | None => true end
      && match read_children e with Some l => forallb (fun entry => light room' entry.2) l | None => true end
  end.
Lemma light_sized room root : light room root = true -> sized root.
Proof.
  intros Hl p source. unfold read_path. revert room root Hl. induction p as [|name p IH]; intros [|room] root; cbn [light entry_at]; try done;
    intros [Hr Hc]%andb_true_iff.
  - cbn. destruct (read_to_string root); [|done]. intros [= ->]. by apply N.ltb_lt.
  - destruct (read_children root) as [l|]; [|done]. cbn [mbind option_bind]. destruct (child_named name l) as [e|] eqn:E; [|done]. cbn [mbind option_bind].
    apply (IH room). unfold child_named in E. destruct (find _ l) as [[n e']|] eqn:Ef; [|done]. injection E as ->.
    apply find_some in Ef as [Hin _]. rewrite forallb_forall in Hc. by apply (Hc (n, e)).
Qed.

Definition cart_shop : Entry :=
  Directory (Some [
    (lit "j", Directory (Some [(lit "A.java", File (Some (lit "class A {" ++ [10%N] ++ lit "  void run() { put(1); }" ++ [10%N] ++ lit "}" ++ [10%N])))]));
    (lit "k", Directory (Some [(lit "Cart.kt", File (Some demo_source))]))]).
Lemma cart_shop_well_formed : well_formed cart_shop.
Proof. apply (tidy_well_formed 3). vm_compute. reflexivity. Qed.
Lemma cart_shop_sized : sized cart_shop.
Proof. apply (light_sized 4). vm_compute. reflexivity. Qed.
Lemma cart_shop_kotlin : collect_kotlin_files cart_shop = Some (inr [[lit "k"; lit "Cart.kt"]]).
Proof. vm_compute. reflexivity. Qed.
Lemma cart_shop_java : collect_java_files cart_shop = Some (inr [[lit "j"; lit "A.java"]]).
Proof. vm_compute. reflexivity. Qed.

Lemma text_sites_exact_witness :
  (well_formed cart_shop /\ sized cart_shop /\ (ch "C" < 128)%N /\ collect_kotlin_files cart_shop = Some (inr [[lit "k"; lit "Cart.kt"]])) /\
  exists (found : list (list (N * N))) sites, @collect_text_sites pointing_grammar cart_shop (lit "Cart") = Some (inr sites) /\
    Forall2 (fun p hits => forall place, place ∈ hits <-> exists source, read_path cart_shop p = Some source /\ written_whole source (lit "Cart") place)
      [[lit "k"; lit "Cart.kt"]] found /\ site_place <$> sites = [(lit "k/Cart.kt", 1%N)].
Proof.
  split; [split; [exact cart_shop_well_formed|split; [exact cart_shop_sized|split; [reflexivity|exact cart_shop_kotlin]]]|].
  destruct (@text_sites_exact pointing_grammar pointing_laws cart_shop (ch "C") (lit "art") [[lit "k"; lit "Cart.kt"]] cart_shop_well_formed cart_shop_sized)
    as (g & found & sites & Eg & Es & _ & _ & Hf & Hs); [reflexivity|exact cart_shop_kotlin|].
  assert (g = []) as -> by (vm_compute in Eg; by injection Eg as <-). exists found, sites. split; [exact Es|]. split.
  - apply (Forall2_impl _ _ _ _ Hf). intros p hits [_ H]. exact H.
  - vm_compute in Es. injection Es as <-. reflexivity.
Defined.
Lemma java_foreign_references_exact_witness :
  (well_formed cart_shop /\ sized cart_shop /\ (ch "p" < 128)%N /\ collect_java_files cart_shop = Some (inr [[lit "j"; lit "A.java"]])) /\
  exists omitted, @java_foreign_references latin1_unicode cart_shop (lit "put") None =
    Some (inr ([mkForeign (lit "j/A.java") 2 (Some (lit "A.run")) (Some (lit "  void run() { put(1); }"))], omitted)).
Proof.
  split; [split; [exact cart_shop_well_formed|split; [exact cart_shop_sized|split; [reflexivity|exact cart_shop_java]]]|].
  destruct (@java_foreign_references_exact latin1_unicode cart_shop (ch "p") (lit "ut") None [[lit "j"; lit "A.java"]] cart_shop_well_formed cart_shop_sized)
    as (references & omitted & E & _ & Hp & _); [reflexivity|exact cart_shop_java|].
  exists omitted. etransitivity; [exact E|]. do 3 f_equal. vm_compute in Hp. apply Permutation_singleton_r in Hp. exact Hp.
Defined.
Lemma kotlin_foreign_references_exact_witness :
  ((ch "C" < 128)%N /\ collect_kotlin_files cart_shop = Some (inr [[lit "k"; lit "Cart.kt"]])) /\
  exists references omitted, @kotlin_foreign_references latin1_unicode pointing_grammar cart_shop (lit "Cart") None = Some (inr (references, omitted)) /\
    foreign_key <$> references = [(lit "k/Cart.kt", 1%N)].
Proof.
  split; [split; [reflexivity|exact cart_shop_kotlin]|].
  destruct (@kotlin_foreign_references_exact latin1_unicode pointing_grammar pointing_laws cart_shop (ch "C") (lit "art") None [[lit "k"; lit "Cart.kt"]])
    as (g & references & omitted & Eg & E & _ & Hp & _); [reflexivity|exact cart_shop_kotlin|].
  exists references, omitted. split; [exact E|]. assert (g = []) as -> by (vm_compute in Eg; by injection Eg as <-). vm_compute in Hp.
  apply Permutation_singleton_r in Hp. rewrite Hp. vm_compute. reflexivity.
Defined.

(** ** The not-found answer is always given *)

Section not_found.
Context `{Unicode} `{GrammarLaws} (root : Entry).

Lemma scan_annotations_some c w p : (c < 128)%N ->
  exists found, scan_file_for_annotations root (c :: w) p = Some found.
Proof.
  intros Hc. unfold scan_file_for_annotations. destruct (read_path root p) as [source|]; [|by eexists].
  rewrite word_bounded_matches_some by done. cbn [mbind option_bind]. case_bool_decide; [by eexists|].
  unfold annotated_declarations. destruct (extract_some (display p) source) as [r ->]. by eexists.
Qed.

Lemma present_safe n : all_safe (nf_symbol n) -> (forall f, nf_filter n = Some f -> filter_safe f) ->
  refs_built (nf_references n) -> (forall r, nf_java n = Some r -> refs_built r) -> (forall a, nf_annotated n = Some a -> all_safe (ad_precision a)) ->
  exists text, present_not_found root n = Some text /\ doc_safe text /\ no_symbol_message (nf_symbol n) `prefix_of` text.
Proof.
  intros Hs Hf Hr Hj Ha. unfold present_not_found, no_symbol_message_scoped. destruct (generated_some root) as [generated ->]. cbn [mbind option_bind].
  assert (forall k, all_safe (note (nf_filter n) k)) as Hnote.
  { intros k. unfold note. destruct (nf_filter n) as [f|]; [by apply filter_note_safe, Hf|constructor]. }
  destruct (text_references_safe (nf_references n) (lit "Text references") (note (nf_filter n) (nf_references_omitted n)) Hr) as (text & -> & Ht);
    [by apply safe_by_test|done|]. cbn [mbind option_bind].
  assert (exists java, (match nf_java n with
    | Some java => text ← render_text_references_with_note java (lit "Java text references") (note (nf_filter n) (nf_java_omitted n)); Some (nl ++ text)
    | None => Some [] end) = Some java /\ doc_safe java) as (java & -> & Hjava).
  { destruct (nf_java n) as [refs|]; [|by eexists; split; [done|constructor]].
    destruct (text_references_safe refs (lit "Java text references") (note (nf_filter n) (nf_java_omitted n)) (Hj refs eq_refl)) as (t & -> & Ht'); [by apply safe_by_test|done|].
    eexists. split; [done|]. apply doc_safe_app; [apply doc_nl|done]. }
  cbn [mbind option_bind]. eexists. split; [reflexivity|]. split.
  - assert (doc_safe JAVA_NOT_FOUND_SENTENCE) as Hj' by (apply doc_of_safe; by apply safe_by_test).
    assert (doc_safe (no_symbol_message (nf_symbol n))) as Hm by (unfold no_symbol_message; doc).
    repeat apply doc_safe_app; try done; try apply doc_nl.
    + case_bool_decide; repeat apply doc_safe_app; try done; doc.
    + destruct (nf_java n); repeat apply doc_safe_app; try done; try apply doc_nl; constructor.
    + destruct (nf_annotated n) as [a|]; [|constructor]. apply doc_safe_app; [by apply annotated_safe; [apply Ha|]|apply doc_nl].
  - case_bool_decide; rewrite <- !app_assoc; by eexists.
Qed.

(** A name nothing declares always gets its answer: when the Kotlin and Java sources can be walked, the
    command neither fails nor panics, its answer opens with the not-found sentence, and for a printable
    name no line of it can break the layout or reorder what is read. *)
Theorem not_found_answers (c : char) (w : str) (limit : option nat) (filter_ : option SiteFilter) (files java_files : list Path) :
  well_formed root -> sized root -> (c < 128)%N -> collect_kotlin_files root = Some (inr files) -> collect_java_files root = Some (inr java_files) ->
  all_safe (c :: w) -> (forall f, filter_ = Some f -> filter_safe f) ->
  exists text, not_found_outcome root (c :: w) limit filter_ = Some (inr text) /\ doc_safe text /\ no_symbol_message (c :: w) `prefix_of` text.
Proof.
  intros Hwf Hsized Hc Hk Hj Hs Hf.
  destruct (scan_sources_some root (scan_file_for_sites root (c :: w)) site_place (places root (c :: w)) files Hk) as (generated & sites & _ & E & _).
  { intros p. by apply scan_file_some. }
  destruct (scan_sources_some root (scan_file_for_annotations root (c :: w)) (fun a => a) (fun p => default [] (scan_file_for_annotations root (c :: w) p)) files Hk)
    as (_ & uses & _ & Eu & _).
  { intros p. destruct (scan_annotations_some c w p Hc) as [found Ef]. exists found. split; [done|]. rewrite Ef. cbn. by rewrite list_fmap_id. }
  destruct (scan_java_files root c w Hsized Hc java_files (mkJavaScan [] ∅)) as (scan & Es & _); [by eapply collected_displays|].
  unfold not_found_outcome, gather_not_found, collect_text_sites, collect_annotation_uses, java_text_references, scan_java, on_files, outcome_map.
  rewrite E. cbn [mbind option_bind]. rewrite (filtered_spec sites). cbn beta iota. rewrite Eu. cbn [mbind option_bind].
  rewrite (filtered_spec uses). cbn beta iota. rewrite Hj. cbn [mbind option_bind]. rewrite Es. cbn [mbind option_bind].
  rewrite (filtered_spec (js_sites scan)). cbn beta iota.
  destruct (bool_decide (filter _ (js_sites scan) = [])); cbn [mbind option_bind];
    (match goal with |- context [present_not_found root ?n] => destruct (present_safe n) as (text & -> & Ht & Hp) end;
     [done|done|apply build_grouped_built| | |by exists text]); cbn [nf_java nf_annotated].
  1, 3: by intros r; try (intros [= <-]; apply build_grouped_built).
  all: intros a; case_bool_decide; [done|]; intros [= <-]; apply precision_safe.
Qed.
End not_found.
Lemma not_found_answers_witness :
  (well_formed cart_shop /\ sized cart_shop /\ (ch "p" < 128)%N /\ collect_kotlin_files cart_shop = Some (inr [[lit "k"; lit "Cart.kt"]]) /\
   collect_java_files cart_shop = Some (inr [[lit "j"; lit "A.java"]]) /\ all_safe (lit "put")) /\
  exists text, @not_found_outcome latin1_unicode pointing_grammar cart_shop (lit "put") None None = Some (inr text) /\ doc_safe text.
Proof.
  assert (all_safe (lit "put")) as Hs by (apply safe_by_test; reflexivity).
  split; [split; [exact cart_shop_well_formed|split; [exact cart_shop_sized|split; [reflexivity|split; [exact cart_shop_kotlin|split; [exact cart_shop_java|exact Hs]]]]]|].
  destruct (@not_found_answers latin1_unicode pointing_grammar pointing_laws cart_shop (ch "p") (lit "ut") None None [[lit "k"; lit "Cart.kt"]] [[lit "j"; lit "A.java"]] cart_shop_well_formed cart_shop_sized)
    as (text & E & Ht & _); [reflexivity|exact cart_shop_kotlin|exact cart_shop_java|exact Hs|discriminate|].
  exists text. split; [exact E|exact Ht].
Defined.
