(* ===== verification/Symbols.v ===== *)
(** * Symbols: resolving a name to declarations

    Models [crates/ktsense-cli/src/symbols.rs]: the enrichment of the engine's locations from the file they
    point at, the ambiguity contract shared with [trace] and [context], and the syntax index behind
    [--contains] and exact names the engine does not know. Reading a file and resolving a path belong to
    the file system and are arguments; a JSON answer is kept as the value it serializes. *)
From S2P Require Import Prelude Collections Text Skeleton References Query JavaText JavaEnclosing JavaDeclarations Trace Render Lines Answers Files Cst Extract Scan.

Set Default Proof Using "Type*".

(** ** Data *)

(** A location of the engine. *)
Record SymbolCandidate := mkSymbolCandidate { c_name : str; c_file : str; c_line : N; c_col : N }.
Record ResolvedSymbol := mkResolved {
  r_fqn : str;
  r_kind : str;
  r_file : str;
  r_line : N;
  r_signature : str;
  r_local : bool;
  r_entries : list str;
  r_properties : list NamedProperty;
  r_generated : bool }.
Definition resolved_new (fqn kind file : str) (line : N) (signature : str) (local generated : bool) : ResolvedSymbol :=
  mkResolved fqn kind file line signature local [] [] generated.

Inductive KindFilter := KClass | KInterface | KObject | KFun | KVal | KVar | KTypealias | KConstructor.
Definition kind_filter_label (k : KindFilter) : str :=
  match k with
  | KClass => lit "class" | KInterface => lit "interface" | KObject => lit "object" | KFun => lit "fun"
  | KVal => lit "val" | KVar => lit "var" | KTypealias => lit "typealias" | KConstructor => lit "constructor"
  end.
Definition matches_kind (r : ResolvedSymbol) (filter_ : KindFilter) : bool := bool_decide (r_kind r = kind_filter_label filter_).

Inductive Format := Md | Json | Dot.
Inductive Exit := Success | Failure | Usage | AmbiguousExit | Unimplemented.
Definition exit_code (e : Exit) : N :=
  match e with Success => 0 | Failure => 1 | Usage => 2 | AmbiguousExit => 3 | Unimplemented => 70 end%N.

Inductive AnswerText := MarkdownText (text : str) | JsonSymbols (rows : list ResolvedSymbol) | JsonContains (rows : list ResolvedSymbol) (more_matches : nat).
Record SymbolsOutcome := mkOutcome { sy_text : AnswerText; sy_exit : Exit; sy_stderr : option str }.
Inductive SymbolError := PickMissed (pick : str) | NoSymbol (query : str) | NoSymbolScoped (query : str) | UnsupportedFormat | CannotRead (path : Path).
Definition with_stderr (o : SymbolsOutcome) (stderr : str) : SymbolsOutcome := mkOutcome (sy_text o) (sy_exit o) (Some stderr).
Definition noting_ignored (o : SymbolsOutcome) (ignored : nat) (format : Format) : SymbolsOutcome :=
  match sy_text o, format with
  | MarkdownText text, Md =>
      if 0 <? ignored then
        mkOutcome (MarkdownText (text ++ nl ++ lit "ignored: " ++ num ignored ++ lit " engine "
          ++ (if ignored =? 1 then lit "result" else lit "results") ++ lit " inside ignored directories such as bin/" ++ nl)) (sy_exit o) (sy_stderr o)
      else o
  | _, _ => o
  end.

(** ** Looking a location up in a skeleton *)

Definition kind_label (kind : DeclKind) : str :=
  match kind with EnumEntry => lit "enum-entry" | other => decl_keyword other end.
Definition fqn (package : option str) (ancestors : list str) (name : str) : str :=
  join [ch "."] (option_list package ++ filter (fun part => part ≠ []) ancestors ++ [name]).
Definition signature_of (path : str) (d : Declaration) : str :=
  let header := mkDecl (d_kind d) (d_name d) (d_receiver d) (d_line d) (d_visibility d) (d_annotations d)
    (d_modifiers d) (d_type_parameters d) (d_parameters d) (d_constructor_visibility d) (d_return_type d)
    (d_type_inferred d) (d_supertypes d) (d_type_constraints d) (d_doc d) [] in
  let skeleton := mkFile path None [] [header] false false in
  trim (default [] (head (lines (render_skeleton skeleton (with_private options_default))))).

Record Located := mkLocated { lc_declaration : Declaration; lc_ancestors : list str }.
(** [walk]: whether the search may stop, and the best declaration so far. *)
Fixpoint locate_in (name : str) (line : N) (ancestors : list str) (d : Declaration) (best : option Located) : bool * option Located :=
  let candidate := mkLocated d ancestors in
  if bool_decide (d_name d = name) && (d_line d =? line)%N then (true, Some candidate)
  else
    let best := if bool_decide (d_name d = name) then match best with Some b => Some b | None => Some candidate end else best in
    (fix children (ds : list Declaration) (best : option Located) : bool * option Located :=
       match ds with
       | [] => (false, best)
       | child :: ds' =>
           let '(found, best) := locate_in name line (ancestors ++ [d_name d]) child best in
           if found : bool then (true, best) else children ds' best
       end) (d_children d) best.
Fixpoint locate_among (name : str) (line : N) (ancestors : list str) (ds : list Declaration) (best : option Located) : bool * option Located :=
  match ds with
  | [] => (false, best)
  | d :: ds' =>
      let '(found, best) := locate_in name line ancestors d best in
      if found : bool then (true, best) else locate_among name line ancestors ds' best
  end.
Definition locate (skeleton : FileSkeleton) (name : str) (line : N) : option Located :=
  snd (locate_among name line [] (fs_declarations skeleton) None).

(** ** Enrichment *)

Definition simple_name_of (fqn : str) : str := last_piece (ch ".") fqn.
Definition is_java_type_kind (kind : str) : bool :=
  bool_decide (kind ∈ [lit "class"; lit "interface"; lit "enum"; lit "record"; lit "@interface"]).
Definition is_java (file : str) : bool := ends_with file (lit ".java").

Section enrichment.
Context `{Unicode} `{Grammar} (canonicalize : FsPath -> option FsPath) (read_file : FsPath -> option str) (root : FsPath).

Definition bare (display_ : str) (candidate : SymbolCandidate) : ResolvedSymbol :=
  resolved_new (c_name candidate) (lit "symbol") display_ (c_line candidate) [] false false.
Definition enrich_java (display_ source : str) (candidate : SymbolCandidate) : option (option ResolvedSymbol) :=
  declarations ← java_declarations source;
  let found := match find (fun d => bool_decide (jd_name d = c_name candidate) && (jd_line d =? c_line candidate)%N) declarations with
               | Some d => Some d
               | None => find (fun d => bool_decide (jd_name d = c_name candidate)) declarations
               end in
  match found with
  | None => Some None
  | Some d =>
      package ← java_package source;
      Some (Some (resolved_new (fqn package (jd_enclosing d) (jd_name d)) (label (jd_kind d)) display_ (c_line candidate) (jd_signature d) false false))
  end.
Definition local_declaration (display_ source : str) (candidate : SymbolCandidate) : option (option ResolvedSymbol) :=
  local ← locate_local source (c_name candidate) (c_line candidate);
  Some (match local with
        | Some l => Some (resolved_new (fqn (lo_package l) (lo_ancestors l) (d_name (lo_declaration l))) (kind_label (d_kind (lo_declaration l)))
                            display_ (c_line candidate) (signature_of display_ (lo_declaration l)) true false)
        | None => None
        end).
Definition enrich (candidate : SymbolCandidate) : option ResolvedSymbol :=
  let file := parse_path (c_file candidate) in
  let display_ := normalized_path canonicalize root file in
  match read_file file with
  | None => Some (bare display_ candidate)
  | Some source =>
      if is_java (c_file candidate) then found ← enrich_java display_ source candidate; Some (default (bare display_ candidate) found)
      else
        r ← extract display_ source;
        match r with
        | inl _ => Some (bare display_ candidate)
        | inr skeleton =>
            match locate skeleton (c_name candidate) (c_line candidate) with
            | Some found =>
                let d := lc_declaration found in
                Some (resolved_new (fqn (fs_package skeleton) (lc_ancestors found) (d_name d)) (kind_label (d_kind d)) display_ (c_line candidate)
                        (signature_of display_ d) false false)
            | None => found ← local_declaration display_ source candidate; Some (default (bare display_ candidate) found)
            end
        end
  end.

Abbreviation Enriched := (SymbolCandidate * ResolvedSymbol)%type.
Definition java_types (enriched : list Enriched) : list (str * str) :=
  (fun e => (r_file e.2, simple_name_of (r_fqn e.2))) <$> filter (fun e => is_java (r_file e.2) && is_java_type_kind (r_kind e.2) = true) enriched.
Definition is_folded (types : list (str * str)) (e : Enriched) : bool :=
  is_java (r_file e.2) && bool_decide (r_kind e.2 = lit "constructor") && bool_decide ((r_file e.2, simple_name_of (r_fqn e.2)) ∈ types).
Definition fold_java_constructors (enriched : list Enriched) : list Enriched :=
  filter (fun e => is_folded (java_types enriched) e = false) enriched.
Definition enriched_key (e : Enriched) : str * str * N * N := (r_fqn e.2, r_file e.2, r_line e.2, c_col e.1).
Definition enrich_sorted (candidates : list SymbolCandidate) : option (list Enriched) :=
  enriched ← mapM (fun candidate => resolved ← enrich candidate; Some (candidate, resolved)) candidates;
  Some (sort_by_key enriched_key (fold_java_constructors enriched)).

(** [attach_members]. *)
Definition attach_members (r : ResolvedSymbol) : option ResolvedSymbol :=
  match read_file (path_join root (parse_path (r_file r))) with
  | None => Some r
  | Some source =>
      e ← extract (r_file r) source;
      Some (match e with
            | inl _ => r
            | inr skeleton =>
                match locate skeleton (simple_name_of (r_fqn r)) (r_line r) with
                | Some found =>
                    mkResolved (r_fqn r) (r_kind r) (r_file r) (r_line r) (r_signature r) (r_local r)
                      (enum_entries (lc_declaration found)) (data_class_properties (lc_declaration found)) (r_generated r)
                | None => r
                end
            end)
  end.
End enrichment.

(** ** Presentation *)

Definition kind_with_markers (r : ResolvedSymbol) : str :=
  r_kind r ++ (if r_local r then lit " (local)" else []) ++ (if r_generated r then lit " (generated)" else []).
Definition row (r : ResolvedSymbol) : str :=
  r_fqn r ++ lit "  " ++ kind_with_markers r ++ lit "  " ++ r_file r ++ lit ":" ++ dec (r_line r) ++ lit "  " ++ r_signature r.
Definition rows (resolved : list ResolvedSymbol) : list str := row <$> resolved.

(** [fenced_block] of [main.rs]. *)
Definition fenced_block (lines_ : list str) : str :=
  let joined := join nl (neutralize <$> lines_) in
  let fence := fence_for joined in
  fence ++ lit "text" ++ nl ++ joined ++ nl ++ fence ++ nl.

Definition symbols_markdown (query : str) (resolved : list ResolvedSymbol) (hidden : option nat) : str :=
  let members := match resolved with
                 | [single] => option_list (render_member_summary (r_entries single) (r_properties single))
                 | _ => []
                 end in
  lit "## Symbols: " ++ neutralize query ++ nl ++ nl ++ fenced_block (rows resolved ++ members)
  ++ match hidden with Some hidden => nl ++ lit "... " ++ num hidden ++ lit " more (use --limit)" ++ nl | None => [] end.
Definition ambiguous_markdown (query : str) (resolved : list ResolvedSymbol) (hint : str) : str :=
  lit "## Ambiguous: " ++ neutralize query ++ lit " (" ++ num (length resolved) ++ lit " candidates)" ++ nl ++ nl
  ++ fenced_block (rows resolved) ++ nl ++ hint ++ nl.
Definition contains_markdown (query : str) (resolved : list ResolvedSymbol) (hidden : nat) : str :=
  lit "## Symbols: " ++ neutralize query ++ nl ++ lit "source: syntax index" ++ nl ++ nl ++ fenced_block (rows resolved)
  ++ if 0 <? hidden then nl ++ lit "... " ++ num hidden ++ lit " more matches not shown" ++ nl else [].
Definition hidden_note (hidden : nat) : option nat := if 0 <? hidden then Some hidden else None.

(** [resolved[0]] panics on no rows. *)
Definition ambiguity_hint (query : str) (resolved : list ResolvedSymbol) : option str :=
  first_ ← head resolved;
  let suffix := shortest_unique_suffix (r_fqn first_) (r_fqn <$> resolved) in
  Some (neutralize (lit "ambiguous: " ++ num (length resolved) ++ lit " declarations named " ++ query ++ lit "; rerun with --pick " ++ suffix)).

Definition render (query : str) (resolved : list ResolvedSymbol) (hidden : option nat) (exit : Exit) (format : Format) : SymbolError + SymbolsOutcome :=
  match format with
  | Md => inr (mkOutcome (MarkdownText (symbols_markdown query resolved hidden)) exit None)
  | Json => inr (mkOutcome (JsonSymbols resolved) exit None)
  | Dot => inl UnsupportedFormat
  end.
Definition render_ambiguous_selection (query : str) (resolved : list ResolvedSymbol) (format : Format) : option (SymbolError + SymbolsOutcome) :=
  hint ← ambiguity_hint query resolved;
  Some (match format with
        | Md => inr (mkOutcome (MarkdownText (ambiguous_markdown query resolved hint)) AmbiguousExit (Some hint))
        | Json => inr (mkOutcome (JsonSymbols resolved) AmbiguousExit (Some hint))
        | Dot => inl UnsupportedFormat
        end).

(** ** Resolving to one declaration *)

Inductive PickFilter := NoPick | Dotted (pick : str) | Explicit (pick : str).
Definition for_query (query : str) (pick : option str) : PickFilter :=
  match pick with
  | Some pick => Explicit pick
  | None => if bool_decide (ch "." ∈ query) then Dotted query else NoPick
  end.
Inductive Selection := One (candidate : SymbolCandidate) (resolved : ResolvedSymbol) | AmbiguousAnswer (outcome : SymbolsOutcome) | SelectedNone.

(** [retain_indices]. *)
Definition retain_indices {A} (items : list A) (indices : list nat) : list A :=
  snd <$> filter (fun entry => entry.1 ∈ indices) (imap (fun index item => (index, item)) items).

Section selection.
Context `{Unicode} `{Grammar} (canonicalize : FsPath -> option FsPath) (read_file : FsPath -> option str) (root : FsPath).
Abbreviation Enriched := (SymbolCandidate * ResolvedSymbol)%type.

Definition as_ambiguous (r : SymbolError + SymbolsOutcome) : SymbolError + Selection :=
  match r with inl e => inl e | inr outcome => inr (AmbiguousAnswer outcome) end.
(** [swap_remove] and [nth(index).expect]: [None] is an index out of range. *)
Definition select_by_pick (query : str) (enriched : list Enriched) (pick : str) (format : Format) (on_miss : SymbolError + Selection)
    : option (SymbolError + Selection) :=
  match match_pick pick ((fun e => r_fqn e.2) <$> enriched) with
  | Selected index => e ← enriched !! index; Some (inr (One e.1 e.2))
  | Ambiguous indices => as_ambiguous <$> render_ambiguous_selection query (snd <$> retain_indices enriched indices) format
  | Missed => Some on_miss
  end.
Definition select (query : str) (candidates : list SymbolCandidate) (filter_ : PickFilter) (format : Format) : option (SymbolError + Selection) :=
  enriched ← enrich_sorted canonicalize read_file root candidates;
  match filter_ with
  | Explicit pick => select_by_pick query enriched pick format (inl (PickMissed pick))
  | Dotted pick => select_by_pick query enriched pick format (inr SelectedNone)
  | NoPick =>
      match enriched with
      | [] => Some (inr SelectedNone)
      | [e] => Some (inr (One e.1 e.2))
      | _ => as_ambiguous <$> render_ambiguous_selection query (snd <$> enriched) format
      end
  end.

Definition pick_present (query : str) (resolved : list ResolvedSymbol) (pick : str) (format : Format) (on_miss : SymbolError)
    : option (SymbolError + SymbolsOutcome) :=
  match match_pick pick (r_fqn <$> resolved) with
  | Selected index =>
      chosen ← resolved !! index;
      chosen ← attach_members read_file root chosen;
      Some (render query [chosen] None Success format)
  | Ambiguous indices => render_ambiguous_selection query (retain_indices resolved indices) format
  | Missed => Some (inl on_miss)
  end.
Definition present_symbols (query : str) (candidates : list SymbolCandidate) (kind : option KindFilter) (limit : option nat)
    (filter_ : PickFilter) (format : Format) : option (SymbolError + SymbolsOutcome) :=
  enriched ← enrich_sorted canonicalize read_file root candidates;
  let all := snd <$> enriched in
  let resolved := match kind with Some kind => filter (fun r => matches_kind r kind = true) all | None => all end in
  match filter_ with
  | Explicit pick => pick_present query resolved pick format (PickMissed pick)
  | Dotted pick => pick_present query resolved pick format (NoSymbol query)
  | NoPick =>
      match resolved with
      | [] => Some (inl (NoSymbol query))
      | [only] => only ← attach_members read_file root only; Some (render query [only] None Success format)
      | _ =>
          let total := length resolved in
          hint ← ambiguity_hint query resolved;
          let shown := min (default total limit) total in
          Some (match render query (take shown resolved) (hidden_note (total - shown)) AmbiguousExit format with
                | inl e => inl e
                | inr outcome => inr (with_stderr outcome hint)
                end)
      end
  end.
End selection.

(** ** The syntax index *)

Definition DEFAULT_CONTAINS_LIMIT : nat := 50.
Record SyntaxIndex := mkIndex { ix_matches : list SymbolMatch; ix_generated : list str }.

Definition named_match (package : option str) (path : str) (ancestors : list str) (d : Declaration) : list SymbolMatch :=
  if bool_decide (d_name d = []) then []
  else [mkSymbol (fqn package ancestors (d_name d)) (d_name d) (d_kind d) path (d_line d) (signature_of path d)].
Definition property_match (package : option str) (path : str) (ancestors : list str) (p : Declaration) : SymbolMatch :=
  mkSymbol (fqn package ancestors (d_name p)) (d_name p) (d_kind p) path (d_line p) (signature_of path p).
(** [gather_declarations], one declaration. *)
Fixpoint gather_declaration (package : option str) (path : str) (ancestors : list str) (d : Declaration) : list SymbolMatch :=
  let inside := ancestors ++ [d_name d] in
  named_match package path ancestors d ++ (property_match package path inside <$> constructor_properties d)
  ++ concat (gather_declaration package path inside <$> d_children d).
Definition gather_declarations (package : option str) (path : str) (ds : list Declaration) : list SymbolMatch :=
  concat (gather_declaration package path [] <$> ds).

Section index.
Context `{Unicode} `{Grammar} (root : Entry).

Definition collect_file_declarations (path : Path) : option (list SymbolMatch) :=
  match read_path root path with
  | None => Some []
  | Some source =>
      r ← extract (display path) source;
      Some (match r with
            | inl _ => []
            | inr skeleton => gather_declarations (fs_package skeleton) (display path) (fs_declarations skeleton)
            end)
  end.
Definition gather_syntax_index : Outcome SyntaxIndex :=
  on_files (collect_kotlin_files root) (fun files =>
    matches ← mapM collect_file_declarations files;
    generated ← collect_generated_kotlin_files root;
    more ← mapM collect_file_declarations generated;
    Some (mkIndex (concat matches ++ concat more)
            ((fun e => display e.1) <$> filter (fun e => 0 < length e.2) (zip generated more)))).

Definition resolved_from_match (generated : list str) (found : SymbolMatch) : ResolvedSymbol :=
  resolved_new (qualified_name found) (kind_label (sm_kind found)) (sm_path found) (sm_line found) (sm_signature found) false
    (bool_decide (sm_path found ∈ generated)).
Definition of_kind (kind : option KindFilter) (found : SymbolMatch) : bool :=
  match kind with Some kind => bool_decide (kind_label (sm_kind found) = kind_filter_label kind) | None => true end.

(** The listing both index commands end with. *)
Definition present_ranked (query : str) (ranked : list SymbolMatch) (generated : list str) (limit : option nat) (format : Format)
    : SymbolError + SymbolsOutcome :=
  match ranked with
  | [] => inl (NoSymbolScoped query)
  | _ =>
      let total := length ranked in
      let shown := min (default DEFAULT_CONTAINS_LIMIT limit) total in
      let resolved := resolved_from_match generated <$> take shown ranked in
      match format with
      | Md => inr (mkOutcome (MarkdownText (contains_markdown query resolved (total - shown))) Success None)
      | Json => inr (mkOutcome (JsonContains resolved (total - shown)) Success None)
      | Dot => inl UnsupportedFormat
      end
  end.
Definition on_index {A} (f : SyntaxIndex -> SymbolError + A) : option (SymbolError + A) :=
  r ← gather_syntax_index;
  Some (match r with inl path => inl (CannotRead path) | inr index => f index end).
Definition present_contained (query : str) (kind : option KindFilter) (limit : option nat) (format : Format) : option (SymbolError + SymbolsOutcome) :=
  on_index (fun index =>
    let ranked := filter (fun found => of_kind kind found = true) (contained_declarations query (ix_matches index)) in
    present_ranked query ranked (ix_generated index) limit format).
Definition exact_key (found : SymbolMatch) : str * str * N := (qualified_name found, sm_path found, sm_line found).
Definition present_exact_from_syntax_index (query : str) (kind : option KindFilter) (limit : option nat) (format : Format)
    : option (SymbolError + SymbolsOutcome) :=
  on_index (fun index =>
    let exact := sort_by_key exact_key (filter (fun found => Query.simple_name found = query) (ix_matches index)) in
    present_ranked query (filter (fun found => of_kind kind found = true) exact) (ix_generated index) limit format).
End index.

(** ** Lemmas: locating *)

(** Every declaration with the names around it, outermost first. *)
Fixpoint placed (ancestors : list str) (d : Declaration) : list Located :=
  mkLocated d ancestors :: concat (placed (ancestors ++ [d_name d]) <$> d_children d).
Definition placed_in (f : FileSkeleton) : list Located := concat (placed [] <$> fs_declarations f).
Definition is_named (name : str) (l : Located) : bool := bool_decide (d_name (lc_declaration l) = name).
Definition is_at (name : str) (line : N) (l : Located) : bool := is_named name l && (d_line (lc_declaration l) =? line)%N.

(** What a search over some places answers, from what it had. *)
Definition best_of (name : str) (line : N) (places : list Located) (best : option Located) : bool * option Located :=
  match find (is_at name line) places with
  | Some l => (true, Some l)
  | None => (false, match best with Some b => Some b | None => find (is_named name) places end)
  end.
Lemma find_app {A} (f : A -> bool) l k : find f (l ++ k) = match find f l with Some x => Some x | None => find f k end.
Proof. induction l as [|x l IH]; [done|]. cbn. by destruct (f x). Qed.
Lemma best_of_app name line l k best :
  best_of name line (l ++ k) best =
    let '(found, best') := best_of name line l best in if found then (true, best') else best_of name line k best'.
Proof.
  unfold best_of. rewrite !find_app. destruct (find (is_at name line) l); [done|]. destruct (find (is_at name line) k); [done|].
  f_equal. destruct best; [done|]. by destruct (find (is_named name) l).
Qed.

Lemma locate_in_spec name line d : forall ancestors best, locate_in name line ancestors d best = best_of name line (placed ancestors d) best.
Proof.
  induction d as [d IH] using declaration_ind'. intros ancestors best. destruct d as [kind dname receiver dline vis ann mods tp ps cv rt ti st tc doc children]. cbn [d_children] in IH.
  set (d := mkDecl _ _ _ _ _ _ _ _ _ _ _ _ _ _ _ _).
  change (placed ancestors d) with ([mkLocated d ancestors] ++ concat (placed (ancestors ++ [dname]) <$> children)). rewrite best_of_app.
  unfold best_of at 1. cbn [find]. unfold is_at at 1, is_named at 1 2. cbn [lc_declaration].
  change (locate_in name line ancestors d best) with
    (if bool_decide (dname = name) && (dline =? line)%N then (true, Some (mkLocated d ancestors))
     else (fix go (ds : list Declaration) (best : option Located) : bool * option Located :=
       match ds with
       | [] => (false, best)
       | child :: ds' =>
           let '(found, best) := locate_in name line (ancestors ++ [dname]) child best in
           if found : bool then (true, best) else go ds' best
       end) children (if bool_decide (dname = name) then match best with Some b => Some b | None => Some (mkLocated d ancestors) end else best)).
  change (d_name d) with dname. change (d_line d) with dline. destruct (bool_decide (dname = name) && (dline =? line)%N); [done|].
  assert (match best with Some b => Some b | None => if bool_decide (dname = name) then Some (mkLocated d ancestors) else None end =
    (if bool_decide (dname = name) then match best with Some b => Some b | None => Some (mkLocated d ancestors) end else best)) as -> by (by destruct best, (bool_decide (dname = name))).
  generalize (if bool_decide (dname = name) then match best with Some b => Some b | None => Some (mkLocated d ancestors) end else best). clear best.
  induction IH as [|child children Hc _ IHc]; intros best; [by destruct best|]. cbn [fmap list_fmap concat]. rewrite best_of_app, Hc.
  destruct (best_of _ _ _ best) as [[] best']; [done|]. apply IHc.
Qed.
Lemma locate_spec f name line : locate f name line =
  match find (is_at name line) (placed_in f) with Some l => Some l | None => find (is_named name) (placed_in f) end.
Proof.
  unfold locate, placed_in. assert (forall ds best, locate_among name line [] ds best = best_of name line (concat (placed [] <$> ds)) best) as ->.
  { induction ds as [|d ds IH]; intros best; [by destruct best|]. cbn [locate_among fmap list_fmap concat]. rewrite best_of_app, locate_in_spec.
    destruct (best_of _ _ _ best) as [[] best']; [done|]. apply IH. }
  unfold best_of. by destruct (find (is_at name line) _).
Qed.

Lemma placed_declarations d : forall ancestors, lc_declaration <$> placed ancestors d = flatten d.
Proof.
  induction d as [d IH] using declaration_ind'. intros ancestors. rewrite flatten_eq. destruct d as [kind dname receiver dline vis ann mods tp ps cv rt ti st tc doc children].
  cbn [d_children] in IH. set (d := mkDecl _ _ _ _ _ _ _ _ _ _ _ _ _ _ _ _).
  change (placed ancestors d) with (mkLocated d ancestors :: concat (placed (ancestors ++ [dname]) <$> children)). csimpl. f_equal. change (d_children d) with children.
  generalize (ancestors ++ [dname]) as inside. intros inside. clearbody d. clear -IH. induction IH as [|c cs Hc _ IHcs]; [done|]. csimpl. by rewrite fmap_app, Hc, IHcs.
Qed.
Lemma placed_all f : lc_declaration <$> placed_in f = all_declarations f.
Proof.
  unfold placed_in, all_declarations. induction (fs_declarations f) as [|d ds IH]; [done|]. csimpl. by rewrite fmap_app, placed_declarations, IH.
Qed.
Lemma find_first {A} (f : A -> bool) l :
  match find f l with
  | Some x => exists before after, l = before ++ x :: after /\ f x = true /\ Forall (fun y => f y = false) before
  | None => Forall (fun y => f y = false) l
  end.
Proof.
  induction l as [|y l IH]; cbn; [constructor|]. destruct (f y) eqn:E; [by exists [], l|]. destruct (find f l) as [x|]; [|by constructor].
  destruct IH as (before & after & -> & Hx & Hb). exists (y :: before), after. split_and!; [done|done|by constructor].
Qed.

(** ** Lemmas: enrichment *)

Lemma is_at_named name line l : is_at name line l = true -> is_named name l = true.
Proof. by intros [? _]%andb_true_iff. Qed.

Section enrich_facts.
Context `{Unicode} `{GrammarLaws} (canonicalize : FsPath -> option FsPath) (read_file : FsPath -> option str) (root : FsPath).
Let enrich' := enrich canonicalize read_file root.

Lemma enrich_some candidate : exists r, enrich' candidate = Some r /\ r_line r = c_line candidate /\
  r_file r = normalized_path canonicalize root (parse_path (c_file candidate)).
Proof.
  unfold enrich', enrich. destruct (read_file _) as [source|]; [|by eexists]. destruct (is_java _).
  - unfold enrich_java. destruct (decl_scan_some source) as (tokens & s & _ & -> & _). cbn [mbind option_bind].
    match goal with |- context [match ?o with Some d => _ | None => Some None end] => destruct o as [d|] end; [|by eexists].
    destruct (java_package_some source) as [package ->]. by eexists.
  - destruct (extract_some (normalized_path canonicalize root (parse_path (c_file candidate))) source) as [[e|skeleton] ->]; [by eexists|].
    cbn [mbind option_bind]. destruct (locate _ _ _); [by eexists|]. unfold local_declaration.
    destruct (locate_local_some source (c_name candidate) (c_line candidate)) as [[l|] ->]; by eexists.
Qed.

(** What [enrich] answers, as a function. *)
Definition enriched_of (candidate : SymbolCandidate) : SymbolCandidate * ResolvedSymbol :=
  (candidate, default (bare [] candidate) (enrich' candidate)).
Lemma enrich_sorted_eq candidates :
  enrich_sorted canonicalize read_file root candidates = Some (sort_by_key enriched_key (fold_java_constructors (enriched_of <$> candidates))).
Proof.
  unfold enrich_sorted. assert (mapM (fun candidate => resolved ← enrich canonicalize read_file root candidate; Some (candidate, resolved)) candidates
    = Some (enriched_of <$> candidates)) as ->; [|done].
  apply mapM_Some, Forall2_fmap_r, Forall_Forall2_diag, Forall_forall. intros c _. unfold enriched_of. destruct (enrich_some c) as (r & E & _).
  unfold enrich' in *. cbn. by rewrite E.
Qed.
End enrich_facts.

Lemma fold_java_perm l k : l ≡ₚ k -> fold_java_constructors l ≡ₚ fold_java_constructors k.
Proof.
  intros E. unfold fold_java_constructors. rewrite (filter_Permutation _ _ _ E). apply reflexive_eq, filter_agree, Forall_forall. intros e _.
  unfold is_folded. assert (forall x, x ∈ java_types l <-> x ∈ java_types k) as Ht by (intros x; unfold java_types; by rewrite E).
  by rewrite (bool_decide_ext _ _ (Ht _)).
Qed.

(** ** Lemmas: picking from an ambiguous answer *)

Lemma pick_zero pick target fqns i : fqns !! 0 = Some target ->
  match_pick pick fqns = Selected i -> fqns !! i = Some target -> i = 0.
Proof.
  intros H0 Hm Hi. pose proof (match_pick_exact pick fqns) as Hs. rewrite Hm in Hs. destruct Hs as [[Hp Hj]|(_ & (f & Hf & Hfs) & Hu)].
  - destruct i as [|i]; [done|]. exfalso. apply (Hj 0); [lia|]. congruence.
  - symmetry. apply (Hu 0 target); [done|]. by assert (f = target) as <- by congruence.
Qed.
(** The hint of some rows picks the first of them. *)
Lemma hint_picks_first (first_ : str) (others : list str) :
  match_pick (shortest_unique_suffix first_ (first_ :: others)) (first_ :: others) = Selected 0.
Proof.
  destruct (hint_selects first_ (first_ :: others)) as (i & Hm & Hi); [left|]. rewrite Hm. f_equal. by refine (pick_zero _ _ _ i _ Hm Hi).
Qed.
Lemma match_pick_in_range pick fqns :
  match match_pick pick fqns with
  | Selected i => is_Some (fqns !! i)
  | Ambiguous matched => exists i, i ∈ matched /\ is_Some (fqns !! i)
  | Missed => True
  end.
Proof.
  pose proof (match_pick_exact pick fqns) as Hs. destruct (match_pick pick fqns) as [i|matched|]; [| |done].
  - destruct Hs as [[-> _]|(_ & (f & -> & _) & _)]; by eexists.
  - destruct Hs as (_ & Hl & _ & Hin). destruct matched as [|i matched]; [cbn in Hl; lia|]. exists i. split; [left|].
    destruct (proj1 (Hin i)) as (f & -> & _); [left|by eexists].
Qed.
Lemma retain_cons {A} (items : list A) indices i x : i ∈ indices -> items !! i = Some x -> x ∈ retain_indices items indices.
Proof.
  intros Hi Hx. apply list_elem_of_fmap. exists (i, x). split; [done|]. apply list_elem_of_filter. split; [done|]. apply elem_of_lookup_imap. by exists i, x.
Qed.

Section answering.
Context `{Unicode} `{GrammarLaws} (canonicalize : FsPath -> option FsPath) (read_file : FsPath -> option str) (root : FsPath).

Lemma attach_some r : exists r', attach_members read_file root r = Some r' /\ r_fqn r' = r_fqn r /\ r_file r' = r_file r /\ r_line r' = r_line r.
Proof.
  unfold attach_members. destruct (read_file _) as [source|]; [|by eexists]. destruct (extract_some (r_file r) source) as [[e|skeleton] ->]; [by eexists|].
  cbn [mbind option_bind]. destruct (locate _ _ _); by eexists.
Qed.
Lemma ambiguous_some query resolved format : resolved <> [] -> exists r, render_ambiguous_selection query resolved format = Some r.
Proof. intros Hne. destruct resolved; [done|]. by eexists. Qed.

(** No name makes [symbols], [trace] or [context] panic while it is resolved: whatever the engine
    answered, the indices of a pick are in range, an ambiguity has a first row to hint at, and every
    candidate gets a row, so both commands end in an answer or in one of the errors they name. *)
Theorem resolution_total (query : str) (candidates : list SymbolCandidate) (kind : option KindFilter) (limit : option nat) (filter_ : PickFilter) (format : Format) :
  (exists r, present_symbols canonicalize read_file root query candidates kind limit filter_ format = Some r) /\
  (exists r, select canonicalize read_file root query candidates filter_ format = Some r).
Proof.
  unfold present_symbols, select. rewrite enrich_sorted_eq. cbn [mbind option_bind].
  set (enriched := sort_by_key enriched_key _). set (resolved := match kind with Some kind => _ | None => _ end). split.
  - assert (forall pick on_miss, exists r, pick_present read_file root query resolved pick format on_miss = Some r) as Hpick.
    { intros pick on_miss. unfold pick_present. pose proof (match_pick_in_range pick (r_fqn <$> resolved)) as Hr. destruct (match_pick _ _) as [i|matched|].
      - rewrite list_lookup_fmap in Hr. destruct (resolved !! i) as [chosen|]; [|by destruct Hr]. cbn [mbind option_bind].
        destruct (attach_some chosen) as (c & -> & _). by eexists.
      - destruct Hr as (i & Hi & Hr). rewrite list_lookup_fmap in Hr. destruct (resolved !! i) as [x|] eqn:Ex; [|by destruct Hr].
        apply ambiguous_some. intros En. pose proof (retain_cons _ _ _ _ Hi Ex) as Hx. rewrite En in Hx. by apply not_elem_of_nil in Hx.
      - by eexists. }
    destruct filter_ as [|pick|pick]; [|apply Hpick..]. destruct resolved as [|only [|second others]]; [by eexists| |by eexists].
    destruct (attach_some only) as (c & -> & _). by eexists.
  - assert (forall pick on_miss, exists r, select_by_pick query enriched pick format on_miss = Some r) as Hpick.
    { intros pick on_miss. unfold select_by_pick. pose proof (match_pick_in_range pick ((fun e => r_fqn e.2) <$> enriched)) as Hr. destruct (match_pick _ _) as [i|matched|].
      - rewrite list_lookup_fmap in Hr. destruct (enriched !! i) as [e|]; [|by destruct Hr]. by eexists.
      - destruct Hr as (i & Hi & Hr). rewrite list_lookup_fmap in Hr. destruct (enriched !! i) as [x|] eqn:Ex; [|by destruct Hr].
        destruct (ambiguous_some query (snd <$> retain_indices enriched matched) format) as [r ->]; [|by eexists].
        intros En%fmap_nil_inv. pose proof (retain_cons _ _ _ _ Hi Ex) as Hx. rewrite En in Hx. by apply not_elem_of_nil in Hx.
      - by eexists. }
    destruct filter_ as [|pick|pick]; [|apply Hpick..]. destruct enriched as [|e [|e' es]]; by eexists.
Qed.

Lemma enrich_sorted_perm (candidates permuted : list SymbolCandidate) :
  candidates ≡ₚ permuted ->
  (forall c c', c ∈ candidates -> c' ∈ candidates ->
     enriched_key (enriched_of canonicalize read_file root c) = enriched_key (enriched_of canonicalize read_file root c') -> c = c') ->
  enrich_sorted canonicalize read_file root candidates = enrich_sorted canonicalize read_file root permuted.
Proof.
  intros E Hkey. rewrite !enrich_sorted_eq. f_equal. set (rows_ := fun cs => fold_java_constructors (enriched_of canonicalize read_file root <$> cs)).
    apply (sorted_unique_in (cmp_on enriched_key)).
    - assert (forall x, x ∈ sort_by_key enriched_key (rows_ candidates) -> exists c, c ∈ candidates /\ x = enriched_of canonicalize read_file root c) as Hin.
      { intros x. unfold rows_, fold_java_constructors. rewrite sort_by_key_perm. intros [_ (c & -> & Hc)%list_elem_of_fmap]%list_elem_of_filter. eauto. }
      intros x y (c & Hc & ->)%Hin (c' & Hc' & ->)%Hin Hxy Hyx. f_equal. apply Hkey; [done..|]. by apply ord_le_antisymm.
    - apply (sort_by_sorted (cmp_on enriched_key)).
    - apply (sort_by_sorted (cmp_on enriched_key)).
    - rewrite !sort_by_key_perm. apply fold_java_perm. by rewrite E.
Qed.

(** The answer does not depend on the order the engine listed its locations in: as long as no two of
    them print the same row key, permuted candidates give the same [symbols] answer and the same choice. *)
Theorem resolution_order_independent (query : str) (candidates permuted : list SymbolCandidate) (kind : option KindFilter) (limit : option nat)
    (filter_ : PickFilter) (format : Format) :
  candidates ≡ₚ permuted ->
  (forall c c', c ∈ candidates -> c' ∈ candidates ->
     enriched_key (enriched_of canonicalize read_file root c) = enriched_key (enriched_of canonicalize read_file root c') -> c = c') ->
  present_symbols canonicalize read_file root query candidates kind limit filter_ format = present_symbols canonicalize read_file root query permuted kind limit filter_ format /\
  select canonicalize read_file root query candidates filter_ format = select canonicalize read_file root query permuted filter_ format.
Proof.
  intros E Hkey. pose proof (enrich_sorted_perm candidates permuted E Hkey) as Es.
  unfold present_symbols, select. by rewrite Es.
Qed.
End answering.

(** ** Properties *)

(** The declaration of a location is found exactly: [placed_in] is every declaration of the file in
    order with the names around it; the search answers the first one of the given name at the given line,
    else the first of that name, with the names around it, and nothing only when no declaration has the name. *)
Theorem locate_exact (f : FileSkeleton) (name : str) (line : N) :
  lc_declaration <$> placed_in f = all_declarations f /\
  match locate f name line with
  | Some l => exists before after, placed_in f = before ++ l :: after /\ d_name (lc_declaration l) = name /\
      (d_line (lc_declaration l) = line /\ Forall (fun b => ~ (d_name (lc_declaration b) = name /\ d_line (lc_declaration b) = line)) before \/
       Forall (fun b => ~ (d_name (lc_declaration b) = name /\ d_line (lc_declaration b) = line)) (placed_in f) /\
       Forall (fun b => d_name (lc_declaration b) <> name) before)
  | None => Forall (fun d => d_name d <> name) (all_declarations f)
  end.
Proof.
  split; [apply placed_all|]. rewrite locate_spec. pose proof (find_first (is_at name line) (placed_in f)) as Ha.
  assert (forall b, is_at name line b = true <-> d_name (lc_declaration b) = name /\ d_line (lc_declaration b) = line) as Hat.
  { intros b. unfold is_at, is_named. by rewrite andb_true_iff, bool_decide_eq_true, N.eqb_eq. }
  assert (forall l, Forall (fun y => is_at name line y = false) l -> Forall (fun b => ~ (d_name (lc_declaration b) = name /\ d_line (lc_declaration b) = line)) l) as Hnot.
  { intros l Hl. apply (Forall_impl _ _ _ Hl). intros b Hb E%Hat. congruence. }
  destruct (find (is_at name line) (placed_in f)) as [l|].
  { destruct Ha as (before & after & E & [Hn Hl]%Hat & Hb). exists before, after. split_and!; [done|done|]. left. split; [done|by apply Hnot]. }
  pose proof (find_first (is_named name) (placed_in f)) as Hn.
  assert (forall l, Forall (fun y => is_named name y = false) l -> Forall (fun b => d_name (lc_declaration b) <> name) l) as Hname.
  { intros l Hl. apply (Forall_impl _ _ _ Hl). intros b Hb. by apply bool_decide_eq_false in Hb. }
  destruct (find (is_named name) (placed_in f)) as [l|].
  - destruct Hn as (before & after & E & Hl & Hb). exists before, after. split_and!; [done|by apply bool_decide_eq_true in Hl|]. right. split; [by apply Hnot|by apply Hname].
  - rewrite <- placed_all, Forall_fmap. by apply Hname.
Qed.

(** The rows one declaration adds to the index, with the properties its constructor declares. *)
Definition index_rows (package : option str) (path : str) (l : Located) : list SymbolMatch :=
  named_match package path (lc_ancestors l) (lc_declaration l)
  ++ (property_match package path (lc_ancestors l ++ [d_name (lc_declaration l)]) <$> constructor_properties (lc_declaration l)).
Lemma gather_placed package path d : forall ancestors, gather_declaration package path ancestors d = concat (index_rows package path <$> placed ancestors d).
Proof.
  induction d as [d IH] using declaration_ind'. intros ancestors. destruct d as [kind dname receiver dline vis ann mods tp ps cv rt ti st tc doc children].
  cbn [d_children] in IH. set (d := mkDecl _ _ _ _ _ _ _ _ _ _ _ _ _ _ _ _).
  change (placed ancestors d) with (mkLocated d ancestors :: concat (placed (ancestors ++ [dname]) <$> children)).
  change (gather_declaration package path ancestors d) with (named_match package path ancestors d ++
    (property_match package path (ancestors ++ [dname]) <$> constructor_properties d) ++ concat (gather_declaration package path (ancestors ++ [dname]) <$> children)).
  csimpl. unfold index_rows at 1. cbn [lc_declaration lc_ancestors]. rewrite <- app_assoc. do 2 f_equal.
  generalize (ancestors ++ [dname]) as inside. intros inside. clearbody d. clear -IH. induction IH as [|c cs Hc _ IHcs]; [done|].
  csimpl. by rewrite fmap_app, concat_app, Hc, IHcs.
Qed.

(** The syntax index of a file holds every named declaration once, at its own line and in file order,
    qualified by the package and all the names around it, followed by the properties its constructor
    declares; a declaration without a name adds no row but still qualifies what it contains. *)
Theorem gather_declarations_exact (f : FileSkeleton) :
  gather_declarations (fs_package f) (fs_path f) (fs_declarations f) = concat (index_rows (fs_package f) (fs_path f) <$> placed_in f) /\
  (forall d, d ∈ all_declarations f -> d_name d <> [] ->
     exists ancestors, mkLocated d ancestors ∈ placed_in f /\
       mkSymbol (fqn (fs_package f) ancestors (d_name d)) (d_name d) (d_kind d) (fs_path f) (d_line d) (signature_of (fs_path f) d)
         ∈ gather_declarations (fs_package f) (fs_path f) (fs_declarations f)).
Proof.
  assert (gather_declarations (fs_package f) (fs_path f) (fs_declarations f) = concat (index_rows (fs_package f) (fs_path f) <$> placed_in f)) as E.
  { unfold gather_declarations, placed_in. induction (fs_declarations f) as [|d ds IH]; [done|]. csimpl. by rewrite fmap_app, concat_app, gather_placed, IH. }
  split; [done|]. intros d Hd Hne. rewrite <- placed_all in Hd. apply list_elem_of_fmap in Hd as ([d' ancestors] & -> & Hl). exists ancestors. split; [done|].
  rewrite E. apply elem_of_concat. exists (index_rows (fs_package f) (fs_path f) (mkLocated d' ancestors)).
  split; [apply list_elem_of_fmap; by exists (mkLocated d' ancestors)|].
  unfold index_rows, named_match. cbn [lc_declaration lc_ancestors] in *. rewrite bool_decide_eq_false_2 by done. apply elem_of_app. left. left.
Qed.

Section rerun.
Context `{Unicode} `{GrammarLaws} (canonicalize : FsPath -> option FsPath) (read_file : FsPath -> option str) (root : FsPath).
Let present := present_symbols canonicalize read_file root.

(** An ambiguous name answers itself: the exit says so, the rows shown and the hidden count are all the
    candidates, and the suffix the hint prints, given back to [--pick], shows the first row and succeeds. *)
Theorem ambiguity_hint_selects (query : str) (candidates : list SymbolCandidate) (kind : option KindFilter) (limit : option nat) (outcome : SymbolsOutcome) :
  present query candidates kind limit NoPick Md = Some (inr outcome) -> sy_exit outcome = AmbiguousExit ->
  exists first_ others pick shown hidden,
    sy_text outcome = MarkdownText (symbols_markdown query shown (hidden_note hidden)) /\ shown `prefix_of` first_ :: others /\
    length shown + hidden = length (first_ :: others) /\
    sy_stderr outcome = Some (neutralize (lit "ambiguous: " ++ num (length (first_ :: others)) ++ lit " declarations named " ++ query ++ lit "; rerun with --pick " ++ pick)) /\
    is_dot_suffix (r_fqn first_) pick = true /\
    forall limit', exists single, attach_members read_file root first_ = Some single /\
      present query candidates kind limit' (Explicit pick) Md = Some (inr (mkOutcome (MarkdownText (symbols_markdown query [single] None)) Success None)).
Proof.
  unfold present, present_symbols. rewrite enrich_sorted_eq. cbn [mbind option_bind].
  set (resolved := match kind with Some kind => _ | None => _ end). destruct resolved as [|first_ [|second others]].
  { done. }
  { destruct (attach_some read_file root first_) as (c & -> & _). intros [= <-]. done. }
  intros E _. cbn in E. injection E as <-. set (total := S (S (length others))).
  exists first_, (second :: others), (shortest_unique_suffix (r_fqn first_) (r_fqn <$> first_ :: second :: others)),
    (take (min (default total limit) total) (first_ :: second :: others)), (total - min (default total limit) total).
  split; [done|]. split; [apply prefix_take|]. split; [rewrite length_take; cbn; lia|]. split; [done|].
  split; [apply hint_is_suffix; left|]. intros limit'. destruct (attach_some read_file root first_) as (single & Es & _). exists single. split; [done|].
  unfold pick_present. rewrite !fmap_cons, hint_picks_first. cbn [lookup list_lookup mbind option_bind]. by rewrite Es.
Qed.
End rerun.

(** ** Witnesses *)

Definition shop_root : FsPath := parse_path (lit "/shop").
Definition shop_java : str := lit "package web;" ++ nl ++ lit "class Cart {" ++ nl ++ lit "}" ++ nl.
Definition shop_read (file : FsPath) : option str :=
  if decide (file = parse_path (lit "/shop/Cart.kt")) then Some demo_source
  else if decide (file = parse_path (lit "/shop/Cart.java")) then Some shop_java else None.
Definition shop_candidates : list SymbolCandidate :=
  [mkSymbolCandidate (lit "Cart") (lit "/shop/Cart.java") 2 7; mkSymbolCandidate (lit "Cart") (lit "/shop/Cart.kt") 1 7]%N.
Definition shop_present := @present_symbols latin1_unicode demo_grammar Some shop_read shop_root.

(** The engine's order does not show: the Kotlin class sorts before the Java one. *)
Lemma shop_rows : @enrich_sorted latin1_unicode demo_grammar Some shop_read shop_root shop_candidates =
  Some [(mkSymbolCandidate (lit "Cart") (lit "/shop/Cart.kt") 1 7, resolved_new (lit "Cart") (lit "class") (lit "Cart.kt") 1 (lit "class Cart") false false);
        (mkSymbolCandidate (lit "Cart") (lit "/shop/Cart.java") 2 7, resolved_new (lit "web.Cart") (lit "class") (lit "Cart.java") 2 (lit "class Cart") false false)].
Proof. vm_compute. reflexivity. Qed.

Lemma resolution_total_witness : exists r, shop_present (lit "Cart") shop_candidates None None (Explicit (lit "web.Cart")) Json = Some r.
Proof.
  destruct (@resolution_total latin1_unicode demo_grammar demo_laws Some shop_read shop_root (lit "Cart") shop_candidates None None (Explicit (lit "web.Cart")) Json) as [[r E] _].
  exists r. exact E.
Defined.
Lemma resolution_order_independent_witness :
  shop_present (lit "Cart") shop_candidates None None NoPick Md = shop_present (lit "Cart") (rev shop_candidates) None None NoPick Md.
Proof.
  refine (proj1 (@resolution_order_independent latin1_unicode demo_grammar demo_laws Some shop_read shop_root (lit "Cart") shop_candidates (rev shop_candidates) None None NoPick Md _ _)).
  - apply perm_swap.
  - intros c c' Hc Hc' E. assert (c = c' \/ bool_decide (enriched_key (@enriched_of latin1_unicode demo_grammar Some shop_read shop_root c) = enriched_key (@enriched_of latin1_unicode demo_grammar Some shop_read shop_root c')) = false) as [Hs|Hs].
    { repeat first [apply elem_of_cons in Hc as [->|Hc]|by apply elem_of_nil in Hc]; repeat first [apply elem_of_cons in Hc' as [->|Hc']|by apply elem_of_nil in Hc'];
        first [left; reflexivity|right; vm_compute; reflexivity]. }
    + exact Hs.
    + apply bool_decide_eq_false in Hs. by destruct Hs.
Defined.
Lemma ambiguity_hint_selects_witness :
  exists outcome pick text, shop_present (lit "Cart") shop_candidates None (Some 1) NoPick Md = Some (inr outcome) /\ sy_exit outcome = AmbiguousExit /\
    shop_present (lit "Cart") shop_candidates None None (Explicit pick) Md = Some (inr (mkOutcome (MarkdownText text) Success None)).
Proof.
  eassert (shop_present (lit "Cart") shop_candidates None (Some 1) NoPick Md = Some (inr _)) as E by (vm_compute; reflexivity).
  destruct (@ambiguity_hint_selects latin1_unicode demo_grammar demo_laws Some shop_read shop_root (lit "Cart") shop_candidates None (Some 1) _ E eq_refl)
    as (first_ & others & pick & shown & hidden & _ & _ & _ & _ & _ & Hr).
  destruct (Hr None) as (single & _ & Er). eexists _, pick, _. split; [exact E|]. split; [reflexivity|exact Er].
Defined.

(** A location eight hundred lines past the end of the class still prints as that class. *)
Lemma far_location_borrows :
  @enrich latin1_unicode demo_grammar Some shop_read shop_root (mkSymbolCandidate (lit "Cart") (lit "/shop/Cart.kt") 900 1) =
  Some (resolved_new (lit "Cart") (lit "class") (lit "Cart.kt") 900 (lit "class Cart") false false).
Proof. vm_compute. reflexivity. Qed.
