(* ===== verification/Utf8.v ===== *)
(** * Utf8: decoding bytes

    [String::from_utf8_lossy] and [str::from_utf8] of the standard library on the bytes the engine and the
    pipes hand over: every maximal ill-formed prefix becomes one replacement character, and the encoding of
    a text decodes to that text. *)
From S2P Require Import Prelude.

Set Default Proof Using "Type*".

Definition REPLACEMENT : char := 65533%N.
Definition in_range (lo hi b : N) : bool := (lo <=? b)%N && (b <=? hi)%N.
Definition continuation (b : N) : bool := in_range 128 191 b.

(** The second byte a first byte of three or four allows. *)
Definition second_of_three (a b : N) : bool :=
  if (a =? 224)%N then in_range 160 191 b else if (a =? 237)%N then in_range 128 159 b else continuation b.
Definition second_of_four (a b : N) : bool :=
  if (a =? 240)%N then in_range 144 191 b else if (a =? 244)%N then in_range 128 143 b else continuation b.

(** The first character of some bytes and how many of them it takes; [None] marks an ill-formed prefix. *)
Definition decode_first (bytes : list N) : option char * nat :=
  match bytes with
  | [] => (None, 0)
  | a :: rest =>
      if (a <? 128)%N then (Some a, 1)
      else if in_range 194 223 a then
        match rest with
        | b :: _ => if continuation b then (Some ((a - 192) * 64 + (b - 128))%N, 2) else (None, 1)
        | [] => (None, 1)
        end
      else if in_range 224 239 a then
        match rest with
        | b :: rest' =>
            if second_of_three a b then
              match rest' with
              | c :: _ => if continuation c then (Some ((a - 224) * 4096 + (b - 128) * 64 + (c - 128))%N, 3) else (None, 2)
              | [] => (None, 2)
              end
            else (None, 1)
        | [] => (None, 1)
        end
      else if in_range 240 244 a then
        match rest with
        | b :: rest' =>
            if second_of_four a b then
              match rest' with
              | c :: rest'' =>
                  if continuation c then
                    match rest'' with
                    | d :: _ => if continuation d then (Some ((a - 240) * 262144 + (b - 128) * 4096 + (c - 128) * 64 + (d - 128))%N, 4) else (None, 3)
                    | [] => (None, 3)
                    end
                  else (None, 2)
              | [] => (None, 2)
              end
            else (None, 1)
        | [] => (None, 1)
        end
      else (None, 1)
  end.
Fixpoint decode_loop (fuel : nat) (bytes : list N) : list (option char) :=
  match fuel, bytes with
  | O, _ | _, [] => []
  | S fuel', _ => let '(c, n) := decode_first bytes in c :: decode_loop fuel' (drop n bytes)
  end.
Definition decoded (bytes : list N) : list (option char) := decode_loop (length bytes) bytes.
Definition from_utf8_lossy (bytes : list N) : str := default REPLACEMENT <$> decoded bytes.
Definition from_utf8 (bytes : list N) : option str := mapM id (decoded bytes).

(** A Unicode scalar value. *)
Definition scalar (c : char) : Prop := (c < 55296 \/ 57344 <= c < 1114112)%N.

Lemma in_range_true lo hi b : (lo <= b <= hi)%N -> in_range lo hi b = true.
Proof. intros [H1 H2]. unfold in_range. by rewrite (proj2 (N.leb_le _ _) H1), (proj2 (N.leb_le _ _) H2). Qed.
Lemma in_range_false lo hi b : (b < lo \/ hi < b)%N -> in_range lo hi b = false.
Proof. intros H. unfold in_range. destruct (N.leb_spec lo b), (N.leb_spec b hi); try done. lia. Qed.

(** Six low bits. *)
Lemma low_bits c : exists q r, c = (q * 64 + r)%N /\ (c / 64 = q)%N /\ (c mod 64 = r)%N /\ (r < 64)%N.
Proof.
  exists (c / 64)%N, (c mod 64)%N. split_and!; [|done|done|by apply N.mod_lt]. rewrite N.mul_comm. by apply N.div_mod.
Qed.

Lemma decode_char c rest : scalar c -> decode_first (utf8_char c ++ rest) = (Some c, length (utf8_char c)).
Proof.
  intros Hc. unfold utf8_char. destruct (N.ltb_spec c 128) as [H1|H1].
  { cbn [app decode_first length]. by rewrite (proj2 (N.ltb_lt _ _) H1). }
  destruct (low_bits c) as (q & r & Ec & Eq & Er & Hr). destruct (N.ltb_spec c 2048) as [H2|H2].
  { rewrite Eq, Er. cbn [app decode_first length]. rewrite (proj2 (N.ltb_ge _ _)) by lia. rewrite in_range_true by lia.
    unfold continuation. rewrite in_range_true by lia. f_equal. f_equal. lia. }
  destruct (low_bits q) as (q2 & r2 & Ec2 & Eq2 & Er2 & Hr2).
  assert (c / 4096 = q2)%N as E2 by (change 4096%N with (64 * 64)%N; rewrite <- N.Div0.div_div, Eq; done).
  destruct (N.ltb_spec c 65536) as [H3|H3].
  { rewrite E2, Eq, Er, Er2. cbn [app decode_first length]. rewrite (proj2 (N.ltb_ge _ _)) by lia.
    rewrite (in_range_false 194) by lia. rewrite (in_range_true 224) by lia.
    assert (second_of_three (224 + q2) (128 + r2) = true) as ->.
    { unfold second_of_three, continuation. destruct (N.eqb_spec (224 + q2) 224); [|destruct (N.eqb_spec (224 + q2) 237)]; apply in_range_true; unfold scalar in Hc; lia. }
    unfold continuation. rewrite in_range_true by lia. do 2 f_equal. lia. }
  destruct (low_bits q2) as (q3 & r3 & Ec3 & Eq3 & Er3 & Hr3).
  assert (c / 262144 = q3)%N as E3 by (change 262144%N with (4096 * 64)%N; rewrite <- N.Div0.div_div, E2; done).
  rewrite E3, E2, Eq, Er, Er2, Er3. cbn [app decode_first length]. unfold scalar in Hc. rewrite (proj2 (N.ltb_ge _ _)) by lia.
  rewrite (in_range_false 194), (in_range_false 224) by lia. rewrite (in_range_true 240) by lia.
  assert (second_of_four (240 + q3) (128 + r3) = true) as ->.
  { unfold second_of_four, continuation. destruct (N.eqb_spec (240 + q3) 240); [|destruct (N.eqb_spec (240 + q3) 244)]; apply in_range_true; lia. }
  unfold continuation. rewrite !in_range_true by lia. do 2 f_equal. lia.
Qed.

Lemma utf8_char_bytes c : scalar c -> Forall (fun b => (b < 256)%N) (utf8_char c).
Proof.
  intros Hc. unfold scalar in Hc.
  assert (forall x, 128 + x mod 64 < 256)%N as Hm by (intros x; pose proof (N.mod_lt x 64); lia).
  assert (forall k d, (d <> 0 -> c < d * (256 - k) -> k < 256 -> k + c / d < 256)%N) as Hd.
  { intros k d Hd Hlt Hk. assert (c / d < 256 - k)%N; [by apply N.Div0.div_lt_upper_bound|lia]. }
  unfold utf8_char. destruct (N.ltb_spec c 128); [|destruct (N.ltb_spec c 2048); [|destruct (N.ltb_spec c 65536)]];
    repeat apply Forall_cons_2; try apply Forall_nil_2; try apply Hm; try apply Hd; lia.
Qed.
Lemma utf8_char_nonempty c : utf8_char c <> [].
Proof. unfold utf8_char. by repeat case_match. Qed.
Lemma decode_loop_encoded (s : str) : Forall scalar s -> forall fuel, length (as_bytes s) <= fuel -> decode_loop fuel (as_bytes s) = Some <$> s.
Proof.
  induction 1 as [|c s Hc _ IH]; intros fuel Hf; [by destruct fuel|].
  change (as_bytes (c :: s)) with (utf8_char c ++ as_bytes s) in *. rewrite length_app in Hf. pose proof (utf8_char_nonempty c) as Hne.
  destruct (utf8_char c) as [|b bs] eqn:E; [done|]. destruct fuel as [|fuel]; [cbn in Hf; lia|].
  change (decode_loop (S fuel) ((b :: bs) ++ as_bytes s)) with (let '(x, n) := decode_first ((b :: bs) ++ as_bytes s) in x :: decode_loop fuel (drop n ((b :: bs) ++ as_bytes s))).
  rewrite <- E, decode_char by done. rewrite drop_app_length. csimpl. f_equal. apply IH. cbn in Hf. lia.
Qed.

(** Text survives being encoded and decoded. *)
Lemma lossy_encoded (s : str) : Forall scalar s -> from_utf8_lossy (as_bytes s) = s.
Proof.
  intros Hs. unfold from_utf8_lossy, decoded. rewrite decode_loop_encoded by done. rewrite <- list_fmap_compose. by apply list_fmap_id.
Qed.
Lemma strict_encoded (s : str) : Forall scalar s -> from_utf8 (as_bytes s) = Some s.
Proof. intros Hs. unfold from_utf8, decoded. rewrite decode_loop_encoded by done. clear Hs.
  apply mapM_Some, Forall2_fmap_l, Forall_Forall2_diag, Forall_forall. done.
Qed.
