(* ===== verification/Locate.v ===== *)
(** * Locate: where a declaration's name is

    Models [crates/ktsense-lsp/src/symbols.rs]: the engine's candidates, the whole-word search of a name on
    the reported line, the choice of the occurrence nearest the reported column in the units it came in, and
    the correction of every candidate with one read per file. Parsing the engine's JSON and running the
    engine are outside; reading a file is an argument. An offset into a text is the text before it. *)
From stdpp Require Import gmap.
From S2P Require Import Prelude Collections Text Files Words Symbols.

Set Default Proof Using "Type*".

(** [u32::try_from], [saturating_add], [abs_diff]. *)
Definition try_u32 (n : N) : option N := if (n <=? u32_max)%N then Some n else None.
Definition saturating_add32 (a b : N) : N := N.min (a + b) u32_max.
Definition abs_diff (a b : N) : N := if (a <? b)%N then (b - a)%N else (a - b)%N.

(** ** Positions *)

Record FilePosition := mkFilePosition { fp_uri : str; fp_line : N; fp_character : N }.
Definition to_file_position (c : SymbolCandidate) : FilePosition :=
  mkFilePosition (lit "file://" ++ c_file c) (c_line c - 1) (c_col c - 1).

Inductive Resolution := ResolvedNone | Unique (c : SymbolCandidate) | AmbiguousNames (cs : list SymbolCandidate).
Definition classify (candidates : list SymbolCandidate) : Resolution :=
  match candidates with [] => ResolvedNone | [c] => Unique c | _ => AmbiguousNames candidates end.

Inductive ReportedColumn := Character (column : N) | Utf16Offset (units : N).
Record ReportedPosition := mkReported { rp_line : N; rp_column : ReportedColumn }.
Definition from_command_mode (line column : N) : ReportedPosition := mkReported line (Character column).
Definition from_lsp (line character : N) : ReportedPosition := mkReported (saturating_add32 line 1) (Utf16Offset character).

Fixpoint utf16_column_loop (index : nat) (consumed : N) (text : str) (units : N) : option N :=
  match text with
  | [] => None
  | c :: text' =>
      if (units <? saturating_add32 consumed (len_utf16 c))%N then Some (default u32_max (try_u32 (N.of_nat (index + 1))))
      else utf16_column_loop (S index) (saturating_add32 consumed (len_utf16 c)) text' units
  end.
Definition character_column_of_utf16 (text : str) (units : N) : N :=
  default (default u32_max (try_u32 (N.of_nat (length text + 1)))) (utf16_column_loop 0 0 text units).
Definition in_character_columns (c : ReportedColumn) (text : str) : N :=
  match c with Character column => column | Utf16Offset units => character_column_of_utf16 text units end.

(** ** Whole words *)

(** [match_indices]: the occurrences left to right, each after the end of the one before, as the text before
    and the text after; [skip] characters of the last match are still to pass. *)
Fixpoint match_indices (name : str) (skip : nat) (before rest : str) : list (str * str) :=
  match skip with
  | S skip' => match rest with [] => [] | c :: rest' => match_indices name skip' (before ++ [c]) rest' end
  | O =>
      if starts_with rest name then
        (before, drop (length name) rest)
        :: match rest with [] => [] | c :: rest' => match_indices name (length name - 1) (before ++ [c]) rest' end
      else match rest with [] => [] | c :: rest' => match_indices name 0 (before ++ [c]) rest' end
  end.

Section words.
Context `{Unicode}.

Definition is_identifier (c : char) : bool := is_alphanumeric c || (c =? ch "_")%N.
Definition stands_alone (occurrence : str * str) : bool :=
  negb (match last occurrence.1 with Some c => is_identifier c | None => false end)
  && negb (match head occurrence.2 with Some c => is_identifier c | None => false end).
Definition whole_word_offsets (text name : str) : list (str * str) :=
  filter (fun occurrence => stands_alone occurrence = true) (match_indices name 0 [] text).
Definition whole_word_columns (text name : str) : list N :=
  omap (fun occurrence : str * str => try_u32 (N.of_nat (length occurrence.1 + 1))) (whole_word_offsets text name).

(** [min_by_key]: the first of several minima. *)
Fixpoint min_by_key {A} (key : A -> N) (l : list A) : option A :=
  match l with
  | [] => None
  | x :: l' => match min_by_key key l' with
               | Some y => if (key x <=? key y)%N then Some x else Some y
               | None => Some x
               end
  end.
Definition name_column_in_source (source : str) (reported : ReportedPosition) (name : str) : option N :=
  row ← checked_sub (rp_line reported) 1;
  text ← lines source !! N.to_nat row;
  let anchor := in_character_columns (rp_column reported) text in
  min_by_key (fun column => abs_diff column anchor) (whole_word_columns text name).

Section reading.
Context (read : str -> option str).

Definition name_column_near (path : str) (reported : ReportedPosition) (name : str) : option N :=
  source ← read path; name_column_in_source source reported name.
Definition FIRST_COLUMN : N := 1%N.
Definition name_column (path : str) (line : N) (name : str) : option N :=
  name_column_near path (from_command_mode line FIRST_COLUMN) name.

(** [correct_columns]: the sources read so far and the paths read, in order. *)
Definition corrected (candidate : SymbolCandidate) (source : option str) : SymbolCandidate :=
  match (text ← source; name_column_in_source text (from_command_mode (c_line candidate) (c_col candidate)) (c_name candidate)) with
  | Some column => mkSymbolCandidate (c_name candidate) (c_file candidate) (c_line candidate) column
  | None => candidate
  end.
Fixpoint correct_loop (sources : gmap str (option str)) (reads : list str) (candidates : list SymbolCandidate) : list SymbolCandidate * list str :=
  match candidates with
  | [] => ([], reads)
  | candidate :: rest =>
      let '(source, sources, reads) :=
        match sources !! c_file candidate with
        | Some source => (source, sources, reads)
        | None => let source := read (c_file candidate) in (source, <[c_file candidate := source]> sources, reads ++ [c_file candidate])
        end in
      let '(done_, reads) := correct_loop sources reads rest in
      (corrected candidate source :: done_, reads)
  end.
Definition correct_columns (candidates : list SymbolCandidate) : list SymbolCandidate * list str := correct_loop ∅ [] candidates.
End reading.
End words.

(** ** Lemmas: columns *)

Lemma saturating_small a b : (a + b <= u32_max)%N -> saturating_add32 a b = (a + b)%N.
Proof. unfold saturating_add32. lia. Qed.
Lemma try_small n : (n <= u32_max)%N -> try_u32 n = Some n.
Proof. intros H. unfold try_u32. by rewrite (proj2 (N.leb_le _ _) H). Qed.
Lemma length_utf16 s : (N.of_nat (length s) <= utf16_len s)%N.
Proof. induction s as [|c s IH]; [done|]. change (utf16_len (c :: s)) with (len_utf16 c + utf16_len s)%N. unfold len_utf16. cbn [length]. case_match; lia. Qed.
Lemma utf16_loop_hit pre c post units : forall index consumed,
  (consumed + utf16_len (pre ++ c :: post) <= u32_max)%N -> (N.of_nat (index + length pre + 1) <= u32_max)%N ->
  (consumed + utf16_len pre <= units < consumed + utf16_len pre + len_utf16 c)%N ->
  utf16_column_loop index consumed (pre ++ c :: post) units = Some (N.of_nat (index + length pre + 1)).
Proof.
  induction pre as [|d pre IH]; intros index consumed Hs Hi Hu; rewrite utf16_len_app in Hs; cbn [app utf16_column_loop].
  - change (utf16_len []) with 0%N in *. change (utf16_len (c :: post)) with (len_utf16 c + utf16_len post)%N in Hs.
    rewrite saturating_small by lia. rewrite (proj2 (N.ltb_lt _ _)) by lia. cbn [length] in *. rewrite try_small by lia. cbn. f_equal. lia.
  - change (utf16_len (d :: pre)) with (len_utf16 d + utf16_len pre)%N in *. change (utf16_len (c :: post)) with (len_utf16 c + utf16_len post)%N in Hs.
    rewrite saturating_small by lia. rewrite (proj2 (N.ltb_ge _ _)) by lia. rewrite IH; [f_equal; cbn [length]; lia| | |lia].
    + rewrite utf16_len_app. change (utf16_len (c :: post)) with (len_utf16 c + utf16_len post)%N. lia.
    + cbn [length] in Hi. lia.
Qed.
Lemma utf16_loop_past text units : forall index consumed, (consumed + utf16_len text <= u32_max)%N -> (consumed + utf16_len text <= units)%N ->
  utf16_column_loop index consumed text units = None.
Proof.
  induction text as [|c text IH]; intros index consumed Hs Hu; [done|]. change (utf16_len (c :: text)) with (len_utf16 c + utf16_len text)%N in *.
  cbn [utf16_column_loop]. rewrite saturating_small by lia. rewrite (proj2 (N.ltb_ge _ _)) by lia. apply IH; lia.
Qed.

(** A UTF-16 offset becomes the character column of the character it falls in, at its first unit or
    inside its surrogate pair, and an offset past the end one column past the last character. *)
Theorem utf16_column_exact (text : str) (units : N) :
  (utf16_len text < u32_max)%N ->
  (exists pre c post, text = pre ++ c :: post /\ (utf16_len pre <= units < utf16_len pre + len_utf16 c)%N /\
     character_column_of_utf16 text units = N.of_nat (length pre + 1)) \/
  ((utf16_len text <= units)%N /\ character_column_of_utf16 text units = N.of_nat (length text + 1)).
Proof.
  intros Hs. pose proof (length_utf16 text) as Hl. destruct (N.lt_ge_cases units (utf16_len text)) as [Hu|Hu].
  - left. assert (forall base, (base + units < base + utf16_len text)%N -> exists pre c post, text = pre ++ c :: post /\ (utf16_len pre <= units < utf16_len pre + len_utf16 c)%N) as Hsplit.
    { intros _ _. clear Hs Hl. revert units Hu. induction text as [|c text IH]; intros units Hu; [by apply N.nlt_0_r in Hu|]. change (utf16_len (c :: text)) with (len_utf16 c + utf16_len text)%N in Hu.
      destruct (N.lt_ge_cases units (len_utf16 c)) as [Hc|Hc]; [exists [], c, text; split; [done|]; change (utf16_len []) with 0%N; lia|].
      destruct (IH (units - len_utf16 c)%N) as (pre & d & post & -> & Hp); [lia|]. exists (c :: pre), d, post. split; [done|].
      change (utf16_len (c :: pre)) with (len_utf16 c + utf16_len pre)%N. lia. }
    destruct (Hsplit 0%N) as (pre & c & post & -> & Hp); [lia|]. exists pre, c, post. split; [done|]. split; [done|]. unfold character_column_of_utf16.
    rewrite length_app in Hl. cbn [length] in Hl. rewrite (utf16_loop_hit pre c post units 0 0%N); [done| | |]; cbn [length Nat.add]; lia.
  - right. split; [done|]. unfold character_column_of_utf16. rewrite utf16_loop_past by lia. cbn [default from_option]. rewrite try_small by lia. done.
Qed.

(** ** Lemmas: whole words *)

Section word_facts.
Context `{Unicode} (name : str).
Hypothesis Hid : Forall (fun c => is_identifier c = true) name.
Hypothesis Hne : name <> [].

Lemma match_sound rest : forall skip before b a, (b, a) ∈ match_indices name skip before rest ->
  before ++ rest = b ++ name ++ a /\ length before + skip <= length b.
Proof.
  induction rest as [|c rest IH]; intros skip before b a Hin; destruct skip as [|skip]; cbn [match_indices] in Hin.
  - destruct (starts_with [] name) eqn:E; [|by apply not_elem_of_nil in Hin]. apply starts_with_spec in E as [k Hk]. by destruct name.
  - by apply not_elem_of_nil in Hin.
  - assert (forall k, (b, a) ∈ match_indices name k (before ++ [c]) rest -> before ++ c :: rest = b ++ name ++ a /\ length before + 0 <= length b) as Hrec.
    { intros k [E Hl]%IH. rewrite <- app_assoc in E. split; [done|]. rewrite length_app in Hl. cbn in Hl. lia. }
    destruct (starts_with (c :: rest) name) eqn:E; [|by apply Hrec in Hin]. apply elem_of_cons in Hin as [[= -> ->]|Hin]; [|by apply Hrec in Hin].
    apply starts_with_spec in E as [k Hk]. rewrite Hk, drop_app_length. split; [done|lia].
  - apply IH in Hin as [E Hl]. rewrite <- app_assoc in E. split; [done|]. rewrite length_app in Hl. cbn in Hl. lia.
Qed.

(** An occurrence the scan skips overlaps one before it, so an identifier character precedes it. *)
Lemma overlap_not_alone before rest c b a : before ++ c :: rest = b ++ name ++ a -> starts_with (c :: rest) name = true ->
  length before < length b < length before + length name -> stands_alone (b, a) = false.
Proof.
  intros E Hs Hl. apply starts_with_spec in Hs as [k Hk]. unfold stands_alone. cbn [fst snd].
  destruct b as [|d0 b0] using rev_ind; [cbn in Hl; lia|]. clear IHb0. rewrite last_snoc. rewrite length_app in Hl. cbn [length] in Hl.
  assert ((before ++ name ++ k) !! length b0 = Some d0) as Hd.
  { rewrite <- Hk, E, <- app_assoc. by apply list_lookup_middle. }
  rewrite lookup_app_r in Hd by lia. rewrite lookup_app_l in Hd by lia. apply list_elem_of_lookup_2 in Hd. rewrite Forall_forall in Hid. by rewrite Hid.
Qed.
Lemma match_complete rest : forall skip before b a, before ++ rest = b ++ name ++ a -> stands_alone (b, a) = true ->
  length before + skip <= length b -> (b, a) ∈ match_indices name skip before rest.
Proof.
  induction rest as [|c rest IH]; intros skip before b a E Ha Hl.
  { exfalso. apply (f_equal length) in E. rewrite !length_app in E. cbn in E. assert (length name <> 0) by (by destruct name). lia. }
  assert (forall k, length before + S k <= length b -> (b, a) ∈ match_indices name k (before ++ [c]) rest) as Hrec.
  { intros k Hk. apply IH; [by rewrite <- app_assoc|done|]. rewrite length_app. cbn. lia. }
  destruct skip as [|skip]; cbn [match_indices]; [|by apply Hrec].
  destruct (decide (length b = length before)) as [El|El].
  - apply app_inj_1 in E as [-> E]; [|done]. assert (starts_with (c :: rest) name = true) as -> by (apply starts_with_spec; by exists a).
    assert (drop (length name) (c :: rest) = a) as -> by (by rewrite E, drop_app_length). left.
  - destruct (starts_with (c :: rest) name) eqn:Es; [|apply Hrec; lia]. right. apply Hrec.
    destruct (decide (length before + length name <= length b)) as [Hfar|Hnear]; [assert (length name <> 0) by (by destruct name); lia|].
    exfalso. rewrite (overlap_not_alone before rest c b a) in Ha; [done..|lia].
Qed.
Lemma match_sorted rest : forall skip before, StronglySorted (fun x y : str * str => length x.1 < length y.1) (match_indices name skip before rest).
Proof.
  induction rest as [|c rest IH]; intros [|skip] before; cbn [match_indices]; try apply IH; try constructor.
  - destruct (starts_with [] name); repeat constructor.
  - destruct (starts_with (c :: rest) name); [|apply IH]. constructor; [apply IH|]. apply Forall_forall. intros [b a] [_ Hl]%match_sound.
    rewrite length_app in Hl. cbn in *. lia.
Qed.
Lemma elem_of_whole text b a : (b, a) ∈ whole_word_offsets text name <-> text = b ++ name ++ a /\ stands_alone (b, a) = true.
Proof.
  unfold whole_word_offsets. rewrite list_elem_of_filter. split.
  - intros [Ha [E _]%match_sound]. done.
  - intros [E Ha]. split; [done|]. apply match_complete; [done|done|cbn; lia].
Qed.
Lemma whole_columns text : (N.of_nat (length text) < u32_max)%N ->
  whole_word_columns text name = (fun o : str * str => N.of_nat (length o.1 + 1)) <$> whole_word_offsets text name.
Proof.
  intros Hl. unfold whole_word_columns. assert (Forall (fun o : str * str => N.of_nat (length o.1 + 1) <= u32_max)%N (whole_word_offsets text name)) as Hs.
  { apply Forall_forall. intros [b a] [-> _]%elem_of_whole. rewrite !length_app in Hl. cbn [fst]. assert (length name <> 0) by (by destruct name). lia. }
  induction Hs as [|o os Ho _ IH]; [done|]. csimpl. by rewrite try_small, IH.
Qed.
Lemma whole_columns_sorted text : (N.of_nat (length text) < u32_max)%N -> StronglySorted N.lt (whole_word_columns text name).
Proof.
  intros Hl. rewrite whole_columns by done. unfold whole_word_offsets.
  assert (StronglySorted (fun x y : str * str => length x.1 < length y.1) (filter (fun o => stands_alone o = true) (match_indices name 0 [] text))) as Hs.
  { eapply sublist_strongly_sorted; [apply sublist_filter|apply match_sorted]. }
  induction Hs as [|o os _ IH Ho]; [constructor|]. csimpl. constructor; [done|]. apply Forall_fmap. apply (Forall_impl _ _ _ Ho). intros x Hx. cbn. lia.
Qed.
End word_facts.

(** ** Lemmas: the nearest *)

Lemma min_by_key_spec {A} (key : A -> N) l :
  match min_by_key key l with
  | Some x => exists before after, l = before ++ x :: after /\ Forall (fun y => (key x < key y)%N) before /\ Forall (fun y => (key x <= key y)%N) after
  | None => l = []
  end.
Proof.
  induction l as [|x l IH]; [done|]. cbn [min_by_key]. destruct (min_by_key key l) as [y|]; [|subst; by exists [], []].
  destruct IH as (before & after & -> & Hb & Ha). destruct (N.leb_spec (key x) (key y)) as [Hle|Hlt].
  - exists [], (before ++ y :: after). split_and!; [done|constructor|]. apply Forall_app. split; [|constructor; [done|]].
    + apply (Forall_impl _ _ _ Hb). intros z. lia.
    + apply (Forall_impl _ _ _ Ha). intros z. lia.
  - exists (x :: before), after. split_and!; [done|by constructor|done].
Qed.

Section nearest.
Context `{Unicode}.

(** Where a name stands as a whole word on a line. *)
Definition stands_at (text name : str) (column : N) : Prop :=
  exists before after, text = before ++ name ++ after /\ stands_alone (before, after) = true /\ column = N.of_nat (length before + 1).
Definition identifier_name (name : str) : Prop := name <> [] /\ Forall (fun c => is_identifier c = true) name.

Lemma elem_of_columns text name column : identifier_name name -> (N.of_nat (length text) < u32_max)%N ->
  column ∈ whole_word_columns text name <-> stands_at text name column.
Proof.
  intros [Hne Hid] Hl. rewrite whole_columns by done. rewrite list_elem_of_fmap. split.
  - intros ([b a] & -> & [-> Ha]%elem_of_whole); [|done..]. by exists b, a.
  - intros (b & a & E & Ha & ->). exists (b, a). split; [done|]. by apply elem_of_whole.
Qed.

(** The column a position request is built from is that of the declared name: of all the places the
    name stands as a whole word on the reported line it is the one nearest the reported column, the earlier
    of two as near, and there is no answer only when the line or the name is not there. No occurrence is
    missed because the scan skips ahead past a match. *)
Theorem name_column_nearest (source name : str) (reported : ReportedPosition) :
  identifier_name name -> (utf8_len source < u32_max)%N ->
  let line := if (rp_line reported =? 0)%N then None else lines source !! N.to_nat (rp_line reported - 1) in
  match name_column_in_source source reported name with
  | Some column => exists text, line = Some text /\ stands_at text name column /\
      forall other, stands_at text name other ->
        let anchor := in_character_columns (rp_column reported) text in
        (abs_diff column anchor < abs_diff other anchor \/ abs_diff column anchor = abs_diff other anchor /\ column <= other)%N
  | None => forall text column, line = Some text -> ~ stands_at text name column
  end.
Proof.
  intros Hname Hl line. unfold name_column_in_source. unfold checked_sub. subst line. destruct (N.eqb_spec (rp_line reported) 0) as [E0|E0].
  { rewrite E0. cbn. done. }
  rewrite (proj2 (N.leb_le _ _)) by lia. cbn [mbind option_bind]. destruct (lines source !! N.to_nat (rp_line reported - 1)) as [text|] eqn:Et; [|done].
  cbn [mbind option_bind]. assert (N.of_nat (length text) < u32_max)%N as Hlt.
  { apply list_elem_of_lookup_2, line_utf8 in Et. pose proof (length_utf8 text). lia. }
  pose proof (min_by_key_spec (fun column => abs_diff column (in_character_columns (rp_column reported) text)) (whole_word_columns text name)) as Hm.
  destruct (min_by_key _ _) as [column|].
  - destruct Hm as (before & after & El & Hb & Ha). assert (column ∈ whole_word_columns text name) as Hin by (rewrite El; apply elem_of_app; right; left).
    exists text. split; [done|]. split; [by apply elem_of_columns|]. intros other Ho. cbv zeta. apply elem_of_columns in Ho; [|done..].
    destruct Hname as [Hne Hid]. pose proof (whole_columns_sorted name Hid Hne text Hlt) as Hs. rewrite El in Ho, Hs.
    apply elem_of_app in Ho as [Ho|[->|Ho]%elem_of_cons]; [left|right; split; lia|].
    + rewrite Forall_forall in Hb. by apply Hb.
    + rewrite Forall_forall in Ha. specialize (Ha other Ho). cbn in Ha. apply StronglySorted_app_1_r in Hs. apply StronglySorted_inv in Hs as [_ Hs].
      rewrite Forall_forall in Hs. specialize (Hs other Ho). lia.
  - intros text' column [= <-] Hc. apply elem_of_columns in Hc; [|done..]. rewrite Hm in Hc. by apply not_elem_of_nil in Hc.
Qed.
End nearest.

(** ** Lemmas: one read per file *)

Section correcting.
Context `{Unicode} (read : str -> option str).

Definition sources_read (sources : gmap str (option str)) (reads : list str) : Prop :=
  NoDup reads /\ forall file, sources !! file = if decide (file ∈ reads) then Some (read file) else None.
Lemma correct_loop_spec candidates : forall sources reads, sources_read sources reads ->
  exists reads', correct_loop read sources reads candidates = ((fun c => corrected c (read (c_file c))) <$> candidates, reads ++ reads') /\
    NoDup (reads ++ reads') /\ forall file, file ∈ reads ++ reads' <-> file ∈ reads \/ exists c, c ∈ candidates /\ c_file c = file.
Proof.
  induction candidates as [|c candidates IH]; intros sources reads [Hnd Hs]; cbn [correct_loop].
  { exists []. rewrite app_nil_r. split_and!; [done|done|]. intros file. split; [by left|]. intros [Hf|(c & Hc & _)]; [done|by apply not_elem_of_nil in Hc]. }
  rewrite (Hs (c_file c)). case_decide as Hin.
  - destruct (IH sources reads (conj Hnd Hs)) as (reads' & E & Hnd' & Hf). exists reads'. cbn beta iota zeta. rewrite E. split_and!; [done|done|].
    intros file. rewrite Hf. split; [intros [?|(d & Hd & <-)]; [by left|right; exists d; split; [by right|done]]|].
    intros [?|(d & [->|Hd]%elem_of_cons & <-)]; [by left|by left|right; by exists d].
  - assert (sources_read (<[c_file c := read (c_file c)]> sources) (reads ++ [c_file c])) as Hs'.
    { split; [apply NoDup_app; split_and!; [done| |apply NoDup_singleton]; by intros f Hf ->%list_elem_of_singleton|].
      intros file. destruct (decide (file = c_file c)) as [->|Hne].
      - rewrite lookup_insert_eq, decide_True; [done|]. apply elem_of_app. right. left.
      - rewrite lookup_insert_ne by done. rewrite Hs. destruct (decide (file ∈ reads)) as [Hr|Hr], (decide (file ∈ reads ++ [c_file c])) as [Hd|Hd]; try done; exfalso.
        + apply Hd. apply elem_of_app. by left.
        + by apply elem_of_app in Hd as [?| ->%list_elem_of_singleton]. }
    destruct (IH _ _ Hs') as (reads' & E & Hnd' & Hf). rewrite <- app_assoc in *. exists (c_file c :: reads'). cbn beta iota zeta. rewrite E. split_and!; [done|done|].
    intros file. rewrite Hf. rewrite elem_of_app, list_elem_of_singleton. split.
    + intros [[?| ->]|(d & Hd & <-)]; [by left|right; exists c; split; [left|done]|right; exists d; split; [by right|done]].
    + intros [?|(d & [->|Hd]%elem_of_cons & <-)]; [by left; left|by left; right|right; by exists d].
Qed.

(** Correcting the engine's candidates reads every file they name exactly once, however many share it,
    and still gives each candidate the column found from its own reported position in its own file, leaving
    a candidate it cannot verify as it came. *)
Theorem correct_columns_exact (candidates : list SymbolCandidate) :
  let '(done_, reads) := correct_columns read candidates in
  done_ = (fun c => corrected c (read (c_file c))) <$> candidates /\ NoDup reads /\ (forall file, file ∈ reads <-> exists c, c ∈ candidates /\ c_file c = file).
Proof.
  unfold correct_columns. destruct (correct_loop_spec candidates ∅ []) as (reads & E & Hnd & Hf).
  { split; [constructor|]. intros file. rewrite decide_False by apply not_elem_of_nil. done. }
  cbn [app] in *. rewrite E. split_and!; [done|done|]. intros file. rewrite Hf. split; [|by right]. intros [Hf'|?]; [by apply not_elem_of_nil in Hf'|done].
Qed.
End correcting.

(** ** Witnesses *)

Definition value_line : str := lit "class TypeOf(val value: UByte)".
(** The keyword [val] at 14 is not the word; the property is at 18, and the engine points nearby. *)
Lemma name_column_nearest_witness :
  (@identifier_name latin1_unicode (lit "value") /\ (utf8_len value_line < u32_max)%N) /\
  @name_column_in_source latin1_unicode value_line (from_command_mode 1 14) (lit "value") = Some 18%N.
Proof.
  assert (@identifier_name latin1_unicode (lit "value")) as Hn by (split; [discriminate|vm_compute; repeat constructor]).
  split; [split; [exact Hn|vm_compute; reflexivity]|].
  pose proof (@name_column_nearest latin1_unicode value_line (lit "value") (from_command_mode 1 14) Hn ltac:(vm_compute; reflexivity)) as H. cbv zeta in H.
  destruct (@name_column_in_source latin1_unicode value_line (from_command_mode 1 14) (lit "value")) as [column|] eqn:E; vm_compute in E; [exact (f_equal Some (eq_sym (f_equal (default 0%N) E)))|discriminate].
Defined.
Lemma utf16_column_exact_witness : (utf16_len ([119070; 32]%N ++ lit "save") < u32_max)%N /\ character_column_of_utf16 ([119070; 32]%N ++ lit "save") 3 = 3%N.
Proof.
  split; [reflexivity|]. destruct (utf16_column_exact ([119070; 32]%N ++ lit "save") 3) as [(pre & c & post & _ & _ & E)|[H _]];
    [reflexivity|vm_compute; reflexivity|by destruct H].
Defined.

(** A clef takes two UTF-16 units, so the position of a name after it counts one unit too few. *)
Lemma position_counts_characters :
  let line := lit "fun " ++ [119070]%N ++ lit " save" in
  exists before after, line = before ++ lit "save" ++ after /\ utf16_len before = 7%N /\
    fp_character (to_file_position (@corrected latin1_unicode (mkSymbolCandidate (lit "save") (lit "/A.kt") 1 8) (Some line))) = 6%N.
Proof. exists (lit "fun " ++ [119070; 32]%N), []. split_and!; vm_compute; reflexivity. Qed.
