(* ===== verification/Engine.v ===== *)
(** * Engine: what crosses the boundary to the engine

    Models [crates/ktsense-lsp/src/requests.rs] (positions out, file sites back), the warm index lookup of
    [crates/ktsense-daemon/src/symbols.rs] and the readers of [crates/ktsense-lsp/src/passthrough.rs] and
    [symbols.rs] over the output of a finished engine process. The engine's replies, the URI grammar of
    [lsp_types] and the JSON decoder are the fields of [EngineClient]. *)
From S2P Require Import Prelude Collections Framing Text Answers Files Words Symbols Utf8 Locate.

Set Default Proof Using "Type*".

(** ** Data *)

Inductive DeclarationScope := Included | Excluded.
Definition includes_declaration (s : DeclarationScope) : bool := match s with Included => true | Excluded => false end.
Inductive LspError := InvalidUri (uri : str) | EngineFault (message : str).

(** [lsp_types]: a location with the start of its range; a definition answer in its three shapes. *)
Record LspLocation := mkLspLocation { ll_uri : str; ll_line : N; ll_character : N }.
Inductive GotoDefinitionResponse := Scalar (l : LspLocation) | Array (ls : list LspLocation) | Link (ls : list LspLocation).
Record SiteLocation := mkSiteLocation { sl_path : str; sl_line : N; sl_column : N }.
Record ReportedSymbol := mkReportedSymbol { rs_name : str; rs_location : LspLocation }.

(** A connected engine: whether a text is a URI, and its reply to each request. *)
Class EngineClient := {
  uri_parses : str -> bool;
  implementation_reply : FilePosition -> LspError + option GotoDefinitionResponse;
  references_reply : FilePosition -> bool -> LspError + option (list LspLocation);
  workspace_symbol_reply : str -> LspError + (str + option (list ReportedSymbol)) }.

(** ** [uri_to_path] *)

Definition hex_digit (c : char) : option N :=
  if ascii_digit c then Some (c - 48)%N
  else if (97 <=? c)%N && (c <=? 102)%N then Some (c - 87)%N
  else if (65 <=? c)%N && (c <=? 70)%N then Some (c - 55)%N else None.
(** [u8::from_str_radix(_, 16)]: an optional plus sign, then digits. *)
Definition hex_step (acc : option N) (c : char) : option N :=
  n ← acc; d ← hex_digit c; if (n * 16 + d <=? 255)%N then Some (n * 16 + d)%N else None.
Definition from_str_radix16 (s : str) : option N :=
  let digits := match s with c :: (_ :: _) as rest => if (c =? ch "+")%N then rest else s | _ => s end in
  match digits with [] => None | _ => foldl hex_step (Some 0%N) digits end.
Definition escaped_byte (bytes : list N) : option N :=
  match bytes with
  | percent :: a :: b :: _ => if (percent =? ch "%")%N then text ← from_utf8 [a; b]; from_str_radix16 text else None
  | _ => None
  end.
Fixpoint decode_bytes (fuel : nat) (bytes : list N) : list N :=
  match fuel, bytes with
  | S fuel', b :: rest =>
      match escaped_byte bytes with
      | Some byte => byte :: decode_bytes fuel' (drop 3 bytes)
      | None => b :: decode_bytes fuel' rest
      end
  | _, _ => []
  end.
Definition percent_decode (text : str) : str :=
  let bytes := as_bytes text in from_utf8_lossy (decode_bytes (length bytes) bytes).
Definition uri_to_path (uri : str) : str :=
  match strip_prefix uri (lit "file://") with
  | Some encoded => percent_decode encoded
  | None => uri
  end.

(** ** Requests *)

Definition site_of_location (l : LspLocation) : SiteLocation :=
  mkSiteLocation (uri_to_path (ll_uri l)) (ll_line l + 1) (ll_character l + 1).
Definition flatten_response (response : option GotoDefinitionResponse) : list LspLocation :=
  match response with
  | Some (Scalar l) => [l]
  | Some (Array ls) => ls
  | Some (Link ls) => ls
  | None => []
  end.

Section requests.
Context `{EngineClient}.

(** [to_position_params] refuses a position whose URI does not parse. *)
Definition at_position {A} (at_ : FilePosition) (reply : LspError + A) : LspError + A :=
  if uri_parses (fp_uri at_) then reply else inl (InvalidUri (fp_uri at_)).
Definition implementation_sites (at_ : FilePosition) : LspError + list SiteLocation :=
  match at_position at_ (implementation_reply at_) with
  | inl e => inl e
  | inr response => inr (site_of_location <$> flatten_response response)
  end.
Definition reference_sites (at_ : FilePosition) (scope : DeclarationScope) : LspError + list SiteLocation :=
  match at_position at_ (references_reply at_ (includes_declaration scope)) with
  | inl e => inl e
  | inr locations => inr (site_of_location <$> default [] locations)
  end.

(** ** The warm index *)

Definition WORKSPACE_SYMBOL_CAP : nat := 512.
Inductive Inconclusive := Truncated (returned : nat) | Unindexed | RequestFailed (message : str).
Inductive WarmResolution := Declarations (candidates : list SymbolCandidate) | InconclusiveAnswer (reason : Inconclusive).

Section warm.
Context `{Unicode} (canonicalize : FsPath -> option FsPath) (read : str -> option str).

(** [starts_with] compares whole components. *)
Definition is_under (root path : FsPath) : bool :=
  bool_decide (is_Some (path_strip_prefix path root))
  || match canonicalize path with Some resolved => bool_decide (is_Some (path_strip_prefix resolved root)) | None => false end.
Definition candidate_at (name : str) (entry : ReportedSymbol) (path : str) : SymbolCandidate :=
  let start := rs_location entry in
  let reported := from_lsp (ll_line start) (ll_character start) in
  mkSymbolCandidate name path (rp_line reported)
    (default (saturating_add32 (ll_character start) 1) (name_column_near read path reported name)).
Definition declarations_in_root (name : str) (root : FsPath) (reported : list ReportedSymbol) : list SymbolCandidate :=
  let root := default root (canonicalize root) in
  (fun e : ReportedSymbol * str => candidate_at name e.1 e.2) <$>
    filter (fun e : ReportedSymbol * str => is_under root (parse_path e.2) = true)
      ((fun entry => (entry, uri_to_path (ll_uri (rs_location entry)))) <$> filter (fun entry => rs_name entry = name) reported).
Definition classify_reported (name : str) (root : FsPath) (reported : list ReportedSymbol) : WarmResolution :=
  if WORKSPACE_SYMBOL_CAP <=? length reported then InconclusiveAnswer (Truncated (length reported))
  else match declarations_in_root name root reported with
       | [] => InconclusiveAnswer Unindexed
       | declarations => Declarations declarations
       end.
Definition error_text (e : LspError) : str :=
  match e with InvalidUri uri => lit "`" ++ uri ++ lit "` is not a valid document URI" | EngineFault message => message end.
Definition resolve_from_warm_index (root : FsPath) (name : str) : WarmResolution :=
  match workspace_symbol_reply name with
  | inl error => InconclusiveAnswer (RequestFailed (error_text error))
  | inr (inl unexpected) => InconclusiveAnswer (RequestFailed (lit "unexpected workspace/symbol response: " ++ unexpected))
  | inr (inr reported) => classify_reported name root (default [] reported)
  end.
End warm.
End requests.

(** ** A finished engine process *)

Record Captured := mkCaptured { cp_code : option Z; cp_stdout : list N; cp_stderr : list N }.
Inductive PassthroughError :=
  | Spawn (path : str) | Io (command : str) | Timeout (command : str)
  | Failed (command code stderr : str) | Unparseable (command detail : str).

Definition dec_z (z : Z) : str := if (z <? 0)%Z then ch "-" :: dec (Z.to_N (- z)) else dec (Z.to_N z).
Definition code_label (code : option Z) : str :=
  match code with Some code => lit "exit " ++ dec_z code | None => lit "terminated by signal" end.
Definition stderr_snippet (stderr : list N) : str :=
  let trimmed := trim (from_utf8_lossy stderr) in
  match trimmed with [] => lit "no stderr" | _ => trimmed end.
Definition unparse_detail (error : str) (stderr : list N) : str := error ++ lit "; engine stderr: " ++ stderr_snippet stderr.
(** [normalize]: like the display paths, without asking the file system. *)
Definition normalize_report (root : FsPath) (file : str) : str :=
  let path := parse_path file in join_components (default path (path_strip_prefix path root)).

Record SyntaxError := mkSyntaxError { se_file : str; se_line : N; se_col : N; se_message : str }.
Record CheckReport := mkCheckReport { ck_files_ok : N; ck_files_with_errors : N; ck_errors : list SyntaxError }.
Definition has_errors (r : CheckReport) : bool := (0 <? ck_files_with_errors r)%N || negb (bool_decide (ck_errors r = [])).

(** The JSON decoders; [inl] carries the decoder's message. *)
Section json.
Context (from_check : list N -> str + CheckReport) (from_find : str -> str + list SymbolCandidate).

Definition parse_check (root : FsPath) (captured : Captured) : PassthroughError + CheckReport :=
  match from_check (cp_stdout captured) with
  | inl err => inl (Unparseable (lit "check") (unparse_detail err (cp_stderr captured)))
  | inr raw => inr (mkCheckReport (ck_files_ok raw) (ck_files_with_errors raw)
      ((fun e => mkSyntaxError (normalize_report root (se_file e)) (se_line e) (se_col e) (se_message e)) <$> ck_errors raw))
  end.
(** [parse_find]: an empty answer is "no such name" only when nothing was said on stderr. *)
Definition parse_find (captured : Captured) : PassthroughError + list SymbolCandidate :=
  let trimmed := trim (from_utf8_lossy (cp_stdout captured)) in
  match trimmed with
  | [] =>
      if bool_decide (stderr_snippet (cp_stderr captured) = lit "no stderr") then inr []
      else inl (Failed (lit "find") (code_label (cp_code captured)) (stderr_snippet (cp_stderr captured)))
  | _ => match from_find trimmed with
         | inl err => inl (Unparseable (lit "find") (err ++ lit "; engine stderr: " ++ stderr_snippet (cp_stderr captured)))
         | inr raw => inr raw
         end
  end.
(** [SymbolResolver::find] on what the engine process left. *)
Definition find_captured `{Unicode} (read : str -> option str) (captured : PassthroughError + Captured) : PassthroughError + list SymbolCandidate :=
  match captured with
  | inl e => inl e
  | inr captured => match parse_find captured with inl e => inl e | inr raw => inr (fst (correct_columns read raw)) end
  end.
End json.

Inductive Severity := SevError | SevWarning | SevInfo.
Record Diagnostic := mkDiagnostic { dg_line : N; dg_col : N; dg_severity : Severity; dg_message : str }.
Record DiagnoseReport := mkDiagnoseReport { dr_file : str; dr_diagnostics : list Diagnostic }.
Definition NO_DIAGNOSTICS : str := lit "No diagnostics.".
Definition parse_severity (text : str) : option Severity :=
  if bool_decide (text = lit "error") then Some SevError
  else if bool_decide (text = lit "warning") then Some SevWarning
  else if bool_decide (text = lit "info") || bool_decide (text = lit "information") then Some SevInfo else None.

(** [str::split_once] on a text. *)
Fixpoint split_once_str (sep s : str) : option (str * str) :=
  match strip_prefix s sep with
  | Some after => Some ([], after)
  | None => match s with
            | [] => None
            | c :: s' => '(before, after) ← split_once_str sep s'; Some (c :: before, after)
            end
  end.
Definition parse_diagnostic_line (line : str) : option Diagnostic :=
  '(position, rest) ← split_once_str (lit " [") line;
  '(severity, message) ← split_once_str (lit "]: ") rest;
  '(line_text, col_text) ← split_once (ch ":") position;
  line ← parse_unsigned u32_max (trim line_text);
  col ← parse_unsigned u32_max (trim col_text);
  severity ← parse_severity severity;
  Some (mkDiagnostic line col severity message).
Fixpoint parse_diagnostics (lines_ : list str) : str + list Diagnostic :=
  match lines_ with
  | [] => inr []
  | line :: lines_' =>
      match parse_diagnostic_line line with
      | None => inl line
      | Some d => match parse_diagnostics lines_' with inl e => inl e | inr ds => inr (d :: ds) end
      end
  end.
(** The text of the unparseable line is shown in debug form, which the error keeps as the line. *)
Definition parse_diagnose (file : str) (captured : Captured) : PassthroughError + DiagnoseReport :=
  if bool_decide (cp_code captured = Some 0%Z) then
    let trimmed := trim (from_utf8_lossy (cp_stdout captured)) in
    if bool_decide (trimmed = []) || bool_decide (trimmed = NO_DIAGNOSTICS) then inr (mkDiagnoseReport file [])
    else match parse_diagnostics (lines trimmed) with
         | inl line => inl (Unparseable (lit "diagnose") (lit "unrecognized diagnostic line: " ++ line))
         | inr diagnostics => inr (mkDiagnoseReport file diagnostics)
         end
  else inl (Failed (lit "diagnose") (code_label (cp_code captured)) (stderr_snippet (cp_stderr captured))).

(** ** What the commands print of it: [check_markdown], [diagnose_markdown] *)

Definition check_line (e : SyntaxError) : str :=
  se_file e ++ lit ":" ++ dec (se_line e) ++ lit ":" ++ dec (se_col e) ++ lit ": " ++ se_message e.
Definition check_markdown (report : CheckReport) : str :=
  lit "## Syntax check" ++ nl ++ nl ++ dec (ck_files_ok report) ++ lit " OK, " ++ dec (ck_files_with_errors report) ++ lit " with errors." ++ nl
  ++ match ck_errors report with [] => [] | errors => nl ++ fenced_block (check_line <$> errors) end.
Definition severity_word (s : Severity) : str :=
  match s with SevError => lit "error" | SevWarning => lit "warning" | SevInfo => lit "info" end.
Definition diagnostic_line (d : Diagnostic) : str :=
  dec (dg_line d) ++ lit ":" ++ dec (dg_col d) ++ lit " [" ++ severity_word (dg_severity d) ++ lit "]: " ++ dg_message d.
Definition diagnose_markdown (report : DiagnoseReport) : str :=
  lit "## Diagnostics: " ++ neutralize (dr_file report) ++ nl
  ++ match dr_diagnostics report with
     | [] => nl ++ lit "No diagnostics." ++ nl
     | diagnostics => nl ++ fenced_block (diagnostic_line <$> diagnostics)
     end.

(** ** Lemmas: URIs *)

Section uris.
Context (keep : N -> bool).
Hypothesis keep_plain : forall b, keep b = true -> (b < 128)%N /\ b <> ch "%".

(** A URI encoder: a byte it does not keep becomes a percent sign and two hexadecimal digits. *)
Definition encode_byte (b : N) : str := if keep b then [b] else [ch "%"; digit_char (b / 16); digit_char (b mod 16)].
Definition percent_encode (s : str) : str := concat (encode_byte <$> as_bytes s).

Lemma escaped_digits b rest : (b < 256)%N -> escaped_byte (ch "%" :: digit_char (b / 16) :: digit_char (b mod 16) :: rest) = Some b.
Proof.
  intros Hb. change (escaped_byte (ch "%" :: digit_char (b / 16) :: digit_char (b mod 16) :: rest)) with
    (text ← from_utf8 [digit_char (b / 16); digit_char (b mod 16)]; from_str_radix16 text).
  assert (forallb (fun n => bool_decide ((text ← from_utf8 [digit_char (N.of_nat n / 16); digit_char (N.of_nat n mod 16)]; from_str_radix16 text) = Some (N.of_nat n))) (seq 0 256) = true) as Ha
    by (vm_compute; reflexivity).
  rewrite forallb_forall in Ha. specialize (Ha (N.to_nat b)). rewrite N2Nat.id in Ha. apply bool_decide_eq_true in Ha; [done|]. apply in_seq. lia.
Qed.
Lemma not_escaped b rest : b <> ch "%" -> escaped_byte (b :: rest) = None.
Proof. intros Hb. destruct rest as [|x [|y rest]]; [done..|]. cbn [escaped_byte]. by rewrite (proj2 (N.eqb_neq _ _) Hb). Qed.
Lemma decode_encoded bytes : Forall (fun b => (b < 256)%N) bytes -> forall fuel, length (concat (encode_byte <$> bytes)) <= fuel ->
  decode_bytes fuel (concat (encode_byte <$> bytes)) = bytes.
Proof.
  induction 1 as [|b bytes Hb _ IH]; intros fuel Hf; [by destruct fuel|]. csimpl in *. rewrite length_app in Hf. unfold encode_byte in Hf at 1. unfold encode_byte at 1.
  destruct (keep b) eqn:Ek; cbn [length Nat.add] in Hf; (destruct fuel as [|fuel]; [lia|]); cbn [app decode_bytes].
  - apply keep_plain in Ek as [_ Hp]. rewrite not_escaped by done. f_equal. apply IH. lia.
  - rewrite escaped_digits by done. cbn [drop]. f_equal. apply IH. lia.
Qed.
Lemma digit_ascii n : (n < 16)%N -> (digit_char n < 128)%N.
Proof. unfold digit_char. case_match; lia. Qed.

(** A path survives its trip as a URI: whatever characters the engine's encoder leaves as they are, the
    decoded path is the path it encoded, in any script. *)
Theorem uri_path_roundtrip (path : str) : Forall scalar path -> uri_to_path (lit "file://" ++ percent_encode path) = path.
Proof.
  intros Hs. unfold uri_to_path. rewrite strip_prefix_app. unfold percent_decode.
  assert (Forall (fun b => (b < 256)%N) (as_bytes path)) as Hb.
  { unfold as_bytes. clear keep_plain. induction Hs as [|c s Hc _ IH]; [constructor|]. csimpl. apply Forall_app. split; [by apply utf8_char_bytes|done]. }
  rewrite (as_bytes_ascii (percent_encode path)).
  - unfold percent_encode. rewrite decode_encoded by done. by apply lossy_encoded.
  - unfold percent_encode. induction Hb as [|b bs Hb _ IH]; [constructor|]. csimpl. apply Forall_app. split; [|done]. unfold encode_byte.
    destruct (keep b) eqn:Ek; [apply keep_plain in Ek as [? _]; by constructor|].
    repeat constructor; apply digit_ascii; [apply N.Div0.div_lt_upper_bound; lia|by apply N.mod_lt].
Qed.
End uris.

(** ** Lemmas: the warm index *)

Section warm_facts.
Context `{Unicode} (canonicalize : FsPath -> option FsPath) (read : str -> option str).

(** The warm index answers a name only when it can answer it completely: a response at the engine's cap
    is never used and a name it does not hold is never reported absent; otherwise the candidates are, in
    the engine's order, exactly the entries of that name whose decoded file is below the root. *)
Theorem warm_index_exact (name : str) (root : FsPath) (reported : list ReportedSymbol) :
  let anchor := default root (canonicalize root) in
  let answers entry := rs_name entry = name /\ is_under canonicalize anchor (parse_path (uri_to_path (ll_uri (rs_location entry)))) = true in
  match classify_reported canonicalize read name root reported with
  | Declarations candidates =>
      length reported < 512 /\ candidates <> [] /\
      exists entries, entries `sublist_of` reported /\ (forall entry, entry ∈ entries <-> entry ∈ reported /\ answers entry) /\
        candidates = (fun entry => candidate_at read name entry (uri_to_path (ll_uri (rs_location entry)))) <$> entries
  | InconclusiveAnswer (Truncated returned) => returned = length reported /\ 512 <= returned
  | InconclusiveAnswer Unindexed => length reported < 512 /\ Forall (fun entry => ~ answers entry) reported
  | InconclusiveAnswer (RequestFailed _) => False
  end.
Proof.
  intros anchor answers. unfold classify_reported, WORKSPACE_SYMBOL_CAP. destruct (Nat.leb_spec 512 (length reported)) as [Hl|Hl]; [done|].
  set (entries := filter (fun entry => is_under canonicalize anchor (parse_path (uri_to_path (ll_uri (rs_location entry)))) = true) (filter (fun entry => rs_name entry = name) reported)).
  assert (declarations_in_root canonicalize read name root reported = (fun entry => candidate_at read name entry (uri_to_path (ll_uri (rs_location entry)))) <$> entries) as ->.
  { unfold declarations_in_root. fold anchor. rewrite (filter_fmap (fun entry => (entry, uri_to_path (ll_uri (rs_location entry)))) _
      (fun entry => is_under canonicalize anchor (parse_path (uri_to_path (ll_uri (rs_location entry)))) = true)) by done. by rewrite <- list_fmap_compose. }
  assert (forall entry, entry ∈ entries <-> entry ∈ reported /\ answers entry) as Hin.
  { intros entry. unfold entries, answers. rewrite !list_elem_of_filter. tauto. }
  destruct entries as [|e es] eqn:Ee.
  - cbn. split; [done|]. apply Forall_forall. intros entry He Ha. assert (entry ∈ []) as Hn by (by apply Hin). by apply not_elem_of_nil in Hn.
  - cbn [fmap list_fmap]. split; [done|]. split; [done|]. exists (e :: es). split; [|done]. rewrite <- Ee. unfold entries.
    transitivity (filter (fun entry => rs_name entry = name) reported); apply sublist_filter.
Qed.

(** The two resolvers name one position: when the name is on its line, the warm index's candidate for a
    location is the candidate the command-mode search reports for the same location, column included,
    although one column counts UTF-16 units and the other characters. *)
Theorem warm_agrees_with_find (name path source text : str) (entry : ReportedSymbol) :
  let start := rs_location entry in
  read path = Some source -> lines source !! N.to_nat (ll_line start) = Some text -> (ll_line start < u32_max)%N -> whole_word_columns text name <> [] ->
  candidate_at read name entry path =
    corrected (mkSymbolCandidate name path (ll_line start + 1) (character_column_of_utf16 text (ll_character start))) (Some source).
Proof.
  intros start Hr Ht Hl Hw. unfold candidate_at, corrected, from_lsp. fold start. cbn [rp_line c_line c_col c_name c_file mbind option_bind].
  rewrite saturating_small by lia. unfold name_column_near. rewrite Hr. cbn [mbind option_bind]. unfold name_column_in_source. cbn [rp_line rp_column from_command_mode].
  rewrite checked_sub_le by lia. cbn [mbind option_bind]. replace (ll_line start + 1 - 1)%N with (ll_line start) by lia. rewrite Ht.
  cbn [mbind option_bind in_character_columns]. pose proof (min_by_key_spec (fun column => abs_diff column (character_column_of_utf16 text (ll_character start))) (whole_word_columns text name)) as Hm.
  by destruct (min_by_key _ _).
Qed.
End warm_facts.

(** ** Lemmas: diagnostics *)

Lemma split_once_str_first c sep a b : c ∉ a -> split_once_str (c :: sep) (a ++ c :: sep ++ b) = Some (a, b).
Proof.
  intros Ha. induction a as [|d a IH].
  - cbn [app]. change (c :: sep ++ b) with ((c :: sep) ++ b). unfold split_once_str. destruct ((c :: sep) ++ b) eqn:E; rewrite <- E; by rewrite strip_prefix_app.
  - apply not_elem_of_cons in Ha as [Hd Ha]. cbn [app split_once_str]. cbn [strip_prefix].
    rewrite (proj2 (N.eqb_neq _ _)) by congruence. by rewrite IH.
Qed.
Lemma split_once_first c a b : c ∉ a -> split_once c (a ++ c :: b) = Some (a, b).
Proof.
  intros Ha. induction a as [|d a IH]; cbn [app split_once]; [by rewrite N.eqb_refl|]. apply not_elem_of_cons in Ha as [Hd Ha].
  rewrite (proj2 (N.eqb_neq _ _)) by congruence. by rewrite IH.
Qed.
Lemma digits_free n c : ascii_digit c = false -> c ∉ dec n.
Proof. intros Hc Hin. destruct (dec_digits n) as [Hd _]. rewrite Forall_forall in Hd. specialize (Hd c Hin). congruence. Qed.
Lemma trim_dec n : trim (dec n) = dec n.
Proof.
  apply trim_id. by destruct (digits_text n) as (_ & Hw & _).
Qed.
Definition printable (d : Diagnostic) : Prop :=
  (dg_line d <= u32_max /\ dg_col d <= u32_max)%N /\ Forall scalar (dg_message d) /\ 10%N ∉ dg_message d /\
  exists m c, dg_message d = m ++ [c] /\ is_whitespace c = false.
Lemma parse_printed d : (dg_line d <= u32_max /\ dg_col d <= u32_max)%N -> parse_diagnostic_line (diagnostic_line d) = Some d.
Proof.
  intros [Hl Hc]. unfold parse_diagnostic_line, diagnostic_line. set (position := dec (dg_line d) ++ lit ":" ++ dec (dg_col d)).
  assert (dec (dg_line d) ++ lit ":" ++ dec (dg_col d) ++ lit " [" ++ severity_word (dg_severity d) ++ lit "]: " ++ dg_message d =
    position ++ ch " " :: [ch "["] ++ severity_word (dg_severity d) ++ lit "]: " ++ dg_message d) as -> by (unfold position; by rewrite <- !app_assoc).
  change (lit " [") with (ch " " :: [ch "["]). rewrite split_once_str_first.
  2: { unfold position. rewrite !elem_of_app. intros [Hp|[Hp|Hp]]; [by apply digits_free in Hp|by apply list_elem_of_singleton in Hp|by apply digits_free in Hp]. }
  cbn [mbind option_bind]. change (lit "]: ") with (ch "]" :: lit ": ").
  change ((ch "]" :: lit ": ") ++ dg_message d) with (ch "]" :: lit ": " ++ dg_message d). rewrite split_once_str_first by (destruct (dg_severity d); apply (bool_decide_unpack _); by vm_compute).
  cbn [mbind option_bind]. unfold position. change (lit ":" ++ dec (dg_col d)) with (ch ":" :: dec (dg_col d)). rewrite split_once_first by by apply digits_free.
  cbn [mbind option_bind]. rewrite !trim_dec, !parse_dec by done. cbn [mbind option_bind]. by destruct d as [l c [] m].
Qed.
Lemma lines_of_pieces (ls : list str) : Forall (fun l => 10%N ∉ l /\ strip_cr l = l /\ l <> []) ls -> ls <> [] -> lines (join nl ls) = ls.
Proof.
  intros Hl Hne. unfold lines. assert (split_char 10%N (join nl ls) = ls) as ->.
  { apply split_join; [done|]. intros p Hp. rewrite Forall_forall in Hl. by apply Hl. }
  rewrite <- (take_drop (length ls - 1) ls) at 5. f_equal.
  - apply (Forall_take _ (length ls - 1)) in Hl. induction Hl as [|l k (_ & Hs & _) _ IH]; [done|]. csimpl. by rewrite Hs, IH.
  - apply filter_all, (Forall_drop _ (length ls - 1)), (Forall_impl _ _ _ Hl). by intros l (_ & _ & Hn).
Qed.
Lemma printed_line d : printable d -> 10%N ∉ diagnostic_line d /\ Forall scalar (diagnostic_line d) /\
  exists m c, diagnostic_line d = m ++ [c] /\ is_whitespace c = false.
Proof.
  intros (_ & Hs & Hn & m & c & E & Hc). unfold diagnostic_line. split_and!.
  - rewrite !elem_of_app. intros [Hin|[Hin|[Hin|[Hin|[Hin|[Hin|Hin]]]]]]; [by apply digits_free in Hin| |by apply digits_free in Hin| | | |done];
      [|..|destruct (dg_severity d)|]; revert Hin; apply (bool_decide_unpack _); by vm_compute.
  - assert (forall n, Forall scalar (dec n)) as Hd.
    { intros n. destruct (dec_digits n) as [Hd _]. apply (Forall_impl _ _ _ Hd). intros x Hx. unfold ascii_digit in Hx. apply andb_true_iff in Hx as [_ H2%N.leb_le]. left. lia. }
    assert (forall s, forallb (fun x => (x <? 55296)%N) s = true -> Forall scalar s) as Hlit.
    { induction s as [|x s IHs]; [constructor|]. cbn [forallb]. intros [Hx%N.ltb_lt Hr]%andb_true_iff. constructor; [by left|auto]. }
    rewrite !Forall_app. split_and!; try apply Hd; try done; try (apply Hlit; reflexivity). destruct (dg_severity d); apply Hlit; reflexivity.
  - rewrite E. exists (dec (dg_line d) ++ lit ":" ++ dec (dg_col d) ++ lit " [" ++ severity_word (dg_severity d) ++ lit "]: " ++ m), c. split; [|done]. by rewrite <- !app_assoc.
Qed.
Lemma printed_head d : exists c t, diagnostic_line d = c :: t /\ is_whitespace c = false.
Proof.
  unfold diagnostic_line. destruct (digits_text (dg_line d)) as (_ & Hw & _). destruct (dec_digits (dg_line d)) as [_ Hlen].
  destruct (dec (dg_line d)) as [|c t]; [cbn in Hlen; lia|]. apply Forall_cons in Hw as [Hw _]. by eexists c, _.
Qed.
Lemma strip_cr_snoc m c : is_whitespace c = false -> strip_cr (m ++ [c]) = m ++ [c].
Proof. intros Hc. unfold strip_cr. rewrite last_snoc. destruct (N.eqb_spec c 13) as [->|]; [done|done]. Qed.
Lemma join_snoc (sep : str) ls l : exists pre, join sep (ls ++ [l]) = pre ++ l.
Proof.
  induction ls as [|k ls [pre E]]; [by exists []|]. destruct ls as [|k' ls]; cbn [app] in *; rewrite join_cons.
  - exists (k ++ sep). by rewrite <- app_assoc.
  - exists (k ++ sep ++ pre). by rewrite E, <- !app_assoc.
Qed.

(** Diagnostics round-trip: the findings the engine prints one per line, as the command itself prints
    them again, are read back one for one with their positions, severities and messages. *)
Theorem diagnose_roundtrip (file : str) (ds : list Diagnostic) (stderr : list N) :
  ds <> [] -> Forall printable ds ->
  parse_diagnose file (mkCaptured (Some 0%Z) (as_bytes (join nl (diagnostic_line <$> ds) ++ nl)) stderr) = inr (mkDiagnoseReport file ds).
Proof.
  intros Hne Hp. set (ls := diagnostic_line <$> ds).
  assert (Forall (fun l => 10%N ∉ l /\ Forall scalar l /\ exists m c, l = m ++ [c] /\ is_whitespace c = false) ls) as Hls.
  { apply Forall_fmap. apply (Forall_impl _ _ _ Hp). intros d Hd. by apply printed_line. }
  assert (Forall (fun l => 10%N ∉ l /\ strip_cr l = l /\ l <> []) ls) as Hpieces.
  { apply (Forall_impl _ _ _ Hls). intros l (Hn & _ & m & c & -> & Hc). split_and!; [done|by apply strip_cr_snoc|by destruct m]. }
  assert (ls <> []) as Hlne by (unfold ls; by destruct ds).
  unfold parse_diagnose. cbn [cp_code cp_stdout]. rewrite bool_decide_eq_true_2 by done. rewrite lossy_encoded.
  2: { apply Forall_app. split; [|repeat constructor; lia]. clear - Hls. induction Hls as [|l ls (_ & Hs & _) Hls IH]; [constructor|].
       destruct ls as [|k ls]; [done|]. rewrite join_cons, !Forall_app. split_and!; [done|repeat constructor; lia|done]. }
  assert (trim (join nl ls ++ nl) = join nl ls) as ->.
  { unfold trim. destruct ls as [|l ls'] eqn:E; [done|]. assert (exists d t, l = d :: t /\ is_whitespace d = false) as (d & t & El & Hd).
    { assert (l ∈ diagnostic_line <$> ds) as (x & -> & _)%list_elem_of_fmap by (fold ls; rewrite E; left). apply printed_head. }
    assert (trim_start (join nl (l :: ls') ++ nl) = join nl (l :: ls') ++ nl) as ->.
    { subst l. destruct ls'; [cbn [join app]|rewrite join_cons; cbn [app]]; cbn [trim_start]; by rewrite Hd. }
    destruct (exists_last (l := l :: ls')) as (init & z & Ez); [done|]. rewrite Ez in *. destruct (join_snoc nl init z) as [pre ->].
    apply Forall_app in Hls as [_ Hz]. apply Forall_singleton in Hz as (_ & _ & m & c & -> & Hc). rewrite app_assoc, <- (app_assoc _ [c] nl). cbn [app].
    rewrite trim_end_snoc by done. done. }
  assert (lines (join nl ls) = ls) as Hlines by by apply lines_of_pieces.
  rewrite bool_decide_eq_false_2 by (intros E; rewrite E in Hlines; by rewrite <- Hlines in Hlne).
  rewrite bool_decide_eq_false_2.
  2: { intros E. rewrite E in Hlines. change (lines NO_DIAGNOSTICS) with [NO_DIAGNOSTICS] in Hlines.
       assert (NO_DIAGNOSTICS ∈ diagnostic_line <$> ds) as (d & Ed & Hd)%list_elem_of_fmap by (fold ls; rewrite <- Hlines; left).
       rewrite Forall_forall in Hp. pose proof (parse_printed d (proj1 (Hp d Hd))) as Hparse. rewrite <- Ed in Hparse. vm_compute in Hparse. discriminate. }
  cbn [orb]. rewrite Hlines. unfold ls. assert (parse_diagnostics (diagnostic_line <$> ds) = inr ds) as ->; [|done].
  clear - Hp. induction Hp as [|d ds [Hd _] _ IH]; [done|]. csimpl. cbn [parse_diagnostics]. by rewrite parse_printed, IH.
Qed.

(** ** Witnesses *)

Definition keep_unreserved (b : N) : bool := ascii_alphabetic b || ascii_digit b || (b =? ch "/")%N.
Definition accented_path : str := lit "/w/My " ++ [233; 119070]%N ++ lit ".kt".
Lemma uri_path_roundtrip_witness :
  ((forall b, keep_unreserved b = true -> (b < 128)%N /\ b <> ch "%") /\ Forall scalar accented_path) /\
  uri_to_path (lit "file://" ++ percent_encode keep_unreserved accented_path) = accented_path.
Proof.
  assert (forall b, keep_unreserved b = true -> (b < 128)%N /\ b <> ch "%") as Hk.
  { intros b Hb. unfold keep_unreserved in Hb. split; [|intros ->; vm_compute in Hb; discriminate]. destruct (N.lt_ge_cases b 128) as [Hlt|Hge]; [done|exfalso].
    rewrite !orb_true_iff in Hb. unfold ascii_alphabetic, ascii_digit in Hb. rewrite ?orb_true_iff, !andb_true_iff, !N.leb_le, N.eqb_eq in Hb. change (ch "/") with 47%N in Hb. lia. }
  assert (Forall scalar accented_path) as Hs.
  { assert (forallb (fun c => (c <? 55296)%N || (57344 <=? c)%N && (c <? 1114112)%N) accented_path = true) as Hb by reflexivity. apply Forall_forall. intros c Hc.
    apply (forallb_forall _ _) with (x := c) in Hb; [|by apply list_elem_of_In]. apply orb_true_iff in Hb as [Hb%N.ltb_lt|[H1%N.leb_le H2%N.ltb_lt]%andb_true_iff]; [by left|by right]. }
  split; [split; [exact Hk|exact Hs]|]. exact (uri_path_roundtrip keep_unreserved Hk accented_path Hs).
Defined.

Definition cart_entry : ReportedSymbol := mkReportedSymbol (lit "save") (mkLspLocation (lit "file:///w/A.kt") 0 7).
Definition clef_line : str := lit "fun " ++ [119070]%N ++ lit " save".
Definition clef_read (path : str) : option str := if bool_decide (path = lit "/w/A.kt") then Some clef_line else None.
(** Two names, one file below the root. *)
Lemma warm_index_is_exact : @classify_reported latin1_unicode Some clef_read (lit "save") (parse_path (lit "/w"))
    [cart_entry; mkReportedSymbol (lit "saveAll") (mkLspLocation (lit "file:///w/A.kt") 0 7); mkReportedSymbol (lit "save") (mkLspLocation (lit "file:///elsewhere/A.kt") 0 7)]
  = Declarations [mkSymbolCandidate (lit "save") (lit "/w/A.kt") 1 7].
Proof. vm_compute. reflexivity. Qed.
Lemma warm_agrees_with_find_witness :
  (clef_read (lit "/w/A.kt") = Some clef_line /\ lines clef_line !! 0 = Some clef_line /\ @whole_word_columns latin1_unicode clef_line (lit "save") = [7%N]) /\
  @candidate_at latin1_unicode clef_read (lit "save") cart_entry (lit "/w/A.kt") = mkSymbolCandidate (lit "save") (lit "/w/A.kt") 1 7.
Proof.
  split; [split_and!; vm_compute; reflexivity|].
  rewrite (@warm_agrees_with_find latin1_unicode clef_read (lit "save") (lit "/w/A.kt") clef_line clef_line cart_entry); vm_compute; solve [reflexivity|discriminate].
Defined.

Definition two_findings : list Diagnostic :=
  [mkDiagnostic 3 7 SevError (lit "unresolved [x]: y"); mkDiagnostic 12 1 SevInfo (lit "unused")].
Lemma diagnose_roundtrip_witness : (two_findings <> [] /\ Forall printable two_findings) /\
  parse_diagnose (lit "A.kt") (mkCaptured (Some 0%Z) (as_bytes (lit "3:7 [error]: unresolved [x]: y" ++ nl ++ lit "12:1 [info]: unused" ++ nl)) []) = inr (mkDiagnoseReport (lit "A.kt") two_findings).
Proof.
  assert (forall s, forallb (fun x => (x <? 55296)%N) s = true -> Forall scalar s) as Hlit.
  { induction s as [|x s IHs]; [constructor|]. cbn [forallb]. intros [Hx%N.ltb_lt Hr]%andb_true_iff. constructor; [by left|auto]. }
  assert (Forall printable two_findings) as Hp.
  { repeat apply Forall_cons_2; [| |constructor]; (split; [vm_compute; split; discriminate|split; [apply Hlit; reflexivity|split; [apply (bool_decide_unpack _); by vm_compute|]]]).
    - by exists (lit "unresolved [x]: "), (ch "y").
    - by exists (lit "unuse"), (ch "d"). }
  split; [split; [discriminate|exact Hp]|]. exact (diagnose_roundtrip (lit "A.kt") two_findings [] ltac:(discriminate) Hp).
Defined.

(** A plus sign after a percent sign reads as a digit sequence of one digit. *)
Lemma plus_read_as_hex : percent_decode (lit "a%+Ab") = lit "a" ++ [10%N] ++ lit "b".
Proof. vm_compute. reflexivity. Qed.
(** A position's URI carries the path as it is, so the engine's own decoding names another file. *)
Lemma position_uri_unencoded :
  uri_to_path (fp_uri (to_file_position (mkSymbolCandidate (lit "f") (lit "/w/a%20b.kt") 1 1))) = lit "/w/a b.kt".
Proof. vm_compute. reflexivity. Qed.
