(* ===== verification/Commands.v ===== *)
(** * Commands: one-shot answers

    Models the commands of [crates/ktsense-cli/src/main.rs] that need no engine session ([outline], [deps],
    [map], the [symbols] command over what the engine process left, [check] and [diagnose]), their errors and
    exits, and [crates/ktsense-cli/src/identifiers.rs]. A [World] is what the file system holds at the time
    of one command; a JSON answer is the value it serializes. *)
From Stdlib Require Import QArith.Qcanon.
From S2P Require Import Prelude Collections Budget Text Skeleton References Query Sites Imports JavaText JavaEnclosing Trace Render Graph RepoMap Context Answers Files Cst Extract Scan Symbols Utf8 Locate Engine.

Set Default Proof Using "Type*".

(** ** The world and the errors *)

Record IoError := mkIoError { io_not_found : bool; io_text : str }.
Record World := mkWorld {
  w_tree : Entry;
  w_read : FsPath -> option str;
  w_error : FsPath -> IoError;
  w_canonicalize : FsPath -> option FsPath }.

Record CommandError := mkError { ce_exit : Exit; ce_message : str }.
Definition read_error (file : str) (error : IoError) : CommandError :=
  mkError Failure (if io_not_found error then lit "ktsense: no such file: " ++ file
                   else lit "ktsense: cannot read " ++ file ++ lit ": " ++ io_text error).
Definition file_name (file : str) : str := default [] (last (fp_components (parse_path file))).
Definition unparseable (file : str) : CommandError :=
  mkError Failure (if has_kotlin_extension (file_name file)
                   then lit "ktsense: " ++ file ++ lit " has Kotlin syntax errors and cannot be outlined"
                   else lit "ktsense: " ++ file ++ lit " is not a Kotlin file (expected .kt or .kts) and could not be parsed").
Definition unsupported_format (command : str) : CommandError :=
  mkError Failure (lit "ktsense: " ++ command ++ lit " does not support --format dot (only deps does)").
Definition bad_match_pattern (error : str) : CommandError := mkError Usage (lit "ktsense: --match is not a valid regular expression: " ++ error).
Definition bad_focus_pattern (error : str) : CommandError := mkError Usage (lit "ktsense: --focus is not a valid regular expression: " ++ error).
Definition routed_failure (message : str) : CommandError := mkError Failure message.
Definition pick_missed (pick : str) : CommandError := mkError Failure (lit "ktsense: no candidate has the fully-qualified name " ++ pick).
Definition no_symbol (query : str) : CommandError := mkError Failure (lit "ktsense: " ++ no_symbol_message query).
Definition passthrough_text (e : PassthroughError) : str :=
  match e with
  | Spawn path => lit "failed to spawn engine `" ++ path ++ lit "`"
  | Io command => lit "i/o error running engine `" ++ command ++ lit "`"
  | Timeout command => lit "engine `" ++ command ++ lit "` did not respond in time"
  | Failed command code stderr => lit "engine `" ++ command ++ lit "` failed (" ++ code ++ lit "): " ++ stderr
  | Unparseable command detail => lit "could not parse engine `" ++ command ++ lit "` output: " ++ detail
  end.
Definition passthrough_error (e : PassthroughError) : CommandError := mkError Failure (lit "ktsense: " ++ passthrough_text e).
Definition engine_error (e : LspError) : CommandError := mkError Failure (lit "ktsense: " ++ error_text e).

(** What a command prints: text, or a value as JSON. *)
Inductive Answer :=
  | Printed (text : str)
  | JsonSkeleton (skeleton : FileSkeleton) | JsonGraph (graph : ImportGraph) | JsonMap (map : RepoMap)
  | JsonSearch (search : TextSearch) | JsonContext (bundle : SymbolContext)
  | JsonNotFound (message : str) (answer : NotFound) | JsonCheck (report : CheckReport) | JsonDiagnose (report : DiagnoseReport) | JsonTrace (report : TraceReport)
  | SymbolsAnswer (answer : AnswerText).
Record CommandOutcome := mkCommandOutcome { co_text : Answer; co_exit : Exit; co_stderr : option str }.
Definition success (text : Answer) : CommandOutcome := mkCommandOutcome text Success None.

(** A command ends in an error or an answer; [None] is a panic. *)
Abbreviation Result A := (option (CommandError + A)).
Definition ret {A} (a : A) : Result A := Some (inr a).
Definition fail_with {A} (e : CommandError) : Result A := Some (inl e).
Definition bind {A B} (r : Result A) (f : A -> Result B) : Result B :=
  match r with None => None | Some (inl e) => Some (inl e) | Some (inr a) => f a end.
Declare Scope command_scope.
Delimit Scope command_scope with command.
Open Scope command_scope.
Notation "x '<-?' r ';' k" := (bind r (fun x => k)) (at level 20, r at level 100, k at level 200) : command_scope.
Definition of_sum {A} (r : CommandError + A) : Result A := Some r.
(** A computation that cannot fail but may panic. *)
Definition of_option {A} (o : option A) : Result A := a ← o; Some (inr a).

(** [Path::join] on the text of the paths. *)
Definition join_text (root path : str) : str :=
  if starts_with path [ch "/"] then path else match root with [] => path | _ => if ends_with root [ch "/"] then root ++ path else root ++ [ch "/"] ++ path end.

Section commands.
Context `{Unicode} `{Grammar} (root : str).

(** The failing directory or entry of a walk, named as the walk reached it. *)
Definition walked {A} (w : World) (o : Outcome A) : Result A :=
  r ← o;
  Some (match r with
        | inl path => let file := join_text root (display path) in inl (read_error file (w_error w (parse_path file)))
        | inr a => inr a
        end).
Definition resolve_root (file : str) : str := if starts_with file [ch "/"] then file else join_text root file.
Definition display_path (w : World) (file : FsPath) : str := normalized_path (w_canonicalize w) (parse_path root) file.
(** A path of a walk below the root. *)
Definition below (p : Path) : FsPath := path_join (parse_path root) (mkFsPath false p).

(** ** [outline] *)

Definition present (skeleton : FileSkeleton) (format : Format) (options : RenderOptions) : CommandError + Answer :=
  match format with
  | Md => inr (Printed (render_markdown skeleton options))
  | Json => inr (JsonSkeleton (if include_annotations options then skeleton else without_annotations skeleton))
  | Dot => inl (unsupported_format (lit "outline"))
  end.
(** [extract] with its rejection as the command's. *)
Definition parse_fresh (w : World) (file : str) (source : str) : Result FileSkeleton :=
  r ← extract (display_path w (parse_path file)) source;
  Some (match r with inl _ => inl (unparseable file) | inr skeleton => inr skeleton end).
Definition outline (w : World) (file : str) (format : Format) (options : RenderOptions) : Result Answer :=
  match w_read w (parse_path file) with
  | None => fail_with (read_error file (w_error w (parse_path file)))
  | Some source => skeleton <-? parse_fresh w file source; of_sum (present skeleton format options)
  end.

(** ** [deps] *)

Definition skeleton_for_deps (w : World) (p : Path) : option (option FileSkeleton) :=
  match w_read w (below p) with
  | None => Some None
  | Some source => r ← extract (display_path w (below p)) source; Some (match r with inl _ => None | inr skeleton => Some skeleton end)
  end.
Definition skeletons_of (w : World) (files : list Path) : option (list FileSkeleton) :=
  found ← mapM (skeleton_for_deps w) files; Some (omap id found).
Definition present_deps (graph : ImportGraph) (format : Format) : Answer :=
  match format with Md => Printed (render_deps_markdown graph) | Dot => Printed (render_deps_dot graph) | Json => JsonGraph graph end.
Definition deps (w : World) (level : DepLevel) (format : Format) : Result Answer :=
  files <-? walked w (collect_kotlin_files (w_tree w));
  skeletons <-? of_option (skeletons_of w files);
  graph <-? of_option (build_import_graph skeletons level);
  ret (present_deps graph format).

(** ** [count_identifiers] *)

Definition IDENTIFIER_KINDS : list str := [lit "simple_identifier"; lit "type_identifier"].
Definition NON_REFERENCE_SUBTREES : list str := [lit "import_header"; lit "package_header"].
Definition bump_name (counts : list (str * N)) (name : str) : list (str * N) := bt_upsert name (fun o => (default 0 o + 1)%N) counts.
(** The walk with its stack, last node first; the nodes of the tree are fuel enough. *)
Fixpoint count_loop (fuel : nat) (source : str) (pending : list Node) (counts : list (str * N)) : option (list (str * N)) :=
  match pending, fuel with
  | [], _ => Some counts
  | _, O => None
  | node :: pending, S fuel' =>
      if kind_in NON_REFERENCE_SUBTREES node then count_loop fuel' source pending counts
      else if kind_in IDENTIFIER_KINDS node then
        count_loop fuel' source pending (match str_slice source (n_start node) (n_stop node) with Some name => bump_name counts name | None => counts end)
      else count_loop fuel' source (rev (n_children node) ++ pending) counts
  end.
Definition count_into (counts : list (str * N)) (source : str) : option (list (str * N)) :=
  match parse source with
  | None => Some counts
  | Some tree => count_loop (length (preorder (t_root tree))) source [t_root tree] counts
  end.
Fixpoint count_files (w : World) (files : list Path) (counts : list (str * N)) : option (list (str * N)) :=
  match files with
  | [] => Some counts
  | p :: files' =>
      match w_read w (below p) with
      | None => count_files w files' counts
      | Some source => counts ← count_into counts source; count_files w files' counts
      end
  end.
Definition count_identifiers (w : World) (files : list Path) : option ReferenceCounts :=
  counts ← count_files w files []; Some (from_counts counts).
End commands.

(** ** [map] *)

Section map.
Context {F : Type} `{FloatOps F} `{TokenEstimator} (page_rank_default : PageRankOptions F) `{Unicode} `{Grammar} (root : str).
(** The [regex] crate: the error of a pattern that does not compile, or its matcher. *)
Context (compile : str -> str + (str -> bool)).

Definition present_map (m : RepoMap) (format : Format) : CommandError + Answer :=
  match format with
  | Md => inr (Printed (render_map_markdown m))
  | Json => inr (JsonMap m)
  | Dot => inl (unsupported_format (lit "map"))
  end.
Definition focus_matcher (focus : option str) : CommandError + option FocusSpec :=
  match focus with
  | Some pattern => match compile pattern with inl error => inl (bad_focus_pattern error) | inr matches_ => inr (Some (mkFocus pattern matches_)) end
  | None => inr None
  end.
Definition repository_map (w : World) (budget : N) (compact : bool) (focus : option str) (fill : bool) (path : list str) (format : Format) : Result Answer :=
  files <-? walked root w (collect_kotlin_files (w_tree w));
  let mapped := filter (fun p => is_test_path p = false) files in
  skeletons <-? of_option (skeletons_of root w mapped);
  references <-? of_option (count_identifiers root w mapped);
  focus <-? of_sum (focus_matcher focus);
  m <-? of_option (build_repo_map page_rank_default (mkMapInput skeletons references budget path compact focus fill));
  of_sum (present_map m format).
End map.

(** ** [symbols], [check], [diagnose] *)

Section engine_process.
Context `{Unicode} `{Grammar} (root : str).

Definition command_error_of (w : World) (e : SymbolError) : option CommandError :=
  match e with
  | PickMissed pick => Some (pick_missed pick)
  | NoSymbol query => Some (no_symbol query)
  | NoSymbolScoped query => message ← no_symbol_message_scoped (w_tree w) query; Some (mkError Failure (lit "ktsense: " ++ message))
  | UnsupportedFormat => Some (unsupported_format (lit "symbols"))
  | CannotRead path => let file := join_text root (display path) in Some (read_error file (w_error w (parse_path file)))
  end.
Definition outcome_of (o : SymbolsOutcome) : CommandOutcome := mkCommandOutcome (SymbolsAnswer (sy_text o)) (sy_exit o) (sy_stderr o).
Definition from_symbols {A} (w : World) (r : option (SymbolError + A)) : Result A :=
  r ← r;
  match r with
  | inl e => error ← command_error_of w e; Some (inl error)
  | inr a => Some (inr a)
  end.
(** [partition] by [is_inside_ignored_dir]. *)
Definition ignored_candidate (w : World) (c : SymbolCandidate) : bool := is_inside_ignored_dir (display_path root w (parse_path (c_file c))).
Definition kept_candidates (w : World) (cs : list SymbolCandidate) : list SymbolCandidate := filter (fun c => ignored_candidate w c = false) cs.
Definition ignored_candidates (w : World) (cs : list SymbolCandidate) : nat := length (filter (fun c => ignored_candidate w c = true) cs).

(** [found]: what [run_symbols] answers for the last segment of the query. *)
Definition symbols (w : World) (found : str -> PassthroughError + list SymbolCandidate) (query : str) (kind : option KindFilter) (limit : option nat)
    (pick : option str) (contains : bool) (format : Format) : Result CommandOutcome :=
  if contains then outcome <-? from_symbols w (present_contained (w_tree w) query kind limit format); ret (outcome_of outcome)
  else
    match found (last_segment query) with
    | inl error => fail_with (passthrough_error error)
    | inr all =>
        let candidates := kept_candidates w all in
        let filter_ := for_query query pick in
        if bool_decide (candidates = []) && match filter_ with NoPick => true | _ => false end
        then outcome <-? from_symbols w (present_exact_from_syntax_index (w_tree w) query kind limit format); ret (outcome_of outcome)
        else
          outcome <-? from_symbols w (present_symbols (w_canonicalize w) (w_read w) (parse_path root) query candidates kind limit filter_ format);
          ret (outcome_of (noting_ignored outcome (ignored_candidates w all) format))
    end.

Definition render_check (report : CheckReport) (format : Format) : CommandError + Answer :=
  match format with
  | Md => inr (Printed (check_markdown report)) | Json => inr (JsonCheck report) | Dot => inl (unsupported_format (lit "check"))
  end.
Definition check (report : PassthroughError + CheckReport) (format : Format) : Result CommandOutcome :=
  match report with
  | inl error => fail_with (passthrough_error error)
  | inr report =>
      text <-? of_sum (render_check report format);
      ret (mkCommandOutcome text (if has_errors report then Failure else Success) None)
  end.
Definition render_diagnose (report : DiagnoseReport) (format : Format) : CommandError + Answer :=
  match format with
  | Md => inr (Printed (diagnose_markdown report)) | Json => inr (JsonDiagnose report) | Dot => inl (unsupported_format (lit "diagnose"))
  end.
Definition diagnose (report : PassthroughError + DiagnoseReport) (format : Format) : Result Answer :=
  match report with
  | inl error => fail_with (passthrough_error error)
  | inr report => of_sum (render_diagnose report format)
  end.
End engine_process.

(** ** Arguments *)

Inductive ContextOnly := OnlySource | OnlyCallers | OnlyImplementors | OnlyOutline.
#[export] Instance ContextOnly_eq_dec : EqDecision ContextOnly.
Proof. solve_decision. Defined.
(** clap guarantees one of the two; [None] is the [expect]. *)
Definition query_or_pick (query pick : option str) : option str :=
  match query with Some query => Some query | None => last_segment <$> pick end.
Definition context_sections (only : list ContextOnly) : ContextSections :=
  match only with
  | [] => all_sections
  | _ => mkSections (bool_decide (OnlySource ∈ only)) (bool_decide (OnlyOutline ∈ only)) (bool_decide (OnlyCallers ∈ only)) (bool_decide (OnlyImplementors ∈ only))
  end.

(** ** Lemmas: counting *)

(** The identifiers below a node that refer to something, in document order. *)
Fixpoint reference_nodes (n : Node) : list Node :=
  if kind_in NON_REFERENCE_SUBTREES n then []
  else if kind_in IDENTIFIER_KINDS n then [n]
  else concat (reference_nodes <$> n_children n).
Definition spelling (source : str) (n : Node) : option str := str_slice source (n_start n) (n_stop n).
Definition node_names (source : str) (n : Node) : list str := omap (spelling source) (reference_nodes n).

Lemma reference_nodes_eq n : reference_nodes n =
  if kind_in NON_REFERENCE_SUBTREES n then [] else if kind_in IDENTIFIER_KINDS n then [n] else concat (reference_nodes <$> n_children n).
Proof. by destruct n. Qed.
Lemma node_names_children source n : kind_in NON_REFERENCE_SUBTREES n = false -> kind_in IDENTIFIER_KINDS n = false ->
  node_names source n = concat (node_names source <$> n_children n).
Proof.
  intros H1 H2. unfold node_names. rewrite reference_nodes_eq, H1, H2. induction (n_children n) as [|c cs IH]; [done|]. csimpl. by rewrite omap_app, IH.
Qed.
Lemma pending_weight_children n pending :
  sum_list (length ∘ preorder <$> n :: pending) = S (sum_list (length ∘ preorder <$> rev (n_children n) ++ pending)).
Proof.
  csimpl. rewrite preorder_eq, fmap_app, sum_list_with_app. cbn [length]. f_equal. f_equal. rewrite length_concat_sum, <- list_fmap_compose.
  assert (rev (n_children n) ≡ₚ n_children n) as Hr by (symmetry; apply Permutation_rev). by rewrite Hr.
Qed.
Lemma count_loop_spec source : forall fuel pending counts, sum_list (length ∘ preorder <$> pending) <= fuel ->
  exists names, names ≡ₚ concat (node_names source <$> pending) /\ count_loop fuel source pending counts = Some (foldl bump_name counts names).
Proof.
  induction fuel as [|fuel IH]; intros pending counts Hf.
  { destruct pending as [|n pending]; [by exists []|]. csimpl in Hf. rewrite preorder_eq in Hf. cbn in Hf. lia. }
  destruct pending as [|n pending]; [by exists []|]. pose proof (pending_weight_children n pending) as Hw. rewrite Hw in Hf. apply le_S_n in Hf.
  rewrite fmap_app, sum_list_with_app in Hf. cbn [count_loop]. destruct (kind_in NON_REFERENCE_SUBTREES n) eqn:E1.
  { destruct (IH pending counts) as (names & Hp & E); [lia|]. exists names. split; [|done]. csimpl. unfold node_names at 1. by rewrite reference_nodes_eq, E1. }
  destruct (kind_in IDENTIFIER_KINDS n) eqn:E2.
  { destruct (IH pending (match spelling source n with Some name => bump_name counts name | None => counts end)) as (names & Hp & E); [lia|].
    exists (option_list (spelling source n) ++ names). csimpl. unfold node_names at 1. rewrite reference_nodes_eq, E1, E2. unfold spelling in *. cbn [omap list_omap].
    destruct (str_slice source (n_start n) (n_stop n)); cbn [option_list app]; (split; [by rewrite Hp|done]). }
  destruct (IH (rev (n_children n) ++ pending) counts) as (names & Hp & E); [rewrite fmap_app, sum_list_with_app; lia|].
  exists names. split; [|done]. rewrite Hp, fmap_app, concat_app. csimpl. rewrite node_names_children by done. f_equiv.
  assert (rev (n_children n) ≡ₚ n_children n) as Hr by (symmetry; apply Permutation_rev). by rewrite Hr.
Qed.

Definition occurrences (name : str) (names : list str) : N := N.of_nat (length (filter (fun n => n = name) names)).
Lemma occurrences_app name a b : occurrences name (a ++ b) = (occurrences name a + occurrences name b)%N.
Proof. unfold occurrences. rewrite filter_app, length_app. lia. Qed.
Lemma occurrences_perm name a b : a ≡ₚ b -> occurrences name a = occurrences name b.
Proof. intros E. unfold occurrences. by rewrite E. Qed.
Lemma bump_names names : forall counts, bt_sorted counts ->
  bt_sorted (foldl bump_name counts names) /\
  forall name, default 0%N (bt_get name (foldl bump_name counts names)) = (default 0%N (bt_get name counts) + occurrences name names)%N.
Proof.
  induction names as [|n names IH]; intros counts Hs; cbn [foldl].
  { split; [done|]. intros name. change (occurrences name []) with 0%N. lia. }
  destruct (IH (bump_name counts n)) as [Hs' Hc]; [by apply bt_sorted_upsert|]. split; [done|]. intros name. rewrite Hc. unfold bump_name, occurrences.
  rewrite filter_cons. case_decide as E.
  - subst n. rewrite bt_get_upsert_eq by done. cbn [default from_option length]. unfold id. lia.
  - by rewrite bt_get_upsert_ne by done.
Qed.

Section counting.
Context `{Unicode} `{Grammar} (root : str) (w : World).

(** Every reference in a file, or none when it cannot be read or parsed. *)
Definition file_names (p : Path) : list str :=
  match w_read w (below root p) with
  | None => []
  | Some source => match parse source with Some tree => node_names source (t_root tree) | None => [] end
  end.
Lemma count_into_spec counts source : exists names,
  names ≡ₚ match parse source with Some tree => node_names source (t_root tree) | None => [] end /\ count_into counts source = Some (foldl bump_name counts names).
Proof.
  unfold count_into. destruct (parse source) as [tree|]; [|by exists []].
  destruct (count_loop_spec source (length (preorder (t_root tree))) [t_root tree] counts) as (names & Hp & E); [csimpl; lia|].
  exists names. split; [|done]. rewrite Hp. csimpl. by rewrite app_nil_r.
Qed.

Lemma count_identifiers_spec (files : list Path) :
  exists counts, count_identifiers root w files = Some counts /\
    forall name, for_name counts name = occurrences name (concat (file_names <$> files)).
Proof.
  unfold count_identifiers, for_name. assert (forall counts, bt_sorted counts -> exists counts', count_files root w files counts = Some counts' /\
    forall name, default 0%N (bt_get name counts') = (default 0%N (bt_get name counts) + occurrences name (concat (file_names <$> files)))%N) as Hloop.
  { induction files as [|p files IH]; intros counts Hs; cbn [count_files].
    { exists counts. split; [done|]. intros name. change (occurrences name (concat (file_names <$> []))) with 0%N. lia. }
    assert (exists counts1, (match w_read w (below root p) with None => Some counts | Some source => count_into counts source end) = Some counts1 /\ bt_sorted counts1 /\
      forall name, default 0%N (bt_get name counts1) = (default 0%N (bt_get name counts) + occurrences name (file_names p))%N) as (counts1 & E1 & Hs1 & Hc1).
    { unfold file_names. destruct (w_read w (below root p)) as [source|].
      - destruct (count_into_spec counts source) as (names & Hp & ->). eexists. split; [done|]. destruct (bump_names names counts Hs) as [Hs1 Hc].
        split; [done|]. intros name. by rewrite Hc, (occurrences_perm name _ _ Hp).
      - exists counts. split; [done|]. split; [done|]. intros name. change (occurrences name []) with 0%N. lia. }
    destruct (IH counts1 Hs1) as (counts' & E & Hc). exists counts'. split.
    - destruct (w_read w (below root p)) as [source|]; [by rewrite E1|]. by injection E1 as ->.
    - intros name. csimpl. rewrite Hc, Hc1, occurrences_app. lia. }
  destruct (Hloop [] (SSorted_nil _)) as (counts & -> & Hc). eexists. split; [done|]. intros name. cbn [by_name from_counts]. by rewrite Hc.
Qed.

(** The ranking's evidence is counted exactly: the walk always ends, and each name's count is the number
    of identifier nodes spelled so in the files given, outside import and package headers, each occurrence
    once; a file that cannot be read or parsed adds nothing. *)
Theorem count_identifiers_exact (files : list Path) :
  exists counts, count_identifiers root w files = Some counts /\
    forall name, for_name counts name = occurrences name (concat (file_names <$> files)).
Proof. apply count_identifiers_spec. Qed.
End counting.

(** ** Lemmas: skeletons of a walk *)

Section skeletons.
Context `{Unicode} `{GrammarLaws} (root : str) (w : World).

Lemma display_below p : display_path root w (below root p) = display p.
Proof. apply normalized_walked. Qed.
Lemma skeleton_for_deps_some p : exists s, skeleton_for_deps root w p = Some s /\ forall f, s = Some f -> fs_path f = display p.
Proof.
  unfold skeleton_for_deps. destruct (w_read w (below root p)) as [source|]; [|by eexists].
  destruct (extract_some (display_path root w (below root p)) source) as [r E]. rewrite E. cbn [mbind option_bind]. eexists. split; [done|].
  intros f Hf. destruct r as [|s]; [done|]. injection Hf as ->. apply extract_path in E. by rewrite E, display_below.
Qed.
Lemma skeletons_of_some files : exists skeletons, skeletons_of root w files = Some skeletons /\ (fs_path <$> skeletons) `sublist_of` (display <$> files).
Proof.
  unfold skeletons_of. assert (exists found, mapM (skeleton_for_deps root w) files = Some found /\ (fs_path <$> omap id found) `sublist_of` (display <$> files)) as (found & -> & Hs).
  { induction files as [|p files (found & E & Hs)]; [by exists []|]. destruct (skeleton_for_deps_some p) as (s & Es & Hf). exists (s :: found). split.
    - cbn [mapM]. by rewrite Es, E.
    - destruct s as [f|]; csimpl; [rewrite (Hf f eq_refl); by apply sublist_skip|by apply sublist_cons]. }
  by exists (omap id found).
Qed.
Lemma deps_walk files : collect_kotlin_files (w_tree w) = Some (inr files) -> walked root w (collect_kotlin_files (w_tree w)) = ret files.
Proof. by intros ->. Qed.
End skeletons.

Section map_command.
Context {F : Type} `{FloatOps F} `{TokenEstimator} (page_rank_default : PageRankOptions F) `{Unicode} `{GrammarLaws} (root : str) (compile : str -> str + (str -> bool)).

(** The map command answers about one universe: over a readable workspace it prints the map built from
    the production files alone, at most one skeleton per file and in walk order, ranked by counts taken over
    exactly those files, and the map it prints stays within the budget asked for. *)
Theorem map_command_exact (w : World) (budget : N) (compact : bool) (focus : option str) (fill : bool) (path : list str) (files : list Path) (spec : option FocusSpec) :
  collect_kotlin_files (w_tree w) = Some (inr files) -> (N.of_nat (length files) < usize_max)%N -> is_usize budget -> focus_matcher compile focus = inr spec ->
  let mapped := filter (fun p => is_test_path p = false) files in
  exists skeletons counts m,
    repository_map page_rank_default root compile w budget compact focus fill path Md = Some (inr (Printed (render_map_markdown m))) /\
    build_repo_map page_rank_default (mkMapInput skeletons counts budget path compact spec fill) = Some m /\
    (fs_path <$> skeletons) `sublist_of` (display <$> mapped) /\
    (forall name, for_name counts name = occurrences name (concat (file_names root w <$> mapped))) /\
    (m_token_upper_bound m <= budget)%N.
Proof.
  intros Hk Hl Hb Hf mapped. destruct (skeletons_of_some root w mapped) as (skeletons & Es & Hs).
  destruct (count_identifiers_spec root w mapped) as (counts & Ec & Hc). exists skeletons, counts.
  assert (length skeletons <= length files) as Hlen.
  { apply sublist_length in Hs. rewrite !length_fmap in Hs. pose proof (length_filter (fun p => is_test_path p = false) files). unfold mapped in Hs. lia. }
  destruct (build_repo_map_spec page_rank_default (mkMapInput skeletons counts budget path compact spec fill) Hb) as (_ & _ & _ & m & _ & _ & _ & _ & _ & Em & _ & _ & _ & _ & _ & units & _ & Hle & _).
  { cbn [mi_files]. lia. }
  exists m. split_and!; [|done..]. unfold repository_map. rewrite (deps_walk root w files Hk). cbn [bind ret]. fold mapped. unfold of_option, of_sum. rewrite Es. cbn [mbind option_bind bind].
  rewrite Ec. cbn [mbind option_bind bind]. rewrite Hf. cbn [bind]. rewrite Em. done.
Qed.
End map_command.

(** ** Witnesses *)

(** The world of a tree under a root, with nothing else on the disk. *)
Definition world_of (root : str) (tree : Entry) : World :=
  mkWorld tree (fun file => relative ← path_strip_prefix file (parse_path root); read_path tree (fp_components relative))
    (fun _ => mkIoError true []) Some.
Definition any_pattern (pattern : str) : str + (str -> bool) := inr (fun name => contains_str name pattern).

Lemma map_command_exact_witness :
  (collect_kotlin_files cart_shop = Some (inr [[lit "k"; lit "Cart.kt"]]) /\ is_usize 200) /\
  exists m, @repository_map Qc _ _ default_options latin1_unicode demo_grammar (lit "/shop") any_pattern (world_of (lit "/shop") cart_shop) 200 false None false [] Md =
    Some (inr (Printed (render_map_markdown m))) /\ (m_token_upper_bound m <= 200)%N.
Proof.
  split; [split; [exact cart_shop_kotlin|vm_compute; discriminate]|].
  destruct (@map_command_exact Qc _ _ default_options latin1_unicode demo_grammar demo_laws (lit "/shop") any_pattern (world_of (lit "/shop") cart_shop)
    200%N false None false [] [[lit "k"; lit "Cart.kt"]] None cart_shop_kotlin) as (skeletons & counts & m & E & _ & _ & _ & Hle);
    [vm_compute; reflexivity|vm_compute; discriminate|reflexivity|].
  exists m. split; [exact E|exact Hle].
Defined.
