(* ===== verification/Cache.v ===== *)
(** * Cache: the daemon's parsed skeletons

    Models [crates/ktsense-cli/src/cache.rs]: skeletons kept by path with a fingerprint of the content they
    were parsed from, reused by [outline] and [deps] while the content is unchanged. The refinement theorem
    states that a daemon serving any requests over a changing file system answers as the commands do. *)
From stdpp Require Import gmap.
From S2P Require Import Prelude Collections Text Skeleton Imports Trace Render Answers Files Cst Extract Scan Symbols Commands.

Set Default Proof Using "Type*".

(** FNV-1a on 64 bits. *)
Definition FNV_OFFSET : N := 14695981039346656037%N.
Definition FNV_PRIME : N := 1099511628211%N.
Definition fnv_step (hash byte : N) : N := (N.lxor hash byte * FNV_PRIME mod 2 ^ 64)%N.
Definition fingerprint (source : str) : N := foldl fnv_step FNV_OFFSET (as_bytes source).

Record CacheEntry := mkCacheEntry { e_fingerprint : N; e_skeleton : FileSkeleton }.
Definition SkeletonCache : Type := gmap FsPath CacheEntry.

Definition hit (cache : SkeletonCache) (file : FsPath) (fp : N) : option FileSkeleton :=
  match cache !! file with
  | Some entry => if (e_fingerprint entry =? fp)%N then Some (e_skeleton entry) else None
  | None => None
  end.
Definition store (cache : SkeletonCache) (file : FsPath) (fp : N) (skeleton : FileSkeleton) : SkeletonCache :=
  <[file := mkCacheEntry fp skeleton]> cache.

Section cache.
Context `{Unicode} `{Grammar} (root : str).

(** [resolve], for the path [file] spelled [spelled]. *)
Definition resolve_cached (w : World) (cache : SkeletonCache) (file : FsPath) (spelled source : str) : option ((CommandError + FileSkeleton) * SkeletonCache) :=
  let fp := fingerprint source in
  match hit cache file fp with
  | Some skeleton => Some (inr skeleton, cache)
  | None =>
      r ← extract (display_path root w file) source;
      Some (match r with
            | inl _ => (inl (unparseable spelled), cache)
            | inr skeleton => (inr skeleton, store cache file fp skeleton)
            end)
  end.
Definition cached_outline (w : World) (cache : SkeletonCache) (file : str) (format : Format) (options : RenderOptions) : option ((CommandError + Answer) * SkeletonCache) :=
  match w_read w (parse_path file) with
  | None => Some (inl (read_error file (w_error w (parse_path file))), cache)
  | Some source =>
      '(r, cache) ← resolve_cached w cache (parse_path file) file source;
      Some (match r with inl e => inl e | inr skeleton => present skeleton format options end, cache)
  end.
Definition cached_skeleton (w : World) (cache : SkeletonCache) (p : Path) : option (option FileSkeleton * SkeletonCache) :=
  match w_read w (below root p) with
  | None => Some (None, cache)
  | Some source =>
      '(r, cache) ← resolve_cached w cache (below root p) (join_text root (display p)) source;
      Some (match r with inl _ => None | inr skeleton => Some skeleton end, cache)
  end.
Fixpoint cached_skeletons (w : World) (cache : SkeletonCache) (files : list Path) : option (list FileSkeleton * SkeletonCache) :=
  match files with
  | [] => Some ([], cache)
  | p :: files' =>
      '(s, cache) ← cached_skeleton w cache p;
      '(rest, cache) ← cached_skeletons w cache files';
      Some (option_list s ++ rest, cache)
  end.
Definition cached_deps (w : World) (cache : SkeletonCache) (level : DepLevel) (format : Format) : option ((CommandError + Answer) * SkeletonCache) :=
  r ← walked root w (collect_kotlin_files (w_tree w));
  match r with
  | inl e => Some (inl e, cache)
  | inr files =>
      '(skeletons, cache) ← cached_skeletons w cache files;
      graph ← build_import_graph skeletons level;
      Some (inr (present_deps graph format), cache)
  end.

(** The requests the cache answers, fresh and cached. *)
Inductive CacheRequest := OutlineRequest (file : str) (format : Format) (options : RenderOptions) | DepsRequest (level : DepLevel) (format : Format).
Definition answer_fresh (w : World) (r : CacheRequest) : Result Answer :=
  match r with
  | OutlineRequest file format options => outline root w file format options
  | DepsRequest level format => deps root w level format
  end.
Definition answer_cached (w : World) (cache : SkeletonCache) (r : CacheRequest) : option ((CommandError + Answer) * SkeletonCache) :=
  match r with
  | OutlineRequest file format options => cached_outline w cache file format options
  | DepsRequest level format => cached_deps w cache level format
  end.
(** A daemon's life: each request meets the file system as it is then. *)
Fixpoint serve_requests (cache : SkeletonCache) (steps : list (World * CacheRequest)) : option (list (CommandError + Answer)) :=
  match steps with
  | [] => Some []
  | (w, r) :: steps' => '(a, cache) ← answer_cached w cache r; rest ← serve_requests cache steps'; Some (a :: rest)
  end.
End cache.

(** ** The cache refines the commands *)

Section refinement.
Context `{Unicode} `{GrammarLaws} (root : str) (worlds : list World).

(** No file is read with two contents of one fingerprint, and a file keeps its display path. *)
Hypothesis distinct : forall w w' file source source', w ∈ worlds -> w' ∈ worlds ->
  w_read w file = Some source -> w_read w' file = Some source' -> fingerprint source = fingerprint source' ->
  source = source' /\ display_path root w file = display_path root w' file.

Definition cache_ok (cache : SkeletonCache) : Prop :=
  forall file entry, cache !! file = Some entry -> exists w source, w ∈ worlds /\ w_read w file = Some source /\
    e_fingerprint entry = fingerprint source /\ extract (display_path root w file) source = Some (inr (e_skeleton entry)).

Lemma resolve_cached_spec w cache file spelled source : w ∈ worlds -> w_read w file = Some source -> cache_ok cache ->
  exists r cache', extract (display_path root w file) source = Some r /\ cache_ok cache' /\
    resolve_cached root w cache file spelled source = Some (match r with inl _ => inl (unparseable spelled) | inr skeleton => inr skeleton end, cache').
Proof.
  intros Hw Hr Hc. destruct (extract_some (display_path root w file) source) as [r Er]. unfold resolve_cached, hit. destruct (cache !! file) as [entry|] eqn:E.
  - destruct (N.eqb_spec (e_fingerprint entry) (fingerprint source)) as [Ef|Ef].
    + destruct (Hc file entry E) as (w' & source' & Hw' & Hr' & Ef' & Ee). destruct (distinct w' w file source' source) as [-> Hd]; [done..|congruence|].
      rewrite Hd in Ee. exists (inr (e_skeleton entry)), cache. done.
    + rewrite Er. cbn [mbind option_bind]. exists r. destruct r as [e|skeleton]; [by exists cache|]. eexists. split; [done|]. split; [|done].
      unfold store. intros f e' [[<- <-]|[_ Hf]]%lookup_insert_Some; [by exists w, source|by apply Hc].
  - rewrite Er. cbn [mbind option_bind]. exists r. destruct r as [e|skeleton]; [by exists cache|]. eexists. split; [done|]. split; [|done].
    unfold store. intros f e' [[<- <-]|[_ Hf]]%lookup_insert_Some; [by exists w, source|by apply Hc].
Qed.
Lemma cached_skeleton_spec w cache p : w ∈ worlds -> cache_ok cache ->
  exists s cache', skeleton_for_deps root w p = Some s /\ cached_skeleton root w cache p = Some (s, cache') /\ cache_ok cache'.
Proof.
  intros Hw Hc. unfold skeleton_for_deps, cached_skeleton. destruct (w_read w (below root p)) as [source|] eqn:Er; [|by exists None, cache].
  destruct (resolve_cached_spec w cache (below root p) (join_text root (display p)) source Hw Er Hc) as (r & cache' & Ee & Hc' & E).
  rewrite Ee, E. cbn [mbind option_bind]. eexists _, cache'. split; [done|]. by destruct r.
Qed.
Lemma cached_skeletons_spec w files : w ∈ worlds -> forall cache, cache_ok cache ->
  exists skeletons cache', skeletons_of root w files = Some skeletons /\ cached_skeletons root w cache files = Some (skeletons, cache') /\ cache_ok cache'.
Proof.
  intros Hw. induction files as [|p files IH]; intros cache Hc; [by exists [], cache|].
  destruct (cached_skeleton_spec w cache p Hw Hc) as (s & cache1 & Es & Ec & Hc1). destruct (IH cache1 Hc1) as (rest & cache2 & Er & Ec2 & Hc2).
  exists (option_list s ++ rest), cache2. cbn [cached_skeletons]. rewrite Ec. cbn [mbind option_bind]. rewrite Ec2. split; [|done].
  unfold skeletons_of in *. cbn [mapM]. rewrite Es. cbn [mbind option_bind]. destruct (mapM _ files) as [found|]; [|done]. cbn in Er |- *. injection Er as <-. by destruct s.
Qed.
Lemma answer_cached_spec w cache r : w ∈ worlds -> cache_ok cache ->
  match answer_fresh root w r with
  | Some a => exists cache', answer_cached root w cache r = Some (a, cache') /\ cache_ok cache'
  | None => answer_cached root w cache r = None
  end.
Proof.
  intros Hw Hc. destruct r as [file format options|level format]; cbn [answer_fresh answer_cached].
  - unfold outline, cached_outline, parse_fresh. destruct (w_read w (parse_path file)) as [source|] eqn:Er; [|by exists cache].
    destruct (resolve_cached_spec w cache (parse_path file) file source Hw Er Hc) as (r & cache' & -> & Hc' & ->).
    cbn [mbind option_bind]. destruct r as [e|skeleton]; by exists cache'.
  - unfold deps, cached_deps. destruct (walked root w (collect_kotlin_files (w_tree w))) as [[e|files]|]; [by exists cache| |done]. cbn [bind mbind option_bind].
    destruct (cached_skeletons_spec w files Hw cache Hc) as (skeletons & cache' & -> & -> & Hc'). cbn [of_option mbind option_bind bind].
    destruct (build_import_graph skeletons level) as [graph|]; [|done]. by exists cache'.
Qed.
End refinement.

(** C40: The daemon's cache is invisible while two things hold of every file read twice with contents of one fingerprint:
    the contents are the same, and so is the path it is displayed by. The second always holds of a file below the root; a
    link outside it is displayed by what it leads to, and one led elsewhere between two requests, to equal content, is
    served under the old path ([relinked_file_served_under_old_path]). Then, whatever [outline] and [deps] requests a daemon
    answers while files change, appear and vanish between them, each answer, error or panic is the one the command gives in
    process on the files of that moment. *)
Theorem cache_transparent `{Unicode} `{GrammarLaws} (root : str) (steps : list (World * CacheRequest)) :
  (forall w w' file source source', w ∈ steps.*1 -> w' ∈ steps.*1 ->
     w_read w file = Some source -> w_read w' file = Some source' -> fingerprint source = fingerprint source' ->
     source = source' /\ display_path root w file = display_path root w' file) ->
  serve_requests root ∅ steps = mapM (fun step => answer_fresh root step.1 step.2) steps.
Proof.
  intros Hd. assert (forall rest cache, (forall w, w ∈ rest.*1 -> w ∈ steps.*1) -> cache_ok root (steps.*1) cache ->
    serve_requests root cache rest = mapM (fun step => answer_fresh root step.1 step.2) rest) as Hrun.
  { induction rest as [|[w r] rest IH]; intros cache Hin Hc; [done|]. cbn [serve_requests mapM fst snd].
    pose proof (answer_cached_spec root (steps.*1) Hd w cache r (Hin w ltac:(left)) Hc) as Ha.
    destruct (answer_fresh root w r) as [a|]; [|by rewrite Ha]. destruct Ha as (cache' & -> & Hc'). cbn [mbind option_bind].
    rewrite (IH cache'); [done| |done]. intros x Hx. apply Hin. by right. }
  apply Hrun; [done|]. intros file entry E. exfalso. exact (lookup_empty_Some (M := gmap FsPath) file entry E).
Qed.

(** A file below the root keeps its display path whatever the file system becomes. *)
Lemma display_path_below root w w' p : display_path root w (below root p) = display_path root w' (below root p).
Proof. unfold display_path, below. by rewrite !normalized_walked. Qed.

(** A link outside the root to [first_], and then to [second], which hold the same text. *)
Definition linked (target : str) : World :=
  mkWorld (Directory (Some [])) (fun _ => Some demo_source) (fun _ => mkIoError true [])
    (fun file => Some (if bool_decide (file = parse_path (lit "/ext/link.kt")) then parse_path target else file)).
Local Notation outline_link := (OutlineRequest (lit "/ext/link.kt") Json options_default).
(** The cache answers the second request with the path the link led to before. *)
Lemma relinked_file_served_under_old_path :
  exists before after, before <> after /\
    @outline latin1_unicode demo_grammar (lit "/shop") (linked (lit "/ext/First.kt")) (lit "/ext/link.kt") Json options_default = Some (inr before) /\
    @outline latin1_unicode demo_grammar (lit "/shop") (linked (lit "/ext/Second.kt")) (lit "/ext/link.kt") Json options_default = Some (inr after) /\
    @serve_requests latin1_unicode demo_grammar (lit "/shop") ∅ [(linked (lit "/ext/First.kt"), outline_link); (linked (lit "/ext/Second.kt"), outline_link)] =
      Some [inr before; inr before].
Proof. eexists _, _. split; [|split; [vm_compute; reflexivity|split; [vm_compute; reflexivity|vm_compute; reflexivity]]]. vm_compute. congruence. Qed.

(** ** Witnesses *)

Definition empty_shop : Entry := Directory (Some []).
Definition busy_day : list (World * CacheRequest) :=
  [(world_of (lit "/shop") cart_shop, OutlineRequest (lit "/shop/k/Cart.kt") Md options_default);
   (world_of (lit "/shop") cart_shop, DepsRequest PackageLevel Md);
   (world_of (lit "/shop") empty_shop, OutlineRequest (lit "/shop/k/Cart.kt") Md options_default)].
(** The second request reuses the parse of the first, and the third sees the file gone. *)
Lemma cache_transparent_witness :
  exists first_ second third, @serve_requests latin1_unicode demo_grammar (lit "/shop") ∅ busy_day = Some [inr first_; inr second; inl third] /\
    @outline latin1_unicode demo_grammar (lit "/shop") (world_of (lit "/shop") cart_shop) (lit "/shop/k/Cart.kt") Md options_default = Some (inr first_).
Proof.
  rewrite (@cache_transparent latin1_unicode demo_grammar demo_laws (lit "/shop") busy_day).
  - eexists _, _, _. split; vm_compute; reflexivity.
  - assert (forall w, w ∈ busy_day.*1 -> w = world_of (lit "/shop") cart_shop \/ w = world_of (lit "/shop") empty_shop) as Hw.
    { intros w Hin. cbn in Hin. repeat (apply elem_of_cons in Hin as [->|Hin]); [by left|by left|by right|by apply not_elem_of_nil in Hin]. }
    assert (forall file, w_read (world_of (lit "/shop") empty_shop) file = None) as Hnone.
    { intros file. cbn. destruct (path_strip_prefix file _) as [relative|]; [|done]. cbn. unfold read_path. by destruct (fp_components relative) as [|n [|n' p]]. }
    intros w w' file source source' [-> | ->]%Hw [-> | ->]%Hw Hr Hr' _; rewrite ?Hnone in Hr, Hr'; first [discriminate|split; [congruence|reflexivity]].
Defined.
