(* ===== verification/Index.v ===== *)
(** * Index: waiting for the engine's index

    Models [crates/ktsense-lsp/src/progress.rs], the index tracker of [crates/ktsense-daemon/src/engine.rs]
    and [await_warm_index] of [crates/ktsense-cli/src/trace.rs]. A fresh session folds the notifications
    itself; a warm one polls a tracker that another task advances, so the two tasks are a step relation over
    a shared state whose steps interleave freely. Times are milliseconds; decoding a notification's JSON is
    part of the notification. *)
From S2P Require Import Prelude Collections Skeleton References Sites Implementors Trace.

Set Default Proof Using "Type*".

(** ** The phase *)

Inductive WorkDoneProgress := Begin | Report | End_.
(** [n_progress]: the work-done value, when the parameters decode. *)
Record Notification := mkNotification { n_method : str; n_progress : option WorkDoneProgress }.
Definition PROGRESS_METHOD : str := lit "$/progress".
Inductive IndexPhase := PhasePending | PhaseIndexing | PhaseReady.
Definition advance (value : WorkDoneProgress) : IndexPhase :=
  match value with Begin | Report => PhaseIndexing | End_ => PhaseReady end.
Definition observe (phase : IndexPhase) (notification : Notification) : IndexPhase :=
  if bool_decide (n_method notification = PROGRESS_METHOD) then
    match n_progress notification with Some value => advance value | None => phase end
  else phase.
Definition is_ready (phase : IndexPhase) : bool := match phase with PhaseReady => true | _ => false end.
Definition completeness (phase : IndexPhase) : IndexCompleteness := if is_ready phase then Complete else Partial.

(** [wait_for_index]: what [select!] picked, in order; [None] is a wait still going on. *)
Inductive WaitEvent := Notified (notification : Notification) | StreamClosed | CapElapsed.
Fixpoint wait_for_index (phase : IndexPhase) (events : list WaitEvent) : option IndexPhase :=
  match events with
  | [] => None
  | Notified notification :: events' =>
      let phase := observe phase notification in
      if is_ready phase then Some phase else wait_for_index phase events'
  | StreamClosed :: _ | CapElapsed :: _ => Some phase
  end.

(** ** The tracker and the waiter *)

Record IndexTracker := mkTracker { tr_phase : IndexPhase; tr_closed : bool }.
Definition spawned : IndexTracker := mkTracker PhasePending false.
Definition WARM_INDEX_POLL : N := 20%N.

(** Where [await_warm_index] stands: about to read the phase, the closed flag, the phase once more, the
    clock, or done. *)
Inductive Waiter :=
  | ReadPhase | ReadClosed (phase : IndexPhase) | ReadFinal | CheckDeadline (phase : IndexPhase) | Answered (index : IndexCompleteness).
Record Shared := mkShared { sh_stream : list Notification; sh_tracker : IndexTracker; sh_now : N; sh_waiter : Waiter }.

(** One turn of [IndexTracker::follow]; the stream ends when its sender is gone. *)
Definition follow_step (s : Shared) : option Shared :=
  match sh_stream s with
  | notification :: rest =>
      Some (mkShared rest (mkTracker (observe (tr_phase (sh_tracker s)) notification) (tr_closed (sh_tracker s))) (sh_now s) (sh_waiter s))
  | [] => if tr_closed (sh_tracker s) then None else Some (mkShared [] (mkTracker (tr_phase (sh_tracker s)) true) (sh_now s) (sh_waiter s))
  end.
(** One atomic step of [await_warm_index]; a sleep takes the poll interval and [late] more. *)
Definition wait_step (deadline late : N) (s : Shared) : option Shared :=
  let at_ waiter := mkShared (sh_stream s) (sh_tracker s) (sh_now s) waiter in
  match sh_waiter s with
  | ReadPhase => Some (at_ (if is_ready (tr_phase (sh_tracker s)) then Answered Complete else ReadClosed (tr_phase (sh_tracker s))))
  | ReadClosed phase => Some (at_ (if tr_closed (sh_tracker s) then ReadFinal else CheckDeadline phase))
  | ReadFinal => Some (at_ (Answered (completeness (tr_phase (sh_tracker s)))))
  | CheckDeadline phase =>
      if (deadline <=? sh_now s)%N then Some (at_ (Answered (completeness phase)))
      else Some (mkShared (sh_stream s) (sh_tracker s) (sh_now s + WARM_INDEX_POLL + late) ReadPhase)
  | Answered _ => None
  end.

Inductive Actor := Follower | WaiterTask.
#[export] Instance Actor_eq_dec : EqDecision Actor.
Proof. solve_decision. Defined.
Inductive step (deadline : N) : Actor -> Shared -> Shared -> Prop :=
  | follow_ s s' : follow_step s = Some s' -> step deadline Follower s s'
  | wait_ late s s' : wait_step deadline late s = Some s' -> step deadline WaiterTask s s'.
(** A schedule: which task ran at each step. *)
Inductive run (deadline : N) : list Actor -> Shared -> Shared -> Prop :=
  | run_nil s : run deadline [] s s
  | run_cons a schedule s s' s'' : step deadline a s s' -> run deadline schedule s' s'' -> run deadline (a :: schedule) s s''.
Definition started (stream : list Notification) (now : N) : Shared := mkShared stream spawned now ReadPhase.

(** ** The invariant *)

Section invariant.
Context (deadline : N) (stream : list Notification) (start : N).
Definition final_phase : IndexPhase := foldl observe PhasePending stream.
(** Some initial part of the stream after which the index was ready. *)
Definition was_ready : Prop := exists seen rest, stream = seen ++ rest /\ is_ready (foldl observe PhasePending seen) = true.

Record consistent (s : Shared) : Prop := {
  co_stream : exists seen, stream = seen ++ sh_stream s /\ tr_phase (sh_tracker s) = foldl observe PhasePending seen;
  co_closed : tr_closed (sh_tracker s) = true -> sh_stream s = [];
  co_waiter :
    match sh_waiter s with
    | ReadClosed phase | CheckDeadline phase => is_ready phase = false
    | ReadFinal => tr_closed (sh_tracker s) = true
    | Answered Complete => was_ready
    | Answered Partial => (tr_closed (sh_tracker s) = true /\ is_ready final_phase = false) \/ (deadline <= sh_now s)%N
    | ReadPhase => True
    end }.

Lemma ready_was s : consistent s -> is_ready (tr_phase (sh_tracker s)) = true -> was_ready.
Proof. intros [(seen & E & Hp) _ _] Hr. exists seen, (sh_stream s). by rewrite <- Hp. Qed.
Lemma closed_final s : consistent s -> tr_closed (sh_tracker s) = true -> tr_phase (sh_tracker s) = final_phase.
Proof. intros [(seen & E & ->) Hc _] Ht. rewrite (Hc Ht), app_nil_r in E. unfold final_phase. by subst seen. Qed.

Lemma consistent_started : consistent (started stream start).
Proof. split; [by exists []|done|done]. Qed.
Lemma consistent_step a s s' : consistent s -> step deadline a s s' -> consistent s'.
Proof.
  intros Hc Hs. pose proof Hc as [(seen & Es & Ep) Hcl Hw]. inversion Hs as [? ? E|late ? ? E]; subst.
  - unfold follow_step in E. destruct (sh_stream s) as [|n rest] eqn:El.
    + destruct (tr_closed (sh_tracker s)) eqn:Ec; [done|]. injection E as <-. split; cbn; [by exists seen|done|].
      destruct (sh_waiter s) as [| | | |[]]; try done. destruct Hw as [[? _]|?]; [congruence|by right].
    + injection E as <-. split; cbn.
      * exists (seen ++ [n]). rewrite foldl_app, <- app_assoc. cbn. by rewrite Ep.
      * intros Ht. by specialize (Hcl Ht).
      * done.
  - unfold wait_step in E. destruct (sh_waiter s) as [|phase| |phase|[]] eqn:Ew; [| | | |done..].
    + injection E as <-. split; cbn; [by exists seen|done|]. destruct (is_ready _) eqn:Er; [by eapply ready_was|done].
    + injection E as <-. split; cbn; [by exists seen|done|]. destruct (tr_closed _) eqn:Et; done.
    + injection E as <-. split; cbn; [by exists seen|done|]. rewrite (closed_final s Hc Hw). unfold completeness. destruct (is_ready final_phase) eqn:Er; [|by left].
      exists stream, []. by rewrite app_nil_r.
    + unfold completeness in E. rewrite Hw in E. destruct (N.leb_spec deadline (sh_now s)); injection E as <-; split; cbn; try done; try (by exists seen). by right.
Qed.
Lemma consistent_run schedule s s' : run deadline schedule s s' -> consistent s -> consistent s'.
Proof. induction 1 as [|a schedule s s' s'' Hs _ IH]; [done|]. intros Hc. by eapply IH, consistent_step. Qed.
End invariant.

(** C38: A routed answer's completeness is never a race: whatever the interleaving of the task that follows
    the engine and the task that waits, complete is answered only if the index was seen ready, and partial
    only if the cap has passed or the stream has ended on a phase that is not ready; in particular a stream
    that ends ready between two reads is not called partial. *)
Theorem warm_wait_sound (deadline start : N) (stream : list Notification) (schedule : list Actor) (s : Shared) (index : IndexCompleteness) :
  run deadline schedule (started stream start) s -> sh_waiter s = Answered index ->
  match index with
  | Complete => was_ready stream
  | Partial => (sh_stream s = [] /\ is_ready (final_phase stream) = false) \/ (deadline <= sh_now s)%N
  end.
Proof.
  intros Hr Ha. destruct (consistent_run deadline stream schedule _ _ Hr (consistent_started deadline stream start)) as [_ Hc Hw]. rewrite Ha in Hw.
  destruct index; [|done]. destruct Hw as [[Ht ?]|?]; [left; auto|by right].
Qed.

(** ** The wait ends *)

Definition waits (schedule : list Actor) : nat := length (filter (fun a => a = WaiterTask) schedule).
(** Polls still possible before the deadline, and the waiter's steps left in this one. *)
Definition polls_left (deadline now : N) : nat := N.to_nat ((deadline - now + 19) / WARM_INDEX_POLL).
Definition steps_left (w : Waiter) : nat :=
  match w with ReadPhase => 4 | ReadClosed _ => 3 | CheckDeadline _ => 2 | ReadFinal => 1 | Answered _ => 0 end.
Definition wait_measure (deadline : N) (s : Shared) : nat := steps_left (sh_waiter s) + 4 * polls_left deadline (sh_now s).
(** The same once the stream has closed. *)
Definition closed_measure (w : Waiter) : nat :=
  match w with CheckDeadline _ => 4 | ReadPhase => 3 | ReadClosed _ => 2 | ReadFinal => 1 | Answered _ => 0 end.

Lemma polls_after_sleep deadline now late : (now < deadline)%N -> S (polls_left deadline (now + WARM_INDEX_POLL + late)) <= polls_left deadline now.
Proof.
  intros Hlt. unfold polls_left, WARM_INDEX_POLL.
  assert (N.succ ((deadline - (now + 20 + late) + 19) / 20) <= (deadline - now + 19) / 20)%N as Hn; [|lia].
  transitivity (N.succ ((deadline - now - 20 + 19) / 20))%N; [apply -> N.succ_le_mono; apply N.Div0.div_le_mono; lia|].
  destruct (N.le_gt_cases 20 (deadline - now)) as [Hge|Hl].
  - replace (deadline - now + 19)%N with ((deadline - now - 20 + 19) + 1 * 20)%N by lia. rewrite N.div_add by done. lia.
  - replace (deadline - now - 20 + 19)%N with 19%N by lia. change (19 / 20)%N with 0%N. apply N.div_le_lower_bound; lia.
Qed.
Lemma wait_step_measure deadline late s s' : wait_step deadline late s = Some s' -> S (wait_measure deadline s') <= wait_measure deadline s.
Proof.
  unfold wait_step, wait_measure. destruct (sh_waiter s) as [|phase| |phase|]; [| | | |done].
  - intros [= <-]. cbn. destruct (is_ready _); cbn; lia.
  - intros [= <-]. cbn. destruct (tr_closed _); cbn; lia.
  - intros [= <-]. cbn. lia.
  - destruct (N.leb_spec deadline (sh_now s)); intros [= <-]; cbn; [lia|]. pose proof (polls_after_sleep deadline (sh_now s) late ltac:(done)). lia.
Qed.
Lemma follow_step_keeps deadline s s' : follow_step s = Some s' ->
  wait_measure deadline s' = wait_measure deadline s /\ sh_waiter s' = sh_waiter s /\ (tr_closed (sh_tracker s) = true -> tr_closed (sh_tracker s') = true).
Proof. unfold follow_step, wait_measure. destruct (sh_stream s); [destruct (tr_closed _) eqn:E; [done|]|]; by intros [= <-]. Qed.
Lemma run_measure deadline schedule s s' : run deadline schedule s s' -> waits schedule + wait_measure deadline s' <= wait_measure deadline s.
Proof.
  induction 1 as [|a schedule s s' s'' Hs _ IH]; [cbn; lia|]. unfold waits in *. inversion Hs as [? ? E|late ? ? E]; subst.
  - rewrite filter_cons_False by done. by apply (follow_step_keeps deadline) in E as (<- & _).
  - rewrite filter_cons_True by done. apply wait_step_measure in E. cbn [length]. lia.
Qed.
Lemma run_closed deadline schedule s s' : run deadline schedule s s' -> tr_closed (sh_tracker s) = true ->
  waits schedule + closed_measure (sh_waiter s') <= closed_measure (sh_waiter s).
Proof.
  induction 1 as [|a schedule s s' s'' Hs _ IH]; intros Hc; [cbn; lia|]. unfold waits in *. inversion Hs as [? ? E|late ? ? E]; subst.
  - rewrite filter_cons_False by done. apply (follow_step_keeps deadline) in E as (_ & <- & Ht). auto.
  - rewrite filter_cons_True by done. cbn [length].
    assert (tr_closed (sh_tracker s') = true /\ S (closed_measure (sh_waiter s')) <= closed_measure (sh_waiter s)) as [Hc' Hm]; [|specialize (IH Hc'); lia].
    unfold wait_step in E. destruct (sh_waiter s) as [|phase| |phase|]; [| | | |done]; [..|destruct (deadline <=? sh_now s)%N]; injection E as <-; cbn; (split; [done|]);
      [destruct (is_ready _)|rewrite Hc| | |]; cbn; lia.
Qed.

(** C39: Waiting always ends: in every interleaving the waiting task takes no more than four steps per poll
    interval up to its cap, it is never stuck before it has answered, and once the engine's stream has closed
    it answers within four more steps of its own, however far away the cap is. *)
Theorem warm_wait_ends (deadline start : N) (stream : list Notification) (schedule : list Actor) (s : Shared) :
  run deadline schedule (started stream start) s ->
  waits schedule <= 4 * (1 + polls_left deadline start) /\
  ((forall index, sh_waiter s <> Answered index) -> forall late, exists s', step deadline WaiterTask s s' /\ wait_step deadline late s = Some s') /\
  (tr_closed (sh_tracker s) = true -> forall later s', run deadline later s s' -> 4 <= waits later -> exists index, sh_waiter s' = Answered index).
Proof.
  intros Hr. split_and!.
  - apply run_measure in Hr. unfold wait_measure in Hr at 2. cbn in Hr. lia.
  - intros Hn late. assert (is_Some (wait_step deadline late s)) as [s' E].
    { unfold wait_step. destruct (sh_waiter s) as [|phase| |phase|index]; try by eexists. - by destruct (_ <=? _)%N; eexists. - by destruct (Hn index). }
    exists s'. split; [|done]. by econstructor.
  - intros Hc later s' Hl Hw. apply run_closed in Hl; [|done]. assert (closed_measure (sh_waiter s) <= 4) by (destruct (sh_waiter s); cbn; lia).
    destruct (sh_waiter s') as [|?| |?|index]; cbn in Hl; try lia. by exists index.
Qed.

(** A fresh session labels its answer by what it saw: the wait ends at the first notification that makes
    the index ready, at the end of the stream or at the cap, whichever [select!] picks first, and the phase
    it returns is the fold of the notifications before that. *)
Theorem wait_for_index_exact (events : list WaitEvent) :
  match wait_for_index PhasePending events with
  | Some phase => exists seen last_ rest, events = (Notified <$> seen) ++ last_ :: rest /\
      Forall (fun n => is_ready (foldl observe PhasePending (take n seen)) = false) (seq 0 (S (length seen))) /\
      match last_ with
      | Notified n => phase = PhaseReady /\ is_ready (foldl observe PhasePending (seen ++ [n])) = true
      | StreamClosed | CapElapsed => phase = foldl observe PhasePending seen
      end
  | None => exists seen, events = Notified <$> seen
  end.
Proof.
  assert (forall phase, is_ready phase = false -> match wait_for_index phase events with
    | Some phase' => exists seen last_ rest, events = (Notified <$> seen) ++ last_ :: rest /\
        (forall k, is_ready (foldl observe phase (take k seen)) = false) /\
        match last_ with
        | Notified n => phase' = PhaseReady /\ is_ready (foldl observe phase (seen ++ [n])) = true
        | StreamClosed | CapElapsed => phase' = foldl observe phase seen
        end
    | None => exists seen, events = Notified <$> seen
    end) as Hgen.
  { induction events as [|e events IH]; intros phase Hp; cbn [wait_for_index]; [by exists []|]. destruct e as [n| |].
    - destruct (is_ready (observe phase n)) eqn:Er.
      + exists [], (Notified n), events. split; [done|]. split; [by intros [|k]|]. split; [by destruct (observe phase n)|done].
      + specialize (IH _ Er). destruct (wait_for_index _ events) as [phase'|].
        * destruct IH as (seen & last_ & rest & -> & Hk & Hl). exists (n :: seen), last_, rest. split; [done|]. split; [by intros [|k]; cbn|]. by destruct last_.
        * destruct IH as [seen ->]. by exists (n :: seen).
    - exists [], StreamClosed, events. split; [done|]. split; [by intros [|k]|done].
    - exists [], CapElapsed, events. split; [done|]. split; [by intros [|k]|done]. }
  specialize (Hgen PhasePending eq_refl). destruct (wait_for_index PhasePending events) as [phase|]; [|done].
  destruct Hgen as (seen & last_ & rest & E & Hk & Hl). exists seen, last_, rest. split; [done|]. split; [|done]. apply Forall_forall. intros k _. apply Hk.
Qed.

(** ** Witnesses *)

Definition end_notice : Notification := mkNotification PROGRESS_METHOD (Some End_).
(** The stream ends ready after the waiter's first read: the second read still sees it. *)
Definition racing : list Actor := [WaiterTask; Follower; Follower; WaiterTask; WaiterTask].
Definition raced : Shared := mkShared [] (mkTracker PhaseReady true) 0 (Answered Complete).
Lemma racing_run : run 3000 racing (started [end_notice] 0) raced.
Proof.
  eapply run_cons; [apply (wait_ _ 0); reflexivity|]. eapply run_cons; [apply follow_; reflexivity|]. eapply run_cons; [apply follow_; reflexivity|].
  eapply run_cons; [apply (wait_ _ 0); reflexivity|]. eapply run_cons; [apply (wait_ _ 0); reflexivity|]. apply run_nil.
Defined.
Lemma warm_wait_sound_witness : run 3000 racing (started [end_notice] 0) raced /\ was_ready [end_notice].
Proof. split; [exact racing_run|]. exact (warm_wait_sound 3000 0 [end_notice] racing raced Complete racing_run eq_refl). Defined.
Lemma warm_wait_ends_witness : run 3000 racing (started [end_notice] 0) raced /\ waits racing <= 604.
Proof. split; [exact racing_run|]. exact (proj1 (warm_wait_ends 3000 0 [end_notice] racing raced racing_run)). Defined.
