(* ===== verification/Subtypes.v ===== *)
(** * Subtypes: the implementors of a Java type

    Models [crates/ktsense-cli/src/implementors.rs]: the types of the workspace's Java and Kotlin sources with
    the simple names of their supertypes, gathered for the walk of [Implementors]. *)
From S2P Require Import Prelude Collections Text Skeleton Query Implementors JavaEnclosing JavaDeclarations Trace Files Cst Extract Scan Symbols Commands.

Set Default Proof Using "Type*".

Definition join_fqn (package : option str) (ancestors : list str) (name : str) : str :=
  join [ch "."] (option_list package ++ filter (fun part => part <> []) ancestors ++ [name]).

(** The characters that end the base type of a supertype specifier. *)
Definition ends_base (c : char) : bool := bool_decide (c ∈ [ch "<"; ch "("; ch " "; 9%N; 10%N]).
Definition simple_supertype_name (specifier : str) : str :=
  last_piece (ch ".") (default specifier (head (split_by ends_base specifier))).
Definition is_kotlin_type (kind : DeclKind) : bool := match kind with Class_ | Interface | Object => true | _ => false end.

Definition java_node (package : option str) (path : str) (d : JavaDeclaration) : TypeNode :=
  mkTypeNode (join_fqn package (jd_enclosing d) (jd_name d)) (jd_name d) path (jd_line d) (jd_supertypes d).
Definition kotlin_node (package : option str) (path : str) (ancestors : list str) (d : Declaration) : TypeNode :=
  mkTypeNode (join_fqn package ancestors (d_name d)) (d_name d) path (d_line d) (simple_supertype_name <$> d_supertypes d).
Definition names_supertypes (d : Declaration) : bool := is_kotlin_type (d_kind d) && negb (bool_decide (d_supertypes d = [])).

(** [gather_kotlin_types], one declaration. *)
Fixpoint gather_kotlin_type (package : option str) (path : str) (ancestors : list str) (d : Declaration) : list TypeNode :=
  (if names_supertypes d then [kotlin_node package path ancestors d] else [])
  ++ concat (gather_kotlin_type package path (ancestors ++ [d_name d]) <$> d_children d).
Definition gather_kotlin_types (package : option str) (path : str) (ds : list Declaration) : list TypeNode :=
  concat (gather_kotlin_type package path [] <$> ds).

Section subtypes.
Context `{Unicode} `{Grammar} (root : str) (w : World).

(** A path of an answer: absolute, or below the root. *)
Definition answered_path (path : str) : FsPath := path_join (parse_path root) (parse_path path).

Definition java_definition_is_class_or_interface (definition : Definition_) (target : str) : option bool :=
  match w_read w (answered_path (df_path definition)) with
  | None => Some false
  | Some source =>
      declarations ← java_declarations source;
      let named := fun d => bool_decide (jd_name d = target) in
      let found := match find (fun d => named d && (jd_line d =? df_line definition)%N) declarations with
                   | Some d => Some d
                   | None => find named declarations
                   end in
      Some (match jd_kind <$> found with Some (JClass | JInterface) => true | _ => false end)
  end.

Definition collect_java_type_nodes (p : Path) : option (list TypeNode) :=
  match w_read w (below root p) with
  | None => Some []
  | Some source =>
      package ← java_package source;
      declarations ← java_declarations source;
      Some (java_node package (display_path root w (below root p)) <$> filter (fun d => JavaDeclarations.is_type (jd_kind d) = true) (declarations : list JavaDeclaration))
  end.
Definition collect_kotlin_type_nodes (p : Path) : option (list TypeNode) :=
  match w_read w (below root p) with
  | None => Some []
  | Some source =>
      r ← extract (display_path root w (below root p)) source;
      Some (match r with
            | inl _ => []
            | inr skeleton => gather_kotlin_types (fs_package skeleton) (display_path root w (below root p)) (fs_declarations skeleton)
            end)
  end.
Definition collect_type_nodes (definition : Definition_) : Result (list TypeNode) :=
  java <-? walked root w (collect_java_files (w_tree w));
  java <-? of_option (mapM collect_java_type_nodes java);
  kotlin <-? walked root w (collect_kotlin_files (w_tree w));
  kotlin <-? of_option (mapM collect_kotlin_type_nodes kotlin);
  ret (filter (fun node => location node <> (df_path definition, df_line definition)) (concat java ++ concat kotlin)).

Definition supertype_implementors (definition : Definition_) : Result (option SupertypeImplementors) :=
  if ends_with (df_path definition) (lit ".java") then
    let target := last_segment (df_qualified_name definition) in
    listed <-? of_option (java_definition_is_class_or_interface definition target);
    if listed : bool then
      nodes <-? collect_type_nodes definition;
      answer <-? of_option (resolve_supertype_implementors target nodes);
      ret (Some answer)
    else ret None
  else ret None.
End subtypes.

(** ** What is gathered *)

Definition kotlin_types (package : option str) (path : str) (l : Located) : list TypeNode :=
  if names_supertypes (lc_declaration l) then [kotlin_node package path (lc_ancestors l) (lc_declaration l)] else [].
Lemma gather_kotlin_placed package path d : forall ancestors, gather_kotlin_type package path ancestors d = concat (kotlin_types package path <$> placed ancestors d).
Proof.
  induction d as [d IH] using declaration_ind'. intros ancestors. destruct d as [kind dname receiver dline vis ann mods tp ps cv rt ti st tc doc children].
  cbn [d_children] in IH. set (d := mkDecl _ _ _ _ _ _ _ _ _ _ _ _ _ _ _ _).
  change (placed ancestors d) with (mkLocated d ancestors :: concat (placed (ancestors ++ [dname]) <$> children)).
  change (gather_kotlin_type package path ancestors d) with (kotlin_types package path (mkLocated d ancestors) ++ concat (gather_kotlin_type package path (ancestors ++ [dname]) <$> children)).
  csimpl. f_equal. generalize (ancestors ++ [dname]) as inside. intros inside. clearbody d. clear -IH. induction IH as [|c cs Hc _ IHcs]; [done|].
  csimpl. by rewrite fmap_app, concat_app, Hc, IHcs.
Qed.
Lemma gather_kotlin_spec f path : gather_kotlin_types (fs_package f) path (fs_declarations f) = concat (kotlin_types (fs_package f) path <$> placed_in f).
Proof. unfold gather_kotlin_types, placed_in. induction (fs_declarations f) as [|d ds IH]; [done|]. csimpl. by rewrite fmap_app, concat_app, gather_kotlin_placed, IH. Qed.

Lemma mapM_gathered {A B} (f : A -> option (list B)) (P : A -> B -> Prop) l :
  (forall x, x ∈ l -> exists r, f x = Some r /\ forall n, n ∈ r <-> P x n) ->
  exists rs, mapM f l = Some rs /\ forall n, n ∈ concat rs <-> exists x, x ∈ l /\ P x n.
Proof.
  induction l as [|x l IH]; intros Hf.
  - exists []. split; [done|]. intros n. cbn. split; [by intros ?%elem_of_nil|]. by intros (? & ?%elem_of_nil & _).
  - destruct (Hf x) as (r & E & Hr); [left|]. destruct IH as (rs & Es & Hrs); [intros y Hy; apply Hf; by right|].
    exists (r :: rs). split; [cbn [mapM]; by rewrite E, Es|]. intros n. csimpl. rewrite elem_of_app, Hr, Hrs. split.
    + intros [Hp|(y & Hy & Hp)]; [exists x; split; [left|done]|exists y; split; [by right|done]].
    + intros (y & Hy & Hp). apply elem_of_cons in Hy as [->|Hy]; [by left|right; by exists y].
Qed.

(** The simple name of a supertype specifier: of the text before its type arguments, call or blank, what
    follows the last dot. *)
Definition names_supertype (specifier name : str) : Prop :=
  exists qualifier rest, specifier = qualifier ++ name ++ rest /\ ch "." ∉ name /\
    (qualifier = [] \/ exists q, qualifier = q ++ [ch "."]) /\
    (forall c, c ∈ qualifier ++ name -> c ∉ [ch "<"; ch "("; ch " "; 9%N; 10%N]) /\
    (rest = [] \/ exists c r, rest = c :: r /\ c ∈ [ch "<"; ch "("; ch " "; 9%N; 10%N]).

Lemma head_split_by (p : char -> bool) (s : str) : exists base rest, head (split_by p s) = Some base /\ s = base ++ rest /\
  (forall c, c ∈ base -> p c = false) /\ (rest = [] \/ exists c r, rest = c :: r /\ p c = true).
Proof.
  induction s as [|c s (base & rest & E & Es & Hb & Hr)]; cbn [split_by].
  { exists [], []. split_and!; [done|done|by intros c ?%elem_of_nil|by left]. }
  destruct (p c) eqn:Ec.
  { exists [], (c :: s). split_and!; [done|done|by intros d ?%elem_of_nil|right; by exists c, s]. }
  destruct (split_by p s) as [|q qs]; [done|]. injection E as ->. exists (c :: base), rest. split_and!; [done|by rewrite Es| |done].
  intros d [->|Hd]%elem_of_cons; [done|by apply Hb].
Qed.
Lemma last_piece_spec (c : char) (s : str) : exists q, s = q ++ last_piece c s /\ c ∉ last_piece c s /\ (q = [] \/ exists q', q = q' ++ [c]).
Proof.
  unfold last_piece. pose proof (join_split c s) as E. pose proof (split_pieces_free c s) as Hfree. pose proof (split_char_nonempty c s) as Hne.
  destruct (split_char c s) as [|p ps _] eqn:Es using rev_ind; [done|]. rewrite last_snoc. cbn [default from_option]. unfold id.
  assert (c ∉ p) as Hp by (apply Hfree, elem_of_app; right; left). destruct (decide (ps = [])) as [->|Hps].
  - exists []. split_and!; [by rewrite <- E|done|by left].
  - rewrite join_app in E by done. exists (join [c] ps ++ [c]). split_and!; [by rewrite <- app_assoc|done|right; by eexists].
Qed.
Lemma simple_name_spec specifier : names_supertype specifier (simple_supertype_name specifier).
Proof.
  unfold simple_supertype_name. destruct (head_split_by ends_base specifier) as (base & rest & -> & -> & Hb & Hr). cbn [default from_option]. unfold id.
  destruct (last_piece_spec (ch ".") base) as (q & Eq & Hn & Hq). exists q, rest. split_and!; [by rewrite app_assoc, <- Eq|done|done| |].
  - intros c. rewrite <- Eq. intros Hc%Hb Hin. unfold ends_base in Hc. by rewrite bool_decide_eq_false in Hc.
  - destruct Hr as [?|(c & r & -> & Hc)]; [by left|]. right. exists c, r. split; [done|]. by apply bool_decide_eq_true in Hc.
Qed.

Section gathered.
Context `{Unicode} `{GrammarLaws} (root : str) (w : World).

Definition java_type (p : Path) (n : TypeNode) : Prop :=
  exists source package ds d, w_read w (below root p) = Some source /\ java_package source = Some package /\ java_declarations source = Some ds /\
    d ∈ ds /\ JavaDeclarations.is_type (jd_kind d) = true /\ n = java_node package (display p) d.
Definition kotlin_type (p : Path) (n : TypeNode) : Prop :=
  exists source skeleton l, w_read w (below root p) = Some source /\ extract (display p) source = Some (inr skeleton) /\
    l ∈ placed_in skeleton /\ let d := lc_declaration l in
    (d_kind d = Class_ \/ d_kind d = Interface \/ d_kind d = Object) /\ d_supertypes d <> [] /\
    n_fqn n = join_fqn (fs_package skeleton) (lc_ancestors l) (d_name d) /\ n_simple_name n = d_name d /\ n_path n = display p /\ n_line n = d_line d /\
    Forall2 names_supertype (d_supertypes d) (n_supertypes n).

(** A specifier has one simple name. *)
Lemma names_supertype_unique specifier a b : names_supertype specifier a -> names_supertype specifier b -> a = b.
Proof.
  assert (forall base base' rest rest' : str, base ++ rest = base' ++ rest' -> (forall c, c ∈ base -> c ∉ [ch "<"; ch "("; ch " "; 9%N; 10%N]) ->
    (rest' = [] \/ exists c r, rest' = c :: r /\ c ∈ [ch "<"; ch "("; ch " "; 9%N; 10%N]) -> length base <= length base') as Hlen.
  { intros base base' rest rest' E Hb Hr. destruct (decide (length base <= length base')) as [|Hlt]; [done|].
    apply app_eq_app in E as (l & [[-> ->]|[-> ->]]); [|rewrite length_app in Hlt; lia].
    destruct l as [|c l]; [rewrite length_app in Hlt; cbn in Hlt; lia|]. destruct Hr as [?|(d & r & [= <- <-] & Hd)]; [done|].
    exfalso. apply (Hb c); [apply elem_of_app; right; left|done]. }
  assert (forall q q' n n' : str, q ++ n = q' ++ n' -> ch "." ∉ n -> (q' = [] \/ exists p, q' = p ++ [ch "."]) -> length q' <= length q) as Hdot.
  { intros q q' n n' E Hn Hq. destruct (decide (length q' <= length q)) as [|Hlt]; [done|].
    apply app_eq_app in E as (l & [[-> ->]|[-> ->]]); [rewrite length_app in Hlt; lia|].
    destruct l as [|c l _] using rev_ind; [rewrite app_nil_r in Hlt; lia|]. destruct Hq as [Hq|(p & Hq)]; [by destruct q, l|].
    rewrite app_assoc in Hq. apply app_inj_tail in Hq as [_ ->]. exfalso. apply Hn. rewrite !elem_of_app. left. right. left. }
  intros (q & rest & -> & Ha & Hq & Hb & Hr) (q' & rest' & E & Ha' & Hq' & Hb' & Hr'). rewrite !app_assoc in E.
  assert (length (q ++ a) = length (q' ++ b)) as El by (apply Nat.le_antisymm; [by eapply Hlen|by eapply Hlen]).
  apply app_inj_1 in E as [E _]; [|done].
  assert (length q = length q') as Eq by (apply Nat.le_antisymm; [by eapply Hdot|by eapply Hdot]). by apply app_inj_1 in E as [_ E].
Qed.
Lemma kotlin_node_spec package path ancestors d n :
  (names_supertypes d = true /\ n = kotlin_node package path ancestors d) <->
  (d_kind d = Class_ \/ d_kind d = Interface \/ d_kind d = Object) /\ d_supertypes d <> [] /\
  n_fqn n = join_fqn package ancestors (d_name d) /\ n_simple_name n = d_name d /\ n_path n = path /\ n_line n = d_line d /\
  Forall2 names_supertype (d_supertypes d) (n_supertypes n).
Proof.
  unfold names_supertypes, is_kotlin_type. rewrite andb_true_iff, negb_true_iff, bool_decide_eq_false. split.
  - intros [[Hk Hs] ->]. split_and!; try done; [destruct (d_kind d); auto; done|]. cbn. apply Forall2_fmap_r, Forall_Forall2_diag, Forall_forall.
    intros x _. apply simple_name_spec.
  - intros (Hk & Hs & Hf1 & Hf2 & Hf3 & Hf4 & Hf5). split; [split; [by destruct Hk as [->|[->| ->]]|done]|]. destruct n as [a b c e f]. cbn in *. subst. unfold kotlin_node. f_equal.
    clear -Hf5. induction Hf5 as [|x y l k Hxy _ IH]; [done|]. csimpl. f_equal; [|done]. eapply names_supertype_unique; [exact Hxy|apply simple_name_spec].
Qed.

Lemma java_nodes_spec p : exists r, collect_java_type_nodes root w p = Some r /\ forall n, n ∈ r <-> java_type p n.
Proof.
  unfold collect_java_type_nodes, java_type. destruct (w_read w (below root p)) as [source|]; [|exists []; split; [done|]; intros n; split; [by intros ?%elem_of_nil|by intros (? & ? & ? & ? & ? & _)]].
  destruct (java_package_some source) as [package Ep]. destruct (decl_scan_some source) as (tokens & s & _ & Ed & _). rewrite Ep, Ed. cbn [mbind option_bind].
  eexists. split; [done|]. intros n. rewrite display_below, list_elem_of_fmap. setoid_rewrite list_elem_of_filter. split.
  - intros (d & -> & Ht & Hd). by exists source, package, (ds_declarations s), d.
  - intros (source' & package' & ds & d & [= <-] & Ep' & Ed' & Hd & Ht & ->). rewrite Ep in Ep'. rewrite Ed in Ed'. injection Ep' as <-. injection Ed' as <-. by exists d.
Qed.
Lemma kotlin_nodes_spec p : exists r, collect_kotlin_type_nodes root w p = Some r /\ forall n, n ∈ r <-> kotlin_type p n.
Proof.
  unfold collect_kotlin_type_nodes, kotlin_type. destruct (w_read w (below root p)) as [source|]; [|exists []; split; [done|]; intros n; split; [by intros ?%elem_of_nil|by intros (? & ? & ? & ? & _)]].
  rewrite display_below. destruct (extract_some (display p) source) as [r E]. rewrite E. cbn [mbind option_bind]. eexists. split; [done|]. intros n. destruct r as [e|f].
  - split; [by intros ?%elem_of_nil|]. intros (source' & skeleton & l & [= <-] & E' & _). congruence.
  - rewrite gather_kotlin_spec, elem_of_concat. setoid_rewrite list_elem_of_fmap. unfold kotlin_types. split.
    + intros (r & (l & -> & Hl) & Hn). destruct (names_supertypes (lc_declaration l)) eqn:En; [|by apply elem_of_nil in Hn].
      apply list_elem_of_singleton in Hn as ->. exists source, f, l. do 3 (split; [done|]). by apply kotlin_node_spec.
    + intros (source' & skeleton & l & [= <-] & E' & Hl & Hn). rewrite E in E'. injection E' as <-. eexists. split; [by exists l|].
      apply kotlin_node_spec in Hn as [-> ->]. left.
Qed.

(** The declaration of a Java source a definition stands for: the first of its name on its line, or, when
    none is there, the first of its name. *)
Definition stands_for (definition : Definition_) (target : str) (ds : list JavaDeclaration) (d : JavaDeclaration) : Prop :=
  exists before after, ds = before ++ d :: after /\ jd_name d = target /\
    ((jd_line d = df_line definition /\ forall d', d' ∈ before -> jd_name d' = target -> jd_line d' <> df_line definition) \/
     ((forall d', d' ∈ ds -> jd_name d' = target -> jd_line d' <> df_line definition) /\ forall d', d' ∈ before -> jd_name d' <> target)).
(** The definition is a class or an interface, by its own Java file. *)
Definition is_java_class (definition : Definition_) : Prop :=
  let target := last_segment (df_qualified_name definition) in
  exists source ds d, w_read w (answered_path root (df_path definition)) = Some source /\ java_declarations source = Some ds /\
    stands_for definition target ds d /\ (jd_kind d = JClass \/ jd_kind d = JInterface).

Lemma find_spec {A} (f : A -> bool) l x : find f l = Some x <-> exists before after, l = before ++ x :: after /\ f x = true /\ forall y, y ∈ before -> f y = false.
Proof.
  induction l as [|y l IH]; cbn [find].
  { split; [done|]. by intros ([|? ?] & ? & ? & _). }
  destruct (f y) eqn:E.
  - split; [intros [= ->]; exists [], l; split_and!; [done|done|by intros ? ?%elem_of_nil]|].
    intros ([|z before] & after & [= -> ->] & Hx & Hb); [done|]. rewrite (Hb z) in E; [done|left].
  - rewrite IH. split.
    + intros (before & after & -> & Hx & Hb). exists (y :: before), after. split_and!; [done|done|]. intros z [->|Hz]%elem_of_cons; [done|by apply Hb].
    + intros ([|z before] & after & [= -> ->] & Hx & Hb); [congruence|]. exists before, after. split_and!; [done|done|]. intros u Hu. apply Hb. by right.
Qed.
Lemma stands_for_find definition target ds d :
  match find (fun d => bool_decide (jd_name d = target) && (jd_line d =? df_line definition)%N) ds with
  | Some d => Some d
  | None => find (fun d => bool_decide (jd_name d = target)) ds
  end = Some d <-> stands_for definition target ds d.
Proof.
  set (both := fun d => bool_decide (jd_name d = target) && (jd_line d =? df_line definition)%N).
  assert (forall d, both d = true <-> jd_name d = target /\ jd_line d = df_line definition) as Hboth.
  { intros d'. unfold both. by rewrite andb_true_iff, bool_decide_eq_true, N.eqb_eq. }
  assert (forall d, both d = false <-> (jd_name d = target -> jd_line d <> df_line definition)) as Hnot.
  { intros d'. rewrite <- not_true_iff_false, Hboth. tauto. }
  unfold stands_for. destruct (find both ds) as [d0|] eqn:E0.
  - apply find_spec in E0 as (b0 & a0 & Eds & Hd0%Hboth & Hb0). split.
    + intros [= <-]. exists b0, a0. split_and!; [done|tauto|]. left. split; [tauto|]. intros d' Hd'. by apply Hnot, Hb0.
    + intros (before & after & E & Hn & [[Hl Hb]|[Hno _]]).
      * assert (find both ds = Some d0 /\ find both ds = Some d) as [F1 F2]; [|congruence]. split; apply find_spec.
        { exists b0, a0. split_and!; [done|by apply Hboth|done]. }
        exists before, after. split_and!; [done|by apply Hboth|]. intros y Hy. by apply Hnot, Hb.
      * exfalso. apply (Hno d0); [|tauto..]. rewrite Eds. apply elem_of_app. right. left.
  - assert (forall d', d' ∈ ds -> both d' = false) as Hnone.
    { intros d' Hd'. apply not_true_iff_false. intros Hb. apply list_elem_of_In in Hd'. by rewrite (find_none _ _ E0 d' Hd') in Hb. }
    rewrite find_spec. split.
    + intros (before & after & -> & Hn%bool_decide_eq_true & Hb). exists before, after. split_and!; [done|done|]. right. split; [intros d' Hd'; by apply Hnot, Hnone|].
      intros d' Hd'. by apply Hb, bool_decide_eq_false in Hd'.
    + intros (before & after & -> & Hn & Hc). exists before, after. split_and!; [done|by apply bool_decide_eq_true|]. intros d' Hd'. apply bool_decide_eq_false.
      destruct Hc as [[Hl _]|[_ Hb]]; [|by apply Hb]. exfalso. assert (both d = false) as Hf by (apply Hnone, elem_of_app; right; left). apply Hnot in Hf; done.
Qed.
Lemma class_or_interface_spec definition : exists listed,
  java_definition_is_class_or_interface root w definition (last_segment (df_qualified_name definition)) = Some listed /\ (listed = true <-> is_java_class definition).
Proof.
  unfold java_definition_is_class_or_interface, is_java_class. destruct (w_read w _) as [source|].
  2: { exists false. split; [done|]. split; [done|]. by intros (? & ? & ? & ? & _). }
  destruct (decl_scan_some source) as (tokens & s & _ & Ed & _). rewrite Ed. cbn [mbind option_bind]. eexists. split; [done|].
  match goal with |- context [jd_kind <$> ?o] => set (found := o) end. split.
  - intros Hl. destruct found as [d|] eqn:E; [|done]. exists source, (ds_declarations s), d. split_and!; [done|done|by apply stands_for_find|].
    cbn in Hl. destruct (jd_kind d); auto; done.
  - intros (source' & ds & d & [= <-] & Ed' & Hs & Hk). rewrite Ed in Ed'. injection Ed' as <-. apply stands_for_find in Hs. unfold found. rewrite Hs. cbn. by destruct Hk as [->| ->].
Qed.
End gathered.

(** ** Property *)

(** C28: The subtypes of a Java class or interface are read from the sources, never guessed. A definition gets
    a listing only when its file is a Java source in which it stands for a class or an interface - the
    declaration of its name on its line, or else the first of its name -, and no enum, record, annotation
    or member does. The listing is the walk over every type the Java sources declare and every Kotlin class,
    interface or object that names supertypes, each with the simple names of those, the definition itself
    left out; over distinct locations such a type is a row exactly when it reaches the definition's name
    through at most eight supertype clauses. No source makes it fail. *)
Theorem supertype_listing_exact `{Unicode} `{GrammarLaws} (root : str) (w : World) (definition : Definition_) (java kotlin : list Path) :
  collect_java_files (w_tree w) = Some (inr java) -> collect_kotlin_files (w_tree w) = Some (inr kotlin) ->
  exists listing, supertype_implementors root w definition = Some (inr listing) /\
    match listing with
    | None => ends_with (df_path definition) (lit ".java") = false \/ ~ is_java_class root w definition
    | Some answer => ends_with (df_path definition) (lit ".java") = true /\ is_java_class root w definition /\
        exists nodes,
          (forall n, n ∈ nodes <-> ((exists p, p ∈ java /\ java_type root w p n) \/ (exists p, p ∈ kotlin /\ kotlin_type root w p n)) /\
            location n <> (df_path definition, df_line definition)) /\
          (NoDup (location <$> nodes) -> forall n, n ∈ nodes ->
            (location n ∈ (fun i => (i_path i, i_line i)) <$> i_implementors answer <->
             subtype_within (last_segment (df_qualified_name definition)) nodes n))
    end.
Proof.
  intros Ej Ek. set (target := last_segment (df_qualified_name definition)). destruct (class_or_interface_spec root w definition) as (listed & El & Hlisted).
  destruct (mapM_gathered (collect_java_type_nodes root w) (java_type root w) java) as (js & Ejs & Hj); [intros p _; apply java_nodes_spec|].
  destruct (mapM_gathered (collect_kotlin_type_nodes root w) (kotlin_type root w) kotlin) as (ks & Eks & Hk); [intros p _; apply kotlin_nodes_spec|].
  set (nodes := filter (fun node => location node <> (df_path definition, df_line definition)) (concat js ++ concat ks)).
  destruct (implementors_walk target nodes) as (answer & Ea & Hwalk).
  unfold supertype_implementors. fold target. fold target in El. destruct (ends_with _ _); [|exists None; split; [done|by left]].
  rewrite El. cbn [of_option mbind option_bind bind]. destruct listed.
  2: { exists None. split; [done|]. right. rewrite <- Hlisted. done. }
  exists (Some answer). split_and!; [|done|by apply Hlisted|].
  - unfold collect_type_nodes, walked. rewrite Ej, Ek. cbn [mbind option_bind bind]. rewrite Ejs, Eks. cbn [of_option mbind option_bind bind ret]. fold nodes. by rewrite Ea.
  - exists nodes. split.
    + intros n. unfold nodes. rewrite list_elem_of_filter, elem_of_app, Hj, Hk. tauto.
    + intros Hd n Hn. destruct (Hwalk Hd) as (_ & Hin & _). by apply Hin.
Qed.

(** ** Witness *)

Definition sea_tree : Entry :=
  Directory (Some [(lit "Fish.java", File (Some (lit "package sea; public interface Fish {}")));
                   (lit "Shark.java", File (Some (lit "package sea; class Shark implements Fish {}")))]).
Definition sea_world : World := world_of (lit "/sea") sea_tree.
Definition fish_definition : Definition_ := mkDefinition (lit "sea.Fish") (lit "Fish.java") 1 (lit "public interface Fish").
Lemma supertype_listing_exact_witness :
  (collect_java_files (w_tree sea_world) = Some (inr [[lit "Fish.java"]; [lit "Shark.java"]]) /\ collect_kotlin_files (w_tree sea_world) = Some (inr [])) /\
  exists answer, @supertype_implementors latin1_unicode demo_grammar (lit "/sea") sea_world fish_definition = Some (inr (Some answer)) /\
    i_fqn <$> i_implementors answer = [lit "sea.Shark"].
Proof.
  split; [split; vm_compute; reflexivity|].
  destruct (@supertype_listing_exact latin1_unicode demo_grammar _ (lit "/sea") sea_world fish_definition [[lit "Fish.java"]; [lit "Shark.java"]] []) as (listing & E & Hl);
    [vm_compute; reflexivity..|]. destruct listing as [answer|]; [exists answer; split; [exact E|]; vm_compute in E; by injection E as <-|vm_compute in E; discriminate E].
Defined.
