(* ===== verification/Session.v ===== *)
(** * Session: one trace against the engine

    Models [crates/ktsense-cli/src/trace.rs]: the session that turns engine locations into classified sites,
    follows callers level by level and builds the report, the two resolutions of a name (in process and warm)
    and the answer with everything attached to it. The engine's replies are [EngineClient], what its process
    answers to a search is an argument, and the wait for the index is [Index]. *)
From S2P Require Import Prelude Collections Text Skeleton References Query Sites Implementors Trace Render Lines Context Answers Files Cst Extract Classify Words Scan Symbols Utf8 Locate Engine Commands Subtypes Index.

Set Default Proof Using "Type*".

(** ** Skeletons *)

Record Skeletons := mkSkeletons {
  sk_by_path : list (str * FileSkeleton);
  sk_ordered : list FileSkeleton;
  sk_stale : bool }.
Definition skeletons_default : Skeletons := mkSkeletons [] [] false.
Definition all_skeletons (s : Skeletons) : list FileSkeleton * Skeletons :=
  if sk_stale s then let ordered := (sk_by_path s).*2 in (ordered, mkSkeletons (sk_by_path s) ordered false)
  else (sk_ordered s, s).

Record Session := mkSession { ss_skeletons : Skeletons; ss_ignored : nat }.
Definition with_skeletons (s : Session) (skeletons : Skeletons) : Session := mkSession skeletons (ss_ignored s).

(** [Vec::dedup_by]: drops what repeats the element kept before it. *)
Fixpoint dedup_from {A} (same : A -> A -> bool) (previous : A) (l : list A) : list A :=
  match l with
  | [] => []
  | x :: l' => if same x previous then dedup_from same previous l' else x :: dedup_from same x l'
  end.
Definition dedup_by {A} (same : A -> A -> bool) (l : list A) : list A :=
  match l with [] => [] | x :: l' => x :: dedup_from same x l' end.

(** What one [--wait-index] or its absence allows, in milliseconds; [configured] is the environment's. *)
Inductive IndexWaitPolicy := Capped | UntilReady.
Definition DEFAULT_INDEX_CAP : N := 3000%N.
Definition UNBOUNDED_WAIT : N := 86400000%N.
Definition policy_of_flag (wait_index : bool) : IndexWaitPolicy := if wait_index then UntilReady else Capped.
Definition policy_cap (configured : option N) (p : IndexWaitPolicy) : N :=
  match p with Capped => default DEFAULT_INDEX_CAP configured | UntilReady => UNBOUNDED_WAIT end.

Section session.
Context `{Unicode} `{Grammar} (root : str) (w : World).

(** [skeleton_at] and [read_source]. *)
Definition read_answered (path : str) : option str := w_read w (answered_path root path).
Definition skeleton_answered (path : str) : option (option FileSkeleton) :=
  match read_answered path with
  | None => Some None
  | Some source => r ← extract path source; Some (match r with inr skeleton => Some skeleton | inl _ => None end)
  end.
Definition load (s : Skeletons) (path : str) : option Skeletons :=
  match bt_get path (sk_by_path s) with
  | Some _ => Some s
  | None =>
      found ← skeleton_answered path;
      Some (match found with
            | Some skeleton => mkSkeletons (bt_insert path skeleton (sk_by_path s)) (sk_ordered s) true
            | None => s
            end)
  end.

(** ** Sites *)

Definition ignored_site (site : SiteLocation) : bool := is_inside_ignored_dir (display_path root w (parse_path (sl_path site))).
Fixpoint normalize_sites (s : Skeletons) (kept : list SiteLocation) : option (list (str * N * N) * Skeletons) :=
  match kept with
  | [] => Some ([], s)
  | site :: kept' =>
      let path := display_path root w (parse_path (sl_path site)) in
      s ← load s path;
      '(rest, s) ← normalize_sites s kept';
      Some ((path, sl_line site, sl_column site) :: rest, s)
  end.
Definition positions_by_path (normalized : list (str * N * N)) : list (str * list (nat * N * N)) :=
  foldl (fun positions '(path, entry) => bt_push path entry positions) []
    (imap (fun index '(path, line, column) => (path, (index, line, column))) normalized).
Definition write_kinds (kinds : list SiteKind) (entries : list (nat * N * N)) (classified : list SiteKind) : list SiteKind :=
  foldl (fun kinds '(entry, kind) => <[entry.1.1 := kind]> kinds) kinds (zip entries classified).
Fixpoint classify_files (positions : list (str * list (nat * N * N))) (kinds : list SiteKind) : option (list SiteKind) :=
  match positions with
  | [] => Some kinds
  | (path, entries) :: positions' =>
      match read_answered path with
      | None => classify_files positions' kinds
      | Some source =>
          classified ← classify_reference_sites source ((fun entry => (entry.1.2, entry.2)) <$> entries);
          classify_files positions' (write_kinds kinds entries classified)
      end
  end.
Definition located_site (entry : str * N * N) (kind : SiteKind) : Location := mkLocation entry.1.1 entry.1.2 (Some entry.2) kind.
Definition sites (s : Session) (locations : list SiteLocation) : option (list Location * Session) :=
  let ignored := filter (fun site => ignored_site site = true) locations in
  let kept := filter (fun site => ignored_site site = false) locations in
  '(normalized, skeletons) ← normalize_sites (ss_skeletons s) kept;
  kinds ← classify_files (positions_by_path normalized) (replicate (length normalized) Code);
  Some (zip_with located_site normalized kinds, mkSession skeletons (ss_ignored s + length ignored)).

(** ** Positions *)

Definition canonical_root : str := match w_canonicalize w (parse_path root) with Some path => join_components path | None => root end.
Definition absolute (path : str) : str := join_text canonical_root path.
(** [name_column] answers on a line from 1 with a column from 1, so neither subtraction goes below zero. *)
Definition name_position (path : str) (line : N) (name : str) : option FilePosition :=
  column ← name_column (fun path => w_read w (parse_path path)) path line name;
  Some (mkFilePosition (lit "file://" ++ path) (line - 1) (column - 1)).
Definition position_of (caller : RelatedDeclaration) : option FilePosition :=
  qualified ← rd_qualified_name caller;
  name_position (absolute (rd_path caller)) (rd_line caller) (last_piece (ch ".") qualified).
Definition declaration_position (candidate : SymbolCandidate) : FilePosition := to_file_position candidate.

(** ** [run] *)

(** A step of the session ends in an engine error or a value; [None] is a panic. *)
Definition filter_callers (filter_ : option SiteFilter) (callers : list RelatedDeclaration) : list RelatedDeclaration * nat * nat :=
  match filter_ with
  | None => (callers, 0, 0)
  | Some f =>
      let keeps := fun caller => matches f (rd_path caller) (rd_test caller) in
      let dropped := filter (fun caller => keeps caller = false) callers in
      (filter (fun caller => keeps caller = true) callers,
       length (filter (fun caller => rd_test caller = false) dropped), length (filter (fun caller => rd_test caller = true) dropped))
  end.
Definition grouping (limit : option nat) : GroupingOptions :=
  match limit with Some limit => mkGrouping (Some limit) false | None => mkGrouping None false end.
Definition caller_key (d : RelatedDeclaration) : bool * (str * N) := (rd_test d, (rd_path d, rd_line d)).
Definition same_caller (a b : RelatedDeclaration) : bool := bool_decide (rd_path a = rd_path b) && (rd_line a =? rd_line b)%N.

Section run.
Context `{EngineClient} (limit : option nat) (filter_ : option SiteFilter).

Fixpoint references_of_each (s : Session) (callers : list RelatedDeclaration) : option (LspError + (list RelatedDeclaration * Session)) :=
  match callers with
  | [] => Some (inr ([], s))
  | caller :: callers' =>
      match position_of caller with
      | None => references_of_each s callers'
      | Some at_ =>
          match reference_sites at_ Excluded with
          | inl error => Some (inl error)
          | inr references =>
              '(found, s) ← sites s references;
              let own := mkLocation (rd_path caller) (rd_line caller) None Code in
              let '(skeletons, cached) := all_skeletons (ss_skeletons s) in
              rest ← references_of_each (with_skeletons s cached) callers';
              Some (match rest with
                    | inl error => inl error
                    | inr (rest, s) => inr (callers_of found [own] skeletons ++ rest, s)
                    end)
          end
      end
  end.
Definition callers_of_each (s : Session) (callers : list RelatedDeclaration) : option (LspError + (list RelatedDeclaration * Session)) :=
  found ← references_of_each s callers;
  Some (match found with
        | inl error => inl error
        | inr (found, s) => inr (dedup_by same_caller (sort_by_key caller_key found), s)
        end).

(** The turns of [for _ in 1..depth]. *)
Fixpoint deepen (turns : nat) (s : Session) (frontier : list RelatedDeclaration) (report : TraceReport) : option (LspError + (TraceReport * Session)) :=
  match turns with
  | O => Some (inr (report, s))
  | S turns' =>
      match frontier with
      | [] => Some (inr (report, s))
      | _ =>
          next ← callers_of_each s frontier;
          match next with
          | inl error => Some (inl error)
          | inr (next, s) =>
              let '(kept, production_omitted, test_omitted) := filter_callers filter_ next in
              deepen turns' s kept (with_deeper_level report kept production_omitted test_omitted)
          end
      end
  end.

Record Target := mkTarget { tg_candidate : SymbolCandidate; tg_definition : Definition_; tg_ignored_candidates : nat }.
Definition run_session (target : Target) (depth : nat) (index : IndexCompleteness) : option (LspError + TraceReport) :=
  let definition := tg_definition target in
  let at_ := declaration_position (tg_candidate target) in
  let s := mkSession skeletons_default (tg_ignored_candidates target) in
  match implementation_sites at_ with
  | inl error => Some (inl error)
  | inr implementations =>
      '(implementations, s) ← sites s implementations;
      match reference_sites at_ Included with
      | inl error => Some (inl error)
      | inr references =>
          '(references, s) ← sites s references;
          skeletons ← load (ss_skeletons s) (df_path definition);
          let '(skeletons, cached) := all_skeletons skeletons in
          let report := build_trace (mkTraceInput definition index (mkLocation (df_path definition) (df_line definition) None Code)
                                       implementations references skeletons (grouping limit) filter_) in
          deepened ← deepen (depth - 1) (with_skeletons s cached) (direct_callers report) report;
          Some (match deepened with
                | inl error => inl error
                | inr (report, s) => inr (with_ignored_directory_results report (ss_ignored s))
                end)
      end
  end.
End run.

(** ** Resolution *)

Record TraceRequest := mkTraceRequest {
  rq_symbol : str;
  rq_pick : option str;
  rq_depth : nat;
  rq_limit : option nat;
  rq_format : Format;
  rq_filter : option SiteFilter }.
Inductive TraceResolution := Ready (target : Target) | AmbiguousName (outcome : CommandOutcome) | NameNotFound.
Inductive Traced := Resolved (report : TraceReport) | TracedAmbiguous (outcome : CommandOutcome) | TracedNotFound.

Definition definition_of (resolved : ResolvedSymbol) : Definition_ := mkDefinition (r_fqn resolved) (r_file resolved) (r_line resolved) (r_signature resolved).
Definition select_candidate (request : TraceRequest) (candidates : list SymbolCandidate) : Result TraceResolution :=
  selection <-? from_symbols root w (select (w_canonicalize w) (w_read w) (parse_path root) (rq_symbol request) (kept_candidates root w candidates)
                                  (for_query (rq_symbol request) (rq_pick request)) (rq_format request));
  ret (match selection with
       | One candidate resolved => Ready (mkTarget candidate (definition_of resolved) (ignored_candidates root w candidates))
       | AmbiguousAnswer outcome => AmbiguousName (outcome_of outcome)
       | SelectedNone => NameNotFound
       end).

Section resolution.
Context `{EngineClient} (found : str -> PassthroughError + list SymbolCandidate) (request : TraceRequest).

(** [found] is what the engine's process answers to a search. *)
Definition found_by_command_mode : Result (list SymbolCandidate) :=
  match found (last_segment (rq_symbol request)) with
  | inl error => fail_with (passthrough_error error)
  | inr candidates => ret candidates
  end.
Definition declarations_from_index (index : IndexCompleteness) : option (list SymbolCandidate) :=
  match index with
  | Partial => None
  | Complete =>
      match resolve_from_warm_index (w_canonicalize w) (fun path => w_read w (parse_path path)) (parse_path root) (last_segment (rq_symbol request)) with
      | Declarations candidates => Some candidates
      | InconclusiveAnswer _ => None
      end
  end.
Definition answered (index : IndexCompleteness) (resolution : TraceResolution) : Result Traced :=
  match resolution with
  | AmbiguousName outcome => ret (TracedAmbiguous outcome)
  | NameNotFound => ret TracedNotFound
  | Ready target =>
      r ← run_session (rq_limit request) (rq_filter request) target (rq_depth request) index;
      match r with inl error => fail_with (engine_error error) | inr report => ret (Resolved report) end
  end.

(** [resolve_warm], after its wait. *)
Definition warm_declarations (index : IndexCompleteness) : Result (list SymbolCandidate) :=
  match declarations_from_index index with
  | Some candidates => ret candidates
  | None => found_by_command_mode
  end.
Definition resolve_warm (index : IndexCompleteness) : Result Traced :=
  candidates <-? warm_declarations index;
  resolution <-? select_candidate request candidates;
  answered index resolution.

(** [resolve]: [opened] is the phase the wait of a session opened for this command reached. *)
Context (opened : LspError + IndexPhase).
Definition open_fresh_session : Result IndexCompleteness :=
  match opened with inl error => fail_with (engine_error error) | inr phase => ret (completeness phase) end.
Definition resolved_against_a_fresh_index : Result Traced :=
  index <-? open_fresh_session;
  resolution <-? select_candidate request (default [] (declarations_from_index index));
  answered index resolution.
Definition traced (resolution : TraceResolution) : Result Traced :=
  match resolution with
  | Ready _ => index <-? open_fresh_session; answered index resolution
  | _ => answered Partial resolution
  end.
Definition resolve : Result Traced :=
  candidates <-? found_by_command_mode;
  match candidates with
  | [] => resolved_against_a_fresh_index
  | _ => resolution <-? select_candidate request candidates; traced resolution
  end.
End resolution.

(** ** The answer *)

(** A walk of text references over the tree of the world. *)
Definition walked_pair {A} (o : Outcome A) : Result A := walked root w o.
Definition is_annotation_class_at (definition : Definition_) : option bool :=
  found ← skeleton_answered (df_path definition);
  Some (match (skeleton ← found; declaration_starting_at skeleton (df_line definition)) with Some d => is_annotation_class d | None => false end).
Definition annotation_class_uses (definition : Definition_) (filter_ : option SiteFilter) : Result (list AnnotatedDeclaration * nat) :=
  is_class <-? of_option (is_annotation_class_at definition);
  if is_class : bool then walked_pair (collect_annotation_uses (w_tree w) (last_segment (df_qualified_name definition)) filter_) else ret ([], 0).
Definition annotation_class_answer (definition : Definition_) (filter_ : option SiteFilter) : Result (option AnnotatedDeclarations * nat) :=
  r <-? annotation_class_uses definition filter_;
  ret (if bool_decide (r.1 = []) then None else Some (build_annotated (last_segment (df_qualified_name definition)) r.1), r.2).

Definition attach_if {A} (f : TraceReport -> A -> TraceReport) (report : TraceReport) (o : option A) : TraceReport :=
  match o with Some a => f report a | None => report end.
Definition present_trace (report : TraceReport) (format : Format) : Result Answer :=
  match format with
  | Md => text <-? of_option (render_trace_markdown report); ret (Printed text)
  | Json => ret (JsonTrace report)
  | Dot => fail_with (unsupported_format (lit "trace"))
  end.
Definition present_resolved (request : TraceRequest) (report : TraceReport) : Result CommandOutcome :=
  let definition := t_definition report in
  implementors <-? supertype_implementors root w definition;
  let report := attach_if with_supertype_implementors report implementors in
  annotated <-? annotation_class_answer definition (rq_filter request);
  let report := attach_if with_annotated report annotated.1 in
  let name := last_segment (rq_symbol request) in
  java <-? walked_pair (java_text_references (w_tree w) name (rq_limit request) (rq_filter request));
  let report := attach_if with_java_text_references report java.1 in
  kotlin <-? (if ends_with (df_path definition) (lit ".java")
              then walked_pair (kotlin_text_references (w_tree w) name (rq_limit request) (rq_filter request)) else ret (None, 0));
  let report := attach_if with_kotlin_text_references report kotlin.1 in
  text <-? present_trace (record_filtered_omissions report annotated.2 java.2 kotlin.2) (rq_format request);
  ret (success text).

(** The not-found answer of [text_refs.rs] in any format; [command] names the command in an error. *)
Definition not_found_answer (symbol : str) (limit : option nat) (format : Format) (command : str) (filter_ : option SiteFilter) : Result CommandOutcome :=
  n <-? walked_pair (gather_not_found (w_tree w) symbol limit filter_);
  text <-? (match format with
            | Md => text <-? of_option (present_not_found (w_tree w) n); ret (Printed text)
            | Json => message <-? of_option (no_symbol_message_scoped (w_tree w) symbol); ret (JsonNotFound message n)
            | Dot => fail_with (unsupported_format command)
            end);
  ret (mkCommandOutcome text Failure None).
Definition not_found (request : TraceRequest) : Result CommandOutcome :=
  not_found_answer (last_segment (rq_symbol request)) (rq_limit request) (rq_format request) (lit "trace") (rq_filter request).
Definition present_traced (request : TraceRequest) (r : Traced) : Result CommandOutcome :=
  match r with
  | Resolved report => present_resolved request report
  | TracedAmbiguous outcome => ret outcome
  | TracedNotFound => not_found request
  end.
Definition trace `{EngineClient} (found : str -> PassthroughError + list SymbolCandidate) (opened : LspError + IndexPhase) (request : TraceRequest) : Result CommandOutcome :=
  r <-? resolve found request opened; present_traced request r.
Definition trace_warm `{EngineClient} (found : str -> PassthroughError + list SymbolCandidate) (index : IndexCompleteness) (request : TraceRequest) : Result CommandOutcome :=
  r <-? resolve_warm found request index; present_traced request r.
End session.

(** ** Lemmas: classification, scattered *)

Section scatter.
Context `{Unicode} `{GrammarLaws} (root : str) (w : World).

(** The kind of one site on its own: code when its file cannot be read. *)
Definition kind_alone (path : str) (line column : N) : option SiteKind :=
  match read_answered root w path with
  | None => Some Code
  | Some source => kinds ← classify_reference_sites source [(line, column)]; head kinds
  end.

Lemma classify_singly source coordinates kinds : classify_reference_sites source coordinates = Some kinds ->
  Forall2 (fun at_ kind => classify_reference_sites source [at_] = Some [kind]) coordinates kinds.
Proof.
  unfold classify_reference_sites. destruct (parse source) as [tree|]; intros E.
  - apply mapM_Some in E. apply (Forall2_impl _ _ _ _ E). intros [line column] kind Hk. cbn [mapM]. by rewrite Hk.
  - injection E as <-. induction coordinates; constructor; [done|assumption].
Qed.

Lemma write_kinds_spec entries : forall classified kinds,
  length classified = length entries -> NoDup ((fun e : nat * N * N => e.1.1) <$> entries) -> Forall (fun e : nat * N * N => e.1.1 < length kinds) entries ->
  length (write_kinds kinds entries classified) = length kinds /\
  (forall i, i ∉ (fun e : nat * N * N => e.1.1) <$> entries -> write_kinds kinds entries classified !! i = kinds !! i) /\
  Forall2 (fun (e : nat * N * N) kind => write_kinds kinds entries classified !! e.1.1 = Some kind) entries classified.
Proof.
  unfold write_kinds. induction entries as [|e entries IH]; intros [|kind classified] kinds Hl Hn Hi; try discriminate; [by split_and!|].
  cbn [zip zip_with foldl]. csimpl in Hn. apply NoDup_cons in Hn as [He Hn]. apply Forall_cons in Hi as [Hlt Hi]. injection Hl as Hl.
  destruct (IH classified (<[e.1.1 := kind]> kinds) Hl Hn) as (Hlen & Hother & Hset).
  { apply (Forall_impl _ _ _ Hi). intros x Hx. by rewrite length_insert. }
  rewrite length_insert in Hlen. split_and!; [done|..].
  - intros i Hi'. csimpl in Hi'. apply not_elem_of_cons in Hi' as [Hne Hi']. rewrite Hother by done. by rewrite list_lookup_insert_ne.
  - constructor; [|done]. rewrite Hother by done. by apply list_lookup_insert_eq.
Qed.

Lemma classify_files_spec positions : forall kinds,
  NoDup ((fun e : nat * N * N => e.1.1) <$> concat positions.*2) -> Forall (fun e : nat * N * N => e.1.1 < length kinds) (concat positions.*2) ->
  exists kinds', classify_files root w positions kinds = Some kinds' /\ length kinds' = length kinds /\
    (forall i, i ∉ (fun e : nat * N * N => e.1.1) <$> concat positions.*2 -> kinds' !! i = kinds !! i) /\
    (forall path entries (e : nat * N * N), (path, entries) ∈ positions -> e ∈ entries -> kinds !! e.1.1 = Some Code -> kinds' !! e.1.1 = kind_alone path e.1.2 e.2).
Proof.
  induction positions as [|[path entries] positions IH]; intros kinds Hn Hi.
  { exists kinds. split_and!; [done..|]. by intros ? ? ? ?%elem_of_nil. }
  csimpl in Hn. csimpl in Hi. rewrite fmap_app in Hn. apply NoDup_app in Hn as (Hn1 & Hdis & Hn2). apply Forall_app in Hi as [Hi1 Hi2].
  cbn [classify_files]. unfold kind_alone. destruct (read_answered root w path) as [source|] eqn:Er.
  - destruct (classify_some source ((fun entry : nat * N * N => (entry.1.2, entry.2)) <$> entries)) as (classified & Ec & Hl). rewrite Ec. cbn [mbind option_bind].
    rewrite length_fmap in Hl. destruct (write_kinds_spec entries classified kinds Hl Hn1 Hi1) as (Hlen & Hother & Hset).
    destruct (IH (write_kinds kinds entries classified) Hn2) as (kinds' & -> & Hl' & Hother' & Hset').
    { apply (Forall_impl _ _ _ Hi2). intros x Hx. by rewrite Hlen. }
    exists kinds'. split_and!; [done|congruence|..].
    + intros i Hni. csimpl in Hni. rewrite fmap_app, not_elem_of_app in Hni. destruct Hni. rewrite Hother', Hother by done. done.
    + intros path' entries' e Hp He Hcode. apply elem_of_cons in Hp as [[= -> ->]|Hp].
      * rewrite Er. rewrite Hother' by (apply Hdis, list_elem_of_fmap; by exists e).
        apply list_elem_of_lookup in He as [j Hj]. destruct (Forall2_lookup_l _ _ _ _ _ Hset Hj) as (kind & Hk & ->).
        apply classify_singly in Ec. rewrite Forall2_fmap_l in Ec. pose proof (Forall2_lookup_lr _ _ _ _ _ _ Ec Hj Hk) as Ek. cbn beta in Ek. by rewrite Ek.
      * apply (Hset' path' entries' e Hp He). rewrite Hother; [done|]. intros Hin. apply (Hdis _ Hin), list_elem_of_fmap. exists e. split; [done|].
        apply elem_of_concat. exists entries'. split; [|done]. apply list_elem_of_fmap. by exists (path', entries').
  - destruct (IH kinds Hn2 Hi2) as (kinds' & -> & Hl' & Hother' & Hset'). exists kinds'. split_and!; [done|done|..].
    + intros i Hni. csimpl in Hni. rewrite fmap_app, not_elem_of_app in Hni. destruct Hni. by apply Hother'.
    + intros path' entries' e Hp He Hcode. apply elem_of_cons in Hp as [[= -> ->]|Hp]; [|by apply (Hset' path' entries' e)].
      rewrite Er, Hother'; [done|]. apply Hdis, list_elem_of_fmap. by exists e.
Qed.
End scatter.

(** ** Lemmas: sites *)

Lemma bt_push_elem {A} (k : str) (x : A) m p es e : (p, es) ∈ bt_push k x m -> e ∈ es -> (p = k /\ e = x) \/ exists es', (p, es') ∈ m /\ e ∈ es'.
Proof.
  unfold bt_push. induction m as [|[k' g] m IH]; cbn [bt_upsert].
  { intros [[= -> ->]|?%elem_of_nil]%elem_of_cons He; [|done]. left. cbn in He. by apply list_elem_of_singleton in He. }
  destruct (cmp k k') eqn:E.
  - apply cmp_eq_iff in E as ->. cbn [default]. intros [[= -> ->]|Hp]%elem_of_cons He.
    + apply elem_of_app in He as [He|He%list_elem_of_singleton]; [right; exists g; split; [left|done]|by left].
    + right. exists es. split; [by right|done].
  - intros [[= -> ->]|Hp]%elem_of_cons He; [left; cbn in He; by apply list_elem_of_singleton in He|right; by exists es].
  - intros [[= -> ->]|Hp]%elem_of_cons He; [right; exists g; split; [left|done]|].
    destruct (IH Hp He) as [?|(es' & ? & ?)]; [by left|]. right. exists es'. split; [by right|done].
Qed.
Lemma push_all {A} (ts : list (str * A)) : forall m, let r := foldl (fun m '(p, e) => bt_push p e m) m ts in
  concat r.*2 ≡ₚ concat m.*2 ++ ts.*2 /\
  (forall p es e, (p, es) ∈ r -> e ∈ es -> (p, e) ∈ ts \/ exists es', (p, es') ∈ m /\ e ∈ es').
Proof.
  induction ts as [|[p e] ts IH]; intros m r; [split; [by rewrite app_nil_r|intros p es e Hp He; right; by exists es]|].
  destruct (IH (bt_push p e m)) as [Hc Hin]. split.
  - unfold r. cbn [foldl]. rewrite Hc, (bt_push_concat (fun _ => p)). csimpl. by rewrite Permutation_middle.
  - intros p' es e' Hp He. destruct (Hin p' es e' Hp He) as [?|(es' & Hp' & He')]; [left; by right|].
    destruct (bt_push_elem _ _ _ _ _ _ Hp' He') as [[-> ->]|?]; [left; left|by right].
Qed.
Lemma positions_spec normalized :
  concat (positions_by_path normalized).*2 ≡ₚ imap (fun index entry => (index, entry.1.2, entry.2)) normalized /\
  (forall path entries (e : nat * N * N), (path, entries) ∈ positions_by_path normalized -> e ∈ entries -> normalized !! e.1.1 = Some (path, e.1.2, e.2)).
Proof.
  unfold positions_by_path. destruct (push_all (imap (fun index '(path, line, column) => (path, (index, line, column))) normalized) []) as [Hc Hin]. split.
  - rewrite Hc. apply reflexive_eq. cbn. rewrite fmap_imap. apply imap_ext. by intros i [[path line] column] _.
  - intros path entries e Hp He. destruct (Hin path entries e Hp He) as [Ht|(es' & ?%elem_of_nil & _)]; [|done].
    apply elem_of_lookup_imap in Ht as (i & [[path' line] column] & [= -> ->] & Hi). done.
Qed.

Section sites.
Context `{Unicode} `{GrammarLaws} (root : str) (w : World).

(** A skeleton cache that holds what the files hold. *)
Record skeletons_ok (s : Skeletons) : Prop := {
  so_sorted : bt_sorted (sk_by_path s);
  so_fresh : forall path skeleton, bt_get path (sk_by_path s) = Some skeleton -> skeleton_answered root w path = Some (Some skeleton);
  so_ordered : sk_stale s = false -> sk_ordered s = (sk_by_path s).*2 }.
(** [path] has been asked for: its skeleton is there if it has one. *)
Definition loaded (s : Skeletons) (path : str) : Prop := skeleton_answered root w path = Some (bt_get path (sk_by_path s)).

Lemma skeleton_answered_some path : is_Some (skeleton_answered root w path).
Proof.
  unfold skeleton_answered. destruct (read_answered root w path) as [source|]; [|by eexists]. destruct (extract_some path source) as [r ->]. by eexists.
Qed.
Lemma default_ok : skeletons_ok skeletons_default.
Proof. split; [constructor|done|done]. Qed.
Lemma load_spec s path : skeletons_ok s -> exists s', load root w s path = Some s' /\ skeletons_ok s' /\ loaded s' path /\ (forall p, loaded s p -> loaded s' p) /\
  (forall p, bt_get p (sk_by_path s') = if decide (p = path) then bt_get path (sk_by_path s') else bt_get p (sk_by_path s)).
Proof.
  intros [Hs Hf Ho]. unfold load. destruct (bt_get path (sk_by_path s)) as [skeleton|] eqn:E.
  { exists s. split_and!; [done|done|unfold loaded; rewrite E; by apply Hf|done|]. intros p. by case_decide; subst. }
  destruct (skeleton_answered_some path) as [[skeleton|] Ea]; rewrite Ea; cbn [mbind option_bind].
  - eexists. split; [done|]. assert (forall p, bt_get p (bt_insert path skeleton (sk_by_path s)) = if decide (p = path) then Some skeleton else bt_get p (sk_by_path s)) as Hget.
    { intros p. unfold bt_insert. case_decide; [subst; by rewrite bt_get_upsert_eq|by rewrite bt_get_upsert_ne]. }
    split_and!.
    + split; cbn [sk_by_path sk_stale]; [by apply bt_sorted_upsert| |done]. intros p sk. rewrite Hget. case_decide; [intros [= <-]; by subst|apply Hf].
    + unfold loaded. cbn [sk_by_path]. rewrite Hget. by rewrite decide_True.
    + unfold loaded. intros p Hp. cbn [sk_by_path]. rewrite Hget. case_decide; [by subst|done].
    + intros p. cbn [sk_by_path]. rewrite !Hget. rewrite (decide_True _ _ (eq_refl path)). by case_decide.
  - exists s. split_and!; [done|done|unfold loaded; by rewrite E|done|]. intros p. by case_decide; subst.
Qed.
Lemma all_skeletons_spec s : skeletons_ok s -> (all_skeletons s).1 = (sk_by_path s).*2 /\ skeletons_ok (all_skeletons s).2 /\ sk_by_path (all_skeletons s).2 = sk_by_path s.
Proof.
  intros Hok. pose proof Hok as [Hs Hf Ho]. unfold all_skeletons. destruct (sk_stale s) eqn:E; cbn [fst snd].
  - split_and!; [done|by split|done].
  - split_and!; [by apply Ho|done|done].
Qed.

Definition shown_path (site : SiteLocation) : str := display_path root w (parse_path (sl_path site)).
Lemma normalize_spec kept : forall s, skeletons_ok s -> exists s',
  normalize_sites root w s kept = Some ((fun site => (shown_path site, sl_line site, sl_column site)) <$> kept, s') /\ skeletons_ok s' /\
  (forall p, loaded s p -> loaded s' p) /\ Forall (fun site => loaded s' (shown_path site)) kept.
Proof.
  induction kept as [|site kept IH]; intros s Hs; [by exists s|]. cbn [normalize_sites]. fold (shown_path site).
  destruct (load_spec s (shown_path site) Hs) as (s1 & -> & Hs1 & Hl & Hm & _). cbn [mbind option_bind].
  destruct (IH s1 Hs1) as (s2 & -> & Hs2 & Hm2 & Hall). cbn [mbind option_bind]. exists s2. split_and!; [done|done|auto|]. constructor; auto.
Qed.

Definition found_at (site : SiteLocation) (l : Location) : Prop :=
  l_path l = shown_path site /\ l_line l = sl_line site /\ l_column l = Some (sl_column site) /\ kind_alone root w (shown_path site) (sl_line site) (sl_column site) = Some (l_kind l).
Definition kept_sites (locations : list SiteLocation) : list SiteLocation := filter (fun site => ignored_site root w site = false) locations.
Definition ignored_count (locations : list SiteLocation) : nat := length (filter (fun site => ignored_site root w site = true) locations).

Lemma kinds_found normalized kinds : length kinds = length normalized ->
  (forall i entry, normalized !! i = Some entry -> kinds !! i = kind_alone root w entry.1.1 entry.1.2 entry.2) ->
  Forall2 (fun entry l => l_path l = entry.1.1 /\ l_line l = entry.1.2 /\ l_column l = Some entry.2 /\ kind_alone root w entry.1.1 entry.1.2 entry.2 = Some (l_kind l))
    normalized (zip_with located_site normalized kinds).
Proof.
  revert kinds. induction normalized as [|entry normalized IH]; intros [|kind kinds] Hl Hk; try discriminate; [constructor|]. cbn [zip_with]. constructor.
  - split_and!; [done..|]. by rewrite <- (Hk 0 entry eq_refl).
  - apply IH; [by injection Hl|]. intros i entry' Hi. by apply (Hk (S i)).
Qed.
Lemma sites_spec s locations : skeletons_ok (ss_skeletons s) -> exists found s', sites root w s locations = Some (found, s') /\
  skeletons_ok (ss_skeletons s') /\ (forall p, loaded (ss_skeletons s) p -> loaded (ss_skeletons s') p) /\
  Forall (fun site => loaded (ss_skeletons s') (shown_path site)) (kept_sites locations) /\
  ss_ignored s' = ss_ignored s + ignored_count locations /\ Forall2 found_at (kept_sites locations) found.
Proof.
  intros Hs. unfold sites. fold (kept_sites locations). destruct (normalize_spec (kept_sites locations) _ Hs) as (sk & -> & Hok & Hm & Hl). cbn [mbind option_bind].
  set (normalized := _ <$> kept_sites locations) in *. destruct (positions_spec normalized) as [Hc Hin].
  destruct (classify_files_spec root w (positions_by_path normalized) (replicate (length normalized) Code)) as (kinds & -> & Hlen & _ & Hk).
  { rewrite Hc. rewrite fmap_imap. rewrite (imap_ext _ (fun i _ => id i)) by done. rewrite imap_seq_0, list_fmap_id. apply NoDup_seq. }
  { rewrite length_replicate, Hc. apply Forall_forall. intros e (i & entry & -> & Hi)%elem_of_lookup_imap. by apply lookup_lt_Some in Hi. }
  cbn [mbind option_bind]. rewrite length_replicate in Hlen. eexists _, _. split; [done|]. split_and!; [done|done|done|done|].
  assert (Forall2 (fun entry l => l_path l = entry.1.1 /\ l_line l = entry.1.2 /\ l_column l = Some entry.2 /\ kind_alone root w entry.1.1 entry.1.2 entry.2 = Some (l_kind l))
    normalized (zip_with located_site normalized kinds)) as Hf; [|unfold normalized at 1 in Hf; by rewrite Forall2_fmap_l in Hf].
  apply kinds_found; [done|]. intros i [[path line] column] Hi. cbn [fst snd].
  assert ((i, line, column) ∈ concat (positions_by_path normalized).*2) as (entries & Hp & He)%elem_of_concat.
  { rewrite Hc. apply elem_of_lookup_imap. by exists i, (path, line, column). }
  apply list_elem_of_fmap in Hp as ([path' entries'] & -> & Hp). cbn [snd] in He. pose proof (Hin _ _ _ Hp He) as Ep. cbn [fst snd] in Ep. rewrite Hi in Ep. injection Ep as <-.
  apply (Hk _ _ _ Hp He). apply lookup_replicate. split; [done|]. by apply lookup_lt_Some in Hi.
Qed.
End sites.
