(* ===== verification/SessionSpec.v ===== *)
(** * SessionSpec: a trace without a session

    The specification the session of [Session] implements: every site is classified on its own, every file is
    parsed whenever it is looked at, nothing is remembered between questions and nothing can panic. The
    refinement theorem states that the session, with its cache of skeletons, its classification file by file
    and its count of ignored results, answers the same. *)
From S2P Require Import Prelude Collections Text Skeleton References Query Sites Implementors Trace Files Cst Extract Scan Symbols Locate Engine Commands Subtypes Index Session.

Set Default Proof Using "Type*".

(** ** A report depends on the skeletons of its files alone *)

Definition agree (paths : list str) (a b : SkeletonIndex) : Prop := forall path, path ∈ paths -> bt_get path a = bt_get path b.
Lemma agree_sub paths paths' a b : (forall p, p ∈ paths' -> p ∈ paths) -> agree paths a b -> agree paths' a b.
Proof. unfold agree. auto. Qed.

Lemma related_agree sites a b : agree (l_path <$> sites) a b -> related_declarations sites a = related_declarations sites b.
Proof.
  intros Ha. unfold related_declarations. f_equal. f_equal. generalize (@nil (str * N * option str * RelatedDeclaration)) as m.
  induction sites as [|site sites IH]; intros m; [done|]. cbn [foldl]. rewrite IH by (apply (agree_sub _ _ _ _ (fun p Hp => list_elem_of_further p _ _ Hp) Ha)). f_equal.
  unfold count_site, related_at, resolve_site. by rewrite (Ha (l_path site)) by left.
Qed.
Lemma callers_agree references aside a b : agree (l_path <$> references) (skeleton_index a) (skeleton_index b) -> callers_of references aside a = callers_of references aside b.
Proof.
  intros Ha. apply related_agree. eapply agree_sub; [|exact Ha]. intros p (site & -> & [_ Hs]%list_elem_of_filter)%list_elem_of_fmap.
  apply list_elem_of_fmap. by exists site.
Qed.
Lemma group_agree locations options a b : agree (l_path <$> locations) (skeleton_index a) (skeleton_index b) -> group_references locations a options = group_references locations b options.
Proof.
  intros Ha. unfold group_references. apply list_fmap_ext. intros i [path sites] Hi. apply list_elem_of_lookup_2, (list_elem_of_fmap_2 fst) in Hi. change ((path, sites).1) with path in Hi. apply (bt_group_keys l_path) in Hi.
  unfold skeleton_index, skeletons_by_path in Ha. by rewrite (Ha path Hi).
Qed.
Lemma partition_sub sites f p : p ∈ l_path <$> (partition_sites sites f).1 \/ p ∈ l_path <$> (partition_sites sites f).2 -> p ∈ l_path <$> sites.
Proof.
  unfold partition_sites. destruct f as [f|]; cbn [fst snd]; [|by intros [?|?%elem_of_nil]].
  intros [(s & -> & [_ Hs]%list_elem_of_filter)%list_elem_of_fmap|(s & -> & [_ Hs]%list_elem_of_filter)%list_elem_of_fmap]; apply list_elem_of_fmap; by exists s.
Qed.
Definition with_input_skeletons (i : TraceInput) (skeletons : list FileSkeleton) : TraceInput :=
  mkTraceInput (ti_definition i) (ti_index i) (ti_definition_site i) (ti_implementation_sites i) (ti_reference_sites i) skeletons (ti_options i) (ti_filter i).
Lemma trace_agree i skeletons :
  agree (l_path (ti_definition_site i) :: (l_path <$> ti_implementation_sites i) ++ (l_path <$> ti_reference_sites i)) (skeleton_index (ti_skeletons i)) (skeleton_index skeletons) ->
  build_trace i = build_trace (with_input_skeletons i skeletons).
Proof.
  intros Ha. unfold build_trace. cbn [with_input_skeletons ti_definition ti_index ti_definition_site ti_implementation_sites ti_reference_sites ti_skeletons ti_options ti_filter].
  assert (cannot_be_subtyped (skeleton_index (ti_skeletons i)) (ti_definition_site i) = cannot_be_subtyped (skeleton_index skeletons) (ti_definition_site i)) as ->.
  { unfold cannot_be_subtyped. by rewrite (Ha (l_path (ti_definition_site i))) by left. }
  rewrite (related_agree (implementations_other_than _ _) (skeleton_index (ti_skeletons i)) (skeleton_index skeletons)).
  2:{ eapply agree_sub; [|exact Ha]. intros p (s & -> & [_ Hs]%list_elem_of_filter)%list_elem_of_fmap.
      right. apply elem_of_app. left. apply list_elem_of_fmap. by exists s. }
  pose proof (partition_sub (ti_reference_sites i) (ti_filter i)) as Hp. destruct (partition_sites (ti_reference_sites i) (ti_filter i)) as [kept dropped]. cbn [fst snd] in Hp.
  assert (agree (l_path <$> kept) (skeleton_index (ti_skeletons i)) (skeleton_index skeletons)) as Hk.
  { eapply agree_sub; [|exact Ha]. intros p Hin. right. apply elem_of_app. right. auto. }
  assert (agree (l_path <$> dropped) (skeleton_index (ti_skeletons i)) (skeleton_index skeletons)) as Hd.
  { eapply agree_sub; [|exact Ha]. intros p Hin. right. apply elem_of_app. right. auto. }
  rewrite (callers_agree kept _ _ _ Hk). unfold partition_by_kind. rewrite (group_agree (filter _ kept) _ (ti_skeletons i) skeletons).
  2:{ eapply agree_sub; [|exact Hk]. intros p (s & -> & [_ Hs]%list_elem_of_filter)%list_elem_of_fmap. apply list_elem_of_fmap. by exists s. }
  destruct (ti_filter i) as [f|]; [|done]. unfold filter_bookkeeping. by rewrite (callers_agree dropped _ _ _ Hd).
Qed.

(** ** The specification *)

Section plain.
Context `{Unicode} `{GrammarLaws} (root : str) (w : World).

(** The skeletons of some files, each parsed when it is asked for. *)
Definition skeleton_of (path : str) : option FileSkeleton := default None (skeleton_answered root w path).
Definition skeletons_of_files (paths : list str) : list FileSkeleton := omap skeleton_of (unseen [] paths).

Definition classified_site (site : SiteLocation) : option Location :=
  kind ← kind_alone root w (shown_path root w site) (sl_line site) (sl_column site);
  Some (mkLocation (shown_path root w site) (sl_line site) (Some (sl_column site)) kind).
Definition sites_plain (locations : list SiteLocation) : list Location := omap classified_site (kept_sites root w locations).

Section engine.
Context `{EngineClient} (limit : option nat) (filter_ : option SiteFilter).

(** The callers of one declaration and how many results were ignored on the way. *)
Definition callers_plain (caller : RelatedDeclaration) : LspError + list RelatedDeclaration * nat :=
  match position_of root w caller with
  | None => inr ([], 0)
  | Some at_ =>
      match reference_sites at_ Excluded with
      | inl error => inl error
      | inr references =>
          let found := sites_plain references in
          let own := mkLocation (rd_path caller) (rd_line caller) None Code in
          inr (callers_of found [own] (skeletons_of_files (l_path <$> found)), ignored_count root w references)
      end
  end.
Fixpoint references_plain (callers : list RelatedDeclaration) : LspError + list RelatedDeclaration * nat :=
  match callers with
  | [] => inr ([], 0)
  | caller :: callers' =>
      match callers_plain caller with
      | inl error => inl error
      | inr (found, ignored) =>
          match references_plain callers' with
          | inl error => inl error
          | inr (rest, ignored') => inr (found ++ rest, ignored + ignored')
          end
      end
  end.
(** One level: each declaration once, production before tests, by path and line. *)
Definition level_plain (callers : list RelatedDeclaration) : LspError + list RelatedDeclaration * nat :=
  match references_plain callers with
  | inl error => inl error
  | inr (found, ignored) => inr (dedup_by same_caller (sort_by_key caller_key found), ignored)
  end.
Fixpoint deepen_plain (turns : nat) (frontier : list RelatedDeclaration) (report : TraceReport) (ignored : nat) : LspError + TraceReport * nat :=
  match turns with
  | O => inr (report, ignored)
  | S turns' =>
      match frontier with
      | [] => inr (report, ignored)
      | _ =>
          match level_plain frontier with
          | inl error => inl error
          | inr (next, more) =>
              let '(kept, production, test) := filter_callers filter_ next in
              deepen_plain turns' kept (with_deeper_level report kept production test) (ignored + more)
          end
      end
  end.
Definition run_plain (target : Target) (depth : nat) (index : IndexCompleteness) : LspError + TraceReport :=
  let definition := tg_definition target in
  let at_ := declaration_position (tg_candidate target) in
  match implementation_sites at_ with
  | inl error => inl error
  | inr implementations =>
      match reference_sites at_ Included with
      | inl error => inl error
      | inr references =>
          let i := sites_plain implementations in
          let r := sites_plain references in
          let report := build_trace (mkTraceInput definition index (mkLocation (df_path definition) (df_line definition) None Code) i r
                                       (skeletons_of_files (df_path definition :: (l_path <$> i) ++ (l_path <$> r))) (grouping limit) filter_) in
          match deepen_plain (depth - 1) (direct_callers report) report
                  (tg_ignored_candidates target + ignored_count root w implementations + ignored_count root w references) with
          | inl error => inl error
          | inr (report, ignored) => inr (with_ignored_directory_results report ignored)
          end
      end
  end.
End engine.

(** ** The skeletons agree *)

Lemma skeleton_of_path path f : skeleton_of path = Some f -> fs_path f = path.
Proof.
  unfold skeleton_of, skeleton_answered. destruct (read_answered root w path) as [source|]; [|done]. destruct (extract_some path source) as [r E]. rewrite E.
  cbn [mbind option_bind default]. destruct r as [e|s]; [done|]. intros [= <-]. by apply extract_path in E.
Qed.
Lemma index_of_files paths path : NoDup paths -> bt_get path (skeleton_index (omap skeleton_of paths)) = if decide (path ∈ paths) then skeleton_of path else None.
Proof.
  intros Hn. unfold skeleton_index, skeletons_by_path. set (l := (fun s => (fs_path s, s)) <$> omap skeleton_of paths).
  assert (forall k s, (k, s) ∈ l <-> k ∈ paths /\ skeleton_of k = Some s) as Hl.
  { intros k s. unfold l. rewrite list_elem_of_fmap. setoid_rewrite list_elem_of_omap. split.
    - intros (s' & [= -> ->] & p & Hp & E). by rewrite (skeleton_of_path p s' E).
    - intros [Hk E]. exists s. rewrite (skeleton_of_path k s E). split; [done|]. by exists k. }
  assert (NoDup l.*1) as Hd.
  { unfold l. rewrite <- list_fmap_compose. clear l Hl. induction Hn as [|p paths Hp Hn IH]; [constructor|]. csimpl. destruct (skeleton_of p) as [s|] eqn:E; [|done].
    csimpl. rewrite (skeleton_of_path p s E). constructor; [|done]. intros (s' & Es & (p' & Hp' & E')%list_elem_of_omap)%list_elem_of_fmap.
    cbn in Es. rewrite (skeleton_of_path p' s' E') in Es. congruence. }
  destruct (bt_get path (bt_of_list l)) as [s|] eqn:Eg.
  - apply (bt_of_list_get l path s Hd), Hl in Eg as [Hin E]. by rewrite decide_True.
  - case_decide as Hin; [|done]. destruct (skeleton_of path) as [s|] eqn:E; [|done]. assert (bt_get path (bt_of_list l) = Some s) as Eg' by (by apply bt_of_list_get, Hl). congruence.
Qed.
Lemma index_of_cache s path : skeletons_ok root w s -> bt_get path (skeleton_index (sk_by_path s).*2) = bt_get path (sk_by_path s).
Proof.
  intros [Hs Hf _]. assert ((sk_by_path s).*2 = omap skeleton_of (sk_by_path s).*1) as ->.
  { assert (Forall (fun e => skeleton_of e.1 = Some e.2) (sk_by_path s)) as Hall.
    { apply Forall_forall. intros [p f] Hp. unfold skeleton_of. cbn. by rewrite (Hf p f (bt_elem_get _ _ _ Hs Hp)). }
    clear Hs Hf. induction Hall as [|e l E _ IH]; [done|]. csimpl. by rewrite E, IH. }
  rewrite index_of_files by (by apply bt_nodup). case_decide as Hin.
  - apply bt_get_key in Hin as [f E]. unfold skeleton_of. by rewrite E, (Hf path f E).
  - by rewrite bt_get_not_key.
Qed.
Lemma files_agree s paths : skeletons_ok root w s -> Forall (loaded root w s) paths -> agree paths (skeleton_index (sk_by_path s).*2) (skeleton_index (skeletons_of_files paths)).
Proof.
  intros Hs Hl path Hp. rewrite index_of_cache by done. unfold skeletons_of_files. rewrite index_of_files by apply unseen_nodup.
  rewrite decide_True by (apply elem_of_unseen; split; [done|apply not_elem_of_nil]). unfold skeleton_of. rewrite Forall_forall in Hl. by rewrite (Hl path Hp).
Qed.
End plain.

(** ** The session refines it *)

Section refinement.
Context `{Unicode} `{GrammarLaws} (root : str) (w : World).

Lemma sites_refine s locations : skeletons_ok root w (ss_skeletons s) -> exists s', sites root w s locations = Some (sites_plain root w locations, s') /\
  skeletons_ok root w (ss_skeletons s') /\ (forall p, loaded root w (ss_skeletons s) p -> loaded root w (ss_skeletons s') p) /\
  Forall (loaded root w (ss_skeletons s')) (l_path <$> sites_plain root w locations) /\ ss_ignored s' = ss_ignored s + ignored_count root w locations.
Proof.
  intros Hs. destruct (sites_spec root w s locations Hs) as (found & s' & E & Hok & Hm & Hl & Hi & Hf). exists s'.
  assert (found = sites_plain root w locations) as ->.
  { unfold sites_plain. clear -Hf. induction Hf as [|site l kept found (Hp & Hline & Hc & Hk) _ IH]; [done|]. csimpl. unfold classified_site at 1. rewrite Hk. cbn [mbind option_bind].
    f_equal; [|done]. destruct l as [p line c k]. cbn in *. congruence. }
  split_and!; [done..| |done]. clear -Hl Hf. rewrite Forall_forall. rewrite Forall_forall in Hl. intros p (l & -> & Hin)%list_elem_of_fmap.
  apply list_elem_of_lookup in Hin as [i Hin]. destruct (Forall2_lookup_r _ _ _ _ _ Hf Hin) as (site & Hsite & -> & _). apply Hl. by eapply list_elem_of_lookup_2.
Qed.

Section engine.
Context `{EngineClient} (limit : option nat) (filter_ : option SiteFilter).

Lemma references_refine callers : forall s, skeletons_ok root w (ss_skeletons s) ->
  match references_plain root w callers with
  | inl error => references_of_each root w s callers = Some (inl error)
  | inr (found, ignored) => exists s', references_of_each root w s callers = Some (inr (found, s')) /\ skeletons_ok root w (ss_skeletons s') /\ ss_ignored s' = ss_ignored s + ignored
  end.
Proof.
  induction callers as [|caller callers IH]; intros s Hs; cbn [references_plain references_of_each]; [exists s; split_and!; [done|done|lia]|]. unfold callers_plain.
  destruct (position_of root w caller) as [at_|].
  2:{ specialize (IH s Hs). by destruct (references_plain root w callers) as [error|[rest ignored]]. }
  destruct (reference_sites at_ Excluded) as [error|references]; [done|].
  destruct (sites_refine s references Hs) as (s1 & -> & Hok & _ & Hl & Hi). cbn [mbind option_bind].
  destruct (all_skeletons_spec root w _ Hok) as (Ea & Hok2 & Eb). destruct (all_skeletons (ss_skeletons s1)) as [skeletons cached] eqn:E. cbn [fst snd] in Ea, Hok2, Eb. subst skeletons.
  rewrite (callers_agree _ _ _ _ (files_agree root w _ _ Hok Hl)).
  specialize (IH (with_skeletons s1 cached) Hok2). destruct (references_plain root w callers) as [error|[rest ignored]]; [by rewrite IH|].
  destruct IH as (s2 & -> & Hok3 & Hi2). exists s2. cbn [with_skeletons ss_ignored] in Hi2. split_and!; [done|done|lia].
Qed.
Lemma deepen_refine turns : forall s frontier report, skeletons_ok root w (ss_skeletons s) ->
  match deepen_plain root w filter_ turns frontier report (ss_ignored s) with
  | inl error => deepen root w filter_ turns s frontier report = Some (inl error)
  | inr (report', ignored) => exists s', deepen root w filter_ turns s frontier report = Some (inr (report', s')) /\ ss_ignored s' = ignored
  end.
Proof.
  induction turns as [|turns IH]; intros s frontier report Hs; cbn [deepen_plain deepen]; [by exists s|]. destruct frontier as [|d frontier]; [by exists s|].
  unfold level_plain, callers_of_each. pose proof (references_refine (d :: frontier) s Hs) as Hr. destruct (references_plain root w (d :: frontier)) as [error|[found more]]; [by rewrite Hr|].
  destruct Hr as (s1 & -> & Hok & Hi). cbn [mbind option_bind]. destruct (filter_callers filter_ _) as [[kept production] test]. rewrite <- Hi. by apply IH.
Qed.

Lemma run_session_plain (target : Target) (depth : nat) (index : IndexCompleteness) :
  run_session root w limit filter_ target depth index = Some (run_plain root w limit filter_ target depth index).
Proof.
  unfold run_session, run_plain. destruct (implementation_sites _) as [error|implementations]; [done|].
  destruct (sites_refine (mkSession skeletons_default (tg_ignored_candidates target)) implementations) as (s1 & -> & Hok1 & _ & Hl1 & Hi1); [apply default_ok|].
  cbn [mbind option_bind]. destruct (reference_sites _ Included) as [error|references]; [done|].
  destruct (sites_refine s1 references Hok1) as (s2 & -> & Hok2 & Hm2 & Hl2 & Hi2). cbn [mbind option_bind].
  destruct (load_spec root w _ (df_path (tg_definition target)) Hok2) as (sk & -> & Hok3 & Hld & Hm3 & _). cbn [mbind option_bind].
  destruct (all_skeletons_spec root w _ Hok3) as (Ea & Hok4 & _). destruct (all_skeletons sk) as [skeletons cached]. cbn [fst snd] in Ea, Hok4. subst skeletons.
  rewrite (trace_agree _ (skeletons_of_files root w (df_path (tg_definition target) :: (l_path <$> sites_plain root w implementations) ++ (l_path <$> sites_plain root w references)))).
  2:{ cbn [ti_definition_site ti_implementation_sites ti_reference_sites ti_skeletons l_path]. apply files_agree; [done|]. constructor; [done|]. apply Forall_app. split.
      - apply (Forall_impl _ _ _ Hl1). auto. - apply (Forall_impl _ _ _ Hl2). auto. }
  cbn [with_input_skeletons ti_definition ti_index ti_definition_site ti_implementation_sites ti_reference_sites ti_options ti_filter].
  set (report := build_trace _). pose proof (deepen_refine (depth - 1) (with_skeletons s2 cached) (direct_callers report) report Hok4) as Hd.
  cbn [with_skeletons ss_ignored] in Hd. rewrite Hi2, Hi1 in Hd. cbn [ss_ignored] in Hd. destruct (deepen_plain _ _ _ _ _ _ _) as [error|[r ignored]]; [by rewrite Hd|].
  destruct Hd as (s' & -> & <-). done.
Qed.

(** C12: A trace is what its specification says: the session never panics, whatever the engine answers, and its
    caches are invisible - every site is classified as if it were alone, every declaration is named from the
    file as it is, each level of callers is what the engine reports for the level above, an engine error is
    returned as it is, and the ignored results are counted once each. *)
Theorem run_refines (target : Target) (depth : nat) (index : IndexCompleteness) :
  run_session root w limit filter_ target depth index = Some (run_plain root w limit filter_ target depth index).
Proof. exact (run_session_plain target depth index). Qed.
End engine.
End refinement.

(** ** Lemmas: levels *)

Lemma dedup_from_sub {A} (same : A -> A -> bool) l : forall previous, dedup_from same previous l `sublist_of` l.
Proof. induction l as [|x l IH]; intros previous; [done|]. cbn [dedup_from]. destruct (same x previous); [by apply sublist_cons|by apply sublist_skip]. Qed.
Lemma dedup_from_distinct {A K} `{OrdLaws K} (key : A -> K) (same : A -> A -> bool) l : forall previous,
  (forall x y, x ∈ previous :: l -> y ∈ previous :: l -> same x y = true <-> key x = key y) -> StronglySorted (fun a b => ord_le (key a) (key b)) (previous :: l) ->
  StronglySorted (fun a b => ord_lt (key a) (key b)) (previous :: dedup_from same previous l).
Proof.
  induction l as [|x l IH]; intros previous Hsame Hs; [repeat constructor|]. cbn [dedup_from]. apply StronglySorted_inv in Hs as [Hs Hp].
  destruct (same x previous) eqn:E.
  - apply IH; [|constructor; [by apply StronglySorted_inv in Hs as [? _]|by apply Forall_cons in Hp as [_ ?]]]. intros a b Ha Hb. apply Hsame; rewrite !elem_of_cons in *; tauto.
  - assert (StronglySorted (fun a b => ord_lt (key a) (key b)) (x :: dedup_from same x l)) as Hx.
    { apply IH; [|done]. intros a b Ha Hb. apply Hsame; by right. }
    constructor; [done|]. apply Forall_cons in Hp as [Hpx _].
    assert (ord_lt (key previous) (key x)) as Hlt.
    { apply ord_le_iff in Hpx as [?|Heq]; [done|]. exfalso. assert (same x previous = true) by (apply Hsame; [right; left|left|done]). congruence. }
    constructor; [done|]. apply StronglySorted_inv in Hx as [_ Hx]. apply (Forall_impl _ _ _ Hx). intros y Hy. by transitivity (key x).
Qed.

(** A row of callers is a test exactly when its file is one. *)
Definition test_by_path (d : RelatedDeclaration) : Prop := rd_test d = is_test_source (rd_path d).
Lemma callers_test references aside skeletons : Forall test_by_path (callers_of references aside skeletons).
Proof.
  apply Forall_forall. intros d Hd. unfold callers_of in Hd. rewrite related_declarations_perm in Hd. apply attributed_exact in Hd as (s & g & _ & ->).
  unfold test_by_path. cbn. by rewrite related_at_test, related_at_path.
Qed.

Lemma length_split {A} (b : A -> bool) (l : list A) : length (filter (fun x => b x = true) l) + length (filter (fun x => b x = false) l) = length l.
Proof. induction l as [|x l IH]; [done|]. rewrite !filter_cons. destruct (b x); repeat case_decide; try congruence; cbn [length]; lia. Qed.

Section levels.
Context `{Unicode} `{GrammarLaws} (root : str) (w : World).
Context `{EngineClient} (limit : option nat) (filter_ : option SiteFilter).

Lemma references_test callers : match references_plain root w callers with inl _ => True | inr (found, _) => Forall test_by_path found end.
Proof.
  induction callers as [|caller callers IH]; cbn [references_plain]; [constructor|]. unfold callers_plain. destruct (position_of root w caller) as [at_|].
  - destruct (reference_sites at_ Excluded) as [error|references]; [done|]. destruct (references_plain root w callers) as [error|[rest ignored]]; [done|].
    apply Forall_app. split; [apply callers_test|done].
  - by destruct (references_plain root w callers) as [error|[rest ignored]].
Qed.
(** What a level of callers is: each declaration once, production before tests, by path and line. *)
Definition level_ordered (callers : list RelatedDeclaration) : Prop := StronglySorted (fun a b => ord_lt (caller_key a) (caller_key b)) callers.
Lemma level_sorted callers next ignored : level_plain root w callers = inr (next, ignored) -> level_ordered next /\ Forall test_by_path next.
Proof.
  unfold level_plain. pose proof (references_test callers) as Ht. destruct (references_plain root w callers) as [error|[found n]]; [done|]. intros [= <- _].
  pose proof (sort_by_key_sorted caller_key found) as Hs. rewrite <- (sort_by_key_perm caller_key found) in Ht. unfold level_ordered, dedup_by.
  destruct (sort_by_key caller_key found) as [|x l]; [split; constructor|]. split.
  - apply dedup_from_distinct; [|done]. rewrite Forall_forall in Ht. intros a b Ha%Ht Hb%Ht. unfold same_caller, caller_key. rewrite andb_true_iff, bool_decide_eq_true, N.eqb_eq.
    unfold test_by_path in *. split; [intros [E1 E2]; congruence|by intros [= _ E1 E2]].
  - apply Forall_cons in Ht as [Hx Hl]. constructor; [done|]. rewrite Forall_forall in Hl. apply Forall_forall. intros y Hy. apply Hl.
    by eapply elem_of_sublist; [|apply dedup_from_sub].
Qed.
Lemma filter_callers_conserves callers : let '(kept, production, test) := filter_callers filter_ callers in
  length kept + production + test = length callers /\ kept `sublist_of` callers /\
  Forall (fun d => match filter_ with Some f => matches f (rd_path d) (rd_test d) = true | None => True end) kept.
Proof.
  unfold filter_callers. destruct filter_ as [f|]; [|split_and!; [lia|done|by apply Forall_true]]. split_and!.
  - rewrite <- (length_split (fun d => matches f (rd_path d) (rd_test d)) callers). rewrite <- (length_split rd_test (filter (fun d => matches f (rd_path d) (rd_test d) = false) callers)). lia.
  - apply sublist_filter.
  - apply Forall_forall. by intros d [? _]%list_elem_of_filter.
Qed.

(** The report as built has one level. *)
Lemma trace_direct input : exists direct, t_callers (build_trace input) = [direct] /\ cl_depth direct = 1.
Proof.
  unfold build_trace. destruct (partition_sites _ _) as [kept dropped]. destruct (partition_by_kind _ _) as [usages excluded].
  destruct (ti_filter input) as [f|]; [destruct (filter_bookkeeping _ _ _ _) as [[applied production] test]|]; by eexists.
Qed.
(** One level stands on the one above it. *)
Definition stands_on (above level : CallerLevel) : Prop :=
  cl_callers above <> [] /\ exists next ignored, level_plain root w (cl_callers above) = inr (next, ignored) /\ level_ordered next /\
    cl_callers level `sublist_of` next /\ length (cl_callers level) + cl_production_omitted level + cl_test_omitted level = length next /\
    Forall (fun d => match filter_ with Some f => matches f (rd_path d) (rd_test d) = true | None => True end) (cl_callers level).
Lemma deepen_levels turns : forall frontier report ignored report' ignored' above,
  deepen_plain root w filter_ turns frontier report ignored = inr (report', ignored') -> last (t_callers report) = Some above -> cl_callers above = frontier ->
  exists deeper, t_callers report' = t_callers report ++ deeper /\ length deeper <= turns /\
    (forall i level, deeper !! i = Some level -> cl_depth level = length (t_callers report) + i + 1 /\ exists above', (above :: deeper) !! i = Some above' /\ stands_on above' level) /\
    (length deeper < turns -> exists l, last (above :: deeper) = Some l /\ cl_callers l = []).
Proof.
  induction turns as [|turns IH]; intros frontier report ignored report' ignored' above Ed Hl Hf; cbn [deepen_plain] in Ed.
  { injection Ed as <- <-. exists []. rewrite app_nil_r. split_and!; [done|done|by intros i level ?|cbn; lia]. }
  destruct frontier as [|d frontier].
  { injection Ed as <- <-. exists []. rewrite app_nil_r. split_and!; [done|cbn; lia|by intros i level ?|intros _; by exists above]. }
  destruct (level_plain root w (d :: frontier)) as [error|[next more]] eqn:En; [done|]. pose proof (filter_callers_conserves next) as Hc.
  destruct (filter_callers filter_ next) as [[kept production] test]. destruct Hc as (Hlen & Hsub & Hk). set (level := mkLevel (length (t_callers report) + 1) kept production test).
  destruct (IH kept (with_deeper_level report kept production test) _ _ _ level Ed) as (deeper & Et & Hd & Hlv & Hend); [cbn; by rewrite last_snoc|done|].
  change (t_callers (with_deeper_level report kept production test)) with (t_callers report ++ [level]) in *. exists (level :: deeper). split_and!.
  - by rewrite Et, <- app_assoc.
  - cbn. lia.
  - intros [|i] l' Hi; cbn [lookup list_lookup] in Hi.
    + injection Hi as <-. split; [cbn; lia|]. exists above. split; [done|]. unfold stands_on. rewrite Hf. split; [done|]. exists next, more.
      split_and!; [done|by eapply level_sorted|done|done|done].
    + destruct (Hlv i l' Hi) as (Hdepth & above' & Ha & Hst). split; [rewrite Hdepth, length_app; cbn; lia|]. by exists above'.
  - cbn [length]. intros Hlt. destruct Hend as (l & Hl' & He); [lia|]. exists l. by rewrite last_cons_cons.
Qed.
End levels.

(** C13: A deep trace reports every level it was asked for and no more: the levels are numbered from one, at
    most [depth] of them; each stands on a level that found someone, lists every declaration that refers to
    it once, in order, and counts those the filter leaves out; and it stops short only below a level that
    lists no one. *)
Theorem trace_levels `{Unicode} `{GrammarLaws} `{EngineClient} (root : str) (w : World) (limit : option nat) (filter_ : option SiteFilter)
    (target : Target) (depth : nat) (index : IndexCompleteness) (report : TraceReport) :
  run_session root w limit filter_ target depth index = Some (inr report) ->
  exists direct deeper, t_callers report = direct :: deeper /\ cl_depth direct = 1 /\ length deeper <= depth - 1 /\
    (forall i level, deeper !! i = Some level -> cl_depth level = i + 2 /\ exists above, (direct :: deeper) !! i = Some above /\ stands_on root w filter_ above level) /\
    (length deeper < depth - 1 -> exists l, last (direct :: deeper) = Some l /\ cl_callers l = []).
Proof.
  rewrite run_session_plain. intros [= Er]. unfold run_plain in Er. destruct (implementation_sites _) as [error|implementations]; [done|].
  destruct (reference_sites _ Included) as [error|references]; [done|].
  match type of Er with context [build_trace ?input] => destruct (trace_direct input) as (direct & Ed & Edepth); set (base := build_trace input) in * end.
  destruct (deepen_plain _ _ _ _ _ _ _) as [error|[r ignored]] eqn:E; [done|]. injection Er as <-.
  destruct (deepen_levels root w filter_ _ _ _ _ _ _ direct E) as (deeper & Et & Hd & Hlv & Hend); [by rewrite Ed|unfold direct_callers; by rewrite Ed|].
  exists direct, deeper. cbn [with_ignored_directory_results attach t_callers]. rewrite Et, Ed. split_and!; [done|done|done| |done].
  intros i level Hi. destruct (Hlv i level Hi) as (Hdepth & Ha). split; [|done]. rewrite Hdepth, Ed. cbn. lia.
Qed.

(** ** Both routes *)

Section routes.
Context `{Unicode} `{GrammarLaws} (root : str) (w : World).

Definition row_key (c : SymbolCandidate) : str * str * N * N := enriched_key (enriched_of (w_canonicalize w) (w_read w) (parse_path root) c).
Lemma select_candidate_perm request candidates permuted :
  candidates ≡ₚ permuted -> (forall c c', c ∈ candidates -> c' ∈ candidates -> row_key c = row_key c' -> c = c') ->
  select_candidate root w request candidates = select_candidate root w request permuted.
Proof.
  intros E Hkey. unfold select_candidate, select. rewrite (enrich_sorted_perm _ _ _ (kept_candidates root w candidates) (kept_candidates root w permuted)).
  - assert (ignored_candidates root w candidates = ignored_candidates root w permuted) as -> by (unfold ignored_candidates; by rewrite E). done.
  - unfold kept_candidates. by rewrite E.
  - intros c c' [_ Hc]%list_elem_of_filter [_ Hc']%list_elem_of_filter. by apply Hkey.
Qed.
Lemma bind_ext {A B} (r : Result A) (f g : A -> Result B) : (forall a, f a = g a) -> bind r f = bind r g.
Proof. intros E. by destruct r as [[e|a]|]; cbn. Qed.

Lemma resolve_routes_agree `{EngineClient} (found : str -> PassthroughError + list SymbolCandidate) (request : TraceRequest) (cs : list SymbolCandidate) :
  let name := last_segment (rq_symbol request) in
  found name = inr cs ->
  (forall ds, resolve_from_warm_index (w_canonicalize w) (fun path => w_read w (parse_path path)) (parse_path root) name = Declarations ds -> cs = [] \/ cs ≡ₚ ds) ->
  (forall c c', c ∈ cs -> c' ∈ cs -> row_key c = row_key c' -> c = c') ->
  resolve_warm root w found request Complete = resolve root w found request (inr PhaseReady).
Proof.
  intros name Ef Hd Hkey.
  unfold resolve_warm, resolve, found_by_command_mode, warm_declarations. fold name. rewrite Ef. cbn [bind ret]. unfold declarations_from_index. fold name.
  assert (forall resolution, answered root w request Complete resolution = traced root w request (inr PhaseReady) resolution) as Ht by (by intros []).
  destruct cs as [|c cs].
  - unfold resolved_against_a_fresh_index, declarations_from_index. fold name. cbn [open_fresh_session completeness is_ready bind ret].
    destruct (resolve_from_warm_index _ _ _ _) as [ds|reason]; cbn [bind ret default]; [done|].
    unfold found_by_command_mode. fold name. by rewrite Ef.
  - destruct (resolve_from_warm_index _ _ _ _) as [ds|reason] eqn:Er.
    + destruct (Hd ds eq_refl) as [|E]; [done|]. cbn [bind ret]. rewrite <- (select_candidate_perm request (c :: cs) ds E Hkey). by apply bind_ext.
    + unfold found_by_command_mode. fold name. rewrite Ef. cbn [bind ret]. by apply bind_ext.
Qed.
End routes.

(** What two callers of a declaration refer to is counted for one of them only. *)
Lemma deep_sites_undercounted :
  let row sites := mkRelated (lit "A.kt") 3 (Some (lit "a.use")) (Some Function_) sites false in
  dedup_by same_caller (sort_by_key caller_key [row 1; row 2]) = [row 1].
Proof. vm_compute. reflexivity. Qed.

(** ** Witnesses *)

(** An engine that knows one class and one use of anything, in the class's own file. *)
Definition shop_client : EngineClient := {|
  uri_parses := fun _ => true;
  implementation_reply := fun _ => inr None;
  references_reply := fun _ _ => inr (Some [mkLspLocation (lit "file:///shop/k/Cart.kt") 0 4]);
  workspace_symbol_reply := fun name => inr (inr (Some [mkReportedSymbol name (mkLspLocation (lit "file:///shop/k/Cart.kt") 0 6)])) |}.
Definition shop_world : World := world_of (lit "/shop") cart_shop.
Definition put_target : Target :=
  mkTarget (mkSymbolCandidate (lit "put") (lit "/shop/k/Cart.kt") 1 1) (mkDefinition (lit "k.put") (lit "k/Cart.kt") 2 (lit "fun put()")) 0.
Lemma run_refines_witness : exists report,
  @run_session latin1_unicode demo_grammar (lit "/shop") shop_world shop_client None None put_target 3 Complete = Some (inr report) /\
  @run_plain latin1_unicode demo_grammar (lit "/shop") shop_world shop_client None None put_target 3 Complete = inr report.
Proof.
  pose proof (@run_refines latin1_unicode demo_grammar demo_laws (lit "/shop") shop_world shop_client None None put_target 3 Complete) as E.
  destruct (@run_plain latin1_unicode demo_grammar (lit "/shop") shop_world shop_client None None put_target 3 Complete) as [error|report] eqn:Ep;
    [vm_compute in Ep; discriminate|]. exists report. split; [exact E|reflexivity].
Defined.
Lemma trace_levels_witness : exists report,
  @run_session latin1_unicode demo_grammar (lit "/shop") shop_world shop_client None None put_target 3 Complete = Some (inr report) /\
  exists direct deeper, t_callers report = direct :: deeper /\ cl_depth direct = 1 /\ length deeper <= 2.
Proof.
  destruct (@run_session latin1_unicode demo_grammar (lit "/shop") shop_world shop_client None None put_target 3 Complete) as [[error|report]|] eqn:E;
    [vm_compute in E; discriminate| |vm_compute in E; discriminate].
  exists report. split; [reflexivity|].
  destruct (@trace_levels latin1_unicode demo_grammar demo_laws shop_client (lit "/shop") shop_world None None put_target 3 Complete report E) as (direct & deeper & Et & Ed & Hl & _).
  exists direct, deeper. split; [exact Et|split; [exact Ed|exact Hl]].
Defined.

Definition cart_candidate : SymbolCandidate := mkSymbolCandidate (lit "Cart") (lit "/shop/k/Cart.kt") 1 7.
Definition cart_request : TraceRequest := mkTraceRequest (lit "Cart") None 2 None Md None.
Definition cart_found (name : str) : PassthroughError + list SymbolCandidate := inr [cart_candidate].
Lemma cart_indexed : @resolve_from_warm_index shop_client latin1_unicode (w_canonicalize shop_world) (fun path => w_read shop_world (parse_path path)) (parse_path (lit "/shop"))
    (lit "Cart") = Declarations [cart_candidate].
Proof. vm_compute. reflexivity. Qed.
