(* ===== verification/Search.v ===== *)
(** * Search: grep and context bundles

    Models [crates/ktsense-cli/src/grep.rs], the regular expression search whose hits are attributed to
    declarations, and [crates/ktsense-cli/src/context.rs], which packs a depth-one trace into a bundle. The
    regular expressions are third-party code: [compile] gives, for a pattern, an error or the start of the
    first match on a line, in characters; [escape] quotes a literal for it. *)
From S2P Require Import Prelude Collections Budget Text Skeleton References Query Sites Implementors JavaText JavaEnclosing Trace Render Lines Context Answers Files Cst Extract Classify Words Scan Symbols Utf8 Locate Engine Commands Subtypes Index Session SessionSpec.

Set Default Proof Using "Type*".

(** ** [grep] *)

Inductive TestFilter := AllSources | OnlyTests | OnlyProduction.
Definition test_filter_of_flags (tests no_tests : bool) : TestFilter := if tests then OnlyTests else if no_tests then OnlyProduction else AllSources.
Definition includes (f : TestFilter) (is_test : bool) : bool :=
  match f with AllSources => true | OnlyTests => is_test | OnlyProduction => negb is_test end.
Record MatchOptions := mkMatchOptions { mo_word : bool; mo_ignore_case : bool; mo_fixed_strings : bool }.
Record GrepRequest := mkGrepRequest {
  gr_pattern : str;
  gr_path_prefix : option str;
  gr_tests : TestFilter;
  gr_limit : option nat;
  gr_kotlin_only : bool;
  gr_matching : MatchOptions }.
Record MatchedLine := mkMatched { ml_line : N; ml_column : N; ml_source_line : str }.

(** The text given to the regular expression compiler. *)
Definition pattern_expression (escape : str -> str) (pattern : str) (matching : MatchOptions) : str :=
  let expr := if mo_fixed_strings matching then escape pattern else pattern in
  let expr := if mo_word matching then lit "\b{start-half}(?:" ++ expr ++ lit ")\b{end-half}" else expr in
  if mo_ignore_case matching then lit "(?i)" ++ expr else expr.

Definition matching_lines (source : str) (find : str -> option nat) : list MatchedLine :=
  omap (fun '(row, line) => start ← find line; Some (mkMatched (one_based (N.of_nat row)) (one_based (utf16_len (take start line))) line))
    (imap pair (lines source)).

Definition coordinates_of (matches : list MatchedLine) : list (N * N) := (fun m => (ml_line m, ml_column m)) <$> matches.
Definition kotlin_hit (path : str) (m : MatchedLine) (kind : SiteKind) : TextSearchHit := mkHit path (ml_line m) (ml_source_line m) kind None false.
Definition java_hit (path : str) (m : MatchedLine) (kind : SiteKind) (enclosing : option str) : TextSearchHit :=
  mkHit path (ml_line m) (ml_source_line m) kind enclosing true.

Section grep.
Context `{Unicode} `{Grammar} (root : str) (w : World) (compile : str -> str + (str -> option nat)) (escape quoted : str -> str).

(** [quoted] is the [Debug] form of a text. *)
Definition bad_pattern (pattern error : str) : CommandError := mkError Failure (lit "ktsense: invalid search pattern " ++ quoted pattern ++ lit ": " ++ error).
Definition compile_pattern (pattern : str) (matching : MatchOptions) : CommandError + (str -> option nat) :=
  match compile (pattern_expression escape pattern matching) with
  | inl error => inl (bad_pattern pattern error)
  | inr find => inr find
  end.

Definition searched (request : GrepRequest) (path : str) : bool :=
  match gr_path_prefix request with Some prefix => starts_with path prefix | None => true end && includes (gr_tests request) (is_test_source path).
Definition file_matches (request : GrepRequest) (find : str -> option nat) (p : Path) : option (str * str * list MatchedLine) :=
  let path := display_path root w (below root p) in
  if searched request path then
    source ← w_read w (below root p);
    let matches := matching_lines source find in
    if bool_decide (matches = []) then None else Some (path, source, matches)
  else None.

Definition scan_kotlin_file (request : GrepRequest) (find : str -> option nat) (p : Path) : option (list TextSearchHit * option FileSkeleton) :=
  match file_matches request find p with
  | None => Some ([], None)
  | Some (path, source, matches) =>
      kinds ← classify_reference_sites source (coordinates_of matches);
      r ← extract path source;
      Some (zip_with (kotlin_hit path) matches kinds, match r with inr skeleton => Some skeleton | inl _ => None end)
  end.
Definition scan_java_matches (request : GrepRequest) (find : str -> option nat) (p : Path) : option (list TextSearchHit) :=
  match file_matches request find p with
  | None => Some []
  | Some (path, source, matches) =>
      let kinds := classify_java_sites source (coordinates_of matches) in
      enclosings ← java_enclosing_declarations source (ml_line <$> matches);
      Some (zip_with (fun mk enclosing => java_hit path mk.1 mk.2 enclosing) (zip matches kinds) enclosings)
  end.
(** The hits in the order of the scan, and the skeletons of the Kotlin files among them. *)
Definition scan_files (request : GrepRequest) (find : str -> option nat) : Result (list TextSearchHit * list FileSkeleton) :=
  kotlin <-? walked root w (collect_kotlin_files (w_tree w));
  scanned <-? of_option (mapM (scan_kotlin_file request find) kotlin);
  java <-? (if gr_kotlin_only request then ret [] else walked root w (collect_java_files (w_tree w)));
  more <-? of_option (mapM (scan_java_matches request find) java);
  ret (concat scanned.*1 ++ concat more, omap id scanned.*2).

Definition present_search (search : TextSearch) (format : Format) : Result Answer :=
  match format with
  | Md => text <-? of_option (render_text_search_markdown search); ret (Printed text)
  | Json => ret (JsonSearch search)
  | Dot => fail_with (unsupported_format (lit "grep"))
  end.
Definition grep (request : GrepRequest) (format : Format) : Result CommandOutcome :=
  find <-? of_sum (compile_pattern (gr_pattern request) (gr_matching request));
  scan <-? scan_files request find;
  text <-? present_search (build_text_search (gr_pattern request) scan.1 scan.2 (gr_limit request)) format;
  ret (success text).
End grep.

(** ** [context] *)

Definition DIRECT_CALLERS_ONLY : nat := 1.
Record ContextRequest := mkContextRequest {
  cr_symbol : str;
  cr_pick : option str;
  cr_budget : N;
  cr_sections : ContextSections;
  cr_source_match : option SourceMatch;
  cr_format : Format;
  cr_filter : option SiteFilter }.
(** [SourceMatch::compile]. *)
Definition compile_source_match (compile : str -> str + (str -> bool)) (pattern : str) (around : nat) : CommandError + SourceMatch :=
  match compile pattern with
  | inl error => inl (bad_match_pattern error)
  | inr matcher => inr (mkSourceMatch matcher around)
  end.
Definition trace_request (request : ContextRequest) : TraceRequest :=
  mkTraceRequest (cr_symbol request) (cr_pick request) DIRECT_CALLERS_ONLY None (cr_format request) (cr_filter request).

Section context.
Context `{TokenEstimator} `{Unicode} `{Grammar} (root : str) (w : World).

Definition source_lines_at (path : str) : option (list str) := lines <$> read_answered root w path.
Definition callers_left_out (report : TraceReport) : nat :=
  match head (t_callers report) with Some level => cl_production_omitted level + cl_test_omitted level | None => 0 end.
Definition context_input (request : ContextRequest) (report : TraceReport) (file : option FileSkeleton) (annotated : list AnnotatedDeclaration * nat)
    (java kotlin : list ForeignReference * nat) : ContextInput :=
  mkContextInput (t_definition report) (t_index report) (cr_sections request) file (source_lines_at (df_path (t_definition report))) (cr_source_match request)
    (direct_callers report) annotated.1 java.1 kotlin.1 (t_implementors report) (cr_budget request)
    ((fun filter_ => mkContextFilter filter_ (callers_left_out report) annotated.2 java.2 kotlin.2) <$> cr_filter request).
Definition present_context (bundle : SymbolContext) (format : Format) : CommandError + Answer :=
  match format with
  | Md => inr (Printed (render_context_markdown bundle))
  | Json => inr (JsonContext bundle)
  | Dot => inl (unsupported_format (lit "context"))
  end.
Definition finish (request : ContextRequest) (traced : Traced) : Result CommandOutcome :=
  match traced with
  | TracedAmbiguous outcome => ret outcome
  | TracedNotFound => not_found_answer root w (last_segment (cr_symbol request)) None (cr_format request) (lit "context") (cr_filter request)
  | Resolved report =>
      let definition := t_definition report in
      let name := last_segment (cr_symbol request) in
      file <-? of_option (skeleton_answered root w (df_path definition));
      annotated <-? annotation_class_uses root w definition (cr_filter request);
      java <-? walked_pair root w (java_foreign_references (w_tree w) name (cr_filter request));
      kotlin <-? (if ends_with (df_path definition) (lit ".java") then walked_pair root w (kotlin_foreign_references (w_tree w) name (cr_filter request)) else ret ([], 0));
      bundle <-? of_option (build_context (context_input request report file annotated java kotlin));
      text <-? of_sum (present_context bundle (cr_format request));
      ret (success text)
  end.
Definition context_command `{EngineClient} (found : str -> PassthroughError + list SymbolCandidate) (opened : LspError + IndexPhase) (request : ContextRequest) : Result CommandOutcome :=
  traced <-? resolve root w found (trace_request request) opened; finish request traced.
Definition context_warm `{EngineClient} (found : str -> PassthroughError + list SymbolCandidate) (index : IndexCompleteness) (request : ContextRequest) : Result CommandOutcome :=
  traced <-? resolve_warm root w found (trace_request request) index; finish request traced.
End context.

(** ** Lemmas: what a search finds *)

Section search_facts.
Context `{Unicode} `{GrammarLaws} (root : str) (w : World) (request : GrepRequest) (find : str -> option nat).

(** The files a request covers: those under its prefix, tests or production as it says. *)
Definition covered (path : str) : bool :=
  from_option (starts_with path) true (gr_path_prefix request)
  && match gr_tests request with AllSources => true | OnlyTests => is_test_source path | OnlyProduction => negb (is_test_source path) end.
(** Every line the pattern matches, once, at its first match. *)
Definition hits_in (source : str) : list MatchedLine :=
  concat (imap (fun row line => match find line with
    | Some start => [mkMatched (N.of_nat row + 1) (utf16_len (take start line) + 1) line]
    | None => [] end) (lines source)).
Definition lines_found (p : Path) : option (str * list MatchedLine) :=
  if covered (display p) then source ← w_read w (below root p); Some (source, hits_in source) else None.
Definition kind_at (source : str) (m : MatchedLine) : SiteKind := default Code (kinds ← classify_reference_sites source [(ml_line m, ml_column m)]; head kinds).
Definition kotlin_found (p : Path) : list TextSearchHit :=
  match lines_found p with Some (source, matches) => (fun m => kotlin_hit (display p) m (kind_at source m)) <$> matches | None => [] end.
(** A Java line's hit: its kind is that of the character its match starts at, and its declaration the
    one the enclosing scan finds. *)
Definition java_finds (p : Path) (source : str) (m : MatchedLine) (h : TextSearchHit) : Prop :=
  exists kind, site_kind_at source (ml_line m, ml_column m) kind /\
    h = java_hit (display p) m kind (intervals ← enclosing_intervals source; innermost_path intervals (ml_line m)).
Definition java_found (p : Path) (hits : list TextSearchHit) : Prop :=
  match lines_found p with Some (source, matches) => Forall2 (java_finds p source) matches hits | None => hits = [] end.

(** Every source that can be read is smaller than 4 GiB, so that lines and columns fit their counters. *)
Definition reads_sized : Prop := forall path source, w_read w path = Some source -> (utf8_len source + 1 < 2 ^ 32)%N.

Lemma matching_hits source : (utf8_len source + 1 < 2 ^ 32)%N -> matching_lines source find = hits_in source.
Proof.
  intros Hlen. unfold matching_lines, hits_in.
  assert (forall row line, lines source !! row = Some line -> one_based (N.of_nat row) = (N.of_nat row + 1)%N /\
    forall start, one_based (utf16_len (take start line)) = (utf16_len (take start line) + 1)%N) as Hfit.
  { intros row line Hrow. split; [apply one_based_small; eapply lookup_row; [exact Hrow|lia]|]. intros start. apply one_based_small.
    pose proof (line_utf8 _ _ (list_elem_of_lookup_2 _ _ _ Hrow)). pose proof (utf16_le_utf8 (take start line)).
    assert (utf8_len line = utf8_len (take start line) + utf8_len (drop start line))%N by (by rewrite <- utf8_len_app, take_drop). lia. }
  clear Hlen. revert Hfit. generalize (lines source) as l. intros l. change pair with (fun row line => (id row, line) : nat * str).
  change (fun row line => match find line with Some start => _ | None => _ end) with
    (fun row line => match find line with Some start => [mkMatched (N.of_nat (id row) + 1) (utf16_len (take start line) + 1) line] | None => [] end).
  change (forall row line, l !! row = Some line -> _) with (forall row line, l !! row = Some line -> one_based (N.of_nat (id row)) = (N.of_nat (id row) + 1)%N /\
    forall start, one_based (utf16_len (take start line)) = (utf16_len (take start line) + 1)%N).
  generalize (id : nat -> nat) as f. induction l as [|line l IH]; intros f Hfit; [done|]. cbn [imap omap list_omap].
  specialize (IH (f ∘ S) (fun row line' Hrow => Hfit (S row) line' Hrow)). destruct (Hfit 0 line eq_refl) as [E1 E2].
  destruct (find line); cbn [mbind option_bind concat app]; [|exact IH]. rewrite E1, E2. f_equal. exact IH.
Qed.
Lemma file_matches_found p : reads_sized -> file_matches root w request find p =
  match lines_found p with Some (source, matches) => if bool_decide (matches = []) then None else Some (display p, source, matches) | None => None end.
Proof.
  intros Hs. unfold file_matches, lines_found. rewrite display_below.
  assert (searched request (display p) = covered (display p)) as -> by (unfold searched, covered, includes; by destruct (gr_path_prefix request)).
  destruct (covered (display p)); [|done]. destruct (w_read w (below root p)) as [source|] eqn:E; [|done]. cbn [mbind option_bind].
  rewrite matching_hits; [done|by eapply Hs].
Qed.
Lemma scan_kotlin_some p : reads_sized -> exists skeleton, scan_kotlin_file root w request find p = Some (kotlin_found p, skeleton).
Proof.
  intros Hs. unfold scan_kotlin_file, kotlin_found. rewrite file_matches_found by done. destruct (lines_found p) as [[source matches]|]; [|by eexists]. case_bool_decide as En; [subst matches; by eexists|].
  destruct (classify_some source (coordinates_of matches)) as (kinds & Ek & Hl). rewrite Ek. destruct (extract_some (display p) source) as [r ->]. cbn [mbind option_bind]. eexists. do 2 f_equal.
  apply classify_singly in Ek. unfold coordinates_of in Ek. rewrite Forall2_fmap_l in Ek. clear Hl En. induction Ek as [|m kind matches kinds Hk _ IH]; [done|].
  cbn [zip_with fmap list_fmap]. unfold kind_at at 1. cbn in Hk. rewrite Hk. cbn. by f_equal.
Qed.
(** No two hits of a file are on one line. *)
Lemma hits_distinct source : NoDup (coordinates_of (hits_in source)).
Proof.
  assert (forall (ls : list str) f, (forall a b, f a = f b -> a = b) -> NoDup (coordinates_of (concat (imap (fun row line => match find line with
    | Some start => [mkMatched (N.of_nat (f row) + 1) (utf16_len (take start line) + 1) line] | None => [] end) ls))) /\
    forall m, m ∈ concat (imap (fun row line => match find line with
    | Some start => [mkMatched (N.of_nat (f row) + 1) (utf16_len (take start line) + 1) line] | None => [] end) ls) -> exists row, ml_line m = (N.of_nat (f row) + 1)%N) as Hall.
  { induction ls as [|line ls IH]; intros f Hf; [split; [constructor|intros m []%elem_of_nil]|]. cbn [imap concat].
    destruct (IH (f ∘ S)) as [Hn Hm]; [intros a b [=]%Hf; lia|]. destruct (find line) as [start|]; cbn [app].
    - split.
      + unfold coordinates_of in *. csimpl. constructor; [|exact Hn]. intros (m & [= E _] & Hin)%list_elem_of_fmap. apply Hm in Hin as [row Er].
        rewrite Er in E. assert (f 0 = f (S row)) as [=]%Hf by (unfold compose in *; lia).
      + intros m [->|Hin]%elem_of_cons; [by exists 0|]. apply Hm in Hin as [row ->]. by exists (S row).
    - split; [exact Hn|]. intros m Hin. apply Hm in Hin as [row ->]. by exists (S row). }
  apply (Hall (lines source) id). auto.
Qed.
Lemma scan_java_some p : reads_sized -> exists hits, scan_java_matches root w request find p = Some hits /\ java_found p hits.
Proof.
  intros Hs. unfold scan_java_matches, java_found. rewrite file_matches_found by done. destruct (lines_found p) as [[source matches]|] eqn:Ef; [|by exists []].
  case_bool_decide as En; [subst matches; by exists []|].
  unfold java_enclosing_declarations. destruct (enclosing_intervals_some source) as (intervals & Ei & _ & _). rewrite Ei. cbn [mbind option_bind]. eexists. split; [done|].
  assert (matches = hits_in source) as ->. { unfold lines_found in Ef. destruct (covered _); [|done]. destruct (w_read w _); [|done]. by injection Ef as -> <-. }
  pose proof (classify_each source _ (hits_distinct source)) as Hk. unfold coordinates_of in Hk at 1. rewrite Forall2_fmap_l in Hk. revert Hk.
  generalize (classify_java_sites source (coordinates_of (hits_in source))) as kinds. clear En Ef. induction (hits_in source) as [|m matches IH]; intros kinds Hk.
  - apply Forall2_nil_inv_l in Hk as ->. constructor.
  - apply Forall2_cons_inv_l in Hk as (kind & kinds' & Hm & Hk & ->). cbn [zip zip_with fmap list_fmap]. constructor; [|by apply IH].
    exists kind. split; [exact Hm|]. unfold java_hit. cbn. by rewrite Ei.
Qed.
End search_facts.

(** What an answer shows of the hits: for each file that has any, in path order, its hits in line order up
    to the limit and the count of the others, each line under the declaration it is attributed to. *)
Definition shows (search : TextSearch) (pattern : str) (limit : option nat) (hits : list TextSearchHit) (skeletons : list FileSkeleton) : Prop :=
  s_pattern search = pattern /\ s_total_hits search = length hits /\
  s_text_mention_hits search = length (filter (fun h => is_text_mention (h_kind h) = true) hits) /\
  StronglySorted ord_lt (sf_path <$> s_files search) /\
  (forall path, path ∈ sf_path <$> s_files search <-> path ∈ h_path <$> hits) /\
  Forall (fun f => exists all shown,
    all ≡ₚ filter (fun h => h_path h = sf_path f) hits /\ StronglySorted (fun h h' => ord_le (h_line h) (h_line h')) all /\
    shown = match limit with Some n => take n all | None => all end /\ length shown + sf_omitted f = length all /\
    concat (sd_hits <$> sf_declarations f) = search_line <$> shown /\
    concat ((fun g => (fun _ => sd_fqn g) <$> sd_hits g) <$> sf_declarations f)
      = hit_fqn (bt_get (sf_path f) (skeletons_by_path skeletons)) <$> shown) (s_files search).

Lemma search_shows pattern hits skeletons limit : shows (build_text_search pattern hits skeletons limit) pattern limit hits skeletons.
Proof.
  destruct (text_search_accounts pattern hits skeletons limit) as (Ht & _ & Hs & Hp & Hf). unfold shows. split_and!; try done.
  unfold build_text_search in *. cbn [s_files] in *. rewrite Forall_fmap in *. rewrite Forall_forall in *. intros [path file] Hin. specialize (Hf _ Hin).
  destruct Hf as (kept & ordered & Hperm & Hsort & Hk & Hc & Hn & _). exists ordered, kept. split_and!; try done.
  apply (f_equal length) in Hc. rewrite length_fmap in Hc. rewrite <- Hc. apply bt_group_elem in Hin as [-> _]. unfold compose, search_file in *.
  destruct (cap_at_spec limit (sort_by_key h_line (filter (key_is h_path path) hits))) as [_ Hl].
  destruct (cap_at _ _) as [kept' omitted]. cbn in *.
  destruct (group_by_declaration_spec kept' (bt_get path (skeletons_by_path skeletons))) as [E _]. rewrite E, length_fmap. rewrite sort_by_key_perm in Hl.
  rewrite Hl. by apply Permutation_length.
Qed.

Section search_property.
Context `{Unicode} `{GrammarLaws} (root : str) (w : World) (compile : str -> str + (str -> option nat)) (escape quoted : str -> str).

(** C27: A search answers with every matching line and no other. The pattern is compiled as ripgrep would
    with its flags: escaped under -F, between half word boundaries under -w, after (?i) under -i; one that
    does not compile is refused by name. Over a workspace that can be walked, whose sources are smaller than
    4 GiB, there is one hit for each line the pattern matches in each Kotlin file the request covers, in
    the order of the walk, with that line's own kind, then likewise for the Java files unless they are left
    out, each with the kind of the character its match starts at and the declaration around its line. The
    answer counts them all and shows each file's first hits up to the limit, as JSON or Markdown; as a
    graph it is refused. *)
Theorem grep_exact (request : GrepRequest) (format : Format) (kotlin java : list Path) :
  reads_sized w -> collect_kotlin_files (w_tree w) = Some (inr kotlin) -> collect_java_files (w_tree w) = Some (inr java) ->
  let flags := gr_matching request in
  match compile ((if mo_ignore_case flags then lit "(?i)" else []) ++ (if mo_word flags then lit "\b{start-half}(?:" else [])
      ++ (if mo_fixed_strings flags then escape (gr_pattern request) else gr_pattern request) ++ (if mo_word flags then lit ")\b{end-half}" else [])) with
  | inl error => grep root w compile escape quoted request format = Some (inl (bad_pattern quoted (gr_pattern request) error))
  | inr find =>
      exists java_hits skeletons search,
        Forall2 (java_found root w request find) (if gr_kotlin_only request then [] else java) java_hits /\
        shows search (gr_pattern request) (gr_limit request) (concat (kotlin_found root w request find <$> kotlin) ++ concat java_hits) skeletons /\
        match format with
        | Json => grep root w compile escape quoted request format = Some (inr (success (JsonSearch search)))
        | Md => exists text, render_text_search_markdown search = Some text /\
            grep root w compile escape quoted request format = Some (inr (success (Printed text)))
        | Dot => grep root w compile escape quoted request format = Some (inl (unsupported_format (lit "grep")))
        end
  end.
Proof.
  intros Hsized Ek Ej flags. match goal with |- context [compile ?e] => assert (pattern_expression escape (gr_pattern request) flags = e) as Ee end.
  { unfold pattern_expression. destruct (mo_ignore_case flags), (mo_word flags); cbn [app]; rewrite ?app_nil_r, <- ?app_assoc; done. }
  rewrite <- Ee. clear Ee. unfold grep, compile_pattern. fold flags. destruct (compile _) as [error|find]; [done|]. set (java' := if gr_kotlin_only request then [] else java).
  assert (exists skeletons, mapM (scan_kotlin_file root w request find) kotlin = Some (zip (kotlin_found root w request find <$> kotlin) skeletons) /\ length skeletons = length kotlin)
    as (skeletons & Em & Hl).
  { clear Ek. induction kotlin as [|p kotlin (skeletons & IH & Hl)]; [by exists []|]. destruct (scan_kotlin_some root w request find p Hsized) as [skeleton E].
    exists (skeleton :: skeletons). cbn [mapM]. rewrite E, IH. split; [done|]. cbn. by f_equal. }
  assert (exists hits, mapM (scan_java_matches root w request find) java' = Some hits /\ Forall2 (java_found root w request find) java' hits) as (hits & Eh & Ev).
  { clear -Hsized. induction java' as [|p java' (hits & IH & Hh)]; [by exists []|]. destruct (scan_java_some root w request find p Hsized) as (h & E & Hf).
    exists (h :: hits). cbn [mapM]. rewrite E, IH. split; [done|by constructor]. }
  set (all := concat (kotlin_found root w request find <$> kotlin) ++ concat hits).
  assert (scan_files root w request find = Some (inr (all, omap id skeletons))) as Es.
  { unfold scan_files, walked. rewrite Ek. cbn [mbind option_bind bind]. rewrite Em. cbn [of_option mbind option_bind bind].
    assert ((if gr_kotlin_only request then ret [] else walked root w (collect_java_files (w_tree w))) = ret java') as Ew.
    { unfold java', walked. rewrite Ej. by destruct (gr_kotlin_only request). }
    unfold walked in Ew. rewrite Ew. cbn [bind ret]. rewrite Eh. cbn [of_option mbind option_bind bind ret].
    rewrite fst_zip, snd_zip by (rewrite length_fmap; lia). done. }
  exists hits, (omap id skeletons), (build_text_search (gr_pattern request) all (omap id skeletons) (gr_limit request)).
  split; [exact Ev|]. split; [apply search_shows|]. unfold of_sum. cbn [bind]. rewrite Es. cbn [bind fst snd]. destruct format; [|done|done].
  destruct (text_search_safe (gr_pattern request) all (omap id skeletons) (gr_limit request)) as (text & E & _). exists text. split; [exact E|].
  unfold present_search. by rewrite E.
Qed.
End search_property.

(** ** Witnesses *)

Definition plain_find (pattern : str) : str + (str -> option nat) :=
  inr (fun line => head (omap (fun i => if starts_with (drop i line) pattern then Some i else None) (seq 0 (length line)))).
Definition class_search : GrepRequest := mkGrepRequest (lit "class") None AllSources None false (mkMatchOptions false false false).
Lemma shop_reads_sized : reads_sized shop_world.
Proof.
  intros path source. cbn [w_read shop_world world_of]. destruct (path_strip_prefix path _) as [relative|]; [|done]. cbn [mbind option_bind]. apply cart_shop_sized.
Qed.
Lemma grep_exact_witness :
  (reads_sized shop_world /\ collect_kotlin_files cart_shop = Some (inr [[lit "k"; lit "Cart.kt"]]) /\ collect_java_files cart_shop = Some (inr [[lit "j"; lit "A.java"]])) /\
  exists search, @grep latin1_unicode demo_grammar (lit "/shop") shop_world plain_find id id class_search Json = Some (inr (success (JsonSearch search))) /\
    sf_path <$> s_files search = [lit "j/A.java"; lit "k/Cart.kt"] /\ s_total_hits search = 2.
Proof.
  split; [split; [exact shop_reads_sized|split; [exact cart_shop_kotlin|exact cart_shop_java]]|].
  destruct (@grep_exact latin1_unicode demo_grammar demo_laws (lit "/shop") shop_world plain_find id id class_search Json [[lit "k"; lit "Cart.kt"]] [[lit "j"; lit "A.java"]]
    shop_reads_sized cart_shop_kotlin cart_shop_java) as (hits & skeletons & search & _ & _ & E).
  exists search. split; [exact E|]. vm_compute in E. injection E as <-. split; reflexivity.
Defined.
