(* ===== verification/Daemon.v ===== *)
(** * Daemon: the socket protocol and the server

    Models [crates/ktsense-daemon/src/wire.rs], the client of [client.rs], the serving loops of [server.rs] and
    [outcome_for] of [engine.rs]. A stream is the list of the reads it yields before it closes. The encoding
    of a frame as JSON is third-party code: the class [Codec], with its round trip as a law. The engine behind
    the server is the class [Engine], as in the source. *)
From S2P Require Import Prelude Collections Text.

Set Default Proof Using "Type*".

(** ** Frames *)

Class Codec (T : Type) := { to_json : T -> option (list N); from_json : list N -> option T }.
Class CodecLaws (T : Type) `{Codec T} := { json_roundtrip : forall frame body, to_json frame = Some body -> from_json body = Some frame }.

Definition MAX_FRAME : N := (16 * 1024 * 1024)%N.
Inductive WireError := WireIo | WireJson | TooLarge (length_ : N).

(** [u32::to_be_bytes] and [u32::from_be_bytes]. *)
Definition to_be_bytes (n : N) : list N := [n / 16777216 mod 256; n / 65536 mod 256; n / 256 mod 256; n mod 256]%N.
Definition from_be_bytes (bytes : list N) : N := foldl (fun n b => n * 256 + b)%N 0%N bytes.

(** [read_exact]: [None] is an end of the stream before [n] bytes. *)
Fixpoint read_exact (n : nat) (chunks : list (list N)) : option (list N * list (list N)) :=
  match n with
  | O => Some ([], chunks)
  | S _ =>
      match chunks with
      | [] => None
      | chunk :: chunks' =>
          if n <=? length chunk then Some (take n chunk, drop n chunk :: chunks')
          else r ← read_exact (n - length chunk) chunks'; Some (chunk ++ r.1, r.2)
      end
  end.
Definition read_frame {T} `{Codec T} (chunks : list (list N)) : WireError + option (T * list (list N)) :=
  match read_exact 4 chunks with
  | None => inr None
  | Some (length_bytes, chunks) =>
      let length_ := from_be_bytes length_bytes in
      if (MAX_FRAME <? length_)%N then inl (TooLarge length_)
      else match read_exact (N.to_nat length_) chunks with
           | None => inl WireIo
           | Some (body, chunks) => match from_json body with Some frame => inr (Some (frame, chunks)) | None => inl WireJson end
           end
  end.
(** The bytes [write_frame] puts on the stream. *)
Definition frame_bytes {T} `{Codec T} (frame : T) : WireError + list N :=
  match to_json frame with
  | None => inl WireJson
  | Some body =>
      let length_ := N.of_nat (length body) in
      if (MAX_FRAME <? length_)%N then inl (TooLarge length_) else inr (to_be_bytes length_ ++ body)
  end.

(** ** The two ends *)

Definition PROTOCOL_VERSION : N := 11%N.

Section protocol.
Context (Value : Type).

Inductive ServerFrame := Hello (protocol_version : N) | ResultFrame (value : Value) | ErrorFrame (message : str).
Inductive ClientFrame := RequestFrame (method : str) (params : Value) | StopFrame.
Record EngineRequest := mkEngineRequest { er_method : str; er_params : Value }.
Inductive HandlerOutcome := Reply (value : Value) | ErrorOutcome (message : str) | Faulted (message : str).

(** [handle] on the engine's state; [None] is a panic. *)
Class Engine (State : Type) := { handle : State -> EngineRequest -> option (HandlerOutcome * State) }.

(** [outcome_for]: a framing fault is terminal, any other error is not. *)
Inductive SessionError := FramingFault (message : str) | OtherFault (message : str).
Definition outcome_for (result : SessionError + Value) : HandlerOutcome :=
  match result with
  | inr value => Reply value
  | inl (FramingFault message) => Faulted message
  | inl (OtherFault message) => ErrorOutcome message
  end.

Inductive ClientError := ClientWire (e : WireError) | NoHello | ClosedEarly | Protocol (actual : N) | UnexpectedFrame | EngineError (message : str).
Definition verify_protocol (actual : N) : ClientError + unit := if (actual =? PROTOCOL_VERSION)%N then inr () else inl (Protocol actual).

Section ends.
Context `{Codec ServerFrame} `{Codec ClientFrame}.

(** [Client::connect], and the answer [Client::request] reads, on what the daemon sends. *)
Definition connect (chunks : list (list N)) : ClientError + list (list N) :=
  match read_frame (T := ServerFrame) chunks with
  | inl e => inl (ClientWire e)
  | inr (Some (Hello version, chunks)) => match verify_protocol version with inl e => inl e | inr _ => inr chunks end
  | inr (Some _) => inl UnexpectedFrame
  | inr None => inl NoHello
  end.
Definition answer_of (chunks : list (list N)) : (ClientError + Value) * list (list N) :=
  match read_frame (T := ServerFrame) chunks with
  | inl e => (inl (ClientWire e), chunks)
  | inr (Some (ResultFrame value, rest)) => (inr value, rest)
  | inr (Some (ErrorFrame message, rest)) => (inl (EngineError message), rest)
  | inr (Some (Hello _, rest)) => (inl UnexpectedFrame, rest)
  | inr None => (inl ClosedEarly, chunks)
  end.
(** [AnyClient::connect]: the version is kept, not checked. *)
Definition connect_any (chunks : list (list N)) : ClientError + N :=
  match read_frame (T := ServerFrame) chunks with
  | inl e => inl (ClientWire e)
  | inr (Some (Hello version, _)) => inr version
  | inr (Some _) => inl UnexpectedFrame
  | inr None => inl NoHello
  end.

(** ** The server *)

Inductive ConnectionEnd := Closed | StopRequested | SessionFaulted.
(** A connected client: what it sends, and how many frames it takes before a write to it fails, if ever. *)
Record Peer := mkPeer { pe_chunks : list (list N); pe_accepts : option nat }.
Definition send (accepts : option nat) (frame : ServerFrame) : option (list N * option nat) :=
  match frame_bytes frame with
  | inl _ => None
  | inr bytes => match accepts with Some O => None | Some (S n) => Some (bytes, Some n) | None => Some (bytes, None) end
  end.

Context {State : Type} `{Engine State}.

(** The loop of [serve_connection]. *)
Fixpoint serve_frames (fuel : nat) (accepts : option nat) (chunks : list (list N)) (s : State) (sent : list N) : option (ConnectionEnd * State * list N) :=
  match fuel with
  | O => None
  | S fuel' =>
      match read_frame (T := ClientFrame) chunks with
      | inl _ | inr None => Some (Closed, s, sent)
      | inr (Some (StopFrame, _)) => Some (StopRequested, s, sent)
      | inr (Some (RequestFrame method params, rest)) =>
          '(outcome, s) ← handle s (mkEngineRequest method params);
          let respond := fun frame =>
            match send accepts frame with
            | None => Some (Closed, s, sent)
            | Some (bytes, accepts) => serve_frames fuel' accepts rest s (sent ++ bytes)
            end in
          match outcome with
          | Reply value => respond (ResultFrame value)
          | ErrorOutcome message => respond (ErrorFrame message)
          | Faulted message => Some (SessionFaulted, s, sent ++ match send accepts (ErrorFrame message) with Some (bytes, _) => bytes | None => [] end)
          end
      end
  end.
Definition serve_connection (p : Peer) (s : State) : option (ConnectionEnd * State * list N) :=
  match send (pe_accepts p) (Hello PROTOCOL_VERSION) with
  | None => Some (Closed, s, [])
  | Some (bytes, accepts) => serve_frames (S (length (concat (pe_chunks p)))) accepts (pe_chunks p) s bytes
  end.

Inductive StopReason := Stopped | Idle | EngineFaulted.
(** What ends a wait for a connection. *)
Inductive Arrival := IdleElapsed | AcceptFailed | Connected (p : Peer).
(** [serve_loop]: the reason, [inl] an accept error, [None] a loop still waiting; with what each client was sent. *)
Fixpoint serve_loop (arrivals : list Arrival) (s : State) : option (option (unit + StopReason) * State * list (list N)) :=
  match arrivals with
  | [] => Some (None, s, [])
  | IdleElapsed :: _ => Some (Some (inr Idle), s, [])
  | AcceptFailed :: _ => Some (Some (inl ()), s, [])
  | Connected p :: arrivals' =>
      '(end_, s, sent) ← serve_connection p s;
      match end_ with
      | Closed => '(reason, s, rest) ← serve_loop arrivals' s; Some (reason, s, sent :: rest)
      | StopRequested => Some (Some (inr Stopped), s, [sent])
      | SessionFaulted => Some (Some (inr EngineFaulted), s, [sent])
      end
  end.
End ends.
End protocol.

(** ** Lemmas on the wire *)

Lemma be_roundtrip (n : N) : (n <= MAX_FRAME)%N -> from_be_bytes (to_be_bytes n) = n.
Proof.
  unfold MAX_FRAME, from_be_bytes, to_be_bytes. intros Hn. cbn [foldl].
  replace (n / 16777216)%N with (n / 256 / 256 / 256)%N by (by rewrite !N.Div0.div_div).
  replace (n / 65536)%N with (n / 256 / 256)%N by (by rewrite N.Div0.div_div).
  pose proof (N.Div0.div_mod n 256). pose proof (N.Div0.div_mod (n / 256) 256). pose proof (N.Div0.div_mod (n / 256 / 256) 256).
  generalize dependent (n / 256)%N. intros q. generalize dependent (q / 256)%N. intros q' ? Hq. generalize dependent (q' / 256)%N. intros q'' Hq'.
  assert (N.lt q'' 256) as Hlt by (clear -Hn H Hq Hq'; generalize dependent (n mod 256)%N; generalize dependent (q mod 256)%N;
    generalize dependent (q' mod 256)%N; lia).
  rewrite (N.mod_small q'' 256) by done. lia.
Qed.
Lemma be_length n : length (to_be_bytes n) = 4.
Proof. done. Qed.

Lemma read_exact_spec n : forall chunks,
  match read_exact n chunks with
  | Some (b, rest) => n <= length (concat chunks) /\ b = take n (concat chunks) /\ concat rest = drop n (concat chunks)
  | None => length (concat chunks) < n
  end.
Proof.
  intros chunks. revert n. induction chunks as [|c chunks IH]; intros [|n]; cbn [read_exact concat].
  - done.
  - cbn. lia.
  - rewrite drop_0. split_and!; [lia|done|done].
  - destruct (Nat.leb_spec (S n) (length c)) as [Hle|Hlt]; cbn [concat].
    + rewrite length_app, take_app_le, drop_app_le by lia. split_and!; [lia|done|done].
    + specialize (IH (S n - length c)). destruct (read_exact (S n - length c) chunks) as [[b rest]|] eqn:E.
      * destruct IH as (Hl & -> & Hr). change (mbind _ (Some ?x)) with (Some (c ++ x.1, x.2)). cbn [fst snd]. rewrite length_app.
        split_and!; [lia| |].
        -- rewrite take_app_ge by lia. done.
        -- rewrite drop_app_ge by lia. done.
      * change (mbind _ None) with (@None (list N * list (list N))). cbn. rewrite length_app. lia.
Qed.
Lemma read_exact_app bytes tail chunks : concat chunks = bytes ++ tail -> exists rest, read_exact (length bytes) chunks = Some (bytes, rest) /\ concat rest = tail.
Proof.
  intros E. pose proof (read_exact_spec (length bytes) chunks) as Hs. destruct (read_exact (length bytes) chunks) as [[b rest]|].
  - destruct Hs as (_ & -> & Hr). exists rest. rewrite Hr, E, take_app_length, drop_app_length. done.
  - rewrite E, length_app in Hs. lia.
Qed.

Section wire.
Context {T : Type} `{Codec T}.

Lemma frame_bytes_length frame bytes : frame_bytes frame = inr bytes -> 4 <= length bytes.
Proof.
  unfold frame_bytes. destruct (to_json frame) as [body|]; [|done]. destruct (_ <? _)%N; [done|]. intros [= <-]. cbn. lia.
Qed.
Lemma read_frame_ended chunks : length (concat chunks) < 4 -> read_frame (T := T) chunks = inr None.
Proof.
  intros Hl. unfold read_frame. pose proof (read_exact_spec 4 chunks) as Hs. destruct (read_exact 4 chunks) as [[b rest]|]; [lia|done].
Qed.
Lemma read_frame_shorter chunks frame rest : read_frame (T := T) chunks = inr (Some (frame, rest)) -> length (concat rest) + 4 <= length (concat chunks).
Proof.
  unfold read_frame. pose proof (read_exact_spec 4 chunks) as Hs. destruct (read_exact 4 chunks) as [[b r]|]; [|done]. destruct Hs as (Hl & _ & Hr).
  destruct (_ <? _)%N; [done|]. pose proof (read_exact_spec (N.to_nat (from_be_bytes b)) r) as Hs. destruct (read_exact _ r) as [[b' r']|]; [|done].
  destruct Hs as (_ & _ & Hr'). destruct (from_json b'); [|done]. intros [= <- <-]. rewrite Hr', Hr, !length_drop. lia.
Qed.

Context {laws : CodecLaws T}.
(** Whatever the sizes of the reads, a frame that was written is read back, and the stream is left right after it. *)
Lemma read_frame_written frame bytes tail chunks :
  frame_bytes frame = inr bytes -> concat chunks = bytes ++ tail -> exists rest, read_frame chunks = inr (Some (frame, rest)) /\ concat rest = tail.
Proof.
  unfold frame_bytes, read_frame. destruct (to_json frame) as [body|] eqn:Ej; [|done]. destruct (N.ltb_spec MAX_FRAME (N.of_nat (length body))) as [|Hn]; [done|].
  intros Hb E. assert (bytes = to_be_bytes (N.of_nat (length body)) ++ body) as -> by congruence. rewrite <- app_assoc in E. destruct (read_exact_app _ _ _ E) as (rest & Hr & Hrest). rewrite be_length in Hr. rewrite Hr.
  rewrite be_roundtrip by done. destruct (N.ltb_spec MAX_FRAME (N.of_nat (length body))); [lia|]. rewrite Nat2N.id.
  destruct (read_exact_app _ _ _ Hrest) as (rest' & -> & Hrest'). rewrite (json_roundtrip _ _ Ej). by exists rest'.
Qed.
End wire.

Arguments Hello {Value} _.
Arguments ResultFrame {Value} _.
Arguments ErrorFrame {Value} _.
Arguments RequestFrame {Value} _ _.
Arguments StopFrame {Value}.
Arguments mkEngineRequest {Value} _ _.
Arguments er_method {Value} _.
Arguments er_params {Value} _.
Arguments Reply {Value} _.
Arguments ErrorOutcome {Value} _.
Arguments Faulted {Value} _.
Arguments handle {Value State _} _ _.
Arguments outcome_for {Value} _.
Arguments connect {Value _} _.
Arguments answer_of {Value _} _.
Arguments connect_any {Value _} _.
Arguments send {Value _} _ _.
Arguments serve_frames {Value _ _ State _} _ _ _ _ _.
Arguments serve_connection {Value _ _ State _} _ _.
Arguments serve_loop {Value _ _ State _} _ _.

(** ** What an exchange promises *)

(** The bytes of a sequence of frames. *)
Definition encodes {T} `{Codec T} (frames : list T) (bytes : list (list N)) : Prop := Forall2 (fun frame b => frame_bytes frame = inr b) frames bytes.
Lemma encodes_length {T} `{Codec T} (frames : list T) bytes : encodes frames bytes -> 4 * length frames <= length (concat bytes).
Proof. induction 1 as [|f b fs bs Hb _ IH]; cbn [length concat]; [lia|]. rewrite length_app. apply frame_bytes_length in Hb. lia. Qed.

Section exchange.
Context {Value State : Type} `{CodecLaws (ServerFrame Value)} `{CodecLaws (ClientFrame Value)} `{Engine Value State}.

(** The engine asked one request after another, until it faults. *)
Fixpoint handle_all (requests : list (EngineRequest Value)) (s : State) : option (list (HandlerOutcome Value) * State) :=
  match requests with
  | [] => Some ([], s)
  | request :: requests =>
      '(outcome, s) ← handle s request;
      match outcome with
      | Faulted _ => Some ([outcome], s)
      | _ => '(outcomes, s) ← handle_all requests s; Some (outcome :: outcomes, s)
      end
  end.
Definition is_fault (outcome : HandlerOutcome Value) : bool := match outcome with Faulted _ => true | _ => false end.
Definition response (outcome : HandlerOutcome Value) : ServerFrame Value :=
  match outcome with Reply value => ResultFrame value | ErrorOutcome message | Faulted message => ErrorFrame message end.
Definition verdict (outcome : HandlerOutcome Value) : ClientError + Value :=
  match outcome with Reply value => inr value | ErrorOutcome message | Faulted message => inl (EngineError message) end.
Definition request_frame (request : EngineRequest Value) : ClientFrame Value := RequestFrame (er_method request) (er_params request).
(** The answers a client reads one after another. *)
Fixpoint answers (n : nat) (chunks : list (list N)) : list (ClientError + Value) :=
  match n with
  | O => []
  | S n => let '(answer, chunks) := answer_of chunks in answer :: answers n chunks
  end.

Lemma serve_frames_exact requests : forall request_bytes fuel chunks s sent outcomes s' response_bytes,
  encodes (request_frame <$> requests) request_bytes -> concat chunks = concat request_bytes -> length requests < fuel ->
  handle_all requests s = Some (outcomes, s') -> encodes (response <$> outcomes) response_bytes ->
  serve_frames fuel None chunks s sent =
    Some (if existsb is_fault outcomes then SessionFaulted else Closed, s', sent ++ concat response_bytes).
Proof.
  induction requests as [|[method params] requests IH]; intros request_bytes [|fuel] chunks s sent outcomes s' response_bytes Hreq E Hf Hall Hresp;
    cbn [length] in Hf; try lia.
  - apply Forall2_nil_inv_l in Hreq as ->. injection Hall as <- <-. apply Forall2_nil_inv_l in Hresp as ->. cbn [serve_frames].
    rewrite read_frame_ended by (rewrite E; cbn; lia). cbn. by rewrite app_nil_r.
  - apply Forall2_cons_inv_l in Hreq as (b & bs & Hb & Hbs & ->). cbn [concat] in E. cbn [serve_frames].
    destruct (read_frame_written _ _ _ _ Hb E) as (rest & -> & Erest). cbn [handle_all] in Hall. unfold request_frame. cbn [er_method er_params].
    destruct (handle s (mkEngineRequest method params)) as [[outcome s1]|]; [|done]. cbn [mbind option_bind] in *.
    assert (Hgo : is_fault outcome = false -> exists os rb rbs, handle_all requests s1 = Some (os, s') /\ outcomes = outcome :: os /\
      response_bytes = rb :: rbs /\ frame_bytes (response outcome) = inr rb /\ encodes (response <$> os) rbs).
    { intros Hn. destruct outcome; try done; (destruct (handle_all requests s1) as [[os s2]|]; [|done]); injection Hall as <- <-;
        apply Forall2_cons_inv_l in Hresp as (rb & rbs & Hrb & Hrbs & ->); by eexists _, _, _. }
    destruct outcome as [value|message|message].
    1,2: destruct (Hgo eq_refl) as (os & rb & rbs & Hos & -> & -> & Hrb & Hrbs); unfold send; cbn [response] in Hrb; rewrite Hrb;
      rewrite (IH bs fuel rest s1 _ os s' rbs Hbs Erest ltac:(lia) Hos Hrbs); cbn [existsb is_fault orb concat]; by rewrite app_assoc.
    injection Hall as <- <-. apply Forall2_cons_inv_l in Hresp as (rb & rbs & Hrb & Hrbs & ->). apply Forall2_nil_inv_l in Hrbs as ->.
    unfold send. cbn [response] in Hrb. rewrite Hrb. cbn. by rewrite app_nil_r.
Qed.
Lemma answers_exact outcomes : forall response_bytes chunks,
  encodes (response <$> outcomes) response_bytes -> concat chunks = concat response_bytes -> answers (length outcomes) chunks = verdict <$> outcomes.
Proof.
  induction outcomes as [|o os IH]; intros rbs chunks Hrbs E; [done|]. apply Forall2_cons_inv_l in Hrbs as (b & bs & Hb & Hbs & ->).
  cbn [concat] in E. cbn [answers length]. unfold answer_of. destruct (read_frame_written _ _ _ _ Hb E) as (rest & -> & Erest).
  rewrite fmap_cons. rewrite <- (IH bs rest Hbs Erest). by destruct o.
Qed.

(** One request on a connection: the hello, then the answer if it can be framed. *)
Lemma serve_one request s outcome s' hello bytes to_daemon :
  frame_bytes (Hello PROTOCOL_VERSION : ServerFrame Value) = inr hello -> frame_bytes (request_frame request) = inr bytes -> concat to_daemon = bytes ->
  handle s request = Some (outcome, s') -> is_fault outcome = false ->
  serve_connection (mkPeer to_daemon None) s = Some (Closed, s', hello ++ match frame_bytes (response outcome) with inr b => b | inl _ => [] end).
Proof.
  intros Hh Hb Et Ho Hf. unfold serve_connection, send. cbn [pe_accepts pe_chunks]. rewrite Hh. pose proof (frame_bytes_length _ _ Hb) as Hl.
  assert (concat to_daemon = bytes ++ []) as Et' by (by rewrite app_nil_r).
  cbn [serve_frames]. destruct (read_frame_written _ _ [] to_daemon Hb Et') as (rest & -> & Erest). unfold request_frame.
  destruct request as [method params]. cbn [er_method er_params]. rewrite Ho. cbn [mbind option_bind].
  assert (forall frame, send None frame = match frame_bytes (T := ServerFrame Value) frame with inr b => Some (b, None) | inl _ => None end) as Hsend by (intros; done).
  destruct outcome as [value|message|message]; [..|done]; rewrite Hsend; cbn [response];
    (match goal with |- context [frame_bytes ?frame] => destruct (frame_bytes frame) as [e|b] end; [by rewrite app_nil_r|]); (destruct (length (concat to_daemon)) as [|n] eqn:En; [rewrite Et in En; lia|]);
    cbn [serve_frames]; rewrite read_frame_ended by (rewrite Erest; cbn; lia); done.
Qed.

(** ** When the daemon ends *)

Fixpoint frames_of (fuel : nat) (chunks : list (list N)) : list (ClientFrame Value) :=
  match fuel with
  | O => []
  | S fuel => match read_frame (T := ClientFrame Value) chunks with inr (Some (frame, rest)) => frame :: frames_of fuel rest | _ => [] end
  end.
(** The frames a client managed to send. *)
Definition frames_sent (p : Peer) : list (ClientFrame Value) := frames_of (S (length (concat (pe_chunks p)))) (pe_chunks p).

(** Why a connection may end the daemon. *)
Definition asked_for (end_ : ConnectionEnd) (frames : list (ClientFrame Value)) (s' : State) : Prop :=
  match end_ with
  | Closed => True
  | StopRequested => StopFrame ∈ frames
  | SessionFaulted => exists method params s message, RequestFrame method params ∈ frames /\ handle s (mkEngineRequest method params) = Some (Faulted message, s')
  end.
Lemma asked_for_more end_ frame frames s' : asked_for end_ frames s' -> asked_for end_ (frame :: frames) s'.
Proof. destruct end_; cbn; [done| |]. - intros. by right. - intros (m & p & s & msg & Hin & Hh). exists m, p, s, msg. split; [by right|done]. Qed.
Lemma serve_frames_end fuel : forall accepts chunks s sent end_ s' sent',
  serve_frames fuel accepts chunks s sent = Some (end_, s', sent') -> asked_for end_ (frames_of fuel chunks) s'.
Proof.
  induction fuel as [|fuel IH]; intros accepts chunks s sent end_ s' sent' E; [done|]. cbn [serve_frames frames_of] in *.
  destruct (read_frame chunks) as [e|[[[method params|] rest]|]]; [by injection E as <- _ _| |injection E as <- _ _; by left|by injection E as <- _ _].
  destruct (handle s (mkEngineRequest method params)) as [[outcome s1]|] eqn:Eh; [|done]. cbn [mbind option_bind] in E.
  destruct outcome as [value|message|message].
  1,2: destruct (send accepts _) as [[bytes accepts']|]; [apply asked_for_more; by eapply IH|by injection E as <- _ _].
  injection E as <- <- _. exists method, params, s, message. split; [by left|done].
Qed.

(** An engine that answers every request, a failure included, and never faults. *)
Definition dependable : Prop := forall s request, exists outcome s', handle s request = Some (outcome, s') /\ is_fault outcome = false.
Lemma serve_frames_survives fuel : dependable -> forall accepts chunks s sent,
  length (concat chunks) < fuel -> StopFrame ∉ frames_of fuel chunks -> exists s' sent', serve_frames fuel accepts chunks s sent = Some (Closed, s', sent').
Proof.
  intros Hd. induction fuel as [|fuel IH]; intros accepts chunks s sent Hf Hstop; [lia|]. cbn [serve_frames frames_of] in *.
  destruct (read_frame chunks) as [e|[[[method params|] rest]|]] eqn:Er; [by eexists _, _| | |by eexists _, _].
  2: { exfalso. apply Hstop. by left. }
  apply read_frame_shorter in Er. destruct (Hd s (mkEngineRequest method params)) as (outcome & s1 & -> & Hn). cbn [mbind option_bind].
  destruct outcome as [value|message|message]; [| |done].
  all: destruct (send accepts _) as [[bytes accepts']|]; [|by eexists _, _]; apply IH; [lia|]; intros Hin; apply Hstop; by right.
Qed.
Lemma serve_connection_survives (p : Peer) s : dependable -> StopFrame ∉ frames_sent p -> exists s' sent, serve_connection p s = Some (Closed, s', sent).
Proof.
  intros Hd Hstop. unfold serve_connection. destruct (send _ _) as [[bytes accepts]|]; [|by eexists _, _]. apply serve_frames_survives; [done|lia|done].
Qed.
Lemma serve_connection_end p s end_ s' sent : serve_connection p s = Some (end_, s', sent) -> asked_for end_ (frames_sent p) s'.
Proof. unfold serve_connection. destruct (send _ _) as [[bytes accepts]|]; [apply serve_frames_end|by intros [= <- _ _]]. Qed.

(** ** Properties *)

(** C14: a client that sends requests to a daemon, in whatever pieces the socket delivers the bytes in either direction,
    passes the handshake and reads exactly one answer per request, in order, each the engine's own outcome for it on
    the state the earlier requests left; the connection ends with the stream, or at the first session fault. *)
Theorem exchange_exact (requests : list (EngineRequest Value)) s outcomes s' hello request_bytes response_bytes to_daemon :
  frame_bytes (Hello PROTOCOL_VERSION : ServerFrame Value) = inr hello ->
  encodes (request_frame <$> requests) request_bytes -> concat to_daemon = concat request_bytes ->
  handle_all requests s = Some (outcomes, s') -> encodes (response <$> outcomes) response_bytes ->
  exists sent, serve_connection (mkPeer to_daemon None) s = Some (if existsb is_fault outcomes then SessionFaulted else Closed, s', sent) /\
    forall to_client, concat to_client = sent -> exists rest, connect to_client = inr rest /\ answers (length outcomes) rest = verdict <$> outcomes.
Proof.
  intros Hh Hreq Ed Hall Hresp. exists (hello ++ concat response_bytes). split.
  - unfold serve_connection, send. cbn [pe_accepts pe_chunks]. rewrite Hh.
    apply (serve_frames_exact requests request_bytes) with (outcomes := outcomes); try done. rewrite Ed. apply encodes_length in Hreq. rewrite length_fmap in Hreq. lia.
  - intros to_client Ec. destruct (read_frame_written _ _ _ _ Hh Ec) as (rest & Hr & Erest). exists rest. split.
    + unfold connect. by rewrite Hr.
    + by apply (answers_exact outcomes response_bytes).
Qed.

(** What ends a serving loop, and why it may: [inl] is the error of an accept. *)
Definition ended_by (ending : unit + StopReason) (a : Arrival) (s' : State) : Prop :=
  match ending, a with
  | inl _, AcceptFailed | inr Idle, IdleElapsed => True
  | inr Stopped, Connected p => StopFrame ∈ frames_sent p
  | inr EngineFaulted, Connected p => exists s0 method params message, RequestFrame method params ∈ frames_sent p /\ handle s0 (mkEngineRequest method params) = Some (Faulted message, s')
  | _, _ => False
  end.
(** C15: The daemon ends for no other reason than these four: accepting a connection failed, which alone is an error; an idle
    window really passed; a client of it really sent a stop frame; or the engine really faulted on a request a client sent.
    It ends at the arrival that is the reason, after serving every connection before it, and none after. *)
Theorem daemon_ends_when_told (arrivals : list Arrival) s ending s' sent :
  serve_loop arrivals s = Some (Some ending, s', sent) ->
  exists peers a rest, arrivals = (Connected <$> peers) ++ a :: rest /\ ended_by ending a s' /\
    length sent = length peers + match a with Connected _ => 1 | _ => 0 end.
Proof.
  revert s sent. induction arrivals as [|a arrivals IH]; intros s sent E; [done|]. destruct a as [| |p]; cbn [serve_loop] in E.
  - injection E as <- _ <-. by exists [], IdleElapsed, arrivals.
  - injection E as <- _ <-. by exists [], AcceptFailed, arrivals.
  - destruct (serve_connection p s) as [[[end_ s1] sent1]|] eqn:Ec; [|done]. cbn [mbind option_bind] in E. apply serve_connection_end in Ec.
    destruct end_.
    + destruct (serve_loop arrivals s1) as [[[r s2] later]|] eqn:El; [|done]. cbn [mbind option_bind] in E. injection E as -> -> <-.
      destruct (IH _ _ El) as (peers & a & rest & -> & He & Hl). exists (p :: peers), a, rest. split; [done|]. split; [done|]. cbn [length]. lia.
    + injection E as <- _ <-. by exists [], (Connected p), arrivals.
    + injection E as <- <- <-. destruct Ec as (m & ps & s0 & msg & Hin & Hh). exists [], (Connected p), arrivals. split; [done|]. split; [|done]. by exists s0, m, ps, msg.
Qed.

(** C16: no client can take the daemon down by failing: with an engine that keeps answering, clients that send no stop frame
    - hanging up mid-frame, sending garbage or refusing answers - are all served, in order, until the idle window ends it. *)
Theorem daemon_outlives_clients (peers : list Peer) s :
  dependable -> Forall (fun p => StopFrame ∉ frames_sent p) peers ->
  exists s' sent, serve_loop ((Connected <$> peers) ++ [IdleElapsed]) s = Some (Some (inr Idle), s', sent) /\ length sent = length peers.
Proof.
  intros Hd. revert s. induction peers as [|p peers IH]; intros s Hp; [by eexists _, _|]. apply Forall_cons in Hp as [Hp Hps].
  destruct (serve_connection_survives p s Hd Hp) as (s1 & sent1 & E). destruct (IH s1 Hps) as (s2 & sent2 & E2 & El).
  exists s2, (sent1 :: sent2). rewrite fmap_cons. cbn [app serve_loop]. rewrite E. cbn [mbind option_bind]. rewrite E2. cbn. by rewrite El.
Qed.
End exchange.

(** A stream that ends inside the four length bytes reads as a clean close, although [read_frame] is documented to return
    [None] only for a close before the next frame began. *)
Lemma truncated_length_is_a_clean_close {T} `{Codec T} (b0 b1 b2 : N) : read_frame (T := T) [[b0; b1; b2]] = inr None.
Proof. done. Qed.

(** ** The socket's life: [run], [probe], [stop] *)

Inductive Metadata := Owned (uid : N) | MissingPath | Unreadable.
Inductive Liveness := Live | Stale | Absent.
Inductive DaemonError := NoParent | ForeignSocket (uid : N) | AlreadyRunning | Bind | Accept | Io.
Inductive StopOutcome := StopDone | NotRunning.
(** What the daemon does to the file system, in order. *)
Inductive Effect := CreatePrivateDir | RestrictDir | RemoveSocket | BindSocket | RestrictSocket | ServeConnections | ShutdownEngine.

(** A step that may fail, over the effects performed so far. *)
Definition Fs (A : Type) : Type := list Effect -> list Effect * (DaemonError + A).
Definition fs_ret {A} (a : A) : Fs A := fun done => (done, inr a).
Definition fs_fail {A} (e : DaemonError) : Fs A := fun done => (done, inl e).
Definition fs_bind {A B} (m : Fs A) (k : A -> Fs B) : Fs B :=
  fun done => match m done with (done, inl e) => (done, inl e) | (done, inr a) => k a done end.
Declare Scope fs_scope.
Delimit Scope fs_scope with fs.
Notation "'do' x <- m ; k" := (fs_bind m (fun x => k)) (at level 200, x name, m at level 100, k at level 200) : fs_scope.
Local Open Scope fs_scope.

Section lifecycle.
(** What the calls to the operating system return: [fails] says which effects are refused. *)
Context (current : N) (parent : bool) (dir_meta socket_meta : Metadata) (fails : Effect -> bool) (served : DaemonError + StopReason).
Context (connects : bool).

Definition perform (effect : Effect) (error : DaemonError) : Fs unit := fun done => if fails effect then (done, inl error) else (done ++ [effect], inr ()).
Definition owned_by_current_user (file_uid : N) : bool := (file_uid =? current)%N.
Definition refuse_foreign (file_uid : N) : Fs unit := if owned_by_current_user file_uid then fs_ret () else fs_fail (ForeignSocket file_uid).
Definition prepare_directory : Fs unit :=
  do _ <- match dir_meta with Owned uid => refuse_foreign uid | MissingPath => perform CreatePrivateDir Io | Unreadable => fs_fail Io end;
  perform RestrictDir Io.
(** [probe] of the socket path at hand. *)
Definition probe : Liveness := if connects then Live else match socket_meta with MissingPath => Absent | _ => Stale end.
Definition prepare_socket_path : Fs unit :=
  match socket_meta with
  | Owned uid =>
      do _ <- refuse_foreign uid;
      match probe with Live => fs_fail AlreadyRunning | Stale | Absent => perform RemoveSocket Io end
  | MissingPath => fs_ret ()
  | Unreadable => fs_fail Io
  end.
(** [run]: [SocketGuard] removes the socket when the body past its creation returns. *)
Definition run : Fs StopReason :=
  do _ <- (if parent then fs_ret () else fs_fail NoParent);
  do _ <- prepare_directory;
  do _ <- prepare_socket_path;
  do _ <- perform BindSocket Bind;
  do _ <- perform RestrictSocket Io;
  fun done => (done ++ [ServeConnections; ShutdownEngine; RemoveSocket], served).
End lifecycle.

Section stopping.
Context {Value : Type} `{Codec (ServerFrame Value)} `{Codec (ClientFrame Value)}.
(** [stop] and [stop_if_mismatched], given what the connection yields: the outcome and the frame sent. A write that fails is an error. *)
Definition stop_sent (writes : bool) (outcome : StopOutcome) : (ClientError + StopOutcome) * list (ClientFrame Value) :=
  if writes then (inr outcome, [StopFrame]) else (inl (ClientWire WireIo), []).
Definition stop (liveness : Liveness) (reconnect : option (list (list N))) (writes : bool) : (ClientError + StopOutcome) * list (ClientFrame Value) :=
  match liveness with
  | Stale | Absent => (inr NotRunning, [])
  | Live =>
      match reconnect with
      | None => (inl (ClientWire WireIo), [])
      | Some chunks => match connect_any (Value := Value) chunks with inl e => (inl e, []) | inr _ => stop_sent writes StopDone end
      end
  end.
Definition stop_if_mismatched (reconnect : option (list (list N))) (writes : bool) : (ClientError + option StopOutcome) * list (ClientFrame Value) :=
  match reconnect with
  | None => (inr None, [])
  | Some chunks =>
      match connect_any (Value := Value) chunks with
      | inl _ => (inr None, [])
      | inr version =>
          if (version =? PROTOCOL_VERSION)%N then (inr None, [])
          else match stop_sent writes StopDone with (inl e, sent) => (inl e, sent) | (inr outcome, sent) => (inr (Some outcome), sent) end
      end
  end.
End stopping.

(** The daemon never touches what is not its own: with a foreign directory nothing is done at all, a foreign socket or a
    live daemon's socket is neither removed nor bound over, connections are served only through a socket it bound and
    restricted to its owner in a directory restricted before, and once it serves, the engine is shut down and the socket removed. *)
Theorem run_guards_socket current parent dir_meta socket_meta fails served connects :
  let '(effects, result) := run current parent dir_meta socket_meta fails served connects [] in
  (match dir_meta with Owned uid => uid <> current | _ => False end -> effects = []) /\
  (match socket_meta with Owned uid => uid <> current \/ connects = true | _ => False end -> RemoveSocket ∉ effects /\ BindSocket ∉ effects) /\
  (ServeConnections ∈ effects ->
     (exists before, effects = before ++ [RestrictDir] ++ (match socket_meta with MissingPath => [] | _ => [RemoveSocket] end) ++
        [BindSocket; RestrictSocket; ServeConnections; ShutdownEngine; RemoveSocket]) /\ result = served).
Proof.
  unfold run, prepare_directory, prepare_socket_path, refuse_foreign, owned_by_current_user, probe, perform, fs_bind, fs_ret, fs_fail.
  destruct parent; [|split_and!; [done|intros _; split; apply not_elem_of_nil|by intros ?%elem_of_nil]].
  destruct dir_meta as [uid| |]; [destruct (N.eqb_spec uid current) as [->|Hu]|..].
  all: repeat case_match; simplify_eq; split_and!; intros; try done.
  all: repeat match goal with E : (_ =? _)%N = true |- _ => apply N.eqb_eq in E end.
  all: try by destruct_or!.
  all: try (rewrite !list_elem_of_In; split; cbn; naive_solver).
  all: try match goal with Hin : _ ∈ _ |- _ => apply list_elem_of_In in Hin; cbn in Hin end.
  all: try naive_solver.
  all: split; [first [by exists [] | by exists [CreatePrivateDir]]|done].
Qed.

(** ** Witnesses *)

Module demo.
(** A stand-in for the JSON encoding of frames carrying numbers, and two engines: one that counts and faults on zero, one that echoes. *)
#[export] Instance server_codec : Codec (ServerFrame N) := {
  to_json := fun frame => Some match frame with Hello v => [0; v]%N | ResultFrame v => [1; v]%N | ErrorFrame m => 2%N :: m end;
  from_json := fun bytes => match bytes with
    | [0%N; v] => Some (Hello v) | [1%N; v] => Some (ResultFrame v) | 2%N :: m => Some (ErrorFrame m) | _ => None end }.
#[export] Instance server_laws : CodecLaws (ServerFrame N).
Proof. constructor. by intros [v|v|m] body [= <-]. Qed.
#[export] Instance client_codec : Codec (ClientFrame N) := {
  to_json := fun frame => Some match frame with RequestFrame m v => 1%N :: v :: m | StopFrame => [0%N] end;
  from_json := fun bytes => match bytes with 1%N :: v :: m => Some (RequestFrame m v) | [0%N] => Some StopFrame | _ => None end }.
#[export] Instance client_laws : CodecLaws (ClientFrame N).
Proof. constructor. by intros [m v|] body [= <-]. Qed.
#[export] Instance counting : Engine N N := {
  handle := fun s request => match er_params request with
    | 0%N => Some (Faulted (lit "framing"), s)
    | 7%N => Some (ErrorOutcome (lit "no symbol"), (s + 1)%N)
    | n => Some (Reply (n + s)%N, (s + 1)%N) end }.
#[export] Instance echoing : Engine N unit := { handle := fun s request => Some (Reply (er_params request), s) }.

Definition asks : list (EngineRequest N) := [mkEngineRequest (lit "q") 5%N; mkEngineRequest (lit "q") 7%N; mkEngineRequest (lit "q") 9%N].
Definition written {T} `{Codec T} (frames : list T) : list (list N) := (fun frame => match frame_bytes frame with inr b => b | inl _ => [] end) <$> frames.
Definition asked : list N := concat (written (request_frame <$> asks)).
End demo.
Import demo.

Lemma exchange_exact_witness :
  exists outcomes sent, outcomes = [Reply 105%N; ErrorOutcome (lit "no symbol"); Reply 111%N] /\
    serve_connection (mkPeer [take 3 asked; []; drop 3 asked] None) 100%N = Some (Closed, 103%N, sent) /\
    exists rest, connect [sent] = inr rest /\ answers 3 rest = verdict <$> outcomes.
Proof.
  set (outcomes := [Reply 105%N; ErrorOutcome (lit "no symbol"); Reply 111%N]). exists outcomes.
  destruct (exchange_exact asks 100%N outcomes 103%N (to_be_bytes 2 ++ [0; 11]%N) (written (request_frame <$> asks)) (written (response <$> outcomes))
    [take 3 asked; []; drop 3 asked]) as (sent & Hs & Hc); [by vm_compute|repeat constructor|by vm_compute|by vm_compute|repeat constructor|].
  exists sent. split_and!; [done|exact Hs|]. apply (Hc [sent]). cbn. apply app_nil_r.
Defined.

Definition stopping_peer : Peer := mkPeer (written [RequestFrame (lit "q") 5%N; StopFrame]) None.
Definition vanishing_peer : Peer := mkPeer [take 9 asked] (Some 1).
Lemma daemon_ends_when_told_witness :
  (exists s' sent, serve_loop [Connected vanishing_peer; Connected stopping_peer; IdleElapsed] 1%N = Some (Some (inr Stopped), s', sent)) /\
  exists peers a rest (s' : N) (sent : list (list N)), [Connected vanishing_peer; Connected stopping_peer; IdleElapsed] = (Connected <$> peers) ++ a :: rest /\
    ended_by (Value := N) (inr Stopped) a s' /\ length sent = length peers + match a with Connected _ => 1 | _ => 0 end.
Proof.
  assert (E : exists s' sent, serve_loop [Connected vanishing_peer; Connected stopping_peer; IdleElapsed] 1%N = Some (Some (inr Stopped), s', sent))
    by (eexists _, _; vm_compute; reflexivity).
  split; [exact E|]. destruct E as (s' & sent & E). destruct (daemon_ends_when_told _ _ _ _ _ E) as (peers & a & rest & Hw). by exists peers, a, rest, s', sent.
Defined.
Lemma daemon_outlives_clients_witness :
  Forall (fun p => StopFrame ∉ frames_sent (Value := N) p) [vanishing_peer; mkPeer [[1; 2; 3]%N] None] /\
  exists s' sent, serve_loop [Connected vanishing_peer; Connected (mkPeer [[1; 2; 3]%N] None); IdleElapsed] () = Some (Some (inr Idle), s', sent) /\ length sent = 2.
Proof.
  assert (Hp : Forall (fun p => StopFrame ∉ frames_sent (Value := N) p) [vanishing_peer; mkPeer [[1; 2; 3]%N] None]).
  { repeat constructor; vm_compute; intros Hin; apply list_elem_of_In in Hin; cbn in Hin; naive_solver. }
  split; [exact Hp|]. apply (daemon_outlives_clients [vanishing_peer; mkPeer [[1; 2; 3]%N] None] ()); [|exact Hp].
  intros s request. by eexists _, _.
Defined.
