(* ===== verification/Placement.v ===== *)
(** * Placement: where a root's daemon socket goes

    Models [crates/ktsense-daemon/src/placement.rs] and the socket naming of [lib.rs]. A path is its bytes, as
    [OsStr] holds them; [Path::join] of a relative name and [to_string_lossy] are the standard library's. The
    key of a path is 64-bit FNV-1a with its wrap-around written out. *)
From S2P Require Import Prelude Collections Text Utf8.

Set Default Proof Using "Type*".

Definition OsPath : Type := list N.
(** [Path::join] with a relative name. *)
Definition join_name (base : OsPath) (name : OsPath) : OsPath :=
  match last base with Some b => if (b =? ch "/")%N then base ++ name else base ++ [ch "/"] ++ name | None => name end.

(** ** Naming: [lib.rs] *)

Definition OFFSET : N := 14695981039346656037%N.
Definition PRIME : N := 1099511628211%N.
Definition U64 : N := 18446744073709551616%N.
Definition key_step (hash byte : N) : N := (N.lxor hash byte * PRIME mod U64)%N.
Definition fnv (bytes : list N) : N := foldl key_step OFFSET bytes.
(** The digits of [{hash:016x}]. *)
Definition hex_digit (d : N) : N := if (d <? 10)%N then (48 + d)%N else (87 + d)%N.
Fixpoint hex (digits : nat) (n : N) : list N := match digits with O => [] | S k => hex k (n / 16)%N ++ [hex_digit (n mod 16)%N] end.
Definition path_key (path : OsPath) : OsPath := hex 16 (fnv (as_bytes (from_utf8_lossy path))).
Definition socket_dir (xdg_runtime_dir : option OsPath) (home : OsPath) : OsPath :=
  match xdg_runtime_dir with
  | Some runtime => join_name runtime (lit "ktsense")
  | None => join_name (join_name (join_name home (lit ".cache")) (lit "ktsense")) (lit "run")
  end.
Definition socket_path (dir workspace_root : OsPath) : OsPath := join_name dir (path_key workspace_root ++ lit ".sock").

(** ** The budget: [placement.rs] *)

Definition MAX_SOCKET_PATH : nat := 103.
Definition COMPANION_RESERVE : nat := 8.
Definition SOCKET_BUDGET : nat := MAX_SOCKET_PATH - COMPANION_RESERVE.
Definition within_budget (path : OsPath) : bool := length path <=? SOCKET_BUDGET.

Inductive BaseFault := ForeignOwner (uid : N) | WritableByOthers (mode : N) | SymlinkFault | NotADirectory.
Inductive SocketPlacementError :=
  | NoShortPath (preferred : OsPath) (preferred_len : nat) (fallback : OsPath) (fallback_len : nat)
  | UnsafeShortBase (base : OsPath) (fault : BaseFault)
  | UnreadableShortBase (base : OsPath).

(** What [symlink_metadata] says of the short base. *)
Record Base := mkBase { ba_symlink : bool; ba_directory : bool; ba_uid : N; ba_mode : N }.
Inductive BaseMetadata := BaseFound (base : Base) | BaseMissing | BaseUnreadable.
Definition WRITABLE_BY_OTHERS : N := 18%N.
Definition fault_in (base : Base) (current : N) : option BaseFault :=
  if ba_symlink base then Some SymlinkFault
  else if negb (ba_directory base) then Some NotADirectory
  else if negb (ba_uid base =? current)%N then Some (ForeignOwner (ba_uid base))
  else if negb (N.land (ba_mode base) WRITABLE_BY_OTHERS =? 0)%N then Some (WritableByOthers (N.land (ba_mode base) 4095))
  else None.
Definition accept_short_base (metadata : BaseMetadata) (current : N) (base : OsPath) : SocketPlacementError + unit :=
  match metadata with
  | BaseFound b => match fault_in b current with Some fault => inl (UnsafeShortBase base fault) | None => inr () end
  | BaseMissing => inr ()
  | BaseUnreadable => inl (UnreadableShortBase base)
  end.
Definition resolve_socket_path (metadata : BaseMetadata) (current : N) (xdg_runtime_dir : option OsPath) (home short_base workspace_root : OsPath)
  : SocketPlacementError + OsPath :=
  let preferred_dir := socket_dir xdg_runtime_dir home in
  let preferred := socket_path preferred_dir workspace_root in
  if within_budget preferred then inr preferred
  else
    let fallback := socket_path (join_name short_base (path_key preferred_dir)) workspace_root in
    if negb (within_budget fallback) then inl (NoShortPath preferred (length preferred) fallback (length fallback))
    else match accept_short_base metadata current short_base with inl e => inl e | inr _ => inr fallback end.

(** ** Lemmas on the key *)

Lemma hex_length k : forall n, length (hex k n) = k.
Proof. induction k as [|k IH]; intros n; cbn [hex]; [done|]. rewrite length_app, IH. cbn. lia. Qed.
Lemma hex_digit_inj a b : (a < 16)%N -> (b < 16)%N -> hex_digit a = hex_digit b -> a = b.
Proof. unfold hex_digit. intros Ha Hb. destruct (N.ltb_spec a 10), (N.ltb_spec b 10); lia. Qed.
Lemma hex_inj k : forall n m, (n < 16 ^ N.of_nat k)%N -> (m < 16 ^ N.of_nat k)%N -> hex k n = hex k m -> n = m.
Proof.
  induction k as [|k IH]; intros n m Hn Hm E; [cbn in *; lia|]. cbn [hex] in E. apply app_inj_tail in E as [E Ed].
  rewrite Nat2N.inj_succ, N.pow_succ_r' in Hn, Hm. apply hex_digit_inj in Ed; [|by apply N.mod_lt..].
  rewrite (N.Div0.div_mod n 16), (N.Div0.div_mod m 16), Ed. f_equal. f_equal. apply IH; [by apply N.Div0.div_lt_upper_bound..|done].
Qed.
Lemma lxor_lt a b k : (a < 2 ^ k)%N -> (b < 2 ^ k)%N -> (N.lxor a b < 2 ^ k)%N.
Proof.
  intros Ha Hb. assert (N.lxor a b = N.lxor a b mod 2 ^ k)%N as ->; [|by apply N.mod_lt, N.pow_nonzero].
  rewrite <- (N.mod_small a (2 ^ k)), <- (N.mod_small b (2 ^ k)) at 1 by done. rewrite <- !N.land_ones. apply N.bits_inj. intros i.
  rewrite !N.land_spec, !N.lxor_spec, !N.land_spec. by destruct (N.testbit a i), (N.testbit b i), (N.testbit (N.ones k) i).
Qed.
Lemma key_step_lt h b : (key_step h b < U64)%N.
Proof. by apply N.mod_lt. Qed.
(** [PRIME] is odd, so a step loses nothing: this is its inverse modulo 2^64. *)
Definition PRIME_INVERSE : N := 14886173955864302971%N.
Lemma unmultiply x : (x < U64)%N -> (x * PRIME mod U64 * PRIME_INVERSE mod U64)%N = x.
Proof.
  intros Hx. rewrite N.Div0.mul_mod_idemp_l, <- N.mul_assoc. rewrite <- N.Div0.mul_mod_idemp_r.
  change (PRIME * PRIME_INVERSE mod U64)%N with 1%N. rewrite N.mul_1_r. by apply N.mod_small.
Qed.
Lemma key_step_inj h h' b b' : (h < U64)%N -> (h' < U64)%N -> (b < 256)%N -> (b' < 256)%N ->
  key_step h b = key_step h' b' -> N.lxor h b = N.lxor h' b'.
Proof.
  intros Hh Hh' Hb Hb' E. assert (forall x y, x < U64 -> y < 256 -> N.lxor x y < U64)%N as Hl.
  { intros x y Hx Hy. apply (lxor_lt x y 64); [done|]. change (2 ^ 64)%N with U64. unfold U64. lia. }
  rewrite <- (unmultiply (N.lxor h b)), <- (unmultiply (N.lxor h' b')) by auto. unfold key_step in E. by rewrite E.
Qed.
Lemma lxor_cancel_r x y b : N.lxor x b = N.lxor y b -> x = y.
Proof. intros E. rewrite <- (N.lxor_0_r x), <- (N.lxor_0_r y), <- (N.lxor_nilpotent b), <- !N.lxor_assoc. by rewrite E. Qed.
Lemma lxor_cancel_l h x y : N.lxor h x = N.lxor h y -> x = y.
Proof. rewrite !(N.lxor_comm h). apply lxor_cancel_r. Qed.
Lemma foldl_fnv_lt bytes : forall h, (h < U64)%N -> (foldl key_step h bytes < U64)%N.
Proof. induction bytes as [|b bytes IH]; intros h Hh; [done|]. apply IH, key_step_lt. Qed.
Lemma foldl_fnv_inj bytes : forall h h', (h < U64)%N -> (h' < U64)%N -> Forall (fun b => (b < 256)%N) bytes ->
  foldl key_step h bytes = foldl key_step h' bytes -> h = h'.
Proof.
  induction bytes as [|b bytes IH]; intros h h' Hh Hh' Hb E; [done|]. apply Forall_cons in Hb as [Hb Hbs].
  apply IH in E; [|apply key_step_lt..|done]. by apply key_step_inj, lxor_cancel_r in E.
Qed.
Lemma key_inj a b : path_key a = path_key b -> fnv (as_bytes (from_utf8_lossy a)) = fnv (as_bytes (from_utf8_lossy b)).
Proof. intros E. apply hex_inj in E; [done|..]; by apply foldl_fnv_lt. Qed.
Lemma join_name_inj base a b : join_name base a = join_name base b -> a = b.
Proof. unfold join_name. destruct (last base); [|done]. case_match; rewrite ?app_assoc; apply app_inv_head. Qed.
Lemma join_name_length base name : length (join_name base name) <= length base + 1 + length name.
Proof. unfold join_name. destruct (last base); [|lia]. case_match; rewrite !length_app; cbn; lia. Qed.
Lemma path_key_length p : length (path_key p) = 16.
Proof. apply hex_length. Qed.

(** What makes a short base this user's own: a real directory of theirs no one else can write into. *)
Definition private_base (current : N) (metadata : BaseMetadata) : Prop :=
  match metadata with
  | BaseFound b => ba_symlink b = false /\ ba_directory b = true /\ ba_uid b = current /\ N.testbit (ba_mode b) 1 = false /\ N.testbit (ba_mode b) 4 = false
  | BaseMissing => True
  | BaseUnreadable => False
  end.
Lemma writable_bits mode : N.land mode WRITABLE_BY_OTHERS = 0%N <-> N.testbit mode 1 = false /\ N.testbit mode 4 = false.
Proof.
  unfold WRITABLE_BY_OTHERS. split.
  - intros E. split; [pose proof (N.land_spec mode 18 1) as L|pose proof (N.land_spec mode 18 4) as L]; rewrite E in L; cbn in L; by rewrite andb_true_r in L.
  - intros [E1 E4]. apply N.bits_inj. intros i. rewrite N.land_spec, N.bits_0. destruct (N.eq_dec i 1%N) as [->|H1]; [by rewrite E1|].
    destruct (N.eq_dec i 4%N) as [->|H4]; [by rewrite E4|]. replace (N.testbit 18 i) with false; [apply andb_false_r|].
    change 18%N with (N.lor (2 ^ 1) (2 ^ 4))%N. rewrite N.lor_spec, !N.pow2_bits_eqb. symmetry. apply orb_false_iff. split; apply N.eqb_neq; congruence.
Qed.
Lemma accepted_private metadata current base : accept_short_base metadata current base = inr () <-> private_base current metadata.
Proof.
  destruct metadata as [b| |]; cbn; [|done..]. pose proof (writable_bits (ba_mode b)) as Hw. unfold fault_in.
  destruct (ba_symlink b), (ba_directory b); cbn; try (split; [done|by intros (? & ? & _)]).
  destruct (N.eqb_spec (ba_uid b) current) as [E|E]; cbn; [|split; [done|by intros (_ & _ & ? & _)]].
  destruct (N.eqb_spec (N.land (ba_mode b) WRITABLE_BY_OTHERS) 0) as [E0|E0]; cbn; naive_solver.
Qed.

(** ** Properties *)

(** Where a socket goes: any path chosen leaves the companions their bytes on the tightest platform, it is the preferred
    path whenever that one fits, otherwise it lies under the short base, keyed by the directory it replaces, and only if
    that base is private to this user; with a private base of at most 56 bytes a path is always found. *)
Theorem placement_exact metadata current xdg home short_base root :
  let preferred := socket_path (socket_dir xdg home) root in
  let resolved := resolve_socket_path metadata current xdg home short_base root in
  (forall path, resolved = inr path -> length path + COMPANION_RESERVE <= MAX_SOCKET_PATH /\
     (if within_budget preferred then path = preferred
      else path = socket_path (join_name short_base (path_key (socket_dir xdg home))) root /\ private_base current metadata)) /\
  (length short_base <= 56 -> private_base current metadata -> exists path, resolved = inr path).
Proof.
  intros preferred resolved. subst resolved. unfold resolve_socket_path. fold preferred. set (fallback := socket_path (join_name short_base _) root).
  destruct (within_budget preferred) eqn:Ep; [split; [|by eexists]|].
  { intros path [= <-]. split; [|done]. apply Nat.leb_le in Ep. unfold SOCKET_BUDGET, MAX_SOCKET_PATH, COMPANION_RESERVE in *. lia. }
  pose proof (accepted_private metadata current short_base) as Ha. destruct (within_budget fallback) eqn:Ef; cbn [negb]; split.
  - intros path. destruct (accept_short_base metadata current short_base) as [e|[]]; [done|]. intros [= <-]. split; [|by rewrite <- Ha].
    apply Nat.leb_le in Ef. unfold SOCKET_BUDGET, MAX_SOCKET_PATH, COMPANION_RESERVE in *. lia.
  - intros _ Hp. apply Ha in Hp as ->. by eexists.
  - done.
  - intros Hs _. exfalso. apply Nat.leb_gt in Ef. unfold fallback, socket_path, SOCKET_BUDGET, MAX_SOCKET_PATH, COMPANION_RESERVE in Ef.
    pose proof (join_name_length (join_name short_base (path_key (socket_dir xdg home))) (path_key root ++ lit ".sock")) as H1.
    pose proof (join_name_length short_base (path_key (socket_dir xdg home))) as H2. rewrite length_app, path_key_length in H1. rewrite path_key_length in H2.
    change (length (lit ".sock")) with 5 in H1. lia.
Qed.

(** neighbouring roots never share a daemon: two paths that differ in one ASCII character, wherever it stands, have
    different socket names in every directory, although the key is a 64-bit hash. *)
Theorem neighbouring_roots_differ dir (before after : str) x y :
  Forall scalar before -> Forall scalar after -> (x < 128)%N -> (y < 128)%N -> x <> y ->
  socket_path dir (as_bytes (before ++ [x] ++ after)) <> socket_path dir (as_bytes (before ++ [y] ++ after)).
Proof.
  intros Hb Ha Hx Hy Hxy E. apply join_name_inj, app_inv_tail, key_inj in E. apply Hxy.
  assert (forall c, c < 128 -> scalar c)%N as Hc by (intros c ?; left; lia).
  rewrite !lossy_encoded in E by (rewrite !Forall_app; auto). rewrite !as_bytes_app in E.
  assert (forall c, c < 128 -> as_bytes [c] = [c])%N as Hone.
  { intros c Hlt. cbn. unfold utf8_char. by destruct (N.ltb_spec c 128); [|lia]. }
  rewrite !Hone in E by done. unfold fnv in E. rewrite !foldl_app in E. cbn [foldl] in E.
  apply foldl_fnv_inj in E; [|apply key_step_lt..|].
  - apply key_step_inj, lxor_cancel_l in E; [done|by apply foldl_fnv_lt..|lia|lia].
  - clear -Ha. induction Ha as [|c s Hs _ IH]; [constructor|]. apply Forall_app. split; [by apply utf8_char_bytes|done].
Qed.

(** Two distinct roots whose names are not UTF-8 share one socket: the key is taken over the lossy text, and the hello a
    client checks carries a protocol version and no root. *)
Lemma lossy_roots_share_a_socket dir : socket_path dir (lit "/w/" ++ [254]%N) = socket_path dir (lit "/w/" ++ [255]%N).
Proof. done. Qed.

Lemma neighbouring_roots_differ_witness :
  socket_path (lit "/run") (as_bytes (lit "/wor" ++ [ch "k"] ++ lit "/a")) <> socket_path (lit "/run") (as_bytes (lit "/wor" ++ [ch "d"] ++ lit "/a")).
Proof. apply neighbouring_roots_differ; [repeat constructor..| | |]; done. Defined.
