(* ===== verification/Routing.v ===== *)
(** * Routing: a command answered by the daemon or in process

    Models [crates/ktsense-cli/src/routing.rs] with the snapshot of [status.rs]: the routed commands, their in-process
    run, the daemon's [CommandEngine] on its cache and warm session, the client that asks it over the socket, and
    [route] with its fallbacks. A [Moment] is what the machine looks like when a request is served: the files and what
    the engine answers then. The JSON of the routed parameters and replies is the class [Json]. *)
From stdpp Require Import gmap.
From Stdlib Require Import QArith.Qcanon.
From S2P Require Import Prelude Collections Budget Text Graph Skeleton References Query Sites Imports Trace Render RepoMap Context Answers Files Cst Extract Scan Symbols Engine Commands Cache Index Session SessionSpec Search Daemon.

Set Default Proof Using "Type*".

(** ** The routed commands *)

Inductive RoutedLevel := RoutedPackage | RoutedFile.
Definition routed_level (level : DepLevel) : RoutedLevel := match level with PackageLevel => RoutedPackage | FileLevel => RoutedFile end.
Definition dep_level (level : RoutedLevel) : DepLevel := match level with RoutedPackage => PackageLevel | RoutedFile => FileLevel end.
Inductive WireFormat := WireMd | WireJson | WireDot.
Definition wire_format (format : Format) : WireFormat := match format with Md => WireMd | Json => WireJson | Dot => WireDot end.
Definition format_of_wire (format : WireFormat) : Format := match format with WireMd => Md | WireJson => Json | WireDot => Dot end.

Inductive RoutedCommand :=
  | RoutedOutline (file : str) (private kdoc annotations : bool)
  | RoutedDeps (level : RoutedLevel)
  | RoutedTrace (symbol : str) (pick : option str) (depth : N) (limit : option nat) (wait_index : bool) (path : list str) (tests : TestScope)
  | RoutedMap (budget : N) (compact : bool) (focus : option str) (fill : bool) (path : list str)
  | RoutedContext (symbol : str) (pick : option str) (budget : N) (sections : ContextSections) (match_pattern : option str) (around : nat)
      (path : list str) (tests : TestScope).
Definition is_engine_backed (command : RoutedCommand) : bool :=
  match command with RoutedTrace _ _ _ _ _ _ _ | RoutedContext _ _ _ _ _ _ _ _ => true | _ => false end.
Record RoutedParams := mkRoutedParams { rp_command : RoutedCommand; rp_format : WireFormat }.

Inductive WireExit := WireSuccess | WireAmbiguous | WireFailure.
Record RoutedReply := mkRoutedReply { rr_text : Answer; rr_exit : WireExit; rr_stderr : option str }.
Definition reply_of (outcome : CommandOutcome) : RoutedReply :=
  mkRoutedReply (co_text outcome) (match co_exit outcome with AmbiguousExit => WireAmbiguous | Failure => WireFailure | _ => WireSuccess end) (co_stderr outcome).
Definition into_outcome (reply : RoutedReply) : CommandOutcome :=
  mkCommandOutcome (rr_text reply) (match rr_exit reply with WireSuccess => Success | WireAmbiguous => AmbiguousExit | WireFailure => Failure end) (rr_stderr reply).

Inductive IndexLabel := LabelPending | LabelIndexing | LabelComplete.
Definition index_label (phase : IndexPhase) : IndexLabel := match phase with PhasePending => LabelPending | PhaseIndexing => LabelIndexing | PhaseReady => LabelComplete end.
Record DaemonSnapshot := mkSnapshot { sn_uptime_secs : N; sn_index : IndexLabel; sn_requests_served : N; sn_idle_limit_secs : N }.

(** [serde_json::to_value] and [from_value]. *)
Class Json (Value T : Type) := { to_value : T -> str + Value; from_value : Value -> str + T }.
Class JsonLaws (Value T : Type) `{Json Value T} := {
  value_roundtrip : forall t v, to_value t = inr v -> from_value v = inr t;
  value_total : forall t, exists v, to_value t = inr v }.

(** What a request meets: the files, the engine of the session, the phase a fresh session's wait and the warm wait reach
    under each policy, the tracker's phase, the uptime and the session's own answers. *)
Record Moment {Value : Type} := mkMoment {
  mo_world : World;
  mo_client : EngineClient;
  mo_found : str -> PassthroughError + list SymbolCandidate;
  mo_opened : IndexWaitPolicy -> LspError + IndexPhase;
  mo_index : IndexWaitPolicy -> IndexCompleteness;
  mo_phase : IndexPhase;
  mo_uptime : N;
  mo_request : str -> Value -> SessionError + Value }.
Arguments Moment : clear implicits.

Definition COMMAND_METHOD : str := lit "ktsense/command".
Definition STATUS_METHOD : str := lit "ktsense/status".
Definition render_options (private kdoc annotations : bool) : RenderOptions :=
  let options := options_default in
  let options := if private then with_private options else options in
  let options := if kdoc then with_doc options else options in
  if annotations then with_annotations options else options.
Definition routed_trace_request (symbol : str) (pick : option str) (depth : N) (limit : option nat) (filter_ : option SiteFilter) (format : Format) : TraceRequest :=
  mkTraceRequest symbol pick (N.to_nat depth) limit format filter_.
Definition no_daemon (root : str) : CommandError := mkError Failure (lit "ktsense: no daemon answered for " ++ root ++ lit " and KTSENSE_REQUIRE_DAEMON is set").

Section routing.
Context {Value : Type} {F : Type} `{FloatOps F} `{TokenEstimator} (page_rank_default : PageRankOptions F) `{Unicode} `{Grammar} (root : str).
(** The [regex] crate: the error of a pattern that does not compile, or its matcher. *)
Context (compile : str -> str + (str -> bool)).

Definition routed_context_request (symbol : str) (pick : option str) (budget : N) (sections : ContextSections) (match_pattern : option str) (around : nat)
    (filter_ : option SiteFilter) (format : Format) : CommandError + ContextRequest :=
  match (match match_pattern with
         | Some pattern => match compile_source_match compile pattern around with inl e => inl e | inr m => inr (Some m) end
         | None => inr None
         end) with
  | inl e => inl e
  | inr source_match => inr (mkContextRequest symbol pick budget sections source_match format filter_)
  end.

Definition run_in_process (m : Moment Value) (command : RoutedCommand) (format : Format) : Result CommandOutcome :=
  let w := mo_world m in
  let client := mo_client m in
  match command with
  | RoutedOutline file private kdoc annotations =>
      text <-? outline root w (resolve_root root file) format (render_options private kdoc annotations); ret (success text)
  | RoutedDeps level => text <-? deps root w (dep_level level) format; ret (success text)
  | RoutedTrace symbol pick depth limit wait_index path tests =>
      trace root w (mo_found m) (mo_opened m (policy_of_flag wait_index)) (routed_trace_request symbol pick depth limit (filter_new path tests) format)
  | RoutedMap budget compact focus fill path =>
      text <-? repository_map page_rank_default root compile w budget compact focus fill path format; ret (success text)
  | RoutedContext symbol pick budget sections match_pattern around path tests =>
      request <-? of_sum (routed_context_request symbol pick budget sections match_pattern around (filter_new path tests) format);
      context_command root w (mo_found m) (mo_opened m Capped) request
  end.

(** ** The daemon's engine *)

(** [CommandEngine]; [es_now] counts the requests, so that each meets its own moment. *)
Record EngineState := mkEngineState { es_cache : SkeletonCache; es_served : N; es_now : nat }.

Definition cached_answer (r : option ((CommandError + Answer) * SkeletonCache)) : option ((CommandError + CommandOutcome) * SkeletonCache) :=
  '(r, cache) ← r; Some (match r with inl e => inl e | inr text => inr (success text) end, cache).
Definition uncached_answer (cache : SkeletonCache) (r : Result CommandOutcome) : option ((CommandError + CommandOutcome) * SkeletonCache) :=
  r ← r; Some (r, cache).
Definition run_command (m : Moment Value) (cache : SkeletonCache) (command : RoutedCommand) (format : Format) : option ((CommandError + CommandOutcome) * SkeletonCache) :=
  let w := mo_world m in
  let client := mo_client m in
  match command with
  | RoutedOutline file private kdoc annotations =>
      cached_answer (cached_outline root w cache (resolve_root root file) format (render_options private kdoc annotations))
  | RoutedDeps level => cached_answer (cached_deps root w cache (dep_level level) format)
  | RoutedTrace symbol pick depth limit wait_index path tests =>
      uncached_answer cache (trace_warm root w (mo_found m) (mo_index m (policy_of_flag wait_index))
        (routed_trace_request symbol pick depth limit (filter_new path tests) format))
  | RoutedMap budget compact focus fill path =>
      uncached_answer cache (text <-? repository_map page_rank_default root compile w budget compact focus fill path format; ret (success text))
  | RoutedContext symbol pick budget sections match_pattern around path tests =>
      uncached_answer cache (request <-? of_sum (routed_context_request symbol pick budget sections match_pattern around (filter_new path tests) format);
        context_warm root w (mo_found m) (mo_index m Capped) request)
  end.

Context `{Json Value RoutedParams} `{Json Value RoutedReply} `{Json Value DaemonSnapshot}.
Context (moments : nat -> Moment Value) (idle_limit : N).

Definition answer (m : Moment Value) (cache : SkeletonCache) (params : Value) : option (HandlerOutcome Value * SkeletonCache) :=
  match from_value (T := RoutedParams) params with
  | inl error => Some (ErrorOutcome (lit "malformed command request: " ++ error), cache)
  | inr routed =>
      '(r, cache) ← run_command m cache (rp_command routed) (format_of_wire (rp_format routed));
      Some (match r with
            | inl error => ErrorOutcome (ce_message error)
            | inr outcome => match to_value (reply_of outcome) with inl error => ErrorOutcome error | inr value => Reply value end
            end, cache)
  end.
Definition snapshot (m : Moment Value) (served : N) : DaemonSnapshot := mkSnapshot (mo_uptime m) (index_label (mo_phase m)) served idle_limit.
Definition handle_request (s : EngineState) (request : EngineRequest Value) : option (HandlerOutcome Value * EngineState) :=
  let m := moments (es_now s) in
  let now := S (es_now s) in
  if bool_decide (er_method request = STATUS_METHOD) then
    Some (match to_value (snapshot m (es_served s)) with inl error => ErrorOutcome error | inr value => Reply value end,
          mkEngineState (es_cache s) (es_served s) now)
  else
    let served := ((es_served s + 1) mod 2 ^ 64)%N in
    if bool_decide (er_method request = COMMAND_METHOD) then
      '(outcome, cache) ← answer m (es_cache s) (er_params request);
      Some (outcome, mkEngineState cache served now)
    else Some (outcome_for (mo_request m (er_method request) (er_params request)), mkEngineState (es_cache s) served now).
#[export] Instance command_engine : Engine Value EngineState := { handle := handle_request }.

(** ** The client *)

Context `{Codec (ServerFrame Value)} `{Codec (ClientFrame Value)}.

Inductive DaemonAnswer := RoutedAnswered (outcome : CommandOutcome) | CommandFailed (message : str) | Unreachable.
(** A connection to the root's socket, [None] when nobody accepts: what the daemon sends on it, and whether a request can be written. *)
Definition Connection : Type := option (list (list N) * bool).
Definition routed_request (command : RoutedCommand) (format : Format) : str + ClientFrame Value :=
  match to_value (mkRoutedParams command (wire_format format)) with inl error => inl error | inr params => inr (RequestFrame COMMAND_METHOD params) end.
Definition ask_daemon (connection : Connection) (command : RoutedCommand) (format : Format) : DaemonAnswer :=
  match routed_request command format, connection with
  | inr frame, Some (chunks, writes) =>
      match connect chunks with
      | inl _ => Unreachable
      | inr chunks =>
          match frame_bytes frame with
          | inl _ => Unreachable
          | inr _ =>
              if writes then
                match (answer_of chunks).1 with
                | inr value => match from_value value with inr reply => RoutedAnswered (into_outcome reply) | inl _ => Unreachable end
                | inl (EngineError message) => CommandFailed message
                | inl _ => Unreachable
                end
              else Unreachable
          end
      end
  | _, _ => Unreachable
  end.

(** The environment's flags. *)
Record Flags := mkFlags { no_daemon_set : bool; require_daemon_set : bool; no_autostart_set : bool }.
(** The answer, and whether a daemon is started in the background. *)
Definition answer_then_warm (flags : Flags) (m : Moment Value) (command : RoutedCommand) (format : Format) : Result CommandOutcome * bool :=
  (run_in_process m command format, is_engine_backed command && negb (no_autostart_set flags)).
Definition route (flags : Flags) (connection : Connection) (m : Moment Value) (command : RoutedCommand) (format : Format) : Result CommandOutcome * bool :=
  if no_daemon_set flags then (run_in_process m command format, false)
  else match ask_daemon connection command format with
       | RoutedAnswered outcome => (ret outcome, false)
       | CommandFailed message => (fail_with (routed_failure message), false)
       | Unreachable => if require_daemon_set flags then (fail_with (no_daemon root), false) else answer_then_warm flags m command format
       end.
End routing.

(** ** Lemmas: the exits an answer carries *)

Definition carried (r : CommandError + CommandOutcome) : CommandError + CommandOutcome :=
  match r with inl error => inl (routed_failure (ce_message error)) | inr outcome => inr outcome end.
Definition carries (outcome : CommandOutcome) : Prop := co_exit outcome = Success \/ co_exit outcome = Failure \/ co_exit outcome = AmbiguousExit.
Lemma reply_roundtrip outcome : carries outcome -> into_outcome (reply_of outcome) = outcome.
Proof. destruct outcome as [text exit stderr]. unfold carries, into_outcome, reply_of. cbn. by intros [-> | [-> | -> ]]. Qed.
Lemma format_roundtrip format : format_of_wire (wire_format format) = format.
Proof. by destruct format. Qed.
Lemma level_roundtrip level : dep_level (routed_level level) = level.
Proof. by destruct level. Qed.

Lemma bind_inr {A B} (r : Result A) (f : A -> Result B) b : bind r f = Some (inr b) -> exists a, r = Some (inr a) /\ f a = Some (inr b).
Proof. destruct r as [[e|a]|]; [done| |done]. intros E. by exists a. Qed.

Section exits.
Context `{TokenEstimator} `{Unicode} `{Grammar} (root : str) (w : World).

Lemma ambiguous_exit query resolved format outcome : render_ambiguous_selection query resolved format = Some (inr outcome) -> sy_exit outcome = AmbiguousExit.
Proof. unfold render_ambiguous_selection. destruct (ambiguity_hint query resolved); [|done]. destruct format; [by intros [= <-]..|done]. Qed.
Lemma as_ambiguous_exit query resolved format outcome :
  as_ambiguous <$> render_ambiguous_selection query resolved format = Some (inr (AmbiguousAnswer outcome)) -> sy_exit outcome = AmbiguousExit.
Proof.
  destruct (render_ambiguous_selection query resolved format) as [[e|o]|] eqn:E; [done| |done]. intros [= <-]. by eapply ambiguous_exit.
Qed.
Lemma select_exit query candidates pick format outcome :
  select (w_canonicalize w) (w_read w) (parse_path root) query candidates pick format = Some (inr (AmbiguousAnswer outcome)) -> sy_exit outcome = AmbiguousExit.
Proof.
  unfold select, select_by_pick. destruct (enrich_sorted _ _ _ candidates) as [enriched|]; [|done]. cbn [mbind option_bind].
  destruct pick as [|p|p]; [destruct enriched as [|e [|e' es]]; [done..|]; apply as_ambiguous_exit| |].
  all: destruct (match_pick p _) as [i|indices|]; [by destruct (enriched !! i)|apply as_ambiguous_exit|done].
Qed.
Lemma select_candidate_exit request candidates outcome :
  select_candidate root w request candidates = Some (inr (AmbiguousName outcome)) -> carries outcome.
Proof.
  unfold select_candidate. intros (selection & Es & E)%bind_inr. unfold from_symbols in Es. destruct (select _ _ _ _ _ _ _) as [[e|s]|] eqn:Esel; [|injection Es as ->|done].
  - cbn in Es. by destruct (command_error_of root w e).
  - destruct selection as [c r|o|]; [done| |done]. injection E as <-. apply select_exit in Esel. unfold carries. cbn. rewrite Esel. auto.
Qed.
Lemma not_found_exit symbol limit format command filter_ outcome : not_found_answer root w symbol limit format command filter_ = Some (inr outcome) -> carries outcome.
Proof. unfold not_found_answer. intros (n & _ & (text & _ & [= <-])%bind_inr)%bind_inr. by right; left. Qed.

Definition traced_carries (traced : Traced) : Prop := match traced with TracedAmbiguous outcome => carries outcome | _ => True end.
Lemma answered_carries `{EngineClient} request index resolution traced :
  match resolution with AmbiguousName outcome => carries outcome | _ => True end -> answered root w request index resolution = Some (inr traced) -> traced_carries traced.
Proof.
  destruct resolution as [target|outcome|]; cbn [answered]; intros Hc.
  - destruct (run_session _ _ _ _ _ _ _) as [[e|report]|]; [done|by intros [= <-]|done].
  - by intros [= <-].
  - by intros [= <-].
Qed.
Lemma selected_carries request candidates resolution : select_candidate root w request candidates = Some (inr resolution) ->
  match resolution with AmbiguousName outcome => carries outcome | _ => True end.
Proof. intros E. destruct resolution; [done| |done]. by eapply select_candidate_exit. Qed.
Lemma resolve_carries `{EngineClient} found request opened traced_ : resolve root w found request opened = Some (inr traced_) -> traced_carries traced_.
Proof.
  unfold resolve. intros (candidates & _ & E)%bind_inr. destruct candidates as [|c cs].
  - unfold resolved_against_a_fresh_index in E. apply bind_inr in E as (index & _ & (resolution & Es & Ea)%bind_inr).
    eapply answered_carries; [by eapply selected_carries|exact Ea].
  - apply bind_inr in E as (resolution & Es & Ea). apply selected_carries in Es. destruct resolution as [target|outcome|]; cbn [traced] in Ea.
    + apply bind_inr in Ea as (index & _ & Ea). exact (answered_carries _ _ (Ready target) _ Es Ea).
    + exact (answered_carries _ _ (AmbiguousName outcome) _ Es Ea).
    + exact (answered_carries _ _ (NameNotFound) _ Es Ea).
Qed.
Lemma trace_carries `{EngineClient} found opened request outcome : trace root w found opened request = Some (inr outcome) -> carries outcome.
Proof.
  unfold trace. intros (t & Ht & E)%bind_inr. apply resolve_carries in Ht. destruct t as [report|o|]; cbn [present_traced] in E.
  - unfold present_resolved in E. repeat (apply bind_inr in E as (? & _ & E)). injection E as <-. by left.
  - by injection E as <-.
  - by eapply not_found_exit.
Qed.
Lemma context_carries `{EngineClient} found opened request outcome : context_command root w found opened request = Some (inr outcome) -> carries outcome.
Proof.
  unfold context_command. intros (t & Ht & E)%bind_inr. apply resolve_carries in Ht. destruct t as [report|o|]; cbn [finish] in E.
  - repeat (apply bind_inr in E as (? & _ & E)). injection E as <-. by left.
  - by injection E as <-.
  - by eapply not_found_exit.
Qed.
End exits.

Section agreement.
Context {Value F : Type} `{FloatOps F} `{TokenEstimator} (page_rank_default : PageRankOptions F) `{Unicode} `{GrammarLaws} (root : str).
Context (compile : str -> str + (str -> bool)).

Lemma in_process_carries (m : Moment Value) command format outcome : run_in_process page_rank_default root compile m command format = Some (inr outcome) -> carries outcome.
Proof.
  destruct command as [file private kdoc annotations|level|symbol pick depth limit wait_index path tests|budget compact focus fill path|
    symbol pick budget sections match_pattern around path tests]; cbn [run_in_process].
  1,2,4: intros (text & _ & [= <-])%bind_inr; by left.
  - apply trace_carries.
  - intros (request & _ & E)%bind_inr. by eapply context_carries.
Qed.

(** The engine has settled for a command: its index is complete on both routes, and for a symbol question what its search
    reports and what its index holds are the same declarations, in any order. *)
Definition same_declarations (m : Moment Value) (symbol : str) : Prop :=
  let w := mo_world m in
  let client := mo_client m in
  exists cs, mo_found m (last_segment symbol) = inr cs /\
    (forall ds, resolve_from_warm_index (w_canonicalize w) (fun path => w_read w (parse_path path)) (parse_path root) (last_segment symbol) = Declarations ds -> cs = [] \/ cs ≡ₚ ds) /\
    (forall c c', c ∈ cs -> c' ∈ cs -> row_key root w c = row_key root w c' -> c = c').
Definition settled (m : Moment Value) (command : RoutedCommand) : Prop :=
  let ready policy := mo_opened m policy = inr PhaseReady /\ mo_index m policy = Complete in
  match command with
  | RoutedTrace symbol _ _ _ wait_index _ _ => ready (policy_of_flag wait_index) /\ same_declarations m symbol
  | RoutedContext symbol _ _ _ _ _ _ _ => ready Capped /\ same_declarations m symbol
  | _ => True
  end.

Context (worlds : list World).
Hypothesis distinct : forall w w' file source source', w ∈ worlds -> w' ∈ worlds ->
  w_read w file = Some source -> w_read w' file = Some source' -> fingerprint source = fingerprint source' ->
  source = source' /\ display_path root w file = display_path root w' file.

Lemma cached_answer_fresh w cache request : w ∈ worlds -> cache_ok root worlds cache ->
  forall r, (text <-? answer_fresh root w request; ret (success text)) = Some r ->
  exists cache', cached_answer (answer_cached root w cache request) = Some (r, cache') /\ cache_ok root worlds cache'.
Proof.
  intros Hw Hc r Er. pose proof (answer_cached_spec root worlds distinct w cache request Hw Hc) as Ha.
  destruct (answer_fresh root w request) as [a|]; [|done]. destruct Ha as (cache' & -> & Hc'). exists cache'. split; [|done].
  unfold cached_answer. cbn [mbind option_bind]. destruct a as [e|text]; by injection Er as <-.
Qed.
Lemma run_command_agrees (m : Moment Value) cache command format r :
  mo_world m ∈ worlds -> cache_ok root worlds cache -> settled m command ->
  run_in_process page_rank_default root compile m command format = Some r ->
  exists cache', run_command page_rank_default root compile m cache command format = Some (r, cache') /\ cache_ok root worlds cache'.
Proof.
  intros Hw Hc Hs. destruct command as [file private kdoc annotations|level|symbol pick depth limit wait_index path tests|budget compact focus fill path|
    symbol pick budget sections match_pattern around path tests]; cbn [run_in_process run_command].
  - apply (cached_answer_fresh (mo_world m) cache (OutlineRequest (resolve_root root file) format (render_options private kdoc annotations))); done.
  - apply (cached_answer_fresh (mo_world m) cache (DepsRequest (dep_level level) format)); done.
  - destruct Hs as ((Ho & Hi) & cs & Ef & Hd & Hk). unfold trace, trace_warm. rewrite Ho, Hi. intros E.
    rewrite (resolve_routes_agree root (mo_world m) (mo_found m) (routed_trace_request symbol pick depth limit (filter_new path tests) format) cs Ef Hd Hk), E. by exists cache.
  - intros ->. by exists cache.
  - destruct Hs as ((Ho & Hi) & cs & Ef & Hd & Hk). destruct (routed_context_request compile symbol pick budget sections match_pattern around (filter_new path tests) format) as [e|request] eqn:Er.
    + intros [= <-]. by exists cache.
    + cbn [of_sum bind]. unfold context_command, context_warm. rewrite Ho, Hi. intros E. assert (rq_symbol (trace_request request) = symbol) as Hsym.
      { unfold routed_context_request in Er. repeat case_match; simplify_eq; done. }
      rewrite (resolve_routes_agree root (mo_world m) (mo_found m) (trace_request request) cs); rewrite ?Hsym; [rewrite E; by exists cache|done..].
Qed.

(** What the daemon makes of a command's result. *)
Definition reply_outcome `{Json Value RoutedReply} (r : CommandError + CommandOutcome) : HandlerOutcome Value :=
  match r with
  | inl error => ErrorOutcome (ce_message error)
  | inr outcome => match to_value (reply_of outcome) with inl error => ErrorOutcome error | inr value => Reply value end
  end.
Context `{JsonLaws Value RoutedParams} `{JsonLaws Value RoutedReply} `{Json Value DaemonSnapshot} (moments : nat -> Moment Value) (idle_limit : N).
#[local] Instance routed_engine : Engine Value EngineState := command_engine page_rank_default root compile moments idle_limit.

Lemma handle_command s command format params r :
  to_value (mkRoutedParams command (wire_format format)) = inr params ->
  mo_world (moments (es_now s)) ∈ worlds -> cache_ok root worlds (es_cache s) -> settled (moments (es_now s)) command ->
  run_in_process page_rank_default root compile (moments (es_now s)) command format = Some r ->
  exists s', handle s (mkEngineRequest COMMAND_METHOD params) = Some (reply_outcome r, s') /\ cache_ok root worlds (es_cache s').
Proof.
  intros Hv Hw Hc Hs Er. destruct (run_command_agrees _ _ _ _ _ Hw Hc Hs Er) as (cache' & E & Hc').
  exists (mkEngineState cache' ((es_served s + 1) mod 2 ^ 64) (S (es_now s))). split; [|done].
  cbn [handle routed_engine command_engine]. unfold handle_request. cbn [er_method er_params].
  rewrite bool_decide_eq_false_2 by done. rewrite bool_decide_eq_true_2 by done. unfold answer. rewrite (value_roundtrip _ _ Hv).
  cbn [rp_command rp_format]. rewrite format_roundtrip, E. cbn [mbind option_bind]. unfold reply_outcome. by destruct r.
Qed.

End agreement.

(** ** Properties *)

(** C11: Asking the daemon changes no answer, under the conditions it takes for that: of the files of the moments the daemon
    lives through, no file is read with two contents of one fingerprint, nor under two display paths (as a link outside the
    root that is led elsewhere would be, [Cache.relinked_file_served_under_old_path]); what the cache holds was parsed from
    such files; and, for the commands that ask the engine, trace and context, the session opens on a settled and complete
    index, the in-process lookup finds the declarations the warm index resolves, or none, and no two of them share a row.
    Then a command that can be framed, put to a live daemon over the socket by a client that does not hang up, in
    whatever pieces the bytes travel, ends in the in-process result of that moment - text, exit status and hint, or the error's message - or, if the answer cannot be framed, in the
    in-process run itself, or a refusal where a daemon is required; and the daemon's cache stays sound. *)
Theorem route_agrees {Value F : Type} `{FloatOps F} `{TokenEstimator} (page_rank_default : PageRankOptions F) `{Unicode} `{GrammarLaws} (root : str)
    (compile : str -> str + (str -> bool)) (worlds : list World)
    `{JsonLaws Value RoutedParams} `{JsonLaws Value RoutedReply} `{Json Value DaemonSnapshot} `{CodecLaws (ServerFrame Value)} `{CodecLaws (ClientFrame Value)}
    (moments : nat -> Moment Value) (idle_limit : N) flags s command format r frame hello bytes to_daemon :
  (forall w w' file source source', w ∈ worlds -> w' ∈ worlds ->
     w_read w file = Some source -> w_read w' file = Some source' -> fingerprint source = fingerprint source' ->
     source = source' /\ display_path root w file = display_path root w' file) ->
  let m := moments (es_now s) in
  let engine := command_engine page_rank_default root compile moments idle_limit in
  mo_world m ∈ worlds -> cache_ok root worlds (es_cache s) -> settled root m command ->
  run_in_process page_rank_default root compile m command format = Some r ->
  frame_bytes (Hello PROTOCOL_VERSION : ServerFrame Value) = inr hello ->
  routed_request command format = inr frame -> frame_bytes frame = inr bytes -> concat to_daemon = bytes -> no_daemon_set flags = false ->
  exists s' sent, serve_connection (mkPeer to_daemon None) s = Some (Closed, s', sent) /\ cache_ok root worlds (es_cache s') /\
    forall to_client, concat to_client = sent ->
      let routed := route page_rank_default root compile flags (Some (to_client, true)) m command format in
      routed = (Some (carried r), false) \/
      ((exists e, frame_bytes (response (reply_outcome r)) = inl e) /\
       routed = if require_daemon_set flags then (fail_with (no_daemon root), false) else answer_then_warm page_rank_default root compile flags m command format).
Proof.
  intros Hd m engine Hw Hc Hs Er Hh Hf Hb Et Hflag. unfold routed_request in Hf. destruct (to_value (mkRoutedParams command (wire_format format))) as [|params] eqn:Ev; [done|].
  injection Hf as <-. destruct (handle_command page_rank_default root compile worlds Hd moments idle_limit s command format params r Ev Hw Hc Hs Er) as (s' & Ho & Hc').
  exists s', (hello ++ match frame_bytes (response (reply_outcome r)) with inr b => b | inl _ => [] end). split_and!; [|done|].
  { eapply (serve_one (mkEngineRequest COMMAND_METHOD params)); try done.
    unfold reply_outcome. destruct r as [|outcome]; [done|]. by destruct (to_value (reply_of outcome)). }
  intros to_client Ec routed. subst routed. unfold route. rewrite Hflag. unfold ask_daemon, routed_request. rewrite Ev. unfold connect.
  destruct (read_frame_written _ _ _ _ Hh Ec) as (rest & -> & Erest). unfold verify_protocol. rewrite N.eqb_refl, Hb. unfold answer_of.
  destruct (frame_bytes (response (reply_outcome r))) as [e|b] eqn:Eb.
  - right. rewrite read_frame_ended by (rewrite Erest; cbn; lia). cbn [fst]. split; [by eexists|done].
  - left. rewrite <- (app_nil_r b) in Erest. destruct (read_frame_written _ _ _ _ Eb Erest) as (rest' & -> & _). unfold reply_outcome. destruct r as [error|outcome]; cbn [fst response]; [done|].
    destruct (value_total (reply_of outcome)) as (v & Evv). rewrite Evv. cbn [fst response]. rewrite (value_roundtrip _ _ Evv).
    rewrite reply_roundtrip; [done|]. by eapply in_process_carries.
Qed.

(** An invalid [--match] pattern ends 2 in process and 1 once a daemon has answered: the wire carries the message only. *)
Lemma routed_usage_is_failure error : ce_exit (bad_match_pattern error) = Usage /\ carried (inl (bad_match_pattern error)) = inl (mkError Failure (ce_message (bad_match_pattern error))).
Proof. done. Qed.

(** ** Witnesses *)

Module demo_wire.
Inductive Value := ParamsValue (params : RoutedParams) | ReplyValue (reply : RoutedReply) | SnapshotValue (s : DaemonSnapshot).
#[export] Instance params_json : Json Value RoutedParams := { to_value := fun p => inr (ParamsValue p); from_value := fun v => match v with ParamsValue p => inr p | _ => inl [] end }.
#[export] Instance reply_json : Json Value RoutedReply := { to_value := fun p => inr (ReplyValue p); from_value := fun v => match v with ReplyValue p => inr p | _ => inl [] end }.
#[export] Instance snapshot_json : Json Value DaemonSnapshot := { to_value := fun p => inr (SnapshotValue p); from_value := fun v => match v with SnapshotValue p => inr p | _ => inl [] end }.
#[export] Instance params_laws : JsonLaws Value RoutedParams.
Proof. constructor; [by intros t v [= <-]|by eexists]. Qed.
#[export] Instance reply_laws : JsonLaws Value RoutedReply.
Proof. constructor; [by intros t v [= <-]|by eexists]. Qed.
Definition trace_of (symbol : str) : RoutedCommand := RoutedTrace symbol None 2 None true [] AllScope.
(** A stand-in for the JSON encoding that knows the frames of one exchange. *)
#[export] Instance server_codec : Codec (ServerFrame Value) := {
  to_json := fun frame => match frame with
    | Hello v => Some [0; v]%N
    | ResultFrame (ReplyValue (mkRoutedReply (Printed text) WireSuccess None)) => Some (1%N :: text)
    | _ => None end;
  from_json := fun bytes => match bytes with
    | [0%N; v] => Some (Hello v)
    | 1%N :: text => Some (ResultFrame (ReplyValue (mkRoutedReply (Printed text) WireSuccess None)))
    | _ => None end }.
#[export] Instance server_laws : CodecLaws (ServerFrame Value).
Proof. constructor. intros [v|[p|[text exit stderr]|s]|m] body; cbn; [by intros [= <-]|done| |done..]. by destruct text, exit, stderr; intros [= <-]. Qed.
#[export] Instance client_codec : Codec (ClientFrame Value) := {
  to_json := fun frame => match frame with
    | RequestFrame method (ParamsValue (mkRoutedParams (RoutedTrace symbol None 2%N None true [] AllScope) WireMd)) =>
        if bool_decide (method = COMMAND_METHOD) then Some (3%N :: symbol) else None
    | _ => None end;
  from_json := fun bytes => match bytes with
    | 3%N :: symbol => Some (RequestFrame COMMAND_METHOD (ParamsValue (mkRoutedParams (trace_of symbol) WireMd)))
    | _ => None end }.
#[export] Instance client_laws : CodecLaws (ClientFrame Value).
Proof.
  constructor. intros [method [[command format]|reply|s]|] body; cbn; [|done..].
  destruct command; try done. intros E. repeat case_match; try discriminate E. injection E as <-. subst.
  match goal with E : bool_decide _ = true |- _ => apply bool_decide_eq_true in E as -> end. done.
Qed.
Definition shop_moment : Moment Value :=
  mkMoment _ shop_world shop_client cart_found (fun _ => inr PhaseReady) (fun _ => Complete) PhaseReady 0 (fun _ _ => inl (OtherFault [])).
End demo_wire.
Import demo_wire.

Definition shop_state : EngineState := mkEngineState ∅ 41 7.
Local Notation shop_run :=
  (@run_in_process Value Qc _ _ default_options latin1_unicode demo_grammar (lit "/shop") any_pattern shop_moment (trace_of (lit "Cart")) Md) (only parsing).
Lemma shop_settled : @settled Value latin1_unicode demo_grammar (lit "/shop") shop_moment (trace_of (lit "Cart")).
Proof.
  split; [by split|]. exists [cart_candidate]. split; [done|]. split.
  - intros ds E. right. assert (Declarations [cart_candidate] = Declarations ds) as E' by (rewrite <- E; symmetry; exact cart_indexed). by injection E' as <-.
  - intros c c' Hc Hc' _. apply list_elem_of_singleton in Hc as ->. by apply list_elem_of_singleton in Hc' as ->.
Qed.
(** The run answers, and the answer fits a frame. *)
Lemma shop_fits : match shop_run with
  | Some r => match frame_bytes (response (reply_outcome (Value := Value) r)) with inr _ => true | inl _ => false end
  | None => false end = true.
Proof. vm_compute. reflexivity. Qed.
Lemma route_agrees_witness :
  exists r s' sent, shop_run = Some r /\
    @serve_connection Value _ _ EngineState (@command_engine Value Qc _ _ default_options latin1_unicode demo_grammar (lit "/shop") any_pattern _ _ _ (fun _ => shop_moment) 3600)
      (mkPeer [[0; 0]%N; [0; 5; 3]%N; lit "Cart"] None) shop_state = Some (Closed, s', sent) /\
    @route Value Qc _ _ default_options latin1_unicode demo_grammar (lit "/shop") any_pattern _ _ _ _ (mkFlags false true true) (Some ([sent], true)) shop_moment (trace_of (lit "Cart")) Md
      = (Some (carried r), false).
Proof.
  pose proof shop_fits as Hfit. destruct shop_run as [r|] eqn:Er; [|discriminate Hfit]. exists r.
  destruct (@route_agrees Value Qc _ _ default_options latin1_unicode demo_grammar demo_laws (lit "/shop") any_pattern [shop_world] _ _ _ _ _ _ _ _ _
    (fun _ => shop_moment) 3600%N (mkFlags false true true) shop_state (trace_of (lit "Cart")) Md r (RequestFrame COMMAND_METHOD (ParamsValue (mkRoutedParams (trace_of (lit "Cart")) WireMd))) (to_be_bytes 2 ++ [0; 11]%N)
    (to_be_bytes 5 ++ 3%N :: lit "Cart") [[0; 0]%N; [0; 5; 3]%N; lit "Cart"]) as (s' & sent & Es & _ & Hr); [|apply list_elem_of_singleton; reflexivity| | |exact Er|vm_compute; reflexivity..|].
  - intros w w' file source source' Hw Hw' E1 E2 _. apply list_elem_of_singleton in Hw as ->. apply list_elem_of_singleton in Hw' as ->. split; congruence.
  - intros file entry E. exfalso. exact (lookup_empty_Some (M := gmap FsPath) file entry E).
  - exact shop_settled.
  - exists s', sent. split; [reflexivity|]. split; [exact Es|]. destruct (Hr [sent] (app_nil_r sent)) as [E|[[e He] _]]; [exact E|exfalso].
    rewrite He in Hfit. discriminate Hfit.
Defined.
