(* ===== verification/Citations.v ===== *)
(** * Citations: the index over an answer

    Models [crates/ktsense-mcp/src/citations.rs]: one pass over the Markdown of an answer that collects the files and
    lines it cites, over the tool catalogue of [lib.rs]. Every offset of the code stands next to an ASCII character, so
    a position in a line is the text before it and the text after it. *)
From S2P Require Import Prelude Collections Text Skeleton Lines References Answers Locate Engine.

Set Default Proof Using "Type*".

(** ** The catalogue: [lib.rs] *)

Inductive Requirement := NeedsNothing | NeedsEngine | NeedsEngineIndex.
Definition requirement_label (r : Requirement) : str :=
  match r with NeedsNothing => lit "nothing" | NeedsEngine => lit "kmp-lsp" | NeedsEngineIndex => lit "kmp-lsp and a settled index" end.
Record Tool := mkTool { to_name : str; to_cli_command : str; to_requires : Requirement; to_index_shapes_answer : bool }.
Definition OUTLINE : Tool := mkTool (lit "get_kotlin_outline") (lit "outline") NeedsNothing false.
Definition SYMBOLS : Tool := mkTool (lit "find_kotlin_symbol") (lit "symbols") NeedsEngine true.
Definition TRACE : Tool := mkTool (lit "trace_kotlin_symbol") (lit "trace") NeedsEngineIndex true.
Definition DEPS : Tool := mkTool (lit "analyze_kotlin_dependencies") (lit "deps") NeedsNothing false.
Definition MAP : Tool := mkTool (lit "get_kotlin_repo_map") (lit "map") NeedsNothing false.
Definition CHECK : Tool := mkTool (lit "check_kotlin_syntax") (lit "check") NeedsEngine false.
Definition CONTEXT : Tool := mkTool (lit "explain_kotlin_symbol") (lit "context") NeedsEngineIndex true.
Definition STATUS : Tool := mkTool (lit "ktsense_status") (lit "status") NeedsNothing false.
Definition GREP : Tool := mkTool (lit "search_kotlin_text") (lit "grep") NeedsNothing false.
Definition TOOLS : list Tool := [OUTLINE; SYMBOLS; TRACE; DEPS; MAP; CHECK; CONTEXT; STATUS; GREP].

(** ** Reading one line *)

Definition MAX_CITATIONS : nat := 500.
Record Citation := mkCitation { ci_path : str; ci_line : N; ci_column : option N }.
#[export] Instance Citation_eq_dec : EqDecision Citation.
Proof. solve_decision. Defined.

Definition INDEX_MARKER : str := lit "index: ".
Definition HEADING : str := lit "## ".
Definition BULLET : str := lit "- ".
Definition KOTLIN_SUFFIXES : list str := [lit ".kt"; lit ".kts"].

Definition is_path_character (c : char) : bool :=
  ascii_alphabetic c || ascii_digit c || bool_decide (c ∈ [ch "."; ch "_"; ch "/"; ch "-"; ch "+"; ch "~"]).
Definition is_source_path (text : str) : bool :=
  negb (bool_decide (text = [])) && forallb is_path_character text
  && existsb (fun suffix => (utf8_len suffix <? utf8_len text)%N && ends_with text suffix) KOTLIN_SUFFIXES.
(** The path characters a text ends with. *)
Definition path_run (text : str) : str := rev (take_while is_path_character (rev text)).
(** [number_at]: the number a text starts with, and what follows its digits. *)
Definition number_at (rest : str) : option (N * str) :=
  let digits := take_while ascii_digit rest in
  if bool_decide (digits = []) then None else n ← parse_unsigned u32_max digits; Some (n, drop (length digits) rest).

Definition heading_path (line : str) : option str :=
  rest ← strip_prefix line HEADING;
  let rest := trim rest in
  if is_source_path rest then Some rest else None.
Definition grouped_line (line : str) : option N :=
  rest ← strip_prefix line BULLET;
  '(line_number, tail) ← number_at rest;
  let tail := trim_start tail in
  if bool_decide (tail = []) || starts_with tail (lit "in ") then Some line_number else None.

(** The column after a line number, and where reading resumes. *)
Definition column_at (after_line : str) : option N * str :=
  match after_line with
  | c :: rest => if (c =? ch ":")%N then match number_at rest with Some (column, end_) => (Some column, end_) | None => (None, after_line) end else (None, after_line)
  | [] => (None, after_line)
  end.
(** The loop of [positions]: [before] is the line up to where reading stands, [rest] what is left of it. *)
Fixpoint positions_loop (fuel : nat) (before rest : str) : option (list Citation) :=
  match fuel with
  | O => None
  | S fuel' =>
      match split_once (ch ":") rest with
      | None => Some []
      | Some (skipped, after) =>
          let head_ := before ++ skipped in
          let resume := positions_loop fuel' (head_ ++ [ch ":"]) after in
          match number_at after with
          | None => resume
          | Some (line_number, after_line) =>
              let path := path_run head_ in
              if is_source_path path then
                let '(column, end_) := column_at after_line in
                rest ← positions_loop fuel' (head_ ++ [ch ":"] ++ take (length after - length end_) after) end_;
                Some (mkCitation path line_number column :: rest)
              else resume
          end
      end
  end.
Definition positions (line : str) : option (list Citation) := positions_loop (S (length line)) [] line.

(** ** One pass over the text *)

Record Scan := mkScan { sc_index : option str; sc_files : list str; sc_citations : list Citation; sc_omitted : nat }.
Definition scan_default : Scan := mkScan None [] [] 0.
Definition note_file (s : Scan) (path : str) : Scan :=
  if bool_decide (path ∈ sc_files s) then s else mkScan (sc_index s) (sc_files s ++ [path]) (sc_citations s) (sc_omitted s).
Definition cite (s : Scan) (c : Citation) : Scan :=
  if bool_decide (c ∈ sc_citations s) then s
  else if length (sc_citations s) =? MAX_CITATIONS then mkScan (sc_index s) (sc_files s) (sc_citations s) (S (sc_omitted s))
  else let s := note_file s (ci_path c) in mkScan (sc_index s) (sc_files s) (sc_citations s ++ [c]) (sc_omitted s).
Definition note_marker (s : Scan) (trimmed : str) : Scan :=
  match strip_prefix trimmed INDEX_MARKER, sc_index s with
  | Some marker, None => mkScan (Some (trim marker)) (sc_files s) (sc_citations s) (sc_omitted s)
  | _, _ => s
  end.
(** One line of [Scan::of], with the group it stands in. *)
Definition scan_line (state : Scan * option str) (line : str) : option (Scan * option str) :=
  let '(s, group) := state in
  let trimmed := trim line in
  let s := note_marker s trimmed in
  let '(s, group) :=
    match heading_path trimmed with
    | Some path => (note_file s path, Some path)
    | None =>
        if is_source_path trimmed then (note_file s trimmed, Some trimmed)
        else (match grouped_line trimmed, group with
              | Some line_number, Some path => cite s (mkCitation path line_number None)
              | _, _ => s
              end, group)
    end in
  found ← positions line;
  Some (foldl cite s found, group).
Fixpoint scan_lines (state : Scan * option str) (ls : list str) : option (Scan * option str) :=
  match ls with [] => Some state | line :: ls => state ← scan_line state line; scan_lines state ls end.
Definition scan_of (text : str) : option Scan := state ← scan_lines (scan_default, None) (lines text); Some state.1.

(** ** The structured half of a result *)

Record McpAnswer := mkAnswer {
  an_tool : str;
  an_command : str;
  an_requires : str;
  an_root : str;
  an_exit : option Z;
  an_index : option str;
  an_warmth : option str;
  an_outcome : option str;
  an_findings : option nat;
  an_files : list str;
  an_citations : list Citation;
  an_citations_omitted : nat }.
Record Call := mkCall { ca_tool : Tool; ca_root : str; ca_exit : option Z; ca_warmth : option str }.
Definition index_answer (call : Call) (text : str) : option McpAnswer :=
  scan ← scan_of text;
  Some (mkAnswer (to_name (ca_tool call)) (to_cli_command (ca_tool call)) (requirement_label (to_requires (ca_tool call))) (ca_root call) (ca_exit call)
    (sc_index scan) (ca_warmth call) None None (sc_files scan) (sc_citations scan) (sc_omitted scan)).

(** ** Reference definitions *)

(** Every way to split a line at a colon. *)
Fixpoint colon_splits (before rest : str) : list (str * str) :=
  match rest with
  | [] => []
  | c :: rest => (if (c =? ch ":")%N then [(before, rest)] else []) ++ colon_splits (before ++ [c]) rest
  end.
(** The citation a colon stands in: a source path right before it, a number right after, and a column if one follows. *)
Definition token (split : str * str) : option Citation :=
  '(line_number, after_line) ← number_at split.2;
  if is_source_path (path_run split.1) then Some (mkCitation (path_run split.1) line_number (column_at after_line).1) else None.

Lemma take_while_app {A} (f : A -> bool) l : exists rest, l = take_while f l ++ rest /\ Forall (fun x => f x = true) (take_while f l) /\
  match rest with x :: _ => f x = false | [] => True end.
Proof.
  induction l as [|x l (rest & E & Hf & Hr)]; [by exists []|]. cbn [take_while]. destruct (f x) eqn:Ex; [|by exists (x :: l)].
  exists rest. split_and!; [by rewrite E at 1|by constructor|done].
Qed.
Lemma number_at_some rest n tail : number_at rest = Some (n, tail) ->
  exists digits, rest = digits ++ tail /\ digits <> [] /\ Forall (fun c => ascii_digit c = true) digits /\ parse_unsigned u32_max digits = Some n.
Proof.
  unfold number_at. destruct (take_while_app ascii_digit rest) as (r & E & Hf & _). generalize dependent (take_while ascii_digit rest). intros digits E Hf.
  case_bool_decide as Hn; [done|]. destruct (parse_unsigned u32_max digits) as [m|] eqn:Em; [|done]. intros [= -> <-]. exists digits.
  subst rest. by rewrite drop_app_length.
Qed.
Lemma take_while_all {A} (f : A -> bool) l rest : Forall (fun x => f x = true) l -> match rest with x :: _ => f x = false | [] => True end -> take_while f (l ++ rest) = l.
Proof. induction 1 as [|x l Hx _ IH]; intros Hr; cbn [app take_while]; [destruct rest as [|y rest]; [done|]; cbn [take_while]; by rewrite Hr|]. rewrite Hx. by rewrite IH. Qed.
Lemma path_run_stop before c run : is_path_character c = false -> Forall (fun d => is_path_character d = true) run -> path_run (before ++ c :: run) = run.
Proof.
  intros Hc Hr. unfold path_run. rewrite rev_app_distr. cbn [rev]. rewrite <- app_assoc. cbn [app]. rewrite take_while_all; [apply rev_involutive| |done].
  by apply Forall_rev.
Qed.
Lemma digits_no_path digits : Forall (fun c => ascii_digit c = true) digits -> is_source_path digits = false.
Proof.
  intros Hd. unfold is_source_path. apply andb_false_iff. right. unfold KOTLIN_SUFFIXES, ends_with. cbn [existsb].
  assert (forall a l, ascii_digit a = false -> starts_with (rev digits) (a :: l) = false) as Hs.
  { intros a l Ha. apply Forall_rev in Hd. destruct (rev digits) as [|d ds]; [done|]. apply Forall_cons in Hd as [Hd _]. cbn. destruct (N.eqb_spec a d) as [->|]; [congruence|done]. }
  change (rev (lit ".kt")) with (ch "t" :: lit "k."). change (rev (lit ".kts")) with (ch "s" :: lit "tk."). rewrite !Hs by done.
  by rewrite !andb_false_r.
Qed.
Lemma digit_path c : ascii_digit c = true -> is_path_character c = true.
Proof. unfold is_path_character. intros ->. by rewrite orb_true_r. Qed.
Lemma colon_splits_skip a : ch ":" ∉ a -> forall before b, colon_splits before (a ++ b) = colon_splits (before ++ a) b.
Proof.
  induction a as [|c a IH]; intros Hn before b; [by rewrite app_nil_r|]. apply not_elem_of_cons in Hn as [Hc Hn]. cbn [app colon_splits].
  destruct (N.eqb_spec c (ch ":")); [congruence|]. cbn [app]. rewrite IH by done. by rewrite <- app_assoc.
Qed.
Lemma no_colon_splits a before : ch ":" ∉ a -> colon_splits before a = [].
Proof. intros Hn. rewrite <- (app_nil_r a). by rewrite colon_splits_skip. Qed.
Lemma digits_no_colon digits : Forall (fun c => ascii_digit c = true) digits -> ch ":" ∉ digits.
Proof. intros Hd Hin. rewrite Forall_forall in Hd. by apply Hd in Hin. Qed.
Lemma split_once_colon s : match split_once (ch ":") s with
  | Some (a, b) => s = a ++ ch ":" :: b /\ ch ":" ∉ a
  | None => ch ":" ∉ s end.
Proof.
  induction s as [|d s IH]; [apply not_elem_of_nil|]. cbn [split_once]. destruct (N.eqb_spec d (ch ":")) as [->|Hd]; [by split; [|apply not_elem_of_nil]|].
  destruct (split_once (ch ":") s) as [[a b]|]; cbn [mbind option_bind].
  - destruct IH as [-> Hn]. split; [done|]. by apply not_elem_of_cons.
  - by apply not_elem_of_cons.
Qed.

(** Between a citation's number and where reading resumes no other citation can end: what is skipped is digits, and
    perhaps one colon after digits. *)
Lemma token_after_digits before digits after : Forall (fun c => ascii_digit c = true) digits -> token (before ++ ch ":" :: digits, after) = None.
Proof.
  intros Hd. unfold token. cbn [fst snd]. destruct (number_at after) as [[n tail]|]; [|done]. cbn [mbind option_bind].
  rewrite path_run_stop; [by rewrite digits_no_path|done|]. eapply Forall_impl; [exact Hd|]. intros c. apply digit_path.
Qed.
Lemma column_at_consumed after_line : exists consumed, after_line = consumed ++ (column_at after_line).2 /\
  (consumed = [] \/ exists digits, consumed = ch ":" :: digits /\ Forall (fun c => ascii_digit c = true) digits).
Proof.
  destruct after_line as [|c rest]; cbn [column_at]; [exists []; auto|]. destruct (N.eqb_spec c (ch ":")) as [->|]; [|exists []; auto].
  destruct (number_at rest) as [[column end_]|] eqn:E; [|exists []; auto]. apply number_at_some in E as (digits & -> & _ & Hd & _). cbn [snd].
  exists (ch ":" :: digits). split; [done|]. right. by exists digits.
Qed.
Lemma positions_loop_spec fuel : forall before rest, length rest < fuel -> positions_loop fuel before rest = Some (omap token (colon_splits before rest)).
Proof.
  induction fuel as [|fuel IH]; intros before rest Hf; [lia|]. cbn [positions_loop]. pose proof (split_once_colon rest) as Hs.
  destruct (split_once (ch ":") rest) as [[skipped after]|]; [|by rewrite no_colon_splits]. destruct Hs as [-> Hn]. rewrite length_app in Hf. cbn [length] in Hf.
  assert (colon_splits before (skipped ++ ch ":" :: after) = (before ++ skipped, after) :: colon_splits ((before ++ skipped) ++ [ch ":"]) after) as ->.
  { rewrite colon_splits_skip by done. reflexivity. }
  cbn [omap list_omap]. set (head_ := before ++ skipped). unfold token at 1. cbn [fst snd].
  destruct (number_at after) as [[n after_line]|] eqn:En; cbn [mbind option_bind]; [|apply IH; lia].
  destruct (is_source_path (path_run head_)) eqn:Ep; [|apply IH; lia].
  apply number_at_some in En as (digits & -> & Hne & Hd & _). destruct (column_at_consumed after_line) as (consumed & E & Hc).
  destruct (column_at after_line) as [column end_]. cbn [fst snd] in *. subst after_line.
  assert (take (length (digits ++ consumed ++ end_) - length end_) (digits ++ consumed ++ end_) = digits ++ consumed) as ->.
  { rewrite (app_assoc digits). apply take_app_length'. rewrite !length_app. lia. }
  assert (omap token (colon_splits (head_ ++ [ch ":"]) (digits ++ consumed ++ end_)) = omap token (colon_splits (head_ ++ [ch ":"] ++ digits ++ consumed) end_)) as ->.
  { rewrite colon_splits_skip by by apply digits_no_colon. destruct Hc as [->|(digits' & -> & Hd')]; [by rewrite app_nil_r, <- app_assoc|].
    cbn [app colon_splits]. rewrite N.eqb_refl. cbn [app omap list_omap]. rewrite <- !app_assoc. cbn [app]. rewrite token_after_digits by done.
    cbn [mbind option_bind]. rewrite colon_splits_skip by by apply digits_no_colon. rewrite <- app_assoc. cbn [app]. by rewrite <- app_assoc. }
  rewrite IH; [done|]. rewrite !length_app in Hf. lia.
Qed.
(** The positions of a line, whatever the loop skips, are the citations its colons stand in. *)
Lemma positions_exact line : positions line = Some (omap token (colon_splits [] line)).
Proof. apply positions_loop_spec. lia. Qed.

(** First occurrences, in order. *)
Definition firsts {A} `{EqDecision A} (l : list A) : list A := foldl (fun seen x => if bool_decide (x ∈ seen) then seen else seen ++ [x]) [] l.
Lemma firsts_snoc {A} `{EqDecision A} (l : list A) x : firsts (l ++ [x]) = if bool_decide (x ∈ firsts l) then firsts l else firsts l ++ [x].
Proof. unfold firsts. by rewrite foldl_snoc. Qed.
Lemma elem_of_firsts {A} `{EqDecision A} (l : list A) x : x ∈ firsts l <-> x ∈ l.
Proof.
  induction l as [|y l IH] using rev_ind; [done|]. rewrite firsts_snoc, elem_of_app, list_elem_of_singleton. case_bool_decide as Hy.
  - rewrite IH. split; [auto|]. intros [Hx| ->]; [done|]. by apply IH.
  - by rewrite elem_of_app, list_elem_of_singleton, IH.
Qed.
Lemma NoDup_firsts {A} `{EqDecision A} (l : list A) : NoDup (firsts l).
Proof.
  induction l as [|y l IH] using rev_ind; [constructor|]. rewrite firsts_snoc. case_bool_decide as Hy; [done|]. apply NoDup_app. split_and!; [done| |apply NoDup_singleton].
  intros x Hx ->%list_elem_of_singleton. done.
Qed.
Lemma firsts_known {A} `{EqDecision A} (l : list A) x : x ∈ l -> firsts (l ++ [x]) = firsts l.
Proof. intros Hx. rewrite firsts_snoc. rewrite bool_decide_eq_true_2; [done|]. by apply elem_of_firsts. Qed.

(** What a line says: the file or group it opens, and the places it cites in the group it stands in. *)
Definition opens (line : str) : option str :=
  let trimmed := trim line in
  match heading_path trimmed with Some path => Some path | None => if is_source_path trimmed then Some trimmed else None end.
Definition grouped_citation (group : option str) (line : str) : option Citation :=
  match opens line, grouped_line (trim line), group with None, Some n, Some path => Some (mkCitation path n None) | _, _, _ => None end.
Definition citations_of (group : option str) (line : str) : list Citation := option_list (grouped_citation group line) ++ omap token (colon_splits [] line).
(** The group a line stands in: the last one opened above it. *)
Definition group_below (above : list str) : option str := last (omap opens above).
Definition on_lines {A} (f : option str -> str -> list A) (ls : list str) : list A := concat (imap (fun i line => f (group_below (take i ls)) line) ls).
Definition cited (ls : list str) : list Citation := on_lines citations_of ls.
Definition marked (ls : list str) : list str := omap (fun line => trim <$> strip_prefix (trim line) INDEX_MARKER) ls.
(** The files in the order introduced: those opened, and those of the citations kept. *)
Definition introduced (kept : list Citation) (ls : list str) : list str :=
  on_lines (fun group line => option_list (opens line) ++ (ci_path <$> filter (fun c => c ∈ kept) (citations_of group line))) ls.

Lemma on_lines_snoc {A} (f : option str -> str -> list A) ls line : on_lines f (ls ++ [line]) = on_lines f ls ++ f (group_below ls) line.
Proof.
  unfold on_lines. rewrite imap_app, concat_app. cbn [imap concat]. rewrite app_nil_r, Nat.add_0_r. f_equal; [|by rewrite take_app_length].
  f_equal. apply imap_ext. intros i x Hi. rewrite take_app_le; [done|]. apply lookup_lt_Some in Hi. lia.
Qed.
Lemma group_below_snoc ls line : group_below (ls ++ [line]) = match opens line with Some path => Some path | None => group_below ls end.
Proof. unfold group_below. rewrite omap_app. cbn [omap list_omap]. destruct (opens line) as [path|]; [by rewrite last_snoc|by rewrite app_nil_r]. Qed.

(** What the scan has found after citing [cs] and noting [fs] among them, in [events]. *)
Inductive Event := Noted (path : str) | Cites (c : Citation).
Definition apply_event (s : Scan) (e : Event) : Scan := match e with Noted path => note_file s path | Cites c => cite s c end.
Definition cites (es : list Event) : list Citation := omap (fun e => match e with Cites c => Some c | Noted _ => None end) es.
Definition files_of (kept : list Citation) (es : list Event) : list str :=
  omap (fun e => match e with Noted path => Some path | Cites c => if bool_decide (c ∈ kept) then Some (ci_path c) else None end) es.
Record scanned (index : option str) (es : list Event) (s : Scan) : Prop := {
  scanned_index : sc_index s = index;
  scanned_citations : sc_citations s = take MAX_CITATIONS (firsts (cites es));
  scanned_omitted : sc_omitted s = length (filter (fun c => c ∉ sc_citations s) (cites es));
  scanned_files : sc_files s = firsts (files_of (sc_citations s) es) }.
Lemma scanned_default : scanned None [] scan_default.
Proof. by split. Qed.
Lemma cites_snoc es e : cites (es ++ [e]) = cites es ++ match e with Cites c => [c] | Noted _ => [] end.
Proof. unfold cites. rewrite omap_app. by destruct e. Qed.
Lemma files_snoc kept es e : files_of kept (es ++ [e]) = files_of kept es ++ match e with Cites c => if bool_decide (c ∈ kept) then [ci_path c] else [] | Noted path => [path] end.
Proof. unfold files_of. rewrite omap_app. destruct e as [path|c]; cbn; [done|]. by case_bool_decide. Qed.
Lemma filter_in_iff {A} (P Q : A -> Prop) `{forall x, Decision (P x)} `{forall x, Decision (Q x)} (l : list A) :
  (forall x, x ∈ l -> P x <-> Q x) -> filter P l = filter Q l.
Proof.
  induction l as [|x l IH]; intros Hl; [done|]. rewrite !filter_cons. rewrite IH by (intros y Hy; apply Hl; by right).
  pose proof (Hl x ltac:(by left)). by repeat case_decide; try tauto.
Qed.
Lemma take_firsts_more {A} `{EqDecision A} n (l : list A) x : n <= length (firsts l) -> take n (firsts (l ++ [x])) = take n (firsts l).
Proof. intros Hn. rewrite firsts_snoc. case_bool_decide; [done|]. by rewrite take_app_le. Qed.
Lemma known_cite es c : c ∈ take MAX_CITATIONS (firsts (cites es)) -> c ∈ cites es.
Proof. intros Hc. apply elem_of_firsts. apply elem_of_take in Hc as (i & Hc & _). by eapply list_elem_of_lookup_2. Qed.
Lemma note_file_scanned index es s path : scanned index es s -> scanned index (es ++ [Noted path]) (note_file s path).
Proof.
  intros [Hi Hc Ho Hf]. unfold note_file. rewrite Hf. case_bool_decide as Hp; split; cbn [sc_index sc_citations sc_omitted sc_files]; rewrite ?cites_snoc, ?app_nil_r; try done.
  - rewrite files_snoc, Hf. symmetry. apply firsts_known. by apply elem_of_firsts.
  - rewrite files_snoc, firsts_snoc, bool_decide_eq_false_2 by done. done.
Qed.
Lemma cite_scanned index es s c : scanned index es s -> scanned index (es ++ [Cites c]) (cite s c).
Proof.
  intros [Hi Hc Ho Hf]. unfold cite. case_bool_decide as Hin.
  { assert (c ∈ cites es) as Hk by (apply known_cite; by rewrite <- Hc).
    split; rewrite ?cites_snoc, ?files_snoc; [done|by rewrite firsts_known| |].
    - rewrite filter_app, filter_cons_False, filter_nil, app_nil_r by auto. done.
    - rewrite bool_decide_eq_true_2 by done. rewrite Hf. symmetry. apply firsts_known. unfold files_of, cites in *. apply list_elem_of_omap.
      apply list_elem_of_omap in Hk as ([path|c'] & Hc' & [= ->]). exists (Cites c). split; [done|]. by rewrite bool_decide_eq_true_2. }
  destruct (Nat.eqb_spec (length (sc_citations s)) MAX_CITATIONS) as [Hfull|Hroom].
  - assert (MAX_CITATIONS <= length (firsts (cites es))) as Hl by (rewrite Hc, length_take in Hfull; lia).
    split; cbn [sc_index sc_citations sc_omitted sc_files]; rewrite ?cites_snoc, ?files_snoc; [done|by rewrite take_firsts_more| |].
    + rewrite filter_app, length_app, filter_cons_True, filter_nil by done. cbn. lia.
    + by rewrite bool_decide_eq_false_2, app_nil_r.
  - assert (length (firsts (cites es)) < MAX_CITATIONS) as Hl by (rewrite Hc, length_take in Hroom; lia).
    assert (sc_citations s = firsts (cites es)) as Hall by (rewrite Hc, take_ge by lia; done).
    assert (c ∉ cites es) as Hn by (intros Hk; apply Hin; rewrite Hall; by apply elem_of_firsts).
    destruct (note_file_scanned index es s (ci_path c)) as [Hi' Hc' Ho' Hf']; [by split|].
    assert (sc_citations (note_file s (ci_path c)) = sc_citations s) as En by (unfold note_file; by case_bool_decide).
    split; cbn [sc_index sc_citations sc_omitted sc_files]; rewrite ?cites_snoc, ?files_snoc, ?En; [done| | |].
    + rewrite firsts_snoc, bool_decide_eq_false_2 by by rewrite elem_of_firsts. rewrite Hall, take_ge; [done|]. rewrite length_app. cbn. lia.
    + rewrite Ho', En, cites_snoc, app_nil_r. rewrite filter_app, filter_cons_False, filter_nil, app_nil_r by (intros Hx; apply Hx, elem_of_app; right; by left).
      f_equal. apply filter_in_iff. intros x Hx. rewrite elem_of_app, list_elem_of_singleton. split; [|naive_solver]. intros Hns [Hs| ->]; done.
    + rewrite bool_decide_eq_true_2 by (apply elem_of_app; right; by left). rewrite Hf', En, files_snoc. do 2 f_equal. unfold files_of.
      unfold cites in Hn. clear -Hn. induction es as [|e es IH]; [done|]. cbn [omap list_omap] in *. destruct e as [path|c'].
      * by rewrite IH.
      * apply not_elem_of_cons in Hn as [Hne Hn]. rewrite IH by done. cbn [option_list]. erewrite bool_decide_ext; [done|].
        rewrite elem_of_app, list_elem_of_singleton. split; [auto|]. by intros [Hx| ->].
Qed.
Lemma note_marker_scanned index es s line : scanned index es s ->
  scanned (match index with Some i => Some i | None => trim <$> strip_prefix (trim line) INDEX_MARKER end) es (note_marker s (trim line)).
Proof.
  intros [Hi Hc Ho Hf]. unfold note_marker. rewrite Hi. destruct (strip_prefix (trim line) INDEX_MARKER) as [marker|], index as [i|]; cbn [fmap option_fmap option_map]; by split.
Qed.
Definition line_events (group : option str) (line : str) : list Event := (Noted <$> option_list (opens line)) ++ (Cites <$> citations_of group line).
Lemma scan_line_events s group line :
  scan_line (s, group) line = Some (foldl apply_event (note_marker s (trim line)) (line_events group line), match opens line with Some path => Some path | None => group end).
Proof.
  unfold scan_line, line_events, citations_of, grouped_citation, opens. rewrite positions_exact. set (s1 := note_marker s (trim line)). set (found := omap token _).
  assert (forall s2, foldl cite s2 found = foldl apply_event s2 (Cites <$> found)) as Hfound by (intros s2; by rewrite foldl_fmap).
  destruct (heading_path (trim line)) as [path|]; cbn [mbind option_bind option_list]; [by rewrite Hfound|].
  destruct (is_source_path (trim line)); cbn [option_list]; [by rewrite Hfound|].
  destruct (grouped_line (trim line)) as [n|]; [destruct group as [path|]|]; cbn [option_list app fmap list_fmap foldl apply_event]; by rewrite Hfound.
Qed.
Lemma events_scanned es : forall index done_ s, scanned index done_ s -> scanned index (done_ ++ es) (foldl apply_event s es).
Proof.
  induction es as [|e es IH]; intros index done_ s Hs; [by rewrite app_nil_r|]. cbn [foldl]. change (e :: es) with ([e] ++ es). rewrite app_assoc. apply IH.
  destruct e; [by apply note_file_scanned|by apply cite_scanned].
Qed.
Lemma marked_snoc ls line : head (marked (ls ++ [line])) = match head (marked ls) with Some i => Some i | None => trim <$> strip_prefix (trim line) INDEX_MARKER end.
Proof. unfold marked. rewrite omap_app. destruct (omap _ ls); [|done]. cbn. by destruct (strip_prefix _ _). Qed.
Lemma scan_lines_scanned rest : forall above s, scanned (head (marked above)) (on_lines line_events above) s ->
  exists s', scan_lines (s, group_below above) rest = Some (s', group_below (above ++ rest)) /\ scanned (head (marked (above ++ rest))) (on_lines line_events (above ++ rest)) s'.
Proof.
  induction rest as [|line rest IH]; intros above s Hs; [exists s; by rewrite app_nil_r|]. cbn [scan_lines]. rewrite scan_line_events. cbn [mbind option_bind].
  rewrite <- group_below_snoc. destruct (IH (above ++ [line]) (foldl apply_event (note_marker s (trim line)) (line_events (group_below above) line))) as (s' & E & Hs').
  - rewrite marked_snoc, on_lines_snoc. apply events_scanned. by apply note_marker_scanned.
  - rewrite <- app_assoc in E, Hs'. by exists s'.
Qed.
Lemma cites_lines ls : cites (on_lines line_events ls) = cited ls.
Proof.
  induction ls as [|line ls IH] using rev_ind; [done|]. unfold cited in *. rewrite !on_lines_snoc, <- IH. unfold cites, line_events. rewrite !omap_app. f_equal.
  replace (omap _ (Noted <$> option_list (opens line))) with (@nil Citation) by (by destruct (opens line)). rewrite app_nil_l.
  induction (citations_of (group_below ls) line) as [|c cs IHc]; [done|]. csimpl. by rewrite IHc.
Qed.
Lemma files_lines kept ls : files_of kept (on_lines line_events ls) = introduced kept ls.
Proof.
  induction ls as [|line ls IH] using rev_ind; [done|]. unfold introduced in *. rewrite !on_lines_snoc, <- IH. unfold files_of, line_events. rewrite !omap_app. f_equal. f_equal.
  - by destruct (opens line).
  - induction (citations_of (group_below ls) line) as [|c cs IHc]; [done|]. csimpl. rewrite filter_cons, IHc. case_bool_decide as Hc; by case_decide.
Qed.
Lemma scan_of_scanned text : exists s, scan_of text = Some s /\ scanned (head (marked (lines text))) (on_lines line_events (lines text)) s.
Proof.
  destruct (scan_lines_scanned (lines text) [] scan_default scanned_default) as (s & E & Hs). exists s. unfold scan_of.
  change (scan_default, None) with (scan_default, group_below []). by rewrite E.
Qed.

(** ** The usages of a trace *)

Local Abbreviation num n := (dec (N.of_nat n)).
Definition usage_line (r : Reference_) : str := lit "- " ++ dec (r_line r) ++ from_option (fun e => lit " in " ++ neutralize (e_qualified_name e)) [] (r_enclosing r).
Definition more_line (omitted : nat) : list str := if 0 <? omitted then [lit "- ... " ++ num omitted ++ lit " more"] else [].
Definition group_lines (g : ReferenceGroup) : list str := [] :: neutralize (g_path g) :: (usage_line <$> g_references g) ++ more_line (g_omitted g).
Lemma append_usage_lines g : append_usage_group g = concat ((fun line => line ++ nl) <$> group_lines g).
Proof.
  unfold append_usage_group, group_lines, more_line. csimpl. rewrite fmap_app, concat_app, <- app_assoc. do 3 f_equal.
  f_equal; [|by destruct (0 <? g_omitted g); cbn; rewrite ?app_nil_r, <- ?app_assoc].
  induction (g_references g) as [|r rs IH]; [done|]. csimpl. rewrite IH. f_equal. unfold usage_line. by rewrite <- !app_assoc.
Qed.
Lemma safe_no_control s c : all_safe s -> is_unsafe_in_output c = true -> c ∉ s.
Proof. intros Hs Hc Hin. unfold all_safe in Hs. rewrite Forall_forall in Hs. rewrite (Hs _ Hin) in Hc. done. Qed.
Lemma strip_cr_safe s : all_safe s -> strip_cr s = s.
Proof.
  intros Hs. unfold strip_cr. destruct (last s) as [c|] eqn:E; [|done]. destruct (N.eqb_spec c 13) as [->|]; [|done].
  exfalso. apply (safe_no_control s 13%N Hs); [done|]. apply last_Some in E as [l ->]. apply elem_of_app. right. by left.
Qed.
(** Lines that end in a line feed are read back. *)
Lemma lines_terminated ls : Forall all_safe ls -> lines (concat ((fun line => line ++ nl) <$> ls)) = ls.
Proof.
  intros Hs. unfold lines. assert (split_char 10%N (concat ((fun line => line ++ nl) <$> ls)) = ls ++ [[]]) as ->.
  { induction Hs as [|l ls Hl _ IH]; [done|]. csimpl. unfold nl in *. rewrite <- app_assoc. cbn [app]. rewrite split_char_app by (by apply safe_no_control). by rewrite IH. }
  rewrite length_app, Nat.add_sub, take_app_length, drop_app_length. cbn [filter]. rewrite app_nil_r.
  induction Hs as [|l ls Hl _ IH]; [done|]. csimpl. by rewrite strip_cr_safe, IH.
Qed.

(** A usage group the index can spell: its path looks like one, its lines are [u32], the names it prints have no colon. *)
Definition citable_usage (r : Reference_) : Prop :=
  (r_line r <= u32_max)%N /\ match r_enclosing r with Some e => ch ":" ∉ e_qualified_name e /\ trim_end (neutralize (e_qualified_name e)) <> [] | None => True end.
Definition citable (g : ReferenceGroup) : Prop := is_source_path (g_path g) = true /\ Forall citable_usage (g_references g).

Lemma path_chars path : is_source_path path = true -> Forall (fun c => is_path_character c = true) path.
Proof.
  unfold is_source_path. rewrite !andb_true_iff. intros [[_ Hf] _]. rewrite forallb_forall in Hf. apply Forall_forall. intros c Hc. by apply Hf, list_elem_of_In.
Qed.
Lemma path_char_range c : is_path_character c = true -> (43 <= c < 127)%N /\ c <> ch ":".
Proof.
  unfold is_path_character, ascii_alphabetic, ascii_digit. intros [[Hc|Hc]%orb_true_iff|Hc]%orb_true_iff.
  - apply orb_true_iff in Hc as [[H1%N.leb_le H2%N.leb_le]%andb_true_iff|[H1%N.leb_le H2%N.leb_le]%andb_true_iff]; (split; [lia|change (ch ":") with 58%N; lia]).
  - apply andb_true_iff in Hc as [H1%N.leb_le H2%N.leb_le]. split; [lia|change (ch ":") with 58%N; lia].
  - apply bool_decide_eq_true in Hc. repeat (apply elem_of_cons in Hc as [->|Hc]; [by split|]). by apply elem_of_nil in Hc.
Qed.
Lemma plain_no_whitespace c : (33 <= c < 127)%N -> is_whitespace c = false.
Proof.
  intros Hc. unfold is_whitespace. rewrite !orb_false_iff, !andb_false_iff, bool_decide_eq_false. rewrite !N.leb_gt. split_and!; [right; lia| |left; lia].
  intros Hin. repeat (apply elem_of_cons in Hin as [->|Hin]; [lia|]). by apply elem_of_nil in Hin.
Qed.
Lemma path_trim path : is_source_path path = true -> trim path = path /\ neutralize path = path /\ ch ":" ∉ path /\ all_safe path.
Proof.
  intros Hp%path_chars. assert (all_safe path) as Hs by (eapply Forall_impl; [exact Hp|]; intros c [Hr _]%path_char_range; apply printable_ascii_safe; lia).
  split_and!; [|by apply neutralize_id| |done].
  - apply trim_id. eapply Forall_impl; [exact Hp|]. intros c [Hr _]%path_char_range. apply plain_no_whitespace. lia.
  - intros Hin. rewrite Forall_forall in Hp. by apply Hp, path_char_range in Hin as [_ Hne].
Qed.
Lemma path_opens path : is_source_path path = true -> opens path = Some path.
Proof.
  intros Hp. destruct (path_trim path Hp) as (Ht & _). unfold opens. rewrite Ht, Hp. unfold heading_path. rewrite strip_prefix_spec.
  destruct (starts_with path HEADING) eqn:Eh; [|done]. exfalso. apply path_chars in Hp. destruct path as [|c path]; [done|]. cbn in Eh.
  apply Forall_cons in Hp as [[Hc _]%path_char_range _]. destruct c as [|p]; [lia|]. repeat (destruct p as [p|p|]; try discriminate Eh; try lia).
Qed.

Lemma neutralize_no_colon s : ch ":" ∉ s -> ch ":" ∉ neutralize s.
Proof.
  intros Hs Hin. rewrite neutralize_map in Hin. apply list_elem_of_In, in_concat in Hin as (piece & Hp & Hin). apply list_elem_of_In in Hp, Hin.
  apply list_elem_of_fmap in Hp as (c & -> & Hc). destruct (is_unsafe_in_output c); [|by apply list_elem_of_singleton in Hin as <-].
  unfold unsafe_marker, hex4 in Hin. rewrite !elem_of_app in Hin.
  destruct Hin as [Hin|[[Hin|Hin]|Hin]]; [revert Hin; apply (bool_decide_unpack _); by vm_compute| | |revert Hin; apply (bool_decide_unpack _); by vm_compute].
  - apply elem_of_replicate in Hin as [Hin _]. done.
  - assert (forall fuel n acc, ch ":" ∉ acc -> ch ":" ∉ digits_fuel fuel 16 n acc) as Hd; [|apply Hd in Hin; [done|apply not_elem_of_nil]].
    clear. induction fuel as [|fuel IH]; intros n acc Hacc; [done|]. cbn [digits_fuel].
    assert (ch ":" ∉ digit_char (n mod 16) :: acc) as Hnext.
    { apply not_elem_of_cons. split; [|done]. unfold digit_char. change (ch ":") with 58%N. destruct (N.ltb_spec (n mod 16) 10); lia. }
    destruct (_ =? _)%N; [done|]. by apply IH.
Qed.
Lemma usage_line_safe r : all_safe (usage_line r).
Proof.
  unfold usage_line, all_safe. rewrite !Forall_app. split_and!; [by repeat constructor|apply (digits_fuel_safe _ 10 _ []); [lia|constructor]|].
  destruct (r_enclosing r); [|constructor]. cbn [from_option]. apply Forall_app. split; [by repeat constructor|apply neutralize_all_safe].
Qed.
Lemma usage_line_no_colon r : citable_usage r -> ch ":" ∉ usage_line r.
Proof.
  intros [_ Hr]. unfold usage_line. rewrite !elem_of_app. intros [Hin|[Hin|Hin]]; [revert Hin; apply (bool_decide_unpack _); by vm_compute|by apply digits_free in Hin|].
  destruct (r_enclosing r) as [e|]; [|by apply elem_of_nil in Hin]. destruct Hr as [Hr _]. cbn [from_option] in Hin. apply elem_of_app in Hin as [Hin|Hin].
  - revert Hin. apply (bool_decide_unpack _). by vm_compute.
  - by apply neutralize_no_colon in Hin.
Qed.
(** A usage row cites its line in the group it stands in, and opens none. *)
Lemma dec_number n tail : (n <= u32_max)%N -> match tail with c :: _ => ascii_digit c = false | [] => True end -> number_at (dec n ++ tail) = Some (n, tail).
Proof.
  intros Hn Ht. destruct (dec_digits n) as [Hd Hl]. unfold number_at. rewrite take_while_all by done.
  rewrite bool_decide_eq_false_2 by (intros E; rewrite E in Hl; cbn in Hl; lia). rewrite parse_dec by done. cbn. by rewrite drop_app_length.
Qed.
Lemma trim_end_keep (a b : str) : trim_end b <> [] -> trim_end (a ++ b) = a ++ trim_end b.
Proof.
  unfold trim_end. intros Hb. rewrite rev_app_distr, trim_start_app. destruct (trim_start (rev b)) as [|c s]; [done|]. by rewrite rev_app_distr, rev_involutive.
Qed.
Lemma space_no_path s : ch " " ∈ s -> is_source_path s = false.
Proof.
  intros Hin. destruct (is_source_path s) eqn:E; [|done]. apply path_chars in E. rewrite Forall_forall in E. by apply E in Hin.
Qed.
(** A bullet opens nothing. *)
Lemma bullet_opens s tail : trim s = lit "- " ++ tail -> opens s = None.
Proof.
  intros E. unfold opens. rewrite E. unfold heading_path. change (strip_prefix (lit "- " ++ tail) HEADING) with (@None str). cbn [mbind option_bind]. rewrite (space_no_path (lit "- " ++ tail)); [done|]. right. by left.
Qed.
Lemma trimmed_usage r : citable_usage r ->
  exists tail, trim (usage_line r) = lit "- " ++ dec (r_line r) ++ tail /\ (tail = [] \/ exists name, tail = lit " in " ++ name).
Proof.
  intros [_ Hr]. unfold trim. change (trim_start (usage_line r)) with (usage_line r). unfold usage_line.
  destruct (r_enclosing r) as [e|]; cbn [from_option].
  - destruct Hr as [_ Hr]. exists (lit " in " ++ trim_end (neutralize (e_qualified_name e))). split; [|right; by eexists].
    assert (trim_end (lit " in " ++ neutralize (e_qualified_name e)) = lit " in " ++ trim_end (neutralize (e_qualified_name e))) as E by by apply trim_end_keep.
    rewrite (app_assoc (lit "- ")), trim_end_keep; rewrite E; [by rewrite <- app_assoc|done].
  - exists []. split; [|by left]. rewrite !app_nil_r. destruct (dec_digits (r_line r)) as [Hd Hl]. destruct (dec (r_line r)) as [|d ds] using rev_ind; [cbn in Hl; lia|].
    apply Forall_app in Hd as [_ Hd]. apply Forall_cons in Hd as [Hd _]. rewrite (app_assoc (lit "- ")). rewrite trim_end_snoc; [done|]. apply plain_no_whitespace.
    unfold ascii_digit in Hd. apply andb_true_iff in Hd as [H1%N.leb_le H2%N.leb_le]. lia.
Qed.
Lemma usage_cites path r : citable_usage r -> opens (usage_line r) = None /\ citations_of (Some path) (usage_line r) = [mkCitation path (r_line r) None].
Proof.
  intros Hr. destruct (trimmed_usage r Hr) as (tail & E & Ht). pose proof (bullet_opens _ _ E) as Ho. split; [done|].
  unfold citations_of, grouped_citation. rewrite Ho, no_colon_splits by by apply usage_line_no_colon. rewrite E. unfold grouped_line.
  unfold BULLET. rewrite strip_prefix_app. cbn [mbind option_bind]. destruct Hr as [Hn _].
  rewrite dec_number; [|done|destruct Ht as [->|[name ->]]; [exact I|reflexivity]]. cbn [mbind option_bind]. destruct Ht as [->|[name ->]]; [reflexivity|].
  change (trim_start (lit " in " ++ name)) with (lit "in " ++ name). rewrite bool_decide_eq_false_2 by done. by rewrite (proj2 (starts_with_spec (lit "in " ++ name) (lit "in "))) by by exists name.
Qed.
Lemma more_cites path omitted line : line ∈ more_line omitted -> opens line = None /\ citations_of (Some path) line = [] /\ all_safe line.
Proof.
  unfold more_line. destruct (0 <? omitted); [|by intros ?%elem_of_nil]. intros ->%list_elem_of_singleton.
  assert (trim (lit "- ... " ++ num omitted ++ lit " more") = lit "- " ++ ch "." :: trim_end (lit ".. " ++ num omitted ++ lit " more")) as E.
  { unfold trim. change (trim_start (lit "- ... " ++ ?s)) with (lit "- ... " ++ s). change (lit "- ... " ++ ?s) with (lit "- " ++ ch "." :: (lit ".. " ++ s)). by rewrite trim_end_snoc. }
  pose proof (bullet_opens _ _ E) as Ho. split_and!; [done| |].
  - unfold citations_of, grouped_citation. rewrite Ho, E. rewrite no_colon_splits; [done|]. rewrite !elem_of_app.
    intros [Hin|[Hin|Hin]]; [revert Hin; apply (bool_decide_unpack _); by vm_compute|by apply digits_free in Hin|revert Hin; apply (bool_decide_unpack _); by vm_compute].
  - unfold all_safe. rewrite !Forall_app. split_and!; [by repeat constructor|apply (digits_fuel_safe _ 10 _ []); [lia|constructor]|by repeat constructor].
Qed.

(** Reading on from a group. *)
Fixpoint lines_from {A} (group : option str) (f : option str -> str -> list A) (ls : list str) : list A :=
  match ls with [] => [] | line :: ls => f group line ++ lines_from (match opens line with Some path => Some path | None => group end) f ls end.
Lemma on_lines_app {A} (f : option str -> str -> list A) rest : forall above, on_lines f (above ++ rest) = on_lines f above ++ lines_from (group_below above) f rest.
Proof.
  induction rest as [|line rest IH]; intros above; [by rewrite !app_nil_r|]. cbn [lines_from]. rewrite <- group_below_snoc, app_assoc, <- on_lines_snoc, <- IH.
  by rewrite <- app_assoc.
Qed.
Lemma on_lines_start {A} (f : option str -> str -> list A) ls : on_lines f ls = lines_from None f ls.
Proof. exact (on_lines_app f ls []). Qed.

Definition usage_sites (g : ReferenceGroup) : list Citation := (fun r => mkCitation (g_path g) (r_line r) None) <$> g_references g.
(** A function of lines that sees only what they open and cite reads a group as its path and its rows. *)
Lemma lines_from_group {A} (f : option str -> str -> list A) (opened : str -> list A) (row : Citation -> list A) :
  (forall group path, is_source_path path = true -> f group path = opened path) ->
  (forall path line cs, opens line = None -> citations_of (Some path) line = cs -> f (Some path) line = concat (row <$> cs)) ->
  (forall group, f group [] = []) ->
  forall g group rest, citable g ->
  lines_from group f (group_lines g ++ rest) = opened (g_path g) ++ concat (row <$> usage_sites g) ++ lines_from (Some (g_path g)) f rest.
Proof.
  intros Hopen Hrow Hnil g group rest [Hp Hr]. destruct (path_trim _ Hp) as (_ & En & _). unfold group_lines. rewrite En. cbn [app lines_from]. rewrite Hnil, (path_opens _ Hp), (Hopen _ _ Hp).
  cbn [app]. f_equal. rewrite <- app_assoc. unfold usage_sites. induction Hr as [|r rs Hr _ IH].
  - cbn [fmap list_fmap app concat]. destruct (more_line (g_omitted g)) as [|line more] eqn:E; [done|]. assert (more = []) as -> by (unfold more_line in E; by destruct (0 <? g_omitted g); simplify_eq).
    destruct (more_cites (g_path g) (g_omitted g) line) as (Ho & Hc & _); [rewrite E; by left|]. cbn [app lines_from]. by rewrite Ho, (Hrow _ _ _ Ho Hc).
  - destruct (usage_cites (g_path g) r Hr) as [Ho Hc]. csimpl. rewrite Ho, (Hrow _ _ _ Ho Hc), IH. csimpl. rewrite app_nil_r. by rewrite app_assoc.
Qed.
Lemma lines_from_groups {A} (f : option str -> str -> list A) opened row :
  (forall group path, is_source_path path = true -> f group path = opened path) ->
  (forall path line cs, opens line = None -> citations_of (Some path) line = cs -> f (Some path) line = concat (row <$> cs)) ->
  (forall group, f group [] = []) ->
  forall groups group, Forall citable groups ->
  lines_from group f (concat (group_lines <$> groups)) = concat ((fun g => opened (g_path g) ++ concat (row <$> usage_sites g)) <$> groups).
Proof.
  intros Hopen Hrow Hnil groups. induction groups as [|g groups IH]; intros group Hg; [done|]. apply Forall_cons in Hg as [Hg Hgs]. cbn [fmap list_fmap concat].
  rewrite (lines_from_group f opened row) by done. rewrite IH by done. by rewrite app_assoc.
Qed.
Lemma usages_lines groups : Forall citable groups -> lines (concat (append_usage_group <$> groups)) = concat (group_lines <$> groups).
Proof.
  intros Hg. rewrite <- (lines_terminated (concat (group_lines <$> groups))).
  - f_equal. clear Hg. induction groups as [|g groups IH]; [done|]. cbn [fmap list_fmap concat]. rewrite fmap_app, concat_app, <- IH. by rewrite append_usage_lines.
  - induction Hg as [|g groups [Hp _] _ IH]; [constructor|]. cbn [fmap list_fmap concat]. apply Forall_app. split; [|exact IH]. unfold group_lines. repeat constructor; [apply neutralize_all_safe|].
    apply Forall_app. split; [|apply Forall_forall; intros line Hl; by apply (more_cites [] (g_omitted g))]. apply Forall_forall. intros line (r & -> & _)%list_elem_of_fmap. apply usage_line_safe.
Qed.

Lemma firsts_app_known {A} `{EqDecision A} (l b : list A) : (forall y, y ∈ b -> y ∈ l) -> firsts (l ++ b) = firsts l.
Proof.
  induction b as [|y b IH] using rev_ind; intros Hb; [by rewrite app_nil_r|]. rewrite app_assoc, firsts_known.
  - apply IH. intros z Hz. apply Hb, elem_of_app. by left.
  - apply elem_of_app. left. apply Hb, elem_of_app. right. by left.
Qed.
Lemma firsts_blocks {A B} `{EqDecision A} (key : B -> A) (copies : B -> list A) (l : list B) : (forall b y, y ∈ copies b -> y = key b) ->
  firsts (concat ((fun b => key b :: copies b) <$> l)) = firsts (key <$> l).
Proof.
  intros Hc. induction l as [|b l IH] using rev_ind; [done|]. rewrite !fmap_app, concat_app. cbn [fmap list_fmap concat]. rewrite app_nil_r.
  change (key b :: copies b) with ([key b] ++ copies b). rewrite app_assoc, firsts_app_known.
  - by rewrite !firsts_snoc, IH.
  - intros y Hy. apply Hc in Hy as ->. apply elem_of_app. right. by left.
Qed.

(** ** What a line cites, said of the text alone *)

Definition path_char (c : char) : Prop := (48 <= c <= 57)%N \/ (65 <= c <= 90)%N \/ (97 <= c <= 122)%N \/ c ∈ lit "._/-+~".
(** A name of a Kotlin file in the characters the index takes for a path's. *)
Definition kotlin_path (path : str) : Prop :=
  Forall path_char path /\ exists stem suffix, path = stem ++ suffix /\ stem <> [] /\ (suffix = lit ".kt" \/ suffix = lit ".kts").
Definition digit (c : char) : Prop := (48 <= c <= 57)%N.
(** A text that goes on with the number [n], all its digits, of 32 bits, and then with [tail]. *)
Definition reads_number (s : str) (n : N) (tail : str) : Prop :=
  exists digits, s = digits ++ tail /\ digits <> [] /\ Forall digit digits /\ (forall c rest, tail = c :: rest -> ~ digit c) /\
    foldl (fun v d => v * 10 + (d - 48))%N 0%N digits = n /\ (n < 2 ^ 32)%N.
(** A line opens the file it consists of, or the one it is a heading of. *)
Definition opens_file (line path : str) : Prop :=
  kotlin_path path /\ (trim line = path \/ exists rest, trim line = lit "## " ++ rest /\ trim rest = path).
(** The file a line stands under: the last one opened above it. *)
Definition stands_under (above : list str) (path : str) : Prop :=
  exists i line, above !! i = Some line /\ opens_file line path /\ forall j later p, i < j -> above !! j = Some later -> ~ opens_file later p.
(** A bullet that is a line number, with nothing after it or where it is. *)
Definition bullet_of (line : str) (n : N) : Prop :=
  exists rest tail, trim line = lit "- " ++ rest /\ reads_number rest n tail /\ (trim_start tail = [] \/ exists name, trim_start tail = lit "in " ++ name).
(** A colon at [i] with a whole run of path characters before it that names a file, and a number after it, and the column
    that follows as the number does. *)
Definition reads_column (tail : str) (column : option N) : Prop :=
  match column with
  | Some n => exists rest end_, tail = ch ":" :: rest /\ reads_number rest n end_
  | None => ~ exists rest n end_, tail = ch ":" :: rest /\ reads_number rest n end_
  end.
Definition token_at (line : str) (i : nat) (c : Citation) : Prop :=
  exists before after tail, line = before ++ ci_path c ++ ch ":" :: after /\ i = length before + length (ci_path c) /\
    kotlin_path (ci_path c) /\ (forall b d, before = b ++ [d] -> ~ path_char d) /\ reads_number after (ci_line c) tail /\ reads_column tail (ci_column c).
(** What a line cites, below the lines [above]: the place of its bullet, then its tokens from left to right. *)
Definition line_cites (above : list str) (line : str) (cs : list Citation) : Prop :=
  exists grouped placed, cs = option_list grouped ++ placed.*2 /\
    (forall c, grouped = Some c <-> exists path n, stands_under above path /\ bullet_of line n /\ c = mkCitation path n None) /\
    StronglySorted lt placed.*1 /\ forall i c, (i, c) ∈ placed <-> token_at line i c.

Lemma path_char_spec c : is_path_character c = true <-> path_char c.
Proof.
  unfold is_path_character, ascii_alphabetic, ascii_digit, path_char. change (lit "._/-+~") with [ch "."; ch "_"; ch "/"; ch "-"; ch "+"; ch "~"].
  rewrite !orb_true_iff, !andb_true_iff, !N.leb_le, bool_decide_eq_true. tauto.
Qed.
Lemma path_char_false c : is_path_character c = false <-> ~ path_char c.
Proof. rewrite <- path_char_spec. by destruct (is_path_character c). Qed.
Lemma digit_spec c : ascii_digit c = true <-> digit c.
Proof. unfold ascii_digit, digit. by rewrite andb_true_iff, !N.leb_le. Qed.
Lemma source_path_spec path : is_source_path path = true <-> kotlin_path path.
Proof.
  assert (forall suffix, (utf8_len suffix <? utf8_len path)%N && ends_with path suffix = true <-> exists stem, path = stem ++ suffix /\ stem <> []) as Hs.
  { intros suffix. rewrite andb_true_iff, N.ltb_lt, ends_with_spec. split.
    - intros [Hl [stem ->]]. exists stem. split; [done|]. intros ->. cbn [app] in Hl. lia.
    - intros (stem & -> & Hn). rewrite utf8_len_app. split; [|by exists stem]. destruct stem as [|c stem]; [done|]. cbn [utf8_len foldr]. unfold len_utf8. repeat case_match; lia. }
  unfold is_source_path, kotlin_path, KOTLIN_SUFFIXES. cbn [existsb]. rewrite !andb_true_iff, !orb_true_iff, !Hs, negb_true_iff, bool_decide_eq_false.
  assert (forallb is_path_character path = true <-> Forall path_char path) as ->.
  { rewrite forallb_forall, Forall_forall. split; intros Hp c Hc; apply path_char_spec, Hp; by apply list_elem_of_In. }
  split.
  - intros [[_ Hf] [(stem & E & Hn)|[(stem & E & Hn)|[=]]]]; (split; [done|]); eexists stem, _; eauto.
  - intros [Hf (stem & suffix & E & Hn & Hk)]. split; [split; [|done]|destruct Hk as [->| ->]; [left; eauto|right; left; eauto]].
    intros ->. by destruct stem.
Qed.
Lemma digits_parse limit ds : forall v, Forall digit ds -> (v <= limit)%N ->
  foldl (parse_step limit) (Some v) ds = (let n := foldl (fun v d => v * 10 + (d - 48))%N v ds in if (n <=? limit)%N then Some n else None).
Proof.
  assert (forall ds v, (v <= foldl (fun v d => v * 10 + (d - 48))%N v ds)%N) as Hmono.
  { clear. induction ds as [|d ds IH]; intros v; cbn [foldl]; [lia|]. etrans; [|apply IH]. lia. }
  induction ds as [|d ds IH]; intros v Hd Hv; cbn [foldl]; [by rewrite (proj2 (N.leb_le _ _) Hv)|]. apply Forall_cons in Hd as [Hc Hd]. cbn [parse_step mbind option_bind].
  rewrite (proj2 (digit_spec d) Hc). destruct (N.leb_spec (v * 10 + (d - 48)) limit) as [Hl|Hl]; [by apply IH|]. cbn zeta.
  assert (foldl (parse_step limit) None ds = None) as -> by (clear; by induction ds). pose proof (Hmono ds (v * 10 + (d - 48))%N).
  destruct (N.leb_spec (foldl (fun v d => v * 10 + (d - 48))%N (v * 10 + (d - 48))%N ds) limit); [lia|done].
Qed.
Lemma number_spec s n tail : number_at s = Some (n, tail) <-> reads_number s n tail.
Proof.
  assert (forall ds, ds <> [] -> Forall digit ds -> parse_unsigned u32_max ds = (let n := foldl (fun v d => v * 10 + (d - 48))%N 0%N ds in if (n <=? u32_max)%N then Some n else None)) as Hparse.
  { intros ds Hn Hd. rewrite <- digits_parse by (done || (unfold u32_max; lia)). unfold parse_unsigned. destruct ds as [|c [|d ds]]; [done|done|].
    apply Forall_cons in Hd as [Hc _]. unfold digit in Hc. destruct (N.eqb_spec c 43); [lia|done]. }
  unfold number_at, reads_number. destruct (take_while_app ascii_digit s) as (rest & E & Hf & Hr). set (digits := take_while ascii_digit s) in *.
  assert (Forall digit digits) as Hd by (eapply Forall_impl; [exact Hf|]; intros c; apply digit_spec).
  assert (drop (length digits) s = rest) as Hdrop by (rewrite E; apply drop_app_length). split.
  - case_bool_decide as Hn; [done|]. rewrite Hparse by done. cbn zeta. destruct (N.leb_spec (foldl (fun v d => v * 10 + (d - 48))%N 0%N digits) u32_max) as [Hl|Hl]; [|done].
    cbn. rewrite Hdrop. intros [= <- <-]. exists digits. split_and!; try done; [|unfold u32_max in Hl; lia]. intros c r ->. rewrite <- digit_spec. congruence.
  - intros (ds & Es & Hn & Hds & Htail & Hv & Hl). assert (digits = ds) as Edigits.
    { unfold digits. rewrite Es. apply take_while_all; [eapply Forall_impl; [exact Hds|]; intros c; apply digit_spec|]. destruct tail as [|c r]; [done|].
      apply not_true_iff_false. rewrite digit_spec. by eapply Htail. }
    rewrite Edigits, bool_decide_eq_false_2 by done. rewrite Hparse by done. cbn zeta. rewrite Hv. destruct (N.leb_spec n u32_max) as [_|Hbad]; [|unfold u32_max in Hbad; lia].
    cbn. by rewrite Es, drop_app_length.
Qed.
Lemma opens_spec line path : opens line = Some path <-> opens_file line path.
Proof.
  unfold opens, opens_file, heading_path. rewrite strip_prefix_spec. change HEADING with (lit "## "). split.
  - destruct (starts_with (trim line) (lit "## ")) eqn:Eh; cbn [mbind option_bind].
    + apply starts_with_spec in Eh as [rest E]. rewrite E, drop_app_length. destruct (is_source_path (trim rest)) eqn:Ep.
      * intros [= <-]. split; [by apply source_path_spec|]. right. by exists rest.
      * rewrite (space_no_path (lit "## " ++ rest)); [done|]. right. right. by left.
    + destruct (is_source_path (trim line)) eqn:Ep; [|done]. intros [= <-]. split; [by apply source_path_spec|by left].
  - intros [Hp [E|(rest & E & Er)]].
    + rewrite E. apply source_path_spec in Hp. destruct (starts_with path (lit "## ")) eqn:Eh; cbn [mbind option_bind]; [|by rewrite Hp].
      apply starts_with_spec in Eh as [rest ->]. rewrite space_no_path in Hp; [done|]. right. right. by left.
    + rewrite E, (proj2 (starts_with_spec _ _)) by by exists rest. cbn [mbind option_bind]. rewrite drop_app_length, Er. by rewrite (proj2 (source_path_spec path) Hp).
Qed.
Lemma under_spec above path : group_below above = Some path <-> stands_under above path.
Proof.
  induction above as [|line above IH] using rev_ind; [split; [done|by intros (i & l & Hi & _)]|]. rewrite group_below_snoc. unfold stands_under in *. destruct (opens line) as [p|] eqn:Eo.
  - apply opens_spec in Eo as Hp. split.
    + intros [= <-]. exists (length above), line. split; [by rewrite lookup_app_r, Nat.sub_diag|]. split; [done|]. intros j later q Hj Hl. apply lookup_lt_Some in Hl. rewrite length_app in Hl. cbn in Hl. lia.
    + intros (i & l & Hi & Ho & Hlater). destruct (decide (i < length above)) as [Hlt|Hge].
      * exfalso. apply (Hlater (length above) line p Hlt); [by rewrite lookup_app_r, Nat.sub_diag|done].
      * rewrite lookup_app_r in Hi by lia. assert (l = line) as -> by (destruct (i - length above) as [|k]; [by injection Hi|done]). apply opens_spec in Ho. congruence.
  - rewrite IH. split.
    + intros (i & l & Hi & Ho & Hlater). exists i, l. pose proof (lookup_lt_Some _ _ _ Hi). rewrite lookup_app_l by done. split; [done|]. split; [done|]. intros j later q Hj Hl.
      destruct (decide (j < length above)) as [Hlt|Hge]; [rewrite lookup_app_l in Hl by done; by eapply Hlater|]. rewrite lookup_app_r in Hl by lia.
      assert (later = line) as -> by (destruct (j - length above) as [|k]; [by injection Hl|done]). rewrite <- opens_spec. congruence.
    + intros (i & l & Hi & Ho & Hlater). destruct (decide (i < length above)) as [Hlt|Hge].
      * rewrite lookup_app_l in Hi by done. exists i, l. split; [done|]. split; [done|]. intros j later q Hj Hl. apply (Hlater j later q Hj). by apply lookup_app_l_Some.
      * rewrite lookup_app_r in Hi by lia. assert (l = line) as -> by (destruct (i - length above) as [|k]; [by injection Hi|done]). apply opens_spec in Ho. congruence.
Qed.
Lemma bullet_spec line n : grouped_line (trim line) = Some n <-> bullet_of line n.
Proof.
  unfold grouped_line, bullet_of. rewrite strip_prefix_spec. change BULLET with (lit "- "). destruct (starts_with (trim line) (lit "- ")) eqn:Eb; cbn [mbind option_bind].
  - apply starts_with_spec in Eb as [rest E]. rewrite E, drop_app_length. split.
    + destruct (number_at rest) as [[m tail]|] eqn:En; [|done]. cbn [mbind option_bind]. apply number_spec in En. destruct (bool_decide (trim_start tail = []) || starts_with (trim_start tail) (lit "in ")) eqn:Et; [|done].
      intros [= ->]. exists rest, tail. split; [done|]. split; [done|]. apply orb_true_iff in Et as [Et|Et]; [left; by apply bool_decide_eq_true in Et|right; apply starts_with_spec in Et as [name Et]; by exists name].
    + intros (rest' & tail & E' & Hn & Ht). apply (inj (app (lit "- "))) in E' as <-. apply number_spec in Hn as ->. cbn [mbind option_bind].
      destruct Ht as [->|[name ->]]; [done|]. rewrite (proj2 (starts_with_spec _ _)) by by exists name. by rewrite orb_true_r.
  - split; [done|]. intros (rest & tail & E & _). rewrite E in Eb. exfalso. apply not_true_iff_false in Eb. apply Eb, starts_with_spec. by exists rest.
Qed.
Lemma splits_spec rest : forall before a b, (a, b) ∈ colon_splits before rest <-> exists x, rest = x ++ ch ":" :: b /\ a = before ++ x.
Proof.
  induction rest as [|c rest IH]; intros before a b; cbn [colon_splits].
  - split; [by intros ?%elem_of_nil|]. intros ([|? ?] & [=] & _).
  - rewrite elem_of_app, IH. split.
    + intros [Hin|(x & -> & ->)]; [|exists (c :: x); by rewrite <- app_assoc]. destruct (N.eqb_spec c (ch ":")) as [->|]; [|by apply elem_of_nil in Hin].
      apply list_elem_of_singleton in Hin as [= -> ->]. exists []. by rewrite app_nil_r.
    + intros ([|d x] & E & ->); injection E as -> E; [left|right; exists x; by rewrite <- app_assoc]. subst rest. rewrite N.eqb_refl, app_nil_r. by left.
Qed.
Lemma splits_sorted rest : forall before, StronglySorted lt (length ∘ fst <$> colon_splits before rest) /\ Forall (le (length before)) (length ∘ fst <$> colon_splits before rest).
Proof.
  induction rest as [|c rest IH]; intros before; cbn [colon_splits]; [split; constructor|]. destruct (IH (before ++ [c])) as [Hs Hf]. rewrite length_app in Hf. cbn in Hf.
  assert (Forall (le (length before)) (length ∘ fst <$> colon_splits (before ++ [c]) rest)) as Hf' by (eapply Forall_impl; [exact Hf|]; cbn; lia).
  destruct (N.eqb_spec c (ch ":")); cbn [app]; [|done]. csimpl. split; [constructor; [done|]|constructor; [done|done]]. eapply Forall_impl; [exact Hf|]. cbn. lia.
Qed.
Lemma path_run_spec text run : path_run text = run <-> exists before, text = before ++ run /\ Forall path_char run /\ forall b d, before = b ++ [d] -> ~ path_char d.
Proof.
  assert (forall run, Forall (fun c => is_path_character c = true) run <-> Forall path_char run) as Hrun by (intros r; apply Forall_iff; intros c; apply path_char_spec).
  split.
  - intros <-. unfold path_run. destruct (take_while_app is_path_character (rev text)) as (rest & E & Hf & Hr). exists (rev rest). split; [|split].
    + rewrite <- rev_app_distr, <- E. by rewrite rev_involutive.
    + apply Hrun, Forall_rev. exact Hf.
    + intros b d Eb. apply path_char_false. assert (rest = d :: rev b) as -> by (rewrite <- (rev_involutive rest), Eb; by rewrite rev_app_distr). exact Hr.
  - intros (before & -> & Hf & Hb). apply Hrun in Hf. unfold path_run. rewrite rev_app_distr, take_while_all; [apply rev_involutive|by apply Forall_rev|].
    destruct before as [|d b _] using rev_ind; [done|]. rewrite rev_app_distr. cbn. apply path_char_false. by eapply Hb.
Qed.
Lemma column_spec tail column : (column_at tail).1 = column <-> reads_column tail column.
Proof.
  assert (forall rest n end_, number_at rest = Some (n, end_) <-> reads_number rest n end_) as Hn by (intros; apply number_spec). destruct tail as [|c rest]; cbn [column_at].
  - destruct column; cbn; [split; [done|by intros (? & ? & [=] & _)]|]. split; [intros _ (? & ? & ? & [=] & _)|done].
  - destruct (N.eqb_spec c (ch ":")) as [->|Hc].
    + destruct (number_at rest) as [[n end_]|] eqn:E; cbn [fst].
      * apply Hn in E as Hr. destruct column as [m|]; cbn [reads_column].
        -- split; [intros [= ->]; by exists rest, end_|]. intros (rest' & end' & [= <-] & Hr'). apply Hn in Hr'. congruence.
        -- split; [done|]. intros Hno. destruct Hno. by exists rest, n, end_.
      * destruct column as [m|]; cbn [reads_column]; [split; [done|]|split; [|done]].
        -- intros (rest' & end' & [= <-] & Hr'%Hn). congruence.
        -- intros _ (rest' & m & end' & [= <-] & Hr'%Hn). congruence.
    + cbn [fst]. destruct column as [m|]; cbn [reads_column]; [split; [done|by intros (? & ? & [= ] & _)]|split; [intros _ (? & ? & ? & [= ] & _); done|done]].
Qed.
Lemma token_spec before after c : token (before, after) = Some c <-> exists start tail, before = start ++ ci_path c /\ kotlin_path (ci_path c) /\
  (forall b d, start = b ++ [d] -> ~ path_char d) /\ reads_number after (ci_line c) tail /\ reads_column tail (ci_column c).
Proof.
  unfold token. cbn [fst snd]. destruct (number_at after) as [[n tail]|] eqn:En; cbn [mbind option_bind].
  - apply number_spec in En as Hn. split.
    + destruct (is_source_path (path_run before)) eqn:Ep; [|done]. intros [= <-]. cbn [ci_path ci_line ci_column]. destruct (proj1 (path_run_spec before _) eq_refl) as (start & E & _ & Hb).
      exists start, tail. split_and!; [done|by apply source_path_spec|done|done|by apply column_spec].
    + intros (start & tail' & E & Hp & Hb & Hr & Hc). apply number_spec in Hr. rewrite En in Hr. injection Hr as -> <-. apply column_spec in Hc. rewrite Hc.
      assert (path_run before = ci_path c) as -> by (apply path_run_spec; exists start; split_and!; [done|by destruct Hp|done]). rewrite (proj2 (source_path_spec _) Hp). by destruct c.
  - split; [done|]. intros (start & tail' & _ & _ & _ & Hr%number_spec & _). congruence.
Qed.
Definition placed_tokens (line : str) : list (nat * Citation) := omap (fun split => pair (length split.1) <$> token split) (colon_splits [] line).
Lemma placed_snd line : (placed_tokens line).*2 = omap token (colon_splits [] line).
Proof. unfold placed_tokens. induction (colon_splits [] line) as [|x xs IH]; [done|]. cbn [omap list_omap]. destruct (token x); csimpl; by rewrite IH. Qed.
Lemma placed_sorted line : StronglySorted lt (placed_tokens line).*1.
Proof.
  unfold placed_tokens. destruct (splits_sorted line []) as [Hs _]. induction (colon_splits [] line) as [|x xs IH]; [constructor|]. cbn [omap list_omap]. csimpl in Hs. apply StronglySorted_inv in Hs as [Hs Hf].
  destruct (token x) as [c|]; csimpl; [|by apply IH]. constructor; [by apply IH|]. apply Forall_forall. intros n Hn. rewrite Forall_forall in Hf. apply Hf.
  apply list_elem_of_fmap in Hn as ([k d] & -> & Hn). apply list_elem_of_omap in Hn as (y & Hy & E). destruct (token y); [|done]. injection E as <- _. apply list_elem_of_fmap. by exists y.
Qed.
Lemma placed_spec line i c : (i, c) ∈ placed_tokens line <-> token_at line i c.
Proof.
  unfold placed_tokens, token_at. rewrite list_elem_of_omap. split.
  - intros ([a b] & Hin & E). destruct (token (a, b)) as [d|] eqn:Et; [|done]. cbn in E. injection E as <- <-. apply splits_spec in Hin as (x & -> & ->). cbn [app] in *.
    apply token_spec in Et as (start & tail & -> & Hp & Hb & Hr & Hc). exists start, b, tail. rewrite <- app_assoc, length_app. done.
  - intros (start & after & tail & -> & -> & Hp & Hb & Hr & Hc). exists (start ++ ci_path c, after). split.
    + apply splits_spec. exists (start ++ ci_path c). split; [by rewrite <- app_assoc|done].
    + assert (token (start ++ ci_path c, after) = Some c) as -> by (apply token_spec; by exists start, tail). cbn. by rewrite length_app.
Qed.
Lemma cites_spec above line : line_cites above line (citations_of (group_below above) line).
Proof.
  exists (grouped_citation (group_below above) line), (placed_tokens line). split; [by rewrite placed_snd|]. split; [|split; [apply placed_sorted|apply placed_spec]].
  intros c. unfold grouped_citation. split.
  - destruct (opens line); [done|]. destruct (grouped_line (trim line)) as [n|] eqn:En; [|done]. destruct (group_below above) as [path|] eqn:Eg; [|done].
    intros [= <-]. exists path, n. by rewrite <- under_spec, <- bullet_spec.
  - intros (path & n & Hu%under_spec & Hb & ->). rewrite Hu, (proj2 (bullet_spec _ _) Hb). destruct Hb as (rest & tail & E & _). by rewrite (bullet_opens line rest E).
Qed.

Lemma marker_spec ls : match head (marked ls) with
  | Some marker => exists i line rest, ls !! i = Some line /\ trim line = lit "index: " ++ rest /\ marker = trim rest /\
      forall j earlier, j < i -> ls !! j = Some earlier -> ~ lit "index: " `prefix_of` trim earlier
  | None => forall i line, ls !! i = Some line -> ~ lit "index: " `prefix_of` trim line
  end.
Proof.
  induction ls as [|line ls IH] using rev_ind; [done|]. rewrite marked_snoc. destruct (head (marked ls)) as [marker|].
  - destruct IH as (i & l & rest & Hi & E & Em & Hn). pose proof (lookup_lt_Some _ _ _ Hi). exists i, l, rest. split; [by apply lookup_app_l_Some|]. split; [done|]. split; [done|].
    intros j earlier Hj Hl. rewrite lookup_app_l in Hl by lia. by eapply Hn.
  - rewrite strip_prefix_spec. change INDEX_MARKER with (lit "index: "). destruct (starts_with (trim line) (lit "index: ")) eqn:Es; cbn [fmap option_fmap option_map].
    + apply starts_with_spec in Es as [rest E]. exists (length ls), line, rest. split; [by rewrite lookup_app_r, Nat.sub_diag|]. split; [done|]. split; [by rewrite E, drop_app_length|].
      intros j earlier Hj Hl. rewrite lookup_app_l in Hl by done. by eapply IH.
    + intros i l Hi. destruct (decide (i < length ls)) as [Hlt|Hge]; [rewrite lookup_app_l in Hi by done; by eapply IH|].
      rewrite lookup_app_r in Hi by lia. assert (l = line) as -> by (destruct (i - length ls) as [|k]; [by injection Hi|done]). rewrite <- starts_with_spec. congruence.
Qed.

(** ** Properties *)

(** C36: The structured half of an answer indexes its text, for every text. Each line cites, in order, the place of its bullet
    under the file last opened above it, and then its tokens: a colon with a number of 32 bits after it, and before it a
    whole run of path characters that names a Kotlin file. The citations are the first 500 distinct ones of the lines in
    order; the others are counted, once for each time they are repeated; the files are those the lines open or the
    citations kept are in, in the order introduced; the completeness marker is that of the first line that has one. What a
    line says of a path with any other character is not what it cites: [spaced_group_cited_under_another_file] and
    [spaced_place_cited_as_its_tail]. *)
Theorem citation_index_exact (call : Call) (text : str) :
  exists answer (opened : list (option str)) (rows : list (list Citation)), index_answer call text = Some answer /\
    length opened = length (lines text) /\ length rows = length (lines text) /\
    (forall i line, lines text !! i = Some line -> exists o cs, opened !! i = Some o /\ rows !! i = Some cs /\
       (forall path, o = Some path <-> opens_file line path) /\ line_cites (take i (lines text)) line cs) /\
    an_citations answer = take MAX_CITATIONS (firsts (concat rows)) /\
    an_citations_omitted answer = length (filter (fun c => c ∉ an_citations answer) (concat rows)) /\
    an_files answer = firsts (concat (zip_with (fun o cs => option_list o ++ (ci_path <$> filter (fun c => c ∈ an_citations answer) cs)) opened rows)) /\
    match an_index answer with
    | Some marker => exists i line rest, lines text !! i = Some line /\ trim line = lit "index: " ++ rest /\ marker = trim rest /\
        forall j earlier, j < i -> lines text !! j = Some earlier -> ~ lit "index: " `prefix_of` trim earlier
    | None => forall i line, lines text !! i = Some line -> ~ lit "index: " `prefix_of` trim line
    end.
Proof.
  unfold index_answer. destruct (scan_of_scanned text) as (s & -> & [Hi Hc Ho Hf]). set (ls := lines text) in *.
  eexists _, (opens <$> ls), (imap (fun i line => citations_of (group_below (take i ls)) line) ls). split; [reflexivity|]. cbn [an_citations an_citations_omitted an_files an_index].
  rewrite length_fmap, length_imap. split; [done|]. split; [done|]. rewrite cites_lines in Hc, Ho. rewrite files_lines in Hf. split; [|split; [exact Hc|split; [exact Ho|split]]].
  - intros i line Hl. eexists _, _. rewrite list_lookup_fmap, list_lookup_imap, Hl. split; [done|]. split; [done|]. split; [intros path; apply opens_spec|apply cites_spec].
  - rewrite Hf. f_equal. unfold introduced, on_lines. f_equal. rewrite zip_with_fmap_l. generalize (sc_citations s). intros kept.
    apply list_eq. intros i. rewrite list_lookup_imap, lookup_zip_with, list_lookup_imap. by destruct (ls !! i).
  - rewrite Hi. apply marker_spec.
Qed.
Local Notation cart_answer := (lit "index: partial" ++ nl ++ lit "src/Cart.kt" ++ nl ++ lit "- 12 in shop.add" ++ nl ++ lit "- shop.open  src/Shop.kt:7:3" ++ nl).
Lemma citation_index_exact_witness :
  exists answer (opened : list (option str)) (rows : list (list Citation)), index_answer (mkCall TRACE (lit "/shop") (Some 0%Z) None) cart_answer = Some answer /\
    an_citations answer = [mkCitation (lit "src/Cart.kt") 12 None; mkCitation (lit "src/Shop.kt") 7 (Some 3%N)] /\ an_index answer = Some (lit "partial") /\
    an_citations answer = take MAX_CITATIONS (firsts (concat rows)) /\ opened !! 1 = Some (Some (lit "src/Cart.kt")).
Proof.
  destruct (citation_index_exact (mkCall TRACE (lit "/shop") (Some 0%Z) None) cart_answer) as (answer & opened & rows & E & _ & _ & Hl & Ec & _).
  exists answer, opened, rows. split; [exact E|]. vm_compute in E. split; [injection E as <-; reflexivity|]. split; [injection E as <-; reflexivity|]. split; [exact Ec|].
  destruct (Hl 1 (lit "src/Cart.kt") eq_refl) as (o & cs & Eo & _ & Ho & _). rewrite Eo. f_equal. apply Ho, opens_spec. vm_compute. reflexivity.
Defined.

(** C37: What a trace lists, its index cites, as far as the index can spell it: for groups whose path is a Kotlin file's in the
    path characters of the index (no space, say: [spaced_group_cited_under_another_file]), whose lines have 32 bits and whose
    enclosing names are not blank and hold no colon, the structured half of the usages section, as the trace renders it,
    holds exactly the sites of its groups, each at its file and line, in order and up to the cap, and its files in order. *)
Theorem usages_cited (call : Call) (groups : list ReferenceGroup) :
  Forall citable groups ->
  exists answer, index_answer call (concat (append_usage_group <$> groups)) = Some answer /\
    an_citations answer = take MAX_CITATIONS (firsts (concat (usage_sites <$> groups))) /\
    an_files answer = firsts (g_path <$> groups).
Proof.
  intros Hg. unfold index_answer. destruct (scan_of_scanned (concat (append_usage_group <$> groups))) as (s & -> & [_ Hc _ Hf]). eexists. split; [done|].
  cbn [an_citations an_files]. rewrite usages_lines in Hc, Hf by done. rewrite files_lines in Hf. rewrite cites_lines in Hc. split.
  - rewrite Hc. do 2 f_equal. unfold cited. rewrite on_lines_start, (lines_from_groups citations_of (fun _ => []) (fun c => [c])); [|..|done].
    + f_equal. apply list_fmap_ext. intros _ g _. cbn [app]. induction (usage_sites g) as [|c cs IH]; [done|]. csimpl. by rewrite IH.
    + intros group path Hp. unfold citations_of, grouped_citation. rewrite (path_opens _ Hp), no_colon_splits; [done|]. by apply path_trim.
    + intros path line cs _ ->. induction cs as [|c cs IH]; [done|]. csimpl. by rewrite <- IH.
    + by intros [group|].
  - rewrite Hf. unfold introduced. rewrite on_lines_start.
    rewrite (lines_from_groups _ (fun path => [path]) (fun c => if decide (c ∈ sc_citations s) then [ci_path c] else [])); [| | | |done].
    + apply firsts_blocks. intros g y Hy. apply list_elem_of_In, in_concat in Hy as (l & Hl & Hy). apply list_elem_of_In in Hl, Hy.
      apply list_elem_of_fmap in Hl as (c & -> & Hl). unfold usage_sites in Hl. apply list_elem_of_fmap in Hl as (r & -> & _). case_decide; [by apply list_elem_of_singleton in Hy|by apply elem_of_nil in Hy].
    + intros group path Hp. unfold citations_of, grouped_citation. rewrite (path_opens _ Hp), no_colon_splits; [done|]. by apply path_trim.
    + intros path line cs Ho ->. rewrite Ho. cbn [option_list app]. induction cs as [|c cs IH]; [done|]. csimpl. rewrite filter_cons, <- IH. by case_decide.
    + by intros [group|].
Qed.

Local Notation cart_groups := [
  mkRefGroup (lit "src/Cart.kt") [mkReference 12 (Some 5%N) (Some (mkEnclosing Function_ (lit "shop.Cart.add") 10)); mkReference 3 None None] 2;
  mkRefGroup (lit "src/Shop.kts") [mkReference 7 None (Some (mkEnclosing Function_ (lit "shop.open") 6))] 0].
Lemma usages_cited_witness : exists answer, index_answer (mkCall TRACE (lit "/shop") (Some 0%Z) None) (concat (append_usage_group <$> cart_groups)) = Some answer /\
  an_citations answer = [mkCitation (lit "src/Cart.kt") 12 None; mkCitation (lit "src/Cart.kt") 3 None; mkCitation (lit "src/Shop.kts") 7 None] /\
  an_files answer = [lit "src/Cart.kt"; lit "src/Shop.kts"].
Proof.
  destruct (usages_cited (mkCall TRACE (lit "/shop") (Some 0%Z) None) cart_groups) as (answer & E & Ec & Ef).
  - repeat constructor; try reflexivity; try lia; try exact I; try (apply (bool_decide_unpack _); vm_compute; exact I); try discriminate.
  - exists answer. split; [exact E|]. split; [rewrite Ec|rewrite Ef]; vm_compute; reflexivity.
Defined.

(** ** What the index says that the text does not *)

(** A usage group whose path has a character the index does not take for one does not close the group above: its rows
    are cited under that group's file. *)
Lemma spaced_group_cited_under_another_file :
  exists answer,
    index_answer (mkCall TRACE (lit "/shop") (Some 0%Z) None)
      (concat (append_usage_group <$> [mkRefGroup (lit "src/Cart.kt") [mkReference 3 None None] 0;
                                       mkRefGroup (lit "src/my module/Shop.kt") [mkReference 7 None None] 0])) = Some answer /\
    mkCitation (lit "src/Cart.kt") 7 None ∈ an_citations answer /\ an_files answer = [lit "src/Cart.kt"].
Proof. eexists. split; [vm_compute; reflexivity|]. split; [|vm_compute; reflexivity]. apply (bool_decide_unpack _). by vm_compute. Qed.
(** A place whose path has such a character is cited at the end of its path, which no file has. *)
Lemma spaced_place_cited_as_its_tail :
  exists answer,
    index_answer (mkCall TRACE (lit "/shop") (Some 0%Z) None) (place (lit "src/my module/Shop.kt") 7 ++ nl) = Some answer /\
    an_citations answer = [mkCitation (lit "module/Shop.kt") 7 None].
Proof. eexists. split; vm_compute; reflexivity. Qed.
(** Past the cap a place is counted each time the text repeats it. *)
Lemma omitted_counts_repeats :
  exists answer,
    index_answer (mkCall CHECK (lit "/shop") (Some 1%Z) None)
      (concat ((fun n => lit "a.kt:" ++ dec n ++ nl) <$> (N.of_nat <$> seq 1 501) ++ [501%N; 501%N])) = Some answer /\
    length (an_citations answer) + an_citations_omitted answer = 503.
Proof. eexists. split; vm_compute; reflexivity. Qed.
