(* ===== verification/Start.v ===== *)
(** * Start: which of several starts brings the daemon up

    Models [start], [claim_the_start], [take_claim], [StartClaim] and [await_liveness] of
    [crates/ktsense-cli/src/daemon.rs]. Any number of starts for one root run at once, each a process whose system calls
    are the steps of the model; what they share is the claim file, the locks on it, the socket, the clock and the
    children they spawned. A file is what [open] returned, so two files created at one path are two files; the kernel
    drops a process's lock when it dies. [rendezvous] does nothing unless a test asks for it. Times are milliseconds. *)
From stdpp Require Import gmap.
From S2P Require Import Prelude Collections.

Set Default Proof Using "Type*".

(** ** The processes and what they share *)

Abbreviation Pid := nat.
Abbreviation File := nat.
Inductive StartOutcome :=
  | AlreadyRunning_ | Started | HeldTooLong | CannotClaim | SpawnFailed | NoAnswer.
#[export] Instance StartOutcome_eq_dec : EqDecision StartOutcome.
Proof. solve_decision. Defined.

(** What a start has read of the daemon's hello: nothing yet, something that is no hello, or a version, this build's or another. *)
Inductive Hearing := Silent | Unreadable | Speaks (current : bool).
(** Where a start stands: the call it makes next. *)
Inductive Call_ :=
  | Entry                                     (* the first [live] *)
  | StopMismatched                            (* [stop_if_mismatched]: the connection *)
  | AwaitHello (heard : Hearing) (open_ : bool)    (* [stop_if_mismatched]: the hello is read, the stop sent, while the connection is open *)
  | UntilGone                                 (* [wait_until_gone] *)
  | Poll                                      (* the top of the loop of [claim_the_start] *)
  | OpenClaim                                 (* [take_claim]: [open] *)
  | Flock (file : File)                       (* [take_claim]: [flock] *)
  | StillNames (file : File)                  (* [take_claim]: [still_names_the_claim] *)
  | Abandon (file : File) (error : bool)      (* a locked file that is not the claim is closed *)
  | Recheck (file : File)                     (* [live] once the claim is granted *)
  | Spawn (file : File)                       (* [spawn_detached] *)
  | Await (file : File)                       (* [await_liveness] *)
  | Unlink (file : File) (then_ : StartOutcome)   (* the drop of the claim: [remove_file] *)
  | Close (file : File) (then_ : StartOutcome)    (* the drop of the claim: its descriptor *)
  | Deadline                                  (* [Ok(None)]: sleep, or give up *)
  | Ended (outcome : StartOutcome)
  | Killed.
Record Start := mkStart { st_call : Call_; st_deadline : N }.

Record DaemonUp := mkDaemonUp { dm_starter : Pid; dm_current : bool; dm_told : bool }.
Inductive Socket := NoSocket | StaleSocket | Up (daemon : DaemonUp).
Record World := mkWorld {
  w_now : N;
  w_path : option File;            (* the file the claim path names *)
  w_fresh : File;                  (* no file of this name or above was made yet *)
  w_locks : gmap File Pid;
  w_socket : Socket;
  w_coming : list Pid;             (* whose child is on its way to the socket *)
  w_starts : gmap Pid Start }.

Definition START_TIMEOUT : N := 30000%N.
Definition START_POLL_INTERVAL : N := 20%N.
Definition STOP_TIMEOUT : N := 5000%N.
Definition STOP_POLL_INTERVAL : N := 10%N.

Definition is_live (w : World) : bool := match w_socket w with Up _ => true | _ => false end.
Definition with_start (w : World) (p : Pid) (s : Start) : World :=
  mkWorld (w_now w) (w_path w) (w_fresh w) (w_locks w) (w_socket w) (w_coming w) (<[p := s]> (w_starts w)).
Definition with_now (w : World) (now : N) : World := mkWorld now (w_path w) (w_fresh w) (w_locks w) (w_socket w) (w_coming w) (w_starts w).
Definition with_path (w : World) (path : option File) (fresh : File) : World :=
  mkWorld (w_now w) path fresh (w_locks w) (w_socket w) (w_coming w) (w_starts w).
Definition with_locks (w : World) (locks : gmap File Pid) : World := mkWorld (w_now w) (w_path w) (w_fresh w) locks (w_socket w) (w_coming w) (w_starts w).
Definition with_socket (w : World) (socket : Socket) (coming : list Pid) : World :=
  mkWorld (w_now w) (w_path w) (w_fresh w) (w_locks w) socket coming (w_starts w).

(** ** One system call of a start *)

(** [open] of the claim path, creating it when nothing is there. *)
Definition open_claim (w : World) : File * World :=
  match w_path w with Some file => (file, w) | None => (w_fresh w, with_path w (Some (w_fresh w)) (S (w_fresh w))) end.
(** [nlink] of a file: only the claim path ever names one. *)
Definition still_names (w : World) (file : File) : bool := bool_decide (w_path w = Some file).
(** The stop of a daemon that speaks another protocol, when it is sent. *)
Definition tell_mismatched (sent : bool) (heard : Hearing) (w : World) : option World :=
  match heard, w_socket w with
  | Speaks false, Up daemon => if sent then Some (with_socket w (Up (mkDaemonUp (dm_starter daemon) (dm_current daemon) true)) (w_coming w)) else None
  | _, _ => None
  end.

(** A call of start [p], whose deadline is [deadline]: [ok] says whether it succeeds, [late] how much longer than asked a sleep takes. *)
Section calls.
Context (ok : bool) (late : N) (p : Pid) (deadline : N) (w : World).
Definition goto (call : Call_) : option World := Some (with_start w p (mkStart call deadline)).
Definition within (bound : N) (call : Call_) : option World := Some (with_start w p (mkStart call (w_now w + bound))).
Definition sleep_ (interval : N) (call : Call_) : option World :=
  Some (with_start (with_now w (w_now w + interval + late)) p (mkStart call deadline)).
(** [start]; the read of the hello is bounded by nothing: it returns when the daemon has written, or is gone. *)
Definition start_call (call : Call_) : option World :=
  match call with
  | Entry => if is_live w then goto StopMismatched else within START_TIMEOUT Poll
  | StopMismatched => goto (if is_live w && ok then AwaitHello Silent true else Ended AlreadyRunning_)
  | AwaitHello Silent true => None
  | AwaitHello heard open_ =>
      match tell_mismatched (ok && open_) heard w with
      | Some w => Some (with_start w p (mkStart UntilGone (w_now w + STOP_TIMEOUT)))
      | None => goto (Ended AlreadyRunning_)
      end
  | Spawn file =>
      if ok then Some (with_start (with_socket w (w_socket w) (w_coming w ++ [p])) p (mkStart (Await file) (w_now w + START_TIMEOUT)))
      else goto (Unlink file SpawnFailed)
  | _ => None
  end.
(** [wait_until_gone], and on to [claim_the_start] *)
Definition gone_call : option World :=
  match w_socket w with
  | NoSocket => within START_TIMEOUT Poll
  | _ => if (deadline <=? w_now w)%N then within START_TIMEOUT Poll else sleep_ STOP_POLL_INTERVAL UntilGone
  end.
(** [claim_the_start] *)
Definition claim_call (call : Call_) : option World :=
  match call with
  | Poll => if is_live w then goto (Ended AlreadyRunning_) else goto OpenClaim
  | Recheck file => if is_live w then goto (Unlink file AlreadyRunning_) else goto (Spawn file)
  | Deadline => if (w_now w <? deadline)%N then sleep_ START_POLL_INTERVAL Poll else goto (Ended HeldTooLong)
  | _ => None
  end.
(** [take_claim] *)
Definition take_call (call : Call_) : option World :=
  match call with
  | OpenClaim =>
      if ok then let '(file, w) := open_claim w in Some (with_start w p (mkStart (Flock file) deadline)) else goto (Ended CannotClaim)
  | Flock file =>
      if ok then
        match w_locks w !! file with
        | Some _ => goto Deadline
        | None => Some (with_start (with_locks w (<[file := p]> (w_locks w))) p (mkStart (StillNames file) deadline))
        end
      else goto (Ended CannotClaim)
  | StillNames file =>
      if ok then (if still_names w file then goto (Recheck file) else goto (Abandon file false)) else goto (Abandon file true)
  | Abandon file error =>
      Some (with_start (with_locks w (delete file (w_locks w))) p (mkStart (if error then Ended CannotClaim else Deadline) deadline))
  | _ => None
  end.
(** [await_liveness] *)
Definition await_call (file : File) : option World :=
  if (deadline <=? w_now w)%N then goto (Unlink file NoAnswer)
  else if is_live w then goto (Unlink file Started)
  else sleep_ START_POLL_INTERVAL (Await file).
(** The drop of a [StartClaim]: the file, then the descriptor that locks it. *)
Definition drop_call (call : Call_) : option World :=
  match call with
  | Unlink file outcome => Some (with_start (if ok then with_path w None (w_fresh w) else w) p (mkStart (Close file outcome) deadline))
  | Close file outcome => Some (with_start (with_locks w (delete file (w_locks w))) p (mkStart (Ended outcome) deadline))
  | _ => None
  end.
End calls.
Definition start_step (ok : bool) (late : N) (p : Pid) (w : World) : option World :=
  s ← w_starts w !! p;
  match st_call s with
  | Entry | StopMismatched | AwaitHello _ _ | Spawn _ => start_call ok p (st_deadline s) w (st_call s)
  | UntilGone => gone_call late p (st_deadline s) w
  | Poll | Recheck _ | Deadline => claim_call late p (st_deadline s) w (st_call s)
  | OpenClaim | Flock _ | StillNames _ | Abandon _ _ => take_call ok p (st_deadline s) w (st_call s)
  | Await file => await_call late p (st_deadline s) w file
  | Unlink _ _ | Close _ _ => drop_call ok p (st_deadline s) w (st_call s)
  | Ended _ | Killed => None
  end.

(** ** Everything that happens *)

Inductive Event :=
  | Arrives (p : Pid)
  | Runs (p : Pid) (ok : bool) (late : N)
  | Dies_ (p : Pid)                           (* a start is killed *)
  | ComesUp (p : Pid)                         (* the child of a start answers on the socket *)
  | GivesUp (p : Pid)                         (* the child of a start exits before it does *)
  | Greets (p : Pid) (readable : bool)        (* the daemon comes to the connection of a start, and writes its hello *)
  | Exits (clean : bool)                      (* the daemon exits, with or without removing its socket *)
  | Passes (time : N).
Fixpoint remove_one (p : Pid) (l : list Pid) : list Pid :=
  match l with [] => [] | q :: l => if p =? q then l else q :: remove_one p l end.
(** The daemon's exit closes the connections to it, read or not. *)
Definition hang_up (s : Start) : Start := match st_call s with AwaitHello heard _ => mkStart (AwaitHello heard false) (st_deadline s) | _ => s end.
Definition hung_up (w : World) : World := mkWorld (w_now w) (w_path w) (w_fresh w) (w_locks w) (w_socket w) (w_coming w) (hang_up <$> w_starts w).
Definition greet (readable : bool) (daemon : DaemonUp) : Call_ := AwaitHello (if readable then Speaks (dm_current daemon) else Unreadable) true.
Definition event_step (e : Event) (w : World) : option World :=
  match e with
  | Arrives p => if bool_decide (is_Some (w_starts w !! p)) then None else Some (with_start w p (mkStart Entry 0))
  | Runs p ok late => start_step ok late p w
  | Dies_ p =>
      s ← w_starts w !! p;
      Some (with_start (with_locks w (filter (fun held => held.2 <> p) (w_locks w))) p (mkStart Killed (st_deadline s)))
  | ComesUp p => if bool_decide (p ∈ w_coming w) && negb (is_live w) then Some (with_socket w (Up (mkDaemonUp p true false)) (remove_one p (w_coming w))) else None
  | GivesUp p => if bool_decide (p ∈ w_coming w) then Some (with_socket w (w_socket w) (remove_one p (w_coming w))) else None
  | Greets p readable =>
      s ← w_starts w !! p;
      match st_call s, w_socket w with
      | AwaitHello Silent true, Up daemon => Some (with_start w p (mkStart (greet readable daemon) (st_deadline s)))
      | _, _ => None
      end
  | Exits clean => if is_live w then Some (hung_up (with_socket w (if clean : bool then NoSocket else StaleSocket) (w_coming w))) else None
  | Passes time => Some (with_now w (w_now w + time))
  end.
Fixpoint run_events (es : list Event) (w : World) : option World := match es with [] => Some w | e :: es => w ← event_step e w; run_events es w end.

(** Before any start: a claim file may be left over, but nobody is there to hold it. *)
Record initial (w : World) : Prop := {
  ini_starts : w_starts w = ∅;
  ini_locks : w_locks w = ∅;
  ini_path : forall file, w_path w = Some file -> file < w_fresh w }.

(** ** The claim *)

(** The file a call runs with locked, and the file it runs with claimed. *)
Definition locked (call : Call_) : option File :=
  match call with
  | StillNames file | Abandon file _ | Recheck file | Spawn file | Await file | Unlink file _ | Close file _ => Some file
  | _ => None
  end.
Definition claimed (call : Call_) : option File :=
  match call with Recheck file | Spawn file | Await file | Unlink file _ => Some file | _ => None end.
Definition mentioned (call : Call_) : option File := match call with Flock file => Some file | _ => locked call end.

Record claims_hold (w : World) : Prop := {
  ch_lock : forall p s file, w_starts w !! p = Some s -> locked (st_call s) = Some file -> w_locks w !! file = Some p;
  ch_held : forall file p, w_locks w !! file = Some p -> exists s, w_starts w !! p = Some s /\ locked (st_call s) = Some file;
  ch_claim : forall p s file, w_starts w !! p = Some s -> claimed (st_call s) = Some file -> w_path w = Some file;
  ch_path : forall file, w_path w = Some file -> file < w_fresh w;
  ch_old : forall p s file, w_starts w !! p = Some s -> mentioned (st_call s) = Some file -> file < w_fresh w }.

Lemma claimed_locked call file : claimed call = Some file -> locked call = Some file.
Proof. by destruct call. Qed.
Lemma initial_claims w : initial w -> claims_hold w.
Proof. intros [Hs Hl Hp]. split; [..|done|]; rewrite ?Hs, ?Hl; intros until 0; by rewrite ?lookup_empty. Qed.
(** A start that moves without touching a lock or the claim path. *)
Lemma with_start_claims w p s call deadline : claims_hold w -> w_starts w !! p = Some s ->
  locked call = locked (st_call s) -> (forall file, claimed call = Some file -> w_path w = Some file) ->
  (forall file, mentioned call = Some file -> file < w_fresh w) -> claims_hold (with_start w p (mkStart call deadline)).
Proof.
  intros [Hl Hh Hc Hp Ho] Es El Hcl Hm. split; cbn [w_starts w_locks w_path w_fresh with_start]; [..|done|].
  - intros q t file. rewrite lookup_insert. case_decide as Hq; [intros [= <-]; cbn [st_call]; subst; rewrite El; by apply Hl|apply Hl].
  - intros file q Hf. apply Hh in Hf as (t & Et & Ht). destruct (decide (p = q)) as [<-|Hq].
    + exists (mkStart call deadline). rewrite lookup_insert_eq. split; [done|]. cbn [st_call]. rewrite El. congruence.
    + exists t. by rewrite lookup_insert_ne.
  - intros q t file. rewrite lookup_insert. case_decide as Hq; [intros [= <-]; apply Hcl|apply Hc].
  - intros q t file. rewrite lookup_insert. case_decide as Hq; [intros [= <-]; apply Hm|apply Ho].
Qed.
(** A start that lets go of the file it holds. *)
Lemma released_claims w p s file call deadline : claims_hold w -> w_starts w !! p = Some s -> locked (st_call s) = Some file ->
  mentioned call = None -> claims_hold (with_start (with_locks w (delete file (w_locks w))) p (mkStart call deadline)).
Proof.
  intros [Hl Hh Hc Hp Ho] Es El Hm. assert (locked call = None /\ claimed call = None) as [Hcl Hcc] by by destruct call.
  split; cbn [w_starts w_locks w_path w_fresh with_start with_locks]; [..|done|].
  - intros q t file'. rewrite lookup_insert. case_decide as Hq; [intros [= <-]; cbn [st_call]; congruence|]. intros Et Ht.
    rewrite lookup_delete_ne; [by eapply Hl|]. intros <-. pose proof (Hl _ _ _ Et Ht). pose proof (Hl _ _ _ Es El). congruence.
  - intros file' q. rewrite lookup_delete. case_decide as Hf; [done|]. intros Hq. apply Hh in Hq as (t & Et & Ht). exists t. split; [|done].
    rewrite lookup_insert_ne; [done|]. intros <-. congruence.
  - intros q t file'. rewrite lookup_insert. case_decide as Hq; [intros [= <-]; cbn [st_call]; congruence|apply Hc].
  - intros q t file'. rewrite lookup_insert. case_decide as Hq; [intros [= <-]; cbn [st_call]; congruence|apply Ho].
Qed.
Lemma same_claims w w' : claims_hold w -> w_path w' = w_path w -> w_fresh w' = w_fresh w -> w_locks w' = w_locks w -> w_starts w' = w_starts w -> claims_hold w'.
Proof. intros [Hl Hh Hc Hp Ho] E1 E2 E3 E4. split; rewrite ?E1, ?E2, ?E3, ?E4; assumption. Qed.
Lemma hung_up_claims w : claims_hold w -> claims_hold (hung_up w).
Proof.
  intros [Hl Hh Hc Hp Ho]. assert (forall s, locked (st_call (hang_up s)) = locked (st_call s) /\ claimed (st_call (hang_up s)) = claimed (st_call s) /\ mentioned (st_call (hang_up s)) = mentioned (st_call s)) as Hsame.
  { intros [call d]. by destruct call. }
  split; cbn [w_starts w_locks w_path w_fresh hung_up]; [..|done|].
  - intros p s file (t & <- & Et)%lookup_fmap_Some. rewrite (proj1 (Hsame t)). by apply Hl.
  - intros file p (s & Es & Hs)%Hh. exists (hang_up s). rewrite lookup_fmap, Es. split; [done|]. by rewrite (proj1 (Hsame s)).
  - intros p s file (t & <- & Et)%lookup_fmap_Some. rewrite (proj1 (proj2 (Hsame t))). by apply (Hc p t).
  - intros p s file (t & <- & Et)%lookup_fmap_Some. rewrite (proj2 (proj2 (Hsame t))). by apply (Ho p t).
Qed.
Lemma opened_claims w : claims_hold w -> claims_hold (open_claim w).2 /\ (open_claim w).1 < w_fresh (open_claim w).2.
Proof.
  intros Hw. pose proof Hw as [Hl Hh Hc Hp Ho]. unfold open_claim. destruct (w_path w) as [file|] eqn:E; cbn [fst snd].
  - split; [done|by apply Hp].
  - split; [|cbn; lia]. split; cbn [w_starts w_locks w_path w_fresh with_path]; [done|done|..].
    + intros p s file Es Ef. pose proof (Hc _ _ _ Es Ef). congruence.
    + intros file [= <-]. lia.
    + intros p s file Es Ef. pose proof (Ho _ _ _ Es Ef). lia.
Qed.
Lemma locked_claims w p s file deadline : claims_hold w -> w_starts w !! p = Some s -> st_call s = Flock file -> w_locks w !! file = None ->
  claims_hold (with_start (with_locks w (<[file := p]> (w_locks w))) p (mkStart (StillNames file) deadline)).
Proof.
  intros [Hl Hh Hc Hp Ho] Es El Hf. split; cbn [w_starts w_locks w_path w_fresh with_start with_locks]; [..|done|].
  - intros q t file'. rewrite lookup_insert. case_decide as Hq; [intros [= <-] [= <-]; subst; by rewrite lookup_insert_eq|]. intros Et Ht.
    rewrite lookup_insert_ne; [by eapply Hl|]. intros <-. pose proof (Hl _ _ _ Et Ht). congruence.
  - intros file' q. rewrite lookup_insert. case_decide as Hq; [intros [= <-]; exists (mkStart (StillNames file) deadline); rewrite lookup_insert_eq; by subst|].
    intros Ht. apply Hh in Ht as (t & Et & Ht). exists t. split; [|done]. rewrite lookup_insert_ne; [done|]. intros <-. rewrite Es in Et. simplify_eq. by rewrite El in Ht.
  - intros q t file'. rewrite lookup_insert. case_decide as Hq; [by intros [= <-]|apply Hc].
  - intros q t file'. rewrite lookup_insert. case_decide as Hq; [intros [= <-] [= <-]; apply (Ho p s); [done|by rewrite El]|apply Ho].
Qed.
(** A claimed file is claimed by one start alone, so only that start can unlink it. *)
Lemma claim_unique w p q s t file file' : claims_hold w -> w_starts w !! p = Some s -> w_starts w !! q = Some t ->
  claimed (st_call s) = Some file -> claimed (st_call t) = Some file' -> p = q.
Proof.
  intros [Hl Hh Hc Hp Ho] Es Et Hs Ht. pose proof (Hc _ _ _ Es Hs). pose proof (Hc _ _ _ Et Ht). simplify_eq.
  pose proof (Hl _ _ _ Es (claimed_locked _ _ Hs)). pose proof (Hl _ _ _ Et (claimed_locked _ _ Ht)). congruence.
Qed.
Lemma unlinked_claims w p s file outcome deadline : claims_hold w -> w_starts w !! p = Some s -> st_call s = Unlink file outcome ->
  claims_hold (with_start (with_path w None (w_fresh w)) p (mkStart (Close file outcome) deadline)).
Proof.
  intros Hw Es El. pose proof Hw as [Hl Hh Hc Hp Ho]. split; cbn [w_starts w_locks w_path w_fresh with_start with_path]; [..|done|].
  - intros q t file'. rewrite lookup_insert. case_decide as Hq; [intros [= <-] [= <-]; subst; apply (Hl _ s); [done|by rewrite El]|apply Hl].
  - intros file' q Hf. apply Hh in Hf as (t & Et & Ht). destruct (decide (p = q)) as [<-|Hq].
    + exists (mkStart (Close file outcome) deadline). rewrite lookup_insert_eq. split; [done|]. rewrite Es in Et. simplify_eq. by rewrite El in Ht.
    + exists t. by rewrite lookup_insert_ne.
  - intros q t file'. rewrite lookup_insert. case_decide as Hq; [by intros [= <-]|]. intros Et Ht. exfalso. apply Hq.
    apply (claim_unique w p q s t file file'); try done. by rewrite El.
  - intros q t file'. rewrite lookup_insert. case_decide as Hq; [intros [= <-] [= <-]; apply (Ho p s); [done|by rewrite El]|apply Ho].
Qed.
Lemma killed_claims w p s : claims_hold w -> w_starts w !! p = Some s ->
  claims_hold (with_start (with_locks w (filter (fun held => held.2 <> p) (w_locks w))) p (mkStart Killed (st_deadline s))).
Proof.
  intros [Hl Hh Hc Hp Ho] Es. split; cbn [w_starts w_locks w_path w_fresh with_start with_locks]; [..|done|].
  - intros q t file. rewrite lookup_insert. case_decide as Hq; [by intros [= <-]|]. intros Et Ht. apply map_lookup_filter_Some. split; [by eapply Hl|]. cbn. congruence.
  - intros file q [Hf Hq]%map_lookup_filter_Some. cbn in Hq. apply Hh in Hf as (t & Et & Ht). exists t. by rewrite lookup_insert_ne.
  - intros q t file. rewrite lookup_insert. case_decide as Hq; [by intros [= <-]|apply Hc].
  - intros q t file. rewrite lookup_insert. case_decide as Hq; [by intros [= <-]|apply Ho].
Qed.

Lemma start_step_claims ok late p w w' : claims_hold w -> start_step ok late p w = Some w' -> claims_hold w'.
Proof.
  intros Hw. pose proof Hw as [Hl Hh Hc Hp Ho]. unfold start_step, start_call, gone_call, claim_call, take_call, await_call, drop_call, goto, within, sleep_. destruct (w_starts w !! p) as [[call d]|] eqn:Es; [|done]. cbn [mbind option_bind st_call st_deadline].
  assert (forall file, mentioned call = Some file -> file < w_fresh w) as Hlt by (intros file; apply (Ho p _ file Es)).
  assert (forall file, claimed call = Some file -> w_path w = Some file) as Hf by (intros file; apply (Hc p _ file Es)).
  assert (forall now, claims_hold (with_now w now)) as Hnow by (intros now; by apply (same_claims w)).
  assert (forall socket coming, claims_hold (with_socket w socket coming)) as Hsock by (intros socket coming; by apply (same_claims w)).
  pose proof (opened_claims w Hw) as Hop. assert (w_starts (open_claim w).2 = w_starts w) as Est by (unfold open_claim; by destruct (w_path w)).
  assert (forall v next d', claims_hold v -> w_starts v = w_starts w -> w_path v = w_path w -> w_fresh v = w_fresh w -> locked next = locked call ->
            claimed next = None \/ claimed next = claimed call -> mentioned next = None \/ mentioned next = mentioned call ->
            claims_hold (with_start v p (mkStart next d'))) as Hmove.
  { intros v next d' Hv E1 E2 E3 E4 [E5|E5] [E6|E6]; (eapply with_start_claims; [done|by rewrite E1|done|rewrite E5, ?E2; first [done|auto]|rewrite E6, ?E3; first [done|auto]]). }
  destruct call; intros Hs; try discriminate Hs.
  all: try (unfold tell_mismatched in Hs; repeat case_match; simplify_eq; apply Hmove; auto; fail).
  - destruct ok; [|simplify_eq; apply Hmove; auto]. destruct (open_claim w) as [file v]. cbn [fst snd] in *. simplify_eq. destruct Hop as [Hv Hfile].
    eapply with_start_claims; [done|by rewrite Est|done|by intros ? [=]|by intros ? [= <-]].
  - destruct ok; [|simplify_eq; apply Hmove; auto]. destruct (w_locks w !! file) eqn:El; simplify_eq; [apply Hmove; auto|]. by eapply locked_claims.
  - destruct ok; [destruct (still_names w file) eqn:Ep|]; simplify_eq; [|by apply Hmove; auto..]. apply bool_decide_eq_true in Ep.
    eapply with_start_claims; [done|exact Es|done|by intros ? [= <-]|by intros ? [= <-]; apply Hlt].
  - simplify_eq. eapply released_claims; [done|exact Es|done|by destruct error].
  - destruct ok; simplify_eq; [by eapply unlinked_claims|]. by apply Hmove; auto.
  - simplify_eq. eapply released_claims; [done|exact Es|done|done].
Qed.
Lemma event_step_claims e w w' : claims_hold w -> event_step e w = Some w' -> claims_hold w'.
Proof.
  intros Hw. destruct e as [p|p ok late|p|p|p|p readable|clean|time]; cbn [event_step]; intros He.
  - case_bool_decide as Hs; [done|]. apply eq_None_not_Some in Hs. simplify_eq. destruct Hw as [Hl Hh Hc Hp Ho].
    split; cbn [w_starts w_locks w_path w_fresh with_start]; [..|done|].
    + intros q t file. rewrite lookup_insert. case_decide as Hq; [by intros [= <-]|apply Hl].
    + intros file q Hf. apply Hh in Hf as (t & Et & Ht). exists t. rewrite lookup_insert_ne; [done|congruence].
    + intros q t file. rewrite lookup_insert. case_decide as Hq; [by intros [= <-]|apply Hc].
    + intros q t file. rewrite lookup_insert. case_decide as Hq; [by intros [= <-]|apply Ho].
  - by eapply start_step_claims.
  - destruct (w_starts w !! p) as [s|] eqn:Es; [|done]. cbn [mbind option_bind] in He. simplify_eq. by apply killed_claims.
  - case_match; simplify_eq. by apply (same_claims w).
  - case_match; simplify_eq. by apply (same_claims w).
  - destruct (w_starts w !! p) as [s|] eqn:Es; [|done]. cbn [mbind option_bind] in He. destruct (st_call s) as [| |[| |] []| | | | | | | | | | | | | |] eqn:Ec; try done. destruct (w_socket w); simplify_eq. unfold greet.
    eapply with_start_claims; [done|exact Es|by rewrite Ec|done|done].
  - case_match; simplify_eq. apply hung_up_claims. by apply (same_claims w).
  - simplify_eq. by apply (same_claims w).
Qed.
Lemma run_events_ind (P : World -> Prop) : (forall e w w', P w -> event_step e w = Some w' -> P w') -> forall es w w', P w -> run_events es w = Some w' -> P w'.
Proof.
  intros Hstep es. induction es as [|e es IH]; intros w w' Hw; cbn [run_events]; [by intros [= <-]|].
  destruct (event_step e w) as [w1|] eqn:E; [|done]. cbn [mbind option_bind]. apply IH. by eapply Hstep.
Qed.
Lemma run_events_claims es w w' : initial w -> run_events es w = Some w' -> claims_hold w'.
Proof. intros Hi. apply (run_events_ind claims_hold); [intros e v v'; apply event_step_claims|by apply initial_claims]. Qed.

(** C17: Of any number of starts of one root, however their calls interleave with one another, with kills, failing calls
    and daemons that come and go, at most one at a time is between being granted the claim and releasing it, so at
    most one at a time spawns a daemon or waits for it; and the claim it holds is the file the path names. *)
Theorem start_claim_exclusive (w0 w : World) (es : list Event) (p q : Pid) (s t : Start) (file file' : File) :
  initial w0 -> run_events es w0 = Some w ->
  w_starts w !! p = Some s -> w_starts w !! q = Some t -> claimed (st_call s) = Some file -> claimed (st_call t) = Some file' ->
  p = q /\ w_path w = Some file /\ w_locks w !! file = Some p.
Proof.
  intros Hi Hr Es Et Hs Ht. pose proof (run_events_claims _ _ _ Hi Hr) as Hw. split; [by eapply claim_unique|].
  split; [exact (ch_claim w Hw p s file Es Hs)|exact (ch_lock w Hw p s file Es (claimed_locked _ _ Hs))].
Qed.

(** ** Who wins *)

(** Nothing fails: no system call, no kill, no daemon that exits or does not come up. *)
Definition orderly (e : Event) : Prop :=
  match e with Arrives _ | ComesUp _ | Greets _ _ | Passes _ => True | Runs _ ok _ => ok = true | Dies_ _ | GivesUp _ | Exits _ => False end.
(** The outcome a start is bound for. *)
Definition outcome_of (call : Call_) : option StartOutcome :=
  match call with Unlink _ outcome | Close _ outcome | Ended outcome => Some outcome | _ => None end.
Definition in_reach (call : Call_) : bool :=
  match call with StopMismatched | AwaitHello _ _ | UntilGone | Spawn _ | Await _ | Abandon _ true | Killed => false | _ => true end.
(** A start that has spawned nothing, before and after another has. *)
Definition before (call : Call_) : Prop :=
  match call with Spawn _ => True | _ => in_reach call = true end /\ forall o, outcome_of call = Some o -> o = HeldTooLong.
Definition after (call : Call_) : Prop :=
  match call with StopMismatched => True | AwaitHello heard _ => heard <> Speaks false | _ => in_reach call = true end /\ forall o, outcome_of call = Some o -> o = AlreadyRunning_ \/ o = HeldTooLong.
Definition troubled (w : World) : Prop := exists p s, w_starts w !! p = Some s /\ outcome_of (st_call s) = Some NoAnswer.
Definition none_spawned (w : World) : Prop :=
  is_live w = false /\ w_coming w = [] /\ forall p s, w_starts w !! p = Some s -> before (st_call s).
Definition spawned_by (p0 : Pid) (w : World) : Prop :=
  (exists s0, w_starts w !! p0 = Some s0 /\
     match st_call s0 with
     | Await _ => w_coming w = [p0] /\ is_live w = false \/ w_coming w = [] /\ w_socket w = Up (mkDaemonUp p0 true false)
     | call => outcome_of call = Some Started /\ w_coming w = [] /\ w_socket w = Up (mkDaemonUp p0 true false)
     end) /\
  forall p s, w_starts w !! p = Some s -> p <> p0 -> after (st_call s).
Definition won (w : World) : Prop := troubled w \/ none_spawned w \/ exists p0, spawned_by p0 w.

Lemma start_step_self ok late p w w' : start_step ok late p w = Some w' ->
  exists s, w_starts w !! p = Some s /\ (exists s', w_starts w' = <[p := s']> (w_starts w)).
Proof.
  unfold start_step, start_call, gone_call, claim_call, take_call, await_call, drop_call, goto, within, sleep_. destruct (w_starts w !! p) as [s|] eqn:Es; [|done]. cbn [mbind option_bind]. intros Hs. exists s. split; [done|].
  destruct (st_call s); unfold tell_mismatched, open_claim in Hs; repeat case_match; simplify_eq; by eexists.
Qed.
(** A hello is heard by the start that waits for it, from the daemon that is up. *)
Lemma greets_self p readable w w' : event_step (Greets p readable) w = Some w' -> exists s heard, w_starts w !! p = Some s /\ st_call s = AwaitHello Silent true /\
  w' = with_start w p (mkStart (AwaitHello heard true) (st_deadline s)) /\
  exists daemon, w_socket w = Up daemon /\ (heard = Speaks false -> dm_current daemon = false).
Proof.
  cbn [event_step]. destruct (w_starts w !! p) as [s|]; [|done]. cbn [mbind option_bind]. intros He. exists s.
  destruct (st_call s) as [| |[| |] []| | | | | | | | | | | | | |]; try done. destruct (w_socket w) as [| |daemon]; try done. simplify_eq.
  eexists. split; [done|]. split; [done|]. split; [done|]. exists daemon. split; [done|]. by destruct readable; [intros [= ->]|].
Qed.
Lemma troubled_step e w w' : troubled w -> event_step e w = Some w' -> orderly e -> troubled w'.
Proof.
  intros (p & s & Es & Ho) He Hor. destruct e as [q|q ok late|q|q|q|q readable|clean|time]; cbn [event_step orderly] in *; try done.
  - case_bool_decide as Hq; [done|]. simplify_eq. exists p, s. split; [|done]. cbn. rewrite lookup_insert_ne; [done|]. intros ->. apply Hq. by exists s.
  - destruct (decide (p = q)) as [<-|Hpq].
    + unfold start_step, start_call, gone_call, claim_call, take_call, await_call, drop_call, goto, within, sleep_ in He. rewrite Es in He. cbn [mbind option_bind] in He. destruct s as [call d]. cbn [st_call st_deadline] in *.
      destruct call; try done; cbn in Ho; simplify_eq; repeat case_match; simplify_eq; eexists p, _; (split; [apply lookup_insert_eq|done]).
    + apply start_step_self in He as (t & _ & t' & E). exists p, s. by rewrite E, lookup_insert_ne.
  - case_match; simplify_eq. by exists p, s.
  - apply greets_self in He as (t & heard & Et & Ec & -> & _). exists p, s. split; [|done]. cbn. rewrite lookup_insert_ne; [done|]. intros ->.
    rewrite Es in Et. simplify_eq. by rewrite Ec in Ho.
  - simplify_eq. by exists p, s.
Qed.
Lemma before_after call : before call -> (forall file, call <> Spawn file) -> after call.
Proof.
  intros [Hr Ho] Hs. split; [|intros o Ho'; right; by apply Ho]. destruct call; try done. by destruct (Hs file).
Qed.
Lemma start_step_world ok late p w w' : start_step ok late p w = Some w' ->
  match st_call <$> w_starts w !! p with
  | Some (Spawn _) | Some (AwaitHello (Speaks false) _) => True
  | _ => w_socket w' = w_socket w /\ w_coming w' = w_coming w
  end.
Proof.
  unfold start_step, start_call, gone_call, claim_call, take_call, await_call, drop_call, goto, within, sleep_. destruct (w_starts w !! p) as [s|] eqn:Es; [|done]. cbn [mbind option_bind fmap option_fmap option_map]. intros Hs.
  destruct (st_call s); unfold open_claim in Hs; repeat case_match; by simplify_eq.
Qed.
(** What a start that has not spawned does next while the socket does not answer. *)
Lemma before_step late p w w' s : is_live w = false -> w_starts w !! p = Some s -> before (st_call s) -> (forall file, st_call s <> Spawn file) ->
  start_step true late p w = Some w' -> exists s', w_starts w' = <[p := s']> (w_starts w) /\ before (st_call s').
Proof.
  intros Hl Es [Hr Ho] Hns. unfold start_step, start_call, gone_call, claim_call, take_call, await_call, drop_call, goto, within, sleep_. rewrite Es, Hl. cbn [mbind option_bind]. destruct s as [call d]. cbn [st_call st_deadline] in *. intros Hs.
  destruct call; cbn [outcome_of] in Ho; try discriminate Hr; unfold open_claim in Hs; repeat case_match; simplify_eq; try (by destruct (Hns file));
    (eexists; split; [reflexivity|]); split; try done; cbn; intros o [= <-]; by first [done|apply Ho].
Qed.
Lemma after_step late p w w' s daemon : w_socket w = Up daemon -> dm_current daemon = true -> w_starts w !! p = Some s -> after (st_call s) ->
  start_step true late p w = Some w' -> w_socket w' = w_socket w /\ w_coming w' = w_coming w /\ exists s', w_starts w' = <[p := s']> (w_starts w) /\ after (st_call s').
Proof.
  intros Hu Hc Es [Hr Ho]. unfold start_step, start_call, gone_call, claim_call, take_call, await_call, drop_call, goto, within, sleep_, is_live, tell_mismatched. rewrite Es, Hu, Hc. cbn [mbind option_bind negb andb]. destruct s as [call d]. cbn [st_call st_deadline] in *. intros Hs.
  destruct call; cbn [outcome_of] in Ho; try discriminate Hr; unfold open_claim in Hs; repeat case_match; simplify_eq;
    (split; [done|]); (split; [done|]); (eexists; split; [reflexivity|]); split; try done; cbn; intros o [= <-]; first [by auto|apply Ho; reflexivity].
Qed.
Lemma started_step late p w w' s : w_starts w !! p = Some s -> outcome_of (st_call s) = Some Started -> start_step true late p w = Some w' ->
  w_socket w' = w_socket w /\ w_coming w' = w_coming w /\ exists s', w_starts w' = <[p := s']> (w_starts w) /\ outcome_of (st_call s') = Some Started.
Proof.
  intros Es Ho. unfold start_step, start_call, gone_call, claim_call, take_call, await_call, drop_call, goto, within, sleep_. rewrite Es. cbn [mbind option_bind]. destruct s as [call d]. cbn [st_call st_deadline] in *. intros Hs.
  destruct call; cbn [outcome_of] in Ho; simplify_eq; (split; [done|]); (split; [done|]); by eexists.
Qed.
Lemma none_spawned_turn late p w w' : claims_hold w -> none_spawned w -> start_step true late p w = Some w' -> none_spawned w' \/ spawned_by p w'.
Proof.
  intros Hw (Hl & Hc & Hb) Hs. pose proof (start_step_self _ _ _ _ _ Hs) as (s & Es & _). pose proof (Hb _ _ Es) as Hbs.
  assert ((forall file, st_call s <> Spawn file) \/ exists file, st_call s = Spawn file) as [Hns|[file Ec]] by (destruct (st_call s); eauto).
  - left. destruct (before_step _ _ _ _ _ Hl Es Hbs Hns Hs) as (s' & E & Hb'). pose proof (start_step_world _ _ _ _ _ Hs) as Hk. rewrite Es in Hk. cbn in Hk.
    assert (w_socket w' = w_socket w /\ w_coming w' = w_coming w) as [E1 E2].
    { destruct Hbs as [Hr _]. destruct (st_call s) eqn:Ec; try done. by destruct (Hns file). }
    split_and!; [by unfold is_live; rewrite E1|by rewrite E2|]. intros q t. rewrite E, lookup_insert. case_decide; [by intros [= <-]|apply Hb].
  - right. unfold start_step, start_call, gone_call, claim_call, take_call, await_call, drop_call, goto, within, sleep_ in Hs. rewrite Es in Hs. cbn [mbind option_bind] in Hs. rewrite Ec in Hs. simplify_eq. split.
    + eexists. cbn. split; [apply lookup_insert_eq|]. cbn. left. by rewrite Hc.
    + intros q t. cbn. intros Hq Hne. rewrite lookup_insert_ne in Hq by done. apply before_after; [by eapply Hb|]. intros file' Et.
      apply Hne. apply (claim_unique w q p t s file' file); [done..|by rewrite Et|by rewrite Ec].
Qed.
Lemma winner_turn late p w w' : spawned_by p w -> start_step true late p w = Some w' -> troubled w' \/ spawned_by p w'.
Proof.
  intros [(s & Es & Hs0) Ha] Hs. assert (forall s', w_starts w' = <[p := s']> (w_starts w) -> forall q t, w_starts w' !! q = Some t -> q <> p -> after (st_call t)) as Hrest.
  { intros s' E q t. rewrite E. intros Hq Hne. rewrite lookup_insert_ne in Hq by done. by eapply Ha. }
  destruct (decide (outcome_of (st_call s) = Some Started)) as [Ho|Ho].
  - right. destruct (started_step _ _ _ _ _ Es Ho Hs) as (E1 & E2 & s' & E & Ho'). split; [|by eapply Hrest]. exists s'. rewrite E, E1, E2. split; [apply lookup_insert_eq|].
    destruct (st_call s) eqn:Ec; try done; destruct Hs0 as (_ & Hc & Hu); by destruct (st_call s').
  - destruct (st_call s) eqn:Ec; try by (destruct Hs0 as [Hs0 _]; congruence). unfold start_step, start_call, gone_call, claim_call, take_call, await_call, drop_call, goto, within, sleep_ in Hs. rewrite Es in Hs. cbn [mbind option_bind] in Hs. rewrite Ec in Hs.
    destruct (st_deadline s <=? w_now w)%N; [left; simplify_eq; eexists p, _; cbn; split; [apply lookup_insert_eq|done]|]. right. destruct (is_live w) eqn:El; simplify_eq.
    + split; [|eapply Hrest; reflexivity]. eexists. cbn. split; [apply lookup_insert_eq|]. cbn. destruct Hs0 as [[_ Hs0]|Hs0]; [congruence|]. by destruct Hs0.
    + split; [|eapply Hrest; reflexivity]. eexists. cbn [w_starts with_start with_now]. split; [apply lookup_insert_eq|]. cbn. destruct Hs0 as [[Hc _]|Hs0]; [left; split; [exact Hc|exact El]|by right].
Qed.
Lemma loser_turn late p0 p w w' : claims_hold w -> spawned_by p0 w -> p <> p0 -> start_step true late p w = Some w' -> spawned_by p0 w'.
Proof.
  intros Hw [(s0 & Es0 & Hs0) Ha] Hne Hs. pose proof (start_step_self _ _ _ _ _ Hs) as (s & Es & _). pose proof (Ha _ _ Es Hne) as Has.
  assert (is_live w = false /\ (exists file, st_call s0 = Await file) /\ w_coming w = [p0] \/ w_socket w = Up (mkDaemonUp p0 true false)) as [(Hl & [file Ec] & Hc)|Hu].
  { destruct (st_call s0) eqn:E; try (right; by apply Hs0). destruct Hs0 as [[Hc Hl]|[_ Hu]]; [left; eauto|by right]. }
  - assert (exists s', w_socket w' = w_socket w /\ w_coming w' = w_coming w /\ w_starts w' = <[p := s']> (w_starts w) /\ after (st_call s')) as (s' & E1 & E2 & E & Ha').
    { pose proof (start_step_world _ _ _ _ _ Hs) as Hk. rewrite Es in Hk. cbn in Hk. destruct Has as [Hr Ho].
      assert (forall file', st_call s <> Spawn file') as Hns by (intros file' Et; rewrite Et in Hr; done).
      assert (forall file', st_call s <> Recheck file') as Hnr.
      { intros file' Et. apply Hne. apply (claim_unique w p p0 s s0 file' file); [done..|by rewrite Et|by rewrite Ec]. }
      unfold start_step, start_call, gone_call, claim_call, take_call, await_call, drop_call, goto, within, sleep_ in Hs. rewrite Es, Hl in Hs. cbn [mbind option_bind] in Hs. destruct s as [call d]. cbn [st_call st_deadline] in *.
      destruct call; try discriminate Hr; try (by destruct (Hnr file0)); unfold open_claim, tell_mismatched in Hs; repeat case_match; simplify_eq;
        try (eexists; split_and!; [done|done|reflexivity|]; split; [done|]; cbn; intros o [= <-]; first [by auto|apply Ho; reflexivity]).
      all: by unfold is_live in Hl; simplify_eq; repeat case_match. }
    split; [exists s0; rewrite E, E2, lookup_insert_ne by done; split; [done|]; rewrite E1; unfold is_live in *; by rewrite E1|].
    intros q t. rewrite E, lookup_insert. case_decide; [by intros [= <-]|apply Ha].
  - destruct (after_step _ _ _ _ _ _ Hu eq_refl Es Has Hs) as (E1 & E2 & s' & E & Ha').
    split; [exists s0; rewrite E, E2, lookup_insert_ne by done; split; [done|]; unfold is_live in *; by rewrite E1|].
    intros q t. rewrite E, lookup_insert. case_decide; [by intros [= <-]|apply Ha].
Qed.
Lemma won_step e w w' : claims_hold w -> won w -> event_step e w = Some w' -> orderly e -> won w'.
Proof.
  intros Hw [Ht|Hw'] He Hor; [left; by eapply troubled_step|]. destruct e as [p|p ok late|p|p|p|p readable|clean|time]; cbn [event_step orderly] in *; try done.
  - case_bool_decide as Hp; [done|]. simplify_eq. apply eq_None_not_Some in Hp. right. destruct Hw' as [(Hl & Hc & Hb)|(p0 & (s0 & Es0 & Hs0) & Ha)].
    + left. split_and!; [done..|]. intros q t. cbn. rewrite lookup_insert. case_decide; [intros [= <-]|apply Hb]. by split.
    + right. exists p0. split; [exists s0; cbn; rewrite lookup_insert_ne by congruence; by split|]. intros q t. cbn. rewrite lookup_insert. case_decide; [intros [= <-] _|apply Ha]. by split.
  - subst ok. destruct Hw' as [Hn|[p0 Hs]].
    + right. destruct (none_spawned_turn _ _ _ _ Hw Hn He) as [Hn'|Hs']; [by left|right; by exists p].
    + destruct (decide (p = p0)) as [->|Hne].
      * destruct (winner_turn _ _ _ _ Hs He) as [Ht|Hs']; [by left|right; right; by exists p0].
      * right; right. exists p0. by eapply loser_turn.
  - destruct (bool_decide (p ∈ w_coming w)) eqn:Hp; [|done]. apply bool_decide_eq_true in Hp. destruct (is_live w) eqn:El; [done|]. cbn in He. simplify_eq. right.
    destruct Hw' as [(Hl & Hc & Hb)|(p0 & (s0 & Es0 & Hs0) & Ha)]; [rewrite Hc in Hp; by apply elem_of_nil in Hp|]. right. exists p0. split; [|done]. exists s0. split; [done|].
    assert (w_coming w = [p0]) as Hc.
    { destruct (st_call s0); try (destruct Hs0 as (_ & _ & Hu); unfold is_live in El; by rewrite Hu in El). destruct Hs0 as [[Hc _]|[_ Hu]]; [done|]. unfold is_live in El. by rewrite Hu in El. }
    rewrite Hc in Hp. apply list_elem_of_singleton in Hp as ->. cbn [with_socket w_coming w_socket is_live]. rewrite Hc. cbn [remove_one]. rewrite Nat.eqb_refl.
    destruct (st_call s0); try (destruct Hs0 as (_ & _ & Hu); unfold is_live in El; by rewrite Hu in El). by right.
  - apply greets_self in He as (s & heard & Es & Ec & -> & daemon & Hu & Hcur). right. right. destruct Hw' as [(Hl & _)|(p0 & (s0 & Es0 & Hs0) & Ha)]; [unfold is_live in Hl; by rewrite Hu in Hl|].
    exists p0. assert (p <> p0) as Hne by (intros ->; rewrite Es in Es0; simplify_eq; rewrite Ec in Hs0; by destruct Hs0). split.
    + exists s0. cbn [w_starts with_start]. rewrite lookup_insert_ne by done. by split.
    + intros q t. cbn [w_starts with_start]. rewrite lookup_insert. case_decide; [intros [= <-] _|apply Ha]. split; [|done]. cbn [st_call]. intros ->. specialize (Hcur eq_refl).
      assert (w_socket w = Up (mkDaemonUp p0 true false)) as E; [|rewrite Hu in E; injection E as ->; done].
      destruct (st_call s0); try by destruct Hs0 as (_ & _ & E). destruct Hs0 as [[_ Hl]|[_ E]]; [unfold is_live in Hl; by rewrite Hu in Hl|done].
  - simplify_eq. by right.
Qed.

(** C18: Starts released together settle on one: when nothing fails, and no start ran out of time, exactly one of them says it
    started the daemon, the daemon that answers is its own, and every other says one is already running. *)
Theorem one_start_wins (w0 w : World) (es : list Event) :
  initial w0 -> is_live w0 = false -> w_coming w0 = [] ->
  Forall orderly es -> run_events es w0 = Some w ->
  (forall p s, w_starts w !! p = Some s -> exists outcome, st_call s = Ended outcome /\ outcome <> HeldTooLong /\ outcome <> NoAnswer) ->
  w_starts w <> ∅ ->
  exists p0, is_Some (w_starts w !! p0) /\ w_socket w = Up (mkDaemonUp p0 true false) /\
    forall p s, w_starts w !! p = Some s -> st_call s = Ended (if decide (p = p0) then Started else AlreadyRunning_).
Proof.
  intros Hi Hl Hc Hes Hr Hall Hne. assert (claims_hold w0 /\ won w0) as Hw0.
  { split; [by apply initial_claims|]. right. left. split_and!; [done..|]. intros p s. by rewrite (ini_starts _ Hi), lookup_empty. }
  assert (won w) as Hw.
  { clear -Hes Hr Hw0. revert w0 Hr Hw0. induction Hes as [|e es He _ IH]; intros w0; cbn [run_events]; [by intros [= <-] [_ H]|].
    destruct (event_step e w0) as [w1|] eqn:E; [|done]. cbn [mbind option_bind]. intros Hr [Hc Hw]. eapply IH; [done|]. split; [by eapply event_step_claims|by eapply won_step]. }
  destruct Hw as [(p & s & Es & Ho)|[(_ & _ & Hb)|(p0 & (s0 & Es0 & Hs0) & Ha)]].
  - destruct (Hall _ _ Es) as (o & E & _ & Hn). rewrite E in Ho. cbn in Ho. congruence.
  - apply map_choose in Hne as (p & s & Es). destruct (Hall _ _ Es) as (o & E & Hn & _). destruct (Hb _ _ Es) as [_ Ho]. rewrite E in Ho. destruct (Hn (Ho o eq_refl)).
  - exists p0. destruct (Hall _ _ Es0) as (o0 & E0 & _ & _). rewrite E0 in Hs0. cbn in Hs0. destruct Hs0 as (Ho0 & Hc0 & Hu). split; [by exists s0|]. split; [done|].
    intros p s Es. case_decide as Hp; [subst; congruence|]. destruct (Hall _ _ Es) as (o & E & Hn & _). destruct (Ha _ _ Es Hp) as [_ Ho]. rewrite E in Ho |- *.
    by destruct (Ho o eq_refl) as [->| ->].
Qed.

(** ** Every start ends *)

(** How many sleeps of [interval] fit before a deadline [left] away. *)
Definition polls (left interval : N) : N := ((left + interval - 1) / interval)%N.
Lemma polls_mono a b interval : (a <= b)%N -> (polls a interval <= polls b interval)%N.
Proof. intros Hab. unfold polls. destruct (decide (interval = 0%N)) as [->|Hi]; [by rewrite !N.div_0_r|]. apply N.Div0.div_le_mono. lia. Qed.
Lemma polls_sleep deadline now interval late : (0 < interval)%N -> (now < deadline)%N ->
  (polls (deadline - (now + interval + late)) interval + 1 <= polls (deadline - now) interval)%N.
Proof.
  intros Hi Hn. unfold polls. destruct (decide (deadline - now < interval)%N) as [Hl|Hl].
  - rewrite (N.div_small (deadline - _ + _ - 1)) by lia. apply (N.div_le_lower_bound _ interval); lia.
  - rewrite <- N.div_add by lia. apply N.Div0.div_le_mono. lia.
Qed.

Definition AWAIT_TURNS : N := (3 + polls START_TIMEOUT START_POLL_INTERVAL)%N.
Definition CLAIM_TURNS : N := (AWAIT_TURNS + 10 + 6 * polls START_TIMEOUT START_POLL_INTERVAL)%N.
Definition LONGEST_START : N := (CLAIM_TURNS + 4 + polls STOP_TIMEOUT STOP_POLL_INTERVAL)%N.
(** At most how many calls of its own a start still makes. *)
Definition turns_left (now : N) (s : Start) : N :=
  let round := (AWAIT_TURNS + 6 * polls (st_deadline s - now) START_POLL_INTERVAL)%N in
  match st_call s with
  | Entry => LONGEST_START
  | StopMismatched => CLAIM_TURNS + 3 + polls STOP_TIMEOUT STOP_POLL_INTERVAL
  | AwaitHello _ _ => CLAIM_TURNS + 2 + polls STOP_TIMEOUT STOP_POLL_INTERVAL
  | UntilGone => CLAIM_TURNS + 1 + polls (st_deadline s - now) STOP_POLL_INTERVAL
  | Poll => round + 10
  | OpenClaim => round + 9
  | Flock _ => round + 8
  | StillNames _ => round + 7
  | Abandon _ _ => round + 6
  | Deadline => round + 5
  | Recheck _ => AWAIT_TURNS + 2
  | Spawn _ => AWAIT_TURNS + 1
  | Await _ => 3 + polls (st_deadline s - now) START_POLL_INTERVAL
  | Unlink _ _ => 2
  | Close _ _ => 1
  | Ended _ | Killed => 0
  end%N.
Fixpoint turns (p : Pid) (es : list Event) : nat :=
  match es with [] => 0 | Runs q _ _ :: es => (if p =? q then 1 else 0) + turns p es | _ :: es => turns p es end.
Definition over (call : Call_) : bool := match call with Ended _ | Killed => true | _ => false end.

Lemma turns_left_later now now' s : (now <= now')%N -> (turns_left now' s <= turns_left now s)%N.
Proof.
  intros Hn. unfold turns_left. pose proof (polls_mono (st_deadline s - now') (st_deadline s - now) START_POLL_INTERVAL). pose proof (polls_mono (st_deadline s - now') (st_deadline s - now) STOP_POLL_INTERVAL).
  destruct (st_call s); lia.
Qed.
Lemma turns_left_hung_up now s : turns_left now (hang_up s) = turns_left now s.
Proof. destruct s as [call d]. by destruct call. Qed.
Lemma turn_spends ok late p w w' : start_step ok late p w = Some w' -> exists s s', w_starts w !! p = Some s /\
  w_starts w' = <[p := s']> (w_starts w) /\ (w_now w <= w_now w')%N /\ (turns_left (w_now w') s' + 1 <= turns_left (w_now w) s)%N.
Proof.
  unfold start_step, start_call, gone_call, claim_call, take_call, await_call, drop_call, goto, within, sleep_. destruct (w_starts w !! p) as [[call d]|] eqn:Es; [|done]. cbn [mbind option_bind st_call st_deadline]. intros Hs. exists (mkStart call d).
  pose proof (polls_sleep d (w_now w) START_POLL_INTERVAL late eq_refl) as H1. pose proof (polls_sleep d (w_now w) STOP_POLL_INTERVAL late eq_refl) as H2.
  destruct call; unfold tell_mismatched, open_claim in Hs; repeat case_match; simplify_eq;
    (eexists; split; [done|]; split; [reflexivity|]; unfold turns_left; cbn [w_now with_start with_now with_path with_locks with_socket st_call st_deadline]).
  all: assert (forall a b, a + b - a = b)%N as Hb by lia; rewrite ?Hb.
  all: repeat match goal with H : (_ <? _)%N = _ |- _ => first [apply N.ltb_lt in H|apply N.ltb_ge in H] | H : (_ <=? _)%N = _ |- _ => first [apply N.leb_le in H|apply N.leb_gt in H] end.
  all: unfold LONGEST_START, CLAIM_TURNS, AWAIT_TURNS in *; lia.
Qed.
Lemma turns_bounded p es : forall w w' s, w_starts w !! p = Some s -> run_events es w = Some w' ->
  exists s', w_starts w' !! p = Some s' /\ (w_now w <= w_now w')%N /\ (N.of_nat (turns p es) + turns_left (w_now w') s' <= turns_left (w_now w) s)%N.
Proof.
  induction es as [|e es IH]; intros w w' s Es; cbn [run_events turns]; [intros [= <-]; exists s; split; [done|]; lia|].
  destruct (event_step e w) as [w1|] eqn:E; [|done]. cbn [mbind option_bind]. intros Hr.
  assert (forall t, w_starts w1 !! p = Some t -> (w_now w <= w_now w1)%N -> (N.of_nat (turns p (e :: es) - turns p es) + turns_left (w_now w1) t <= turns_left (w_now w) s)%N ->
    exists s', w_starts w' !! p = Some s' /\ (w_now w <= w_now w')%N /\ (N.of_nat (turns p (e :: es)) + turns_left (w_now w') s' <= turns_left (w_now w) s)%N) as Hnext.
  { intros t Et Hn Ht. destruct (IH _ _ _ Et Hr) as (s' & Es' & Hn' & Hb). exists s'. split; [done|]. split; [lia|]. cbn [turns] in *. destruct e; try destruct (_ =? _); lia. }
  cbn [turns] in Hnext. destruct e as [q|q ok late|q|q|q|q readable|clean|time]; cbn [event_step] in E.
  - case_bool_decide as Hq; [done|]. simplify_eq. apply (Hnext s); cbn [w_starts w_now with_start]; [|lia..]. rewrite lookup_insert_ne; [done|]. intros ->. apply Hq. by exists s.
  - destruct (turn_spends _ _ _ _ _ E) as (t & t' & Et & E' & Hn & Hb). destruct (Nat.eqb_spec p q) as [->|Hpq].
    + rewrite Es in Et. simplify_eq. apply (Hnext t'); [by rewrite E', lookup_insert_eq|done|lia].
    + apply (Hnext s); [by rewrite E', lookup_insert_ne|done|]. pose proof (turns_left_later _ _ s Hn). lia.
  - destruct (w_starts w !! q) as [t|] eqn:Et; [|done]. cbn [mbind option_bind] in E. simplify_eq. destruct (decide (q = p)) as [->|Hq].
    + apply (Hnext (mkStart Killed (st_deadline t))); cbn [w_starts w_now with_start with_locks]; [apply lookup_insert_eq|lia|unfold turns_left at 1; cbn [st_call]; lia].
    + apply (Hnext s); cbn [w_starts w_now with_start with_locks]; [by rewrite lookup_insert_ne|lia..].
  - case_match; simplify_eq. apply (Hnext s); cbn; [done|lia..].
  - case_match; simplify_eq. apply (Hnext s); cbn; [done|lia..].
  - apply greets_self in E as (t & heard & Et & Ec & -> & _). destruct (decide (q = p)) as [->|Hq].
    + rewrite Es in Et. simplify_eq. apply (Hnext (mkStart (AwaitHello heard true) (st_deadline t))); cbn [w_starts w_now with_start]; [apply lookup_insert_eq|lia|].
      unfold turns_left. rewrite Ec. cbn [st_call]. lia.
    + apply (Hnext s); cbn [w_starts w_now with_start]; [by rewrite lookup_insert_ne|lia..].
  - case_match; simplify_eq. apply (Hnext (hang_up s)); cbn [w_starts w_now hung_up with_socket]; [by rewrite lookup_fmap, Es|lia|]. rewrite (turns_left_hung_up (w_now w) s). lia.
  - simplify_eq. apply (Hnext s); cbn [w_starts w_now with_now]; [done|lia|]. pose proof (turns_left_later (w_now w) (w_now w + time) s). lia.
Qed.
(** A start that waits for a hello on an open connection. *)
Definition unheard (call : Call_) : bool := match call with AwaitHello Silent true => true | _ => false end.
Lemma turn_taken p w s : w_starts w !! p = Some s -> over (st_call s) = false -> unheard (st_call s) = false -> is_Some (start_step true 0 p w).
Proof.
  intros Es Ho Hu. unfold start_step, start_call, gone_call, claim_call, take_call, await_call, drop_call, goto, within, sleep_. rewrite Es. cbn [mbind option_bind]. destruct s as [call d]. cbn [st_call st_deadline] in *.
  destruct call; try discriminate Ho; try discriminate Hu; unfold tell_mismatched, open_claim; repeat case_match; try discriminate Hu; by eexists.
Qed.
(** Its connection is to a daemon that is up. *)
Definition connected (w : World) : Prop := forall p s heard, w_starts w !! p = Some s -> st_call s = AwaitHello heard true -> is_live w = true.
Lemma start_step_connected ok late p w w' : connected w -> start_step ok late p w = Some w' -> connected w'.
Proof.
  intros Hc Hs. assert (is_live w' = is_live w) as El.
  { unfold start_step, start_call, gone_call, claim_call, take_call, await_call, drop_call, goto, within, sleep_ in Hs. destruct (w_starts w !! p) as [s|] eqn:Es; [|done]. cbn [mbind option_bind] in Hs.
    destruct (st_call s); unfold tell_mismatched, open_claim in Hs; repeat case_match; simplify_eq; try done; unfold is_live; cbn; by case_match. }
  pose proof (start_step_self _ _ _ _ _ Hs) as (s & Es & s' & E). intros q t heard. rewrite E, El, lookup_insert. case_decide as Hq; [intros [= <-]|apply Hc].
  unfold start_step, start_call, gone_call, claim_call, take_call, await_call, drop_call, goto, within, sleep_ in Hs. rewrite Es in Hs. cbn [mbind option_bind] in Hs.
  intros Ec. destruct (is_live w) eqn:Elw; [done|]. destruct (st_call s) eqn:Es1; unfold tell_mismatched, open_claim in Hs; cbn [andb] in Hs; repeat case_match; simplify_eq.
  all: match type of E with w_starts ?v = _ => pose proof (f_equal (fun m => m !! q) E) as E1; cbn in E1; rewrite !lookup_insert_eq in E1 end; by simplify_eq.
Qed.
Lemma event_step_connected e w w' : connected w -> event_step e w = Some w' -> connected w'.
Proof.
  intros Hc. destruct e as [p|p ok late|p|p|p|p readable|clean|time]; intros He.
  - cbn in He. case_bool_decide; [done|]. simplify_eq. intros q t heard. cbn [w_starts with_start]. rewrite lookup_insert. case_decide; [by intros [= <-]|apply Hc].
  - by eapply start_step_connected.
  - cbn in He. destruct (w_starts w !! p) as [s|]; [|done]. cbn in He. simplify_eq. intros q t heard. cbn [w_starts with_start with_locks]. rewrite lookup_insert. case_decide; [by intros [= <-]|apply Hc].
  - cbn in He. case_match; by simplify_eq.
  - cbn in He. case_match; simplify_eq. exact Hc.
  - apply greets_self in He as (s & heard & Es & Ec & -> & daemon & Hu & _). intros q t h _ _. unfold is_live. cbn [w_socket with_start]. by rewrite Hu.
  - cbn in He. case_match; simplify_eq. intros q t heard (s & <- & Es)%lookup_fmap_Some Ec. exfalso. destruct s as [call d]. by destruct call.
  - cbn in He. simplify_eq. exact Hc.
Qed.
Lemma run_events_connected es w w' : initial w -> run_events es w = Some w' -> connected w'.
Proof. intros Hi. apply (run_events_ind connected); [intros e v v'; apply event_step_connected|]. intros p s heard. by rewrite (ini_starts _ Hi), lookup_empty. Qed.
(** It waits for as long as the daemon does not come to it, and no longer. *)
Lemma unheard_waits p w s : connected w -> w_starts w !! p = Some s -> unheard (st_call s) = true ->
  (forall ok late, start_step ok late p w = None) /\
  forall e, (exists clean, e = Exits clean) \/ (exists readable, e = Greets p readable) -> exists w', event_step e w = Some w' /\ is_Some (start_step true 0 p w').
Proof.
  intros Hc Es Hu. destruct (st_call s) as [| |[| |] []| | | | | | | | | | | | | |] eqn:Ec; try discriminate Hu. pose proof (Hc p s Silent Es Ec) as Hl. split.
  - intros ok late. unfold start_step. rewrite Es. cbn [mbind option_bind]. by rewrite Ec.
  - unfold is_live in Hl. destruct (w_socket w) as [| |daemon] eqn:Ew; try discriminate Hl. intros e [[clean ->]|[readable ->]]; cbn [event_step].
    + unfold is_live. rewrite Ew. eexists. split; [done|]. apply (turn_taken p _ (hang_up s)); [cbn [w_starts hung_up with_socket]; by rewrite lookup_fmap, Es|unfold hang_up; by rewrite Ec..].
    + rewrite Es. cbn [mbind option_bind]. rewrite Ec, Ew. eexists. split; [done|]. eapply turn_taken; [cbn [w_starts with_start]; apply lookup_insert_eq|done|]. unfold greet. by destruct readable.
Qed.
Lemma arrival_bounded p es : forall w w', w_starts w !! p = None -> run_events es w = Some w' ->
  (N.of_nat (turns p es) + from_option (turns_left (w_now w')) 0 (w_starts w' !! p) <= LONGEST_START)%N.
Proof.
  induction es as [|e es IH]; intros w w' Es; cbn [run_events turns]; [intros [= <-]; rewrite Es; cbn; lia|].
  destruct (event_step e w) as [w1|] eqn:E; [|done]. cbn [mbind option_bind]. intros Hr. destruct (w_starts w1 !! p) as [s|] eqn:E1.
  - assert (e = Arrives p /\ s = mkStart Entry 0) as [-> ->].
    { destruct e as [q|q ok late|q|q|q|q readable|clean|time]; cbn [event_step] in E.
      - case_bool_decide; [done|]. simplify_eq. cbn in E1. rewrite lookup_insert in E1. case_decide; [by simplify_eq|congruence].
      - apply start_step_self in E as (t & Et & t' & E). rewrite E in E1. rewrite lookup_insert_ne in E1; congruence.
      - destruct (w_starts w !! q) as [t|] eqn:Et; [|done]. cbn [mbind option_bind] in E. simplify_eq. cbn in E1. rewrite lookup_insert_ne in E1; congruence.
      - case_match; simplify_eq. cbn in E1. congruence.
      - case_match; simplify_eq. cbn in E1. congruence.
      - apply greets_self in E as (t & heard & Et & _ & -> & _). cbn in E1. rewrite lookup_insert_ne in E1; congruence.
      - case_match; simplify_eq. cbn in E1. rewrite lookup_fmap, Es in E1. discriminate E1.
      - simplify_eq. cbn in E1. congruence. }
    destruct (turns_bounded p es w1 w' _ E1 Hr) as (s' & Es' & _ & Hb). rewrite Es'. cbn [from_option]. change (turns_left (w_now w1) (mkStart Entry 0)) with LONGEST_START in Hb. exact Hb.
  - specialize (IH _ _ E1 Hr). destruct e as [q|q ok late|q|q|q|q readable|clean|time]; try exact IH. destruct (Nat.eqb_spec p q) as [->|Hq]; [|exact IH].
    apply start_step_self in E as (t & Et & _). congruence.
Qed.

(** C19: Every start ends, whatever the other starts and the clock do, unless the daemon it found running never writes its
    hello: it ends within [LONGEST_START] calls of its own, the bound of its three waits with their polls, and until it has
    ended it can always make its next call, save while it reads the hello of a daemon that is up and has not come to its
    connection. That read nothing bounds; it goes on as soon as the daemon greets it or exits. *)
Theorem every_start_ends (w0 w : World) (es : list Event) (p : Pid) (s : Start) :
  initial w0 -> run_events es w0 = Some w -> w_starts w !! p = Some s ->
  (N.of_nat (turns p es) <= LONGEST_START)%N /\
  (N.of_nat (turns p es) = LONGEST_START -> over (st_call s) = true) /\
  (over (st_call s) = false -> unheard (st_call s) = false -> is_Some (start_step true 0 p w)) /\
  (unheard (st_call s) = true -> is_live w = true /\ (forall ok late, start_step ok late p w = None) /\
     forall e, (exists clean, e = Exits clean) \/ (exists readable, e = Greets p readable) -> exists w', event_step e w = Some w' /\ is_Some (start_step true 0 p w')).
Proof.
  intros Hi Hr Es. pose proof (run_events_connected _ _ _ Hi Hr) as Hcon. assert (w_starts w0 !! p = None) as En by by rewrite (ini_starts _ Hi), lookup_empty.
  pose proof (arrival_bounded p es w0 w En Hr) as Hb. rewrite Es in Hb. cbn [from_option] in Hb. split; [lia|]. split; [|split; [by apply turn_taken|]].
  2:{ intros Hu. split; [|by eapply unheard_waits]. destruct (st_call s) as [| |[| |] []| | | | | | | | | | | | | |] eqn:Ec; try discriminate Hu. by eapply Hcon. }
  intros Ht. assert (turns_left (w_now w) s = 0%N) as Hz by lia. unfold turns_left in Hz. destruct (st_call s); try done; lia.
Qed.

Lemma run_cons e es w w1 : event_step e w = Some w1 -> run_events (e :: es) w = run_events es w1.
Proof. intros E. cbn [run_events]. by rewrite E. Qed.
(** A start that died cannot lock a root out: once every earlier start has ended or been killed, wherever it stood, and no
    daemon answers, a new start running alone is granted the claim and goes on to spawn the daemon. *)
Theorem lone_start_spawns (w0 w : World) (es : list Event) (p : Pid) :
  initial w0 -> run_events es w0 = Some w ->
  (forall q s, w_starts w !! q = Some s -> over (st_call s) = true) -> is_live w = false -> w_starts w !! p = None ->
  exists w' file deadline, run_events (Arrives p :: replicate 6 (Runs p true 0)) w = Some w' /\
    w_starts w' !! p = Some (mkStart (Spawn file) deadline) /\ w_path w' = Some file /\ w_locks w' !! file = Some p.
Proof.
  intros Hi Hr Hover Hl Hn. pose proof (run_events_claims _ _ _ Hi Hr) as Hw. assert (forall file, w_locks w !! file = None) as Hfree.
  { intros file. destruct (w_locks w !! file) as [q|] eqn:E; [|done]. apply (ch_held _ Hw) in E as (s & Es & Hs). pose proof (Hover _ _ Es). by destruct (st_call s). }
  cbn [replicate]. rewrite (run_cons (Arrives p) _ w (with_start w p (mkStart Entry 0))) by (cbn [event_step]; rewrite bool_decide_eq_false_2; [done|rewrite Hn; by intros [? ?]]).
  destruct w as [now path fresh locks socket coming starts]. cbn [w_locks w_starts] in *. destruct socket as [| |daemon]; [| |discriminate Hl].
  all: destruct path as [file|]; do 6 (erewrite run_cons; [|cbn [event_step]; unfold start_step, start_call, gone_call, claim_call, take_call, await_call, drop_call, goto, within, sleep_, open_claim, still_names, is_live;
    cbn [w_now w_path w_fresh w_locks w_socket w_coming w_starts with_start with_now with_path with_locks with_socket fst snd]; rewrite lookup_insert_eq;
    cbn [mbind option_bind st_call st_deadline w_now w_path w_fresh w_locks w_socket w_coming w_starts with_start with_now with_path with_locks with_socket];
    rewrite ?Hfree; rewrite ?bool_decide_eq_true_2 by done; reflexivity]).
  all: eexists _, _, _; split; [reflexivity|]; cbn [w_starts w_path w_locks with_start with_locks with_path]; by rewrite !lookup_insert_eq.
Qed.

(** ** Witnesses *)

Local Notation bare := (mkWorld 0 None 0 ∅ NoSocket [] ∅).
Lemma bare_initial socket : initial (mkWorld 0 None 0 ∅ socket [] ∅).
Proof. by split. Qed.
Local Notation runs p := (Runs p true 0).
(** Two starts open one claim file; the first locks it, the second waits for its daemon. *)
Local Notation two_starts := [Arrives 1; Arrives 2; runs 1; runs 2; runs 1; runs 2; runs 1; runs 2; runs 1; runs 2; runs 1; runs 1; runs 2; runs 1; runs 1;
  ComesUp 1; runs 2; runs 1; runs 1; runs 1].
Lemma one_start_wins_witness : exists w p0, run_events two_starts bare = Some w /\ w_socket w = Up (mkDaemonUp p0 true false) /\ is_Some (w_starts w !! p0).
Proof.
  destruct (run_events two_starts bare) as [w|] eqn:E; [|vm_compute in E; discriminate E]. exists w.
  destruct (one_start_wins bare w two_starts (bare_initial NoSocket) eq_refl eq_refl) as (p0 & Hp & Hu & _).
  - repeat constructor.
  - exact E.
  - intros p s Es. vm_compute in E. injection E as <-. cbn [w_starts] in Es.
    match type of Es with ?m !! _ = _ => assert (map_Forall (fun _ t => match st_call t with Ended o => o <> HeldTooLong /\ o <> NoAnswer | _ => False end) m) as Hall end.
    { apply map_Forall_to_list. vm_compute. repeat constructor; discriminate. }
    specialize (Hall p s Es). cbn beta in Hall. destruct (st_call s) as [| | | | | | | | | | | | | | |o|]; try contradiction. exists o. split; [reflexivity|exact Hall].
  - intros Hempty. rewrite map_empty in Hempty. specialize (Hempty 1). vm_compute in E. injection E as <-. vm_compute in Hempty. discriminate Hempty.
  - exists p0. split; [reflexivity|]. split; [exact Hu|exact Hp].
Defined.

(** Midway through, the first start holds the claim and the second was refused the lock. *)
Local Notation midway := [Arrives 1; Arrives 2; runs 1; runs 2; runs 1; runs 2; runs 1; runs 2; runs 1; runs 2; runs 1; runs 1].
Lemma start_claim_exclusive_witness : exists w, run_events midway bare = Some w /\ w_path w = Some 0 /\ w_locks w !! 0 = Some 1.
Proof.
  destruct (run_events midway bare) as [w|] eqn:E; [|vm_compute in E; discriminate E]. exists w. split; [reflexivity|].
  apply (start_claim_exclusive bare w midway 1 1 (mkStart (Spawn 0) 30000) (mkStart (Spawn 0) 30000) 0 0 (bare_initial NoSocket) E);
    try reflexivity; vm_compute in E; injection E as <-; reflexivity.
Defined.
(** A start that finds a daemon busy with another client: it holds its connection, and waits. *)
Local Notation kept_waiting := [Arrives 1; runs 1; runs 1].
Local Notation busy_daemon := (mkWorld 0 None 0 ∅ (Up (mkDaemonUp 0 true false)) [] ∅).
Lemma every_start_ends_witness : (exists w, run_events midway bare = Some w /\ is_Some (start_step true 0 1 w) /\ (N.of_nat (turns 1 midway) <= LONGEST_START)%N) /\
  exists w, run_events kept_waiting busy_daemon = Some w /\ (forall ok late, start_step ok late 1 w = None) /\ exists w', event_step (Greets 1 true) w = Some w' /\ is_Some (start_step true 0 1 w').
Proof.
  split.
  - destruct (run_events midway bare) as [w|] eqn:E; [|vm_compute in E; discriminate E]. exists w. split; [reflexivity|].
    destruct (every_start_ends bare w midway 1 (mkStart (Spawn 0) 30000) (bare_initial NoSocket) E) as (Hb & _ & Hs & _).
    + vm_compute in E. injection E as <-. reflexivity.
    + split; [apply Hs; reflexivity|exact Hb].
  - destruct (run_events kept_waiting busy_daemon) as [w|] eqn:E; [|vm_compute in E; discriminate E]. exists w. split; [reflexivity|].
    destruct (every_start_ends busy_daemon w kept_waiting 1 (mkStart (AwaitHello Silent true) 0) (bare_initial _) E) as (_ & _ & _ & Hu).
    + vm_compute in E. injection E as <-. reflexivity.
    + destruct (Hu eq_refl) as (_ & Hn & He). split; [exact Hn|]. apply He. right. exists true. reflexivity.
Defined.
(** A start killed while it held the claim, and the start after it. *)
Lemma lone_start_spawns_witness : exists w w' file deadline, run_events (midway ++ [runs 2; runs 2; runs 2; Dies_ 1; Dies_ 2]) bare = Some w /\
  run_events (Arrives 3 :: replicate 6 (runs 3)) w = Some w' /\ w_starts w' !! 3 = Some (mkStart (Spawn file) deadline).
Proof.
  destruct (run_events (midway ++ [runs 2; runs 2; runs 2; Dies_ 1; Dies_ 2]) bare) as [w|] eqn:E; [|vm_compute in E; discriminate E]. exists w.
  destruct (lone_start_spawns bare w _ 3 (bare_initial NoSocket) E) as (w' & file & deadline & Hr & Hs & _).
  - intros q s Es. vm_compute in E. injection E as <-. cbn [w_starts] in Es.
    match type of Es with ?m !! _ = _ => assert (map_Forall (fun _ t => over (st_call t) = true) m) as Hall end.
    { apply map_Forall_to_list. vm_compute. repeat constructor. }
    exact (Hall q s Es).
  - vm_compute in E. injection E as <-. reflexivity.
  - vm_compute in E. injection E as <-. reflexivity.
  - exists w', file, deadline. split; [reflexivity|]. split; [exact Hr|exact Hs].
Defined.

(** ** A daemon that takes its time *)

(** The stop of a daemon of another protocol is waited for, but not past its bound: a daemon that still answers then is
    reported as already running, and once it is gone nothing runs. *)
Lemma slow_stop_strands_the_root :
  exists w, run_events [Arrives 1; runs 1; runs 1; Greets 1 true; runs 1; Passes STOP_TIMEOUT; runs 1; runs 1; Exits true] (mkWorld 0 None 0 ∅ (Up (mkDaemonUp 0 false false)) [] ∅) = Some w /\
    st_call <$> w_starts w !! 1 = Some (Ended AlreadyRunning_) /\ w_socket w = NoSocket /\ w_coming w = [].
Proof. eexists. split_and!; [vm_compute; reflexivity|reflexivity..]. Qed.
(** A daemon serves one client at a time, and greets the next when that one is done: a start that finds it busy waits for the
    hello for as long as it takes, though every other wait of a start is bounded. *)
Lemma busy_daemon_holds_the_start (time : N) :
  exists w, run_events (kept_waiting ++ [Passes time]) busy_daemon = Some w /\ w_now w = time /\
    st_call <$> w_starts w !! 1 = Some (AwaitHello Silent true) /\ forall ok late, start_step ok late 1 w = None.
Proof. eexists. split_and!; [reflexivity..|]. done. Qed.
