(* ===== verification/Version.v ===== *)
(** * Version: which engine is started

    Models [crates/ktsense-lsp/src/version.rs]: the engine is asked for its version once, and the answer decides whether
    it is started, started with a warning, or refused. What the child process printed is the argument; a string in debug
    form, which needs the Unicode tables, is [debug]. *)
From S2P Require Import Prelude Collections Text Utf8.

Set Default Proof Using "Type*".

Definition PINNED_UPSTREAM_VERSION : str := lit "0.26.0".
Inductive Compatibility := Supported | Untested | Unsupported.
Inductive VersionCheck := Compatible | Warn (diagnostic : str) | Refuse (diagnostic : str).
Inductive VersionProbe := Reported (line : str) | NoOutput | ProbeFailed (reason : str).
Record Semver := mkSemver { sv_major : N; sv_minor : N; sv_prerelease : bool }.

Definition reported_or_empty (stdout : list N) : VersionProbe :=
  let text := trim (from_utf8_lossy stdout) in if bool_decide (text = []) then NoOutput else Reported text.
Definition without_v (piece : str) : str := skip_while (fun c => (c =? ch "v")%N) piece.
Definition looks_like_version (piece : str) : bool :=
  bool_decide (ch "." ∈ piece) && match without_v piece with c :: _ => ascii_digit c | [] => false end.
Definition ends_core (c : char) : bool := (c =? ch "-")%N || (c =? ch "+")%N.
Definition parse (reported : str) : option Semver :=
  token ← head (filter (fun piece => looks_like_version piece = true) (split_whitespace reported));
  let core := without_v token in
  let numbers := split_char (ch ".") (take_while (fun c => negb (ends_core c)) core) in
  major ← numbers !! 0; major ← parse_unsigned u32_max major;
  minor ← numbers !! 1; minor ← parse_unsigned u32_max minor;
  Some (mkSemver major minor (existsb ends_core core)).
Definition compare (found : Semver) : option Compatibility :=
  pin ← parse PINNED_UPSTREAM_VERSION;
  Some (if negb (sv_major found =? sv_major pin)%N then Unsupported
        else if negb (sv_minor found =? sv_minor pin)%N then Untested
        else Supported).
Definition classify (reported : str) : option Compatibility := match parse reported with Some found => compare found | None => Some Unsupported end.

Section messages.
Context (debug : str -> str).
Definition major_mismatch_message (reported : str) : str :=
  lit "kmp-lsp reports " ++ debug reported ++ lit ", but ktsense " ++ PINNED_UPSTREAM_VERSION
  ++ lit " needs a matching major version. Refusing to start to avoid wrong answers; install kmp-lsp " ++ PINNED_UPSTREAM_VERSION
  ++ lit " or point KTSENSE_LSP_PATH at a compatible build.".
Definition minor_drift_message (reported : str) : str :=
  lit "kmp-lsp reports " ++ debug reported ++ lit "; ktsense was tested against " ++ PINNED_UPSTREAM_VERSION
  ++ lit ". Continuing, but results may differ where the protocol has changed.".
Definition prerelease_message (reported : str) : str :=
  lit "kmp-lsp reports prerelease " ++ debug reported ++ lit "; ktsense was tested against the released " ++ PINNED_UPSTREAM_VERSION
  ++ lit ". Continuing, but prerelease builds are untested.".
Definition unparsed_message (reported : str) : str :=
  lit "could not read a version from kmp-lsp --version output " ++ debug reported ++ lit "; expected something like "
  ++ debug PINNED_UPSTREAM_VERSION ++ lit ". Continuing without a compatibility check.".
Definition no_output_message : str :=
  lit "kmp-lsp --version produced no output, so its version could not be checked against " ++ PINNED_UPSTREAM_VERSION
  ++ lit ". Continuing without a compatibility check.".
Definition probe_failed_message (reason : str) : str :=
  lit "could not run kmp-lsp --version (" ++ reason ++ lit "); skipping the compatibility check against " ++ PINNED_UPSTREAM_VERSION
  ++ lit ". Continuing.".
Definition assess_reported (reported : str) : option VersionCheck :=
  match parse reported with
  | None => Some (Warn (unparsed_message reported))
  | Some found =>
      compatibility ← compare found;
      Some (match compatibility with
            | Unsupported => Refuse (major_mismatch_message reported)
            | Untested => Warn (minor_drift_message reported)
            | Supported => if sv_prerelease found then Warn (prerelease_message reported) else Compatible
            end)
  end.
Definition assess (probe : VersionProbe) : option VersionCheck :=
  match probe with
  | Reported line => assess_reported line
  | NoOutput => Some (Warn no_output_message)
  | ProbeFailed reason => Some (Warn (probe_failed_message reason))
  end.
End messages.
(** [reported_version]: what is shown, not what is gated on. *)
Definition reported_version (probe : VersionProbe) : option str := match probe with Reported version => Some version | _ => None end.

(** ** What a version line says *)

Lemma pin_parses : parse PINNED_UPSTREAM_VERSION = Some (mkSemver 0 26 false).
Proof. by vm_compute. Qed.
Lemma compare_pin found : compare found =
  Some (if (sv_major found =? 0)%N then if (sv_minor found =? 26)%N then Supported else Untested else Unsupported).
Proof. unfold compare. rewrite pin_parses. cbn [mbind option_bind sv_major sv_minor]. by destruct (sv_major found =? 0)%N, (sv_minor found =? 26)%N. Qed.
Lemma take_while_stop {A} (f : A -> bool) l rest : Forall (fun x => f x = true) l -> match rest with x :: _ => f x = false | [] => True end -> take_while f (l ++ rest) = l.
Proof. induction 1 as [|x l Hx _ IH]; intros Hr; cbn [app take_while]; [destruct rest as [|y rest]; [done|]; cbn [take_while]; by rewrite Hr|]. rewrite Hx. by rewrite IH. Qed.
Lemma split_by_word p a rest : Forall (fun c => p c = false) a -> match rest with c :: _ => p c = true | [] => True end ->
  split_by p (a ++ rest) = a :: match rest with [] => [] | _ :: rest => split_by p rest end.
Proof.
  induction 1 as [|c a Hc _ IH]; intros Hr; [destruct rest as [|c rest]; [done|]; cbn; by rewrite Hr|]. cbn [app split_by]. rewrite Hc, IH by done. done.
Qed.
(** A version as engines print it: [patch] and [suffix] carry their leading dot, dash or plus. *)
Definition version_text (major minor : N) (patch suffix : str) : str := dec major ++ lit "." ++ dec minor ++ patch ++ suffix.
Definition patch_text (patch : str) : Prop :=
  match patch with c :: rest => c = ch "." /\ Forall (fun d => ends_core d = false /\ is_whitespace d = false) rest | [] => True end.
Definition suffix_text (suffix : str) : Prop :=
  match suffix with c :: rest => ends_core c = true /\ Forall (fun d => is_whitespace d = false) rest | [] => True end.
Lemma digit_plain c : ascii_digit c = true -> is_whitespace c = false /\ ends_core c = false /\ c <> ch "v" /\ c <> ch ".".
Proof.
  unfold ascii_digit. intros [H1%N.leb_le H2%N.leb_le]%andb_true_iff.
  assert (c ∈ [48; 49; 50; 51; 52; 53; 54; 55; 56; 57]%N) as Hin by (rewrite !elem_of_cons; lia).
  repeat (apply elem_of_cons in Hin as [->|Hin]; [by split_and!|]). by apply elem_of_nil in Hin.
Qed.
Lemma ends_core_plain c : ends_core c = true -> is_whitespace c = false.
Proof. unfold ends_core. intros [E%N.eqb_eq|E%N.eqb_eq]%orb_true_iff; by subst. Qed.
Lemma digits_plain n : Forall (fun c => is_whitespace c = false /\ ends_core c = false) (dec n).
Proof. eapply Forall_impl; [apply dec_digits|]. by intros c (H1 & H2 & _)%digit_plain. Qed.
Lemma version_no_space major minor patch suffix : patch_text patch -> suffix_text suffix -> Forall (fun c => is_whitespace c = false) (version_text major minor patch suffix).
Proof.
  intros Hp Hs. unfold version_text. rewrite !Forall_app. split_and!; [eapply Forall_impl; [apply digits_plain|naive_solver]|by repeat constructor|eapply Forall_impl; [apply digits_plain|naive_solver]|..].
  - destruct patch as [|c rest]; [constructor|]. destruct Hp as [-> Hp]. constructor; [done|]. eapply Forall_impl; [exact Hp|naive_solver].
  - destruct suffix as [|c rest]; [constructor|]. destruct Hs as [Hc Hs]. constructor; [by apply ends_core_plain|done].
Qed.
Lemma without_v_digits n rest : without_v (dec n ++ rest) = dec n ++ rest /\ match dec n ++ rest with c :: _ => ascii_digit c = true | [] => False end.
Proof.
  destruct (dec_digits n) as [Hd Hl]. destruct (dec n) as [|c ds]; [cbn in Hl; lia|]. apply Forall_cons in Hd as [Hc _]. split; [|done]. unfold without_v. cbn [app skip_while].
  apply digit_plain in Hc as (_ & _ & Hv & _). by rewrite (proj2 (N.eqb_neq c (ch "v")) Hv).
Qed.
Lemma parse_version name major minor patch suffix :
  Forall (fun c => is_whitespace c = false) name -> looks_like_version name = false -> (major <= u32_max)%N -> (minor <= u32_max)%N -> patch_text patch -> suffix_text suffix ->
  parse (name ++ lit " " ++ version_text major minor patch suffix) = Some (mkSemver major minor (negb (bool_decide (suffix = [])))).
Proof.
  intros Hn Hl Hmaj Hmin Hp Hs. unfold parse. set (token := version_text major minor patch suffix).
  assert (without_v token = token /\ match token with c :: _ => ascii_digit c = true | [] => False end) as [Hv Hd] by apply without_v_digits.
  assert (looks_like_version token = true) as Hlt.
  { unfold looks_like_version. rewrite Hv. rewrite bool_decide_eq_true_2; [by destruct token|]. unfold token, version_text. rewrite !elem_of_app. right; left. by left. }
  assert (filter (fun piece => looks_like_version piece = true) (split_whitespace (name ++ lit " " ++ token)) = [token]) as ->.
  { unfold split_whitespace. rewrite split_by_word by done. change (match lit " " ++ token with [] => [] | _ :: rest => split_by is_whitespace rest end) with (split_by is_whitespace token).
    rewrite <- (app_nil_r token) at 1. rewrite split_by_word by (try done; by apply version_no_space). destruct (decide (name = [])) as [->|Hne].
    - rewrite filter_cons_False by naive_solver. rewrite (filter_cons_True _ token) by (intros E; by rewrite E in Hd). by rewrite filter_nil, filter_cons_True, filter_nil.
    - rewrite (filter_cons_True (fun piece => piece <> []) name) by done. rewrite (filter_cons_True (fun piece => piece <> []) token) by (intros E; by rewrite E in Hd).
      rewrite filter_nil. rewrite filter_cons_False by (by rewrite Hl). by rewrite filter_cons_True, filter_nil. }
  cbn [head mbind option_bind]. rewrite Hv. clear Hv Hd Hlt. unfold token, version_text.
  assert (Forall (fun c => negb (ends_core c) = true) (dec major ++ lit "." ++ dec minor ++ patch)) as Hcore.
  { rewrite !Forall_app. split_and!; [|by repeat constructor| |].
    1-2: eapply Forall_impl; [apply digits_plain|]; intros c [_ Hc]; cbn; by rewrite Hc.
    destruct patch as [|c rest]; [constructor|]. destruct Hp as [-> Hp]. constructor; [done|]. eapply Forall_impl; [exact Hp|]. intros d [Hd _]. cbn. by rewrite Hd. }
  replace (dec major ++ lit "." ++ dec minor ++ patch ++ suffix) with ((dec major ++ lit "." ++ dec minor ++ patch) ++ suffix) by by rewrite <- !app_assoc.
  rewrite take_while_stop; [|done|destruct suffix as [|c rest]; [done|]; destruct Hs as [Hc _]; by rewrite Hc].
  assert (forall n, ch "." ∉ dec n) as Hdot.
  { intros n Hin. destruct (dec_digits n) as [Hd _]. rewrite Forall_forall in Hd. apply Hd, digit_plain in Hin as (_ & _ & _ & Hc). done. }
  change (lit "." ++ dec minor ++ patch) with (ch "." :: dec minor ++ patch).
  assert (exists rest, split_char (ch ".") (dec minor ++ patch) = dec minor :: rest) as [rest Er].
  { destruct patch as [|c rest]; [exists []; by rewrite app_nil_r, split_char_free|]. destruct Hp as [-> _]. exists (split_char (ch ".") rest). by rewrite split_char_app. }
  rewrite split_char_app by apply Hdot. rewrite Er. cbn [lookup list_lookup mbind option_bind]. rewrite parse_dec by done.
  cbn [mbind option_bind]. rewrite parse_dec by done. cbn [mbind option_bind]. f_equal. f_equal. rewrite existsb_app.
  assert (existsb ends_core (dec major ++ ch "." :: dec minor ++ patch) = false) as ->.
  { apply not_true_iff_false. intros (c & Hin & Hc)%existsb_exists. apply list_elem_of_In in Hin. rewrite Forall_forall in Hcore. apply Hcore in Hin. by rewrite Hc in Hin. }
  destruct suffix as [|c rest']; [done|]. destruct Hs as [Hc _]. cbn. by rewrite Hc.
Qed.

(** ** Properties *)

(** The engine is refused exactly when it says a version of another major: on the line it prints, [name M.m] with perhaps a
    patch and a suffix, another major refuses, another minor warns, a suffix warns and the pinned version starts silently;
    a probe that fails, prints nothing or prints no version warns; nothing else refuses, and every probe is judged. *)
Theorem version_gate_exact (debug : str -> str) (name : str) (major minor : N) (patch suffix : str) :
  Forall (fun c => is_whitespace c = false) name -> looks_like_version name = false -> (major <= u32_max)%N -> (minor <= u32_max)%N ->
  patch_text patch -> suffix_text suffix ->
  let line := name ++ lit " " ++ version_text major minor patch suffix in
  assess debug (Reported line) =
    Some (if negb (major =? 0)%N then Refuse (major_mismatch_message debug line)
          else if negb (minor =? 26)%N then Warn (minor_drift_message debug line)
          else if bool_decide (suffix = []) then Compatible else Warn (prerelease_message debug line)) /\
  forall probe, exists check, assess debug probe = Some check /\
    ((exists diagnostic, check = Refuse diagnostic) <-> exists said found, probe = Reported said /\ parse said = Some found /\ sv_major found <> 0%N).
Proof.
  intros Hn Hl Hmaj Hmin Hp Hs line. split.
  - cbn [assess]. unfold assess_reported, line. rewrite parse_version by done. rewrite compare_pin. cbn [mbind option_bind sv_major sv_minor sv_prerelease].
    destruct (major =? 0)%N, (minor =? 26)%N; cbn [negb]; try done. by case_bool_decide.
  - intros [said| |reason]; cbn [assess]; [|eexists; split; [done|]; split; [by intros [d [=]]|by intros (s & f & [=] & _)]..].
    unfold assess_reported. destruct (parse said) as [found|] eqn:E.
    + rewrite compare_pin. cbn [mbind option_bind]. eexists. split; [done|]. destruct (N.eqb_spec (sv_major found) 0) as [Hz|Hz].
      * split; [|intros (s & f & [= <-] & Ef & Hf); congruence]. intros [d Hd]. repeat case_match; by simplify_eq.
      * split; [by exists said, found|by eexists].
    + eexists. split; [done|]. split; [by intros [d [=]]|]. intros (s & f & [= <-] & Ef & _). congruence.
Qed.
Lemma version_gate_exact_witness : assess id (Reported (lit "kmp-lsp 1.2.3-rc1")) = Some (Refuse (major_mismatch_message id (lit "kmp-lsp 1.2.3-rc1"))).
Proof.
  apply (version_gate_exact id (lit "kmp-lsp") 1 2 (lit ".3") (lit "-rc1")); try (vm_compute; discriminate); repeat constructor.
Defined.

(** The refusal names the pinned engine version as the version of ktsense. *)
Lemma refusal_names_the_engine_version debug reported : exists before after,
  major_mismatch_message debug reported = before ++ lit "but ktsense " ++ PINNED_UPSTREAM_VERSION ++ after.
Proof. unfold major_mismatch_message. exists (lit "kmp-lsp reports " ++ debug reported ++ lit ", "). eexists. rewrite <- !app_assoc. cbn. reflexivity. Qed.
