(* ===== verification/Status.v ===== *)
(** * Status: what an installation would answer with, and the daemon commands that report it

    Models [crates/ktsense-cli/src/status.rs] and, of [daemon.rs] beside it, what the lifecycle commands say and the
    arguments they spawn processes with; which of several starts spawns a daemon is [Start]. The engine's version probe,
    the search path, what the socket yields and the errors' own texts are arguments; [JSON null] is [null_]. *)
From Stdlib Require Import QArith.Qcanon.
From stdpp Require Import gmap.
From S2P Require Import Prelude Collections Start Budget Text Utf8 Graph Skeleton References Query Sites Imports Trace Render RepoMap Context Answers Files Cst Extract Scan Symbols Engine Commands Cache Index Session SessionSpec Search Daemon Placement Routing Version.

Set Default Proof Using "Type*".

(** ** The report *)

Definition LSP_BINARY : str := lit "kmp-lsp".
Definition index_text (label : IndexLabel) : str :=
  match label with LabelPending => lit "pending" | LabelIndexing => lit "indexing" | LabelComplete => lit "complete" end.
Inductive CompatibilityLabel := SupportedLabel | UntestedLabel | UnsupportedLabel | Unavailable.
Definition compatibility_text (label : CompatibilityLabel) : str :=
  match label with
  | SupportedLabel => lit "supported" | UntestedLabel => lit "untested" | UnsupportedLabel => lit "unsupported" | Unavailable => lit "unavailable"
  end.
Definition compatibility_label (compatibility : Compatibility) : CompatibilityLabel :=
  match compatibility with Supported => SupportedLabel | Untested => UntestedLabel | Unsupported => UnsupportedLabel end.
Record EngineStatus := mkEngineStatus {
  en_binary : str; en_pinned_version : str; en_version : option str; en_compatibility : CompatibilityLabel }.
Record ProtocolMismatchReport := mkMismatch { pm_daemon : N; pm_build : N }.
Inductive DaemonState := Running | StaleDaemon | AbsentDaemon.
Record DaemonStatus := mkDaemonStatus {
  ds_socket : str; ds_state : DaemonState; ds_mismatch : option ProtocolMismatchReport; ds_snapshot : option DaemonSnapshot }.
Record StatusReport := mkStatusReport {
  sr_root : str; sr_kotlin_files : nat; sr_engine : EngineStatus; sr_ripgrep : option str; sr_daemon : DaemonStatus }.

(** ** What is observed *)

Definition bare_version (reported : str) : str :=
  match strip_prefix reported LSP_BINARY with
  | Some rest => let rest := trim rest in if bool_decide (rest = []) then reported else rest
  | None => reported
  end.
(** [components().count()]: the root of an absolute path is one. *)
Definition component_count (path : str) : nat :=
  let parsed := parse_path path in (if fp_rooted parsed then 1 else 0) + length (fp_components parsed).
Definition resolve_on_path (is_file : str -> bool) (binary : str) (path : option (list str)) : str :=
  if component_count binary =? 1
  then default binary (head (filter (fun candidate => is_file candidate = true) ((fun dir => join_text dir binary) <$> default [] path)))
  else binary.
Definition locate_ripgrep (is_file : str -> bool) (path : option (list str)) : option str :=
  head (filter (fun candidate => is_file candidate = true) ((fun dir => join_text dir (lit "rg")) <$> default [] path)).
(** [None] is a pinned version that does not parse, which panics. *)
Definition observe_engine (is_file : str -> bool) (located : str) (probe : VersionProbe) (path : option (list str)) : option EngineStatus :=
  let reported := reported_version probe in
  compatibility ← (match reported with Some reported => compatibility_label <$> classify reported | None => Some Unavailable end);
  Some (mkEngineStatus (resolve_on_path is_file located path) PINNED_UPSTREAM_VERSION (bare_version <$> reported) compatibility).

Section observing.
Context {Value : Type} (null_ : Value) `{Json Value DaemonSnapshot} `{Codec (ServerFrame Value)} `{Codec (ClientFrame Value)}.

Definition fetch_snapshot (connection : Connection) : option DaemonSnapshot :=
  '(chunks, writes) ← connection;
  match connect (Value := Value) chunks with
  | inl _ => None
  | inr chunks =>
      match frame_bytes (RequestFrame STATUS_METHOD null_ : ClientFrame Value) with
      | inl _ => None
      | inr _ =>
          if writes : bool then
            match (answer_of (Value := Value) chunks).1 with
            | inr reply => match from_value reply with inr snapshot => Some snapshot | inl _ => None end
            | inl _ => None
            end
          else None
      end
  end.
(** The connection that learns the version is closed before the one that asks opens. *)
Definition observe_running (announcing asking : Connection) : option DaemonSnapshot * option ProtocolMismatchReport :=
  let announced := '(chunks, _) ← announcing; match connect_any (Value := Value) chunks with inl _ => None | inr version => Some version end in
  match announced with
  | Some version => if (version =? PROTOCOL_VERSION)%N then (fetch_snapshot asking, None) else (None, Some (mkMismatch version PROTOCOL_VERSION))
  | None => (None, None)
  end.
Definition observe_daemon (socket : str) (liveness : Liveness) (announcing asking : Connection) : DaemonStatus :=
  let state := match liveness with Live => Running | Stale => StaleDaemon | Absent => AbsentDaemon end in
  let '(snapshot, mismatch) := match state with Running => observe_running announcing asking | _ => (None, None) end in
  mkDaemonStatus socket state mismatch snapshot.
End observing.

(** ** What is printed *)

Definition humanize (secs : N) : str :=
  let h := (secs / 3600)%N in let m := (secs mod 3600 / 60)%N in let s := (secs mod 60)%N in
  if (h =? 0)%N then if (m =? 0)%N then dec s ++ lit "s" else dec m ++ lit "m " ++ dec s ++ lit "s" else dec h ++ lit "h " ++ dec m ++ lit "m".
Definition engine_line (engine : EngineStatus) : str :=
  match en_version engine with
  | Some version => lit "kmp-lsp " ++ version ++ lit " at " ++ en_binary engine ++ lit " (pinned " ++ en_pinned_version engine ++ lit ", "
                    ++ compatibility_text (en_compatibility engine) ++ lit ")"
  | None => lit "kmp-lsp unavailable at " ++ en_binary engine ++ lit " (pinned " ++ en_pinned_version engine
            ++ lit "); install it or point KTSENSE_LSP_PATH at a build"
  end.
Definition ripgrep_line (ripgrep : option str) : str :=
  match ripgrep with
  | Some path => lit "rg at " ++ path
  | None => lit "not found on PATH; engine find and references return nothing without it"
  end.
Definition daemon_lines (daemon : DaemonStatus) : str :=
  let socket := ds_socket daemon in
  match ds_state daemon with
  | Running =>
      lit "daemon: running" ++ nl ++ lit "socket: " ++ socket ++ nl
      ++ match ds_mismatch daemon with
         | Some mismatch => lit "protocol: daemon speaks protocol " ++ dec (pm_daemon mismatch) ++ lit ", this build speaks " ++ dec (pm_build mismatch) ++ nl
         | None =>
             match ds_snapshot daemon with
             | Some snapshot => lit "uptime: " ++ humanize (sn_uptime_secs snapshot) ++ nl ++ lit "index: " ++ index_text (sn_index snapshot) ++ nl
                                ++ lit "requests served: " ++ dec (sn_requests_served snapshot) ++ nl
                                ++ lit "idle limit: " ++ dec (sn_idle_limit_secs snapshot / 60) ++ lit " min" ++ nl
             | None => lit "uptime, index and request count: not answered" ++ nl
             end
         end
  | StaleDaemon => lit "daemon: not running" ++ nl ++ lit "socket: " ++ socket
                   ++ lit " is a stale leftover and will be reclaimed by the next start" ++ nl
  | AbsentDaemon => lit "daemon: not running" ++ nl ++ lit "socket: " ++ socket ++ lit " does not exist" ++ nl
  end.
Definition status_markdown (report : StatusReport) : str :=
  lit "# Status: " ++ sr_root report ++ nl ++ nl ++ lit "kotlin files: " ++ dec (N.of_nat (sr_kotlin_files report)) ++ nl
  ++ lit "engine: " ++ engine_line (sr_engine report) ++ nl ++ lit "ripgrep: " ++ ripgrep_line (sr_ripgrep report) ++ nl
  ++ daemon_lines (sr_daemon report).

(** ** Where the daemon is: [socket_for] *)

Definition failure (message : str) : CommandError := mkError Failure message.
(** [Display] of a path. *)
Definition display_os (path : OsPath) : str := from_utf8_lossy path.
(** [{:04o}]. *)
Definition octal4 (mode : N) : str := let digits := radix 8 mode in replicate (4 - length digits) (ch "0") ++ digits.
Definition fault_text (fault : BaseFault) : str :=
  match fault with
  | ForeignOwner uid => lit "it is owned by uid " ++ dec uid ++ lit " rather than by this user"
  | WritableByOthers mode => lit "mode " ++ octal4 mode ++ lit " lets another user write into it"
  | SymlinkFault => lit "it is a symbolic link, which could point anywhere"
  | NotADirectory => lit "it is not a directory"
  end.
(** [io_text]: what the operating system says of a base that cannot be read. *)
Definition placement_text (io_text : str) (e : SocketPlacementError) : str :=
  match e with
  | NoShortPath preferred preferred_len fallback fallback_len =>
      lit "no daemon socket path fits in " ++ dec (N.of_nat SOCKET_BUDGET) ++ lit " bytes: " ++ display_os preferred ++ lit " needs "
      ++ dec (N.of_nat preferred_len) ++ lit " and the short fallback " ++ display_os fallback ++ lit " needs " ++ dec (N.of_nat fallback_len)
  | UnsafeShortBase base fault => display_os base ++ lit " cannot hold a daemon socket: " ++ fault_text fault
  | UnreadableShortBase base => lit "cannot inspect " ++ display_os base ++ lit ": " ++ io_text
  end.
Definition short_socket_base (uid : N) : OsPath := lit "/tmp/ktsense-" ++ dec uid.
(** The environment a socket is placed from. *)
Record Surroundings := mkSurroundings {
  su_runtime : option OsPath; su_home : option OsPath; su_uid : N; su_base : BaseMetadata; su_io_text : str;
  su_canonicalize : OsPath -> option OsPath }.
Definition canonical_root (env : Surroundings) (root : OsPath) : OsPath := default root (su_canonicalize env root).
Definition socket_for (env : Surroundings) (root : OsPath) : CommandError + OsPath :=
  match resolve_socket_path (su_base env) (su_uid env) (su_runtime env) (default (lit ".") (su_home env)) (short_socket_base (su_uid env)) (canonical_root env root) with
  | inl e => inl (failure (lit "ktsense: " ++ placement_text (su_io_text env) e))
  | inr socket => inr socket
  end.
Definition CLAIM_SUFFIX : OsPath := lit ".start".
Definition claim_path (socket : OsPath) : OsPath := socket ++ CLAIM_SUFFIX.

(** ** [status] *)

Definition collect (env : Surroundings) (root : OsPath) (w : World) (engine : EngineStatus) (ripgrep : option str) (daemon : str -> DaemonStatus) : Result StatusReport :=
  let root := canonical_root env root in
  files <-? walked (display_os root) w (collect_kotlin_files (w_tree w));
  socket <-? of_sum (socket_for env root);
  ret (mkStatusReport (display_os root) (length files) engine ripgrep (daemon (display_os socket))).
Inductive StatusAnswer := StatusText (text : str) | StatusJson (report : StatusReport).
Definition present_status (report : StatusReport) (format : Format) : CommandError + StatusAnswer :=
  match format with
  | Md => inr (StatusText (status_markdown report))
  | Symbols.Json => inr (StatusJson report)
  | Dot => inl (unsupported_format (lit "status"))
  end.

(** ** [daemon start], [stop], [status] and [serve] *)

Definition already_running (root socket : OsPath) : CommandOutcome :=
  success (Printed (lit "ktsense: a daemon is already running for " ++ display_os root ++ nl ++ lit "socket: " ++ display_os socket ++ nl)).
Definition seconds (ms : N) : str := dec (ms / 1000).
(** What [start] says of how its calls ended; [error] is the text of the call that failed. *)
Definition start_said (root socket : OsPath) (error : str) (outcome : StartOutcome) : CommandError + CommandOutcome :=
  match outcome with
  | AlreadyRunning_ => inr (already_running root socket)
  | Started => inr (success (Printed (lit "ktsense: daemon started for " ++ display_os root ++ nl ++ lit "socket: " ++ display_os socket ++ nl)))
  | HeldTooLong => inl (failure (lit "ktsense: another start holds " ++ display_os socket ++ lit " and produced no daemon within " ++ seconds START_TIMEOUT ++ lit "s"))
  | CannotClaim => inl (failure (lit "ktsense: cannot claim the start for " ++ display_os socket ++ lit ": " ++ error))
  | SpawnFailed => inl (failure (lit "ktsense: cannot start the daemon: " ++ error))
  | NoAnswer => inl (failure (lit "ktsense: the daemon did not answer on " ++ display_os socket ++ lit " within " ++ seconds START_TIMEOUT ++ lit "s"))
  end.
Definition shutdown_said (root : OsPath) (error_text : ClientError -> str) (r : ClientError + StopOutcome) : CommandError + CommandOutcome :=
  match r with
  | inr StopDone => inr (success (Printed (lit "ktsense: daemon stopped for " ++ display_os root ++ nl)))
  | inr NotRunning => inr (success (Printed (lit "ktsense: no daemon was running for " ++ display_os root ++ nl)))
  | inl error => inl (failure (lit "ktsense: cannot stop the daemon: " ++ error_text error))
  end.
Definition report_status (root : OsPath) (daemon : DaemonStatus) : CommandOutcome :=
  let headline := match ds_state daemon with Running => lit "daemon running for" | _ => lit "no daemon running for" end in
  success (Printed (lit "ktsense: " ++ headline ++ lit " " ++ display_os root ++ nl ++ daemon_lines daemon)).
Definition reason_label (reason : StopReason) : str :=
  match reason with
  | Stopped => lit "a client asked it to stop" | Idle => lit "it was idle" | EngineFaulted => lit "its engine session faulted"
  end.
(** [serve]: what warming the engine up and the daemon's [run] came to. *)
Definition serve_said (warmed : str + (str + StopReason)) : CommandError + CommandOutcome :=
  match warmed with
  | inl error => inl (failure (lit "ktsense: cannot start the engine: " ++ error))
  | inr (inl error) => inl (failure (lit "ktsense: daemon failed: " ++ error))
  | inr (inr reason) => inr (success (Printed (lit "ktsense: daemon exited because " ++ reason_label reason ++ nl)))
  end.

(** ** The idle window *)

Definition DEFAULT_IDLE_TIMEOUT : N := 3600%N.
Definition AUTOSTART_IDLE_MINUTES : N := 15%N.
Definition u64_max : N := 18446744073709551615%N.
(** Seconds. *)
Definition resolve_idle (env_secs : option str) (flag_minutes : option N) : N :=
  match (value ← env_secs; parse_unsigned u64_max value) with
  | Some secs => secs
  | None => from_option (fun minutes => N.min (minutes * 60) u64_max) DEFAULT_IDLE_TIMEOUT flag_minutes
  end.
Definition serve_tail (idle_minutes : option N) : list str :=
  [lit "daemon"; lit "serve"] ++ from_option (fun minutes => [lit "--idle"; dec minutes]) [] idle_minutes.
Definition background_start_tail : list str := [lit "daemon"; lit "start"; lit "--idle"; dec AUTOSTART_IDLE_MINUTES].

(** ** Properties *)

(** A count of seconds in hours and minutes, minutes and seconds, or seconds. *)
Definition uptime_text (secs : N) (text : str) : Prop :=
  exists h m s, secs = (3600 * h + 60 * m + s)%N /\ (m < 60)%N /\ (s < 60)%N /\
    ((0 < h)%N /\ text = dec h ++ lit "h " ++ dec m ++ lit "m" \/
     h = 0%N /\ (0 < m)%N /\ text = dec m ++ lit "m " ++ dec s ++ lit "s" \/
     h = 0%N /\ m = 0%N /\ text = dec s ++ lit "s").
Definition phase_text (phase : IndexPhase) : str :=
  match phase with PhasePending => lit "pending" | PhaseIndexing => lit "indexing" | PhaseReady => lit "complete" end.
(** The lines that show a daemon's own figures: its idle window in whole minutes. *)
Definition figures_text (uptime served idle_limit : N) (phase : IndexPhase) (text : str) : Prop :=
  exists spelled minutes rest, uptime_text uptime spelled /\ idle_limit = (60 * minutes + rest)%N /\ (rest < 60)%N /\
    text = lit "uptime: " ++ spelled ++ nl ++ lit "index: " ++ phase_text phase ++ nl ++ lit "requests served: " ++ dec served ++ nl
           ++ lit "idle limit: " ++ dec minutes ++ lit " min" ++ nl.

Lemma humanize_spec secs : uptime_text secs (humanize secs).
Proof.
  exists (secs / 3600)%N, (secs mod 3600 / 60)%N, (secs mod 60)%N.
  pose proof (N.div_mod secs 3600 ltac:(done)). pose proof (N.mod_lt secs 3600 ltac:(done)). pose proof (N.div_mod (secs mod 3600) 60 ltac:(done)).
  pose proof (N.mod_lt secs 60 ltac:(done)).
  assert (secs mod 3600 mod 60 = secs mod 60)%N as Em.
  { assert (secs = secs mod 3600 + (60 * (secs / 3600)) * 60)%N as E by lia. rewrite E at 2. by rewrite N.Div0.mod_add. }
  rewrite Em in *. split_and!; [lia|apply N.Div0.div_lt_upper_bound; lia|done|]. unfold humanize.
  destruct (N.eqb_spec (secs / 3600) 0) as [Eh|Eh]; [destruct (N.eqb_spec (secs mod 3600 / 60) 0) as [Ei|Ei]|].
  - right; right. by rewrite Ei.
  - right; left. split_and!; [done|lia|done].
  - left. split; [lia|done].
Qed.

(** C35: What [status] shows of a live daemon is what the daemon has. Of the three connections it opens the first, which only
    probes, and the second, which reads the version, leave the daemon as it was; and the third, in whatever pieces the bytes
    travel, counts as no request and changes no cache. What is printed, by [daemon status] and by [status] alike, says that the
    daemon runs, where, and on the lines after it the daemon's own uptime, index phase and count of requests at the third
    connection and its idle window in whole minutes; or that they were not answered, where they cannot be encoded. *)
Theorem status_agrees {Value F : Type} `{FloatOps F} `{TokenEstimator} (page_rank_default : PageRankOptions F) `{Unicode} `{Grammar} (root : str)
    (compile : str -> str + (str -> bool)) `{Json Value RoutedParams} `{Json Value RoutedReply} `{JsonLaws Value DaemonSnapshot}
    `{CodecLaws (ServerFrame Value)} `{CodecLaws (ClientFrame Value)} (moments : nat -> Moment Value) (idle_limit : N) (null_ : Value)
    (s : EngineState) hello request to_daemon :
  let engine := command_engine page_rank_default root compile moments idle_limit in
  frame_bytes (Hello PROTOCOL_VERSION : ServerFrame Value) = inr hello ->
  frame_bytes (RequestFrame STATUS_METHOD null_ : ClientFrame Value) = inr request -> concat to_daemon = request ->
  exists s' sent,
    (forall accepts, exists probed, serve_connection (mkPeer [] accepts) s = Some (Closed, s, probed)) /\
    serve_connection (mkPeer [] None) s = Some (Closed, s, hello) /\
    serve_connection (mkPeer to_daemon None) s = Some (Closed, s', sent) /\ es_served s' = es_served s /\ es_cache s' = es_cache s /\
    forall socket socket_meta announcing asking, concat announcing = hello -> concat asking = sent ->
      let daemon := observe_daemon null_ socket (probe socket_meta true) (Some (announcing, true)) (Some (asking, true)) in
      let seen := mkSnapshot (mo_uptime (moments (es_now s))) (index_label (mo_phase (moments (es_now s)))) (es_served s) idle_limit in
      exists rest,
        ((exists value bytes, to_value seen = inr value /\ frame_bytes (ResultFrame value : ServerFrame Value) = inr bytes) /\
         figures_text (mo_uptime (moments (es_now s))) (es_served s) idle_limit (mo_phase (moments (es_now s))) rest \/
         (forall value bytes, to_value seen = inr value -> frame_bytes (ResultFrame value : ServerFrame Value) <> inr bytes) /\
         rest = lit "uptime, index and request count: not answered" ++ nl) /\
        (forall path, report_status path daemon = success (Printed (lit "ktsense: daemon running for " ++ display_os path ++ nl
           ++ lit "daemon: running" ++ nl ++ lit "socket: " ++ socket ++ nl ++ rest))) /\
        (forall report, sr_daemon report = daemon -> exists before, status_markdown report =
           before ++ lit "daemon: running" ++ nl ++ lit "socket: " ++ socket ++ nl ++ rest).
Proof.
  intros engine Hh Hr Ed. set (seen := snapshot idle_limit (moments (es_now s)) (es_served s)). destruct (value_total seen) as [v Ev].
  assert (handle s (mkEngineRequest STATUS_METHOD null_) = Some (Reply v, mkEngineState (es_cache s) (es_served s) (S (es_now s)))) as Eh.
  { cbn [handle engine command_engine]. unfold handle_request. cbn [er_method]. rewrite bool_decide_eq_true_2 by done. fold seen. by rewrite Ev. }
  eexists _, _. split_and!.
  - intros accepts. unfold serve_connection, send. cbn [pe_accepts pe_chunks]. rewrite Hh. destruct accepts as [[|n]|]; [by eexists|..]; cbn [concat length app serve_frames];
      (rewrite read_frame_ended by (cbn; lia)); by eexists.
  - unfold serve_connection, send. cbn [pe_accepts pe_chunks]. rewrite Hh. cbn [concat length app serve_frames]. by rewrite read_frame_ended by (cbn; lia).
  - eapply (serve_one (mkEngineRequest STATUS_METHOD null_)); try done.
  - done.
  - done.
  - intros socket socket_meta announcing asking Ea Ek. cbv zeta. change (mkSnapshot _ _ _ _) with seen.
    assert (observe_daemon null_ socket (probe socket_meta true) (Some (announcing, true)) (Some (asking, true)) = mkDaemonStatus socket Running None
      match frame_bytes (ResultFrame v : ServerFrame Value) with inr _ => Some seen | inl _ => None end) as ->.
    { unfold observe_daemon, probe, observe_running, connect_any. cbn [mbind option_bind].
      rewrite <- (app_nil_r hello) in Ea. destruct (read_frame_written _ _ _ _ Hh Ea) as (rest & -> & _). rewrite N.eqb_refl.
      assert (fetch_snapshot null_ (Some (asking, true)) = match frame_bytes (ResultFrame v : ServerFrame Value) with inr _ => Some seen | inl _ => None end) as ->; [|by destruct (frame_bytes _)].
      unfold fetch_snapshot, connect. cbn [mbind option_bind]. destruct (read_frame_written _ _ _ _ Hh Ek) as (rest' & -> & Erest). unfold verify_protocol. rewrite N.eqb_refl, Hr.
      unfold answer_of. cbn [response] in Erest. destruct (frame_bytes (ResultFrame v : ServerFrame Value)) as [e|b] eqn:Eb.
      + by rewrite read_frame_ended by (rewrite Erest; cbn; lia).
      + rewrite <- (app_nil_r b) in Erest. destruct (read_frame_written _ _ _ _ Eb Erest) as (rest'' & -> & _). cbn [fst]. by rewrite (value_roundtrip _ _ Ev). }
    destruct (frame_bytes (ResultFrame v : ServerFrame Value)) as [e|b] eqn:Eb.
    + exists (lit "uptime, index and request count: not answered" ++ nl). split_and!.
      * right. split; [|done]. intros value bytes E. rewrite Ev in E. injection E as <-. by rewrite Eb.
      * intros path. unfold report_status, daemon_lines. cbn [ds_state ds_socket ds_mismatch ds_snapshot]. reflexivity.
      * intros report E. unfold status_markdown, daemon_lines. rewrite E. cbn [ds_state ds_socket ds_mismatch ds_snapshot]. eexists. rewrite !app_assoc. done.
    + exists (lit "uptime: " ++ humanize (sn_uptime_secs seen) ++ nl ++ lit "index: " ++ index_text (sn_index seen) ++ nl
              ++ lit "requests served: " ++ dec (sn_requests_served seen) ++ nl ++ lit "idle limit: " ++ dec (sn_idle_limit_secs seen / 60) ++ lit " min" ++ nl). split_and!.
      * left. split; [by exists v, b|]. exists (humanize (sn_uptime_secs seen)), (idle_limit / 60)%N, (idle_limit mod 60)%N. split_and!.
        { apply humanize_spec. } { by apply N.div_mod. } { by apply N.mod_lt. } unfold seen, snapshot. cbn [sn_index sn_requests_served sn_idle_limit_secs]. by destruct (mo_phase _).
      * intros path. unfold report_status, daemon_lines. cbn [ds_state ds_socket ds_mismatch ds_snapshot]. reflexivity.
      * intros report E. unfold status_markdown, daemon_lines. rewrite E. cbn [ds_state ds_socket ds_mismatch ds_snapshot]. eexists. rewrite !app_assoc. done.
Qed.

(** A daemon of another protocol is reported with both versions, and nothing is asked of it. *)
Lemma other_protocol_reported {Value : Type} (null_ : Value) `{Json Value DaemonSnapshot} `{CodecLaws (ServerFrame Value)} `{CodecLaws (ClientFrame Value)} version hello socket announcing asking :
  frame_bytes (Hello version : ServerFrame Value) = inr hello -> concat announcing = hello -> version <> PROTOCOL_VERSION ->
  observe_daemon null_ socket Live (Some (announcing, true)) asking = mkDaemonStatus socket Running (Some (mkMismatch version PROTOCOL_VERSION)) None.
Proof.
  intros Hh Ea Hne. unfold observe_daemon, observe_running, connect_any. cbn [mbind option_bind]. rewrite <- (app_nil_r hello) in Ea.
  destruct (read_frame_written _ _ _ _ Hh Ea) as (rest & -> & _). by rewrite (proj2 (N.eqb_neq version PROTOCOL_VERSION) Hne).
Qed.

(** The claim a start locks is a path of its own beside the socket, and it fits wherever the socket was placed. *)
Lemma claim_path_fits env root socket : socket_for env root = inr socket -> length (claim_path socket) <= MAX_SOCKET_PATH /\ claim_path socket <> socket.
Proof.
  unfold socket_for. destruct (resolve_socket_path _ _ _ _ _ _) as [e|p] eqn:E; [done|]. intros [= <-]. assert (within_budget p = true) as Hb.
  { unfold resolve_socket_path in E. repeat case_match; simplify_eq; try done. by apply negb_false_iff. }
  unfold within_budget, SOCKET_BUDGET, COMPANION_RESERVE in Hb. apply Nat.leb_le in Hb. unfold claim_path. rewrite length_app. split; [change (length CLAIM_SUFFIX) with 6; unfold MAX_SOCKET_PATH in *; lia|].
  intros Ec. assert (length (p ++ CLAIM_SUFFIX) = length p) as El by by rewrite Ec. rewrite length_app in El. change (length CLAIM_SUFFIX) with 6 in El. lia.
Qed.

(** A window of under a minute is shown as none. *)
Lemma short_window_shown_as_none socket : exists before, daemon_lines (mkDaemonStatus socket Running None (Some (mkSnapshot 7 LabelComplete 41 36))) =
  before ++ lit "idle limit: " ++ dec 0 ++ lit " min" ++ nl.
Proof. eexists. unfold daemon_lines. cbn [ds_state ds_socket ds_mismatch ds_snapshot sn_idle_limit_secs]. change (36 / 60)%N with 0%N. rewrite !app_assoc. reflexivity. Qed.

(** The window a hand-started daemon holds, the one it was given, and an override that is not a number. *)
Lemma idle_windows : resolve_idle None None = 3600%N /\ resolve_idle None (Some AUTOSTART_IDLE_MINUTES) = 900%N /\ resolve_idle (Some (lit "7")) (Some 60%N) = 7%N /\
  resolve_idle (Some (lit "soon")) (Some u64_max) = u64_max /\ serve_tail (Some 15%N) = [lit "daemon"; lit "serve"; lit "--idle"; lit "15"].
Proof. by vm_compute. Qed.

(** ** Witness *)

Module demo_status.
(** A stand-in for JSON that carries snapshots of a settled index. *)
Inductive Note := NullNote | SnapshotNote (s : DaemonSnapshot).
#[export] Instance params_json : Json Note RoutedParams := { to_value := fun _ => inl []; from_value := fun _ => inl [] }.
#[export] Instance reply_json : Json Note RoutedReply := { to_value := fun _ => inl []; from_value := fun _ => inl [] }.
#[export] Instance snapshot_json : Json Note DaemonSnapshot := { to_value := fun s => inr (SnapshotNote s); from_value := fun v => match v with SnapshotNote s => inr s | NullNote => inl [] end }.
#[export] Instance snapshot_laws : JsonLaws Note DaemonSnapshot.
Proof. constructor; [by intros t v [= <-]|by eexists]. Qed.
#[export] Instance server_codec : Codec (ServerFrame Note) := {
  to_json := fun frame => match frame with
    | Hello v => Some [0; v]%N
    | ResultFrame (SnapshotNote (mkSnapshot uptime LabelComplete served idle)) => Some [1; uptime; served; idle]%N
    | _ => None end;
  from_json := fun bytes => match bytes with
    | [0%N; v] => Some (Hello v)
    | [1%N; uptime; served; idle] => Some (ResultFrame (SnapshotNote (mkSnapshot uptime LabelComplete served idle)))
    | _ => None end }.
#[export] Instance server_laws : CodecLaws (ServerFrame Note).
Proof. constructor. intros [v|[|[uptime label served idle]]|m] body; cbn; [by intros [= <-]|done| |done]. by destruct label; intros [= <-]. Qed.
#[export] Instance client_codec : Codec (ClientFrame Note) := {
  to_json := fun frame => match frame with RequestFrame method NullNote => if bool_decide (method = STATUS_METHOD) then Some [3]%N else None | _ => None end;
  from_json := fun bytes => match bytes with [3%N] => Some (RequestFrame STATUS_METHOD NullNote) | _ => None end }.
#[export] Instance client_laws : CodecLaws (ClientFrame Note).
Proof. constructor. intros [method [|s]|] body; cbn; [|done..]. case_bool_decide as E; [|done]. subst. by intros [= <-]. Qed.
Definition quiet_moment : Moment Note :=
  mkMoment _ shop_world shop_client cart_found (fun _ => inr PhaseReady) (fun _ => Complete) PhaseReady 7 (fun _ _ => inl (OtherFault [])).
End demo_status.
Import demo_status.

Lemma status_agrees_witness :
  exists s' sent, @serve_connection Note _ _ EngineState (@command_engine Note Qc _ _ default_options latin1_unicode demo_grammar (lit "/shop") any_pattern _ _ _ (fun _ => quiet_moment) 900)
      (mkPeer [[0; 0]%N; [0; 1; 3]%N] None) (mkEngineState ∅ 41 0) = Some (Closed, s', sent) /\
    report_status (lit "/shop") (observe_daemon NullNote (lit "/run/s") (probe (Owned 1000) true) (Some ([to_be_bytes 2 ++ [0; PROTOCOL_VERSION]%N], true)) (Some ([sent], true))) =
      success (Printed (lit "ktsense: daemon running for /shop" ++ nl ++ lit "daemon: running" ++ nl ++ lit "socket: /run/s" ++ nl
        ++ lit "uptime: 7s" ++ nl ++ lit "index: complete" ++ nl ++ lit "requests served: 41" ++ nl ++ lit "idle limit: 15 min" ++ nl)).
Proof.
  destruct (@status_agrees Note Qc _ _ default_options latin1_unicode demo_grammar (lit "/shop") any_pattern _ _ _ _ _ _ _ _ (fun _ => quiet_moment) 900%N NullNote (mkEngineState ∅ 41 0)
    (to_be_bytes 2 ++ [0; PROTOCOL_VERSION]%N) (to_be_bytes 1 ++ [3]%N) [[0; 0]%N; [0; 1; 3]%N]) as (s' & sent & _ & _ & Es & _ & _ & Ho); [vm_compute; reflexivity..|].
  exists s', sent. split; [exact Es|].
  destruct (Ho (lit "/run/s") (Owned 1000) [to_be_bytes 2 ++ [0; PROTOCOL_VERSION]%N] [sent] (app_nil_r _) (app_nil_r _)) as (rest & _ & Hp & _).
  pose proof (Hp (lit "/shop")) as E. vm_compute in Es. injection Es as _ <-. vm_compute. reflexivity.
Defined.
