(* ===== verification/Cli.v ===== *)
(** * Cli: the command line, the command it runs and what the process leaves

    Models the command line of [crates/ktsense-cli/src/main.rs]: the subcommands with their arguments, [run] that turns one
    into the command it names, and [main] that prints the outcome. How argument words become a [Command] is the argument
    parser's, a third-party crate. What the lifecycle commands and the engine process came to are arguments. *)
From stdpp Require Import gmap.
From Stdlib Require Import QArith.Qcanon.
From S2P Require Import Prelude Collections Budget Text Graph Skeleton References Query Sites Imports Trace Render RepoMap Context Answers Files Cst Extract Scan Symbols Engine Commands Cache Index Session SessionSpec Search Daemon Routing.

Set Default Proof Using "Type*".

(** ** The subcommands *)

Inductive Level := LevelFile | LevelPackage.
Definition level_of (level : Level) : DepLevel := match level with LevelFile => FileLevel | LevelPackage => PackageLevel end.
Inductive DaemonAction := DaemonStart (idle : option N) | DaemonStop | DaemonStatusAction | DaemonServe (idle : option N).
Inductive Command :=
  | CmdOutline (file : str) (private kdoc annotations : bool)
  | CmdSymbols (query : option str) (kind : option KindFilter) (limit : option nat) (pick : option str) (contains : bool)
  | CmdGrep (pattern : str) (path : option str) (tests no_tests kotlin_only word ignore_case fixed_strings : bool) (limit : option nat)
  | CmdTrace (symbol pick : option str) (depth : N) (limit : option nat) (wait_index : bool) (path : list str) (tests no_tests : bool)
  | CmdDeps (level : Level)
  | CmdMap (budget : N) (compact : bool) (focus : option str) (fill : bool) (path : list str)
  | CmdCheck (path : str)
  | CmdDiagnose (file : str)
  | CmdContext (symbol pick : option str) (budget : N) (only : list ContextOnly) (match_pattern : option str) (around : nat) (path : list str) (tests no_tests : bool)
  | CmdStatus
  | CmdMcp
  | CmdDaemon (action : DaemonAction).
Record Cli := mkCli { cli_root : option str; cli_format : Format; cli_command : Command }.

(** ** [run] *)

(** The command a subcommand names: one that is routed, or one that runs here. *)
Inductive Job :=
  | Routed (command : RoutedCommand)
  | SymbolsJob (query : str) (kind : option KindFilter) (limit : option nat) (pick : option str) (contains : bool)
  | GrepJob (request : GrepRequest)
  | CheckJob (path : str)
  | DiagnoseJob (file : str)
  | StatusJob
  | McpJob
  | DaemonJob (action : DaemonAction).
(** The arms of [run]; [None] is a missing query and pick, which the parser refuses. *)
Definition job (command : Command) : option Job :=
  match command with
  | CmdOutline file private kdoc annotations => Some (Routed (RoutedOutline file private kdoc annotations))
  | CmdDeps level => Some (Routed (RoutedDeps (routed_level (level_of level))))
  | CmdSymbols query kind limit pick contains => query ← query_or_pick query pick; Some (SymbolsJob query kind limit pick contains)
  | CmdGrep pattern path tests no_tests kotlin_only word ignore_case fixed_strings limit =>
      Some (GrepJob (mkGrepRequest pattern path (test_filter_of_flags tests no_tests) limit kotlin_only (mkMatchOptions word ignore_case fixed_strings)))
  | CmdMap budget compact focus fill path => Some (Routed (RoutedMap budget compact focus fill path))
  | CmdTrace symbol pick depth limit wait_index path tests no_tests =>
      symbol ← query_or_pick symbol pick; Some (Routed (RoutedTrace symbol pick depth limit wait_index path (from_flags tests no_tests)))
  | CmdDaemon action => Some (DaemonJob action)
  | CmdMcp => Some McpJob
  | CmdCheck path => Some (CheckJob path)
  | CmdDiagnose file => Some (DiagnoseJob file)
  | CmdContext symbol pick budget only match_pattern around path tests no_tests =>
      symbol ← query_or_pick symbol pick;
      Some (Routed (RoutedContext symbol pick budget (context_sections only) match_pattern around path (from_flags tests no_tests)))
  | CmdStatus => Some StatusJob
  end.

Section run.
Context {Value F : Type} `{FloatOps F} `{TokenEstimator} (page_rank_default : PageRankOptions F) `{Unicode} `{Grammar}.
(** The [regex] crate, matching and finding, its [escape], and the debug form of a text. *)
Context (compile : str -> str + (str -> bool)) (compile_find : str -> str + (str -> option nat)) (escape quoted : str -> str).
Context `{Json Value RoutedParams} `{Json Value RoutedReply} `{Codec (ServerFrame Value)} `{Codec (ClientFrame Value)}.
(** The environment, the daemon's connection, and the machine as it is. *)
Context (flags : Flags) (socket_for : str -> CommandError + Connection) (m : Moment Value).
(** What the engine process reports on a path under a root, and what the commands that are processes came to. *)
Context (run_check : str -> str -> PassthroughError + CheckReport) (run_diagnose : str -> str -> PassthroughError + DiagnoseReport).
Context (status_run : str -> Format -> CommandError + Answer) (mcp_server : str -> CommandError + unit) (daemon_run : str -> DaemonAction -> CommandError + CommandOutcome).

(** [route] of [main.rs]: the socket is resolved first. *)
Definition route_from (base : str) (command : RoutedCommand) (format : Format) : Result CommandOutcome :=
  connection <-? of_sum (socket_for base);
  (route page_rank_default base compile flags connection m command format).1.
Definition run (cli : Cli) : Result CommandOutcome :=
  let format := cli_format cli in
  let base := default (lit ".") (cli_root cli) in
  chosen <-? of_option (job (cli_command cli));
  match chosen with
  | Routed command => route_from base command format
  | SymbolsJob query kind limit pick contains => symbols base (mo_world m) (mo_found m) query kind limit pick contains format
  | GrepJob request => grep base (mo_world m) compile_find escape quoted request format
  | CheckJob path => check (run_check base (resolve_root base path)) format
  | DiagnoseJob file => text <-? diagnose (run_diagnose base (resolve_root base file)) format; ret (success text)
  | StatusJob => text <-? of_sum (status_run base format); ret (success text)
  | McpJob => done <-? of_sum (mcp_server base); ret (success (Printed []))
  | DaemonJob action => of_sum (daemon_run base action)
  end.
End run.

(** ** [main] *)

(** What a process leaves: its exit code and what it wrote. *)
Record Left_ := mkLeft { lf_code : Z; lf_stdout : str; lf_stderr : str }.
Definition exit_of (e : Exit) : Z := Z.of_N (exit_code e).
(** [logs] is what tracing wrote to the error stream while the command ran; [None] is an answer in JSON. *)
Definition printed_text (answer : Answer) : option str :=
  match answer with Printed text | SymbolsAnswer (MarkdownText text) => Some text | _ => None end.
Definition main_ (logs : str) (r : CommandError + CommandOutcome) : option Left_ :=
  match r with
  | inr outcome =>
      text ← printed_text (co_text outcome);
      Some (mkLeft (exit_of (co_exit outcome)) text (logs ++ from_option (fun stderr => stderr ++ nl) [] (co_stderr outcome)))
  | inl error => Some (mkLeft (exit_of (ce_exit error)) [] (logs ++ ce_message error ++ nl))
  end.
(** [report_usage]: help goes to the output stream, a mistake to the error stream. *)
Definition report_usage (use_stderr : bool) (text : str) : Left_ :=
  if use_stderr then mkLeft (exit_of Usage) [] text else mkLeft (exit_of Success) text [].
