(* ===== verification/Mcp.v ===== *)
(** * Mcp: what the tools ask the command line, and how its answers are presented

    Models the tools of [crates/ktsense-mcp/src/server.rs] - the parameters, the arguments each spells, the runner's
    command, the presentation of what the process left - and [roots.rs], which picks the root a call is about. Serving
    the protocol and its schemas is the third-party rmcp crate's. *)
From stdpp Require Import gmap.
From Stdlib Require Import QArith.Qcanon.
From S2P Require Import Prelude Collections Budget Text Graph Skeleton References Query Sites Imports Trace Render RepoMap Context Answers Files Cst Extract Scan Symbols Engine Commands Cache Index Session SessionSpec Search Daemon Routing Citations Cli.

Set Default Proof Using "Type*".

(** ** Requests *)

Inductive McpFormat := McpMd | McpJson.
Definition format_flag (format : McpFormat) : str := match format with McpMd => lit "md" | McpJson => lit "json" end.
Record Request := mkRequest { mr_args : list str; mr_root : option str; mr_format : McpFormat }.
Record Invocation := mkInvocation { iv_code : option Z; iv_stdout : str; iv_stderr : str; iv_root : str }.

Definition for_tool (tool : Tool) (root : option str) : Request := mkRequest [to_cli_command tool] root McpMd.
Definition push (r : Request) (words : list str) : Request := mkRequest (mr_args r ++ words) (mr_root r) (mr_format r).
Definition positional (value : str) (r : Request) : Request := push r [value].
Definition maybe_positional (value : option str) (r : Request) : Request := match value with Some value => positional value r | None => r end.
Definition flag (name : str) (present : bool) (r : Request) : Request := if present then push r [lit "--" ++ name] else r.
Definition option_ (name : str) (value : option str) (r : Request) : Request := match value with Some value => push (push r [lit "--" ++ name]) [value] | None => r end.
Definition option_list_ (name : str) (values : list str) (r : Request) : Request :=
  match values with [] => r | _ => push (push r [lit "--" ++ name]) [join (lit ",") values] end.
Definition repeated_option (name : str) (values : list str) (r : Request) : Request :=
  foldl (fun r value => push (push r [lit "--" ++ name]) [value]) r values.
Local Abbreviation num n := (dec (N.of_nat n)).

Record OutlineParams := mkOutlineParams { op_file : str; op_private : bool; op_kdoc : bool; op_annotations : bool; op_root : option str }.
Record SymbolParams := mkSymbolParams { sp_query : option str; sp_kind : option str; sp_limit : option nat; sp_pick : option str; sp_contains : bool; sp_root : option str }.
Record TraceParams := mkTraceParams {
  tp_symbol : option str; tp_pick : option str; tp_depth : option N; tp_limit : option nat; tp_path : list str; tp_tests : option bool; tp_root : option str }.
Record DepsParams := mkDepsParams { dp_level : option str; dp_root : option str }.
Record MapParams := mkMapParams { mp_budget : option N; mp_compact : bool; mp_focus : option str; mp_fill : bool; mp_path : list str; mp_root : option str }.
Record CheckParams := mkCheckParams { cp_path : str; cp_root : option str }.
Record ContextParams := mkContextParams {
  xp_symbol : option str; xp_pick : option str; xp_budget : option N; xp_only : list str; xp_match : option str; xp_around : option nat;
  xp_path : list str; xp_tests : option bool; xp_root : option str }.
Record StatusParams := mkStatusParams { up_root : option str }.
Record GrepParams := mkGrepParams {
  gp_pattern : str; gp_path : option str; gp_tests : option bool; gp_kotlin_only : option bool; gp_word : option bool; gp_ignore_case : option bool;
  gp_fixed_strings : option bool; gp_limit : option nat; gp_root : option str }.
Inductive ToolCall :=
  | OutlineCall (p : OutlineParams) | SymbolsCall (p : SymbolParams) | TraceCall (p : TraceParams) | DepsCall (p : DepsParams) | MapCall (p : MapParams)
  | CheckCall (p : CheckParams) | ContextCall (p : ContextParams) | StatusCall (p : StatusParams) | GrepCall (p : GrepParams).
Definition is_some_true (b : option bool) : bool := bool_decide (b = Some true).
Definition is_some_false (b : option bool) : bool := bool_decide (b = Some false).

(** The tools, once [root] was resolved. *)
Local Notation "r '|>' f" := (f r) (at level 50, left associativity, only parsing).
Definition get_kotlin_outline (root : option str) (p : OutlineParams) : Request :=
  for_tool OUTLINE root |> positional (op_file p) |> flag (lit "private") (op_private p) |> flag (lit "kdoc") (op_kdoc p)
  |> flag (lit "annotations") (op_annotations p).
Definition find_kotlin_symbol (root : option str) (p : SymbolParams) : Request :=
  for_tool SYMBOLS root |> maybe_positional (sp_query p) |> option_ (lit "kind") (sp_kind p) |> option_ (lit "limit") ((fun n => num n) <$> sp_limit p)
  |> option_ (lit "pick") (sp_pick p) |> flag (lit "contains") (sp_contains p).
Definition trace_kotlin_symbol (root : option str) (p : TraceParams) : Request :=
  for_tool TRACE root |> maybe_positional (tp_symbol p) |> option_ (lit "pick") (tp_pick p) |> option_ (lit "depth") (dec <$> tp_depth p)
  |> option_ (lit "limit") ((fun n => num n) <$> tp_limit p) |> repeated_option (lit "path") (tp_path p)
  |> flag (lit "tests") (is_some_true (tp_tests p)) |> flag (lit "no-tests") (is_some_false (tp_tests p)).
Definition analyze_kotlin_dependencies (root : option str) (p : DepsParams) : Request := for_tool DEPS root |> option_ (lit "level") (dp_level p).
Definition get_kotlin_repo_map (root : option str) (p : MapParams) : Request :=
  for_tool MAP root |> option_ (lit "budget") (dec <$> mp_budget p) |> flag (lit "compact") (mp_compact p || bool_decide (is_Some (mp_focus p)))
  |> option_ (lit "focus") (mp_focus p) |> flag (lit "fill") (mp_fill p) |> repeated_option (lit "path") (mp_path p).
Definition check_kotlin_syntax (root : option str) (p : CheckParams) : Request := for_tool CHECK root |> positional (cp_path p).
Definition explain_kotlin_symbol (root : option str) (p : ContextParams) : Request :=
  for_tool CONTEXT root |> maybe_positional (xp_symbol p) |> option_ (lit "pick") (xp_pick p) |> option_ (lit "budget") (dec <$> xp_budget p)
  |> option_list_ (lit "only") (xp_only p) |> option_ (lit "match") (xp_match p) |> option_ (lit "around") ((fun n => num n) <$> xp_around p)
  |> repeated_option (lit "path") (xp_path p) |> flag (lit "tests") (is_some_true (xp_tests p)) |> flag (lit "no-tests") (is_some_false (xp_tests p)).
Definition ktsense_status (root : option str) (p : StatusParams) : Request := for_tool STATUS root.
Definition search_kotlin_text (root : option str) (p : GrepParams) : Request :=
  for_tool GREP root |> positional (gp_pattern p) |> option_ (lit "path") (gp_path p) |> flag (lit "tests") (is_some_true (gp_tests p))
  |> flag (lit "no-tests") (is_some_false (gp_tests p)) |> flag (lit "kotlin-only") (is_some_true (gp_kotlin_only p)) |> flag (lit "word") (is_some_true (gp_word p))
  |> flag (lit "ignore-case") (is_some_true (gp_ignore_case p)) |> flag (lit "fixed-strings") (is_some_true (gp_fixed_strings p))
  |> option_ (lit "limit") ((fun n => num n) <$> gp_limit p).

Definition tool_of (call : ToolCall) : Tool :=
  match call with
  | OutlineCall _ => OUTLINE | SymbolsCall _ => SYMBOLS | TraceCall _ => TRACE | DepsCall _ => DEPS | MapCall _ => MAP
  | CheckCall _ => CHECK | ContextCall _ => CONTEXT | StatusCall _ => STATUS | GrepCall _ => GREP
  end.
(** The root a call names, and the file or directory it is about. *)
Definition named_root (call : ToolCall) : option str :=
  match call with
  | OutlineCall p => op_root p | SymbolsCall p => sp_root p | TraceCall p => tp_root p | DepsCall p => dp_root p | MapCall p => mp_root p
  | CheckCall p => cp_root p | ContextCall p => xp_root p | StatusCall p => up_root p | GrepCall p => gp_root p
  end.
Definition subject_of (call : ToolCall) : option str := match call with OutlineCall p => Some (op_file p) | CheckCall p => Some (cp_path p) | _ => None end.
Definition request_for (call : ToolCall) (root : option str) : Request :=
  match call with
  | OutlineCall p => get_kotlin_outline root p | SymbolsCall p => find_kotlin_symbol root p | TraceCall p => trace_kotlin_symbol root p
  | DepsCall p => analyze_kotlin_dependencies root p | MapCall p => get_kotlin_repo_map root p | CheckCall p => check_kotlin_syntax root p
  | ContextCall p => explain_kotlin_symbol root p | StatusCall p => ktsense_status root p | GrepCall p => search_kotlin_text root p
  end.
(** [ExecutableRunner::run]: the words the binary is run with, and the root it answers about. *)
Definition runner_root (default_root : str) (r : Request) : str := default default_root (mr_root r).
Definition runner_words (default_root : str) (r : Request) : list str :=
  [lit "--root"; runner_root default_root r; lit "--format"; format_flag (mr_format r)] ++ mr_args r.

(** ** Which root: [roots.rs] *)

Section roots.
(** Whether a path exists, and what it resolves to. *)
Context (exists_ : str -> bool) (canonicalize : FsPath -> option FsPath).
Definition holds (root subject : str) : bool :=
  let root_path := parse_path root in
  let subject_path := parse_path subject in
  if negb (fp_rooted subject_path) then exists_ (join_text root subject)
  else bool_decide (is_Some (path_strip_prefix subject_path root_path))
       || match canonicalize root_path, canonicalize subject_path with
          | Some root, Some subject => bool_decide (is_Some (path_strip_prefix subject root))
          | _, _ => false
          end.
Definition containing (roots : list str) (subject : str) : option str := head (filter (fun root => holds root subject = true) roots).
Definition resolve_root_for (roots : list str) (call subject : option str) : option str :=
  match call with
  | Some named => Some named
  | None => match (subject ← subject; containing roots subject) with Some root => Some root | None => head roots end
  end.
End roots.

(** ** Presentation *)

Definition ANSWER_EXITS : list Z := [0%Z; 3%Z].
Record CallToolResult := mkToolResult { tr_is_error : bool; tr_text : str; tr_structured : McpAnswer }.
(** What a failure says: the error stream unless it is blank, then the output. *)
Definition failure_text (invocation : Invocation) : str :=
  if bool_decide (trim (iv_stderr invocation) = []) then trim (iv_stdout invocation) else trim (iv_stderr invocation).
Definition present (tool : Tool) (invocation : Invocation) (warmth : option str) : option CallToolResult :=
  let answered := match iv_code invocation with Some code => bool_decide (code ∈ ANSWER_EXITS) | None => false end in
  let text := if answered then iv_stdout invocation else failure_text invocation in
  indexed ← index_answer (mkCall tool (iv_root invocation) (iv_code invocation) warmth) text;
  Some (mkToolResult (negb answered) text indexed).

Inductive CheckOutcome := CheckClean | CheckFindings | CheckExecutionFailure.
Definition check_outcome (invocation : Invocation) : CheckOutcome :=
  if bool_decide (iv_code invocation = Some 0%Z) then CheckClean
  else if bool_decide (iv_code invocation = Some 1%Z) && (bool_decide (trim (iv_stdout invocation) <> []) && bool_decide (trim (iv_stderr invocation) = []))
  then CheckFindings
  else CheckExecutionFailure.
Definition outcome_label (outcome : CheckOutcome) : str :=
  match outcome with CheckClean => lit "clean" | CheckFindings => lit "findings" | CheckExecutionFailure => lit "execution_failure" end.
Definition is_answer (outcome : CheckOutcome) : bool := match outcome with CheckExecutionFailure => false | _ => true end.
Definition with_outcome (a : McpAnswer) (outcome : CheckOutcome) : McpAnswer :=
  mkAnswer (an_tool a) (an_command a) (an_requires a) (an_root a) (an_exit a) (an_index a) (an_warmth a) (Some (outcome_label outcome))
    (match outcome with
     | CheckClean => Some 0
     | CheckFindings => Some (length (an_citations a) + an_citations_omitted a)
     | CheckExecutionFailure => None
     end)
    (an_files a) (an_citations a) (an_citations_omitted a).
Definition present_check (invocation : Invocation) : option CallToolResult :=
  let outcome := check_outcome invocation in
  let text := if is_answer outcome then iv_stdout invocation else failure_text invocation in
  indexed ← index_answer (mkCall CHECK (iv_root invocation) (iv_code invocation) None) text;
  Some (mkToolResult (negb (is_answer outcome)) text (with_outcome indexed outcome)).
(** [invoke], or the body of [check_kotlin_syntax]. *)
Definition presented (call : ToolCall) (warmth : option str) (invocation : Invocation) : option CallToolResult :=
  match call with CheckCall _ => present_check invocation | _ => present (tool_of call) invocation warmth end.

(** ** What a call asks for *)

(** A call without what its tool does not look at: the root, which is settled apart, and the switches that are not set. *)
Definition set_only (b : option bool) : option bool := if is_some_true b then Some true else None.
Definition asked (call : ToolCall) : ToolCall :=
  match call with
  | OutlineCall p => OutlineCall (mkOutlineParams (op_file p) (op_private p) (op_kdoc p) (op_annotations p) None)
  | SymbolsCall p => SymbolsCall (mkSymbolParams (sp_query p) (sp_kind p) (sp_limit p) (sp_pick p) (sp_contains p) None)
  | TraceCall p => TraceCall (mkTraceParams (tp_symbol p) (tp_pick p) (tp_depth p) (tp_limit p) (tp_path p) (tp_tests p) None)
  | DepsCall p => DepsCall (mkDepsParams (dp_level p) None)
  | MapCall p => MapCall (mkMapParams (mp_budget p) (mp_compact p || bool_decide (is_Some (mp_focus p))) (mp_focus p) (mp_fill p) (mp_path p) None)
  | CheckCall p => CheckCall (mkCheckParams (cp_path p) None)
  | ContextCall p =>
      ContextCall (mkContextParams (xp_symbol p) (xp_pick p) (xp_budget p) (xp_only p) (xp_match p) (xp_around p) (xp_path p) (xp_tests p) None)
  | StatusCall _ => StatusCall (mkStatusParams None)
  | GrepCall p =>
      GrepCall (mkGrepParams (gp_pattern p) (gp_path p) (gp_tests p) (set_only (gp_kotlin_only p)) (set_only (gp_word p)) (set_only (gp_ignore_case p))
        (set_only (gp_fixed_strings p)) (gp_limit p) None)
  end.
(** The options of the subcommand that a parameter of the call gives a value to, or sets. *)
Definition given {A} (value : option A) : bool := match value with Some _ => true | None => false end.
Definition some_given {A} (values : list A) : bool := match values with [] => false | _ => true end.
Definition chosen (table : list (str * bool)) : list str := omap (fun row => if row.2 : bool then Some row.1 else None) table.
Definition options_of (call : ToolCall) : list str :=
  chosen match call with
  | OutlineCall p => [(lit "private", op_private p); (lit "kdoc", op_kdoc p); (lit "annotations", op_annotations p)]
  | SymbolsCall p => [(lit "kind", given (sp_kind p)); (lit "limit", given (sp_limit p)); (lit "pick", given (sp_pick p)); (lit "contains", sp_contains p)]
  | TraceCall p => [(lit "pick", given (tp_pick p)); (lit "depth", given (tp_depth p)); (lit "limit", given (tp_limit p)); (lit "path", some_given (tp_path p));
      (lit "tests", bool_decide (tp_tests p = Some true)); (lit "no-tests", bool_decide (tp_tests p = Some false))]
  | DepsCall p => [(lit "level", given (dp_level p))]
  | MapCall p => [(lit "budget", given (mp_budget p)); (lit "compact", mp_compact p || given (mp_focus p)); (lit "focus", given (mp_focus p));
      (lit "fill", mp_fill p); (lit "path", some_given (mp_path p))]
  | CheckCall _ | StatusCall _ => []
  | ContextCall p => [(lit "pick", given (xp_pick p)); (lit "budget", given (xp_budget p)); (lit "only", some_given (xp_only p)); (lit "match", given (xp_match p));
      (lit "around", given (xp_around p)); (lit "path", some_given (xp_path p));
      (lit "tests", bool_decide (xp_tests p = Some true)); (lit "no-tests", bool_decide (xp_tests p = Some false))]
  | GrepCall p => [(lit "path", given (gp_path p)); (lit "tests", bool_decide (gp_tests p = Some true)); (lit "no-tests", bool_decide (gp_tests p = Some false));
      (lit "kotlin-only", bool_decide (gp_kotlin_only p = Some true)); (lit "word", bool_decide (gp_word p = Some true));
      (lit "ignore-case", bool_decide (gp_ignore_case p = Some true)); (lit "fixed-strings", bool_decide (gp_fixed_strings p = Some true)); (lit "limit", given (gp_limit p))]
  end.
(** What the parameters may hold: words that do not begin as an option does, and, of the sections of a bundle, no comma. *)
Definition hyphenated (word : str) : bool := starts_with word (lit "-").
Definition plain (word : str) : Prop := hyphenated word = false.
Definition plain_option (word : option str) : Prop := forall w, word = Some w -> plain w.
Definition well_spelled (call : ToolCall) : Prop :=
  match call with
  | OutlineCall p => plain (op_file p)
  | SymbolsCall p => plain_option (sp_query p) /\ plain_option (sp_kind p) /\ plain_option (sp_pick p)
  | TraceCall p => plain_option (tp_symbol p) /\ plain_option (tp_pick p) /\ Forall plain (tp_path p)
  | DepsCall p => plain_option (dp_level p)
  | MapCall p => plain_option (mp_focus p) /\ Forall plain (mp_path p)
  | CheckCall p => plain (cp_path p)
  | ContextCall p => plain_option (xp_symbol p) /\ plain_option (xp_pick p) /\ plain_option (xp_match p) /\ Forall plain (xp_path p) /\
      Forall (fun only => plain only /\ ch "," ∉ only) (xp_only p)
  | StatusCall _ => True
  | GrepCall p => plain (gp_pattern p) /\ plain_option (gp_path p)
  end.

(** ** Lemmas: telling spelled calls apart

    [decode] takes spelled words apart again, into the words beside the options, the options with their values, and the
    switches. It is a device of these proofs: calls that it reads differently cannot have spelled the same words. *)
Definition VALUED : list str :=
  [lit "kind"; lit "limit"; lit "pick"; lit "depth"; lit "path"; lit "level"; lit "budget"; lit "focus"; lit "only"; lit "match"; lit "around"].
Definition Parts : Type := list str * list (str * str) * list str.
Definition add_word (word : str) (r : Parts) : Parts := (word :: r.1.1, r.1.2, r.2).
Definition add_option (name value : str) (r : Parts) : Parts := (r.1.1, (name, value) :: r.1.2, r.2).
Definition add_switch (name : str) (r : Parts) : Parts := (r.1.1, r.1.2, name :: r.2).
Fixpoint decode (words : list str) : option Parts :=
  match words with
  | [] => Some ([], [], [])
  | word :: rest =>
      match strip_prefix word (lit "--") with
      | Some name =>
          if bool_decide (name ∈ VALUED) then
            match rest with
            | value :: rest => if hyphenated value then None else add_option name value <$> decode rest
            | [] => None
            end
          else add_switch name <$> decode rest
      | None => if hyphenated word then None else add_word word <$> decode rest
      end
  end.
Definition values (name : str) (options : list (str * str)) : list str := omap (fun o => if bool_decide (o.1 = name) then Some o.2 else None) options.

Definition together (a b : Parts) : Parts := (a.1.1 ++ b.1.1, a.1.2 ++ b.1.2, a.2 ++ b.2).
Lemma decode_app n : forall a b ra, length a <= n -> decode a = Some ra -> decode (a ++ b) = together ra <$> decode b.
Proof.
  assert (forall rb : option Parts, together ([], [], []) <$> rb = rb) as Hnil by by intros [[[? ?] ?]|].
  induction n as [|n IH]; intros a b ra Hl; [destruct a; [|cbn in Hl; lia]; intros [= <-]; by rewrite Hnil|].
  destruct a as [|word a]; [intros [= <-]; by rewrite Hnil|]. cbn [app decode length] in *. destruct (strip_prefix word (lit "--")) as [name|].
  - case_bool_decide.
    + destruct a as [|value a]; [done|]. cbn [app length] in *. destruct (hyphenated value); [done|]. destruct (decode a) as [r|] eqn:E; [|done]. intros [= <-].
      rewrite (IH a b r) by (done || lia). by destruct (decode b) as [[[? ?] ?]|].
    + destruct (decode a) as [r|] eqn:E; [|done]. intros [= <-]. rewrite (IH a b r) by (done || lia). by destruct (decode b) as [[[? ?] ?]|].
  - destruct (hyphenated word); [done|]. destruct (decode a) as [r|] eqn:E; [|done]. intros [= <-]. rewrite (IH a b r) by (done || lia). by destruct (decode b) as [[[? ?] ?]|].
Qed.
Definition entry (name : str) (value : option str) : list (str * str) := from_option (fun value => [(name, value)]) [] value.
Definition switch (name : str) (present : bool) : list str := if present then [name] else [].
Definition reads (r : Request) (p : list str) (o : list (str * str)) (s : list str) : Prop := decode (mr_args r) = Some (p, o, s).
Lemma reads_push r p o s words p' o' s' : reads r p o s -> decode words = Some (p', o', s') -> reads (push r words) (p ++ p') (o ++ o') (s ++ s').
Proof. intros Hr Hw. unfold reads, push. cbn [mr_args]. by rewrite (decode_app (length (mr_args r)) _ _ _ (le_n _) Hr), Hw. Qed.
Lemma plain_not_long word : plain word -> strip_prefix word (lit "--") = None.
Proof.
  unfold plain, hyphenated. rewrite strip_prefix_spec. change (lit "--") with [45; 45]%N. change (lit "-") with [45]%N. destruct word as [|c word]; [done|].
  cbn [starts_with]. destruct (45 =? c)%N; [by destruct word|done].
Qed.
Lemma reads_positional value r p o s : plain value -> reads r p o s -> reads (positional value r) (p ++ [value]) o s.
Proof.
  intros Hv Hr. rewrite <- (app_nil_r o), <- (app_nil_r s). apply reads_push; [done|]. cbn [decode]. rewrite plain_not_long by done. unfold plain in Hv. by rewrite Hv.
Qed.
Lemma reads_maybe value r p o s : plain_option value -> reads r p o s -> reads (maybe_positional value r) (p ++ option_list value) o s.
Proof. destruct value as [value|]; intros Hv Hr; [by apply reads_positional; [apply Hv|]|by rewrite app_nil_r]. Qed.
Lemma reads_flag name present r p o s : bool_decide (name ∈ VALUED) = false -> reads r p o s -> reads (flag name present r) p o (s ++ switch name present).
Proof.
  intros Hn Hr. destruct present; cbn [flag switch]; [|by rewrite app_nil_r]. rewrite <- (app_nil_r p), <- (app_nil_r o). apply reads_push; [done|].
  cbn [decode]. by rewrite strip_prefix_app, Hn.
Qed.
Lemma reads_given name value r p o s : bool_decide (name ∈ VALUED) = true -> plain value -> reads r p o s -> reads (push (push r [lit "--" ++ name]) [value]) p (o ++ [(name, value)]) s.
Proof.
  intros Hn Hv Hr. assert (push (push r [lit "--" ++ name]) [value] = push r [lit "--" ++ name; value]) as -> by (unfold push; cbn [mr_args mr_root mr_format]; by rewrite <- app_assoc).
  rewrite <- (app_nil_r p), <- (app_nil_r s). apply reads_push; [done|]. cbn [decode]. rewrite strip_prefix_app, Hn. unfold plain in Hv. by rewrite Hv.
Qed.
Lemma reads_option name value r p o s : bool_decide (name ∈ VALUED) = true -> plain_option value -> reads r p o s -> reads (option_ name value r) p (o ++ entry name value) s.
Proof. destruct value as [value|]; intros Hn Hv Hr; [by apply reads_given; [|apply Hv|]|by rewrite app_nil_r]. Qed.
Lemma reads_repeated name all r p o s : bool_decide (name ∈ VALUED) = true -> Forall plain all -> reads r p o s -> reads (repeated_option name all r) p (o ++ (pair name <$> all)) s.
Proof.
  intros Hn Hall. revert r o. induction Hall as [|value all Hv _ IH]; intros r o Hr; [by rewrite app_nil_r|]. cbn [repeated_option foldl]. csimpl.
  change ((name, value) :: (pair name <$> all)) with ([(name, value)] ++ (pair name <$> all)). rewrite app_assoc. apply IH. by apply reads_given.
Qed.
Lemma plain_join words : Forall plain words -> plain (join (lit ",") words).
Proof.
  destruct words as [|word [|word' words]]; [done|by rewrite Forall_singleton|]. intros [Hw _]%Forall_cons. cbn [join]. unfold plain, hyphenated in *.
  change (lit "-") with [45]%N in *. destruct word as [|c word]; [done|]. cbn [app starts_with] in *. destruct (45 =? c)%N; [by destruct word|done].
Qed.
Definition sections_word (only : list str) : option str := match only with [] => None | _ => Some (join (lit ",") only) end.
Lemma reads_list name all r p o s : bool_decide (name ∈ VALUED) = true -> Forall plain all -> reads r p o s ->
  reads (option_list_ name all r) p (o ++ entry name (sections_word all)) s.
Proof. intros Hn Hall Hr. destruct all as [|a all]; [by rewrite app_nil_r|]. apply reads_given; [done|by apply plain_join|done]. Qed.
Lemma reads_tool tool root : plain (to_cli_command tool) -> reads (for_tool tool root) [to_cli_command tool] [] [].
Proof. intros Hc. unfold reads. cbn [for_tool mr_args decode]. rewrite plain_not_long by done. unfold plain in Hc. by rewrite Hc. Qed.

Lemma values_nil name : values name [] = [].
Proof. done. Qed.
Lemma values_app name a b : values name (a ++ b) = values name a ++ values name b.
Proof. apply omap_app. Qed.
Lemma values_entry name name' value : values name (entry name' value) = if bool_decide (name' = name) then option_list value else [].
Proof. destruct value as [value|]; cbn [entry from_option values omap list_omap]; [cbn [fst snd]|]; by case_bool_decide. Qed.
Lemma values_repeated name name' all : values name (pair name' <$> all) = if bool_decide (name' = name) then all else [].
Proof. induction all as [|value all IH]; csimpl; [by case_bool_decide|]. unfold values in *. cbn [omap list_omap fst snd]. rewrite IH. by case_bool_decide. Qed.
Lemma has_app (name : str) a b : bool_decide (name ∈ a ++ b) = bool_decide (name ∈ a) || bool_decide (name ∈ b).
Proof. apply eq_true_iff_eq. rewrite orb_true_iff, !bool_decide_eq_true. apply elem_of_app. Qed.
Lemma has_switch name name' present : bool_decide (name ∈ switch name' present) = present && bool_decide (name = name').
Proof. apply eq_true_iff_eq. rewrite andb_true_iff, !bool_decide_eq_true. destruct present; cbn [switch]; [rewrite list_elem_of_singleton; naive_solver|split; [by intros ?%elem_of_nil|by intros [? _]]]. Qed.
Lemma has_none (name : str) : bool_decide (name ∈ []) = false.
Proof. apply bool_decide_eq_false, not_elem_of_nil. Qed.
Lemma plain_dec n : plain (dec n).
Proof. destruct (dec_digits n) as [Hd Hl]. destruct (dec n) as [|c ds]; [done|]. apply Forall_cons in Hd as [Hc _]. unfold plain, hyphenated. change (lit "-") with [45]%N. cbn [starts_with]. destruct (N.eqb_spec 45 c) as [<-|]; done. Qed.
Lemma plain_dec_option (n : option N) : plain_option (dec <$> n).
Proof. intros w E. destruct n; [|done]. injection E as <-. apply plain_dec. Qed.
Lemma plain_num_option (n : option nat) : plain_option ((fun n => num n) <$> n).
Proof. intros w E. destruct n; [|done]. injection E as <-. apply plain_dec. Qed.

Ltac spelled := repeat first [apply reads_flag; [reflexivity|]|apply reads_option; [reflexivity|solve [auto using plain_dec_option, plain_num_option]|]
  |apply reads_repeated; [reflexivity|solve [auto]|]|apply reads_list; [reflexivity|solve [auto]|]|apply reads_maybe; [solve [auto]|]|apply reads_positional; [solve [auto]|]]; apply reads_tool; reflexivity.

(** Evaluates the comparison of two literal names, and spells out what was read of one. *)
Ltac names_decided_in H :=
  repeat match type of H with
    | context [bool_decide (lit ?a = lit ?b)] => let v := eval vm_compute in (bool_decide (lit a = lit b)) in change (bool_decide (lit a = lit b)) with v in H
    end.
Ltac read_out_in H :=
  rewrite ?values_app, ?values_entry, ?values_repeated, ?values_nil, ?has_app, ?has_switch, ?has_none in H; names_decided_in H;
  cbn [app] in H; rewrite ?app_nil_r, ?andb_true_r, ?andb_false_r, ?orb_false_r, ?orb_false_l in H.

Lemma reads_same r r' p o s p' o' s' : mr_args r = mr_args r' -> reads r p o s -> reads r' p' o' s' -> p = p' /\ o = o' /\ s = s'.
Proof. unfold reads. intros -> E E'. rewrite E in E'. by injection E'. Qed.
Lemma option_list_same {A} (v v' : option A) : option_list v = option_list v' -> v = v'.
Proof. destruct v, v'; cbn; congruence. Qed.
Lemma dec_same n n' : dec n = dec n' -> n = n'.
Proof. intros E. pose proof (parse_dec n n (N.le_refl n)) as H1. pose proof (parse_dec (N.max n n') n' ltac:(lia)) as H2. pose proof (parse_dec (N.max n n') n ltac:(lia)) as H3. rewrite E in H3. congruence. Qed.
Lemma dec_option_same (n n' : option N) : dec <$> n = dec <$> n' -> n = n'.
Proof. destruct n, n'; cbn; try done. intros [= E%dec_same]. congruence. Qed.
Lemma num_option_same (n n' : option nat) : (fun n => num n) <$> n = (fun n => num n) <$> n' -> n = n'.
Proof. destruct n, n'; cbn; try done. intros [= E%dec_same]. f_equal. lia. Qed.
Lemma sections_same only only' : Forall (fun o => plain o /\ ch "," ∉ o) only -> Forall (fun o => plain o /\ ch "," ∉ o) only' ->
  sections_word only = sections_word only' -> only = only'.
Proof.
  assert (forall all, Forall (fun o => plain o /\ ch "," ∉ o) all -> all <> [] -> split_char (ch ",") (join (lit ",") all) = all) as Hs.
  { intros all Ha Hn. apply split_join; [done|]. intros w Hw. rewrite Forall_forall in Ha. by apply Ha. }
  intros Ho Ho'. destruct only as [|a all], only' as [|a' all']; try done. intros E.
  apply (f_equal (default [])) in E. change (join (lit ",") (a :: all) = join (lit ",") (a' :: all')) in E. rewrite <- (Hs (a :: all)), <- (Hs (a' :: all')) by done. by rewrite E.
Qed.
Lemma both_same b b' : is_some_true b = is_some_true b' -> is_some_false b = is_some_false b' -> b = b'.
Proof. by destruct b as [[]|], b' as [[]|]. Qed.
Lemma set_same b b' : is_some_true b = is_some_true b' -> set_only b = set_only b'.
Proof. unfold set_only. by intros ->. Qed.

(** The parts of what a tool spells. *)
Ltac parts_of H r := eassert (reads r _ _ _) as H by
  (unfold find_kotlin_symbol, get_kotlin_outline, trace_kotlin_symbol, analyze_kotlin_dependencies, get_kotlin_repo_map, check_kotlin_syntax, explain_kotlin_symbol, ktsense_status, search_kotlin_text; spelled).
Ltac told E Hp Ho Hs := match type of E with mr_args ?r = mr_args ?r' => let P := fresh in let P' := fresh in parts_of P r; parts_of P' r'; pose proof (reads_same _ _ _ _ _ _ _ _ E P P') as (Hp & Ho & Hs); clear P P' end.
Ltac value_told H Ho name := pose proof (f_equal (values name) Ho) as H; read_out_in H.
Ltac switch_told H Hs name := pose proof (f_equal (fun s : list str => bool_decide (name ∈ s)) Hs) as H; cbn beta in H; read_out_in H.

Lemma outline_told root root' p p' : well_spelled (OutlineCall p) -> well_spelled (OutlineCall p') ->
  mr_args (get_kotlin_outline root p) = mr_args (get_kotlin_outline root' p') -> asked (OutlineCall p) = asked (OutlineCall p').
Proof.
  intros Hf Hf' E. cbn [well_spelled] in Hf, Hf'. told E Hp Ho Hs. switch_told H1 Hs (lit "private"). switch_told H2 Hs (lit "kdoc"). switch_told H3 Hs (lit "annotations").
  injection Hp as Hp. cbn [asked]. congruence.
Qed.
Lemma symbols_told root root' p p' : well_spelled (SymbolsCall p) -> well_spelled (SymbolsCall p') ->
  mr_args (find_kotlin_symbol root p) = mr_args (find_kotlin_symbol root' p') -> asked (SymbolsCall p) = asked (SymbolsCall p').
Proof.
  intros (Hq & Hk & Hpk) (Hq' & Hk' & Hpk') E. told E Hp Ho Hs. value_told H1 Ho (lit "kind"). value_told H2 Ho (lit "limit"). value_told H3 Ho (lit "pick"). switch_told H4 Hs (lit "contains").
  injection Hp as Hp%option_list_same. apply option_list_same in H1, H2, H3. apply num_option_same in H2. cbn [asked]. congruence.
Qed.
Lemma trace_told root root' p p' : well_spelled (TraceCall p) -> well_spelled (TraceCall p') ->
  mr_args (trace_kotlin_symbol root p) = mr_args (trace_kotlin_symbol root' p') -> asked (TraceCall p) = asked (TraceCall p').
Proof.
  intros (Hs & Hpk & Hpath) (Hs' & Hpk' & Hpath') E. told E Hp Ho Hsw. value_told H1 Ho (lit "pick"). value_told H2 Ho (lit "depth"). value_told H3 Ho (lit "limit"). value_told H4 Ho (lit "path").
  switch_told H5 Hsw (lit "tests"). switch_told H6 Hsw (lit "no-tests"). injection Hp as Hp%option_list_same. apply option_list_same in H1, H2, H3. apply dec_option_same in H2. apply num_option_same in H3.
  pose proof (both_same _ _ H5 H6) as H7. cbn [asked]. congruence.
Qed.
Lemma deps_told root root' p p' : well_spelled (DepsCall p) -> well_spelled (DepsCall p') ->
  mr_args (analyze_kotlin_dependencies root p) = mr_args (analyze_kotlin_dependencies root' p') -> asked (DepsCall p) = asked (DepsCall p').
Proof.
  intros Hl Hl' E. cbn [well_spelled] in Hl, Hl'. told E Hp Ho Hs. value_told H1 Ho (lit "level"). apply option_list_same in H1. cbn [asked]. congruence.
Qed.
Lemma map_told root root' p p' : well_spelled (MapCall p) -> well_spelled (MapCall p') ->
  mr_args (get_kotlin_repo_map root p) = mr_args (get_kotlin_repo_map root' p') -> asked (MapCall p) = asked (MapCall p').
Proof.
  intros (Hf & Hpath) (Hf' & Hpath') E. told E Hp Ho Hs. value_told H1 Ho (lit "budget"). value_told H2 Ho (lit "focus"). value_told H3 Ho (lit "path"). switch_told H4 Hs (lit "compact"). switch_told H5 Hs (lit "fill").
  apply option_list_same in H1, H2. apply dec_option_same in H1. cbn [asked]. congruence.
Qed.
Lemma check_told root root' p p' : well_spelled (CheckCall p) -> well_spelled (CheckCall p') ->
  mr_args (check_kotlin_syntax root p) = mr_args (check_kotlin_syntax root' p') -> asked (CheckCall p) = asked (CheckCall p').
Proof. intros Hf Hf' E. cbn [well_spelled] in Hf, Hf'. told E Hp Ho Hs. injection Hp as Hp. cbn [asked]. congruence. Qed.
Lemma context_told root root' p p' : well_spelled (ContextCall p) -> well_spelled (ContextCall p') ->
  mr_args (explain_kotlin_symbol root p) = mr_args (explain_kotlin_symbol root' p') -> asked (ContextCall p) = asked (ContextCall p').
Proof.
  assert (forall all, Forall (fun o => plain o /\ ch "," ∉ o) all -> Forall plain all) as Hplain by (intros all Ha; eapply Forall_impl; [exact Ha|naive_solver]).
  intros (Hs & Hpk & Hm & Hpath & Honly) (Hs' & Hpk' & Hm' & Hpath' & Honly') E. pose proof (Hplain _ Honly). pose proof (Hplain _ Honly'). clear Hplain.
  told E Hp Ho Hsw.
  value_told H1 Ho (lit "pick"). value_told H2 Ho (lit "budget"). value_told H3 Ho (lit "only"). value_told H4 Ho (lit "match"). value_told H5 Ho (lit "around"). value_told H6 Ho (lit "path").
  switch_told H7 Hsw (lit "tests"). switch_told H8 Hsw (lit "no-tests"). injection Hp as Hp%option_list_same. apply option_list_same in H1, H2, H3, H4, H5.
  apply dec_option_same in H2. apply num_option_same in H5. apply sections_same in H3; [|done..]. pose proof (both_same _ _ H7 H8) as H9. cbn [asked]. congruence.
Qed.
Lemma grep_told root root' p p' : well_spelled (GrepCall p) -> well_spelled (GrepCall p') ->
  mr_args (search_kotlin_text root p) = mr_args (search_kotlin_text root' p') -> asked (GrepCall p) = asked (GrepCall p').
Proof.
  intros (Hpt & Hpath) (Hpt' & Hpath') E. told E Hp Ho Hs. value_told H1 Ho (lit "path"). value_told H2 Ho (lit "limit"). switch_told H3 Hs (lit "tests"). switch_told H4 Hs (lit "no-tests").
  switch_told H5 Hs (lit "kotlin-only"). switch_told H6 Hs (lit "word"). switch_told H7 Hs (lit "ignore-case"). switch_told H8 Hs (lit "fixed-strings").
  injection Hp as Hp. apply option_list_same in H1, H2. apply num_option_same in H2. pose proof (both_same _ _ H3 H4) as H9. apply set_same in H5, H6, H7, H8. cbn [asked]. congruence.
Qed.
(** The subcommand is the first word. *)
Lemma command_first call root : head (mr_args (request_for call root)) = Some (to_cli_command (tool_of call)).
Proof.
  assert (forall r words, head (mr_args r) <> None -> head (mr_args (push r words)) = head (mr_args r)) as Hpush by (intros [[|w ws] ? ?] words; done).
  assert (forall f (r : Request) c, (forall r, head (mr_args r) <> None -> head (mr_args (f r)) = head (mr_args r)) -> head (mr_args r) = Some c -> head (mr_args (f r)) = Some c) as Hkeep by (intros f r c Hf E; rewrite Hf; congruence).
  assert (forall name all r, head (mr_args r) <> None -> head (mr_args (repeated_option name all r)) = head (mr_args r)) as Hrep.
  { intros name all. induction all as [|v all IH]; intros r Hr; [done|]. unfold repeated_option in *. cbn [foldl]. assert (head (mr_args (push (push r [lit "--" ++ name]) [v])) = head (mr_args r)) as E by (rewrite !Hpush; try done; by rewrite Hpush). rewrite IH; congruence. }
  destruct call; cbn [request_for tool_of]; unfold find_kotlin_symbol, get_kotlin_outline, trace_kotlin_symbol, analyze_kotlin_dependencies, get_kotlin_repo_map, check_kotlin_syntax, explain_kotlin_symbol, ktsense_status, search_kotlin_text;
    repeat (apply Hkeep; [intros r Hr; unfold flag, option_, option_list_, maybe_positional, positional; first [by apply Hrep|repeat case_match; rewrite ?Hpush by (rewrite ?Hpush; done); done]|]); done.
Qed.
Lemma words_told call call' root root' : well_spelled call -> well_spelled call' -> mr_args (request_for call root) = mr_args (request_for call' root') -> asked call = asked call'.
Proof.
  intros Hw Hw' E. assert (to_cli_command (tool_of call) = to_cli_command (tool_of call')) as Et.
  { pose proof (command_first call root) as H1. pose proof (command_first call' root') as H2. rewrite E in H1. congruence. }
  destruct call, call'; try (by vm_compute in Et); clear Et; cbn [request_for] in E;
    eauto using outline_told, symbols_told, trace_told, deps_told, map_told, check_told, context_told, grep_told.
Qed.
(** The root of a request, and its words, are apart. *)
Definition rooted (root : option str) (r : Request) : Request := mkRequest (mr_args r) root (mr_format r).
Lemma rooted_repeated root name all r : rooted root (repeated_option name all r) = repeated_option name all (rooted root r).
Proof. revert r. induction all as [|v all IH]; intros r; [done|]. unfold repeated_option in *. cbn [foldl]. by rewrite IH. Qed.
Lemma format_repeated name all r : mr_format (repeated_option name all r) = mr_format r.
Proof. revert r. induction all as [|v all IH]; intros r; [done|]. unfold repeated_option in *. cbn [foldl]. by rewrite IH. Qed.
Lemma rooted_option name value root r : rooted root (option_ name value r) = option_ name value (rooted root r).
Proof. by destruct value. Qed.
Lemma rooted_list name all root r : rooted root (option_list_ name all r) = option_list_ name all (rooted root r).
Proof. by destruct all. Qed.
Lemma rooted_flag name present root r : rooted root (flag name present r) = flag name present (rooted root r).
Proof. by destruct present. Qed.
Lemma rooted_maybe value root r : rooted root (maybe_positional value r) = maybe_positional value (rooted root r).
Proof. by destruct value. Qed.
Lemma rooted_positional value root r : rooted root (positional value r) = positional value (rooted root r).
Proof. done. Qed.
Lemma request_rooted call root : request_for call root = rooted root (request_for call None).
Proof.
  destruct call; cbn [request_for]; unfold find_kotlin_symbol, get_kotlin_outline, trace_kotlin_symbol, analyze_kotlin_dependencies, get_kotlin_repo_map, check_kotlin_syntax, explain_kotlin_symbol, ktsense_status, search_kotlin_text;
    rewrite ?rooted_flag, ?rooted_repeated, ?rooted_flag, ?rooted_option, ?rooted_repeated, ?rooted_option, ?rooted_list, ?rooted_option, ?rooted_flag, ?rooted_option, ?rooted_maybe, ?rooted_positional; reflexivity.
Qed.
Lemma request_format call root : mr_format (request_for call root) = McpMd.
Proof.
  destruct call; cbn [request_for]; unfold find_kotlin_symbol, get_kotlin_outline, trace_kotlin_symbol, analyze_kotlin_dependencies, get_kotlin_repo_map, check_kotlin_syntax, explain_kotlin_symbol, ktsense_status, search_kotlin_text;
    unfold flag, option_, option_list_, maybe_positional, positional; repeat (case_match; cbn [push mr_format]; rewrite ?format_repeated; cbn [push mr_format]); rewrite ?format_repeated; try reflexivity;
    repeat (case_match; cbn [push mr_format]); reflexivity.
Qed.
Lemma asked_words call call' root root' : asked call = asked call' -> mr_args (request_for call root) = mr_args (request_for call' root').
Proof.
  rewrite (request_rooted call root), (request_rooted call' root'). cbn [rooted mr_args].
  assert (forall (b b' : option bool), set_only b = set_only b' -> is_some_true b = is_some_true b') as Hset by by intros [[]|] [[]|].
  destruct call as [p|p|p|p|p|p|p|p|p], call' as [p'|p'|p'|p'|p'|p'|p'|p'|p']; cbn [asked]; try discriminate; destruct p, p'; intros [=]; subst; try reflexivity; cbn in *.
  - unfold get_kotlin_repo_map. cbn. repeat match goal with H : _ = _ :> bool |- _ => rewrite H; clear H end. reflexivity.
  - unfold search_kotlin_text. cbn. repeat match goal with H : set_only _ = set_only _ |- _ => apply Hset in H; rewrite H; clear H end. reflexivity.
Qed.

(** *** The options named *)

Lemma in_entry name n value : name ∈ (entry n value).*1 <-> name = n /\ given value = true.
Proof. destruct value; cbn; [rewrite list_elem_of_singleton; naive_solver|split; [by intros ?%elem_of_nil|by intros [_ ?]]]. Qed.
Lemma in_repeated name n all : name ∈ (pair n <$> all : list (str * str)).*1 <-> name = n /\ some_given all = true.
Proof.
  rewrite <- list_fmap_compose. destruct all as [|v all]; [split; [by intros ?%elem_of_nil|by intros [_ ?]]|]. rewrite list_elem_of_fmap. split; [by intros (? & -> & _)|]. intros [-> _]. exists v. split; [done|by left].
Qed.
Lemma in_switch name n present : name ∈ switch n present <-> name = n /\ present = true.
Proof. destruct present; cbn [switch]; [rewrite list_elem_of_singleton; naive_solver|split; [by intros ?%elem_of_nil|by intros [_ ?]]]. Qed.
Lemma in_chosen name n b table : name ∈ chosen ((n, b) :: table) <-> (name = n /\ b = true) \/ name ∈ chosen table.
Proof. unfold chosen. cbn [omap list_omap snd fst]. destruct b; [rewrite elem_of_cons; naive_solver|naive_solver]. Qed.
Lemma given_fmap {A B} (f : A -> B) (v : option A) : given (f <$> v) = given v.
Proof. by destruct v. Qed.
Lemma given_sections only : given (sections_word only) = some_given only.
Proof. by destruct only. Qed.
Lemma given_is_some {A} (v : option A) : bool_decide (is_Some v) = given v.
Proof. destruct v; [by apply bool_decide_eq_true_2|apply bool_decide_eq_false_2; by intros [? ?]]. Qed.
Lemma plain_not_option value name : plain value -> value <> lit "--" ++ name.
Proof. intros Hv ->. unfold plain, hyphenated in Hv. apply not_true_iff_false in Hv. apply Hv, starts_with_spec. by exists (lit "-" ++ name). Qed.
Lemma decode_names n : forall words p o s name, length words <= n -> decode words = Some (p, o, s) -> lit "--" ++ name ∈ words <-> name ∈ o.*1 \/ name ∈ s.
Proof.
  induction n as [|n IH]; intros words p o s name Hl; (destruct words as [|word words]; [intros [= <- <- <-]; cbn; rewrite !elem_of_nil; tauto|cbn in Hl; try lia]).
  cbn [decode]. rewrite strip_prefix_spec. destruct (starts_with word (lit "--")) eqn:Es.
  - apply starts_with_spec in Es as [name' ->]. rewrite drop_app_length. assert (forall rest, lit "--" ++ name ∈ (lit "--" ++ name') :: rest <-> name = name' \/ lit "--" ++ name ∈ rest) as Hcons.
    { intros rest. rewrite elem_of_cons. split; (intros [E|?]; [left|by right]); [by apply (inj (app (lit "--"))) in E|by subst]. }
    rewrite Hcons. case_bool_decide.
    + destruct words as [|value words]; [done|]. destruct (hyphenated value) eqn:Hv; [done|]. destruct (decode words) as [[[p1 o1] s1]|] eqn:E; [|done]. cbn. intros [= <- <- <-].
      rewrite elem_of_cons, (IH words p1 o1 s1 name) by (done || cbn in Hl; lia). cbn. rewrite elem_of_cons. pose proof (plain_not_option value name Hv). naive_solver.
    + destruct (decode words) as [[[p1 o1] s1]|] eqn:E; [|done]. cbn. intros [= <- <- <-]. rewrite (IH words p1 o1 s1 name) by (done || lia). rewrite elem_of_cons. tauto.
  - destruct (hyphenated word) eqn:Hv; [done|]. destruct (decode words) as [[[p1 o1] s1]|] eqn:E; [|done]. cbn. intros [= <- <- <-].
    rewrite elem_of_cons, (IH words p1 o1 s1 name) by (done || lia). pose proof (plain_not_option word name Hv). naive_solver.
Qed.
Lemma reads_names r p o s name : reads r p o s -> lit "--" ++ name ∈ mr_args r <-> name ∈ o.*1 \/ name ∈ s.
Proof. intros Hr. by apply (decode_names (length (mr_args r)) _ p). Qed.
Ltac names_told := match goal with |- _ ∈ mr_args ?r <-> _ => let P := fresh in parts_of P r; rewrite (reads_names _ _ _ _ _ P); clear P end;
  unfold options_of; rewrite ?fmap_app, ?elem_of_app, ?in_entry, ?in_repeated, ?in_switch, ?in_chosen, ?given_fmap, ?given_sections, ?given_is_some;
  cbn [fmap list_fmap chosen omap list_omap]; rewrite ?elem_of_nil; unfold is_some_true, is_some_false; tauto.
Lemma options_told call root name : well_spelled call -> lit "--" ++ name ∈ mr_args (request_for call root) <-> name ∈ options_of call.
Proof.
  destruct call as [p|p|p|p|p|p|p|p|p]; cbn [well_spelled request_for].
  - intros Hf. names_told.
  - intros (Hq & Hk & Hp). names_told.
  - intros (Hs & Hp & Hpath). names_told.
  - intros Hl. names_told.
  - intros (Hf & Hpath). names_told.
  - intros Hf. names_told.
  - intros (Hs & Hp & Hm & Hpath & Honly). assert (Forall plain (xp_only p)) as Hplain by (eapply Forall_impl; [exact Honly|naive_solver]). names_told.
  - intros _. names_told.
  - intros (Hp & Hpath). names_told.
Qed.

(** C29: The words a tool spells say what it was asked, no less and no more. Of calls whose words do not begin with a hyphen
    (and whose sections hold no comma), two are run with the same words exactly when they are about the same root and ask
    for the same thing, switches that are not set and the compactness a focus implies apart; the first word of the arguments
    is the tool's subcommand, and an option is named in them exactly when its parameter gives a value or sets it. *)
Theorem tool_words_faithful (default_root : str) (root root' : option str) (call call' : ToolCall) : well_spelled call -> well_spelled call' ->
  (runner_words default_root (request_for call root) = runner_words default_root (request_for call' root') <->
   default default_root root = default default_root root' /\ asked call = asked call') /\
  head (mr_args (request_for call root)) = Some (to_cli_command (tool_of call)) /\
  forall name, lit "--" ++ name ∈ mr_args (request_for call root) <-> name ∈ options_of call.
Proof.
  intros Hw Hw'. split; [|split; [apply command_first|intros name; by apply options_told]].
  assert (forall c r, mr_root (request_for c r) = r) as Hr by (intros c r; by rewrite request_rooted).
  unfold runner_words, runner_root. rewrite !Hr, !request_format. split.
  - intros [= Er Ea]. split; [done|]. by eapply words_told.
  - intros [-> Ea]. by rewrite (asked_words call call' root root' Ea).
Qed.
Lemma tool_words_faithful_witness :
  let production := TraceCall (mkTraceParams (Some (lit "Cart.add")) None (Some 2%N) (Some 40) [lit "src/shop"; lit "src/test"] (Some false) None) in
  let everything := TraceCall (mkTraceParams (Some (lit "Cart.add")) None (Some 2%N) (Some 40) [lit "src/shop"; lit "src/test"] None None) in
  runner_words (lit "/shop") (request_for production None) <> runner_words (lit "/shop") (request_for everything None) /\
  lit "--no-tests" ∈ mr_args (request_for production None).
Proof.
  cbv zeta. set (production := TraceCall _). set (everything := TraceCall _).
  assert (forall tests, well_spelled (TraceCall (mkTraceParams (Some (lit "Cart.add")) None (Some 2%N) (Some 40) [lit "src/shop"; lit "src/test"] tests None))) as Hw.
  { intros tests. split_and!; [by intros w [= <-]|done|repeat constructor]. }
  destruct (tool_words_faithful (lit "/shop") None None production everything (Hw _) (Hw _)) as (Hsame & _ & Hnamed). split.
  - intros E. apply Hsame in E as [_ E]. discriminate E.
  - apply (Hnamed (lit "no-tests")). apply (bool_decide_unpack _). vm_compute. exact I.
Defined.

(** ** The places a syntax check reports *)

(** A syntax error the index can spell. *)
Definition citable_error (e : SyntaxError) : Prop :=
  is_source_path (se_file e) = true /\ (se_line e <= u32_max)%N /\ (se_col e <= u32_max)%N /\ ch ":" ∉ se_message e.
Definition error_site (e : SyntaxError) : Citation := mkCitation (se_file e) (se_line e) (Some (se_col e)).

Lemma path_run_all path : Forall (fun c => is_path_character c = true) path -> path_run path = path.
Proof. intros Hp. unfold path_run. rewrite <- (app_nil_r (rev path)), take_while_all; [apply rev_involutive|by apply Forall_rev|done]. Qed.
Lemma colon_split before a b : ch ":" ∉ a -> colon_splits before (a ++ ch ":" :: b) = (before ++ a, b) :: colon_splits ((before ++ a) ++ [ch ":"]) b.
Proof. intros Hn. by rewrite colon_splits_skip. Qed.
Lemma dec_no_colon n : ch ":" ∉ dec n.
Proof. by apply digits_free. Qed.
Lemma check_line_safe e : is_source_path (se_file e) = true ->
  neutralize (check_line e) = se_file e ++ ch ":" :: (dec (se_line e) ++ ch ":" :: (dec (se_col e) ++ ch ":" :: (ch " " :: neutralize (se_message e)))).
Proof.
  intros (_ & Hf & _)%path_trim. unfold check_line. rewrite !neutralize_app, Hf.
  rewrite !(neutralize_id (dec _)) by (apply (digits_fuel_safe _ 10 _ []); [lia|constructor]). reflexivity.
Qed.
Lemma token_after_more before n after : token ((before ++ [ch ":"]) ++ dec n, after) = None.
Proof. rewrite <- app_assoc. apply token_after_digits. apply dec_digits. Qed.
Lemma error_cites e : citable_error e -> omap token (colon_splits [] (neutralize (check_line e))) = [error_site e].
Proof.
  intros (Hf & Hl & Hc & Hm). rewrite check_line_safe by done. pose proof (path_trim _ Hf) as (_ & _ & Hcol & _).
  rewrite colon_split by done. cbn [app]. rewrite colon_split by apply dec_no_colon. rewrite colon_split by apply dec_no_colon.
  change (ch " " :: neutralize (se_message e)) with ([ch " "] ++ neutralize (se_message e)).
  rewrite no_colon_splits by (apply not_elem_of_app; split; [apply (bool_decide_unpack _); by vm_compute|by apply neutralize_no_colon]).
  cbn [omap list_omap]. rewrite !token_after_more. unfold token. cbn [fst snd]. rewrite dec_number by done. cbn [mbind option_bind].
  rewrite path_run_all by by apply path_chars. rewrite Hf. cbn [column_at]. rewrite N.eqb_refl, dec_number by done. done.
Qed.
(** A line with a colon in it, before its end is trimmed, opens no file. *)
Lemma colon_opens s : ch ":" ∈ trim s -> strip_prefix (trim s) HEADING = None -> opens s = None.
Proof.
  intros Hc Hh. unfold opens, heading_path. rewrite Hh. cbn [mbind option_bind]. destruct (is_source_path (trim s)) eqn:E; [|done].
  by apply path_trim in E as (_ & _ & Hn & _).
Qed.
Lemma path_trim_start path rest : is_source_path path = true -> trim_start (path ++ rest) = path ++ rest.
Proof.
  intros Hp. rewrite trim_start_app. pose proof (path_chars _ Hp) as Hc. rewrite trim_start_id by (eapply Forall_impl; [exact Hc|]; intros c [Hr _]%path_char_range; apply plain_no_whitespace; lia).
  by destruct path.
Qed.
Lemma error_opens e : citable_error e -> opens (neutralize (check_line e)) = None.
Proof.
  intros (Hf & _). rewrite check_line_safe by done. assert (forall rest, trim (se_file e ++ ch ":" :: rest) = se_file e ++ ch ":" :: trim_end rest) as E.
  { intros rest. unfold trim. rewrite path_trim_start by done. by apply trim_end_snoc. }
  apply colon_opens; rewrite E; [apply elem_of_app; right; by left|]. rewrite strip_prefix_spec. apply path_chars in Hf as Hc.
  assert (se_file e <> []) as Hn by (intros En; by rewrite En in Hf). destruct (se_file e) as [|c path]; [done|]. apply Forall_cons in Hc as [[Hr _]%path_char_range _].
  cbn [app]. change HEADING with (35 :: lit "# ")%N. cbn [starts_with]. destruct (N.eqb_spec 35 c); [lia|done].
Qed.
Lemma error_line_safe e : all_safe (neutralize (check_line e)).
Proof. apply neutralize_all_safe. Qed.

(** A line that neither opens a file nor cites a place. *)
Definition quiet (line : str) : Prop := opens line = None /\ omap token (colon_splits [] line) = [].
Lemma quiet_line line : ch ":" ∉ line -> strip_prefix (trim line) HEADING = None -> is_source_path (trim line) = false -> quiet line.
Proof. intros Hc Hh Hp. split; [|by rewrite no_colon_splits]. unfold opens, heading_path. rewrite Hh. cbn [mbind option_bind]. by rewrite Hp. Qed.
Lemma backtick_line rest : Forall (fun c => is_whitespace c = false) rest -> ch ":" ∉ rest -> quiet (backtick :: rest).
Proof.
  intros Hw Hc. assert (trim (backtick :: rest) = backtick :: rest) as E by (apply trim_id; by constructor).
  apply quiet_line; rewrite ?E; [by apply not_elem_of_cons|done|]. destruct (is_source_path (backtick :: rest)) eqn:Ep; [|done].
  apply path_chars, Forall_cons in Ep as [Ep _]. discriminate Ep.
Qed.
Lemma fence_quiet body rest : Forall (fun c => is_whitespace c = false) rest -> ch ":" ∉ rest -> quiet (fence_for body ++ rest).
Proof.
  intros Hw Hc. unfold fence_for. set (longest := foldr N.max _ _). assert (exists k, N.to_nat (N.max (longest + 1) MIN_FENCE_BACKTICKS) = S k) as [k ->].
  { exists (pred (N.to_nat (N.max (longest + 1) MIN_FENCE_BACKTICKS))). unfold MIN_FENCE_BACKTICKS. lia. }
  cbn [replicate app]. apply backtick_line; [apply Forall_app; split; [by apply Forall_replicate|done]|].
  rewrite elem_of_app, elem_of_replicate. by intros [[[=] _]|Hin].
Qed.
Definition summary_line (report : CheckReport) : str := dec (ck_files_ok report) ++ lit " OK, " ++ dec (ck_files_with_errors report) ++ lit " with errors.".
Lemma summary_quiet report : quiet (summary_line report).
Proof.
  unfold summary_line. destruct (dec_digits (ck_files_ok report)) as [Hd Hl]. pose proof (dec_no_colon (ck_files_ok report)) as Hn. destruct (dec (ck_files_ok report)) as [|c ds]; [cbn in Hl; lia|].
  assert (trim ((c :: ds) ++ lit " OK, " ++ dec (ck_files_with_errors report) ++ lit " with errors.") = (c :: ds) ++ lit " OK, " ++ dec (ck_files_with_errors report) ++ lit " with errors.") as E.
  { unfold trim. apply Forall_cons in Hd as [Hc _]. assert (is_whitespace c = false) as Hw by (apply plain_no_whitespace; unfold ascii_digit in Hc; apply andb_true_iff in Hc as [H1%N.leb_le H2%N.leb_le]; lia).
    cbn [app trim_start]. rewrite Hw. change (lit " with errors.") with (lit " with errors" ++ ch "." :: []). rewrite !app_comm_cons, !app_assoc. by rewrite trim_end_snoc. }
  apply quiet_line; rewrite ?E.
  - rewrite !not_elem_of_app. split_and!; [done|apply (bool_decide_unpack _); by vm_compute|apply dec_no_colon|apply (bool_decide_unpack _); by vm_compute].
  - apply Forall_cons in Hd as [Hc _]. rewrite strip_prefix_spec. change HEADING with (35 :: lit "# ")%N. cbn [app starts_with]. destruct (N.eqb_spec 35 c); [subst c; discriminate Hc|done].
  - apply space_no_path. rewrite elem_of_app. right. by left.
Qed.

Definition report_lines (report : CheckReport) : list str :=
  [lit "## Syntax check"; []; summary_line report]
  ++ match ck_errors report with
     | [] => []
     | errors => let body := (fun e => neutralize (check_line e)) <$> errors in let fence := fence_for (join nl body) in [[]; fence ++ lit "text"] ++ body ++ [fence]
     end.
Lemma join_terminated ls : ls <> [] -> join nl ls ++ nl = concat ((fun line => line ++ nl) <$> ls).
Proof.
  induction ls as [|l ls IH]; [done|]. intros _. destruct ls as [|l' ls]; [cbn; by rewrite app_nil_r|]. change (join nl (l :: l' :: ls)) with (l ++ nl ++ join nl (l' :: ls)).
  rewrite <- !app_assoc, IH by done. csimpl. by rewrite <- !app_assoc.
Qed.
Lemma three_terminated (a c : str) : concat ((fun line => line ++ nl) <$> [a; []; c]) = a ++ nl ++ nl ++ c ++ nl.
Proof. cbn [fmap list_fmap concat]. by rewrite app_nil_r, <- !app_assoc. Qed.
Lemma fenced_terminated (fence text : str) body : body <> [] ->
  concat ((fun line => line ++ nl) <$> [[]; fence ++ text] ++ body ++ [fence]) = nl ++ fence ++ text ++ nl ++ join nl body ++ nl ++ fence ++ nl.
Proof.
  intros Hb. rewrite !fmap_app, !concat_app, <- (join_terminated body) by done. cbn [fmap list_fmap concat]. rewrite !app_nil_r, <- !app_assoc. reflexivity.
Qed.
Lemma report_text report : check_markdown report = concat ((fun line => line ++ nl) <$> report_lines report).
Proof.
  unfold check_markdown, report_lines. rewrite fmap_app, concat_app, three_terminated. unfold summary_line. rewrite <- !app_assoc. do 8 f_equal.
  destruct (ck_errors report) as [|e errors]; [done|]. cbn zeta. rewrite fenced_terminated by done. unfold fenced_block. by rewrite <- list_fmap_compose.
Qed.
Lemma report_lines_safe report : Forall all_safe (report_lines report).
Proof.
  unfold report_lines. apply Forall_app. split.
  - repeat constructor. unfold summary_line, all_safe. rewrite !Forall_app. split_and!; try (by apply safe_by_test); apply (digits_fuel_safe _ 10 _ []); first [lia|constructor].
  - destruct (ck_errors report) as [|e errors]; [constructor|]. set (body := _ <$> _). cbn zeta. cbn [app]. rewrite !Forall_cons, Forall_app, Forall_singleton.
    split_and!; [constructor|apply Forall_app; split; [apply fence_safe|by apply safe_by_test]| |apply fence_safe]. unfold body. apply Forall_fmap, Forall_forall. intros e' _. apply error_line_safe.
Qed.
Lemma lines_from_silent ls : Forall (fun line => opens line = None) ls ->
  lines_from None citations_of ls = concat ((fun line => omap token (colon_splits [] line)) <$> ls).
Proof.
  induction 1 as [|line ls Ho _ IH]; [done|]. cbn [lines_from]. csimpl. rewrite Ho, IH. unfold citations_of, grouped_citation. rewrite Ho. by destruct (grouped_line _).
Qed.
Lemma report_cites report : Forall citable_error (ck_errors report) -> cited (lines (check_markdown report)) = error_site <$> ck_errors report.
Proof.
  intros He. rewrite report_text, lines_terminated by apply report_lines_safe. unfold cited. rewrite on_lines_start.
  assert (quiet [] /\ quiet (lit "## Syntax check")) as [Hn Ht] by by split; vm_compute. pose proof (summary_quiet report) as Hs.
  rewrite lines_from_silent; unfold report_lines.
  - rewrite fmap_app, concat_app.
    assert (concat ((fun line => omap token (colon_splits [] line)) <$> [lit "## Syntax check"; []; summary_line report]) = []) as ->.
    { cbn [fmap list_fmap concat]. by rewrite (proj2 Hn), (proj2 Ht), (proj2 Hs). }
    rewrite app_nil_l.
    destruct (ck_errors report) as [|e errors]; [done|]. set (all := e :: errors) in *. cbn zeta. set (body := (fun e => neutralize (check_line e)) <$> all). rewrite !fmap_app, !concat_app.
    assert (concat ((fun line => omap token (colon_splits [] line)) <$> body) = error_site <$> all) as ->.
    { unfold body. clear -He. induction He as [|e' es Hc _ IH]; [done|]. cbn [fmap list_fmap concat]. by rewrite error_cites, IH. }
    generalize body. clear body. intros body. cbn [fmap list_fmap concat].
    destruct (fence_quiet (join nl body) (lit "text")) as [_ Hopen]; [by repeat constructor|apply (bool_decide_unpack _); by vm_compute|].
    destruct (fence_quiet (join nl body) []) as [_ Hclose]; [constructor|apply not_elem_of_nil|]. rewrite app_nil_r in Hclose.
    rewrite (proj2 Hn), Hopen, Hclose, !app_nil_l, !app_nil_r. done.
  - apply Forall_app. split; [rewrite !Forall_cons; split_and!; [apply Ht|apply Hn|apply Hs|constructor]|]. destruct (ck_errors report) as [|e errors]; [constructor|]. set (all := e :: errors) in *. cbn zeta.
    rewrite !Forall_app, !Forall_cons. split_and!; [apply Hn|apply fence_quiet; [by repeat constructor|apply (bool_decide_unpack _); by vm_compute]|constructor| | |constructor].
    { apply Forall_fmap; eapply Forall_impl; [exact He|]; intros e'; apply error_opens. }
    rewrite <- (app_nil_r (fence_for _)). apply fence_quiet; [constructor|apply not_elem_of_nil].
Qed.
Lemma error_not_blank (c : char) (s : str) : is_whitespace c = false -> trim ((c :: s) ++ nl) = trim (c :: s) /\ trim (c :: s) <> [].
Proof.
  intros Hc. split.
  - unfold trim. cbn [app trim_start]. rewrite Hc. unfold trim_end. rewrite app_comm_cons, rev_app_distr. reflexivity.
  - unfold trim. cbn [trim_start]. rewrite Hc. pose proof (trim_end_snoc [] c s Hc) as E. cbn [app] in E. by rewrite E.
Qed.
Lemma heading_not_blank rest : trim (lit "## Syntax check" ++ rest) <> [].
Proof. change (lit "## Syntax check" ++ rest) with ([] ++ ch "#" :: (lit "# Syntax check" ++ rest)). unfold trim. change (trim_start ?s) with s. by rewrite trim_end_snoc. Qed.
Lemma index_checked call report : Forall citable_error (ck_errors report) -> length (firsts (error_site <$> ck_errors report)) <= MAX_CITATIONS ->
  exists answer, index_answer call (check_markdown report) = Some answer /\ an_citations answer = firsts (error_site <$> ck_errors report) /\ an_citations_omitted answer = 0.
Proof.
  intros He Hl. unfold index_answer. destruct (scan_of_scanned (check_markdown report)) as (s & -> & [_ Hc Ho _]). eexists. split; [done|]. cbn [an_citations an_citations_omitted].
  rewrite cites_lines, report_cites in Hc, Ho by done. rewrite take_ge in Hc by done. split; [done|]. rewrite Ho, Hc. apply length_zero_iff_nil.
  apply elem_of_nil_inv. intros c [Hn Hin]%list_elem_of_filter. by apply Hn, elem_of_firsts.
Qed.
Lemma index_total call text : exists answer, index_answer call text = Some answer.
Proof. unfold index_answer. destruct (scan_of_scanned text) as (s & -> & _). by eexists. Qed.

(** What a run of the binary left, as the runner hands it on. *)
Definition invocation_of (root : str) (left : Left_) : Invocation := mkInvocation (Some (lf_code left)) (lf_stdout left) (lf_stderr left) root.

(** C30: The check tool tells a finding from a failure, for a command that logged nothing while it ran (with anything logged,
    a failing exit shows the log, [log_hides_a_miss]), and for a report whose places the index can spell: files of the path
    characters the index reads, lines and columns of 32 bits, messages without a colon, and at most [MAX_CITATIONS] distinct
    places. Over the command, the process and the presentation, such a report is an answer whose text is the report,
    [clean] or [findings] as the report has it, whose count is the number of distinct places of its errors and whose
    citations are those places; a report the engine did not give is an error with the command's message and no count. *)
Theorem check_tool_agrees (root : str) (engine : PassthroughError + CheckReport) :
  match engine with
  | inr report => Forall citable_error (ck_errors report) /\ length (firsts (error_site <$> ck_errors report)) <= MAX_CITATIONS
  | inl _ => True
  end ->
  exists r left result, check engine Md = Some r /\ main_ [] r = Some left /\ present_check (invocation_of root left) = Some result /\
    match engine with
    | inr report =>
        tr_is_error result = false /\ tr_text result = check_markdown report /\
        an_outcome (tr_structured result) = Some (if has_errors report then lit "findings" else lit "clean") /\
        an_findings (tr_structured result) = Some (length (firsts (error_site <$> ck_errors report))) /\
        an_citations (tr_structured result) = firsts (error_site <$> ck_errors report)
    | inl e =>
        tr_is_error result = true /\ tr_text result = trim (ce_message (passthrough_error e)) /\
        an_outcome (tr_structured result) = Some (lit "execution_failure") /\ an_findings (tr_structured result) = None
    end.
Proof.
  destruct engine as [e|report]; cbn [check].
  - intros _. set (message := ce_message (passthrough_error e)). exists (inl (passthrough_error e)), (mkLeft 1 [] (message ++ nl)).
    destruct (error_not_blank (ch "k") (lit "tsense: " ++ passthrough_text e) eq_refl) as [Et Hb]. fold message in Et, Hb.
    destruct (index_total (mkCall CHECK root (Some 1%Z) None) (trim message)) as [answer Ea]. eexists. split; [done|]. split; [done|].
    unfold present_check, failure_text. change (check_outcome _) with CheckExecutionFailure. cbn [is_answer iv_stderr iv_stdout iv_root iv_code invocation_of lf_code lf_stdout lf_stderr].
    change ((ch "k" :: lit "tsense: " ++ passthrough_text e)) with message in Et, Hb. rewrite Et, bool_decide_eq_false_2 by done. rewrite Ea. done.
  - intros [He Hl]. set (code := if has_errors report then 1%Z else 0%Z). exists (inr (mkCommandOutcome (Printed (check_markdown report)) (if has_errors report then Failure else Success) None)), (mkLeft code (check_markdown report) []).
    destruct (index_checked (mkCall CHECK root (Some code) None) report He Hl) as (answer & Ea & Ec & Eo).
    assert (check_outcome (mkInvocation (Some code) (check_markdown report) [] root) = if has_errors report then CheckFindings else CheckClean) as Echeck.
    { unfold check_outcome, code. cbn [iv_code iv_stdout iv_stderr]. destruct (has_errors report); [|done]. rewrite (bool_decide_eq_true_2 (_ <> [])); [done|]. apply heading_not_blank. }
    exists (mkToolResult false (check_markdown report) (with_outcome answer (if has_errors report then CheckFindings else CheckClean))).
    split; [done|]. split; [by destruct (has_errors report)|]. unfold present_check, invocation_of. cbn [lf_code lf_stdout lf_stderr]. rewrite Echeck.
    cbn [iv_root iv_code iv_stdout]. replace (is_answer _) with true by by destruct (has_errors report). rewrite Ea. split; [done|].
    destruct (has_errors report) eqn:Eh; cbn [tr_is_error tr_text tr_structured with_outcome an_outcome an_findings an_citations]; rewrite ?Ec, ?Eo, ?Nat.add_0_r; [done|].
    unfold has_errors in Eh. apply orb_false_iff in Eh as [_ Eh]. apply negb_false_iff, bool_decide_eq_true in Eh. by rewrite Eh.
Qed.
Lemma check_tool_agrees_witness :
  let report := mkCheckReport 2 1 [mkSyntaxError (lit "src/Cart.kt") 12 5 (lit "expected a declaration")] in
  exists r left result, check (inr report) Md = Some r /\ main_ [] r = Some left /\ present_check (invocation_of (lit "/shop") left) = Some result /\
    tr_is_error result = false /\ an_outcome (tr_structured result) = Some (lit "findings") /\ an_findings (tr_structured result) = Some 1 /\
    an_citations (tr_structured result) = [mkCitation (lit "src/Cart.kt") 12 (Some 5%N)].
Proof.
  cbv zeta. destruct (check_tool_agrees (lit "/shop") (inr (mkCheckReport 2 1 [mkSyntaxError (lit "src/Cart.kt") 12 5 (lit "expected a declaration")])))
    as (r & left & result & Er & El & Ep & Ee & _ & Eo & Ef & Ec).
  - split; [|apply Nat.leb_le; vm_compute; reflexivity]. repeat constructor; [vm_compute; discriminate|vm_compute; discriminate|]. apply (bool_decide_unpack _). vm_compute. exact I.
  - exists r, left, result. rewrite Eo, Ef, Ec. split; [assumption|]. split; [assumption|]. split; [assumption|]. split; [assumption|].
    split; [reflexivity|]. split; vm_compute; reflexivity.
Defined.

(** ** What the presentation loses *)

(** A miss is exit 1 with its listing on the output stream; once anything was logged while the command ran, as the version
    gate's warning is, the tool's text is the log and the listing is lost. *)
Lemma log_hides_a_miss tool root logs text left warmth result :
  trim logs <> [] -> main_ logs (inr (mkCommandOutcome (Printed text) Failure None)) = Some left -> present tool (invocation_of root left) warmth = Some result ->
  tr_is_error result = true /\ tr_text result = trim logs.
Proof.
  intros Hl. cbn [main_ co_text printed_text mbind option_bind co_stderr from_option co_exit]. intros [= <-]. rewrite app_nil_r. unfold present, failure_text, invocation_of.
  cbn [iv_code iv_stdout iv_stderr iv_root lf_code lf_stdout lf_stderr]. change (bool_decide (exit_of Failure ∈ ANSWER_EXITS)) with false. rewrite bool_decide_eq_false_2 by done.
  destruct (index_answer _ _); [|done]. by intros [= <-].
Qed.
(** A positional that begins with a hyphen is spelled as it is: a search for the symbol [--contains], and one for no symbol
    with the switch set, are the same words. *)
Lemma hyphenated_words_confused :
  let named := SymbolsCall (mkSymbolParams (Some (lit "--contains")) None None None false None) in
  let switched := SymbolsCall (mkSymbolParams None None None None true None) in
  asked named <> asked switched /\ mr_args (request_for named None) = mr_args (request_for switched None).
Proof. split; [discriminate|by vm_compute]. Qed.
