(* ===== verification/Server.v ===== *)
(** * Server: the tool calls of a session, the roots they are about and the engines kept warm for them

    Models, of [crates/ktsense-mcp/src/server.rs], [call_tool], [learn_roots], [advertised_roots], [root_for], [keep_warm],
    [daemon_holds], [invoke] and [on_roots_list_changed], and [warm.rs]. Any number of calls run at once: a step is what a
    call does between two awaits, and between any two of its steps the others, the client and the notification handler
    take theirs. The replies of the client, the runner and the engine are what each step is given. *)
From stdpp Require Import gmap.
From Stdlib Require Import QArith.Qcanon.
From S2P Require Import Prelude Collections Files Engine Citations Mcp.

Set Default Proof Using "Type*".

(** ** What the calls share *)

Inductive Warmth := Decided | LeftToDaemon | Opened | WarmFailed.
#[export] Instance Warmth_eq_dec : EqDecision Warmth.
Proof. solve_decision. Defined.
Definition warmth_label (warmth : Warmth) : str :=
  match warmth with
  | Decided => lit "already_decided" | LeftToDaemon => lit "left_to_daemon" | Opened => lit "opened" | WarmFailed => lit "failed"
  end.

(** Where a call stands: what it does when it runs next. *)
Inductive Stage :=
  | Learning                                        (* [learn_roots]: looks whether the roots are known *)
  | Listing                                         (* [advertised_roots]: the client answers *)
  | Storing (roots : list str)                      (* [learn_roots]: keeps the answer *)
  | Rooting                                         (* [root_for] *)
  | Claiming (root : str) (request : Request)       (* [ensure]: [claim] *)
  | Probing (root : str) (request : Request)        (* [decide]: [daemon_holds] *)
  | Opening (root : str) (request : Request)        (* [decide]: [open] *)
  | Delegating (request : Request) (warmth : option Warmth)    (* [invoke]: the runner *)
  | Replied (request : Request) (warmth : option Warmth) (result : option CallToolResult).    (* [None]: the runner's error *)
(** [tk_claimed] is the root the call was granted to decide. A root is decided and held as a [PathBuf]: equal by its
    components, so that [/shop] and [/shop/] are one root. *)
Record Task := mkTask { tk_call : ToolCall; tk_stage : Stage; tk_claimed : option FsPath }.
Record Server := mkServer {
  sv_roots : option (list str);       (* [client_roots] *)
  sv_decided : gset FsPath;           (* [WarmEngines::decided] *)
  sv_held : list FsPath;              (* the roots of the sessions [EngineWarmer] holds *)
  sv_uris : list str;                 (* the roots of the client, as it would list them now *)
  sv_notices : nat;                   (* its change notices that are not handled yet *)
  sv_tasks : gmap nat Task }.

Definition with_task (s : Server) (p : nat) (t : Task) : Server := mkServer (sv_roots s) (sv_decided s) (sv_held s) (sv_uris s) (sv_notices s) (<[p := t]> (sv_tasks s)).
Definition with_roots (s : Server) (roots : option (list str)) : Server := mkServer roots (sv_decided s) (sv_held s) (sv_uris s) (sv_notices s) (sv_tasks s).
Definition with_decided (s : Server) (root : FsPath) : Server := mkServer (sv_roots s) ({[root]} ∪ sv_decided s) (sv_held s) (sv_uris s) (sv_notices s) (sv_tasks s).
Definition with_held (s : Server) (root : FsPath) : Server := mkServer (sv_roots s) (sv_decided s) (sv_held s ++ [root]) (sv_uris s) (sv_notices s) (sv_tasks s).

Section server.
(** Whether a path exists and what it resolves to, the server's own root, whether it keeps engines warm, whether the client
    declared that it has roots, and the field [daemon.state] of a report in JSON. *)
Context (exists_ : str -> bool) (canonicalize : FsPath -> option FsPath) (default_root : str) (warming declared : bool) (state_of : str -> option str).

(** What the others yield in one step: the client's list, a process's output, an opened session; [None] is that the bound
    elapsed first. *)
Record Yield := mkYield { yl_listed : bool; yl_probe : option (option Invocation); yl_opened : option bool; yl_left : option Invocation }.

Definition root_for (s : Server) (call : ToolCall) : option str :=
  resolve_root_for exists_ canonicalize (default [] (sv_roots s)) (named_root call) (subject_of call).
Definition advertised_roots (listed : bool) (uris : list str) : list str := if listed then uri_to_path <$> uris else [].
(** The arguments [daemon_holds] asks the binary with, and what it reads of the answer. *)
Definition probe_request (root : str) : Request := mkRequest [to_cli_command STATUS] (Some root) McpJson.
Definition daemon_holds (probed : option Invocation) : bool :=
  match probed with Some invocation => bool_decide (state_of (iv_stdout invocation) = Some (lit "running")) | None => false end.
(** [keep_warm], up to the claim; [check_kotlin_syntax] goes straight to the runner, and its tool needs no index. *)
Definition keep_warm (call : ToolCall) (request : Request) : Stage :=
  if to_index_shapes_answer (tool_of call) && warming then Claiming (runner_root default_root request) request else Delegating request None.

Section steps.
Context (y : Yield) (p : nat) (s : Server) (t : Task).
Definition go (stage : Stage) : Server := with_task s p (mkTask (tk_call t) stage (tk_claimed t)).
(** [learn_roots] *)
Definition learn_step : Server :=
  match sv_roots s with Some _ => go Rooting | None => if declared then go Listing else go (Storing []) end.
Definition store_step (roots : list str) : Server := with_roots (go Rooting) (Some roots).
(** [claim]: looking and recording are one step. *)
Definition claim_step (root : str) (request : Request) : Server :=
  if bool_decide (parse_path root ∈ sv_decided s) then go (Delegating request (Some Decided))
  else with_decided (with_task s p (mkTask (tk_call t) (Probing root request) (Some (parse_path root)))) (parse_path root).
(** [decide], under the bound of [ensure] *)
Definition probe_step (root : str) (request : Request) : Server :=
  match yl_probe y with
  | None => go (Delegating request (Some WarmFailed))
  | Some probed => if daemon_holds probed then go (Delegating request (Some LeftToDaemon)) else go (Opening root request)
  end.
Definition open_step (root : str) (request : Request) : Server :=
  match yl_opened y with
  | Some true => with_held (go (Delegating request (Some Opened))) (parse_path root)
  | _ => go (Delegating request (Some WarmFailed))
  end.
(** [invoke]; [None] would be an index that is not produced. *)
Definition delegate_step (request : Request) (warmth : option Warmth) : option Server :=
  match yl_left y with
  | None => Some (go (Replied request warmth None))
  | Some invocation => result ← presented (tk_call t) (warmth_label <$> warmth) invocation; Some (go (Replied request warmth (Some result)))
  end.
Definition task_step : option Server :=
  match tk_stage t with
  | Learning => Some learn_step
  | Listing => Some (go (Storing (advertised_roots (yl_listed y) (sv_uris s))))
  | Storing roots => Some (store_step roots)
  | Rooting => let request := request_for (tk_call t) (root_for s (tk_call t)) in Some (go (keep_warm (tk_call t) request))
  | Claiming root request => Some (claim_step root request)
  | Probing root request => Some (probe_step root request)
  | Opening root request => Some (open_step root request)
  | Delegating request warmth => delegate_step request warmth
  | Replied _ _ _ => None
  end.
End steps.

(** ** Everything that happens *)

Inductive Happening :=
  | Called (p : nat) (call : ToolCall)
  | Steps (p : nat) (y : Yield)
  | Changed (uris : list str)         (* the client's roots change, and it says so *)
  | Noticed.                          (* [on_roots_list_changed] *)
Definition happen (e : Happening) (s : Server) : option Server :=
  match e with
  | Called p call => if bool_decide (is_Some (sv_tasks s !! p)) then None else Some (with_task s p (mkTask call Learning None))
  | Steps p y => t ← sv_tasks s !! p; task_step y p s t
  | Changed uris => Some (mkServer (sv_roots s) (sv_decided s) (sv_held s) uris (S (sv_notices s)) (sv_tasks s))
  | Noticed => match sv_notices s with O => None | S n => Some (mkServer None (sv_decided s) (sv_held s) (sv_uris s) n (sv_tasks s)) end
  end.
Fixpoint happenings (es : list Happening) (s : Server) : option Server := match es with [] => Some s | e :: es => s ← happen e s; happenings es s end.
Definition server_new (uris : list str) : Server := mkServer None ∅ [] uris 0 ∅.
End server.

(** ** Lemmas: what a step touches *)

(** The warmth a call was given, once it was. *)
Definition warmth_of (stage : Stage) : option Warmth := match stage with Delegating _ warmth | Replied _ warmth _ => warmth | _ => None end.
(** The request of a call past [root_for]. *)
Definition request_of (stage : Stage) : option Request :=
  match stage with Claiming _ request | Probing _ request | Opening _ request | Delegating request _ | Replied request _ _ => Some request | _ => None end.
(** The root a call may have been granted, by the stage it is at. *)
Definition deciding (stage : Stage) : option str := match stage with Probing root _ | Opening root _ => Some root | _ => None end.

(** ** One decision per root *)

Section deciding.
Context (default_root : str).
Definition staged (decided : gset FsPath) (t : Task) : Prop :=
  match tk_stage t with
  | Claiming root request => root = runner_root default_root request /\ tk_claimed t = None
  | Probing root request | Opening root request => root = runner_root default_root request /\ tk_claimed t = Some (parse_path root)
  | Delegating request warmth | Replied request warmth _ =>
      match warmth with
      | None => tk_claimed t = None
      | Some Decided => tk_claimed t = None /\ parse_path (runner_root default_root request) ∈ decided
      | Some _ => tk_claimed t = Some (parse_path (runner_root default_root request))
      end
  | _ => tk_claimed t = None
  end.
Record sound (s : Server) : Prop := {
  so_claim : forall p q t u root, sv_tasks s !! p = Some t -> sv_tasks s !! q = Some u -> tk_claimed t = Some root -> tk_claimed u = Some root -> p = q;
  so_decided : forall root, root ∈ sv_decided s <-> exists p t, sv_tasks s !! p = Some t /\ tk_claimed t = Some root;
  so_unique : NoDup (sv_held s);
  so_held : forall root, root ∈ sv_held s <-> exists p t, sv_tasks s !! p = Some t /\ tk_claimed t = Some root /\ warmth_of (tk_stage t) = Some Opened;
  so_stage : forall p t, sv_tasks s !! p = Some t -> staged (sv_decided s) t }.

Lemma sound_new uris : sound (server_new uris).
Proof.
  split; cbn [sv_tasks sv_decided sv_held server_new].
  - intros p q t u root. by rewrite lookup_empty.
  - intros root. split; [set_solver|]. intros (p & t & E & _). by rewrite lookup_empty in E.
  - constructor.
  - intros root. split; [by intros ?%elem_of_nil|]. intros (p & t & E & _). by rewrite lookup_empty in E.
  - intros p t. by rewrite lookup_empty.
Qed.
Lemma sound_same s s' : sound s -> sv_decided s' = sv_decided s -> sv_held s' = sv_held s -> sv_tasks s' = sv_tasks s -> sound s'.
Proof. intros [Hc Hd Hu Hh Hs] E1 E2 E3. split; rewrite ?E1, ?E2, ?E3; assumption. Qed.
(** A call that moves on with the claim it has. *)
Lemma sound_move s p t t' : sound s -> sv_tasks s !! p = Some t -> tk_claimed t' = tk_claimed t -> staged (sv_decided s) t' ->
  (warmth_of (tk_stage t') = Some Opened <-> warmth_of (tk_stage t) = Some Opened) -> sound (with_task s p t').
Proof.
  intros [Hc Hd Hu Hh Hs] Et Ec Hst Hw.
  assert (forall (P : Task -> Prop), (P t' <-> P t) -> (exists q u, sv_tasks (with_task s p t') !! q = Some u /\ P u) <-> (exists q u, sv_tasks s !! q = Some u /\ P u)) as Hex.
  { intros P HP. cbn [sv_tasks with_task]. split; intros (q & u & Eu & Hu'); exists q; destruct (decide (p = q)) as [<-|Hq].
    - rewrite lookup_insert_eq in Eu. injection Eu as <-. exists t. naive_solver.
    - rewrite lookup_insert_ne in Eu by done. by exists u.
    - exists t'. rewrite lookup_insert_eq. split; [done|]. apply HP. congruence.
    - exists u. by rewrite lookup_insert_ne. }
  split.
  - cbn [sv_tasks with_task]. intros q1 q2 u1 u2 root. rewrite !lookup_insert. repeat case_decide; subst; [done| | |apply Hc].
    + intros [= <-] Eu H1 H2. rewrite Ec in H1. by apply (Hc _ q2 t u2 root).
    + intros Eu [= <-] H1 H2. rewrite Ec in H2. by apply (Hc q1 _ u1 t root).
  - intros root. cbn [sv_decided with_task]. rewrite Hd. symmetry. apply (Hex (fun u => tk_claimed u = Some root)). by rewrite Ec.
  - exact Hu.
  - intros root. cbn [sv_held with_task]. rewrite Hh. symmetry. apply (Hex (fun u => tk_claimed u = Some root /\ warmth_of (tk_stage u) = Some Opened)). by rewrite Ec, Hw.
  - cbn [sv_tasks with_task sv_decided]. intros q u. rewrite lookup_insert. case_decide; [by intros [= <-]|apply Hs].
Qed.
Lemma sound_arrival s p call : sound s -> sv_tasks s !! p = None -> sound (with_task s p (mkTask call Learning None)).
Proof.
  intros [Hc Hd Hu Hh Hs] Et. split; cbn [sv_tasks with_task sv_decided sv_held].
  - intros q1 q2 u1 u2 root. rewrite !lookup_insert. repeat case_decide; subst; [done|by intros [= <-]|by intros ? [= <-]|apply Hc].
  - intros root. rewrite Hd. split; intros (q & u & Eu & Hr); exists q, u; (split; [|done]).
    + rewrite lookup_insert_ne; [done|congruence].
    + rewrite lookup_insert in Eu. case_decide; [|done]. injection Eu as <-. discriminate Hr.
  - done.
  - intros root. rewrite Hh. split; intros (q & u & Eu & Hr); exists q, u; (split; [|done]).
    + rewrite lookup_insert_ne; [done|congruence].
    + rewrite lookup_insert in Eu. case_decide; [|done]. injection Eu as <-. by destruct Hr as [[=] _].
  - intros q u. rewrite lookup_insert. case_decide; [by intros [= <-]|apply Hs].
Qed.
Lemma staged_mono decided decided' t : decided ⊆ decided' -> staged decided t -> staged decided' t.
Proof. intros Hd. unfold staged. destruct (tk_stage t); try done; destruct warmth as [[]|]; set_solver. Qed.
Lemma sound_claim s p t root request : sound s -> sv_tasks s !! p = Some t -> tk_stage t = Claiming root request -> parse_path root ∉ sv_decided s ->
  sound (with_decided (with_task s p (mkTask (tk_call t) (Probing root request) (Some (parse_path root)))) (parse_path root)).
Proof.
  intros [Hc Hd Hu Hh Hs] Et Est Hn. pose proof (Hs p t Et) as Hst. unfold staged in Hst. rewrite Est in Hst. destruct Hst as [Hr Hcl].
  assert (forall q u, sv_tasks s !! q = Some u -> tk_claimed u <> Some (parse_path root)) as Hfree by (intros q u Eu Hu'; apply Hn, Hd; by exists q, u).
  split; cbn [sv_tasks with_task with_decided sv_decided sv_held].
  - intros q1 q2 u1 u2 r. rewrite !lookup_insert. repeat case_decide; subst; [done| | |apply Hc].
    + intros [= <-] Eu [= <-] H2. by destruct (Hfree _ _ Eu).
    + intros Eu [= <-] H1 [= <-]. by destruct (Hfree _ _ Eu).
  - intros r. rewrite elem_of_union, elem_of_singleton, Hd. split.
    + intros [->|(q & u & Eu & Hr')]; [exists p; eexists; by rewrite lookup_insert_eq|]. exists q, u. rewrite lookup_insert_ne; [done|]. intros <-. congruence.
    + intros (q & u & Eu & Hr'). rewrite lookup_insert in Eu. case_decide; [injection Eu as <-; injection Hr' as ->; by left|]. right. by exists q, u.
  - done.
  - intros r. rewrite Hh. split; intros (q & u & Eu & Hr1 & Hr2); exists q, u; (split; [|done]).
    + rewrite lookup_insert_ne; [done|]. intros <-. congruence.
    + rewrite lookup_insert in Eu. case_decide; [|done]. by injection Eu as <-.
  - intros q u. rewrite lookup_insert. case_decide; [by intros [= <-]|]. intros Eu. eapply staged_mono; [|by apply (Hs q)]. set_solver.
Qed.
Lemma sound_open s p t root request : sound s -> sv_tasks s !! p = Some t -> tk_stage t = Opening root request ->
  sound (with_held (with_task s p (mkTask (tk_call t) (Delegating request (Some Opened)) (tk_claimed t))) (parse_path root)).
Proof.
  intros [Hc Hd Hu Hh Hs] Et Est. pose proof (Hs p t Et) as Hst. unfold staged in Hst. rewrite Est in Hst. destruct Hst as [Hr Hcl].
  assert (forall q u, q <> p -> sv_tasks s !! q = Some u -> tk_claimed u <> Some (parse_path root)) as Hfree by (intros q u Hq Eu Hu'; apply Hq; by apply (Hc _ _ u t (parse_path root))).
  split; cbn [sv_tasks with_task with_held sv_decided sv_held].
  - intros q1 q2 u1 u2 r. rewrite !lookup_insert. repeat case_decide; subst; [done| | |apply Hc].
    + intros [= <-] Eu H1 H2. by apply (Hc _ q2 t u2 r).
    + intros Eu [= <-] H1 H2. by apply (Hc q1 _ u1 t r).
  - intros r. rewrite Hd. split; intros (q & u & Eu & Hr').
    + destruct (decide (p = q)) as [<-|Hq]; [|exists q, u; by rewrite lookup_insert_ne]. exists p. eexists. rewrite lookup_insert_eq. split; [done|]. cbn [tk_claimed]. congruence.
    + rewrite lookup_insert in Eu. case_decide; [injection Eu as <-; by exists p, t|by exists q, u].
  - apply NoDup_app. split_and!; [done| |apply NoDup_singleton]. intros r (q & u & Eu & Hr1 & Hr2)%Hh ->%list_elem_of_singleton.
    destruct (decide (q = p)) as [->|Hq]; [rewrite Et in Eu; simplify_eq; by rewrite Est in Hr2|by destruct (Hfree q u Hq Eu)].
  - intros r. rewrite elem_of_app, list_elem_of_singleton, Hh. split.
    + intros [(q & u & Eu & Hr1 & Hr2)| ->].
      * exists q, u. rewrite lookup_insert_ne; [done|]. intros <-. rewrite Et in Eu. simplify_eq. by rewrite Est in Hr2.
      * exists p. eexists. rewrite lookup_insert_eq. done.
    + intros (q & u & Eu & Hr1 & Hr2). rewrite lookup_insert in Eu. case_decide; [injection Eu as <-; cbn in Hr1; right; congruence|]. left. by exists q, u.
  - intros q u. rewrite lookup_insert. case_decide; [|apply Hs]. intros [= <-]. cbn. by rewrite <- Hr.
Qed.
End deciding.

Section runs.
Context (exists_ : str -> bool) (canonicalize : FsPath -> option FsPath) (default_root : str) (warming declared : bool) (state_of : str -> option str).
Local Abbreviation step := (task_step exists_ canonicalize default_root warming declared state_of).
Local Abbreviation does := (happen exists_ canonicalize default_root warming declared state_of).
Local Abbreviation runs := (happenings exists_ canonicalize default_root warming declared state_of).

Lemma runs_ind (P : Server -> Prop) : (forall e s s', P s -> does e s = Some s' -> P s') -> forall es s s', P s -> runs es s = Some s' -> P s'.
Proof.
  intros Hstep es. induction es as [|e es IH]; intros s s' Hs; cbn [happenings]; [by intros [= <-]|].
  destruct (does e s) as [s1|] eqn:E; [|done]. cbn [mbind option_bind]. apply IH. by eapply Hstep.
Qed.
(** A call that is not over can always take its next step, whatever the others are doing and whatever it is given. *)
Lemma step_total y p s t : (forall request warmth result, tk_stage t <> Replied request warmth result) -> is_Some (step y p s t).
Proof.
  intros Hn. unfold task_step. destruct (tk_stage t); try by eexists.
  - unfold delegate_step. destruct (yl_left y) as [invocation|]; [|by eexists]. unfold presented. destruct (tk_call t); unfold present, present_check;
      (match goal with |- context [index_answer ?c ?text] => destruct (index_total c text) as [answer ->] end; by eexists).
  - by destruct (Hn request warmth result).
Qed.

Lemma step_sound y p s t s' : sound default_root s -> sv_tasks s !! p = Some t -> step y p s t = Some s' -> sound default_root s'.
Proof.
  intros Hs Et Hstep. pose proof (so_stage default_root s Hs p t Et) as Hst. unfold staged in Hst.
  assert (forall stage, staged default_root (sv_decided s) (mkTask (tk_call t) stage (tk_claimed t)) -> (warmth_of stage = Some Opened <-> warmth_of (tk_stage t) = Some Opened) -> sound default_root (go p s t stage)) as Hmove.
  { intros stage Hstage Hw. by eapply sound_move. }
  unfold task_step in Hstep. destruct (tk_stage t) as [| |roots| |root request|root request|root request|request warmth|request warmth result] eqn:Est; simplify_eq.
  - unfold learn_step. repeat case_match; by apply Hmove.
  - by apply Hmove.
  - unfold store_step. by apply (sound_same default_root (go p s t Rooting)); [apply Hmove|..].
  - apply Hmove; unfold keep_warm; by case_match.
  - unfold claim_step. destruct Hst as [-> Hcl]. case_bool_decide as Hd; [by apply Hmove|by apply sound_claim].
  - destruct Hst as [-> Hcl]. unfold probe_step. repeat case_match; by apply Hmove.
  - unfold open_step. pose proof Hst as [-> Hcl]. repeat case_match; [by apply sound_open|by apply Hmove..].
  - unfold delegate_step in Hstep. destruct (yl_left y) as [invocation|]; [destruct (presented _ _ invocation); [|done]; cbn in Hstep|]; simplify_eq; by apply Hmove.
Qed.
Lemma happen_sound e s s' : sound default_root s -> does e s = Some s' -> sound default_root s'.
Proof.
  intros Hs. destruct e as [p call|p y|uris|]; cbn [happen].
  - case_bool_decide as Hp; [done|]. apply eq_None_not_Some in Hp. intros [= <-]. by apply sound_arrival.
  - destruct (sv_tasks s !! p) as [t|] eqn:Et; [|done]. by apply step_sound.
  - intros [= <-]. by apply (sound_same default_root s).
  - destruct (sv_notices s); [done|]. intros [= <-]. by apply (sound_same default_root s).
Qed.
Lemma runs_sound es uris s : runs es (server_new uris) = Some s -> sound default_root s.
Proof. apply (runs_ind (sound default_root)); [intros e v v'; apply happen_sound|apply sound_new]. Qed.
End runs.

(** ** Properties: warming *)

Section properties.
Context (exists_ : str -> bool) (canonicalize : FsPath -> option FsPath) (default_root : str) (warming declared : bool) (state_of : str -> option str).
Local Abbreviation does := (happen exists_ canonicalize default_root warming declared state_of).
Local Abbreviation runs := (happenings exists_ canonicalize default_root warming declared state_of).

(** C31: Each root is decided once, whatever calls run at once and however their steps interleave, a root being the path
    its text spells (two spellings of one path, as [/shop] and [/shop/], are one root; a link and what it leads to are two):
    two calls are never granted the same root, no root has two warm sessions, a session is held exactly for the roots a call
    reports as opened, and a call that reports a root as already decided is about a root another call was granted. *)
Theorem warm_decided_once (uris : list str) (es : list Happening) (s : Server) :
  runs es (server_new uris) = Some s ->
  (forall p q t u root, sv_tasks s !! p = Some t -> sv_tasks s !! q = Some u -> tk_claimed t = Some root -> tk_claimed u = Some root -> p = q) /\
  NoDup (sv_held s) /\
  (forall root, root ∈ sv_held s <-> exists p t, sv_tasks s !! p = Some t /\ tk_claimed t = Some root /\ warmth_of (tk_stage t) = Some Opened) /\
  forall p t request warmth, sv_tasks s !! p = Some t -> request_of (tk_stage t) = Some request -> warmth_of (tk_stage t) = Some warmth ->
    exists q u, sv_tasks s !! q = Some u /\ tk_claimed u = Some (parse_path (runner_root default_root request)) /\ (warmth <> Decided <-> q = p).
Proof.
  intros Hr. destruct (runs_sound exists_ canonicalize default_root warming declared state_of es uris s Hr) as [Hc Hd Hu Hh Hs].
  split; [exact Hc|]. split; [exact Hu|]. split; [exact Hh|]. intros p t request warmth Et Hreq Hw. pose proof (Hs p t Et) as Hst. unfold staged in Hst.
  destruct (decide (warmth = Decided)) as [->|Hn].
  - assert (tk_claimed t = None /\ parse_path (runner_root default_root request) ∈ sv_decided s) as [Hcl (q & u & Eu & Hu')%Hd] by (destruct (tk_stage t); try done; cbn in Hreq, Hw; by simplify_eq).
    exists q, u. split; [done|]. split; [done|]. split; [done|]. intros ->. congruence.
  - exists p, t. split; [done|]. split; [|done]. destruct (tk_stage t); try done; cbn in Hreq, Hw; simplify_eq; by destruct warmth.
Qed.

(** The steps a call has left, at most. *)
Definition steps_left (stage : Stage) : nat :=
  match stage with
  | Learning => 8 | Listing => 7 | Storing _ => 6 | Rooting => 5 | Claiming _ _ => 4 | Probing _ _ => 3 | Opening _ _ => 2 | Delegating _ _ => 1 | Replied _ _ _ => 0
  end.
Fixpoint steps_of (p : nat) (es : list Happening) : nat :=
  match es with [] => 0 | e :: es => match e with Steps q _ => if q =? p then S (steps_of p es) else steps_of p es | _ => steps_of p es end end.
Lemma step_spends y p s t s' : task_step exists_ canonicalize default_root warming declared state_of y p s t = Some s' ->
  exists t', sv_tasks s' = <[p := t']> (sv_tasks s) /\ steps_left (tk_stage t') < steps_left (tk_stage t).
Proof.
  unfold task_step, learn_step, claim_step, probe_step, open_step, delegate_step, store_step, keep_warm, go. intros Hs.
  destruct (tk_stage t) eqn:Est; simplify_eq; repeat case_match; simplify_eq; cbn [sv_tasks with_task with_roots with_decided with_held]; try (eexists; split; [reflexivity|]; cbn [tk_stage steps_left]; try (case_match; cbn [steps_left]); lia).
  destruct (presented _ _ _); [|done]. cbn in Hs. simplify_eq. eexists. split; [reflexivity|]. cbn. lia.
Qed.
Lemma steps_bounded p es : forall s s' t, sv_tasks s !! p = Some t -> runs es s = Some s' ->
  exists t', sv_tasks s' !! p = Some t' /\ steps_of p es + steps_left (tk_stage t') <= steps_left (tk_stage t).
Proof.
  induction es as [|e es IH]; intros s s' t Et; cbn [happenings]; [intros [= <-]; exists t; split; [done|]; cbn; lia|].
  destruct (does e s) as [s1|] eqn:E; [|done]. cbn [mbind option_bind]. cbn [steps_of].
  destruct e as [q call|q y|uris|]; cbn [happen] in E.
  - case_bool_decide as Hq; [done|]. simplify_eq. apply IH. cbn. rewrite lookup_insert_ne; [done|]. intros ->. apply Hq. by eexists.
  - destruct (sv_tasks s !! q) as [u|] eqn:Eu; [|done]. cbn [mbind option_bind] in E. apply step_spends in E as (u' & Es & Hl). intros Hr. destruct (Nat.eqb_spec q p) as [->|Hq].
    + rewrite Et in Eu. simplify_eq. destruct (IH s1 s' u') as (t' & Et' & Hb); [rewrite Es; apply lookup_insert_eq|done|]. exists t'. split; [done|]. lia.
    + apply (IH s1); [|done]. by rewrite Es, lookup_insert_ne.
  - simplify_eq. by apply IH.
  - destruct (sv_notices s); [done|]. simplify_eq. by apply IH.
Qed.

(** Every call is answered, and none waits for another: whatever has happened, a call that has not replied takes its next
    step whatever the others are doing - deciding the root it asks about, or any other - and after at most eight of its own
    steps it has replied. *)
Theorem every_call_replies (es : list Happening) (s s' : Server) (p : nat) (t : Task) :
  sv_tasks s !! p = Some t -> runs es s = Some s' ->
  steps_of p es <= 8 /\
  exists t', sv_tasks s' !! p = Some t' /\
    ((exists request warmth result, tk_stage t' = Replied request warmth result) \/ forall y, is_Some (does (Steps p y) s')).
Proof.
  intros Et Hr. destruct (steps_bounded p es s s' t Et Hr) as (t' & Et' & Hb). split; [destruct (tk_stage t); cbn in Hb; lia|]. exists t'. split; [done|].
  destruct (tk_stage t') as [| |roots| |root request|root request|root request|request warmth|request warmth result] eqn:Est; [right..|left; by eexists _, _, _];
    intros y; cbn [happen]; rewrite Et'; apply step_total; intros r w o; congruence.
Qed.
End properties.

(** ** Properties: roots *)

Section roots.
Context (exists_ : str -> bool) (canonicalize : FsPath -> option FsPath) (default_root : str) (warming : bool) (state_of : str -> option str).
Local Abbreviation does := (happen exists_ canonicalize default_root warming true state_of).
Local Abbreviation runs := (happenings exists_ canonicalize default_root warming true state_of).

(** The client answers when it is asked, and its notices are handled while no call is between its answer and [root_for]. *)
Definition calm (e : Happening) (s : Server) : Prop :=
  match e with
  | Steps _ y => yl_listed y = true
  | Noticed => forall p t, sv_tasks s !! p = Some t -> match tk_stage t with Storing _ | Rooting => False | _ => True end
  | _ => True
  end.
Fixpoint calmly (es : list Happening) (s : Server) : Prop :=
  match es with [] => True | e :: es => calm e s /\ forall s1, does e s = Some s1 -> calmly es s1 end.

Definition listed (s : Server) : list str := uri_to_path <$> sv_uris s.
Record followed (s : Server) : Prop := {
  fo_known : sv_notices s = 0 -> forall roots, sv_roots s = Some roots -> roots = listed s;
  fo_stored : sv_notices s = 0 -> forall p t roots, sv_tasks s !! p = Some t -> tk_stage t = Storing roots -> roots = listed s;
  fo_rooting : forall p t, sv_tasks s !! p = Some t -> tk_stage t = Rooting -> is_Some (sv_roots s) }.
(** A call that moves on to a stage that knows no more. *)
Lemma followed_move s s' p t' : followed s -> sv_tasks s' = <[p := t']> (sv_tasks s) -> sv_roots s' = sv_roots s -> sv_uris s' = sv_uris s -> sv_notices s' = sv_notices s ->
  (forall roots, tk_stage t' = Storing roots -> roots = listed s) -> (tk_stage t' = Rooting -> is_Some (sv_roots s)) -> followed s'.
Proof.
  intros [Hk Hst Hr] E1 E2 E3 E4 Hsto Hroot. assert (listed s' = listed s) as El by (unfold listed; by rewrite E3). split; rewrite ?E1, ?E2, ?E4, ?El; [exact Hk| |].
  - intros Hn q u roots. rewrite lookup_insert. case_decide; [intros [= <-]; apply Hsto|by apply Hst].
  - intros q u. rewrite lookup_insert. case_decide; [intros [= <-]; apply Hroot|apply Hr].
Qed.
Ltac moves_on Hf := eapply followed_move; [exact Hf|reflexivity|reflexivity|reflexivity|reflexivity|..]; try done.
Lemma step_followed y p s t s' : followed s -> yl_listed y = true -> sv_tasks s !! p = Some t ->
  task_step exists_ canonicalize default_root warming true state_of y p s t = Some s' -> followed s'.
Proof.
  intros Hf Hy Et. unfold task_step, learn_step, claim_step, probe_step, open_step, delegate_step, keep_warm. intros Hs.
  destruct (tk_stage t) as [| |roots| |root request|root request|root request|request warmth|request warmth result] eqn:Est; simplify_eq.
  - destruct (sv_roots s) as [roots|] eqn:Er; moves_on Hf.
  - rewrite Hy. moves_on Hf. cbn. by intros roots [= <-].
  - destruct Hf as [Hk Hst Hr]. unfold store_step, with_roots, go, with_task. split; cbn [sv_roots sv_tasks sv_uris sv_notices].
    + intros Hn roots' [= <-]. by apply (Hst Hn p t).
    + intros Hn q u roots'. rewrite lookup_insert. case_decide; [by intros [= <-]|by apply Hst].
    + by eexists.
  - case_match; moves_on Hf.
  - case_match; moves_on Hf.
  - repeat case_match; moves_on Hf.
  - repeat case_match; moves_on Hf.
  - destruct (yl_left y) as [invocation|]; [destruct (presented _ _ invocation); [|done]; cbn in Hs|]; simplify_eq; moves_on Hf.
Qed.
Lemma happen_followed e s s' : followed s -> calm e s -> does e s = Some s' -> followed s'.
Proof.
  intros Hf. destruct e as [p call|p y|uris|]; cbn [happen calm]; intros Hc.
  - case_bool_decide; [done|]. intros [= <-]. moves_on Hf.
  - destruct (sv_tasks s !! p) as [t|] eqn:Et; [|done]. by apply step_followed.
  - intros [= <-]. split; [done|done|apply (fo_rooting s Hf)].
  - destruct (sv_notices s) eqn:En; [done|]. intros [= <-]. split; cbn [sv_notices sv_roots sv_tasks]; [done| |].
    + intros _ q u roots Eu Hs. specialize (Hc q u Eu). by rewrite Hs in Hc.
    + intros q u Eu Hs. specialize (Hc q u Eu). by rewrite Hs in Hc.
Qed.
Lemma runs_followed es : forall s s', followed s -> calmly es s -> runs es s = Some s' -> followed s'.
Proof.
  induction es as [|e es IH]; intros s s' Hf Hc; cbn [happenings]; [by intros [= <-]|]. destruct Hc as [Hc Hcs].
  destruct (does e s) as [s1|] eqn:E; [|done]. cbn [mbind option_bind]. apply IH; [by eapply happen_followed|by apply Hcs].
Qed.

(** C32: A call is about the client's roots as they are, with a client that declared that it has roots and under three
    conditions: every [roots/list] it was asked is answered in time and without an error (one that is not is kept as an
    empty list, [unanswered_list_serves_own_root]); no change notice is still to be handled when the call settles its root;
    and no notice was handled while a call was between the client's answer and its own settling ([stale_roots_kept],
    [roots_forgotten_midway]). Then a call that names no root asks about the first listed root that holds what it names, of
    the roots the client has at that moment, else the first of them, and one that names a root asks about that. *)
Theorem roots_followed (uris : list str) (es : list Happening) (s : Server) (p : nat) (t : Task) (y : Yield) :
  runs es (server_new uris) = Some s -> calmly es (server_new uris) -> sv_notices s = 0 -> sv_tasks s !! p = Some t -> tk_stage t = Rooting ->
  exists s' t', does (Steps p y) s = Some s' /\ sv_tasks s' !! p = Some t' /\
    request_of (tk_stage t') = Some (request_for (tk_call t) (resolve_root_for exists_ canonicalize (uri_to_path <$> sv_uris s) (named_root (tk_call t)) (subject_of (tk_call t)))).
Proof.
  intros Hr Hc Hn Et Est. assert (followed s) as [Hk _ Hroot].
  { eapply runs_followed; [|exact Hc|exact Hr]. split; [done|intros _|]; cbn; intros q u; by rewrite lookup_empty. }
  destruct (Hroot p t Et Est) as [roots Er]. specialize (Hk Hn roots Er). subst roots. cbn [happen]. rewrite Et. cbn [mbind option_bind]. unfold task_step. rewrite Est.
  eexists _, _. split; [done|]. cbn [go with_task sv_tasks]. rewrite lookup_insert_eq. split; [done|]. cbn [tk_stage]. unfold root_for. rewrite Er. unfold listed, keep_warm. by case_match.
Qed.
End roots.

(** ** Witnesses, and the races *)

Local Notation asked := (mkYield true (Some (Some (mkInvocation (Some 0%Z) [] [] []))) (Some true) None).
Local Notation about_file file := (OutlineCall (mkOutlineParams file false false false None)).
Local Notation about_symbol root := (TraceCall (mkTraceParams (Some (lit "Cart")) None None None [] None root)).
Local Abbreviation demo es := (happenings (fun _ => false) (fun _ => None) (lit "/server") true true (fun _ => None) es).
Local Notation two_traces := [
  Called 0 (about_symbol (Some (lit "/shop"))); Called 1 (about_symbol (Some (lit "/shop/./"))); Steps 0 asked; Steps 1 asked; Steps 0 asked; Steps 1 asked;
  Steps 0 asked; Steps 1 asked; Steps 0 asked; Steps 1 asked; Steps 1 asked; Steps 0 asked; Steps 1 asked; Steps 1 asked].
Lemma warm_decided_once_witness : exists s, demo two_traces (server_new []) = Some s /\ sv_held s = [parse_path (lit "/shop")] /\ NoDup (sv_held s) /\
  (fun t => (mr_root <$> request_of (tk_stage t), warmth_of (tk_stage t))) <$> [default (mkTask (about_symbol None) Learning None) (sv_tasks s !! 0); default (mkTask (about_symbol None) Learning None) (sv_tasks s !! 1)] =
    [(Some (Some (lit "/shop")), Some Decided); (Some (Some (lit "/shop/./")), Some Opened)].
Proof.
  destruct (demo two_traces (server_new [])) as [s|] eqn:E; [|vm_compute in E; discriminate E]. exists s.
  destruct (warm_decided_once (fun _ => false) (fun _ => None) (lit "/server") true true (fun _ => None) [] two_traces s E) as (_ & Hn & _).
  split; [reflexivity|]. split; [|split; [exact Hn|]]; vm_compute in E; injection E as <-; vm_compute; reflexivity.
Defined.
Local Notation asking := [Called 0 (about_file (lit "/b/Cart.kt")); Steps 0 asked; Steps 0 asked; Steps 0 asked].
Lemma roots_followed_witness : exists s s' t', demo asking (server_new [lit "file:///a"; lit "file:///b"]) = Some s /\
  happen (fun _ => false) (fun _ => None) (lit "/server") true true (fun _ => None) (Steps 0 asked) s = Some s' /\ sv_tasks s' !! 0 = Some t' /\
  mr_root <$> request_of (tk_stage t') = Some (Some (lit "/b")).
Proof.
  destruct (demo asking (server_new [lit "file:///a"; lit "file:///b"])) as [s|] eqn:E; [|vm_compute in E; discriminate E].
  destruct (sv_tasks s !! 0) as [t|] eqn:Et; [|vm_compute in E; injection E as <-; vm_compute in Et; discriminate Et].
  destruct (roots_followed (fun _ => false) (fun _ => None) (lit "/server") true (fun _ => None) [lit "file:///a"; lit "file:///b"] asking s 0 t asked E) as (s' & t' & Es & Et' & Er).
  - cbn [calmly calm yl_listed]. repeat (split; [done|intros ? _]). exact I.
  - vm_compute in E. injection E as <-. reflexivity.
  - exact Et.
  - vm_compute in E. injection E as <-. vm_compute in Et. injection Et as <-. reflexivity.
  - exists s, s', t'. split; [reflexivity|]. split; [exact Es|]. split; [exact Et'|]. rewrite Er. vm_compute in E. injection E as <-. vm_compute in Et. injection Et as <-. vm_compute. reflexivity.
Defined.

(** One [roots/list] that fails or is not answered within its bound is kept as an answer of no roots: the call it was asked
    for, and every call after it until the client says its roots changed, is answered about the server's own root, though the
    client has one and would list it now. *)
Local Notation unanswered := [
  Called 0 (about_symbol None); Steps 0 asked; Steps 0 (mkYield false None None None); Steps 0 asked; Steps 0 asked;
  Called 1 (about_symbol None); Steps 1 asked; Steps 1 asked].
Lemma unanswered_list_serves_own_root : exists s t u, demo unanswered (server_new [lit "file:///shop"]) = Some s /\ sv_uris s = [lit "file:///shop"] /\ sv_notices s = 0 /\
  sv_tasks s !! 0 = Some t /\ (runner_root (lit "/server") <$> request_of (tk_stage t)) = Some (lit "/server") /\
  sv_tasks s !! 1 = Some u /\ (runner_root (lit "/server") <$> request_of (tk_stage u)) = Some (lit "/server").
Proof. eexists _, _, _. split; [vm_compute; reflexivity|]. repeat (split; [vm_compute; reflexivity|]). vm_compute. reflexivity. Qed.
(** A list the client gave before its roots changed, kept after the notice was handled, serves every later call: nothing
    drops it until the roots change again. *)
Local Notation overtaken := [
  Called 0 (about_symbol None); Steps 0 asked; Steps 0 asked; Changed [lit "file:///new"]; Noticed; Steps 0 asked;
  Called 1 (about_symbol None); Steps 1 asked; Steps 1 asked].
Lemma stale_roots_kept : exists s t, demo overtaken (server_new [lit "file:///old"]) = Some s /\ sv_uris s = [lit "file:///new"] /\ sv_notices s = 0 /\
  sv_tasks s !! 1 = Some t /\ mr_root <$> request_of (tk_stage t) = Some (Some (lit "/old")).
Proof. eexists _, _. split; [vm_compute; reflexivity|]. repeat (split; [vm_compute; reflexivity|]). vm_compute. reflexivity. Qed.
(** A notice handled between a call's two looks at the roots leaves the call with none: it is answered about the server's own
    root, though the client listed one before the change and one after it. *)
Local Notation forgotten := [Called 0 (about_symbol None); Steps 0 asked; Steps 0 asked; Steps 0 asked; Changed [lit "file:///new"]; Noticed; Steps 0 asked].
Lemma roots_forgotten_midway : exists s t, demo forgotten (server_new [lit "file:///old"]) = Some s /\
  sv_tasks s !! 0 = Some t /\ (runner_root (lit "/server") <$> request_of (tk_stage t)) = Some (lit "/server").
Proof. eexists _, _. split; [vm_compute; reflexivity|]. split; vm_compute; reflexivity. Qed.
